(* ===== verification/_CoqProject ===== *)
-Q . S2P
Prelude.v
CLib.v
Double.v
DoubleFacts.v
Value.v
Bytecode.v
Lookup.v
Lexer.v
LexerFacts.v
Config.v
Network.v
Machine.v
Sscanf.v
Exec.v
ExecIndex.v
ExecFacts.v
Calls.v
CallsFacts.v
VM.v
EvalLimit.v
Discipline.v
Typing.v
Safety.v
Registries.v
Preprocess.v
PreprocessFacts.v
PreprocessPass.v
Connection.v
ConnectionFacts.v
InteractiveFacts.v
Sockets.v
SocketsFacts.v
Server.v
ServerFacts.v
Scheduler.v
SchedulerFacts.v
Serializer.v
SerializerFacts.v
Ast.v
CodeGen.v
CodeGenFacts.v
CodeGenProgram.v
Parser.v
ObjectManager.v
ParserFacts.v
CompileFacts.v
DestructFacts.v
Paths.v
PathsFacts.v
Files.v
FilesFacts.v
SaveText.v
SaveTextFacts.v
Efuns.v
EfunsFacts.v
EfunContracts.v
Sprintf.v
SprintfFacts.v
ParserPrint.v
Semantics.v
CodeShape.v
CodeShapeStatic.v
CodeShapeFacts.v
CodeShapeProgram.v
Simulation.v
Triple.v
CallSteps.v
Refinement.v
Correctness.v
