(* ===== verification/Prelude.v ===== *)
(** * AMLP: a verified model of the LPC driver

    AMLP is a driver for LPC games: it compiles LPC source to bytecode, runs it
    in a virtual machine over a world of objects, and drives that world with
    commands, network input, timed calls, heartbeats, resets and world dumps.
    This development models the parts of src/src and src/include/amlp that
    decide what an LPC program computes and what happens to the world, and
    proves what makes them correct.

    ** How the parts interact

    ObjectManager loads a file: it preprocesses the text (compiler/Lexer.cpp
    tokenizes it, ObjectManager.cpp expands #include and runs cpp on it), loads
    what it inherits, and passes the tokens to the parser and the tree to the
    code generator, which makes a [CompiledProgram].  [VM::run] executes a
    function of a program for an object; calls are resolved along the inherit
    graph ([findFunctionInChain]), then in the simul_efun object, then in the
    efun table.  The entry points of the VM ([callFunction], [callClosure],
    [applyMaster], [moveObject], [dispatchCommand]) set up the stacks of
    callers and end in [run].  The [Scheduler] calls those entry points each
    backend turn; the network server polls the sockets, a [Connection] decodes
    telnet into lines, and lines become commands; [StateSerializer] dumps and
    restores the objects the registries list.  The file efuns ask the master
    object before they touch the disk ([checkValidPath]).

    ** Files

    The library of the development:
    - Prelude.v (this file): the outcomes of C++ code ([outcome]: a value, an
      exception, undefined behaviour, or the model's fuel spent), the state
      monad [M] with its scope guards and catch, record update, machine
      integers, the tactics, and the [always] and [moves] logics.
    - CLib.v, Double.v: the library functions the driver calls: character
      classes, strtoll, to_string, stoll, stoull; binary64 arithmetic, fmod,
      printf, operator<<, stod.  DoubleFacts.v: exactness below 2^53.

    Data and state:
    - Value.v: vm/Value.hpp, vm/Value.cpp and core/Errors.hpp.  Shared
      containers live in a [heap] and are named by locations, so aliasing is
      modelled.  Bytecode.v: vm/Bytecode.hpp.  Config.v: config/Config.cpp.
    - Network.v: the data of net/*.hpp.  Machine.v: object/LpcObject.hpp, the
      members of vm/VM.hpp and the scope guards of VM.cpp; [VMState] is the
      whole state: the object world, the scheduler, the network and what
      ObjectManager keeps, the disk it reads included.
    - Registries.v: the three object tables of src/object and src/net.

    The interpreter:
    - Lookup.v: the function lookup of VM.cpp with its memo tables.
    - Sscanf.v, Exec.v, ExecIndex.v: the opcodes of [VM::run] that stay in one
      frame, one definition [exec_*] per case.  ExecFacts.v: what they compute.
    - Calls.v, CallsFacts.v: the entry points of VM.cpp.
    - VM.v: [VM::run] itself: argument binding, the call opcodes, the loop and
      the catch handlers.  EvalLimit.v: the efuns over the evaluation budget.
      Discipline.v: stack discipline, and when runs end.
      Typing.v, Safety.v: the store invariant and its preservation.

    The compiler and the objects:
    - Lexer.v, LexerFacts.v: compiler/Lexer.cpp.  Ast.v: compiler/Ast.hpp.
      Parser.v: compiler/Parser.cpp, one definition per method, over a token
      array and a position.  ParserFacts.v: it ends.  ParserPrint.v: it reads
      back a printed program.
    - CodeGen.v, CodeGenFacts.v, CodeGenProgram.v: compiler/CodeGenerator.cpp,
      and the verification of what it emits.
    - Preprocess.v, ObjectManager.v: object/ObjectManager.cpp.
      PreprocessFacts.v, PreprocessPass.v, CompileFacts.v, DestructFacts.v:
      the text passes and what reaches the lexer, compilation with its cycle
      guard and cache, [destructObject].
    - Semantics.v: a big-step semantics of LPC statements and expressions, the
      specification the compiler is measured by.  CodeShape*.v: what code the
      generator lays down for a tree.  Simulation.v, Triple.v, CallSteps.v,
      Refinement.v: that code does in [VM::run] what the semantics says.
      Correctness.v: the parts put together, from source tree to result.

    The world outside:
    - Connection.v, ConnectionFacts.v: net/Connection.cpp, the telnet state
      machine.  Sockets.v, SocketsFacts.v: the LPC sockets of
      net/SocketManager.cpp.  Server.v, ServerFacts.v: the poll of
      net/Server.cpp.  InteractiveFacts.v: a connection and its object stay
      each other's.
    - Scheduler.v, SchedulerFacts.v: scheduler/Scheduler.cpp.
    - Serializer.v, SerializerFacts.v: persist/StateSerializer.cpp.

    Efuns (efun/EfunTable.cpp):
    - Paths.v, PathsFacts.v: the gate of the file efuns.  Files.v,
      FilesFacts.v: the efuns that read and change files.
    - SaveText.v, SaveTextFacts.v: [save_object] and [save_variable] and what
      reads them back.
    - Efuns.v, EfunsFacts.v: strings, bit fields, containers, callbacks.
      EfunContracts.v: they keep the contracts of the interpreter.
    - Sprintf.v, SprintfFacts.v: [sprintf], its "%O", and [query_num].

    ** What the theorems show

    Interpreter: within fuel bounded by the evaluation budget a run of any
    program ends, unless it calls one of the efuns that give budget back or loop
    by themselves; [set_eval_limit], [reset_eval_cost], [eval_cost] and
    [max_eval_cost] are of the first kind, and a program that resets its cost in
    a loop does not end.  However it ends a run leaves the stacks of its callers
    as it found them; an error is caught by the innermost frame, at the stack
    depth it recorded, and exceeding the cost limit is not catchable; and a run
    is type safe: no reference to a container dangles and no mapping loses its
    shape.  Each theorem names what it asks of the efuns of the table: to leave
    the stacks alone ([efuns_steady]), to end and give no budget back (outside a
    set of exceptions that is a parameter), to keep the store well typed
    ([efuns_typed]).  The efuns of Efuns.v and EvalLimit.v are shown to keep
    them as far as EfunContracts.v says; nothing of the kind is shown of the
    efuns that save, restore and open files ([restore_variable] may loop).
    Opcodes: mapping merge and assignment, set operators, ranges, spread
    arguments, aliasing of element assignment, exactness of integer arithmetic
    below 2^53 and its failure beyond.  Lookup: the memoised walk is the
    inherit-order specification.  sscanf: it ends, reads back printed integers,
    and splits at literals.
    Compiler: lexer, parser and generator end on every input; a printed token
    list and a printed program are read back; the code is well formed (jumps,
    pools, stack depths), and a supported program computes in the VM what its
    source means.
    Objects: compilation of files ends, inherit cycles included; the variables
    of the ancestors are laid out without overlap; a program is compiled once;
    destruct leaves no link to the object and changes nothing else, the table of
    loaded files aside, where the entry of a clone is that of its blueprint.
    Text: a source with its includes in their places is what cpp is given,
    closures masked, and what the lexer gets when cpp keeps the lines.  Moves keep containment consistent,
    privileges need the consent of the master, commands go to the first
    matching action, program replacement keeps the right variables and the
    shadow links.
    Network: the telnet machine reads its grammar (escaped IAC bytes aside,
    which reach the line) however the bytes arrive in packets; no LPC error
    leaves a poll; a connection and its object stay
    linked; sockets go through their states in order and obey their owner.
    Scheduler: unique handles, ticks that fire exactly what is due and survive
    errors, heartbeats at their interval.
    Persistence: dumps, [save_object] with the file it leaves, and
    [save_variable] are read back, for the values each format holds
    ([storable], [holdable], [savable]; they exclude mappings of several columns
    and floats that the printed digits do not determine); the writer of a dump ends on acyclic values; some corrupt
    texts are not rejected and one makes the reader loop.
    Efuns: what the gate approves stays below the mudlib root, and an efun that
    asks it changes only files below it once the master has answered; [cp] and
    [link] do not ask it.  [explode] and
    [implode], [replace_string], [string_difference], the bit fields and
    [sprintf] meet their specifications.

    ** Parameters, fuel and bounds

    Parameters: the efun table where the interpreter is concerned
    ([EfunTable], with the contracts [efuns_calm] and [efuns_steady] of
    Discipline.v and [efuns_typed] of Safety.v); the clock [ticks], one value per read; the
    text the external preprocessor returns; which efuns exist, as the compiler
    asks; the jitter of resets; what else happens when an object is destructed;
    what the kernel answers to a
    socket call, the spelling of addresses and the order in which a hash table
    is walked; and, for efuns that write, the system calls
    of the file system ([FileSystem] in Files.v).
    Fuel: [loop] takes one unit per instruction, and the charge of the
    evaluation cost bounds it as long as no efun gives budget back
    ([run_terminates]).  The lexer and sscanf take
    one unit per input byte plus one, the parser three per token plus three.
    The generator's fuel is a parameter, shown to exist for every tree.  Lookup takes the
    number of programs plus one, enough for an acyclic inherit graph; shadow
    chains the number of objects plus one.  Compilation takes the number of
    files on disk plus two: the cycle guard stops it earlier.  Includes nest 65
    deep at most, as in the code.  The writer of a dump takes the nesting
    depth; the readers of saved texts may need any amount on corrupt input
    ([unterminated_field_loops], [restore_variable_loops]).

    ** Not modelled

    The bodies of the remaining efuns, most of which wrap what is modelled
    here; the natural language parser package (a parser for player commands);
    the database registry (calls of a client library); boot glue (main,
    dialect/*Boot.cpp) and [VM::runAsync] with its coroutines, which the poll
    and the backend loop take as parameters.  The memory of unreachable objects
    and programs is never reclaimed in the model, memory and the C++ stack are
    unbounded, and two paths that name the same file through links or dots are
    two files to the model's disk. *)
From stdpp Require Export base tactics list gmap strings pretty option.
From Stdlib Require Export ZArith Lia Ascii.
From Stdlib Require Import Floats.SpecFloat.

(** ** Outcomes of C++ code

    A C++ call either returns, throws, has undefined behaviour, or (in this
    model only) runs out of the fuel that bounds recursion. *)
Inductive outcome (E A : Type) :=
  | Ok (a : A)
  | Throw (e : E)
  | Undefined (why : string)
  | OutOfFuel.
Arguments Ok {E A} a.
Arguments Throw {E A} e.
Arguments Undefined {E A} why.
Arguments OutOfFuel {E A}.

Definition obind {E A B} (m : outcome E A) (k : A -> outcome E B) : outcome E B :=
  match m with
  | Ok a => k a
  | Throw e => Throw e
  | Undefined w => Undefined w
  | OutOfFuel => OutOfFuel
  end.

Definition omap_ok {E A B} (f : A -> B) (m : outcome E A) : outcome E B :=
  obind m (fun a => Ok (f a)).

(** A stateful computation keeps the state it reached when it throws: C++
    does not roll back the objects an exception unwinds past. *)
Definition M (S E A : Type) := S -> outcome E A * S.

Definition mret {S E A} (a : A) : M S E A := fun s => (Ok a, s).
Definition mthrow {S E A} (e : E) : M S E A := fun s => (Throw e, s).
Definition mundef {S E A} (w : string) : M S E A := fun s => (Undefined w, s).
Definition mlift {S E A} (o : outcome E A) : M S E A := fun s => (o, s).
Definition mget {S E} : M S E S := fun s => (Ok s, s).
Definition mgets {S E A} (f : S -> A) : M S E A := fun s => (Ok (f s), s).
Definition mmodify {S E} (f : S -> S) : M S E unit := fun s => (Ok tt, f s).

Definition mbind {S E A B} (m : M S E A) (k : A -> M S E B) : M S E B := fun s =>
  match m s with
  | (Ok a, s') => k a s'
  | (Throw e, s') => (Throw e, s')
  | (Undefined w, s') => (Undefined w, s')
  | (OutOfFuel, s') => (OutOfFuel, s')
  end.

(** The destructor of a scope guard: it runs however the scope is left. *)
Definition mfinally {S E A} (m : M S E A) (f : S -> S) : M S E A := fun s =>
  let '(r, s') := m s in (r, f s').

(** [try { m } catch (e) { h e }] *)
Definition mcatch {S E A} (m : M S E A) (h : E -> M S E A) : M S E A := fun s =>
  match m s with
  | (Throw e, s') => h e s'
  | r => r
  end.

Declare Scope amlp_scope.
Delimit Scope amlp_scope with amlp.
Notation "x <- m ;; k" := (mbind m (fun x => k))
  (at level 100, m at next level, right associativity) : amlp_scope.
Notation "m ;; k" := (mbind m (fun _ => k))
  (at level 100, right associativity) : amlp_scope.
Notation "'let!' x := m 'in' k" := (obind m (fun x => k))
  (at level 10, x name, k at level 200) : amlp_scope.
Notation "'let!' ' x := m 'in' k" := (obind m (fun x => k))
  (at level 10, x strict pattern, k at level 200) : amlp_scope.
Open Scope amlp_scope.

(** ** Record update

    [Eta R] lists the fields of a record once; [r <| f := v |>] then replaces
    one of them. *)
Class Eta (R : Type) := eta : R -> R.
Class Setter {R F : Type} (proj : R -> F) := set_field : (F -> F) -> R -> R.

Ltac make_setter :=
  match goal with
  | |- @Setter ?R ?F ?proj =>
      unfold Setter;
      let f := fresh "f" in
      let r := fresh "r" in
      intros f r;
      let b := eval hnf in (@eta R _ r) in
      let p := eval pattern (proj r) in b in
      match p with
      | ?g _ => let t := eval cbv beta in (g (f (proj r))) in exact t
      end
  end.
#[export] Hint Extern 1 (Setter _) => make_setter : typeclass_instances.

Notation "r <| f := v |>" := (set_field (proj := f) (fun _ => v) r)
  (at level 1, left associativity, format "r  <| f  :=  v |>") : amlp_scope.
Notation "r <| f ::= g |>" := (set_field (proj := f) g r)
  (at level 1, left associativity) : amlp_scope.

(** ** Machine integers *)
Definition INT64_MIN : Z := - 2 ^ 63.
Definition INT64_MAX : Z := 2 ^ 63 - 1.
Definition in_int64 (z : Z) : bool := (INT64_MIN <=? z)%Z && (z <=? INT64_MAX)%Z.
Definition in_int32 (z : Z) : bool := (- 2 ^ 31 <=? z)%Z && (z <? 2 ^ 31)%Z.

(** Conversion to a signed [w]-bit type (two's complement, C++20). *)
Definition wrap (w : Z) (z : Z) : Z := ((z + 2 ^ (w - 1)) mod 2 ^ w - 2 ^ (w - 1))%Z.
Definition wrap64 : Z -> Z := wrap 64.
Definition wrap32 : Z -> Z := wrap 32.

(** Signed arithmetic: overflow is undefined behaviour. *)
Definition checked64 {E} (z : Z) : outcome E Z :=
  if in_int64 z then Ok z else Undefined "signed 64-bit overflow".
Definition checked32 {E} (z : Z) : outcome E Z :=
  if in_int32 z then Ok z else Undefined "signed 32-bit overflow".

Lemma wrap_range w z : (0 < w)%Z -> (- 2 ^ (w - 1) <= wrap w z < 2 ^ (w - 1))%Z.
Proof.
  intros Hw. unfold wrap.
  assert (2 ^ w = 2 * 2 ^ (w - 1))%Z as E.
  { rewrite <- Z.pow_succ_r by lia. f_equal. lia. }
  pose proof (Z.mod_pos_bound (z + 2 ^ (w - 1)) (2 ^ w)) as B.
  assert (0 < 2 ^ (w - 1))%Z by (apply Z.pow_pos_nonneg; lia). lia.
Qed.

Lemma wrap_id w z : (0 < w)%Z -> (- 2 ^ (w - 1) <= z < 2 ^ (w - 1))%Z -> wrap w z = z.
Proof.
  intros Hw Hz. unfold wrap.
  assert (2 ^ w = 2 * 2 ^ (w - 1))%Z as E.
  { rewrite <- Z.pow_succ_r by lia. f_equal. lia. }
  rewrite Z.mod_small by lia. lia.
Qed.

Lemma in_int64_spec z : in_int64 z = true <-> (INT64_MIN <= z <= INT64_MAX)%Z.
Proof. unfold in_int64. rewrite andb_true_iff, !Z.leb_le. tauto. Qed.
Lemma wrap64_in z : in_int64 (wrap64 z) = true.
Proof.
  apply in_int64_spec. pose proof (wrap_range 64 z).
  unfold wrap64, INT64_MIN, INT64_MAX. change (64 - 1)%Z with 63%Z in *. lia.
Qed.

(** ** Monad lemmas and automation *)
Create HintDb amlp.
Lemma mbind_ok {S E A B} (m : M S E A) (k : A -> M S E B) s b s' :
  mbind m k s = (Ok b, s') ->
  exists a s1, m s = (Ok a, s1) /\ k a s1 = (Ok b, s').
Proof. unfold mbind. destruct (m s) as [[]] eqn:?; naive_solver. Qed.

(** Run the first computation of a bind. *)
Lemma mbind_run {S E A B} (m : M S E A) (k : A -> M S E B) s a s' :
  m s = (Ok a, s') -> mbind m k s = k a s'.
Proof. intros Hm. unfold mbind. by rewrite Hm. Qed.

Lemma obind_ok {E A B} (m : outcome E A) (k : A -> outcome E B) b :
  obind m k = Ok b -> exists a, m = Ok a /\ k a = Ok b.
Proof. destruct m; naive_solver. Qed.

(** Split every bind of a hypothesis that says a computation returned. *)
Ltac inv_ok :=
  repeat match goal with
  | H : obind _ _ = Ok _ |- _ =>
      let a := fresh "a" in let E := fresh "E" in
      apply obind_ok in H as (a & E & H)
  | H : mbind _ _ _ = (Ok _, _) |- _ =>
      let a := fresh "a" in let s := fresh "s" in let E := fresh "E" in
      apply mbind_ok in H as (a & s & E & H)
  | H : mret _ _ = _ |- _ => unfold mret in H
  | H : mgets _ _ = _ |- _ => unfold mgets in H
  | H : mget _ = _ |- _ => unfold mget in H
  | H : mmodify _ _ = _ |- _ => unfold mmodify in H
  | H : mlift _ _ = _ |- _ => unfold mlift in H
  | H : mthrow _ _ = _ |- _ => discriminate H
  | H : mundef _ _ = _ |- _ => discriminate H
  | H : Ok _ = Ok _ |- _ => injection H; clear H; intros; subst
  | H : (Ok _, _) = (Ok _, _) |- _ => injection H; clear H; intros; subst
  | H : Throw _ = Ok _ |- _ => discriminate H
  | H : (Throw _, _) = (Ok _, _) |- _ => discriminate H
  | H : Undefined _ = Ok _ |- _ => discriminate H
  | H : (Undefined _, _) = (Ok _, _) |- _ => discriminate H
  | H : OutOfFuel = Ok _ |- _ => discriminate H
  | H : (OutOfFuel, _) = (Ok _, _) |- _ => discriminate H
  end.

(** Case on the innermost scrutinee of a [match] or [if] in the goal. *)
Ltac case_goal :=
  match goal with
  | |- context [match ?x with _ => _ end] =>
      lazymatch x with context [match _ with _ => _ end] => fail | _ => destruct x eqn:? end
  end.

#[export] Instance outcome_eq_dec {E A} `{EqDecision E, EqDecision A} :
  EqDecision (outcome E A).
Proof. solve_decision. Defined.

(** ** Frame discipline

    [always P Rl m]: from a state that satisfies [P], [m] does not run out of
    fuel, and relates the states before and after by the preorder [Rl],
    whether it returns or throws. *)
Definition always {S E A} (P : S -> Prop) (Rl : S -> S -> Prop) (m : M S E A) : Prop :=
  forall s, P s -> fst (m s) <> OutOfFuel /\ Rl s (snd (m s)).

Section Always.
Context {S E : Type} (P : S -> Prop) (Rl : S -> S -> Prop).
Context (Hrefl : forall s, Rl s s) (Htrans : forall a b c, Rl a b -> Rl b c -> Rl a c).
Context (Hkeep : forall a b, P a -> Rl a b -> P b).

Lemma always_ret {A} (a : A) : always P Rl (mret (E := E) a).
Proof using Hrefl. by intros s Hs. Qed.
Lemma always_throw {A} e : always P Rl (mthrow (A := A) (E := E) e).
Proof using Hrefl. by intros s Hs. Qed.
Lemma always_undef {A} w : always P Rl (mundef (A := A) (E := E) w).
Proof using Hrefl. by intros s Hs. Qed.
Lemma always_lift {A} (o : outcome E A) : o <> OutOfFuel -> always P Rl (mlift o).
Proof using Hrefl. by intros Ho s Hs. Qed.
Lemma always_gets {A} (f : S -> A) : always P Rl (mgets (E := E) f).
Proof using Hrefl. by intros s Hs. Qed.
Lemma always_modify f : (forall s, P s -> Rl s (f s)) -> always P Rl (mmodify (E := E) f).
Proof. intros Hf s Hs. split; [done|by apply Hf]. Qed.

Lemma always_bind {A B} (m : M S E A) (k : A -> M S E B) :
  always P Rl m -> (forall a, always P Rl (k a)) -> always P Rl (mbind m k).
Proof using Htrans Hkeep.
  intros Hm Hk s Hs. unfold mbind. destruct (Hm s Hs) as [N H].
  destruct (m s) as [[a|e|w|] s1]; simpl in *; try done.
  destruct (Hk a s1 ltac:(by eapply Hkeep)) as [N2 H2]. split; [done|by eapply Htrans].
Qed.

Lemma always_catch {A} (m : M S E A) h :
  always P Rl m -> (forall e, always P Rl (h e)) -> always P Rl (mcatch m h).
Proof using Htrans Hkeep.
  intros Hm Hh s Hs. unfold mcatch. destruct (Hm s Hs) as [N H].
  destruct (m s) as [[a|e|w|] s1]; simpl in *; try done.
  destruct (Hh e s1 ltac:(by eapply Hkeep)) as [N2 H2]. split; [done|by eapply Htrans].
Qed.
End Always.

Lemma always_weaken {S E A} (P P' : S -> Prop) (Rl Rl' : S -> S -> Prop) (m : M S E A) :
  (forall s, P' s -> P s) -> (forall a b, Rl a b -> Rl' a b) -> always P Rl m -> always P' Rl' m.
Proof. intros HP HR Hm s Hs. destruct (Hm s (HP s Hs)). auto. Qed.

(** [moves Rl m]: whatever the outcome of [m], running out of fuel included, the
    states before and after are related by the preorder [Rl]. *)
Definition moves {S E A} (Rl : S -> S -> Prop) (m : M S E A) : Prop := forall s, Rl s (snd (m s)).

Section Moves.
Context {S E : Type} (Rl : S -> S -> Prop).
Context (Hrefl : forall s, Rl s s) (Htrans : forall a b c, Rl a b -> Rl b c -> Rl a c).

Lemma moves_still {A} (f : S -> outcome E A) : moves Rl (fun s => (f s, s)).
Proof using Hrefl. intros s. apply Hrefl. Qed.
Lemma moves_modify f : (forall s, Rl s (f s)) -> moves Rl (mmodify (E := E) f).
Proof. intros Hf s. apply Hf. Qed.

Lemma moves_bind {A B} (m : M S E A) (k : A -> M S E B) :
  moves Rl m -> (forall a, moves Rl (k a)) -> moves Rl (mbind m k).
Proof using Htrans.
  intros Hm Hk s. unfold mbind. specialize (Hm s).
  destruct (m s) as [[a|e|w|] s1]; try done. by eapply Htrans, Hk.
Qed.

Lemma moves_catch {A} (m : M S E A) h :
  moves Rl m -> (forall e, moves Rl (h e)) -> moves Rl (mcatch m h).
Proof using Htrans.
  intros Hm Hh s. unfold mcatch. specialize (Hm s).
  destruct (m s) as [[a|e|w|] s1]; try done. by eapply Htrans, Hh.
Qed.
End Moves.

Lemma always_moves {S E A} Rl (m : M S E A) : always (fun _ => True) Rl m -> moves Rl m.
Proof. intros Hm s. by apply Hm. Qed.
