(* ===== verification/CLib.v ===== *)
(** * CLib: the C and C++ standard library functions the driver calls

    Character classes of <cctype> (the "C" locale), [std::to_string],
    [std::string] searching, and [strtoll] with the behaviour the standard
    gives them.  A string is a sequence of bytes; [std::string] may hold NUL. *)
From S2P Require Import Prelude.
Local Open Scope Z_scope.

(** ** <cctype> *)
Definition ord (c : ascii) : Z := Z.of_N (N_of_ascii c).
Definition chr (z : Z) : ascii := ascii_of_N (Z.to_N (z mod 256)).

Definition isdigit (c : ascii) : bool := (48 <=? ord c) && (ord c <=? 57).
Definition isupper (c : ascii) : bool := (65 <=? ord c) && (ord c <=? 90).
Definition islower (c : ascii) : bool := (97 <=? ord c) && (ord c <=? 122).
Definition isalpha (c : ascii) : bool := isupper c || islower c.
Definition isalnum (c : ascii) : bool := isalpha c || isdigit c.
Definition isspace (c : ascii) : bool := (ord c =? 32) || ((9 <=? ord c) && (ord c <=? 13)).
Definition isxdigit (c : ascii) : bool :=
  isdigit c || ((65 <=? ord c) && (ord c <=? 70)) || ((97 <=? ord c) && (ord c <=? 102)).

Definition tolower (c : ascii) : ascii := if isupper c then chr (ord c + 32) else c.

Definition NUL : ascii := "000"%char.
Definition NL : ascii := "010"%char.
Definition TAB : ascii := "009"%char.
Definition CR : ascii := "013"%char.
Definition DQUOTE : ascii := "034"%char.
Definition SQUOTE : ascii := "039"%char.
Definition BSLASH : ascii := "092"%char.

(** ** std::string *)
Definition str1 (c : ascii) : string := String c EmptyString.

Fixpoint sdrop (n : nat) (s : string) : string :=
  match n, s with
  | O, _ => s
  | S n', String _ s' => sdrop n' s'
  | S _, EmptyString => EmptyString
  end.

Fixpoint stake (n : nat) (s : string) : string :=
  match n, s with
  | S n', String c s' => String c (stake n' s')
  | _, _ => EmptyString
  end.

(** [s.c_str()[i]]: the byte at [i], or NUL at the end. *)
Definition char_at (s : string) (i : nat) : ascii := default NUL (String.get i s).

(** The maximal prefix whose bytes satisfy [p], and the rest. *)
Fixpoint span (p : ascii -> bool) (s : string) : string * string :=
  match s with
  | String c s' => if p c then let '(a, b) := span p s' in (String c a, b) else (EmptyString, s)
  | EmptyString => (EmptyString, EmptyString)
  end.

Fixpoint sprefix (p s : string) : bool :=
  match p, s with
  | EmptyString, _ => true
  | String a p', String b s' => Ascii.eqb a b && sprefix p' s'
  | _, _ => false
  end.

(** [s.find(pat)], as an offset into [s]. *)
Fixpoint find_str (pat s : string) : option nat :=
  if sprefix pat s then Some O else
  match s with
  | String _ s' => S <$> find_str pat s'
  | EmptyString => None
  end.

(** [s.find_last_of(c)] *)
Fixpoint find_last (c : ascii) (s : string) : option nat :=
  match s with
  | String d s' =>
      match find_last c s' with
      | Some n => Some (S n)
      | None => if Ascii.eqb c d then Some O else None
      end
  | EmptyString => None
  end.

(** The first position from [from] on whose byte satisfies [p]: [find(c, from)]
    and [find_first_not_of(set, from)]. *)
Fixpoint index_of (p : ascii -> bool) (s : string) : option nat :=
  match s with
  | String c s' => if p c then Some O else S <$> index_of p s'
  | EmptyString => None
  end.
Definition find_first (p : ascii -> bool) (from : nat) (s : string) : option nat :=
  Nat.add from <$> index_of p (sdrop from s).

(** The last position whose byte satisfies [p]: [find_last_not_of]. *)
Fixpoint find_last_of (p : ascii -> bool) (s : string) : option nat :=
  match s with
  | String c s' =>
      match find_last_of p s' with
      | Some n => Some (S n)
      | None => if p c then Some O else None
      end
  | EmptyString => None
  end.

(** [s.find(pat, from)] *)
Definition find_str_from (pat : string) (from : nat) (s : string) : option nat :=
  if (String.length s <? from)%nat then None else Nat.add from <$> find_str pat (sdrop from s).

(** The lines [std::getline] reads from [s]. *)
Fixpoint getlines (s : string) : list string :=
  match s with
  | EmptyString => []
  | String c s' =>
      if Ascii.eqb c NL then EmptyString :: getlines s'
      else match getlines s' with
           | [] => [str1 c]
           | l :: ls => String c l :: ls
           end
  end.

(** [s.rfind(pat, 0) == 0] *)
Definition starts_with := sprefix.

(** ** std::to_string on a 64-bit integer *)
Definition digit_char (d : Z) : ascii := chr (48 + d).

Fixpoint digits_acc (fuel : nat) (n : Z) (acc : string) : string :=
  match fuel with
  | O => acc
  | S f => let acc' := String (digit_char (n mod 10)) acc in
           if n <? 10 then acc' else digits_acc f (n / 10) acc'
  end.

Definition digits (n : Z) : string := digits_acc (S (Z.to_nat (Z.log2 n))) n EmptyString.
Definition to_string (z : Z) : string :=
  if z <? 0 then String "-" (digits (- z)) else digits z.

(** ** strtoll *)
Definition digit_val (c : ascii) : Z :=
  if isdigit c then ord c - 48
  else if (97 <=? ord c) && (ord c <=? 122) then ord c - 87
  else if (65 <=? ord c) && (ord c <=? 90) then ord c - 55
  else 99.

Definition digit_ok (base : Z) (c : ascii) : bool := digit_val c <? base.

Fixpoint dv (base : Z) (s : string) (acc : Z) : Z :=
  match s with EmptyString => acc | String c s' => dv base s' (acc * base + digit_val c) end.
Definition digits_value (base : Z) (s : string) : Z := dv base s 0.

(** [strtoll(s, &end, base)] for base 10 and 16: the exact value, and how many
    bytes [end - s] were consumed; [None] when no conversion is possible (then
    [end == s]).  The value is returned before it is clamped to [long long]. *)
Definition strtoll_raw (base : Z) (s : string) : option (Z * nat) :=
  let '(ws, s1) := span isspace s in
  let '(neg, sign_len, s2) :=
    match s1 with
    | String c r => if Ascii.eqb c "-" then (true, 1%nat, r)
                    else if Ascii.eqb c "+" then (false, 1%nat, r)
                    else (false, 0%nat, s1)
    | EmptyString => (false, 0%nat, s1)
    end in
  let has_0x := (base =? 16) && Ascii.eqb (char_at s2 0) "0"
      && (Ascii.eqb (char_at s2 1) "x" || Ascii.eqb (char_at s2 1) "X")
      && isxdigit (char_at s2 2) in
  let '(pre, s3) := if has_0x then (2%nat, sdrop 2 s2) else (0%nat, s2) in
  let '(ds, _) := span (digit_ok base) s3 in
  if (String.length ds =? 0)%nat then None
  else Some ((if neg : bool then - digits_value base ds else digits_value base ds),
             (String.length ws + sign_len + pre + String.length ds)%nat).

Definition clamp64 (z : Z) : Z := Z.max INT64_MIN (Z.min INT64_MAX z).

Definition strtoll (base : Z) (s : string) : option (Z * nat) :=
  (fun '(v, n) => (clamp64 v, n)) <$> strtoll_raw base s.

(** ** std::stoll and std::stoull

    [std::invalid_argument] when nothing was converted, [std::out_of_range]
    when the value does not fit.  [strtoull] accepts a minus sign and negates
    modulo 2^64.  The library's messages are the function names. *)
Inductive num_error := InvalidArgument | OutOfRange.

Definition stoll (s : string) : Z + num_error :=
  match strtoll_raw 10 s with
  | None => inr InvalidArgument
  | Some (v, _) => if in_int64 v then inl v else inr OutOfRange
  end.

Definition stoi (s : string) : Z + num_error :=
  match strtoll_raw 10 s with
  | None => inr InvalidArgument
  | Some (v, _) => if in_int32 v then inl v else inr OutOfRange
  end.

Definition UINT64 : Z := 2 ^ 64.
Definition stoull (s : string) : Z + num_error :=
  match strtoll_raw 10 s with
  | None => inr InvalidArgument
  | Some (v, _) => if Z.abs v <? UINT64 then inl (v mod UINT64) else inr OutOfRange
  end.

(** ** Lemmas *)
Create Rewrite HintDb amlp_str.

Lemma sapp_cons c a b : String c a +:+ b = String c (a +:+ b).
Proof. reflexivity. Qed.
Lemma sapp_nil_l a : "" +:+ a = a.
Proof. reflexivity. Qed.
#[export] Hint Rewrite sapp_cons sapp_nil_l : amlp_str.

Ltac str_ind a :=
  induction a as [|? a ?IH]; intros; rewrite ?sapp_nil_l, ?sapp_cons in *; simpl; f_equal; auto.

Lemma slength_app a b : String.length (a +:+ b) = (String.length a + String.length b)%nat.
Proof. str_ind a. Qed.

Lemma sapp_nil_r a : a +:+ "" = a.
Proof. str_ind a. Qed.

Lemma sapp_assoc a b c : (a +:+ b) +:+ c = a +:+ (b +:+ c).
Proof. str_ind a. Qed.

Lemma sdrop_app a b : sdrop (String.length a) (a +:+ b) = b.
Proof. str_ind a. Qed.

Lemma sdrop_add a b n : sdrop (String.length a + n) (a +:+ b) = sdrop n b.
Proof.
  induction a as [|c a IH]; rewrite ?sapp_nil_l, ?sapp_cons; simpl; [done|exact IH].
Qed.

Lemma stake_app a b : stake (String.length a) (a +:+ b) = a.
Proof. str_ind a. Qed.
#[export] Hint Rewrite slength_app sapp_nil_r sapp_assoc : amlp_str.

Lemma sdrop_all s : sdrop (String.length s) s = ""%string.
Proof. induction s; simpl; auto. Qed.

Lemma stake_all s : stake (String.length s) s = s.
Proof. induction s; simpl; congruence. Qed.

Lemma sdrop_length n s : String.length (sdrop n s) = (String.length s - n)%nat.
Proof. revert s; induction n; intros [|c s]; simpl; auto. Qed.

Lemma stake_length n s : String.length (stake n s) = Nat.min n (String.length s).
Proof. revert s; induction n; intros [|c s]; simpl; auto. Qed.

Fixpoint sforall (p : ascii -> bool) (s : string) : bool :=
  match s with EmptyString => true | String c s' => p c && sforall p s' end.

Lemma sforall_app p a b : sforall p (a +:+ b) = sforall p a && sforall p b.
Proof. induction a as [|c a IH]; [done|]. rewrite sapp_cons. simpl. by rewrite IH, andb_assoc. Qed.

Lemma sforall_impl (p q : ascii -> bool) s :
  (forall c, p c = true -> q c = true) -> sforall p s = true -> sforall q s = true.
Proof. intros H. induction s as [|c s IH]; simpl; [done|]. rewrite !andb_true_iff. intros []; auto. Qed.

Lemma span_all p a b :
  sforall p a = true -> (forall c s, b = String c s -> p c = false) -> span p (a +:+ b) = (a, b).
Proof.
  intros Ha Hb. induction a as [|c a IH]; rewrite ?sapp_nil_l, ?sapp_cons; simpl in *.
  - destruct b as [|c b]; simpl; [done|]. by rewrite (Hb c b).
  - apply andb_true_iff in Ha as [-> Ha]. by rewrite IH.
Qed.

Lemma span_length p s a b : span p s = (a, b) -> s = a +:+ b.
Proof.
  revert a b. induction s as [|c s IH]; intros a b; simpl; [by intros [= <- <-]|].
  destruct (p c); [|by intros [= <- <-]].
  destruct (span p s) as [a' b'] eqn:E. intros [= <- <-]. rewrite sapp_cons. f_equal. by apply IH.
Qed.

Lemma digit_char_range d : 0 <= d < 10 -> ord (digit_char d) = 48 + d.
Proof.
  intros H. unfold ord, digit_char, chr. rewrite Z.mod_small by lia.
  rewrite N_ascii_embedding; lia.
Qed.

Lemma digits_acc_app fuel n acc : digits_acc fuel n acc = digits_acc fuel n "" +:+ acc.
Proof.
  revert n acc. induction fuel as [|f IH]; intros n acc; [done|]. simpl.
  destruct (n <? 10); [done|].
  rewrite IH, (IH _ (String _ "")), sapp_assoc. done.
Qed.

Lemma isdigit_digit d : 0 <= d < 10 -> isdigit (digit_char d) = true.
Proof. intros H. unfold isdigit. rewrite digit_char_range by done. lia. Qed.

Lemma digits_acc_digits fuel n : 0 <= n -> sforall isdigit (digits_acc fuel n "") = true.
Proof.
  revert n. induction fuel as [|f IH]; intros n Hn; [done|]. simpl.
  pose proof (Z.mod_pos_bound n 10).
  destruct (n <? 10); [simpl; by rewrite isdigit_digit by lia|].
  rewrite digits_acc_app, sforall_app, IH by (apply Z.div_pos; lia).
  simpl. by rewrite isdigit_digit by lia.
Qed.

Lemma digits_isdigit n : 0 <= n -> sforall isdigit (digits n) = true.
Proof. apply digits_acc_digits. Qed.

Lemma dv_app base a b acc : dv base (a +:+ b) acc = dv base b (dv base a acc).
Proof.
  revert acc. induction a as [|c a IH]; intros acc; rewrite ?sapp_nil_l, ?sapp_cons; simpl; auto.
Qed.

Lemma digits_acc_value fuel n :
  0 <= n -> n < 2 ^ Z.of_nat fuel -> (0 < fuel)%nat -> dv 10 (digits_acc fuel n "") 0 = n.
Proof.
  revert n. induction fuel as [|f IH]; intros n Hn Hf Hp; [lia|]. simpl.
  pose proof (Z.mod_pos_bound n 10) as B. pose proof (Z.div_mod n 10) as D.
  assert (forall d, 0 <= d < 10 -> digit_val (digit_char d) = d) as DV.
  { intros d Hd. unfold digit_val. rewrite isdigit_digit, digit_char_range by done. lia. }
  destruct (n <? 10) eqn:E.
  - simpl. rewrite Z.mod_small, DV by lia. lia.
  - rewrite Nat2Z.inj_succ, Z.pow_succ_r in Hf by lia.
    assert (n / 10 < 2 ^ Z.of_nat f) by (apply Z.div_lt_upper_bound; lia).
    assert (0 < f)%nat. { destruct f; [|lia]. simpl in *. lia. }
    rewrite digits_acc_app, dv_app, IH by (try apply Z.div_pos; lia). simpl.
    rewrite DV by lia. lia.
Qed.

Lemma log2_bound n : 0 <= n -> n < 2 ^ Z.of_nat (S (Z.to_nat (Z.log2 n))).
Proof.
  intros Hn. rewrite Nat2Z.inj_succ, Z2Nat.id by apply Z.log2_nonneg.
  destruct (decide (n = 0)) as [->|]; [done|]. by apply Z.log2_spec; lia.
Qed.

Lemma digits_value_digits n : 0 <= n -> digits_value 10 (digits n) = n.
Proof.
  intros Hn. apply digits_acc_value; [done|by apply log2_bound|lia].
Qed.

Lemma digits_length_pos n : (0 < String.length (digits n))%nat.
Proof.
  unfold digits. cbn [digits_acc]. destruct (n <? 10); [simpl; lia|].
  rewrite digits_acc_app, slength_app. simpl. lia.
Qed.

Lemma span_digits p s rest :
  (forall c, isdigit c = true -> p c = true) -> sforall isdigit s = true ->
  (forall c r, rest = String c r -> p c = false) -> span p (s +:+ rest) = (s, rest).
Proof. intros Hp Hs. apply span_all. by eapply sforall_impl. Qed.

Lemma digit_ok_isdigit c : isdigit c = true -> digit_ok 10 c = true.
Proof.
  unfold digit_ok, digit_val. intros H. rewrite H. unfold isdigit in H. lia.
Qed.

Lemma digit_ok_10 c : digit_ok 10 c = isdigit c.
Proof.
  unfold digit_ok, digit_val, isdigit. set (n := ord c).
  repeat (match goal with |- context [if ?b then _ else _] => destruct b eqn:? end); lia.
Qed.

Lemma digits_head n : 0 <= n -> exists c r, digits n = String c r /\ isdigit c = true.
Proof.
  intros Hn. pose proof (digits_length_pos n). pose proof (digits_isdigit n Hn) as D.
  destruct (digits n) as [|c r]; simpl in *; [lia|]. apply andb_true_iff in D as [? _]. eauto.
Qed.

Lemma isdigit_plain c :
  isdigit c = true -> isspace c = false /\ Ascii.eqb c "-" = false /\ Ascii.eqb c "+" = false.
Proof.
  intros Hc. unfold isdigit, isspace in *. split; [lia|].
  split; apply Ascii.eqb_neq; intros ->; by vm_compute in Hc.
Qed.

Definition ends_number (rest : string) : Prop :=
  forall c r, rest = String c r -> isdigit c = false.

(** What the parsers read back from [to_string]. *)
Lemma strtoll_raw_to_string z rest :
  ends_number rest ->
  strtoll_raw 10 (to_string z +:+ rest) = Some (z, String.length (to_string z)).
Proof.
  intros Hrest.
  assert (forall n, 0 <= n -> span (digit_ok 10) (digits n +:+ rest) = (digits n, rest)) as HS.
  { intros n Hn. apply span_digits; [apply digit_ok_isdigit|by apply digits_isdigit|].
    intros c r E. rewrite digit_ok_10. by eapply Hrest. }
  unfold to_string, strtoll_raw. destruct (z <? 0) eqn:E.
  - pose proof (digits_length_pos (- z)). rewrite sapp_cons. simpl. rewrite HS by lia.
    destruct (Nat.eqb_spec (String.length (digits (- z))) 0) as [L|_]; [lia|].
    rewrite digits_value_digits by lia. do 2 f_equal. lia.
  - destruct (digits_head z) as (c & r & Ed & Hc); [lia|].
    destruct (isdigit_plain c Hc) as (S1 & S2 & S3).
    pose proof (digits_length_pos z). specialize (HS z). rewrite Ed in *. rewrite sapp_cons in *.
    cbn [span]. rewrite S1. rewrite S2, S3.
    change (10 =? 16) with false. cbv beta iota delta [andb]. rewrite HS by lia. rewrite <- Ed in *.
    destruct (Nat.eqb_spec (String.length (digits z)) 0) as [L|_]; [lia|].
    rewrite digits_value_digits by lia. done.
Qed.

Lemma stoll_to_string z : in_int64 z = true -> stoll (to_string z) = inl z.
Proof.
  intros H. unfold stoll. rewrite <- (sapp_nil_r (to_string z)).
  rewrite strtoll_raw_to_string by done. by rewrite H.
Qed.

Lemma stoull_to_string z : 0 <= z < UINT64 -> stoull (to_string z) = inl z.
Proof.
  intros H. unfold stoull. rewrite <- (sapp_nil_r (to_string z)).
  rewrite strtoll_raw_to_string by done.
  rewrite Z.abs_eq by lia. destruct (Z.ltb_spec z UINT64); [|lia].
  by rewrite Z.mod_small.
Qed.

Lemma to_string_chars z : sforall (fun c => isdigit c || Ascii.eqb c "-") (to_string z) = true.
Proof.
  assert (forall n, 0 <= n -> sforall (fun c => isdigit c || Ascii.eqb c "-") (digits n) = true).
  { intros n Hn. eapply sforall_impl; [|by apply digits_isdigit]. intros c ->. done. }
  unfold to_string. destruct (z <? 0) eqn:E; simpl; apply H; lia.
Qed.
