(* ===== verification/Double.v ===== *)
(** * Double: the C++ [double] the driver computes with

    IEEE-754 binary64 with round-to-nearest-even, over the Standard Library's
    [SpecFloat] (an executable specification, no axioms): conversions to and
    from [int64_t], arithmetic, [std::fmod], [printf("%f")], [operator<<] and
    [strtod].  A NaN carries no sign or payload here; it prints as "nan". *)
From S2P Require Import Prelude CLib.
From Stdlib Require Import Floats.SpecFloat.
Local Open Scope Z_scope.

Definition double := spec_float.

#[export] Instance double_eq_dec : EqDecision double.
Proof. solve_decision. Defined.

Module Dbl.

Definition prec : Z := 53.
Definition emax : Z := 1024.

Definition add : double -> double -> double := SFadd prec emax.
Definition sub : double -> double -> double := SFsub prec emax.
Definition mul : double -> double -> double := SFmul prec emax.
Definition div : double -> double -> double := SFdiv prec emax.
Definition ltb : double -> double -> bool := SFltb.
Definition leb : double -> double -> bool := SFleb.
Definition eqb : double -> double -> bool := SFeqb.
Definition zero : double := S754_zero false.

(** [m * 2^e] correctly rounded. *)
Definition of_scaled (m e : Z) : double := binary_normalize prec emax m e false.

(** [static_cast<double>(int64_t)] *)
Definition of_int64 (z : Z) : double := of_scaled z 0.

(** The value truncated toward zero; [None] for NaN and the infinities. *)
Definition trunc (d : double) : option Z :=
  match d with
  | S754_zero _ => Some 0
  | S754_finite s m e =>
      let a := if 0 <=? e then Zpos m * 2 ^ e else Zpos m / 2 ^ (- e) in
      Some (if s then - a else a)
  | _ => None
  end.

(** [static_cast<int64_t>(double)]: undefined when the truncated value does
    not fit. *)
Definition to_int64 {E} (d : double) : outcome E Z :=
  match trunc d with
  | Some z => if in_int64 z then Ok z else Undefined "double to int64_t out of range"
  | None => Undefined "double to int64_t out of range"
  end.

(** [std::fmod]: always exact. *)
Definition fmod (x y : double) : double :=
  match x, y with
  | S754_nan, _ | _, S754_nan => S754_nan
  | S754_infinity _, _ => S754_nan
  | _, S754_zero _ => S754_nan
  | S754_zero _, _ => x
  | S754_finite _ _ _, S754_infinity _ => x
  | S754_finite sx mx ex, S754_finite _ my ey =>
      let e := Z.min ex ey in
      let r := (Zpos mx * 2 ^ (ex - e)) mod (Zpos my * 2 ^ (ey - e)) in
      binary_normalize prec emax (if sx then - r else r) e sx
  end.

(** Quotient of naturals rounded to nearest, ties to even. *)
Definition div_even (n d : Z) : Z :=
  let q := n / d in
  let r := n mod d in
  if 2 * r <? d then q
  else if d <? 2 * r then q + 1
  else if Z.even q then q else q + 1.

(** The nonnegative value [m * 2^e * 10^k], rounded to an integer. *)
Definition scaled_round (m e k : Z) : Z :=
  let n := m * (if 0 <=? e then 2 ^ e else 1) * (if 0 <=? k then 10 ^ k else 1) in
  let d := (if 0 <=? e then 1 else 2 ^ (- e)) * (if 0 <=? k then 1 else 10 ^ (- k)) in
  div_even n d.

Definition left_pad (n : nat) (s : string) : string :=
  String.concat "" (replicate (n - String.length s) "0"%string) +:+ s.

Definition sign_text (s : bool) : string := if s then "-"%string else ""%string.

(** [printf("%f", d)] *)
Definition printf_f (d : double) : string :=
  match d with
  | S754_nan => "nan"
  | S754_infinity s => sign_text s +:+ "inf"
  | S754_zero s => sign_text s +:+ "0.000000"
  | S754_finite s m e =>
      let q := scaled_round (Zpos m) e 6 in
      sign_text s +:+ digits (q / 10 ^ 6) +:+ "." +:+ left_pad 6 (digits (q mod 10 ^ 6))
  end.

Fixpoint strip_zeros (s : string) : string :=
  match s with
  | EmptyString => EmptyString
  | String c s' =>
      match strip_zeros s' with
      | EmptyString => if Ascii.eqb c "0" then EmptyString else String c EmptyString
      | t => String c t
      end
  end.

Definition strip_fraction (ip fp : string) : string :=
  match strip_zeros fp with EmptyString => ip | f => ip +:+ "." +:+ f end.

(** Decimal exponent [X] with [10^X <= m*2^e < 10^(X+1)]. *)
Fixpoint dec_exp_neg (fuel : nat) (n d : Z) (x : Z) : Z :=
  match fuel with
  | O => x
  | S f => if d <=? n then x else dec_exp_neg f (n * 10) d (x - 1)
  end.
Definition dec_exp (m e : Z) : Z :=
  let n := m * (if 0 <=? e then 2 ^ e else 1) in
  let d := if 0 <=? e then 1 else 2 ^ (- e) in
  if d <=? n then Z.of_nat (String.length (digits (n / d))) - 1
  else dec_exp_neg 400 n d 0.

(** [std::ostream << double]: "%g" with precision 6. *)
Definition ostream_g (d : double) : string :=
  match d with
  | S754_nan => "nan"
  | S754_infinity s => sign_text s +:+ "inf"
  | S754_zero s => sign_text s +:+ "0"
  | S754_finite s m e =>
      let x0 := dec_exp (Zpos m) e in
      let r0 := scaled_round (Zpos m) e (5 - x0) in
      let '(x, r) := if r0 =? 10 ^ 6 then (x0 + 1, 10 ^ 5) else (x0, r0) in
      let ds := digits r in
      let body :=
        if (x <? -4) || (6 <=? x) then
          strip_fraction (stake 1 ds) (sdrop 1 ds) +:+ "e" +:+
            (if x <? 0 then "-" else "+") +:+ left_pad 2 (digits (Z.abs x))
        else if x <? 0 then
          strip_fraction "0" (left_pad (Z.to_nat (5 - x)) ds)
        else
          strip_fraction (stake (Z.to_nat (x + 1)) ds) (sdrop (Z.to_nat (x + 1)) ds)
      in sign_text s +:+ body
  end.

(** The double nearest to [n / d], for naturals with [0 < n] and [0 < d]. *)
Definition of_ratio (n d : Z) : double :=
  let k := Z.max 0 (Z.log2 d - Z.log2 n + 66) in
  let q := n * 2 ^ k / d in
  let r := n * 2 ^ k mod d in
  of_scaled (2 * q + (if r =? 0 then 0 else 1)) (- k - 1).

Definition neg_if (b : bool) (d : double) : double := if b then SFopp d else d.

(** The double nearest to [n * 10^e]; the exponent is cut off where the result
    is certainly infinite or zero. *)
Definition of_decimal (n e : Z) : double :=
  if n =? 0 then zero
  else if 310 <? e then S754_infinity false
  else if e + Z.of_nat (String.length (digits n)) <? -330 then zero
  else if 0 <=? e then of_scaled (n * 10 ^ e) 0
  else of_ratio n (10 ^ (- e)).

(** An optional exponent part: a marker accepted by [mark], a sign, digits. *)
Definition scan_exponent (mark : ascii -> bool) (s : string) : Z * nat :=
  match s with
  | String c r =>
      if mark c then
        let '(neg, k, r1) := match r with
          | String c1 r1 => if Ascii.eqb c1 "-" then (true, 1%nat, r1)
                            else if Ascii.eqb c1 "+" then (false, 1%nat, r1)
                            else (false, 0%nat, r)
          | EmptyString => (false, 0%nat, r) end in
        let '(ds, _) := span isdigit r1 in
        if (String.length ds =? 0)%nat then (0, 0%nat)
        else ((if neg : bool then - digits_value 10 ds else digits_value 10 ds),
              (1 + k + String.length ds)%nat)
      else (0, 0%nat)
  | EmptyString => (0, 0%nat)
  end.

Definition is_e (c : ascii) : bool := Ascii.eqb (tolower c) "e".
Definition is_p (c : ascii) : bool := Ascii.eqb (tolower c) "p".

(** Digits with an optional point: integer of all digits, number of fraction
    digits, bytes used; [None] without any digit. *)
Definition scan_mantissa (p : ascii -> bool) (base : Z) (s : string) : option (Z * Z * nat) :=
  let '(ip, r) := span p s in
  let '(fp, used) := match r with
    | String "." r1 => let '(fp, _) := span p r1 in (fp, (1 + String.length fp)%nat)
    | _ => (EmptyString, 0%nat) end in
  if (String.length ip + String.length fp =? 0)%nat then None
  else Some (digits_value base (ip +:+ fp), Z.of_nat (String.length fp),
             (String.length ip + used)%nat).

Fixpoint lower (s : string) : string :=
  match s with EmptyString => EmptyString | String c r => String (tolower c) (lower r) end.

(** Whether [strtod] reports ERANGE for a positive value [n * b^e] read as
    [d]: it overflowed, or underflowed (glibc: an inexact result below the
    smallest normal number). *)
Definition range_error (n b e : Z) (d : double) : bool :=
  match d with
  | S754_infinity _ => true
  | S754_zero _ => negb (n =? 0)
  | S754_finite _ m x =>
      (Z.log2 (Zpos m) + x <? -1022) &&
      negb (n * b ^ Z.max 0 e * 2 ^ Z.max 0 (- x) =? Zpos m * b ^ Z.max 0 (- e) * 2 ^ Z.max 0 x)
  | S754_nan => false
  end.

(** [strtod]: the value, the number of bytes consumed and whether [errno] is
    ERANGE; [None] when no conversion is possible. *)
Definition strtod_errno (s : string) : option (double * nat * bool) :=
  let '(ws, s1) := span isspace s in
  let '(neg, k, s2) := match s1 with
    | String c r => if Ascii.eqb c "-" then (true, 1%nat, r)
                    else if Ascii.eqb c "+" then (false, 1%nat, r)
                    else (false, 0%nat, s1)
    | EmptyString => (false, 0%nat, s1) end in
  let before := (String.length ws + k)%nat in
  let done d n err := Some (neg_if neg d, (before + n)%nat, err) in
  let l := lower s2 in
  if sprefix "infinity" l then done (S754_infinity false) 8%nat false
  else if sprefix "inf" l then done (S754_infinity false) 3%nat false
  else if sprefix "nan" l then
    let '(tag, r) := span (fun c => isalnum c || Ascii.eqb c "_") (sdrop 4 s2) in
    if Ascii.eqb (char_at s2 3) "(" && Ascii.eqb (char_at r 0) ")"
    then done S754_nan (5 + String.length tag)%nat false else done S754_nan 3%nat false
  else
    let hex := if sprefix "0x" l then scan_mantissa isxdigit 16 (sdrop 2 s2) else None in
    match hex with
    | Some (m, f, n) =>
        let '(e, ne) := scan_exponent is_p (sdrop (2 + n) s2) in
        let d := of_scaled m (e - 4 * f) in
        done d (2 + n + ne)%nat (range_error m 2 (e - 4 * f) d)
    | None =>
        match scan_mantissa isdigit 10 s2 with
        | None => None
        | Some (m, f, n) =>
            let '(e, ne) := scan_exponent is_e (sdrop n s2) in
            let d := of_decimal m (e - f) in
            done d (n + ne)%nat (range_error m 10 (e - f) d)
        end
    end.

Definition strtod (s : string) : option (double * nat) := fst <$> strtod_errno s.

(** [std::stod] *)
Definition stod (s : string) : double + num_error :=
  match strtod_errno s with
  | None => inr InvalidArgument
  | Some (d, _, err) => if err : bool then inr OutOfRange else inl d
  end.

End Dbl.
