(* ===== verification/DoubleFacts.v ===== *)
(** * DoubleFacts: doubles compute exactly on small integers

    The driver does its integer arithmetic on doubles.  An integer of at most
    53 bits has an exact canonical representation ([small_rep]); addition,
    subtraction, multiplication, [fmod] and the comparisons are exact as long
    as operands and result stay in that range. *)
From S2P Require Import Prelude CLib Double.
From Stdlib Require Import Floats.SpecFloat.
Local Open Scope Z_scope.

Definition small (z : Z) : Prop := Z.abs z < 2 ^ 53.

(** The number of bits of a positive integer. *)
Definition bits (n : Z) : Z := Z.log2 n + 1.

Lemma digits2_bits m : Zpos (digits2_pos m) = bits (Zpos m).
Proof.
  unfold bits. induction m as [m IH|m IH|]; [| |done]; cbn [digits2_pos];
    rewrite Pos2Z.inj_succ, IH.
  - rewrite Pos2Z.inj_xI, Z.log2_succ_double by lia. lia.
  - rewrite Pos2Z.inj_xO, Z.log2_double by lia. lia.
Qed.

Lemma bits_shift n j : 0 < n -> 0 <= j -> bits (n * 2 ^ j) = bits n + j.
Proof. intros. unfold bits. rewrite Z.log2_mul_pow2 by lia. lia. Qed.

Lemma bits_small n : 0 < n < 2 ^ 53 -> 1 <= bits n <= 53.
Proof.
  intros H. unfold bits. pose proof (Z.log2_nonneg n).
  assert (Z.log2 n < 53) by (apply Z.log2_lt_pow2; lia). lia.
Qed.

Lemma fexp_bits d : 1 <= d -> fexp Dbl.prec Dbl.emax d = d - 53.
Proof. intros. unfold fexp, emin, Dbl.prec, Dbl.emax. lia. Qed.

(** ** Shifting the mantissa *)
Lemma shl_iter m d : Zpos (Pos.iter xO m d) = Zpos m * 2 ^ Zpos d.
Proof.
  induction d as [|d IH] using Pos.peano_ind; [simpl; lia|].
  rewrite Pos.iter_succ, Pos2Z.inj_xO, IH, Pos2Z.inj_succ, Z.pow_succ_r by lia. lia.
Qed.

Lemma shl_align_spec m e e' :
  e' <= e -> snd (shl_align m e e') = e' /\ Zpos (fst (shl_align m e e')) = Zpos m * 2 ^ (e - e').
Proof.
  intros H. unfold shl_align. destruct (e' - e) as [|p|p] eqn:E; [|lia|].
  - replace e' with e by lia. rewrite Z.sub_diag. simpl. lia.
  - cbn [fst snd]. rewrite shl_iter. replace (e - e') with (Zpos p) by lia. done.
Qed.

Lemma shr_1_exact q : shr_1 (Build_shr_record (2 * q) false false) = Build_shr_record q false false.
Proof. by destruct q. Qed.

Lemma iter_pos_iter {A} (f : A -> A) n x : iter_pos f n x = Nat.iter (Pos.to_nat n) f x.
Proof.
  revert x. induction n as [n IH|n IH|]; intros x; cbn [iter_pos]; [| |done].
  - rewrite !IH, Pos2Nat.inj_xI, <- Nat.iter_add, Nat.iter_succ_r. f_equal. lia.
  - rewrite !IH, Pos2Nat.inj_xO, <- Nat.iter_add. f_equal. lia.
Qed.

Lemma shr_iter_exact n q :
  Nat.iter n shr_1 (Build_shr_record (q * 2 ^ Z.of_nat n) false false)
  = Build_shr_record q false false.
Proof.
  induction n as [|n IH]; [simpl; f_equal; lia|].
  rewrite Nat.iter_succ_r, Nat2Z.inj_succ, Z.pow_succ_r by lia.
  replace (q * (2 * 2 ^ Z.of_nat n)) with (2 * (q * 2 ^ Z.of_nat n)) by lia.
  by rewrite shr_1_exact.
Qed.

Lemma shr_exact q e k :
  0 <= k -> shr (Build_shr_record (q * 2 ^ k) false false) e k
            = (Build_shr_record q false false, e + k).
Proof.
  intros Hk. unfold shr. destruct k as [|p|p]; [|..|lia].
  - by rewrite Z.mul_1_r, Z.add_0_r.
  - by rewrite iter_pos_iter, <- (positive_nat_Z p), shr_iter_exact.
Qed.

(** ** The canonical representation *)
Definition rep (s : bool) (n : Z) : double :=
  S754_finite s (Z.to_pos (n * 2 ^ (53 - bits n))) (bits n - 53).

Lemma rep_pos n : 0 < n < 2 ^ 53 -> 0 < n * 2 ^ (53 - bits n).
Proof.
  intros H. pose proof (bits_small n H). apply Z.mul_pos_pos; [lia|].
  apply Z.pow_pos_nonneg; lia.
Qed.

Lemma round_aux_exact s n j :
  0 < n < 2 ^ 53 -> 53 - bits n <= j ->
  binary_round_aux Dbl.prec Dbl.emax s (n * 2 ^ j) (- j) loc_Exact = rep s n.
Proof.
  intros Hn Hj. pose proof (bits_small n Hn) as B. pose proof (rep_pos n Hn) as P.
  assert (0 < n * 2 ^ j) by (apply Z.mul_pos_pos; [lia|]; apply Z.pow_pos_nonneg; lia).
  unfold binary_round_aux, shr_fexp.
  replace (Zdigits2 (n * 2 ^ j)) with (bits n + j).
  2:{ rewrite <- bits_shift by lia. destruct (n * 2 ^ j); [lia| |lia]. symmetry. apply digits2_bits. }
  rewrite fexp_bits by lia. cbn [shr_record_of_loc].
  replace (bits n + j + - j - 53 - - j) with (j - (53 - bits n)) by lia.
  assert (n * 2 ^ j = n * 2 ^ (53 - bits n) * 2 ^ (j - (53 - bits n))) as ->.
  { rewrite <- Z.mul_assoc, <- Z.pow_add_r by lia. do 2 f_equal. lia. }
  rewrite shr_exact by lia. cbn [shr_m loc_of_shr_record round_nearest_even].
  replace (- j + (j - (53 - bits n))) with (bits n - 53) by lia.
  replace (Zdigits2 (n * 2 ^ (53 - bits n))) with 53.
  2:{ transitivity (bits (n * 2 ^ (53 - bits n))); [rewrite bits_shift; lia|].
      destruct (n * 2 ^ (53 - bits n)); [lia| |lia]. symmetry. apply digits2_bits. }
  rewrite fexp_bits by lia.
  replace (53 + (bits n - 53) - 53 - (bits n - 53)) with 0 by lia. cbn [shr shr_m].
  unfold rep. destruct (n * 2 ^ (53 - bits n)) as [|m|m]; [lia| |lia].
  destruct (Z.leb_spec (bits n - 53) (Dbl.emax - Dbl.prec)); [done|].
  unfold Dbl.emax, Dbl.prec in *. lia.
Qed.

Lemma round_exact s m n j :
  0 < n < 2 ^ 53 -> 0 <= j -> Zpos m = n * 2 ^ j ->
  binary_round Dbl.prec Dbl.emax s m (- j) = rep s n.
Proof.
  intros Hn Hj Hm. pose proof (bits_small n Hn) as B. unfold binary_round.
  rewrite digits2_bits, Hm, bits_shift by lia.
  rewrite fexp_bits by lia. replace (bits n + j + - j - 53) with (bits n - 53) by lia.
  destruct (Z.le_gt_cases (bits n - 53) (- j)) as [L|G].
  - destruct (shl_align_spec m (- j) (bits n - 53) L) as [E1 E2].
    destruct (shl_align m (- j) (bits n - 53)) as [mz ez]. cbn [fst snd] in *. subst ez.
    rewrite E2, Hm, <- Z.mul_assoc, <- Z.pow_add_r by lia.
    replace (j + (- j - (bits n - 53))) with (53 - bits n) by lia.
    replace (bits n - 53) with (- (53 - bits n)) by lia. apply round_aux_exact; [done|lia].
  - assert (shl_align m (- j) (bits n - 53) = (m, - j)) as ->.
    { unfold shl_align. destruct (bits n - 53 - - j) eqn:E; [done|done|lia]. }
    rewrite Hm. apply round_aux_exact; [done|lia].
Qed.

(** The double of a small integer. *)
Definition small_rep (z : Z) : double :=
  match z with Z0 => S754_zero false | Zpos p => rep false (Zpos p) | Zneg p => rep true (Zpos p) end.

Lemma normalize_exact z j :
  small z -> 0 <= j -> binary_normalize Dbl.prec Dbl.emax (z * 2 ^ j) (- j) false = small_rep z.
Proof.
  unfold small. intros Hz Hj. assert (0 < 2 ^ j) by (apply Z.pow_pos_nonneg; lia).
  destruct z as [|p|p]; [done|..].
  - destruct (Zpos p * 2 ^ j) eqn:E; [lia| |lia]. apply round_exact; lia.
  - replace (Zneg p * 2 ^ j) with (- (Zpos p * 2 ^ j)) by lia.
    destruct (Zpos p * 2 ^ j) eqn:E; [lia| |lia]. apply round_exact; lia.
Qed.

Lemma of_int64_small z : small z -> Dbl.of_int64 z = small_rep z.
Proof.
  intros Hz. unfold Dbl.of_int64, Dbl.of_scaled. rewrite <- (normalize_exact z 0) by done.
  f_equal. lia.
Qed.

Lemma trunc_rep s n : 0 < n < 2 ^ 53 -> Dbl.trunc (rep s n) = Some (if s then - n else n).
Proof.
  intros Hn. pose proof (bits_small n Hn). pose proof (rep_pos n Hn).
  unfold Dbl.trunc, rep. rewrite Z2Pos.id by done.
  destruct (Z.leb_spec 0 (bits n - 53)).
  - replace (bits n) with 53 by lia. rewrite Z.sub_diag, !Z.mul_1_r. done.
  - replace (- (bits n - 53)) with (53 - bits n) by lia.
    rewrite Z.div_mul by (apply Z.pow_nonzero; lia). done.
Qed.

Lemma small_in_int64 z : small z -> in_int64 z = true.
Proof. unfold small. intros. apply in_int64_spec. unfold INT64_MIN, INT64_MAX. lia. Qed.

Lemma trunc_small z : small z -> Dbl.trunc (small_rep z) = Some z.
Proof.
  unfold small. intros Hz. destruct z as [|p|p]; [done| |]; simpl small_rep;
    rewrite trunc_rep by lia; f_equal; lia.
Qed.

Lemma to_int64_trunc {E} d z : small z -> Dbl.trunc d = Some z -> Dbl.to_int64 (E := E) d = Ok z.
Proof. intros Hz Hd. unfold Dbl.to_int64. by rewrite Hd, small_in_int64. Qed.

(** Reading a finite double back as an integer scaled by [2^j]. *)
Lemma rep_align s n ez :
  0 < n < 2 ^ 53 -> ez <= bits n - 53 ->
  cond_Zopp s (Zpos (fst (shl_align (Z.to_pos (n * 2 ^ (53 - bits n))) (bits n - 53) ez)))
  = (if s then - n else n) * 2 ^ (- ez).
Proof.
  intros Hn He. pose proof (bits_small n Hn). pose proof (rep_pos n Hn).
  destruct (shl_align_spec (Z.to_pos (n * 2 ^ (53 - bits n))) (bits n - 53) ez He) as [_ ->].
  rewrite Z2Pos.id by done. rewrite <- Z.mul_assoc, <- Z.pow_add_r by lia.
  replace (53 - bits n + (bits n - 53 - ez)) with (- ez) by lia.
  destruct s; simpl; lia.
Qed.

(** A non-zero small integer as a sign and a magnitude. *)
Lemma small_rep_cases z :
  small z -> z = 0 /\ small_rep z = S754_zero false \/
  exists s n, 0 < n < 2 ^ 53 /\ z = (if s : bool then - n else n) /\ small_rep z = rep s n.
Proof.
  unfold small. intros Hz. destruct z as [|p|p]; [by left|right..].
  - exists false, (Zpos p). split; [lia|done].
  - exists true, (Zpos p). split; [lia|done].
Qed.

Lemma small_rep_sign (s : bool) n : 0 < n -> small_rep (if s then - n else n) = rep s n.
Proof. intros Hn. destruct n; try lia. by destruct s. Qed.

Section Exact.
Context (x y : Z) (Hx : small x) (Hy : small y).

Lemma add_exact : small (x + y) -> Dbl.add (small_rep x) (small_rep y) = small_rep (x + y).
Proof using Hx Hy.
  intros Hs. destruct (small_rep_cases x Hx) as [[Ex ->]|(s1 & n1 & H1 & Ex & ->)];
    destruct (small_rep_cases y Hy) as [[Ey ->]|(s2 & n2 & H2 & Ey & ->)].
  - by rewrite Ex, Ey.
  - unfold Dbl.add, rep at 1. cbn [SFadd]. rewrite Ex, Z.add_0_l, Ey, small_rep_sign by lia. done.
  - unfold Dbl.add, rep at 1. cbn [SFadd]. rewrite Ey, Z.add_0_r, Ex, small_rep_sign by lia. done.
  - pose proof (bits_small n1 H1). pose proof (bits_small n2 H2).
    unfold Dbl.add, rep at 1, rep at 1. cbn [SFadd].
    set (ez := Z.min (bits n1 - 53) (bits n2 - 53)).
    rewrite !rep_align by (done || lia). rewrite <- Z.mul_add_distr_r, <- Ex, <- Ey.
    replace ez with (- - ez) at 2 by lia. apply normalize_exact; [done|lia].
Qed.

Lemma sub_exact : small (x - y) -> Dbl.sub (small_rep x) (small_rep y) = small_rep (x - y).
Proof using Hx Hy.
  intros Hs. destruct (small_rep_cases x Hx) as [[Ex ->]|(s1 & n1 & H1 & Ex & ->)];
    destruct (small_rep_cases y Hy) as [[Ey ->]|(s2 & n2 & H2 & Ey & ->)].
  - by rewrite Ex, Ey.
  - unfold Dbl.sub, rep at 1. cbn [SFsub].
    replace (x - y) with (if negb s2 then - n2 else n2) by (destruct s2; simpl; lia).
    rewrite small_rep_sign by lia. done.
  - unfold Dbl.sub, rep at 1. cbn [SFsub]. rewrite Ey, Z.sub_0_r, Ex, small_rep_sign by lia. done.
  - pose proof (bits_small n1 H1). pose proof (bits_small n2 H2).
    unfold Dbl.sub, rep at 1, rep at 1. cbn [SFsub].
    set (ez := Z.min (bits n1 - 53) (bits n2 - 53)).
    rewrite !rep_align by (done || lia). rewrite <- Z.mul_sub_distr_r, <- Ex, <- Ey.
    replace ez with (- - ez) at 2 by lia. apply normalize_exact; [done|lia].
Qed.

Lemma bits_mul a b : 0 < a -> 0 < b -> bits a + bits b - 1 <= bits (a * b).
Proof using.
  intros Ha Hb. unfold bits. pose proof (Z.log2_mul_below a b Ha Hb). lia.
Qed.

Lemma mul_trunc : small (x * y) -> Dbl.trunc (Dbl.mul (small_rep x) (small_rep y)) = Some (x * y).
Proof using Hx Hy.
  intros Hs. destruct (small_rep_cases x Hx) as [[Ex ->]|(s1 & n1 & H1 & Ex & ->)];
    destruct (small_rep_cases y Hy) as [[Ey ->]|(s2 & n2 & H2 & Ey & ->)].
  - by rewrite Ex, Ey.
  - by rewrite Ex.
  - by rewrite Ey, Z.mul_0_r.
  - pose proof (bits_small n1 H1). pose proof (bits_small n2 H2).
    pose proof (rep_pos n1 H1). pose proof (rep_pos n2 H2).
    assert (0 < n1 * n2 < 2 ^ 53) as Hn.
    { split; [lia|]. unfold small in Hs. rewrite Ex, Ey in Hs. destruct s1, s2; lia. }
    pose proof (bits_mul n1 n2 ltac:(lia) ltac:(lia)).
    unfold Dbl.mul, rep. cbn [SFmul]. rewrite Pos2Z.inj_mul, !Z2Pos.id by done.
    replace (n1 * 2 ^ (53 - bits n1) * (n2 * 2 ^ (53 - bits n2)))
      with (n1 * n2 * 2 ^ (106 - bits n1 - bits n2)).
    2:{ replace (106 - bits n1 - bits n2) with ((53 - bits n1) + (53 - bits n2)) by lia.
        rewrite Z.pow_add_r by lia. lia. }
    replace (bits n1 - 53 + (bits n2 - 53)) with (- (106 - bits n1 - bits n2)) by lia.
    rewrite round_aux_exact by lia. rewrite trunc_rep by done. f_equal.
    rewrite Ex, Ey. destruct s1, s2; simpl; lia.
Qed.

(** The mantissa of [rep] moved to a lower exponent. *)
Lemma rep_lower n e :
  0 < n < 2 ^ 53 -> e <= bits n - 53 ->
  Zpos (Z.to_pos (n * 2 ^ (53 - bits n))) * 2 ^ (bits n - 53 - e) = n * 2 ^ (- e).
Proof using.
  intros Hn He. pose proof (bits_small n Hn). pose proof (rep_pos n Hn).
  rewrite Z2Pos.id by done. rewrite <- Z.mul_assoc, <- Z.pow_add_r by lia.
  do 2 f_equal. lia.
Qed.

Lemma normalize_sign z j b :
  small z -> 0 <= j -> Dbl.trunc (binary_normalize Dbl.prec Dbl.emax (z * 2 ^ j) (- j) b) = Some z.
Proof using.
  intros Hz Hj. destruct (decide (z = 0)) as [->|]; [done|].
  rewrite <- trunc_small, <- (normalize_exact z j) by done.
  assert (0 < 2 ^ j) by (apply Z.pow_pos_nonneg; lia).
  by destruct (z * 2 ^ j) eqn:E; [nia|..].
Qed.

Lemma fmod_trunc : y <> 0 -> Dbl.trunc (Dbl.fmod (small_rep x) (small_rep y)) = Some (Z.rem x y).
Proof using Hx Hy.
  intros Ny. destruct (small_rep_cases x Hx) as [[Ex ->]|(s1 & n1 & H1 & Ex & ->)];
    destruct (small_rep_cases y Hy) as [[Ey ->]|(s2 & n2 & H2 & Ey & ->)]; try done.
  - rewrite Ex, Z.rem_0_l by done. done.
  - pose proof (bits_small n1 H1). pose proof (bits_small n2 H2).
    unfold Dbl.fmod, rep. set (e := Z.min (bits n1 - 53) (bits n2 - 53)).
    rewrite !rep_lower by (done || lia).
    assert (0 < 2 ^ (- e)) by (apply Z.pow_pos_nonneg; lia).
    rewrite Z.mul_mod_distr_r by lia.
    assert (Z.rem x y = if s1 then - (n1 mod n2) else n1 mod n2) as ->.
    { rewrite Ex, Ey. destruct s1, s2;
        rewrite ?Z.rem_opp_l, ?Z.rem_opp_r, Z.rem_mod_nonneg by lia; done. }
    pose proof (Z.mod_pos_bound n1 n2).
    assert (0 <= - e) by lia. clearbody e. remember (- e) as j eqn:Ej.
    assert (e = - j) as -> by lia.
    assert (small (if s1 then - (n1 mod n2) else n1 mod n2)) as Hsm
      by (unfold small; destruct s1; lia).
    destruct s1; [rewrite <- Z.mul_opp_l|]; by apply normalize_sign.
Qed.

Lemma bits_lt a b : 0 < a -> 0 < b -> bits a < bits b -> a < b.
Proof using.
  intros Ha Hb H. unfold bits in H. destruct (Z.lt_ge_cases a b) as [|G]; [done|].
  pose proof (Z.log2_le_mono b a G). lia.
Qed.

(** Magnitudes are compared by exponent, then by mantissa. *)
Lemma rep_compare n1 n2 :
  0 < n1 < 2 ^ 53 -> 0 < n2 < 2 ^ 53 ->
  match Z.compare (bits n1 - 53) (bits n2 - 53) with
  | Lt => Lt
  | Gt => Gt
  | Eq => Pos.compare_cont Eq (Z.to_pos (n1 * 2 ^ (53 - bits n1)))
                               (Z.to_pos (n2 * 2 ^ (53 - bits n2)))
  end = (n1 ?= n2).
Proof using.
  intros H1 H2. pose proof (rep_pos n1 H1). pose proof (rep_pos n2 H2).
  pose proof (bits_small n1 H1). pose proof (bits_small n2 H2).
  destruct (Z.compare_spec (bits n1 - 53) (bits n2 - 53)) as [E|L|G].
  - change (Pos.compare_cont Eq) with Pos.compare.
    rewrite <- Z2Pos.inj_compare by done. replace (bits n2) with (bits n1) by lia.
    assert (0 < 2 ^ (53 - bits n1)) by (apply Z.pow_pos_nonneg; lia).
    symmetry. by rewrite <- Zmult_compare_compat_r by lia.
  - symmetry. apply Z.compare_lt_iff, bits_lt; lia.
  - symmetry. apply Z.compare_gt_iff, bits_lt; lia.
Qed.

Lemma compare_exact : SFcompare (small_rep x) (small_rep y) = Some (x ?= y).
Proof using Hx Hy.
  destruct (small_rep_cases x Hx) as [[Ex ->]|(s1 & n1 & H1 & Ex & ->)];
    destruct (small_rep_cases y Hy) as [[Ey ->]|(s2 & n2 & H2 & Ey & ->)];
    rewrite Ex, Ey; unfold rep; cbn [SFcompare].
  - done.
  - destruct s2; f_equal; symmetry; [apply Z.compare_gt_iff|apply Z.compare_lt_iff]; lia.
  - destruct s1; f_equal; symmetry; [apply Z.compare_lt_iff|apply Z.compare_gt_iff]; lia.
  - pose proof (rep_compare n1 n2 H1 H2) as R. f_equal. destruct s1, s2.
    + rewrite (Z.compare_opp n1 n2), (Z.compare_antisym n1 n2), <- R.
      by destruct (_ ?= _); rewrite ?CompOpp_involutive.
    + symmetry. apply Z.compare_lt_iff. lia.
    + symmetry. apply Z.compare_gt_iff. lia.
    + exact R.
Qed.
End Exact.
