(* ===== verification/Value.v ===== *)
(** * Value: LPC values and the store they share

    include/amlp/vm/Value.hpp and src/vm/Value.cpp.  Arrays, mappings, closures
    and buffers are reached through [std::shared_ptr], so two values may name
    the same container: a value holds a location, and the containers live in a
    [heap].  A null [shared_ptr] is [None].  Objects are named by an [oid]; a
    [weak_ptr] is an [option oid] whose object may be gone (Machine.v). *)
From S2P Require Import Prelude CLib Double.
From Stdlib Require Import Floats.SpecFloat.

Abbreviation loc := positive (only parsing).
Abbreviation oid := positive (only parsing).

(** [ValueVariant], alternatives in the order of the [std::variant]. *)
Inductive ValueVariant :=
  | Monostate
  | NilV
  | Int (i : Z)
  | Dbl (d : double)
  | Str (s : string)
  | Sym (name : string)
  | Obj (o : option oid)
  | Arr (l : option loc)
  | Map (l : option loc)
  | Fun (l : option loc)
  | Buf (l : option loc).

Record Value := mkValue {
  data : ValueVariant;
  isUndefined : bool;
  isClassInstance : bool
}.
#[export] Instance eta_Value : Eta Value :=
  fun v => {| data := data v; isUndefined := isUndefined v; isClassInstance := isClassInstance v |}.

#[export] Instance ValueVariant_eq_dec : EqDecision ValueVariant.
Proof. solve_decision. Defined.
#[export] Instance Value_eq_dec : EqDecision Value.
Proof. solve_decision. Defined.

(** [Value(T v)] *)
Definition V (d : ValueVariant) : Value := mkValue d false false.
(** [Value{}] *)
Definition Void : Value := V Monostate.
Definition VInt (i : Z) : Value := V (Int i).
Definition VBool (b : bool) : Value := VInt (if b then 1 else 0).

Definition isVoid (v : Value) : bool :=
  match data v with Monostate => true | _ => false end.

Definition makeUndefinedNumber : Value := (VInt 0) <| isUndefined := true |>.

(** [data.index()] *)
Definition index (d : ValueVariant) : Z :=
  match d with
  | Monostate => 0 | NilV => 1 | Int _ => 2 | Dbl _ => 3 | Str _ => 4 | Sym _ => 5
  | Obj _ => 6 | Arr _ => 7 | Map _ => 8 | Fun _ => 9 | Buf _ => 10
  end.

Definition is_some {A} (o : option A) : bool := match o with Some _ => true | None => false end.

Definition isTruthy (v : Value) : bool :=
  match data v with
  | Monostate => false
  | NilV => false
  | Int i => negb (i =? 0)%Z
  | Dbl d => negb (Dbl.eqb d Dbl.zero)
  | Str s => negb (String.eqb s "")
  | Sym _ => true
  | Obj o => is_some o
  | Arr l => is_some l
  | Map l => is_some l
  | Fun l => is_some l
  | Buf l => is_some l
  end.

(** The function tests the alternatives one after the other; for arrays and
    mappings none applies and it falls through to [return false]. *)
Definition valuesEqual (a b : Value) : bool :=
  match data a, data b with
  | NilV, NilV => true
  | Int x, Int y => (x =? y)%Z
  | Dbl x, Dbl y => Dbl.eqb x y
  | Str x, Str y => String.eqb x y
  | Sym x, Sym y => String.eqb x y
  | Obj x, Obj y => bool_decide (x = y)
  | Fun x, Fun y => bool_decide (x = y)
  | Buf x, Buf y => bool_decide (x = y)
  | Monostate, Monostate => true
  | _, _ => false
  end.

(** ** Containers *)
Record Mapping := mkMapping {
  entries : list (Value * Value);
  width : Z;
  extraColumns : list (list Value)
}.
#[export] Instance eta_Mapping : Eta Mapping :=
  fun m => {| entries := entries m; width := width m; extraColumns := extraColumns m |}.

Definition emptyMapping : Mapping := {| entries := []; width := 1; extraColumns := [] |}.

(** The containers index vectors with [operator[]]; [nthV] reads past the end
    as a void value where the C++ access would be undefined, which
    [Mapping_wf] below excludes. *)
Definition nthV (i : nat) (l : list Value) : Value := nth i l Void.

Definition getColumn (m : Mapping) (i : nat) (col : Z) : Value :=
  if (col <=? 0)%Z then snd (nth i (entries m) (Void, Void))
  else nthV (Z.to_nat (col - 1)) (nth i (extraColumns m) []).

Definition setColumn (m : Mapping) (i : nat) (col : Z) (v : Value) : Mapping :=
  if (col <=? 0)%Z
  then m <| entries := alter (fun '(k, _) => (k, v)) i (entries m) |>
  else m <| extraColumns := alter (fun row => <[Z.to_nat (col - 1) := v]> row) i (extraColumns m) |>.

Definition appendEntry (m : Mapping) (key : Value) (values : list Value) : Mapping :=
  let col0 := match values with [] => Void | v :: _ => v end in
  let m1 := m <| entries := entries m ++ [(key, col0)] |> in
  if (1 <? width m)%Z then
    let extra := map (fun c => match values !! S c with Some v => v | None => VInt 0 end)
                     (seq 0 (Z.to_nat (width m - 1))) in
    m1 <| extraColumns := extraColumns m ++ [extra] |>
  else m1.

Definition eraseAt (m : Mapping) (i : nat) : Mapping :=
  let m1 := m <| entries := delete i (entries m) |> in
  match extraColumns m with [] => m1 | xs => m1 <| extraColumns := delete i xs |> end.

(** The position of the first entry whose key equals [k], as every loop over
    [entries] in the VM computes it. *)
Fixpoint findKey (k : Value) (es : list (Value * Value)) : option nat :=
  match es with
  | [] => None
  | (k', _) :: es' => if valuesEqual k' k then Some O else S <$> findKey k es'
  end.

Record Closure := mkClosure {
  owner : option oid;
  functionName : string;
  boundArgs : list Value;
  forceEfun : bool;
  unboundUntilBound : bool;
  lambdaParams : list string;
  lambdaBody : Value
}.
#[export] Instance eta_Closure : Eta Closure :=
  fun c => {| owner := owner c; functionName := functionName c; boundArgs := boundArgs c;
              forceEfun := forceEfun c; unboundUntilBound := unboundUntilBound c;
              lambdaParams := lambdaParams c; lambdaBody := lambdaBody c |}.

Definition newClosure : Closure :=
  {| owner := None; functionName := ""; boundArgs := []; forceEfun := false;
     unboundUntilBound := false; lambdaParams := []; lambdaBody := Void |}.

(** ** The heap *)
Record heap := mkHeap {
  arrays : gmap loc (list Value);
  mappings : gmap loc Mapping;
  closures : gmap loc Closure;
  buffers : gmap loc (list Z);
  nextLoc : loc
}.
#[export] Instance eta_heap : Eta heap :=
  fun h => {| arrays := arrays h; mappings := mappings h; closures := closures h;
              buffers := buffers h; nextLoc := nextLoc h |}.

Definition emptyHeap : heap :=
  {| arrays := ∅; mappings := ∅; closures := ∅; buffers := ∅; nextLoc := 1%positive |}.

(** [std::make_shared<T>]: a location never used before. *)
Definition newArray (items : list Value) (h : heap) : loc * heap :=
  (nextLoc h, h <| arrays ::= <[nextLoc h := items]> |> <| nextLoc := Pos.succ (nextLoc h) |>).
Definition newMapping (m : Mapping) (h : heap) : loc * heap :=
  (nextLoc h, h <| mappings ::= <[nextLoc h := m]> |> <| nextLoc := Pos.succ (nextLoc h) |>).
Definition newClosureAt (c : Closure) (h : heap) : loc * heap :=
  (nextLoc h, h <| closures ::= <[nextLoc h := c]> |> <| nextLoc := Pos.succ (nextLoc h) |>).

(** Dereferencing: a [shared_ptr] keeps its container alive, so the location
    is always present ([heap_wf]); the default is never reached from a
    well-formed state. *)
Definition items (h : heap) (l : loc) : list Value := default [] (arrays h !! l).
Definition mapping (h : heap) (l : loc) : Mapping := default emptyMapping (mappings h !! l).
Definition closure (h : heap) (l : loc) : Closure := default newClosure (closures h !! l).

(** ** Exceptions

    [LpcRuntimeError] and its subclass [LpcThrownValue] (an LPC [throw] that
    carries a value), [NotImplementedError], [EvalCostError] (src/core,
    Errors.hpp), and a standard library exception with its name. *)
Inductive exn :=
  | LpcRuntimeError (msg : string)
  | LpcThrownValue (v : Value)
  | NotImplementedError (what : string)
  | EvalCostError (msg : string)
  | StdException (what : string).

Definition describeForWhat (v : Value) : string :=
  match data v with Str s => s | _ => "thrown non-string value" end.

(** [e.what()] *)
Definition what (e : exn) : string :=
  match e with
  | LpcRuntimeError m => m
  | LpcThrownValue v => describeForWhat v
  | NotImplementedError w => "not implemented: " +:+ w
  | EvalCostError m => m
  | StdException w => w
  end.

#[export] Instance exn_eq_dec : EqDecision exn.
Proof. solve_decision. Defined.

(** ** Heap invariant and growth

    Every location in use is below [nextLoc], so an allocation never captures
    one; a heap grows when nothing it holds changes. *)
Record heap_wf (h : heap) : Prop := {
  arrays_below p xs : arrays h !! p = Some xs -> (p < nextLoc h)%positive;
  mappings_below p m : mappings h !! p = Some m -> (p < nextLoc h)%positive;
  closures_below p c : closures h !! p = Some c -> (p < nextLoc h)%positive;
  buffers_below p b : buffers h !! p = Some b -> (p < nextLoc h)%positive
}.

Record heap_le (h h' : heap) : Prop := {
  le_arrays : arrays h ⊆ arrays h';
  le_mappings : mappings h ⊆ mappings h';
  le_closures : closures h ⊆ closures h';
  le_buffers : buffers h ⊆ buffers h'
}.

#[export] Instance heap_le_preorder : PreOrder heap_le.
Proof.
  split.
  - by constructor.
  - intros h1 h2 h3 [] []; constructor; by etrans.
Qed.

Lemma heap_wf_empty : heap_wf emptyHeap.
Proof. split; intros p x; simpl; by rewrite lookup_empty. Qed.

Lemma fresh_none {A} (m : gmap loc A) n :
  (forall p x, m !! p = Some x -> (p < n)%positive) -> m !! n = None.
Proof. intros B. destruct (m !! n) eqn:E; [|done]. apply B in E. lia. Qed.

Lemma below_insert {A} (m : gmap loc A) n (y : A) :
  (forall p x, m !! p = Some x -> (p < n)%positive) ->
  forall p x, <[n := y]> m !! p = Some x -> (p < Pos.succ n)%positive.
Proof.
  intros B p x. destruct (decide (n = p)) as [<-|N]; [lia|].
  rewrite lookup_insert_ne by done. intros ?%B. lia.
Qed.

Lemma below_succ {A} (m : gmap loc A) n :
  (forall p x, m !! p = Some x -> (p < n)%positive) ->
  forall p x, m !! p = Some x -> (p < Pos.succ n)%positive.
Proof. intros B p x ?%B. lia. Qed.

#[export] Hint Resolve fresh_none below_insert below_succ : amlp.

Ltac solve_alloc :=
  intros []; split; simpl; eauto with amlp;
  try apply insert_subseteq; eauto with amlp.

Lemma newArray_wf xs h : heap_wf h -> heap_wf (snd (newArray xs h)).
Proof. solve_alloc. Qed.
Lemma newArray_le xs h : heap_wf h -> heap_le h (snd (newArray xs h)).
Proof. solve_alloc. Qed.
Lemma newMapping_wf m h : heap_wf h -> heap_wf (snd (newMapping m h)).
Proof. solve_alloc. Qed.
Lemma newMapping_le m h : heap_wf h -> heap_le h (snd (newMapping m h)).
Proof. solve_alloc. Qed.
Lemma newClosureAt_wf c h : heap_wf h -> heap_wf (snd (newClosureAt c h)).
Proof. solve_alloc. Qed.
Lemma newClosureAt_le c h : heap_wf h -> heap_le h (snd (newClosureAt c h)).
Proof. solve_alloc. Qed.

Lemma newArray_items xs h : items (snd (newArray xs h)) (fst (newArray xs h)) = xs.
Proof. unfold items, newArray. simpl. by rewrite lookup_insert_eq. Qed.
Lemma newMapping_mapping m h : mapping (snd (newMapping m h)) (fst (newMapping m h)) = m.
Proof. unfold mapping, newMapping. simpl. by rewrite lookup_insert_eq. Qed.
Lemma newClosureAt_closure c h : closure (snd (newClosureAt c h)) (fst (newClosureAt c h)) = c.
Proof. unfold closure, newClosureAt. simpl. by rewrite lookup_insert_eq. Qed.

#[export] Hint Resolve newArray_wf newArray_le newMapping_wf newMapping_le newClosureAt_wf
  newClosureAt_le : amlp.

(** ** Equality of values *)

(** Keys on which [valuesEqual] is equality of the underlying data: all but
    floats, arrays and mappings. *)
Definition plain (v : Value) : bool :=
  match data v with Dbl _ | Arr _ | Map _ => false | _ => true end.

Lemma valuesEqual_plain a b : plain a = true -> valuesEqual a b = bool_decide (data a = data b).
Proof.
  intros H. apply Bool.eq_true_iff_eq. rewrite bool_decide_eq_true. unfold plain, valuesEqual in *.
  destruct (data a), (data b); try done;
    rewrite ?Z.eqb_eq, ?String.eqb_eq, ?bool_decide_eq_true; naive_solver.
Qed.

Lemma Dbl_eqb_sym x y : Dbl.eqb x y = Dbl.eqb y x.
Proof.
  unfold Dbl.eqb, SFeqb. destruct x as [[]|[]| |[] m e], y as [[]|[]| |[] m' e']; try done; simpl.
  all: change (Pos.compare_cont Datatypes.Eq) with Pos.compare; rewrite (Z.compare_antisym e e');
    destruct (e ?= e')%Z; simpl; try done; rewrite (Pos.compare_antisym m m'); by destruct (m ?= m')%positive.
Qed.

(** Value equality is symmetric, and holds between values of the same kind
    only; on values other than floats, arrays and mappings it is exactly
    equality of their contents; and no array and no mapping equals anything,
    itself included. *)
Theorem valuesEqual_spec a b :
  valuesEqual a b = valuesEqual b a /\
  (valuesEqual a b = true -> index (data a) = index (data b)) /\
  (plain a = true -> valuesEqual a b = true <-> data a = data b) /\
  (forall l m, data a = Arr l \/ data a = Map m -> valuesEqual a b = false).
Proof.
  split; [|split; [|split]].
  - unfold valuesEqual. destruct (data a), (data b); try done;
      try apply Z.eqb_sym; try apply String.eqb_sym; try apply Dbl_eqb_sym;
      apply bool_decide_ext; naive_solver.
  - unfold valuesEqual. by destruct (data a), (data b).
  - intros H. rewrite valuesEqual_plain by done. apply bool_decide_eq_true.
  - intros l m H. unfold valuesEqual. destruct H as [->| ->]; by destruct (data b).
Qed.

(** ** Well-formed mappings

    One row of extra columns per entry exactly when the mapping is wider than
    one column. *)
Record Mapping_wf (m : Mapping) : Prop := {
  width_pos : (1 <= width m)%Z;
  rows_narrow : (width m = 1)%Z -> extraColumns m = [];
  rows_wide : (1 < width m)%Z -> length (extraColumns m) = length (entries m) /\
    Forall (fun row => Z.of_nat (length row) = width m - 1)%Z (extraColumns m)
}.

(** All keys are plain, and no key occurs twice. *)
Definition keys_ok (m : Mapping) : Prop :=
  Forall (fun e => plain (fst e) = true) (entries m) /\ NoDup (map (fun e => data (fst e)) (entries m)).

(** What a lookup of [k] finds in column [col]. *)
Definition lookupColumn (m : Mapping) (k : Value) (col : Z) : option Value :=
  (fun i => getColumn m i col) <$> findKey k (entries m).

Lemma findKey_lt k es i : findKey k es = Some i -> (i < length es)%nat.
Proof.
  revert i. induction es as [|[k' v] es IH]; intros i; simpl; [done|].
  destruct (valuesEqual k' k); [intros [= <-]; lia|].
  destruct (findKey k es); [|done]. intros [= <-]. specialize (IH _ eq_refl). lia.
Qed.

(** A plain key depends on its contents only. *)
Lemma findKey_data k k' es :
  Forall (fun e => plain (fst e) = true) es -> data k = data k' -> findKey k es = findKey k' es.
Proof.
  intros F E. induction F as [|[x v] es Hx F IH]; [done|]. simpl in *.
  by rewrite !valuesEqual_plain, E, IH.
Qed.

Lemma findKey_app k es es' :
  findKey k (es ++ es') =
  match findKey k es with
  | Some i => Some i
  | None => (fun i => length es + i)%nat <$> findKey k es'
  end.
Proof.
  induction es as [|[x v] es IH]; simpl; [by destruct (findKey k es')|].
  destruct (valuesEqual x k); [done|]. rewrite IH.
  destruct (findKey k es); [done|]. by destruct (findKey k es').
Qed.

Lemma findKey_alter k es i (f : Value * Value -> Value * Value) :
  (forall e, fst (f e) = fst e) -> findKey k (alter f i es) = findKey k es.
Proof.
  intros Hf. revert i. induction es as [|[x v] es IH]; intros [|i]; simpl; try done.
  - specialize (Hf (x, v)). destruct (f (x, v)). simpl in Hf. by subst.
  - unfold alter in IH. by rewrite IH.
Qed.

Lemma keys_alter es i (f : Value * Value -> Value * Value) :
  (forall e, fst (f e) = fst e) -> map fst (alter f i es) = map fst es.
Proof.
  intros Hf. revert i. induction es as [|[x v] es IH]; intros [|i]; simpl; try done.
  - by rewrite Hf.
  - f_equal. apply IH.
Qed.

(** [findKey] returns the position of the key. *)
Lemma findKey_spec k es i :
  Forall (fun e => plain (fst e) = true) es -> findKey k es = Some i ->
  exists k' v, es !! i = Some (k', v) /\ data k' = data k.
Proof.
  intros F. revert i. induction F as [|[x v] es Hx F IH]; intros i; simpl in *; [done|].
  rewrite valuesEqual_plain by done. case_bool_decide as E; [intros [= <-]; eauto|].
  destruct (findKey k es); [|done]. intros [= <-]. by apply IH.
Qed.

Lemma findKey_none k es :
  Forall (fun e => plain (fst e) = true) es -> findKey k es = None ->
  data k ∉ map (fun e => data (fst e)) es.
Proof.
  induction 1 as [|[x v] es Hx F IH]; simpl in *; [by intros _ ?%elem_of_nil|].
  rewrite valuesEqual_plain by done. case_bool_decide; [done|].
  destruct (findKey k es); [done|]. intros _. apply not_elem_of_cons. auto.
Qed.

(** Without duplicates, the key at a position is found there. *)
Lemma findKey_nodup k v es i k' :
  Forall (fun e => plain (fst e) = true) es -> NoDup (map (fun e => data (fst e)) es) ->
  es !! i = Some (k', v) -> data k' = data k -> findKey k es = Some i.
Proof.
  intros F. revert i. induction F as [|[x w] es Hx F IH]; intros i ND L E; simpl in *; [done|].
  apply list.NoDup_cons in ND as [Nin ND]. rewrite valuesEqual_plain by done.
  destruct i as [|i]; simpl in L.
  - injection L as -> ->. by rewrite bool_decide_true.
  - rewrite bool_decide_false.
    + by rewrite (IH i).
    + intros C. apply Nin. rewrite C, <- E. apply list_elem_of_In, in_map_iff.
      exists (k', v). split; [done|]. by apply list_elem_of_In, list_elem_of_lookup_2 with i.
Qed.

Lemma getColumn_lookup m i col :
  getColumn m i col =
  if (col <=? 0)%Z then default Void (snd <$> entries m !! i)
  else default Void (default [] (extraColumns m !! i) !! Z.to_nat (col - 1)).
Proof.
  unfold getColumn, nthV. rewrite !nth_lookup. destruct (col <=? 0)%Z; [by destruct (_ !! i)|].
  done.
Qed.
