(* ===== verification/Bytecode.v ===== *)
(** * Bytecode: compiled LPC programs

    include/amlp/vm/Bytecode.hpp, and the dialect switch of src/dialect.
    Programs are shared by pointer and compared by pointer, so a program is
    named by a [pid] and lives in a program store. *)
From S2P Require Import Prelude CLib Double Value.

Abbreviation pid := positive (only parsing).

Inductive LpcDialect := FluffOS | LdMud | DGD.
#[export] Instance LpcDialect_eq_dec : EqDecision LpcDialect.
Proof. solve_decision. Defined.

Definition dialectName (d : LpcDialect) : string :=
  match d with FluffOS => "fluffos" | LdMud => "ldmud" | DGD => "dgd" end.

Definition dialectFromString (s : string) : outcome exn LpcDialect :=
  if String.eqb s "fluffos" then Ok FluffOS
  else if String.eqb s "ldmud" then Ok LdMud
  else if String.eqb s "dgd" then Ok DGD
  else Throw (StdException ("dialectFromString(): unknown dialect name '" +:+ s +:+ "'")).

Inductive OpCode :=
  | PushConst | PushInt | PushFloat | PushNil | PushSymbol
  | PushLocal | StoreLocal | PushObjectVar | StoreObjectVar
  | Add | Sub | Mul | Div | Mod
  | BitAnd | BitOr | BitXor | Shl | Shr | BitNot
  | Eq | Neq | Lt | Lte | Gt | Gte | Not
  | Jump | JumpIfFalse
  | Call | CallEfun | CallParent | CallParentQualifierSlot
  | PushClosure | PushEfunClosure | CallApply
  | ExpandVarargs | MakeArray | MakeMapping
  | Index | IndexAssign | RangeIndex
  | Sscanf | SscanfVarSlot
  | ForeachKeys | PushCatchFrame | PopCatchFrame
  | TimeExpressionStart | TimeExpressionEnd
  | Return | Pop | Dup | Halt | Suspend.
#[export] Instance OpCode_eq_dec : EqDecision OpCode.
Proof. solve_decision. Defined.

(** [static_cast<int>(op)] *)
Definition opcode_number (op : OpCode) : Z :=
  match op with
  | PushConst => 0 | PushInt => 1 | PushFloat => 2 | PushNil => 3 | PushSymbol => 4
  | PushLocal => 5 | StoreLocal => 6 | PushObjectVar => 7 | StoreObjectVar => 8
  | Add => 9 | Sub => 10 | Mul => 11 | Div => 12 | Mod => 13
  | BitAnd => 14 | BitOr => 15 | BitXor => 16 | Shl => 17 | Shr => 18 | BitNot => 19
  | Eq => 20 | Neq => 21 | Lt => 22 | Lte => 23 | Gt => 24 | Gte => 25 | Not => 26
  | Jump => 27 | JumpIfFalse => 28
  | Call => 29 | CallEfun => 30 | CallParent => 31 | CallParentQualifierSlot => 32
  | PushClosure => 33 | PushEfunClosure => 34 | CallApply => 35
  | ExpandVarargs => 36 | MakeArray => 37 | MakeMapping => 38
  | Index => 39 | IndexAssign => 40 | RangeIndex => 41
  | Sscanf => 42 | SscanfVarSlot => 43
  | ForeachKeys => 44 | PushCatchFrame => 45 | PopCatchFrame => 46
  | TimeExpressionStart => 47 | TimeExpressionEnd => 48
  | Return => 49 | Pop => 50 | Dup => 51 | Halt => 52 | Suspend => 53
  end.

(** [operand] and [argCount] are [int32_t]. *)
Record Instruction := mkInstr { op : OpCode; operand : Z; argCount : Z }.

Record FunctionEntry := mkFunction {
  fname : string;
  entryPoint : nat;
  numArgs : nat;
  numLocals : nat;
  isAsync : bool;
  isVarargs : bool
}.
#[export] Instance FunctionEntry_eq_dec : EqDecision FunctionEntry.
Proof. solve_decision. Defined.

(** The mutable [functionChainCache_] is kept in the machine state (Lookup.v);
    everything else is fixed once the program is compiled. *)
Record CompiledProgram := mkProgram {
  code : list Instruction;
  functions : list FunctionEntry;
  stringPool : list string;
  floatPool : list double;
  objectVarNames : list string;
  inherits : list string;
  inheritedPrograms : list (option pid);
  ancestorBaseOffsets : gmap pid Z
}.

#[export] Instance eta_CompiledProgram : Eta CompiledProgram := fun p =>
  {| code := code p; functions := functions p; stringPool := stringPool p;
     floatPool := floatPool p; objectVarNames := objectVarNames p; inherits := inherits p;
     inheritedPrograms := inheritedPrograms p; ancestorBaseOffsets := ancestorBaseOffsets p |}.

Definition emptyProgram : CompiledProgram :=
  {| code := []; functions := []; stringPool := []; floatPool := []; objectVarNames := [];
     inherits := []; inheritedPrograms := []; ancestorBaseOffsets := ∅ |}.

(** An [operand] used as an index into a pool: negative or too large fails. *)
Definition poolAt {A} (pool : list A) (i : Z) : option A :=
  if (i <? 0)%Z then None else pool !! Z.to_nat i.
