(* ===== verification/Lookup.v ===== *)
(** * Lookup: resolving a function name in a program's inherit chain

    [findFunctionInChain] and [findParentFunction] of src/vm/VM.cpp, with the
    memo table every [CompiledProgram] carries ([functionChainCache_]).
    [Resolves] is the specification: own functions first, then each parent in
    inherit order, depth first.  The theorems show the memoised walk computes
    exactly that, whatever the calls made before. *)
From S2P Require Import Prelude CLib Double Value Bytecode.

(** [FunctionLookupResult]: a null pair is [None]. *)
Abbreviation FunctionLookupResult := (option (pid * FunctionEntry)) (only parsing).

Abbreviation programs := (gmap pid CompiledProgram) (only parsing).
Definition prog (P : programs) (p : pid) : CompiledProgram := default emptyProgram (P !! p).

(** [functionChainCache_] of every program. *)
Abbreviation chainCache := (gmap (pid * string) FunctionLookupResult) (only parsing).

Definition ownFunction (pr : CompiledProgram) (name : string) : option FunctionEntry :=
  List.find (fun fn => String.eqb (fname fn) name) (functions pr).

(** The parents are searched in order, null ones skipped, the first hit wins. *)
Fixpoint firstFound {S E} (f : pid -> M S E FunctionLookupResult)
    (ps : list (option pid)) : M S E FunctionLookupResult :=
  match ps with
  | [] => mret None
  | None :: ps' => firstFound f ps'
  | Some q :: ps' =>
      found <- f q ;;
      match found with Some r => mret (Some r) | None => firstFound f ps' end
  end.

(** [emplace]: an existing entry is kept. *)
Definition emplace (k : pid * string) (r : FunctionLookupResult) (c : chainCache) : chainCache :=
  match c !! k with Some _ => c | None => <[k := r]> c end.

Fixpoint findFunctionInChain (fuel : nat) (P : programs) (p : pid) (name : string)
    : M chainCache exn FunctionLookupResult :=
  match fuel with
  | O => mlift OutOfFuel
  | S fuel' =>
      cached <- mgets (lookup (p, name)) ;;
      match cached with
      | Some r => mret r
      | None =>
          result <- match ownFunction (prog P p) name with
                    | Some fn => mret (Some (p, fn))
                    | None => firstFound (fun q => findFunctionInChain fuel' P q name)
                                (inheritedPrograms (prog P p))
                    end ;;
          mmodify (emplace (p, name) result) ;;
          mret result
      end
  end.

Definition pathBasename (path : string) : string :=
  match find_last "/" path with None => path | Some i => sdrop (S i) path end.

(** The qualifier is compared with each direct parent's base name; the first
    match with a compiled program decides, whether or not it has the name. *)
Fixpoint qualifiedParent (qualifier : string) (names : list string) (ps : list (option pid))
    : option pid :=
  match names, ps with
  | n :: names', q :: ps' =>
      if negb (String.eqb (pathBasename n) qualifier) then qualifiedParent qualifier names' ps'
      else match q with None => qualifiedParent qualifier names' ps' | Some q => Some q end
  | _, _ => None
  end.

Definition findParentFunction (fuel : nat) (P : programs) (p : pid) (name : string)
    (qualifier : option string) : M chainCache exn FunctionLookupResult :=
  match qualifier with
  | None => firstFound (fun q => findFunctionInChain fuel P q name)
              (inheritedPrograms (prog P p))
  | Some ql =>
      match qualifiedParent ql (inherits (prog P p)) (inheritedPrograms (prog P p)) with
      | Some q => findFunctionInChain fuel P q name
      | None => mret None
      end
  end.

(** ** Specification *)
Section Spec.
Context (P : programs).

Inductive Resolves : pid -> string -> FunctionLookupResult -> Prop :=
  | resolves_own p name fn :
      ownFunction (prog P p) name = Some fn -> Resolves p name (Some (p, fn))
  | resolves_chain p name r :
      ownFunction (prog P p) name = None ->
      ResolvesIn (inheritedPrograms (prog P p)) name r -> Resolves p name r
with ResolvesIn : list (option pid) -> string -> FunctionLookupResult -> Prop :=
  | resolves_nil name : ResolvesIn [] name None
  | resolves_null ps name r : ResolvesIn ps name r -> ResolvesIn (None :: ps) name r
  | resolves_hit q ps name x :
      Resolves q name (Some x) -> ResolvesIn (Some q :: ps) name (Some x)
  | resolves_miss q ps name r :
      Resolves q name None -> ResolvesIn ps name r -> ResolvesIn (Some q :: ps) name r.

Scheme Resolves_mut := Induction for Resolves Sort Prop
  with ResolvesIn_mut := Induction for ResolvesIn Sort Prop.

Lemma Resolves_det p name r r' : Resolves p name r -> Resolves p name r' -> r = r'.
Proof.
  intros H. revert r'.
  induction H using Resolves_mut with
    (P0 := fun ps name r _ => forall r', ResolvesIn ps name r' -> r = r');
    intros r' H'; inversion H'; subst; try naive_solver.
  all: match goal with
       | IH : forall r', Resolves ?q ?n r' -> _ = r', H : Resolves ?q ?n _ |- _ =>
           specialize (IH _ H); congruence || naive_solver
       end.
Qed.

(** A cache is coherent when every entry is what the walk would find. *)
Definition cache_ok (c : chainCache) : Prop :=
  forall p name r, c !! (p, name) = Some r -> Resolves p name r.

Lemma cache_ok_empty : cache_ok ∅.
Proof. intros p name r. by rewrite lookup_empty. Qed.

Lemma cache_ok_emplace c p name r :
  cache_ok c -> Resolves p name r -> cache_ok (emplace (p, name) r c).
Proof.
  intros Hc Hr p' name' r'. unfold emplace.
  destruct (c !! (p, name)) eqn:E; [apply Hc|].
  destruct (decide ((p, name) = (p', name'))) as [[= <- <-]|N].
  - rewrite lookup_insert_eq. by intros [= <-].
  - rewrite lookup_insert_ne by done. apply Hc.
Qed.

(** What a search over the parents inherits from a search in one of them. *)
Lemma firstFound_spec (f : pid -> M chainCache exn FunctionLookupResult) name ps c r c' :
  (forall q c r c', cache_ok c -> f q c = (Ok r, c') -> Resolves q name r /\ cache_ok c') ->
  cache_ok c -> firstFound f ps c = (Ok r, c') ->
  ResolvesIn ps name r /\ cache_ok c'.
Proof.
  intros Hf. revert c. induction ps as [|[q|] ps IH]; intros c Hc E; simpl in E.
  - inv_ok. by split; [constructor|].
  - inv_ok. destruct (Hf _ _ _ _ Hc E0) as [R Hs]. destruct a as [x|].
    + inv_ok. by split; [constructor|].
    + destruct (IH _ Hs E). by split; [constructor|].
  - destruct (IH _ Hc E). by split; [constructor|].
Qed.

Lemma find_chain_spec fuel p name c r c' :
  cache_ok c -> findFunctionInChain fuel P p name c = (Ok r, c') ->
  Resolves p name r /\ cache_ok c'.
Proof.
  revert p c r c'. induction fuel as [|fuel IH]; intros p c r c' Hc E; [done|].
  simpl in E. inv_ok. destruct (_ !! (p, name)) eqn:L in E.
  - inv_ok. split; [by apply Hc|done].
  - inv_ok. destruct (ownFunction (prog P p) name) eqn:O.
    + inv_ok. split; [by constructor|apply cache_ok_emplace; [done|by constructor]].
    + apply (firstFound_spec _ name) in E0 as [R Hs]; [|intros; eapply IH; eauto|done].
      split; [by constructor|apply cache_ok_emplace; [done|by constructor]].
Qed.

(** ** Termination

    A program is compiled after its parents, so the inherit graph is acyclic:
    some rank decreases along it.  A walk then meets no program twice, and the
    number of programs bounds its depth. *)
Definition acyclic : Prop :=
  exists rank : pid -> nat, forall p q,
    In (Some q) (inheritedPrograms (prog P p)) -> (rank q < rank p)%nat.

Lemma firstFound_total (f : pid -> M chainCache exn FunctionLookupResult) ps c :
  (forall q c, In (Some q) ps -> fst (f q c) <> OutOfFuel) -> fst (firstFound f ps c) <> OutOfFuel.
Proof.
  revert c. induction ps as [|[q|] ps IH]; intros c Hf; simpl;
    [done| |apply IH; intros; apply Hf; by right].
  unfold mbind. pose proof (Hf q c ltac:(by left)) as N.
  destruct (f q c) as [[[r|]|e|w|] c']; simpl in *; try done.
  apply IH. intros; apply Hf; by right.
Qed.

(** [visited] are the programs on the path to [p]. *)
Lemma find_chain_total rank fuel p name (visited : gset pid) c :
  (forall p q, In (Some q) (inheritedPrograms (prog P p)) -> (rank q < rank p)%nat) ->
  visited ⊆ dom P -> (forall v, v ∈ visited -> (rank p < rank v)%nat) ->
  (size P < fuel + size visited)%nat ->
  fst (findFunctionInChain fuel P p name c) <> OutOfFuel.
Proof.
  intros Hrank. revert p visited c.
  induction fuel as [|fuel IH]; intros p visited c Hsub Hr Hsize.
  { apply subseteq_size in Hsub. rewrite size_dom in Hsub. lia. }
  simpl. unfold mbind, mgets, mmodify. simpl. destruct (c !! (p, name)); [done|].
  destruct (ownFunction (prog P p) name); [done|].
  assert (fst (firstFound (fun q => findFunctionInChain fuel P q name)
                 (inheritedPrograms (prog P p)) c) <> OutOfFuel) as N.
  { apply firstFound_total. intros q c' Hq.
    assert (p ∈ dom P) as Hp.
    { apply elem_of_dom. unfold prog in Hq. destruct (P !! p); [eauto|done]. }
    apply (IH q ({[p]} ∪ visited)).
    - set_solver.
    - intros v. rewrite elem_of_union, elem_of_singleton. pose proof (Hrank p q Hq).
      intros [->|Hv]; [done|]. specialize (Hr v Hv). lia.
    - rewrite size_union, size_singleton; [lia|].
      intros x ->%elem_of_singleton Hv. specialize (Hr p Hv). lia. }
  by destruct (firstFound _ _ _) as [[]].
Qed.

Lemma find_chain_not_fuel p name c :
  acyclic -> fst (findFunctionInChain (S (size P)) P p name c) <> OutOfFuel.
Proof.
  intros [rank Hrank]. apply (find_chain_total rank _ p name ∅); [done|set_solver|set_solver|].
  rewrite size_empty. lia.
Qed.

Lemma firstFound_returns (f : pid -> M chainCache exn FunctionLookupResult) ps c :
  (forall q c, fst (f q c) <> OutOfFuel -> exists r c', f q c = (Ok r, c')) ->
  fst (firstFound f ps c) <> OutOfFuel -> exists r c', firstFound f ps c = (Ok r, c').
Proof.
  intros Hf. revert c. induction ps as [|[q|] ps IH]; intros c; simpl; [by eexists _, _| |apply IH].
  unfold mbind. intros N. destruct (Hf q c) as (r & c' & E).
  { intros E. by destruct (f q c) as [[]]. }
  rewrite E in *. destruct r; [by eexists _, _|by apply IH].
Qed.

(** The walk does not throw. *)
Lemma find_chain_returns fuel p name c :
  fst (findFunctionInChain fuel P p name c) <> OutOfFuel ->
  exists r c', findFunctionInChain fuel P p name c = (Ok r, c').
Proof.
  revert p c. induction fuel as [|fuel IH]; intros p c; [done|].
  simpl. unfold mbind, mgets, mmodify. simpl. destruct (c !! (p, name)); [by eexists _, _|].
  destruct (ownFunction (prog P p) name); [by eexists _, _|]. intros N.
  destruct (firstFound_returns (fun q => findFunctionInChain fuel P q name)
              (inheritedPrograms (prog P p)) c) as (r & c' & E).
  { intros q c'. apply IH. }
  { intros E. by destruct (firstFound _ _ _) as [[]]. }
  rewrite E. by eexists _, _.
Qed.
End Spec.

(** What a [::] call resolves to: without a qualifier the first parent whose
    chain has the function; with one, the chain of the first parent with that
    base name and a compiled program. *)
Inductive ParentResolves (P : programs) (p : pid) (name : string)
    : option string -> FunctionLookupResult -> Prop :=
  | parent_any r :
      ResolvesIn P (inheritedPrograms (prog P p)) name r -> ParentResolves P p name None r
  | parent_named ql q r :
      qualifiedParent ql (inherits (prog P p)) (inheritedPrograms (prog P p)) = Some q ->
      Resolves P q name r -> ParentResolves P p name (Some ql) r
  | parent_missing ql :
      qualifiedParent ql (inherits (prog P p)) (inheritedPrograms (prog P p)) = None ->
      ParentResolves P p name (Some ql) None.

(** ** Theorems *)

(** C22: on an acyclic inherit graph, whatever earlier lookups left in the memo
    tables, [findFunctionInChain] returns, with as much fuel as there are
    programs plus one, exactly the function the depth-first walk without memo
    would find (or null), and leaves the tables coherent. *)
Theorem findFunctionInChain_correct (P : programs) p name c :
  acyclic P -> cache_ok P c ->
  exists r c', findFunctionInChain (S (size P)) P p name c = (Ok r, c') /\
    Resolves P p name r /\ cache_ok P c'.
Proof.
  intros Ha Hc. destruct (find_chain_returns P (S (size P)) p name c) as (r & c' & E).
  { by apply find_chain_not_fuel. }
  exists r, c'. split; [done|]. by eapply find_chain_spec.
Qed.

(** A [::] lookup returns the function the qualifier rule designates, and
    keeps the memo tables coherent. *)
Theorem findParentFunction_correct (P : programs) p name q c :
  acyclic P -> cache_ok P c ->
  exists r c', findParentFunction (S (size P)) P p name q c = (Ok r, c') /\
    ParentResolves P p name q r /\ cache_ok P c'.
Proof.
  intros Ha Hc. unfold findParentFunction.
  assert (forall q' c', exists r c'', findFunctionInChain (S (size P)) P q' name c' = (Ok r, c''))
    as Hret.
  { intros q' c'. by apply find_chain_returns, find_chain_not_fuel. }
  destruct q as [ql|].
  - destruct (qualifiedParent _ _ _) as [q'|] eqn:Eq; [|by exists None, c; auto using parent_missing].
    destruct (Hret q' c) as (r & c' & E). destruct (find_chain_spec _ _ _ _ _ _ _ Hc E).
    exists r, c'. split; [done|]. split; [by eapply parent_named|done].
  - destruct (firstFound_returns (fun q' => findFunctionInChain (S (size P)) P q' name)
                (inheritedPrograms (prog P p)) c) as (r & c' & E).
    { intros q' c' _. apply Hret. }
    { apply firstFound_total. intros. by apply find_chain_not_fuel. }
    exists r, c'. split; [done|].
    apply (firstFound_spec P _ name) in E as [R C]; [|intros; by eapply find_chain_spec|done].
    split; [by constructor|done].
Qed.

(** A child that inherits a parent with one function. *)
Definition exampleFn : FunctionEntry := mkFunction "query" 0 0 0 false false.
Definition examplePrograms : programs :=
  <[2%positive := emptyProgram <| inherits := ["/std/room"] |> <| inheritedPrograms := [Some 1%positive] |>]>
    {[ 1%positive := emptyProgram <| functions := [exampleFn] |> ]}.

Lemma examplePrograms_acyclic : acyclic examplePrograms.
Proof.
  exists (fun p => Pos.to_nat p). intros p q. unfold prog, examplePrograms.
  rewrite lookup_insert, lookup_singleton.
  repeat case_decide; subst; simpl; naive_solver lia.
Defined.

Lemma findFunctionInChain_correct_witness :
  acyclic examplePrograms /\ cache_ok examplePrograms ∅ /\
  exists r c', findFunctionInChain (S (size examplePrograms)) examplePrograms 2%positive "query" ∅
    = (Ok r, c') /\ Resolves examplePrograms 2%positive "query" r /\ cache_ok examplePrograms c'.
Proof.
  split; [apply examplePrograms_acyclic|]. split; [apply cache_ok_empty|].
  apply (findFunctionInChain_correct examplePrograms 2%positive "query" ∅).
  - apply examplePrograms_acyclic.
  - apply cache_ok_empty.
Defined.

Lemma findParentFunction_correct_witness :
  exists r c', findParentFunction (S (size examplePrograms)) examplePrograms 2%positive "query"
      (Some "room") ∅ = (Ok r, c') /\
    ParentResolves examplePrograms 2%positive "query" (Some "room") r /\ cache_ok examplePrograms c'.
Proof.
  apply (findParentFunction_correct examplePrograms 2%positive "query" (Some "room") ∅).
  - apply examplePrograms_acyclic.
  - apply cache_ok_empty.
Defined.
