(* ===== verification/Lexer.v ===== *)
(** * Lexer: src/compiler/Lexer.cpp

    The scanner keeps the rest of the source ([src_] from [pos_] on) and the
    current line.  Loops that consume a character per round are structural
    recursions on that rest; the two loops of the scanner proper
    ([skipWhitespaceAndComments] and [tokenize]) carry fuel, and
    [tokenize_total] shows that one unit per source byte, plus one, is enough. *)
From S2P Require Import Prelude CLib Double Value Bytecode.
Local Open Scope string_scope.

Inductive TokenType := TIdent | TNumber | TString | TSymbol | TQuotedSymbol | TKeyword | TEnd.
#[export] Instance TokenType_eq_dec : EqDecision TokenType.
Proof. solve_decision. Defined.

Record Token := mkToken { ttype : TokenType; text : string; tline : Z }.
#[export] Instance Token_eq_dec : EqDecision Token.
Proof. solve_decision. Defined.

Record LexState := mkLex { rest : string; line_ : Z }.

Abbreviation Lx := (M LexState exn) (only parsing).

Definition kKeywords : list string :=
  ["void"; "int"; "string"; "object"; "float"; "mapping"; "status";
   "mixed"; "function"; "return"; "if"; "else"; "while"; "for"; "do";
   "static"; "private"; "public"; "protected"; "nomask"; "varargs";
   "inherit"; "break"; "continue"; "foreach"; "in"; "switch"; "case"; "default"].

Definition kDgdOnlyKeywords : list string := ["atomic"; "nil"].

Definition mem_string (s : string) (l : list string) : bool := existsb (String.eqb s) l.

Definition bump (c : ascii) (line : Z) : Z := if Ascii.eqb c NL then line + 1 else line.

Definition atEnd : Lx bool := mgets (fun st => String.eqb (rest st) "").
Definition peek : Lx ascii := mgets (fun st => char_at (rest st) 0).
Definition peekNext : Lx ascii := mgets (fun st => char_at (rest st) 1).
Definition getLine : Lx Z := mgets line_.

(** Every caller has checked [atEnd] or looked at the character first. *)
Definition advance : Lx ascii := fun st =>
  match rest st with
  | String c s => (Ok c, mkLex s (bump c (line_ st)))
  | EmptyString => (Undefined "advance past the end", st)
  end.

(** [while (!atEnd() && p(peek())) text += advance();] *)
Fixpoint take_while (p : ascii -> bool) (s : string) (line : Z) : string * LexState :=
  match s with
  | String c s' =>
      if p c then let '(t, st) := take_while p s' (bump c line) in (String c t, st)
      else ("", mkLex s line)
  | EmptyString => ("", mkLex s line)
  end.

Definition takeWhile (p : ascii -> bool) : Lx string := fun st =>
  let '(t, st') := take_while p (rest st) (line_ st) in (Ok t, st').

(** [while (!atEnd() && !(peek() == '*' && peekNext() == '/')) advance();] *)
Fixpoint skip_block (s : string) (line : Z) : LexState :=
  match s with
  | String c s' =>
      if Ascii.eqb c "*" && Ascii.eqb (char_at s' 0) "/" then mkLex s line
      else skip_block s' (bump c line)
  | EmptyString => mkLex s line
  end.
Definition skipBlock : Lx unit := fun st => (Ok tt, skip_block (rest st) (line_ st)).

Definition is_blank (c : ascii) : bool :=
  Ascii.eqb c " " || Ascii.eqb c TAB || Ascii.eqb c CR || Ascii.eqb c NL.
Definition not_newline (c : ascii) : bool := negb (Ascii.eqb c NL).

Fixpoint skipWhitespaceAndComments (fuel : nat) : Lx unit :=
  match fuel with
  | O => mlift OutOfFuel
  | S f =>
      e <- atEnd ;;
      if e : bool then mret tt else
      c <- peek ;;
      n <- peekNext ;;
      if is_blank c then advance ;; skipWhitespaceAndComments f
      else if Ascii.eqb c "/" && Ascii.eqb n "/" then
        takeWhile not_newline ;; skipWhitespaceAndComments f
      else if Ascii.eqb c "/" && Ascii.eqb n "*" then
        advance ;; advance ;; skipBlock ;;
        e <- atEnd ;;
        (if e : bool then mret tt else (advance ;; advance ;; mret tt)) ;;
        skipWhitespaceAndComments f
      else mret tt
  end.

Definition is_ident_char (c : ascii) : bool := isalnum c || Ascii.eqb c "_".
Definition is_ident_start (c : ascii) : bool := isalpha c || Ascii.eqb c "_".

Definition lexIdentOrKeyword (dialect : LpcDialect) : Lx Token :=
  startLine <- getLine ;;
  t <- takeWhile is_ident_char ;;
  let isDialectKeyword := bool_decide (dialect = DGD) && mem_string t kDgdOnlyKeywords in
  mret (mkToken (if mem_string t kKeywords || isDialectKeyword then TKeyword else TIdent) t startLine).

Definition lexNumber : Lx Token :=
  startLine <- getLine ;;
  t <- takeWhile isdigit ;;
  c <- peek ;;
  n <- peekNext ;;
  if String.eqb t "0" && (Ascii.eqb c "x" || Ascii.eqb c "X") && isxdigit n then
    x <- advance ;;
    ds <- takeWhile isxdigit ;;
    mret (mkToken TNumber (t +:+ String x ds) startLine)
  else if Ascii.eqb c "." && isdigit n then
    dot <- advance ;;
    ds <- takeWhile isdigit ;;
    mret (mkToken TNumber (t +:+ String dot ds) startLine)
  else mret (mkToken TNumber t startLine).

Definition lexLambdaParam : Lx Token :=
  startLine <- getLine ;;
  advance ;;
  c <- peek ;;
  if negb (isdigit c) then mret (mkToken TSymbol "$" startLine)
  else ds <- takeWhile isdigit ;; mret (mkToken TIdent ("$" +:+ ds) startLine).

(** The escape table of [lexString]. *)
Definition unescape (esc : ascii) : ascii :=
  if Ascii.eqb esc "n" then NL
  else if Ascii.eqb esc "t" then TAB
  else if Ascii.eqb esc DQUOTE then DQUOTE
  else if Ascii.eqb esc BSLASH then BSLASH
  else esc.

Fixpoint string_body (s : string) (line : Z) : string * LexState :=
  match s with
  | EmptyString => ("", mkLex s line)
  | String c s' =>
      if Ascii.eqb c DQUOTE then ("", mkLex s line)
      else match s' with
           | String esc s'' =>
               if Ascii.eqb c BSLASH then
                 let '(t, st) := string_body s'' (bump esc (bump c line)) in
                 (String (unescape esc) t, st)
               else let '(t, st) := string_body s' (bump c line) in (String c t, st)
           | EmptyString => (String c "", mkLex s' (bump c line))
           end
  end.

Definition lexString : Lx Token :=
  startLine <- getLine ;;
  advance ;;
  value <- (fun st => let '(t, st') := string_body (rest st) (line_ st) in (Ok t, st')) ;;
  e <- atEnd ;;
  if e : bool then
    mthrow (LpcRuntimeError ("unterminated string literal at line " +:+ to_string startLine))
  else advance ;; mret (mkToken TString value startLine).

Definition unescape_char (esc : ascii) : Z :=
  if Ascii.eqb esc "n" then 10
  else if Ascii.eqb esc "t" then 9
  else if Ascii.eqb esc SQUOTE then 39
  else if Ascii.eqb esc DQUOTE then 34
  else if Ascii.eqb esc BSLASH then 92
  else ord esc.

Definition lexChar : Lx Token :=
  startLine <- getLine ;;
  advance ;;
  e <- atEnd ;;
  if e : bool then
    mthrow (LpcRuntimeError ("unterminated character literal at line " +:+ to_string startLine))
  else
  c <- advance ;;
  e <- atEnd ;;
  n <- (if Ascii.eqb c BSLASH && negb e then esc <- advance ;; mret (unescape_char esc)
        else mret (ord c)) ;;
  e <- atEnd ;;
  q <- peek ;;
  if (e : bool) || negb (Ascii.eqb q SQUOTE) then
    mthrow (LpcRuntimeError
      ("character literal must contain exactly one character, at line " +:+ to_string startLine))
  else advance ;; mret (mkToken TNumber (to_string n) startLine).

(** The scan of a heredoc body; [None] when the source ends first. *)
Fixpoint heredoc_body (terminator : string) (atLineStart : bool) (s : string) (line : Z)
    : option (string * LexState) :=
  if atLineStart && sprefix terminator s
  then Some ("", mkLex (sdrop (String.length terminator) s) line)
  else match s with
       | EmptyString => None
       | String c s' =>
           match heredoc_body terminator (Ascii.eqb c NL) s' (bump c line) with
           | Some (t, st) => Some (String c t, st)
           | None => None
           end
       end.

Definition unterminatedHeredoc (terminator : string) (startLine : Z) : exn :=
  LpcRuntimeError ("unterminated heredoc: missing closing " +:+ str1 DQUOTE +:+ terminator
    +:+ str1 DQUOTE +:+ " at line " +:+ to_string startLine).

Definition lexHeredoc : Lx Token :=
  startLine <- getLine ;;
  advance ;;
  c <- peek ;;
  if Ascii.eqb c "@" then
    mthrow (NotImplementedError (str1 DQUOTE +:+ "@@" +:+ str1 DQUOTE +:+ " array-block heredoc syntax"))
  else
  terminator <- takeWhile not_newline ;;
  if String.eqb terminator "" then
    mthrow (LpcRuntimeError ("heredoc: missing terminator at line " +:+ to_string startLine))
  else
  e <- atEnd ;;
  if e : bool then mthrow (unterminatedHeredoc terminator startLine)
  else
  advance ;;
  fun st =>
    match heredoc_body terminator true (rest st) (line_ st) with
    | Some (value, st') => (Ok (mkToken TString value startLine), st')
    | None => (Throw (unterminatedHeredoc terminator startLine), st)
    end.

Fixpoint is_any (cs : string) (c : ascii) : bool :=
  match cs with String d cs' => Ascii.eqb c d || is_any cs' c | EmptyString => false end.

Definition lexSymbol : Lx Token :=
  startLine <- getLine ;;
  c <- advance ;;
  p <- peek ;;
  let sym t := mret (mkToken TSymbol t startLine) in
  let pair a b := Ascii.eqb c a && Ascii.eqb p b in
  if pair "-"%char ">"%char then advance ;; sym "->"
  else if pair ":"%char ":"%char then advance ;; sym "::"
  else if pair "+"%char "+"%char then advance ;; sym "++"
  else if pair "-"%char "-"%char then advance ;; sym "--"
  else if is_any "+-*/%" c && Ascii.eqb p "=" then advance ;; sym (String c "=")
  else if is_any "|&^" c && Ascii.eqb p "=" then advance ;; sym (String c "=")
  else if pair "="%char "="%char then advance ;; sym "=="
  else if pair "!"%char "="%char then advance ;; sym "!="
  else if pair "<"%char "<"%char then
    advance ;; q <- peek ;;
    if Ascii.eqb q "=" then advance ;; sym "<<=" else sym "<<"
  else if pair ">"%char ">"%char then
    advance ;; q <- peek ;;
    if Ascii.eqb q "=" then advance ;; sym ">>=" else sym ">>"
  else if pair "<"%char "="%char then advance ;; sym "<="
  else if pair ">"%char "="%char then advance ;; sym ">="
  else if pair "|"%char "|"%char then advance ;; sym "||"
  else if pair "&"%char "&"%char then advance ;; sym "&&"
  else if pair "."%char "."%char then
    advance ;; q <- peek ;;
    if Ascii.eqb q "." then advance ;; sym "..." else sym ".."
  else sym (str1 c).

(** LDMud: ['name] is a symbol unless it is a one-character literal ['n']. *)
Definition lexQuote : Lx Token := fun st =>
  let ahead := sdrop 1 (rest st) in
  let '(ident, after) := span is_ident_char ahead in
  let singleCharThenQuote := (String.length ident =? 1)%nat && Ascii.eqb (char_at after 0) SQUOTE in
  if is_ident_start (char_at ahead 0) && negb singleCharThenQuote then
    (startLine <- getLine ;;
     advance ;;
     name <- takeWhile is_ident_char ;;
     mret (mkToken TQuotedSymbol name startLine)) st
  else lexChar st.

Definition lexHashQuote : Lx Token :=
  startLine <- getLine ;;
  advance ;;
  advance ;;
  mret (mkToken TSymbol ("#" +:+ str1 SQUOTE) startLine).

Definition symbol_chars : string := "(){}[]:;,-=!<>*+|&/%.?^~".

(** One round of the [for] loop of [tokenize], after the whitespace. *)
Definition nextToken (dialect : LpcDialect) : Lx Token :=
  c <- peek ;;
  n <- peekNext ;;
  if is_ident_start c then lexIdentOrKeyword dialect
  else if isdigit c then lexNumber
  else if Ascii.eqb c "." && isdigit n then lexNumber
  else if Ascii.eqb c DQUOTE then lexString
  else if Ascii.eqb c SQUOTE then (if decide (dialect = LdMud) then lexQuote else lexChar)
  else if Ascii.eqb c "#" && bool_decide (dialect = LdMud) && Ascii.eqb n SQUOTE then lexHashQuote
  else if Ascii.eqb c "@" then lexHeredoc
  else if Ascii.eqb c "$" then lexLambdaParam
  else if is_any symbol_chars c then lexSymbol
  else
    errLine <- getLine ;;
    unrecognized <- advance ;;
    mthrow (LpcRuntimeError ("lexer: unrecognized character '" +:+ str1 unrecognized
      +:+ "' at line " +:+ to_string errLine)).

Fixpoint tokenize_loop (fuel : nat) (dialect : LpcDialect) : Lx (list Token) :=
  match fuel with
  | O => mlift OutOfFuel
  | S f =>
      skipWhitespaceAndComments (S f) ;;
      e <- atEnd ;;
      if e : bool then l <- getLine ;; mret [mkToken TEnd "" l]
      else t <- nextToken dialect ;; ts <- tokenize_loop f dialect ;; mret (t :: ts)
  end.

(** [Lexer(source, dialect).tokenize()] *)
Definition tokenize (dialect : LpcDialect) (source : string) : outcome exn (list Token) :=
  fst (tokenize_loop (S (String.length source)) dialect (mkLex source 1)).
