(* ===== verification/LexerFacts.v ===== *)
(** * LexerFacts: the scanner ends, consumes its input and counts lines

    [wp m Q st] says that [m] started in [st] returns with [Q], or throws; it
    excludes undefined behaviour and running out of fuel.  [eats st st'] says
    that the scanner moved over a prefix of the source and counted its
    newlines.  The last section is the print/scan round trip. *)
From S2P Require Import Prelude CLib Double Value Bytecode Lexer.
From Stdlib Require Import Sorting.Sorted.
Local Open Scope Z_scope.

(** The newlines of a text. *)
Fixpoint nl (s : string) : Z :=
  match s with EmptyString => 0 | String c s' => (if Ascii.eqb c NL then 1 else 0) + nl s' end.

Lemma nl_app a b : nl (a +:+ b) = nl a + nl b.
Proof. induction a as [|c a IH]; [done|]. rewrite sapp_cons. simpl. lia. Qed.
Lemma nl_nonneg a : 0 <= nl a.
Proof. induction a as [|c a IH]; simpl; [done|]. destruct (Ascii.eqb c NL); lia. Qed.
Lemma bump_nl c l : bump c l = l + nl (str1 c).
Proof. unfold bump. simpl. destruct (Ascii.eqb c NL); lia. Qed.

(** [pre] was consumed between the two states. *)
Definition eaten (pre : string) (st st' : LexState) : Prop :=
  rest st = pre +:+ rest st' /\ line_ st' = line_ st + nl pre.
Definition eats (st st' : LexState) : Prop := exists pre, eaten pre st st'.
Definition eats1 (st st' : LexState) : Prop := exists pre, eaten pre st st' /\ pre <> ""%string.

Lemma eats_refl st : eats st st.
Proof. exists ""%string. split; [done|simpl; lia]. Qed.
Lemma eaten_trans p q a b c : eaten p a b -> eaten q b c -> eaten (p +:+ q) a c.
Proof. intros [R1 L1] [R2 L2]. split; [by rewrite R1, R2, sapp_assoc|rewrite nl_app; lia]. Qed.
Lemma eats_trans a b c : eats a b -> eats b c -> eats a c.
Proof. intros [p H1] [q H2]. exists (p +:+ q). by eapply eaten_trans. Qed.
Lemma eats1_l a b c : eats1 a b -> eats b c -> eats1 a c.
Proof.
  intros (p & H1 & N) [q H2]. exists (p +:+ q). split; [by eapply eaten_trans|]. by destruct p.
Qed.
Lemma eats1_r a b c : eats a b -> eats1 b c -> eats1 a c.
Proof.
  intros [p H1] (q & H2 & N). exists (p +:+ q). split; [by eapply eaten_trans|].
  destruct p; [|done]. by rewrite sapp_nil_l.
Qed.
Lemma eats1_eats a b : eats1 a b -> eats a b.
Proof. intros (p & H & _). by exists p. Qed.
Lemma eats1_length a b : eats1 a b -> (String.length (rest b) < String.length (rest a))%nat.
Proof. intros (p & [-> _] & N). rewrite slength_app. destruct p; [done|simpl; lia]. Qed.
Lemma eats_length a b : eats a b -> (String.length (rest b) <= String.length (rest a))%nat.
Proof. intros (p & [-> _]). rewrite slength_app. lia. Qed.
Lemma eats_line a b : eats a b -> line_ a <= line_ b.
Proof. intros (p & [_ ->]). pose proof (nl_nonneg p). lia. Qed.

(** The total of lines from a state on does not change. *)
Lemma eats_total a b : eats a b -> line_ b + nl (rest b) = line_ a + nl (rest a).
Proof. intros (p & [-> ->]). rewrite nl_app. lia. Qed.


(** ** Weakest preconditions *)
Definition wp {A} (m : Lx A) (Q : A -> LexState -> Prop) (st : LexState) : Prop :=
  match m st with
  | (Ok a, st') => Q a st'
  | (Throw _, _) => True
  | _ => False
  end.

Lemma wp_bind {A B} (m : Lx A) (k : A -> Lx B) Q st :
  wp m (fun a => wp (k a) Q) st -> wp (mbind m k) Q st.
Proof. unfold wp, mbind. by destruct (m st) as [[]]. Qed.
Lemma wp_weaken {A} (m : Lx A) (Q Q' : A -> LexState -> Prop) st :
  wp m Q st -> (forall a st', Q a st' -> Q' a st') -> wp m Q' st.
Proof. unfold wp. destruct (m st) as [[]]; naive_solver. Qed.

Lemma wp_advance Q st c s :
  rest st = String c s ->
  (forall st', eats1 st st' -> rest st' = s -> Q c st') -> wp advance Q st.
Proof.
  intros E H. unfold wp, advance. rewrite E. apply H; [|done].
  exists (str1 c). split; [|done]. split; [by rewrite E|]. simpl. by rewrite bump_nl.
Qed.

(** A character that was seen is there. *)
Lemma char_at_0 s c : char_at s 0 = c -> c <> NUL -> exists s', s = String c s'.
Proof. destruct s as [|d s]; unfold char_at; simpl; [by intros <-|]. intros ->. eauto. Qed.

Lemma take_while_spec p s l :
  let '(t, st) := take_while p s l in
  s = t +:+ rest st /\ line_ st = l + nl t /\ sforall p t = true /\
  (forall c r, rest st = String c r -> p c = false).
Proof.
  revert l. induction s as [|c s IH]; intros l; simpl.
  - split_and!; try done; [simpl; lia].
  - destruct (p c) eqn:E.
    + specialize (IH (bump c l)). destruct (take_while p s (bump c l)) as [t st].
      destruct IH as (-> & L & F & R). rewrite sapp_cons. split_and!; try done.
      * rewrite L, bump_nl. simpl. lia.
      * simpl. by rewrite E.
    + split_and!; try done; [simpl; lia|]. by intros ? ? [= <- <-].
Qed.

Lemma wp_takeWhile p Q st :
  (forall t st', eaten t st st' -> sforall p t = true ->
     (forall c r, rest st' = String c r -> p c = false) -> Q t st') -> wp (takeWhile p) Q st.
Proof.
  intros H. unfold wp, takeWhile. pose proof (take_while_spec p (rest st) (line_ st)) as S.
  destruct (take_while p (rest st) (line_ st)) as [t st']. destruct S as (E & L & F & R).
  apply H; [by split|done|done].
Qed.

Lemma skip_block_spec s l : eats (mkLex s l) (skip_block s l).
Proof.
  revert l. induction s as [|c s IH]; intros l; simpl; [apply eats_refl|].
  destruct (_ && _); [apply eats_refl|]. eapply eats_trans; [|apply IH].
  exists (str1 c). split; [done|]. simpl. by rewrite bump_nl.
Qed.

Lemma skip_block_stop s l :
  rest (skip_block s l) = ""%string \/ exists r, rest (skip_block s l) = String "*" (String "/" r).
Proof.
  revert l. induction s as [|c s IH]; intros l; simpl; [by left|].
  destruct (Ascii.eqb_spec c "*") as [->|]; simpl; [|apply IH].
  destruct (Ascii.eqb_spec (char_at s 0) "/") as [E|]; simpl; [|apply IH].
  apply char_at_0 in E as [s' ->]; [|done]. right. eauto.
Qed.

Lemma string_body_spec s l :
  let '(t, st) := string_body s l in
  eats (mkLex s l) st /\ (rest st = ""%string \/ exists r, rest st = String DQUOTE r).
Proof.
  assert (forall n s l, (String.length s <= n)%nat ->
    let '(t, st) := string_body s l in
    eats (mkLex s l) st /\ (rest st = ""%string \/ exists r, rest st = String DQUOTE r)) as H.
  { clear s l. induction n as [|n IH]; intros s l Hn.
    { destruct s; simpl in *; [|lia]. split; [apply eats_refl|by left]. }
    destruct s as [|c s]; simpl; [split; [apply eats_refl|by left]|]. simpl in Hn.
    destruct (Ascii.eqb_spec c DQUOTE) as [->|]; [split; [apply eats_refl|right; eauto]|].
    assert (eats (mkLex (String c s) l) (mkLex s (bump c l))) as E1.
    { exists (str1 c). split; [done|]. simpl. by rewrite bump_nl. }
    destruct s as [|e s]; [split; [done|by left]|].
    assert (eats (mkLex (String e s) (bump c l)) (mkLex s (bump e (bump c l)))) as E2.
    { exists (str1 e). split; [done|]. simpl. by rewrite bump_nl. }
    destruct (Ascii.eqb c BSLASH).
    - specialize (IH s (bump e (bump c l)) ltac:(simpl in *; lia)).
      destruct (string_body s _) as [t st]. destruct IH. split; [|done].
      eauto using eats_trans.
    - specialize (IH (String e s) (bump c l) ltac:(simpl in *; lia)).
      destruct (string_body (String e s) _) as [t st]. destruct IH. split; [|done].
      eauto using eats_trans. }
  by apply (H (String.length s)).
Qed.

Lemma sprefix_app p s : sprefix p s = true -> s = p +:+ sdrop (String.length p) s.
Proof.
  revert s. induction p as [|c p IH]; intros [|d s]; simpl; try done.
  rewrite andb_true_iff. intros [->%Ascii.eqb_eq H]. rewrite sapp_cons. f_equal. by apply IH.
Qed.

Lemma heredoc_body_spec terminator b s l t st :
  nl terminator = 0 -> heredoc_body terminator b s l = Some (t, st) -> eats (mkLex s l) st.
Proof.
  intros Hn. revert b l t st. induction s as [|c s IH]; intros b l t st; simpl.
  - destruct (b && _) eqn:E; [|done]. intros [= <- <-]. apply andb_true_iff in E as [_ E].
    destruct terminator; [|done]. apply eats_refl.
  - destruct (b && _) eqn:E.
    + intros [= <- <-]. apply andb_true_iff in E as [_ E]. exists terminator.
      split; [by apply sprefix_app|simpl; lia].
    + destruct (heredoc_body terminator _ s (bump c l)) as [[t' st']|] eqn:Eh; [|done].
      intros [= <- <-]. eapply eats_trans; [|by eapply IH].
      exists (str1 c). split; [done|]. simpl. by rewrite bump_nl.
Qed.

Lemma nl_not_newline t : sforall not_newline t = true -> nl t = 0.
Proof.
  induction t as [|c t IH]; simpl; [done|]. rewrite andb_true_iff. unfold not_newline.
  intros [Hc Ht]. rewrite IH by done. by destruct (Ascii.eqb c NL).
Qed.

(** ** Tokens *)

(** A scanner that returns a proper token of the line it started on, having
    consumed something. *)
Definition tokenOf (st : LexState) (t : Token) (st' : LexState) : Prop :=
  eats1 st st' /\ tline t = line_ st /\ ttype t <> TEnd.

Lemma wp_ret {A} (a : A) (Q : A -> LexState -> Prop) st : Q a st -> wp (mret a) Q st.
Proof. done. Qed.
Lemma wp_throw {A} e (Q : A -> LexState -> Prop) st : wp (mthrow e) Q st.
Proof. done. Qed.
Lemma wp_gets {A} (f : LexState -> A) (Q : A -> LexState -> Prop) st : Q (f st) st -> wp (mgets f) Q st.
Proof. done. Qed.

Ltac wp_step :=
  match goal with
  | |- wp (mbind _ _) _ _ => apply wp_bind
  | |- wp (mret _) _ _ => apply wp_ret
  | |- wp (mthrow _) _ _ => apply wp_throw
  | |- wp getLine _ _ => apply wp_gets
  | |- wp atEnd _ _ => apply wp_gets
  | |- wp peek _ _ => apply wp_gets
  | |- wp peekNext _ _ => apply wp_gets
  end.

Lemma wp_ident d st c s :
  rest st = String c s -> is_ident_start c = true -> wp (lexIdentOrKeyword d) (tokenOf st) st.
Proof.
  intros E Hc. unfold lexIdentOrKeyword. repeat wp_step. apply wp_takeWhile.
  intros t st' [R L] F N. repeat wp_step. split_and!; [|done|by destruct (_ || _)].
  exists t. split; [by split|]. intros ->. rewrite sapp_nil_l, E in R.
  specialize (N c s (eq_sym R)). unfold is_ident_char, is_ident_start, isalnum in *.
  apply orb_false_iff in N as [N1 N2]. apply orb_false_iff in N1 as [N1 _]. by rewrite N1, N2 in Hc.
Qed.

Lemma wp_number st c s :
  rest st = String c s -> isdigit c = true \/ c = "."%char /\ isdigit (char_at s 0) = true ->
  wp lexNumber (tokenOf st) st.
Proof.
  intros E Hc. unfold lexNumber. repeat wp_step. apply wp_takeWhile.
  intros t st1 [R L] F N. assert (eats st st1) as E1 by (exists t; by split).
  assert (t = ""%string -> rest st1 = String c s /\ isdigit c = false) as Hempty.
  { intros ->. rewrite sapp_nil_l, E in R. split; [done|]. by apply (N c s). }
  assert (t <> ""%string -> eats1 st st1) as Hne by (intros Nt; exists t; by repeat split).
  repeat wp_step.
  destruct (String.eqb_spec t "0"); simpl; [destruct (_ || _) eqn:Ex; simpl|].
  1: destruct (isxdigit _); simpl.
  1: { assert (exists s', rest st1 = String (char_at (rest st1) 0) s') as [s' Es'].
       { destruct (rest st1); [by vm_compute in Ex|]. eexists. reflexivity. }
       wp_step. eapply wp_advance; [exact Es'|]. intros st2 E2 _. wp_step.
       apply wp_takeWhile. intros ds st3 E3 _ _. repeat wp_step.
       split_and!; [|done|done]. eapply eats1_l; [by apply Hne; subst|].
       eapply eats_trans; [by apply eats1_eats|by exists ds]. }
  all: destruct (Ascii.eqb_spec (char_at (rest st1) 0) ".") as [Ed|Nd]; simpl;
    [destruct (isdigit (char_at (rest st1) 1)) eqn:Edig; simpl|].
  all: try (apply char_at_0 in Ed as [s' Es']; [|done]).
  all: try (wp_step; eapply wp_advance; [exact Es'|]; intros st2 E2 _; wp_step;
            apply wp_takeWhile; intros ds st3 E3 _ _; repeat wp_step;
            split_and!; [|done|done]; eapply eats1_r; [exact E1|];
            eapply eats1_l; [exact E2|by exists ds]).
  all: repeat wp_step; split_and!; [|done|done]; apply Hne; intros Et;
    destruct (Hempty Et) as [Er Hd]; destruct Hc as [Hc|[-> Hc]]; try congruence.
  all: try (subst; discriminate).
  all: rewrite Er in *; try done.
  injection Es' as Es'. subst. unfold char_at in *. simpl in *. congruence.
Qed.

Lemma wp_lambdaParam st c s : rest st = String c s -> wp lexLambdaParam (tokenOf st) st.
Proof.
  intros E. unfold lexLambdaParam. repeat wp_step. eapply wp_advance; [exact E|]. intros st1 E1 _.
  repeat wp_step. destruct (negb _); [by repeat wp_step|]. wp_step. apply wp_takeWhile.
  intros ds st2 E2 _ _. repeat wp_step. split_and!; [|done|done].
  eapply eats1_l; [exact E1|by exists ds].
Qed.

Lemma not_empty s : String.eqb s "" = false -> exists c r, s = String c r.
Proof. destruct s; [done|eauto]. Qed.

Lemma wp_string st c s : rest st = String c s -> wp lexString (tokenOf st) st.
Proof.
  intros E. unfold lexString. repeat wp_step. eapply wp_advance; [exact E|]. intros st1 E1 _.
  wp_step. unfold wp at 1. pose proof (string_body_spec (rest st1) (line_ st1)) as S.
  destruct (string_body (rest st1) (line_ st1)) as [t st2]. destruct S as [E2 _].
  repeat wp_step. destruct (String.eqb (rest st2) "") eqn:Ee; [apply wp_throw|].
  apply not_empty in Ee as (c2 & s2 & Es2). wp_step. eapply wp_advance; [exact Es2|].
  intros st3 E3 _. repeat wp_step. split_and!; [|done|done].
  eapply eats1_l; [exact E1|]. eapply eats_trans; [|by apply eats1_eats]. by destruct st1.
Qed.

Lemma wp_char st c s : rest st = String c s -> wp lexChar (tokenOf st) st.
Proof.
  intros E. unfold lexChar. repeat wp_step. eapply wp_advance; [exact E|]. intros st1 E1 _.
  repeat wp_step. destruct (String.eqb (rest st1) "") eqn:Ee; [apply wp_throw|].
  apply not_empty in Ee as (c1 & s1 & Es1). wp_step. eapply wp_advance; [exact Es1|].
  intros st2 E2 _. repeat wp_step.
  assert (forall n st3, eats st2 st3 ->
    wp (e <- atEnd ;; q <- peek ;;
        if (e : bool) || negb (Ascii.eqb q SQUOTE) then
          mthrow (LpcRuntimeError ("character literal must contain exactly one character, at line "
            +:+ to_string (line_ st)))
        else advance ;; mret (mkToken TNumber (to_string n) (line_ st))) (tokenOf st) st3) as Hend.
  { intros n st3 E3. repeat wp_step. destruct (String.eqb (rest st3) "") eqn:E3e; simpl; [apply wp_throw|].
    apply not_empty in E3e as (c3 & s3 & Es3). destruct (negb _); [apply wp_throw|].
    wp_step. eapply wp_advance; [exact Es3|]. intros st4 E4 _. repeat wp_step.
    split_and!; [|done|done]. eapply eats1_l; [exact E1|]. eauto using eats_trans, eats1_eats. }
  destruct (Ascii.eqb c1 BSLASH && _) eqn:Eb.
  - apply andb_true_iff in Eb as [_ Eb]. apply negb_true_iff, not_empty in Eb as (e & r & Er).
    wp_step. eapply wp_advance; [exact Er|]. intros st3 E3 _. repeat wp_step.
    apply Hend. by apply eats1_eats.
  - wp_step. apply Hend, eats_refl.
Qed.

Lemma wp_heredoc st c s : rest st = String c s -> wp lexHeredoc (tokenOf st) st.
Proof.
  intros E. unfold lexHeredoc. repeat wp_step. eapply wp_advance; [exact E|]. intros st1 E1 _.
  repeat wp_step. destruct (Ascii.eqb _ "@"); [apply wp_throw|]. wp_step. apply wp_takeWhile.
  intros t st2 E2 F _. destruct (String.eqb t ""); [apply wp_throw|]. repeat wp_step.
  destruct (String.eqb (rest st2) "") eqn:Ee; [apply wp_throw|].
  apply not_empty in Ee as (c2 & s2 & Es2). wp_step. eapply wp_advance; [exact Es2|].
  intros st3 E3 _. unfold wp.
  destruct (heredoc_body t true (rest st3) (line_ st3)) as [[v st4]|] eqn:Eh; [|exact I].
  apply heredoc_body_spec in Eh; [|by apply nl_not_newline].
  split_and!; [|done|done]. eapply eats1_l; [exact E1|].
  eapply eats_trans; [by exists t|]. eapply eats_trans; [by apply eats1_eats|]. by destruct st3.
Qed.

(** Two-character operators: the second character was seen. *)
Lemma wp_advance_seen (d : ascii) st0 st t l :
  char_at (rest st) 0 = d -> d <> NUL -> eats1 st0 st -> l = line_ st0 ->
  wp (advance ;; mret (mkToken TSymbol t l)) (tokenOf st0) st.
Proof.
  intros Hd Hn E0 ->. apply char_at_0 in Hd as [s' Es]; [|done]. wp_step.
  eapply wp_advance; [exact Es|]. intros st' E' _. wp_step. split_and!; [|done|done].
  eapply eats1_l; [exact E0|by apply eats1_eats].
Qed.

Lemma wp_advance_maybe (d q : ascii) st0 st t t' l :
  char_at (rest st) 0 = d -> d <> NUL -> q <> NUL -> eats1 st0 st -> l = line_ st0 ->
  wp (advance ;; c <- peek ;;
      if Ascii.eqb c q then advance ;; mret (mkToken TSymbol t l) else mret (mkToken TSymbol t' l))
    (tokenOf st0) st.
Proof.
  intros Hd Hn Hq E0 ->. apply char_at_0 in Hd as [s' Es]; [|done]. wp_step.
  eapply wp_advance; [exact Es|]. intros st' E' _. repeat wp_step.
  assert (eats1 st0 st') as E1 by (eapply eats1_l; [exact E0|by apply eats1_eats]).
  destruct (Ascii.eqb_spec (char_at (rest st') 0) q) as [Eq|_].
  - by eapply wp_advance_seen.
  - wp_step. by split_and!.
Qed.

Lemma wp_symbol st c s : rest st = String c s -> wp lexSymbol (tokenOf st) st.
Proof.
  intros E. unfold lexSymbol. repeat wp_step. eapply wp_advance; [exact E|]. intros st1 E1 _.
  repeat wp_step. set (p := char_at (rest st1) 0).
  repeat match goal with
  | |- wp (if ?b then _ else _) _ _ =>
      let Eb := fresh "Eb" in
      destruct b eqn:Eb;
      [ apply andb_true_iff in Eb as [_ Eb]; apply Ascii.eqb_eq in Eb;
        first [ eapply wp_advance_seen; [exact Eb|done|exact E1|done]
              | eapply wp_advance_maybe; [exact Eb|done|done|exact E1|done] ]
      | clear Eb ]
  end.
  wp_step. by split_and!.
Qed.

Lemma span_first p c s a b : span p (String c s) = (a, b) -> p c = true -> a <> ""%string.
Proof. simpl. intros H Hp. rewrite Hp in H. destruct (span p s). by injection H as <- <-. Qed.

Lemma wp_quote st c s : rest st = String c s -> wp lexQuote (tokenOf st) st.
Proof.
  intros E. unfold lexQuote, wp. destruct (span _ _) as [ident after].
  destruct (_ && _); [|by apply (wp_char st c s)].
  fold (wp (A := Token)
    (startLine <- getLine ;; advance ;; name <- takeWhile is_ident_char ;;
     mret (mkToken TQuotedSymbol name startLine)) (tokenOf st) st).
  repeat wp_step. eapply wp_advance; [exact E|]. intros st1 E1 _. wp_step.
  apply wp_takeWhile. intros t st2 E2 _ _. wp_step. split_and!; [|done|done].
  eapply eats1_l; [exact E1|by exists t].
Qed.

Lemma wp_hashQuote st c d s : rest st = String c (String d s) -> wp lexHashQuote (tokenOf st) st.
Proof.
  intros E. unfold lexHashQuote. repeat wp_step. eapply wp_advance; [exact E|]. intros st1 E1 R1.
  wp_step. eapply wp_advance; [exact R1|]. intros st2 E2 _. wp_step. split_and!; [|done|done].
  eapply eats1_l; [exact E1|by apply eats1_eats].
Qed.

Lemma wp_nextToken d st c s : rest st = String c s -> wp (nextToken d) (tokenOf st) st.
Proof.
  intros E. unfold nextToken. repeat wp_step. rewrite E. change (char_at (String c s) 0) with c.
  change (char_at (String c s) 1) with (char_at s 0).
  destruct (is_ident_start c) eqn:H1; [by eapply wp_ident|].
  destruct (isdigit c) eqn:H2; [eapply wp_number; eauto|].
  destruct (Ascii.eqb c "." && isdigit (char_at s 0)) eqn:H3.
  { apply andb_true_iff in H3 as [H3 H4]. apply Ascii.eqb_eq in H3. eapply wp_number; eauto. }
  destruct (Ascii.eqb c DQUOTE); [by eapply wp_string|].
  destruct (Ascii.eqb c SQUOTE); [destruct (decide _); [by eapply wp_quote|by eapply wp_char]|].
  destruct (_ && Ascii.eqb (char_at s 0) SQUOTE) eqn:H4.
  { apply andb_true_iff in H4 as [_ H4]. apply Ascii.eqb_eq, char_at_0 in H4 as [s' ->]; [|done].
    by eapply wp_hashQuote. }
  destruct (Ascii.eqb c "@"); [by eapply wp_heredoc|].
  destruct (Ascii.eqb c "$"); [by eapply wp_lambdaParam|].
  destruct (is_any symbol_chars c); [by eapply wp_symbol|].
  repeat wp_step. eapply wp_advance; [exact E|]. intros. apply wp_throw.
Qed.

Lemma wp_skip fuel st :
  (String.length (rest st) < fuel)%nat -> wp (skipWhitespaceAndComments fuel) (fun _ st' => eats st st') st.
Proof.
  revert st. induction fuel as [|f IH]; intros st Hf; [lia|]. simpl. repeat wp_step.
  destruct (String.eqb (rest st) "") eqn:Ee; [wp_step; apply eats_refl|].
  apply not_empty in Ee as (c & s & Es). repeat wp_step. rewrite Es.
  change (char_at (String c s) 0) with c. change (char_at (String c s) 1) with (char_at s 0).
  assert (forall st', eats1 st st' -> wp (skipWhitespaceAndComments f) (fun _ st'' => eats st st'') st')
    as Hgo.
  { intros st' E. eapply wp_weaken; [apply IH; apply eats1_length in E; lia|].
    intros u st'' E'. eapply eats_trans; [by apply eats1_eats|done]. }
  destruct (is_blank c).
  { wp_step. eapply wp_advance; [exact Es|]. intros st' E _. by apply Hgo. }
  destruct (Ascii.eqb c "/" && Ascii.eqb (char_at s 0) "/") eqn:Hc.
  { wp_step. apply wp_takeWhile. intros t st' E F N. apply Hgo. exists t. split; [done|].
    intros ->. destruct E as [R _]. rewrite sapp_nil_l, Es in R.
    specialize (N c s (eq_sym R)). apply andb_true_iff in Hc as [Hc _].
    apply Ascii.eqb_eq in Hc. by subst. }
  destruct (Ascii.eqb c "/" && Ascii.eqb (char_at s 0) "*") eqn:Hb.
  - apply andb_true_iff in Hb as [_ Hb]. apply Ascii.eqb_eq, char_at_0 in Hb as [s2 ->]; [|done].
    wp_step. eapply wp_advance; [exact Es|]. intros st1 E1 R1. wp_step.
    eapply wp_advance; [exact R1|]. intros st2 E2 R2. wp_step.
    unfold skipBlock, wp at 1. pose proof (skip_block_spec (rest st2) (line_ st2)) as E3.
    pose proof (skip_block_stop (rest st2) (line_ st2)) as Hs.
    set (st3 := skip_block (rest st2) (line_ st2)) in *.
    assert (eats1 st st3) as E4.
    { eapply eats1_l; [exact E1|]. eapply eats_trans; [by apply eats1_eats|]. by destruct st2. }
    repeat wp_step. destruct Hs as [Hs|[r Hs]]; rewrite Hs.
    + simpl. wp_step. by apply Hgo.
    + simpl. wp_step. eapply wp_advance; [exact Hs|]. intros st5 E5 R5. wp_step.
      eapply wp_advance; [exact R5|]. intros st6 E6 _. wp_step. apply Hgo.
      eapply eats1_l; [exact E4|]. eapply eats_trans; by apply eats1_eats.
  - wp_step. apply eats_refl.
Qed.

(** What a successful scan returns. *)
Inductive scanned : LexState -> list Token -> Prop :=
  | scanned_end st st' :
      eats st st' -> rest st' = ""%string -> scanned st [mkToken TEnd "" (line_ st')]
  | scanned_token st st1 st2 t ts :
      eats st st1 -> tokenOf st1 t st2 -> scanned st2 ts -> scanned st (t :: ts).

Lemma wp_tokenize fuel d st :
  (String.length (rest st) < fuel)%nat -> wp (tokenize_loop fuel d) (fun ts _ => scanned st ts) st.
Proof.
  revert st. induction fuel as [|f IH]; intros st Hf; [lia|]. cbn [tokenize_loop]. wp_step.
  eapply wp_weaken; [by apply wp_skip|]. intros u st1 E1. repeat wp_step.
  destruct (String.eqb (rest st1) "") eqn:Ee.
  - repeat wp_step. econstructor; [exact E1|]. by apply String.eqb_eq.
  - apply not_empty in Ee as (c & s & Es). wp_step.
    eapply wp_weaken; [by eapply wp_nextToken|]. intros t st2 T. wp_step.
    eapply wp_weaken; [apply IH|].
    + destruct T as [T _]. apply eats1_length in T. apply eats_length in E1. lia.
    + intros ts st3 Hts. wp_step. eapply scanned_token; [exact E1|exact T|exact Hts].
Qed.

Lemma scanned_lines st ts :
  scanned st ts ->
  StronglySorted Z.le (map tline ts) /\
  Forall (fun t => line_ st <= tline t <= line_ st + nl (rest st)) ts /\
  exists body, ts = body ++ [mkToken TEnd "" (line_ st + nl (rest st))] /\
    Forall (fun t => ttype t <> TEnd) body.
Proof.
  induction 1 as [st st' E R|st st1 st2 t ts E (E1 & L & Ty) S (IH1 & IH2 & IH3)].
  - pose proof (eats_total _ _ E) as T. rewrite R in T. simpl in T.
    pose proof (eats_line _ _ E). pose proof (nl_nonneg (rest st)).
    split_and!; [by repeat constructor|repeat constructor; simpl; lia|].
    exists []. split; [|done]. simpl. do 2 f_equal. lia.
  - pose proof (eats_total _ _ E). pose proof (eats_total _ _ (eats1_eats _ _ E1)).
    pose proof (eats_line _ _ E). pose proof (eats_line _ _ (eats1_eats _ _ E1)).
    pose proof (nl_nonneg (rest st1)). pose proof (nl_nonneg (rest st2)).
    split_and!.
    + simpl. constructor; [done|]. apply Forall_map. eapply List.Forall_impl; [|exact IH2].
      simpl. intros t' Ht'. lia.
    + constructor; [lia|]. eapply List.Forall_impl; [|exact IH2]. simpl. intros; lia.
    + destruct IH3 as (body & -> & F). exists (t :: body). split; [|by constructor].
      simpl. do 3 f_equal. f_equal. lia.
Qed.

(** A scan that returns gives a list that ends with the [End] token. *)
Lemma tokenize_ends d source :
  match tokenize d source with
  | Ok ts => exists body t, ts = body ++ [t] /\ ttype t = TEnd
  | Throw _ => True
  | Undefined _ | OutOfFuel => False
  end.
Proof.
  unfold tokenize. pose proof (wp_tokenize (S (String.length source)) d (mkLex source 1)) as W.
  unfold wp in W. destruct (tokenize_loop _ _ _) as [[ts|e|w|] st]; simpl in *; eauto; try (destruct W; lia).
  destruct (scanned_lines (mkLex source 1) ts) as (_ & _ & body & -> & _); [apply W; lia|].
  by eexists body, _.
Qed.

(** ** Theorems *)

(** The scanner is total: on any source and dialect it returns a token list
    or throws; it never loops, and never reads past the end of the source. *)
Theorem tokenize_total d source :
  (exists ts, tokenize d source = Ok ts) \/ (exists e, tokenize d source = Throw e).
Proof.
  unfold tokenize. pose proof (wp_tokenize (S (String.length source)) d (mkLex source 1)) as W.
  unfold wp in W. destruct (tokenize_loop _ _ _) as [[ts|e|w|] st]; simpl in *; eauto;
    destruct W; lia.
Qed.

(** Tokens carry correct lines.  A successful scan ends with the only [End]
    token, on the last line of the source; the tokens' lines never decrease and
    lie between 1 and that line. *)
Theorem tokenize_lines d source ts :
  tokenize d source = Ok ts ->
  StronglySorted Z.le (map tline ts) /\
  Forall (fun t => 1 <= tline t <= 1 + nl source) ts /\
  exists body, ts = body ++ [mkToken TEnd "" (1 + nl source)] /\
    Forall (fun t => ttype t <> TEnd) body.
Proof.
  unfold tokenize. pose proof (wp_tokenize (S (String.length source)) d (mkLex source 1)) as W.
  unfold wp in W. destruct (tokenize_loop _ _ _) as [[ts'|e|w|] st]; try done. simpl in *.
  intros [= ->]. apply (scanned_lines (mkLex source 1)). apply W. lia.
Qed.

(** ** Printing and scanning back *)

(** A source form of a string literal: quotes, backslashes and newlines are
    escaped. *)
Fixpoint escape (s : string) : string :=
  match s with
  | EmptyString => ""
  | String c s' =>
      if Ascii.eqb c DQUOTE || Ascii.eqb c BSLASH then String BSLASH (String c (escape s'))
      else if Ascii.eqb c NL then String BSLASH (String "n" (escape s'))
      else String c (escape s')
  end.

Definition operators : list string :=
  ["("; ")"; "{"; "}"; "["; "]"; ":"; ";"; ","; "-"; "="; "!"; "<"; ">"; "*"; "+"; "|"; "&"; "/";
   "%"; "."; "?"; "^"; "~"; "->"; "::"; "++"; "--"; "+="; "-="; "*="; "/="; "%="; "|="; "&="; "^=";
   "=="; "!="; "<<"; "<<="; ">>"; ">>="; "<="; ">="; "||"; "&&"; ".."; "..."].

Definition is_identifier (s : string) : bool :=
  match s with String c s' => is_ident_start c && sforall is_ident_char s' | EmptyString => false end.

Definition printToken (t : Token) : string :=
  match ttype t with
  | TString => String DQUOTE (escape (text t) +:+ str1 DQUOTE)
  | _ => text t
  end.
Fixpoint printTokens (ts : list Token) : string :=
  match ts with [] => "" | t :: ts' => printToken t +:+ String " " (printTokens ts') end.

(** Identifiers and keywords of the dialect, decimal numbers, string literals
    with any contents, and the operators. *)
Definition printable (d : LpcDialect) (t : Token) : bool :=
  (tline t =? 1) &&
  match ttype t with
  | TIdent => is_identifier (text t)
              && negb (mem_string (text t) kKeywords
                       || (bool_decide (d = DGD) && mem_string (text t) kDgdOnlyKeywords))
  | TKeyword => is_identifier (text t)
                && (mem_string (text t) kKeywords
                    || (bool_decide (d = DGD) && mem_string (text t) kDgdOnlyKeywords))
  | TNumber => negb (String.eqb (text t) "") && sforall isdigit (text t)
  | TString => true
  | TSymbol => mem_string (text t) operators
  | _ => false
  end.

Lemma take_while_all p a b l :
  sforall p a = true -> (forall c r, b = String c r -> p c = false) ->
  take_while p (a +:+ b) l = (a, mkLex b (l + nl a)).
Proof.
  revert l. induction a as [|c a IH]; intros l Ha Hb.
  - rewrite sapp_nil_l. simpl. rewrite Z.add_0_r. destruct b as [|c b]; simpl; [done|].
    by rewrite (Hb c b).
  - rewrite sapp_cons. simpl in *. apply andb_true_iff in Ha as [-> Ha]. rewrite IH by done.
    f_equal. f_equal. rewrite bump_nl. simpl. lia.
Qed.

Lemma nl_forall p a : p NL = false -> sforall p a = true -> nl a = 0.
Proof.
  intros Hp. induction a as [|c a IH]; simpl; [done|]. rewrite andb_true_iff. intros [Hc Ha].
  rewrite IH by done. destruct (Ascii.eqb_spec c NL); [congruence|done].
Qed.

Lemma string_body_escape s r l :
  string_body (escape s +:+ String DQUOTE r) l = (s, mkLex (String DQUOTE r) l).
Proof.
  induction s as [|c s IH]; [done|]. simpl escape.
  destruct (Ascii.eqb_spec c DQUOTE) as [->|N1]; 
    [cbv beta iota delta [orb]; rewrite !sapp_cons; simpl; unfold bump; simpl; by rewrite IH|].
  destruct (Ascii.eqb_spec c BSLASH) as [->|N2];
    [cbv beta iota delta [orb]; rewrite !sapp_cons; simpl; unfold bump; simpl; by rewrite IH|].
  cbv beta iota delta [orb]. destruct (Ascii.eqb_spec c NL) as [->|N3]; rewrite !sapp_cons.
  - simpl. unfold bump. simpl. by rewrite IH.
  - assert (exists e r', escape s +:+ String DQUOTE r = String e r') as (e & r' & Er).
    { destruct (escape s) as [|e r']; rewrite ?sapp_nil_l, ?sapp_cons; eauto. }
    cbn [string_body]. rewrite Er in *. destruct (Ascii.eqb_spec c DQUOTE); [done|].
    destruct (Ascii.eqb_spec c BSLASH); [done|].
    assert (bump c l = l) as -> by (unfold bump; by destruct (Ascii.eqb_spec c NL)).
    by rewrite IH.
Qed.

Section Print.
Context (d : LpcDialect) (r : string).
Let after : string := String " " r.

Lemma next_ident t :
  is_identifier t = true ->
  nextToken d (mkLex (t +:+ after) 1) =
  (Ok (mkToken (if mem_string t kKeywords || (bool_decide (d = DGD) && mem_string t kDgdOnlyKeywords)
                then TKeyword else TIdent) t 1), mkLex after 1).
Proof.
  intros Ht. destruct t as [|c t]; [done|]. unfold is_identifier in Ht.
  apply andb_true_iff in Ht as [Hc Ht].
  assert (sforall is_ident_char (String c t) = true) as Hall.
  { simpl. rewrite Ht, andb_true_r. unfold is_ident_start, is_ident_char, isalnum in *.
    apply orb_true_iff in Hc as [-> | ->]; [done|]. by rewrite orb_true_r. }
  unfold nextToken, peek, peekNext, mbind, mgets. cbn [rest]. rewrite sapp_cons.
  change (char_at (String c (t +:+ after)) 0) with c. rewrite Hc.
  unfold lexIdentOrKeyword, getLine, takeWhile, mbind, mgets. cbn [rest line_].
  rewrite <- sapp_cons, (take_while_all is_ident_char (String c t) after 1) by
    (done || by intros ? ? [= <- <-]).
  rewrite (nl_forall is_ident_char (String c t)) by done. done.
Qed.

Lemma next_number t :
  t <> ""%string -> sforall isdigit t = true ->
  nextToken d (mkLex (t +:+ after) 1) = (Ok (mkToken TNumber t 1), mkLex after 1).
Proof.
  intros Hn Ht. destruct t as [|c t]; [done|].
  assert (isdigit c = true) as Hc by (simpl in Ht; by apply andb_true_iff in Ht as [? _]).
  unfold nextToken, peek, peekNext, mbind, mgets. cbn [rest]. rewrite sapp_cons.
  change (char_at (String c (t +:+ after)) 0) with c. rewrite Hc.
  assert (is_ident_start c = false) as ->.
  { unfold is_ident_start, isalpha, isupper, islower, isdigit in *.
    destruct (Ascii.eqb_spec c "_") as [->|]; [by vm_compute in Hc|]. lia. }
  unfold lexNumber, getLine, takeWhile, peek, peekNext, mbind, mgets. cbn [rest line_].
  rewrite <- sapp_cons, (take_while_all isdigit (String c t) after 1) by
    (done || by intros ? ? [= <- <-]).
  rewrite (nl_forall isdigit (String c t)) by done. cbn [rest line_].
  change (char_at after 0) with " "%char. by rewrite andb_false_r.
Qed.

Lemma next_string t :
  nextToken d (mkLex (String DQUOTE (escape t +:+ str1 DQUOTE) +:+ after) 1)
  = (Ok (mkToken TString t 1), mkLex after 1).
Proof.
  rewrite sapp_cons, sapp_assoc. change (str1 DQUOTE +:+ after) with (String DQUOTE after).
  set (s := escape t +:+ String DQUOTE after).
  assert (nextToken d (mkLex (String DQUOTE s) 1) = lexString (mkLex (String DQUOTE s) 1)) as ->.
  { unfold nextToken, peek, peekNext, mbind, mgets. cbn [rest].
    change (char_at (String DQUOTE s) 0) with DQUOTE. reflexivity. }
  unfold lexString, getLine, advance, atEnd, mbind, mgets, mret. cbn [rest line_].
  change (bump DQUOTE 1) with 1. cbn [rest line_]. subst s. by rewrite string_body_escape.
Qed.

Lemma next_operator t :
  mem_string t operators = true ->
  nextToken d (mkLex (t +:+ after) 1) = (Ok (mkToken TSymbol t 1), mkLex after 1).
Proof.
  unfold mem_string, operators. cbn [existsb]. intros H.
  repeat (apply orb_true_iff in H as [H|H]; [apply String.eqb_eq in H; subst t|]); [..|done].
  all: destruct d; reflexivity.
Qed.
End Print.

(** A text the whitespace skipper leaves alone. *)
Definition starts_token (s : string) : bool :=
  match s with
  | EmptyString => false
  | String c s' => negb (is_blank c)
      && negb (Ascii.eqb c "/" && (Ascii.eqb (char_at s' 0) "/" || Ascii.eqb (char_at s' 0) "*"))
  end.

Lemma skip_token f s l :
  starts_token s = true -> skipWhitespaceAndComments (S f) (mkLex s l) = (Ok tt, mkLex s l).
Proof.
  destruct s as [|c s]; [done|]. cbn [starts_token]. rewrite andb_true_iff, !negb_true_iff.
  intros [Hb Hc].
  cbn [skipWhitespaceAndComments]. erewrite mbind_run by reflexivity. cbn [rest].
  change (String.eqb (String c s) "") with false. cbv iota.
  erewrite mbind_run by reflexivity. erewrite mbind_run by reflexivity. cbn [rest].
  change (char_at (String c s) 0) with c. change (char_at (String c s) 1) with (char_at s 0).
  rewrite Hb. cbv iota. destruct (Ascii.eqb c "/"); cbv beta iota delta [andb] in *; [|done].
  apply orb_false_iff in Hc as [-> ->]. done.
Qed.

Lemma skip_end f l : skipWhitespaceAndComments (S f) (mkLex "" l) = (Ok tt, mkLex "" l).
Proof. reflexivity. Qed.

Lemma skip_space f s l :
  skipWhitespaceAndComments (S f) (mkLex (String " " s) l) = skipWhitespaceAndComments f (mkLex s l).
Proof. reflexivity. Qed.

Lemma ident_start_token c : is_ident_start c = true -> is_blank c = false /\ Ascii.eqb c "/" = false.
Proof.
  intros H. unfold is_blank. split.
  - rewrite !orb_false_iff. split_and!; apply Ascii.eqb_neq; intros ->; by vm_compute in H.
  - apply Ascii.eqb_neq. intros ->. by vm_compute in H.
Qed.
Lemma digit_token c : isdigit c = true -> is_blank c = false /\ Ascii.eqb c "/" = false.
Proof.
  intros H. unfold is_blank. split.
  - rewrite !orb_false_iff. split_and!; apply Ascii.eqb_neq; intros ->; by vm_compute in H.
  - apply Ascii.eqb_neq. intros ->. by vm_compute in H.
Qed.

(** One printed token is scanned back as that token. *)
Lemma next_printed d t r :
  printable d t = true ->
  starts_token (printToken t +:+ String " " r) = true /\
  nextToken d (mkLex (printToken t +:+ String " " r) 1) = (Ok t, mkLex (String " " r) 1).
Proof.
  destruct t as [ty tx ln]. unfold printable, printToken. cbn [tline ttype text].
  rewrite andb_true_iff. intros [->%Z.eqb_eq H]. destruct ty; try done.
  - apply andb_true_iff in H as [Hi Hk]. apply negb_true_iff in Hk. split.
    + destruct tx as [|c tx]; [done|]. rewrite sapp_cons. simpl in Hi. apply andb_true_iff in Hi as [Hc _].
      destruct (ident_start_token c Hc) as [B1 B2]. cbn [starts_token]. by rewrite B1, B2.
    + rewrite next_ident by done. by rewrite Hk.
  - apply andb_true_iff in H as [Hn Hd]. apply negb_true_iff, String.eqb_neq in Hn. split.
    + destruct tx as [|c tx]; [done|]. rewrite sapp_cons. simpl in Hd. apply andb_true_iff in Hd as [Hc _].
      destruct (digit_token c Hc) as [B1 B2]. cbn [starts_token]. by rewrite B1, B2.
    + by apply next_number.
  - split; [by rewrite sapp_cons|]. by apply next_string.
  - split; [|by apply next_operator].
    unfold mem_string, operators in H. cbn [existsb] in H.
    repeat (apply orb_true_iff in H as [H|H]; [apply String.eqb_eq in H; subst tx; reflexivity|]). done.
  - apply andb_true_iff in H as [Hi Hk]. split.
    + destruct tx as [|c tx]; [done|]. rewrite sapp_cons. simpl in Hi. apply andb_true_iff in Hi as [Hc _].
      destruct (ident_start_token c Hc) as [B1 B2]. cbn [starts_token]. by rewrite B1, B2.
    + rewrite next_ident by done. by rewrite Hk.
Qed.

Lemma loop_print d ts : forall fuel (blank : bool),
  Forall (fun t => printable d t = true) ts ->
  let s := if blank then String " " (printTokens ts) else printTokens ts in
  (String.length s < fuel)%nat ->
  tokenize_loop fuel d (mkLex s 1) = (Ok (ts ++ [mkToken TEnd "" 1]), mkLex "" 1).
Proof.
  induction ts as [|t ts IH]; intros fuel blank F s Hf; (destruct fuel as [|f]; [lia|]); cbn [tokenize_loop].
  - assert (skipWhitespaceAndComments (S f) (mkLex s 1) = (Ok tt, mkLex "" 1)) as Hs.
    { subst s. destruct blank; [|done]. destruct f; [simpl in Hf; lia|]. done. }
    rewrite (mbind_run _ _ _ _ _ Hs). done.
  - inversion F as [|? ? Ht F']; subst. destruct (next_printed d t (printTokens ts) Ht) as [Hst Hn].
    assert (skipWhitespaceAndComments (S f) (mkLex s 1)
            = (Ok tt, mkLex (printToken t +:+ String " " (printTokens ts)) 1)) as Hs.
    { subst s. cbn [printTokens] in *. destruct blank; [|by apply skip_token].
      rewrite skip_space. destruct f; [simpl in Hf; lia|]. by apply skip_token. }
    rewrite (mbind_run _ _ _ _ _ Hs). erewrite mbind_run by reflexivity. cbn [rest].
    assert (String.eqb (printToken t +:+ String " " (printTokens ts)) "" = false) as ->.
    { by destruct (printToken t +:+ _). }
    rewrite (mbind_run _ _ _ _ _ Hn).
    rewrite (mbind_run _ _ _ _ _ (IH f true F' ltac:(
      subst s; cbn [printTokens] in Hf; destruct blank; simpl in Hf;
      rewrite ?slength_app in Hf; simpl in *;
      destruct (printToken t) as [|c x]; simpl in *; try discriminate Hst; lia))).
    done.
Qed.

(** C23: printing a list of tokens, one blank apart, and scanning the text gives
    the same tokens back (then [End]), in every dialect: identifiers, keywords,
    decimal numbers, all the operators, and string literals with arbitrary
    contents through their escapes. *)
Theorem tokenize_print d ts :
  Forall (fun t => printable d t = true) ts ->
  tokenize d (printTokens ts) = Ok (ts ++ [mkToken TEnd "" 1]).
Proof. intros F. unfold tokenize. rewrite (loop_print d ts _ false); [done|done|lia]. Qed.

(** ** Witnesses *)
Lemma tokenize_lines_witness :
  exists body, [mkToken TIdent "x" 1; mkToken TSymbol "+=" 2; mkToken TNumber "10" 2; mkToken TEnd "" 2]
    = body ++ [mkToken TEnd "" (1 + nl ("x" +:+ String NL " += 10"))] /\
    Forall (fun t => ttype t <> TEnd) body.
Proof.
  apply (tokenize_lines FluffOS ("x" +:+ String NL " += 10")).
  vm_compute. reflexivity.
Defined.

Definition sampleTokens : list Token :=
  [mkToken TKeyword "return" 1; mkToken TIdent "query_name" 1; mkToken TSymbol "(" 1;
   mkToken TString ("say " +:+ str1 DQUOTE +:+ "hi" +:+ str1 DQUOTE +:+ str1 NL) 1;
   mkToken TSymbol "," 1; mkToken TNumber "042" 1; mkToken TSymbol ")" 1; mkToken TSymbol ";" 1].

Lemma tokenize_print_witness :
  tokenize LdMud (printTokens sampleTokens) = Ok (sampleTokens ++ [mkToken TEnd "" 1]).
Proof. apply tokenize_print. repeat constructor. Defined.
