(* ===== verification/Config.v ===== *)
(** * Config: src/config/Config.cpp

    The configuration file: one [key : value] per line, [#] comments.  A line
    that is not of this form is ignored, a key the driver does not know is only
    kept in [raw]; a number is read by [std::stoi], whose exceptions
    [loadFromFile] does not catch. *)
From S2P Require Import Prelude CLib Value.
Local Open Scope string_scope.

Record Config := mkConfig {
  mudlibRoot : string;
  masterFile : string;
  port : Z;
  heartbeatIntervalMs : Z;
  cfg_maxEvalCost : Z;
  maxStringLength : Z;
  includeDir : string;
  simulEfunFile : string;
  mudName : string;
  globalIncludeFile : string;
  cfg_dialect : string;
  autoTrustBackboneKey : bool;
  raw : gmap string string
}.
#[export] Instance eta_Config : Eta Config := fun c =>
  {| mudlibRoot := mudlibRoot c; masterFile := masterFile c; port := port c;
     heartbeatIntervalMs := heartbeatIntervalMs c; cfg_maxEvalCost := cfg_maxEvalCost c;
     maxStringLength := maxStringLength c; includeDir := includeDir c;
     simulEfunFile := simulEfunFile c; mudName := mudName c;
     globalIncludeFile := globalIncludeFile c; cfg_dialect := cfg_dialect c;
     autoTrustBackboneKey := autoTrustBackboneKey c; raw := raw c |}.

(** The member initialisers. *)
Definition defaultConfig : Config :=
  {| mudlibRoot := "./test/mudlib_stub"; masterFile := "/master"; port := 1129;
     heartbeatIntervalMs := 2000; cfg_maxEvalCost := 10000000; maxStringLength := 200000;
     includeDir := "secure/include"; simulEfunFile := ""; mudName := "AMLP";
     globalIncludeFile := ""; cfg_dialect := "fluffos"; autoTrustBackboneKey := false; raw := ∅ |}.

(** The default configuration with another dialect and cost limit. *)
Definition configFor (dialect : string) (limit : Z) : Config :=
  defaultConfig <| cfg_dialect := dialect |> <| cfg_maxEvalCost := limit |>.

Definition is_trimmed (c : ascii) : bool :=
  Ascii.eqb c " " || Ascii.eqb c TAB || Ascii.eqb c CR || Ascii.eqb c NL.

Definition trim (s : string) : string :=
  match find_first (fun c => negb (is_trimmed c)) 0 s, find_last_of (fun c => negb (is_trimmed c)) s with
  | Some a, Some b => stake (b - a + 1) (sdrop a s)
  | _, _ => ""
  end.

Definition stoiOr (s : string) : M Config exn Z :=
  match stoi s with
  | inl z => mret z
  | inr _ => mthrow (StdException "stoi")
  end.

Definition setKey (key val : string) : M Config exn unit :=
  if String.eqb key "mudlib_root" then mmodify (fun c => c <| mudlibRoot := val |>)
  else if String.eqb key "master_file" then mmodify (fun c => c <| masterFile := val |>)
  else if String.eqb key "port" then n <- stoiOr val ;; mmodify (fun c => c <| port := n |>)
  else if String.eqb key "heartbeat_interval_ms" then
    n <- stoiOr val ;; mmodify (fun c => c <| heartbeatIntervalMs := n |>)
  else if String.eqb key "max_eval_cost" then
    n <- stoiOr val ;; mmodify (fun c => c <| cfg_maxEvalCost := n |>)
  else if String.eqb key "max_string_length" then
    n <- stoiOr val ;; mmodify (fun c => c <| maxStringLength := n |>)
  else if String.eqb key "include_dir" then mmodify (fun c => c <| includeDir := val |>)
  else if String.eqb key "simul_efun_file" then mmodify (fun c => c <| simulEfunFile := val |>)
  else if String.eqb key "mud_name" then mmodify (fun c => c <| mudName := val |>)
  else if String.eqb key "global_include_file" then mmodify (fun c => c <| globalIncludeFile := val |>)
  else if String.eqb key "dialect" then mmodify (fun c => c <| cfg_dialect := val |>)
  else if String.eqb key "auto_trust_backbone" then
    mmodify (fun c => c <| autoTrustBackboneKey :=
      String.eqb val "1" || String.eqb val "true" || String.eqb val "yes" || String.eqb val "on" |>)
  else mret tt.

(** One round of the loop. *)
Definition loadLine (line : string) : M Config exn unit :=
  if String.eqb line "" || Ascii.eqb (char_at line 0) "#" then mret tt else
  match find_first (Ascii.eqb ":") 0 line with
  | None => mret tt
  | Some pos =>
      let key := trim (stake pos line) in
      let val := trim (sdrop (pos + 1) line) in
      if String.eqb key "" then mret tt else
      mmodify (fun c => c <| raw ::= insert key val |>) ;;
      setKey key val
  end.

Fixpoint loadLines (lines : list string) : M Config exn unit :=
  match lines with
  | [] => mret tt
  | line :: rest => loadLine line ;; loadLines rest
  end.

(** [file] is the content of the file, [None] when it cannot be opened. *)
Definition loadFromFile (file : option string) : M Config exn bool :=
  match file with
  | None => mret false
  | Some t => loadLines (getlines t) ;; mret true
  end.
