(* ===== verification/Network.v ===== *)
(** * Network: the data of the net component

    [Connection] (include/amlp/net/Connection.hpp), [LpcSocket] and its error
    codes (include/amlp/net/LpcSocket.hpp), the entries of the registries, and
    the network state of the driver.

    The kernel is the environment: [kernelReads] and [kernelWrites] hold, per
    descriptor of a connection, what the next calls of read() and write() give;
    a descriptor without an entry has nothing to read and accepts everything.
    [syscalls] holds what the other calls give, in the order they are made (an
    unspecified error once it is empty).  [wire] is what connections wrote,
    oldest first, and [closeLog] the descriptors passed to close().

    A socket that leaves the registry keeps its fields: whoever holds a
    [shared_ptr] to it still sees them.  [registered] lists the handles of
    [g_sockets]. *)
From S2P Require Import Prelude CLib Value.
Local Open Scope Z_scope.

(** Connections are shared objects; [cid] names one. *)
Abbreviation cid := positive (only parsing).

Inductive TelnetState :=
  | TsData | TsIac | TsWill | TsWont | TsDo | TsDont | TsSb | TsSbIac.
#[export] Instance TelnetState_eq_dec : EqDecision TelnetState.
Proof. solve_decision. Defined.

Record PendingInputTo := mkPendingInputTo {
  pi_object : option oid;
  pi_function : Value;
  pi_extraArgs : list Value
}.

Record Connection := mkConnection {
  fd : Z;
  inputBuffer : string;
  boundObject : option oid;
  closed : bool;
  pendingInputTo : option PendingInputTo;
  pendingNotifyFail : option Value;
  lastActivityTime : Z;
  telnetState : TelnetState;
  sbBuffer : string;
  echoSuppressed : bool;
  terminalWidth : Z;
  terminalHeight : Z;
  windowSizeUpdated : bool;
  terminalType : string;
  terminalTypeUpdated : bool
}.
#[export] Instance eta_Connection : Eta Connection := fun c =>
  {| fd := fd c; inputBuffer := inputBuffer c; boundObject := boundObject c; closed := closed c;
     pendingInputTo := pendingInputTo c; pendingNotifyFail := pendingNotifyFail c;
     lastActivityTime := lastActivityTime c; telnetState := telnetState c; sbBuffer := sbBuffer c;
     echoSuppressed := echoSuppressed c; terminalWidth := terminalWidth c;
     terminalHeight := terminalHeight c; windowSizeUpdated := windowSizeUpdated c;
     terminalType := terminalType c; terminalTypeUpdated := terminalTypeUpdated c |}.

(** The constructor; [now] is [std::time(nullptr)]. *)
Definition newConnection (f : Z) (now : Z) : Connection :=
  {| fd := f; inputBuffer := ""; boundObject := None; closed := false; pendingInputTo := None;
     pendingNotifyFail := None; lastActivityTime := now; telnetState := TsData; sbBuffer := "";
     echoSuppressed := false; terminalWidth := 0; terminalHeight := 0; windowSizeUpdated := false;
     terminalType := ""; terminalTypeUpdated := false |}.

(** ** Efun sockets *)
Inductive SocketMode := Stream | Datagram.
Inductive SocketState := Unbound | Bound | Listen | DataXfer | ClosedState.
#[export] Instance SocketMode_eq_dec : EqDecision SocketMode.
Proof. solve_decision. Defined.
#[export] Instance SocketState_eq_dec : EqDecision SocketState.
Proof. solve_decision. Defined.

Module SocketErr.
Definition Success : Z := 1.
Definition ESocket : Z := -1.
Definition ESetSockOpt : Z := -2.
Definition ENonBlock : Z := -3.
Definition ENoSocks : Z := -4.
Definition EFdRange : Z := -5.
Definition EBadF : Z := -6.
Definition ESecurity : Z := -7.
Definition EIsBound : Z := -8.
Definition EAddrInUse : Z := -9.
Definition EBind : Z := -10.
Definition EGetSockName : Z := -11.
Definition EModeNotSupp : Z := -12.
Definition ENoAddr : Z := -13.
Definition EIsConn : Z := -14.
Definition EListen : Z := -15.
Definition ENotListn : Z := -16.
Definition EWouldBlock : Z := -17.
Definition EIntr : Z := -18.
Definition EAccept : Z := -19.
Definition EIsListen : Z := -20.
Definition EBadAddr : Z := -21.
Definition EAlready : Z := -22.
Definition EConnRefused : Z := -23.
Definition EConnect : Z := -24.
Definition ENotConn : Z := -25.
Definition ETypeNotSupp : Z := -26.
Definition ESendTo : Z := -27.
Definition ESend : Z := -28.
Definition ECallback : Z := -29.
Definition ESockRlsd : Z := -30.
Definition ESockNotRlsd : Z := -31.
Definition EBadData : Z := -32.
End SocketErr.

Record LpcSocket := mkSocket {
  so_handle : Z;
  so_fd : Z;
  so_mode : SocketMode;
  so_state : SocketState;
  so_owner : option oid;
  readCallback : Value;
  writeCallback : Value;
  closeCallback : Value;
  released : bool;
  releaseTarget : option oid;
  blocked : bool;
  pendingWrite : string;
  acceptPending : bool;
  remoteAddr : string;
  remotePort : Z;
  localAddr : string;
  localPort : Z
}.
#[export] Instance eta_LpcSocket : Eta LpcSocket := fun s =>
  {| so_handle := so_handle s; so_fd := so_fd s; so_mode := so_mode s; so_state := so_state s;
     so_owner := so_owner s; readCallback := readCallback s; writeCallback := writeCallback s;
     closeCallback := closeCallback s; released := released s; releaseTarget := releaseTarget s;
     blocked := blocked s; pendingWrite := pendingWrite s; acceptPending := acceptPending s;
     remoteAddr := remoteAddr s; remotePort := remotePort s; localAddr := localAddr s;
     localPort := localPort s |}.

Definition newSocket (handle f : Z) (mode : SocketMode) (owner : option oid) : LpcSocket :=
  {| so_handle := handle; so_fd := f; so_mode := mode; so_state := Unbound; so_owner := owner;
     readCallback := Void; writeCallback := Void; closeCallback := Void; released := false;
     releaseTarget := None; blocked := false; pendingWrite := ""; acceptPending := false;
     remoteAddr := ""; remotePort := 0; localAddr := ""; localPort := 0 |}.

(** ** The kernel *)
Inductive errno := EAGAIN | EINTR | EADDRINUSE | EALREADY | ECONNREFUSED | EINPROGRESS | EOTHER.
#[export] Instance errno_eq_dec : EqDecision errno.
Proof. solve_decision. Defined.

(** read(): bytes ([""] is end of file), or an error. *)
Inductive ReadResult := RBytes (s : string) | RError (e : errno).
(** write(): how many bytes were taken, or an error. *)
Inductive WriteResult := Wrote (n : nat) | WError (e : errno).
(** The other calls: a number (a descriptor, a count, the ready events), bytes
    received, or a peer's address with a number. *)
Inductive SysResult :=
  | SysOk (n : Z) | SysErr (e : errno) | SysBytes (s : string) | SysPeer (n : Z) (addr : string) (port : Z).

Record NetState := mkNet {
  conns : gmap positive Connection;
  connections : list positive;
  interactives : list (oid * positive);
  outputContext : option positive;
  sockets : gmap Z LpcSocket;
  registered : list Z;
  g_nextHandle : Z;
  listenFd : Z;
  kernelReads : gmap Z (list ReadResult);
  kernelWrites : gmap Z (list WriteResult);
  syscalls : list SysResult;
  wire : list (Z * string);
  closeLog : list Z
}.
#[export] Instance eta_NetState : Eta NetState := fun n =>
  {| conns := conns n; connections := connections n; interactives := interactives n;
     outputContext := outputContext n; sockets := sockets n; registered := registered n;
     g_nextHandle := g_nextHandle n; listenFd := listenFd n; kernelReads := kernelReads n;
     kernelWrites := kernelWrites n; syscalls := syscalls n; wire := wire n;
     closeLog := closeLog n |}.

Definition emptyNet : NetState :=
  {| conns := ∅; connections := []; interactives := []; outputContext := None; sockets := ∅;
     registered := []; g_nextHandle := 0; listenFd := -1; kernelReads := ∅; kernelWrites := ∅;
     syscalls := []; wire := []; closeLog := [] |}.
