(* ===== verification/Machine.v ===== *)
(** * Machine: LPC objects and the state of the VM

    [LpcObject] (include/amlp/object/LpcObject.hpp), the members of [VM]
    (include/amlp/vm/VM.hpp) and the frame of one [VM::run] call.

    Objects live in [objects]; an [oid] absent from it is an object whose last
    [shared_ptr] is gone, so [weak_ptr::lock] is a lookup.  Stacks grow at the
    head of their list.  The clock is read through [ticks], one value per read
    of [steady_clock::now()], in nanoseconds. *)
From S2P Require Import Prelude CLib Double Value Bytecode Lookup Network.
From S2P Require Export Config.
Local Open Scope Z_scope.

Record ActionEntry := mkAction {
  averb : string;
  afunction : string;
  aowner : option oid;
  aflag : Z
}.

Record LpcObject := mkObject {
  filename : string;
  program : pid;
  replacedProgramName : option string;
  variables : list Value;
  heartbeatInterval : Z;
  environment : option oid;
  inventory : list oid;
  commandsEnabled : bool;
  destructed : bool;
  everInteractive : bool;
  hidden : bool;
  isWizard : bool;
  actions : list ActionEntry;
  privs : option string;
  uid : option string;
  euid : option string;
  livingName : string;
  shadowedBy : option oid;
  shadowing : option oid;
  snoopedBy : option oid;
  snooping : option oid;
  isVirtual : bool;
  totalLight : Z;
  hasParseInfo : bool;
  parseInfoFlags : Z;
  parseNounIds : list string;
  parsePluralIds : list string;
  parseAdjIds : list string;
  resetState : bool;
  willCleanUp : bool;
  isClone : bool;
  timeReset : Z;
  timeOfRef : Z
}.
#[export] Instance eta_LpcObject : Eta LpcObject := fun o =>
  {| filename := filename o; program := program o; replacedProgramName := replacedProgramName o;
     variables := variables o; heartbeatInterval := heartbeatInterval o;
     environment := environment o; inventory := inventory o; commandsEnabled := commandsEnabled o;
     destructed := destructed o; everInteractive := everInteractive o; hidden := hidden o;
     isWizard := isWizard o; actions := actions o; privs := privs o; uid := uid o; euid := euid o;
     livingName := livingName o; shadowedBy := shadowedBy o; shadowing := shadowing o;
     snoopedBy := snoopedBy o; snooping := snooping o; isVirtual := isVirtual o;
     totalLight := totalLight o; hasParseInfo := hasParseInfo o;
     parseInfoFlags := parseInfoFlags o; parseNounIds := parseNounIds o;
     parsePluralIds := parsePluralIds o; parseAdjIds := parseAdjIds o;
     resetState := resetState o; willCleanUp := willCleanUp o; isClone := isClone o;
     timeReset := timeReset o; timeOfRef := timeOfRef o |}.

(** The constructor of [LpcObject]; [now] is the clock at construction. *)
Definition newObject (name : string) (p : pid) (pr : CompiledProgram) (fluffosDialect : bool)
    (now : Z) : LpcObject :=
  {| filename := name; program := p; replacedProgramName := None;
     variables := replicate (length (objectVarNames pr))
                    (if fluffosDialect then makeUndefinedNumber else VInt 0);
     heartbeatInterval := 0; environment := None; inventory := []; commandsEnabled := false;
     destructed := false; everInteractive := false; hidden := false; isWizard := false;
     actions := []; privs := None; uid := None; euid := None; livingName := "";
     shadowedBy := None; shadowing := None; snoopedBy := None; snooping := None;
     isVirtual := false; totalLight := 0; hasParseInfo := false; parseInfoFlags := 0;
     parseNounIds := []; parsePluralIds := []; parseAdjIds := []; resetState := false;
     willCleanUp := false; isClone := false; timeReset := 0; timeOfRef := now |}.

(** [armReset]: [jitter] is the number of seconds the generator draws from
    [0 .. timeToReset/2 - 1] (0 when that range is empty). *)
Definition armReset (now timeToReset jitter : Z) (o : LpcObject) : LpcObject :=
  o <| timeReset := now + (timeToReset / 2 + jitter) * 10 ^ 9 |> <| resetState := true |>.

(** [time_point::max()] *)
Definition disableReset (o : LpcObject) : LpcObject := o <| timeReset := INT64_MAX |>.

(** [addAction] puts the new entry first. *)
Definition addAction (e : ActionEntry) (o : LpcObject) : LpcObject := o <| actions ::= cons e |>.

(** [Origin] *)
Inductive Origin :=
  | Driver | Local | CallOther | SimulEfun | Internal | Efun | FunctionPointer | Functional.
#[export] Instance Origin_eq_dec : EqDecision Origin.
Proof. solve_decision. Defined.

Definition originName (o : Origin) : string :=
  match o with
  | Driver => "driver" | Local => "local" | CallOther => "call_other" | SimulEfun => "simul"
  | Internal => "internal" | Efun => "efun" | FunctionPointer => "function pointer"
  | Functional => "functional"
  end.

Record PendingReplaceProgram := mkPending {
  pr_ob : option oid;
  pr_newProgram : option pid;
  pr_offset : Z;
  pr_name : string
}.

(** The scheduler's entries (include/amlp/scheduler/Scheduler.hpp).  The VM
    holds a pointer to it ([setScheduler]), through which efuns reach it. *)
Record CallOutEntry := mkCallOut {
  handle : Z;
  target : option oid;
  function : string;
  closureRef : option loc;
  args : list Value;
  dueAt : Z
}.
#[export] Instance eta_CallOutEntry : Eta CallOutEntry := fun e =>
  {| handle := handle e; target := target e; function := function e; closureRef := closureRef e;
     args := args e; dueAt := dueAt e |}.

Record HeartbeatEntry := mkHeartbeat { hbTarget : option oid; ticksRemaining : Z }.

Record Scheduler := mkScheduler {
  callOuts : list CallOutEntry;
  heartbeats : list HeartbeatEntry;
  lastHeartbeat : Z;
  nextHandle : Z
}.
#[export] Instance eta_Scheduler : Eta Scheduler := fun s =>
  {| callOuts := callOuts s; heartbeats := heartbeats s; lastHeartbeat := lastHeartbeat s;
     nextHandle := nextHandle s |}.

Definition kNumDriverHooks : Z := 32.

(** ** ObjectManager

    [UidModel] (include/amlp/security/UidModel.hpp), the members of
    [ObjectManager] (include/amlp/object/ObjectManager.hpp), and the process-wide
    registries [LiveObjectRegistry] and [LivingNameRegistry]. *)
Record UidModel := mkUidModel {
  rootUid : option string;
  backboneUid : option string;
  autoTrustBackbone : bool
}.
#[export] Instance eta_UidModel : Eta UidModel := fun m =>
  {| rootUid := rootUid m; backboneUid := backboneUid m; autoTrustBackbone := autoTrustBackbone m |}.

Record LivingEntry := mkLiving { eobj : oid; ename : string }.

(** What a path of the file system names.  Two spellings of one path are
    different paths here. *)
Inductive FileEntry := RegularFile (content : string) | Directory.

Record ObjMgr := mkObjMgr {
  uidModel : UidModel;
  programCache : gmap string pid;
  programSource : gmap string string;
  loaded : gmap string oid;
  restoredObjects : list oid;
  compiling : gset string;
  virtualCompiling : gset string;
  liveObjects : list oid;
  livingNames : list LivingEntry;
  disk : gmap string FileEntry
}.
#[export] Instance eta_ObjMgr : Eta ObjMgr := fun m =>
  {| uidModel := uidModel m; programCache := programCache m; programSource := programSource m;
     loaded := loaded m; restoredObjects := restoredObjects m; compiling := compiling m;
     virtualCompiling := virtualCompiling m; liveObjects := liveObjects m;
     livingNames := livingNames m; disk := disk m |}.
Definition emptyObjMgr : ObjMgr :=
  {| uidModel := mkUidModel None None false; programCache := ∅; programSource := ∅; loaded := ∅;
     restoredObjects := []; compiling := ∅; virtualCompiling := ∅; liveObjects := [];
     livingNames := []; disk := ∅ |}.

Record VMState := mkVM {
  hp : heap;
  objects : gmap oid LpcObject;
  programStore : programs;
  functionChainCache : chainCache;
  config : Config;
  masterOb : option oid;
  simulEfunOb : option oid;
  driverHooks : list Value;
  evalCost : Z;
  maxEvalCost : Z;
  callStack : list (option oid);
  objectChangeStack : list (option oid);
  commandGiverStack : list (option oid);
  timeExpressionStack : list Z;
  verbStack : list string;
  originStack : list Origin;
  pendingReplacePrograms : list PendingReplaceProgram;
  sched : Scheduler;
  clockReads : nat;
  stderrLog : list string;
  net : NetState;
  om : ObjMgr
}.
#[export] Instance eta_VMState : Eta VMState := fun s =>
  {| hp := hp s; objects := objects s; programStore := programStore s;
     functionChainCache := functionChainCache s; config := config s; masterOb := masterOb s;
     simulEfunOb := simulEfunOb s; driverHooks := driverHooks s; evalCost := evalCost s;
     maxEvalCost := maxEvalCost s; callStack := callStack s;
     objectChangeStack := objectChangeStack s; commandGiverStack := commandGiverStack s;
     timeExpressionStack := timeExpressionStack s; verbStack := verbStack s;
     originStack := originStack s; pendingReplacePrograms := pendingReplacePrograms s;
     sched := sched s; clockReads := clockReads s; stderrLog := stderrLog s; net := net s; om := om s |}.

Abbreviation VM := (M VMState exn) (only parsing).

(** The constructor [VM(objects, config)] on the given object world. *)
Definition newVM (cfg : Config) (obs : gmap oid LpcObject) (P : programs) : VMState :=
  {| hp := emptyHeap; objects := obs; programStore := P; functionChainCache := ∅; config := cfg;
     masterOb := None; simulEfunOb := None;
     driverHooks := replicate (Z.to_nat kNumDriverHooks) Void; evalCost := 0;
     maxEvalCost := cfg_maxEvalCost cfg; callStack := []; objectChangeStack := [];
     commandGiverStack := []; timeExpressionStack := []; verbStack := []; originStack := [];
     pendingReplacePrograms := []; sched := mkScheduler [] [] 0 1; clockReads := 0; stderrLog := [];
     net := emptyNet; om := emptyObjMgr |}.

(** ** Objects *)
Definition lock (s : VMState) (w : option oid) : option oid :=
  match w with
  | Some o => match objects s !! o with Some _ => Some o | None => None end
  | None => None
  end.

(** A property of a live object; [d] when it is gone. *)
Definition getOb {A} (s : VMState) (f : LpcObject -> A) (d : A) (o : oid) : A :=
  match objects s !! o with Some ob => f ob | None => d end.
Definition setOb (o : oid) (f : LpcObject -> LpcObject) (s : VMState) : VMState :=
  s <| objects ::= alter f o |>.

Definition isDestructed (s : VMState) (o : oid) : bool := getOb s destructed true o.
Definition fileOf (s : VMState) (o : oid) : string := getOb s filename "" o.

(** [coerceIfDestructed] *)
Definition coerceIfDestructed (s : VMState) (v : Value) : Value :=
  match data v with
  | Obj (Some o) => if isDestructed s o then VInt 0 else v
  | _ => v
  end.

Definition currentObject (s : VMState) : option oid :=
  match callStack s with o :: _ => o | [] => None end.

Definition previousObject (idx : Z) (s : VMState) : option oid :=
  if (idx <? 0) || (Z.of_nat (length (objectChangeStack s)) <=? idx) then None
  else default None (objectChangeStack s !! Z.to_nat idx).

Definition allPreviousObjects (s : VMState) : list oid := omap id (objectChangeStack s).

Definition commandGiver (s : VMState) : option oid :=
  match commandGiverStack s with o :: _ => o | [] => None end.
Definition pushCommandGiver (o : option oid) (s : VMState) : VMState :=
  s <| commandGiverStack ::= cons o |>.
Definition popCommandGiver (s : VMState) : VMState := s <| commandGiverStack ::= tail |>.
Definition currentVerb (s : VMState) : string :=
  match verbStack s with v :: _ => v | [] => ""%string end.
Definition currentOrigin (s : VMState) : Origin :=
  match originStack s with o :: _ => o | [] => Driver end.
Definition pushOrigin (o : Origin) (s : VMState) : VMState := s <| originStack ::= cons o |>.
Definition popOrigin (s : VMState) : VMState := s <| originStack ::= tail |>.
Definition resetEvalCost (s : VMState) : VMState := s <| evalCost := 0 |>.
Definition setMaxEvalCost (limit : Z) (s : VMState) : VMState := s <| maxEvalCost := limit |>.

(** ** Scope guards

    [ObjectFrameGuard], [OriginGuard] and [CommandGiverGuard]: the destructor
    runs on every exit, exceptional or not. *)
Definition objectChanged (o : option oid) (s : VMState) : bool :=
  match callStack s with [] => true | top :: _ => negb (bool_decide (top = o)) end.

Definition enterFrame (o : option oid) (s : VMState) : VMState :=
  (if objectChanged o s then s <| objectChangeStack ::= cons (currentObject s) |> else s)
    <| callStack ::= cons o |>.

Definition leaveFrame (changed : bool) (s : VMState) : VMState :=
  let s1 := s <| callStack ::= tail |> in
  if changed then s1 <| objectChangeStack ::= tail |> else s1.

Definition withObjectFrame {A} (o : option oid) (m : VM A) : VM A := fun s =>
  mfinally m (leaveFrame (objectChanged o s)) (enterFrame o s).
Definition withOrigin {A} (o : Origin) (m : VM A) : VM A := fun s =>
  mfinally m popOrigin (pushOrigin o s).
Definition withCommandGiver {A} (o : option oid) (m : VM A) : VM A := fun s =>
  mfinally m popCommandGiver (pushCommandGiver o s).

(** ** The frame of one [run] *)
Record CatchFrame := mkCatch { resumeIp : nat; stackDepth : nat }.

Record Frame := mkFrame {
  locals : list Value;
  localStack : list Value;
  pendingVarargsDelta : Z;
  ip : nat;
  catchFrames : list CatchFrame
}.
#[export] Instance eta_Frame : Eta Frame := fun f =>
  {| locals := locals f; localStack := localStack f; pendingVarargsDelta := pendingVarargsDelta f;
     ip := ip f; catchFrames := catchFrames f |}.

(** [std::vector::resize] on a stack kept with its back at the head. *)
Definition resizeStack (n : nat) (st : list Value) : list Value :=
  replicate (n - length st) Void ++ drop (length st - n) st.
