(* ===== verification/Sscanf.v ===== *)
(** * Sscanf: the matcher behind the [sscanf] efun

    [adjacentSscanfBoundary] and [runSscanf] of src/vm/VM.cpp.  The positions
    [ip] and [fp] of the code are represented by the suffixes of the input and
    of the format they point at.  Every round of the matcher consumes at least
    one byte of the format, so its length plus one is enough fuel
    ([runSscanf_total]). *)
From S2P Require Import Prelude CLib Double Value Bytecode.
Local Open Scope string_scope.

Record SscanfOutcome := mkOutcome { matchCount : Z; assigned : list Value }.

(** The offset of the boundary in the input suffix. *)
Fixpoint boundary_x (s : string) : nat :=
  match s with
  | EmptyString => O
  | String c s' =>
      if negb (Ascii.eqb c "0") then S (boundary_x s')
      else if (Ascii.eqb (char_at s' 0) "x" || Ascii.eqb (char_at s' 0) "X")
              && isxdigit (char_at s' 1) then O
      else match s' with String _ s'' => S (S (boundary_x s'')) | EmptyString => 1%nat end
  end.

Fixpoint boundary_f (s : string) : nat :=
  match s with
  | EmptyString => O
  | String c s' =>
      if isdigit c then O
      else if Ascii.eqb c "." && isdigit (char_at s' 0) then O
      else S (boundary_f s')
  end.

Definition length_while (p : ascii -> bool) (s : string) : nat := String.length (fst (span p s)).

Definition adjacentSscanfBoundary (spec : ascii) (inp : string) : outcome exn nat :=
  if Ascii.eqb spec "x" then Ok (boundary_x inp)
  else if Ascii.eqb spec "d" then Ok (length_while (fun c => negb (isdigit c)) inp)
  else if Ascii.eqb spec "f" then Ok (boundary_f inp)
  else if Ascii.eqb spec "%" then Ok (length_while (fun c => negb (Ascii.eqb c "%")) inp)
  else if Ascii.eqb spec "s" then
    Throw (LpcRuntimeError "sscanf: illegal to have two adjacent %s specifiers")
  else if Ascii.eqb spec "(" then
    Throw (NotImplementedError ("sscanf: " +:+ str1 DQUOTE +:+ "%s" +:+ str1 DQUOTE
      +:+ " adjacent to " +:+ str1 DQUOTE +:+ "%(regexp)" +:+ str1 DQUOTE))
  else
    Throw (NotImplementedError ("sscanf: " +:+ str1 DQUOTE +:+ "%s" +:+ str1 DQUOTE
      +:+ " adjacent to unsupported format specifier '%" +:+ str1 spec +:+ "'")).

(** The literal run of the format up to the next percent sign; [None] when the
    input does not match it. *)
Fixpoint match_literal (fmt inp : string) : option (string * string) :=
  match fmt with
  | EmptyString => Some (fmt, inp)
  | String f fmt' =>
      if Ascii.eqb f "%" then Some (fmt, inp)
      else match inp with
           | String c inp' => if Ascii.eqb c f then match_literal fmt' inp' else None
           | EmptyString => None
           end
  end.

(** One output slot, unless the conversion was starred. *)
Definition assign (skip : bool) (maxAssigns : nat) (v : Value) (out : SscanfOutcome)
    : outcome exn SscanfOutcome :=
  if skip then Ok (mkOutcome (matchCount out + 1) (assigned out))
  else if (maxAssigns <=? length (assigned out))%nat then
    Throw (LpcRuntimeError "sscanf: too few output arguments for format string")
  else Ok (mkOutcome (matchCount out + 1) (assigned out ++ [v])).

Definition endsInPercent : exn := LpcRuntimeError "sscanf: format string cannot end in '%'".

Fixpoint sscanf_loop (fuel : nat) (inp fmt : string) (out : SscanfOutcome) (maxAssigns : nat)
    : outcome exn SscanfOutcome :=
  match fuel with
  | O => OutOfFuel
  | S fuel' =>
      match match_literal fmt inp with
      | None => Ok out
      | Some (EmptyString, inp1) =>
          if negb (String.eqb inp1 "") && (length (assigned out) <? maxAssigns)%nat
          then Ok (mkOutcome (matchCount out + 1) (assigned out ++ [V (Str inp1)]))
          else Ok out
      | Some (String _ fmt1, inp1) =>
          if Ascii.eqb (char_at fmt1 0) "%" then
            match inp1 with
            | String c inp2 =>
                if Ascii.eqb c "%" then
                  sscanf_loop fuel' inp2 (sdrop 1 fmt1)
                    (mkOutcome (matchCount out + 1) (assigned out)) maxAssigns
                else Ok out
            | EmptyString => Ok out
            end
          else
          match fmt1 with
          | EmptyString => Throw endsInPercent
          | String c0 fmt2 =>
              let skip := Ascii.eqb c0 "*" in
              match (if skip then fmt2 else fmt1) with
              | EmptyString => Throw endsInPercent
              | String spec fmt3 =>
                  if Ascii.eqb spec "d" || Ascii.eqb spec "x" then
                    match strtoll (if Ascii.eqb spec "x" then 16 else 10) inp1 with
                    | None => Ok out
                    | Some (value, n) =>
                        let! out' := assign skip maxAssigns (VInt value) out in
                        sscanf_loop fuel' (sdrop n inp1) fmt3 out' maxAssigns
                    end
                  else if Ascii.eqb spec "f" then
                    match Dbl.strtod inp1 with
                    | None => Ok out
                    | Some (value, n) =>
                        let! out' := assign skip maxAssigns (V (Dbl value)) out in
                        sscanf_loop fuel' (sdrop n inp1) fmt3 out' maxAssigns
                    end
                  else if negb (Ascii.eqb spec "s") then
                    Throw (NotImplementedError ("sscanf: format specifier '%" +:+ str1 spec
                      +:+ "' (only %s, %d, %x, %f, %% are supported)"))
                  else
                  match fmt3 with
                  | EmptyString => assign skip maxAssigns (V (Str inp1)) out
                  | String d fmt4 =>
                      if Ascii.eqb d "%" then
                        let nextSpec := if Ascii.eqb (char_at fmt4 0) "*"
                                        then char_at fmt4 1 else char_at fmt4 0 in
                        let! n := adjacentSscanfBoundary nextSpec inp1 in
                        let! out' := assign skip maxAssigns (V (Str (stake n inp1))) out in
                        sscanf_loop fuel' (sdrop n inp1) fmt3 out' maxAssigns
                      else
                        let '(delim, fmt5) := span (fun c => negb (Ascii.eqb c "%")) fmt3 in
                        match find_str delim inp1 with
                        | None => Ok out
                        | Some n =>
                            let! out' := assign skip maxAssigns (V (Str (stake n inp1))) out in
                            sscanf_loop fuel' (sdrop (n + String.length delim) inp1) fmt5 out'
                              maxAssigns
                        end
                  end
              end
          end
      end
  end.

Definition runSscanf (inp fmt : string) (maxAssigns : nat) : outcome exn SscanfOutcome :=
  sscanf_loop (S (String.length fmt)) inp fmt (mkOutcome 0 []) maxAssigns.

(** ** Totality and bounds *)
Lemma match_literal_length fmt inp fmt' inp' :
  match_literal fmt inp = Some (fmt', inp') -> (String.length fmt' <= String.length fmt)%nat.
Proof.
  revert inp. induction fmt as [|f fmt IH]; intros inp; simpl; [by intros [= <- <-]|].
  destruct (Ascii.eqb f "%"); [by intros [= <- <-]|].
  destruct inp as [|c inp]; [done|]. destruct (Ascii.eqb c f); [|done].
  intros E%IH. lia.
Qed.

Lemma adjacent_not_fuel spec inp : adjacentSscanfBoundary spec inp <> OutOfFuel.
Proof. unfold adjacentSscanfBoundary. repeat case_match; done. Qed.

Lemma assign_not_fuel skip n v out : assign skip n v out <> OutOfFuel.
Proof. unfold assign. repeat case_match; done. Qed.

Lemma obind_not_fuel {A B} (m : outcome exn A) (k : A -> outcome exn B) :
  m <> OutOfFuel -> (forall a, k a <> OutOfFuel) -> obind m k <> OutOfFuel.
Proof. intros Hm Hk. destruct m; simpl; done || apply Hk. Qed.

#[export] Hint Resolve adjacent_not_fuel assign_not_fuel obind_not_fuel : amlp.

Lemma sscanf_loop_not_fuel fuel inp fmt out n :
  (String.length fmt < fuel)%nat -> sscanf_loop fuel inp fmt out n <> OutOfFuel.
Proof.
  revert inp fmt out. induction fuel as [|fuel IH]; intros inp fmt out Hf; [lia|]. simpl.
  destruct (match_literal fmt inp) as [[fmt1 inp1]|] eqn:E; [|done].
  apply match_literal_length in E.
  destruct fmt1 as [|p fmt1]; [by case_match|]. simpl in E.
  destruct (Ascii.eqb _ "%").
  { destruct inp1; [done|]. case_match; [|done]. destruct fmt1; simpl in *; apply IH; simpl; lia. }
  destruct fmt1 as [|c0 fmt2]; [done|]. simpl in E.
  destruct (if Ascii.eqb c0 "*" then _ else _) as [|spec fmt3] eqn:Es; [done|].
  assert (String.length fmt3 < fuel)%nat.
  { destruct (Ascii.eqb c0 "*"); [|injection Es as -> ->]; subst; simpl in *; lia. }
  clear Es. destruct (_ || _).
  { destruct (strtoll _ _) as [[]|]; [|done]. auto with amlp. }
  destruct (Ascii.eqb spec "f").
  { destruct (Dbl.strtod _) as [[]|]; [|done]. auto with amlp. }
  destruct (negb _); [done|]. destruct fmt3 as [|d fmt4]; [auto with amlp|].
  destruct (Ascii.eqb d "%"); [auto 10 with amlp|].
  destruct (span _ (String d fmt4)) as [delim fmt5] eqn:Ep.
  apply span_length in Ep. apply (f_equal String.length) in Ep. rewrite slength_app in Ep.
  simpl in *. destruct (find_str delim inp1); [|done].
  apply obind_not_fuel; [auto with amlp|]. intros a. apply IH. lia.
Qed.

Lemma runSscanf_not_fuel inp fmt n : runSscanf inp fmt n <> OutOfFuel.
Proof. apply sscanf_loop_not_fuel. lia. Qed.
#[export] Hint Resolve runSscanf_not_fuel : amlp.

(** The conversions fill the slots in order, never more than there are, and
    each filled slot counts as a match. *)
Definition outcome_ok (n : nat) (o : SscanfOutcome) : Prop :=
  (length (assigned o) <= n)%nat /\ (Z.of_nat (length (assigned o)) <= matchCount o)%Z.

Lemma assign_ok skip n v out o :
  outcome_ok n out -> assign skip n v out = Ok o -> outcome_ok n o.
Proof.
  unfold assign, outcome_ok. intros [] E. destruct skip; [injection E as <-; simpl; lia|].
  destruct (Nat.leb_spec n (length (assigned out))); [done|]. injection E as <-.
  simpl. rewrite length_app. simpl. lia.
Qed.

Lemma sscanf_loop_ok fuel inp fmt out n o :
  outcome_ok n out -> sscanf_loop fuel inp fmt out n = Ok o -> outcome_ok n o.
Proof.
  revert inp fmt out. induction fuel as [|fuel IH]; intros inp fmt out Hout E; [done|].
  simpl in E. destruct (match_literal fmt inp) as [[fmt1 inp1]|]; [|by inv_ok].
  assert (outcome_ok n (mkOutcome (matchCount out + 1) (assigned out))) as Hpct.
  { unfold outcome_ok in *. simpl. lia. }
  assert (forall skip v o' k s f, assign skip n v out = Ok o' ->
            sscanf_loop fuel (sdrop k s) f o' n = Ok o -> outcome_ok n o) as Hstep.
  { intros * Ha Hl. eapply IH, Hl. eauto using assign_ok. }
  repeat case_match; try done; inv_ok; eauto using assign_ok.
  unfold outcome_ok in *. simpl. rewrite length_app. simpl. 
  match goal with H : _ && _ = true |- _ => apply andb_true_iff in H as [_ H%Nat.ltb_lt] end. lia.
Qed.

Lemma adjacent_defined spec inp w : adjacentSscanfBoundary spec inp <> Undefined w.
Proof. unfold adjacentSscanfBoundary. repeat case_match; done. Qed.

Lemma assign_defined skip n v out w : assign skip n v out <> Undefined w.
Proof. unfold assign. repeat case_match; done. Qed.

Lemma obind_defined {A B} (m : outcome exn A) (k : A -> outcome exn B) w :
  m <> Undefined w -> (forall a, k a <> Undefined w) -> obind m k <> Undefined w.
Proof. intros Hm Hk. destruct m; simpl; done || apply Hk || congruence. Qed.

Lemma runSscanf_defined inp fmt n w : runSscanf inp fmt n <> Undefined w.
Proof.
  unfold runSscanf. generalize (S (String.length fmt)). intros fuel. generalize (mkOutcome 0 []).
  revert inp fmt. induction fuel as [|fuel IH]; intros inp fmt out; [done|]. simpl.
  repeat first [ apply obind_defined; [apply adjacent_defined || apply assign_defined|intros]
               | apply assign_defined | apply IH | done | case_match ].
Qed.

(** ** Theorems *)

(** [sscanf] is total and stays within its output slots: it returns or
    throws an LPC error (never loops, never undefined); when it returns it has
    filled at most [n] slots, each counted as a match. *)
Theorem runSscanf_total inp fmt n :
  (exists o, runSscanf inp fmt n = Ok o /\ (length (assigned o) <= n)%nat /\
             (Z.of_nat (length (assigned o)) <= matchCount o)%Z) \/
  (exists e, runSscanf inp fmt n = Throw e).
Proof.
  pose proof (runSscanf_not_fuel inp fmt n) as N. pose proof (runSscanf_defined inp fmt n) as D.
  destruct (runSscanf inp fmt n) as [o|e|w|] eqn:E; [left|right; eauto|by destruct (D w)|done].
  exists o. split; [done|]. apply sscanf_loop_ok in E; [exact E|]. split; simpl; lia.
Qed.

(** [%d] reads back what the driver prints for an integer: any 64-bit
    integer in decimal, followed by anything but a digit, scans to itself. *)
Theorem sscanf_int_roundtrip z rest :
  in_int64 z = true -> ends_number rest ->
  runSscanf (to_string z +:+ rest) "%d" 1 = Ok (mkOutcome 1 [VInt z]).
Proof.
  intros Hz Hr. unfold runSscanf. simpl String.length. simpl.
  unfold strtoll. rewrite strtoll_raw_to_string by done. simpl. rewrite sdrop_app.
  unfold clamp64. apply in_int64_spec in Hz. rewrite Z.max_r, Z.min_r by lia.
  simpl. by rewrite andb_false_r; destruct (String.eqb rest "").
Qed.

Definition not_percent (c : ascii) : bool := negb (Ascii.eqb c "%").

(** A delimited format splits its input: scanning a ++ d ++ b with
    "%s<d>%s" yields exactly a and b, for any non-empty delimiter without a
    percent sign whose first occurrence is the one between them. *)
Theorem sscanf_split a d b :
  d <> "" -> sforall not_percent d = true -> find_str d (a +:+ d +:+ b) = Some (String.length a) ->
  runSscanf (a +:+ d +:+ b) ("%s" +:+ d +:+ "%s") 2 = Ok (mkOutcome 2 [V (Str a); V (Str b)]).
Proof.
  intros Hd Hp Hf. unfold runSscanf. rewrite !slength_app. simpl String.length.
  change ("%s" +:+ d +:+ "%s") with (String "%" (String "s" (d +:+ "%s"))).
  destruct d as [|c d']; [done|].
  assert (span (fun c => negb (Ascii.eqb c "%")) (String c d' +:+ "%s") = (String c d', "%s")) as Hspan.
  { apply span_all; [exact Hp|]. by intros ? ? [= <- <-]. }
  simpl in Hp. apply andb_true_iff in Hp as [Hc _]. unfold not_percent in Hc.
  rewrite sapp_cons in *. cbn [sscanf_loop match_literal Ascii.eqb Bool.eqb char_at String.get default].
  simpl. destruct (Ascii.eqb c "%") eqn:Ec; [done|]. simpl in Hspan. rewrite Ec in Hspan.
  simpl in Hspan. simpl. rewrite Hspan.
  rewrite Hf. simpl. rewrite stake_app.
  change (S (String.length d')) with (String.length (String c d')).
  by rewrite sdrop_add, <- sapp_cons, sdrop_app.
Qed.

(** ** Witnesses *)
Lemma sscanf_int_roundtrip_witness :
  runSscanf "-42 rest" "%d" 1 = Ok (mkOutcome 1 [VInt (-42)]).
Proof.
  apply (sscanf_int_roundtrip (-42) " rest"); [reflexivity|]. by intros c r [= <- <-].
Defined.

Lemma sscanf_split_witness :
  runSscanf "give sword to bob" "%s to %s" 2
    = Ok (mkOutcome 2 [V (Str "give sword"); V (Str "bob")]).
Proof. apply (sscanf_split "give sword" " to " "bob"); [discriminate|reflexivity|reflexivity]. Defined.
