(* ===== verification/Exec.v ===== *)
(** * Exec: the opcodes of [VM::run] that do not call LPC code

    One definition per opcode group of the [switch] in [VM::run]
    (src/vm/VM.cpp), with its pops, checks and error messages in the order of
    the code.  The state is the VM together with the frame of the current
    [run]: a handler that throws leaves the frame as it was at the [throw],
    which is what the catch handlers of [run] then see. *)
From S2P Require Import Prelude CLib Double Value Bytecode Lookup Machine Sscanf.
Local Open Scope Z_scope.

Record RunState := mkRun { vm : VMState; fr : Frame }.
#[export] Instance eta_RunState : Eta RunState := fun s => {| vm := vm s; fr := fr s |}.

Abbreviation R := (M RunState exn) (only parsing).

(** [Continue]: the [switch] is left by [break]; [Returned v]: by [return v]. *)
Inductive ctl := Continue | Returned (v : Value).

Definition error {A} (msg : string) : R A := mthrow (LpcRuntimeError msg).

Definition getFr {A} (f : Frame -> A) : R A := mgets (fun s => f (fr s)).
Definition modFr (f : Frame -> Frame) : R unit := mmodify (fun s => s <| fr ::= f |>).
Definition getVm {A} (f : VMState -> A) : R A := mgets (fun s => f (vm s)).
Definition modVm (f : VMState -> VMState) : R unit := mmodify (fun s => s <| vm ::= f |>).

(** A computation of the VM alone: the frame is untouched. *)
Definition onVM {A} (m : VM A) : R A := fun s =>
  let '(r, v) := m (vm s) in (r, s <| vm := v |>).

(** The bracketed part of a handler that C++ leaves by undefined behaviour. *)
Definition lift {A} (o : outcome exn A) : R A := mlift o.

Definition guard (b : bool) (msg : string) : R unit := if b then mret tt else error msg.

Definition stackSize : R nat := getFr (fun f => length (localStack f)).
Definition require (n : nat) (msg : string) : R unit :=
  k <- stackSize ;; guard (n <=? k)%nat msg.

(** [Value v = localStack.back(); localStack.pop_back();] after a size check. *)
Definition pop : R Value := fun s =>
  match localStack (fr s) with
  | v :: st => (Ok v, s <| fr ::= fun f => f <| localStack := st |> |>)
  | [] => (Undefined "pop_back of an empty vector", s)
  end.
Definition push (v : Value) : R unit := modFr (fun f => f <| localStack ::= cons v |>).

(** [++ip; break;] *)
Definition next : R ctl := modFr (fun f => f <| ip ::= S |>) ;; mret Continue.
Definition pushNext (v : Value) : R ctl := push v ;; next.
Definition jumpTo (n : nat) : R ctl := modFr (fun f => f <| ip := n |>) ;; mret Continue.

(** The last [n] values of the stack, oldest first, removed from it. *)
Definition takeArgs (n : nat) : R (list Value) := fun s =>
  let st := localStack (fr s) in
  (Ok (rev (take n st)), s <| fr ::= fun f => f <| localStack := drop n st |> |>).

(** [std::make_shared<...>] *)
Definition allocArray (l : list Value) : R Value := fun s =>
  let '(p, h) := newArray l (hp (vm s)) in
  (Ok (V (Arr (Some p))), s <| vm ::= fun v => v <| hp := h |> |>).
Definition allocMapping (m : Mapping) : R Value := fun s =>
  let '(p, h) := newMapping m (hp (vm s)) in
  (Ok (V (Map (Some p))), s <| vm ::= fun v => v <| hp := h |> |>).
Definition allocClosure (c : Closure) : R Value := fun s =>
  let '(p, h) := newClosureAt c (hp (vm s)) in
  (Ok (V (Fun (Some p))), s <| vm ::= fun v => v <| hp := h |> |>).

Definition itemsOf (l : option loc) : R (list Value) :=
  getVm (fun s => match l with Some p => items (hp s) p | None => [] end).

Section Run.
(** The constants of one [run]: its program, object and variable base. *)
Context (pr : CompiledProgram) (obj : oid) (objectVarBase : Z) (i : Instruction).
(** One value of the steady clock per read. *)
Context (ticks : nat -> Z).

Definition exec_PushConst : R ctl :=
  match poolAt (stringPool pr) (operand i) with
  | None => error "PushConst: bad string pool index"
  | Some s => pushNext (V (Str s))
  end.

Definition exec_PushInt : R ctl := pushNext (VInt (operand i)).

Definition exec_PushFloat : R ctl :=
  match poolAt (floatPool pr) (operand i) with
  | None => error "PushFloat: bad float pool index"
  | Some d => pushNext (V (Dbl d))
  end.

Definition exec_PushNil : R ctl := pushNext (V NilV).

Definition exec_PushSymbol : R ctl :=
  match poolAt (stringPool pr) (operand i) with
  | None => error "PushSymbol: bad symbol name index"
  | Some s => pushNext (V (Sym s))
  end.

(** The slot itself is overwritten when it names a destructed object. *)
Definition exec_PushLocal : R ctl :=
  ls <- getFr locals ;;
  match poolAt ls (operand i) with
  | None => error "PushLocal: bad local slot index"
  | Some v =>
      v' <- getVm (fun s => coerceIfDestructed s v) ;;
      modFr (fun f => f <| locals ::= <[Z.to_nat (operand i) := v']> |>) ;;
      pushNext v'
  end.

Definition exec_StoreLocal : R ctl :=
  ls <- getFr locals ;;
  match poolAt ls (operand i) with
  | None => error "StoreLocal: bad local slot index"
  | Some _ =>
      require 1 "StoreLocal: stack underflow" ;;
      v <- pop ;;
      modFr (fun f => f <| locals ::= <[Z.to_nat (operand i) := v]> |>) ;;
      next
  end.

Definition objVars : R (list Value) := getVm (fun s => getOb s variables [] obj).
Definition setObjVar (slot : Z) (v : Value) : R unit :=
  modVm (setOb obj (fun o => o <| variables ::= <[Z.to_nat slot := v]> |>)).

Definition exec_PushObjectVar : R ctl :=
  vars <- objVars ;;
  let slot := objectVarBase + operand i in
  match poolAt vars slot with
  | None => error "PushObjectVar: bad object variable slot index"
  | Some v =>
      v' <- getVm (fun s => coerceIfDestructed s v) ;;
      setObjVar slot v' ;;
      pushNext v'
  end.

Definition exec_StoreObjectVar : R ctl :=
  vars <- objVars ;;
  let slot := objectVarBase + operand i in
  match poolAt vars slot with
  | None => error "StoreObjectVar: bad object variable slot index"
  | Some _ =>
      require 1 "StoreObjectVar: stack underflow" ;;
      v <- pop ;;
      setObjVar slot v ;;
      next
  end.

(** [rhs] is on top of [lhs]. *)
Definition pop2 (msg : string) : R (Value * Value) :=
  require 2 msg ;; rhs <- pop ;; lhs <- pop ;; mret (lhs, rhs).

Definition exec_EqNeq : R ctl :=
  p <- pop2 "Eq/Neq: stack underflow" ;;
  let eq := valuesEqual (fst p) (snd p) in
  pushNext (VBool (if decide (op i = Eq) then eq else negb eq)).

Definition asArithmeticOperand (v : Value) : option double :=
  match data v with
  | Int z => Some (Dbl.of_int64 z)
  | Dbl d => Some d
  | Monostate => Some Dbl.zero
  | _ => None
  end.

Definition exec_compare : R ctl :=
  p <- pop2 "comparison: stack underflow" ;;
  match asArithmeticOperand (fst p) with
  | None => error "comparison: left operand is not numeric"
  | Some lv =>
      match asArithmeticOperand (snd p) with
      | None => error "comparison: right operand is not numeric"
      | Some rv =>
          pushNext (VBool match op i with
                          | Lt => Dbl.ltb lv rv
                          | Lte => Dbl.leb lv rv
                          | Gt => Dbl.ltb rv lv
                          | Gte => Dbl.leb rv lv
                          | _ => false
                          end)
      end
  end.

Definition exec_Not : R ctl :=
  require 1 "Not: stack underflow" ;;
  v <- pop ;;
  pushNext (VBool (negb (isTruthy v))).

Definition memberOf (l : list Value) (x : Value) : bool := existsb (fun y => valuesEqual x y) l.

Definition isDbl (v : Value) : bool := match data v with Dbl _ => true | _ => false end.

(** The numeric tail of [Sub]/[Mul]/[Div]/[Mod]: everything is computed on
    doubles, and cast back unless one operand was a double. *)
Definition arithmetic (lhs rhs : Value) : R Value :=
  match asArithmeticOperand lhs with
  | None => error "arithmetic: left operand is not numeric"
  | Some lv =>
      match asArithmeticOperand rhs with
      | None => error "arithmetic: right operand is not numeric"
      | Some rv =>
          guard (negb (bool_decide (op i = Div \/ op i = Mod) && Dbl.eqb rv Dbl.zero))
            (if decide (op i = Div) then "Div: division by zero" else "Mod: modulo by zero") ;;
          let result := match op i with
                        | Sub => Dbl.sub lv rv
                        | Mul => Dbl.mul lv rv
                        | Div => Dbl.div lv rv
                        | Mod => Dbl.fmod lv rv
                        | _ => Dbl.zero
                        end in
          if isDbl lhs || isDbl rhs then mret (V (Dbl result))
          else z <- lift (Dbl.to_int64 result) ;; mret (VInt z)
      end
  end.

Definition exec_arith : R ctl :=
  p <- pop2 "arithmetic: stack underflow" ;;
  let '(lhs, rhs) := p in
  match op i, data lhs, data rhs with
  | Sub, Arr l, Arr r =>
      ls <- itemsOf l ;; rs <- itemsOf r ;;
      a <- allocArray (List.filter (fun x => negb (memberOf rs x)) ls) ;;
      pushNext a
  | _, _, _ => v <- arithmetic lhs rhs ;; pushNext v
  end.

Definition exec_BitAnd : R ctl :=
  p <- pop2 "BitAnd: stack underflow" ;;
  match data (fst p), data (snd p) with
  | Arr l, Arr r =>
      ls <- itemsOf l ;; rs <- itemsOf r ;;
      a <- allocArray (List.filter (memberOf rs) ls) ;;
      pushNext a
  | Int x, Int y => pushNext (VInt (Z.land x y))
  | _, _ => error "BitAnd: operands must both be ints or both be arrays"
  end.

Definition exec_BitOrXor : R ctl :=
  p <- pop2 "BitOr/BitXor: stack underflow" ;;
  match data (fst p), data (snd p) with
  | Int x, Int y => pushNext (VInt (if decide (op i = BitOr) then Z.lor x y else Z.lxor x y))
  | _, _ => error ((if decide (op i = BitOr) then "BitOr" else "BitXor")
               +:+ ": operands must both be ints (array union is not implemented this slice)")
  end.

(** Shifting a 64-bit integer by a negative count or by 64 and more is
    undefined; [<<] keeps the low 64 bits. *)
Definition exec_Shift : R ctl :=
  p <- pop2 "Shl/Shr: stack underflow" ;;
  match data (fst p), data (snd p) with
  | Int x, Int y =>
      if (y <? 0) || (64 <=? y) then mundef "shift count out of range"
      else pushNext (VInt (if decide (op i = Shl) then wrap64 (Z.shiftl x y) else Z.shiftr x y))
  | _, _ => error ((if decide (op i = Shl) then "Shl" else "Shr")
               +:+ ": operands must both be ints")
  end.

Definition exec_BitNot : R ctl :=
  require 1 "BitNot: stack underflow" ;;
  v <- pop ;;
  match data v with
  | Int x => pushNext (VInt (Z.lnot x))
  | _ => error "Bad argument to ~"
  end.

Definition exec_ForeachKeys : R ctl :=
  require 1 "ForeachKeys: stack underflow" ;;
  v <- pop ;;
  match data v with
  | Arr _ => pushNext v
  | Map m =>
      keys <- getVm (fun s => match m with
                              | Some p => map fst (entries (mapping (hp s) p))
                              | None => [] end) ;;
      a <- allocArray keys ;;
      pushNext a
  | _ => error "foreach: collection must be an array or mapping"
  end.

Definition badTarget : bool :=
  (operand i <? 0) || (Z.of_nat (length (code pr)) <? operand i).

Definition exec_Jump : R ctl :=
  if badTarget then error "Jump: bad target" else jumpTo (Z.to_nat (operand i)).

Definition exec_JumpIfFalse : R ctl :=
  require 1 "JumpIfFalse: stack underflow" ;;
  cond <- pop ;;
  if negb (isTruthy cond) then
    if badTarget then error "JumpIfFalse: bad target" else jumpTo (Z.to_nat (operand i))
  else next.

Definition exec_PushCatchFrame : R ctl :=
  if badTarget then error "PushCatchFrame: bad resume target"
  else
    n <- stackSize ;;
    modFr (fun f => f <| catchFrames ::= cons (mkCatch (Z.to_nat (operand i)) n) |>) ;;
    next.

Definition exec_PopCatchFrame : R ctl :=
  cs <- getFr catchFrames ;;
  match cs with
  | [] => error "PopCatchFrame: no active catch frame"
  | _ :: cs' => modFr (fun f => f <| catchFrames := cs' |>) ;; pushNext (VInt 0)
  end.

(** [steady_clock::now()] *)
Definition now : R Z :=
  n <- getVm clockReads ;;
  modVm (fun s => s <| clockReads := S n |>) ;;
  mret (ticks n).

Definition exec_TimeExpressionStart : R ctl :=
  t <- now ;;
  modVm (fun s => s <| timeExpressionStack ::= cons t |>) ;;
  next.

Definition exec_TimeExpressionEnd : R ctl :=
  ts <- getVm timeExpressionStack ;;
  match ts with
  | [] => error "TimeExpressionEnd: no active time_expression"
  | start :: ts' =>
      modVm (fun s => s <| timeExpressionStack := ts' |>) ;;
      t <- now ;;
      pushNext (VInt (Z.quot (t - start) 1000))
  end.

(** [formatNumberForConcat]: [snprintf] into a buffer of 64 bytes. *)
Definition formatNumberForConcat (v : Value) : string :=
  match data v with
  | Int z => to_string z
  | Dbl d => stake 63 (Dbl.printf_f d)
  | _ => "0"
  end.

(** [result[li] = ...] for the first equal key, or a new last entry. *)
Definition mergeEntry (right : Mapping) (ri : nat) (result : Mapping) : Mapping :=
  match entries right !! ri with
  | None => result
  | Some (k, v) =>
      let row := match extraColumns right with
                 | [] => replicate (Z.to_nat (width result - 1)) Void
                 | xs => nth ri xs []
                 end in
      match findKey k (entries result) with
      | Some li =>
          let r1 := result <| entries := alter (fun '(k', _) => (k', v)) li (entries result) |> in
          match extraColumns result with
          | [] => r1
          | xs => r1 <| extraColumns := <[li := row]> xs |>
          end
      | None =>
          let r1 := result <| entries := entries result ++ [(k, v)] |> in
          if 1 <? width result then r1 <| extraColumns := extraColumns result ++ [row] |> else r1
      end
  end.

Definition mergeMapping (left right : Mapping) : Mapping :=
  foldl (fun acc ri => mergeEntry right ri acc) left (seq 0 (length (entries right))).

Definition addMappings (l r : option loc) : R Value :=
  lm <- getVm (fun s => mapping (hp s) <$> l) ;;
  rm <- getVm (fun s => mapping (hp s) <$> r) ;;
  match lm, rm with
  | Some a, Some b =>
      if negb (width a =? width b) then error "Add: mappings of different width"
      else allocMapping (mergeMapping a b)
  | Some a, None => allocMapping a
  | None, Some b => allocMapping (mergeMapping (emptyMapping <| width := width b |>) b)
  | None, None => allocMapping emptyMapping
  end.

Definition fileNameOf (o : option oid) : R string :=
  getVm (fun s => match o with Some p => fileOf s p | None => "" end).

Definition addUnsupported {A} (lhs rhs : Value) : R A :=
  error ("Add: unsupported operand types (lhs kind " +:+ to_string (index (data lhs))
         +:+ ", rhs kind " +:+ to_string (index (data rhs)) +:+ ")").

Definition addValues (lhs rhs : Value) : R Value :=
  match data lhs, data rhs with
  | Str a, Str b => mret (V (Str (a +:+ b)))
  | Str a, (Int _ | Dbl _ | Monostate) => mret (V (Str (a +:+ formatNumberForConcat rhs)))
  | (Int _ | Dbl _ | Monostate), Str b => mret (V (Str (formatNumberForConcat lhs +:+ b)))
  | Obj o, Str b => f <- fileNameOf o ;; mret (V (Str (f +:+ b)))
  | Str a, Obj o => f <- fileNameOf o ;; mret (V (Str (a +:+ f)))
  | Arr l, Arr r => ls <- itemsOf l ;; rs <- itemsOf r ;; allocArray (ls ++ rs)
  | Map l, Map r => addMappings l r
  | _, _ =>
      match asArithmeticOperand lhs, asArithmeticOperand rhs with
      | Some lv, Some rv =>
          if isDbl lhs || isDbl rhs then mret (V (Dbl (Dbl.add lv rv)))
          else z <- lift (Dbl.to_int64 (Dbl.add lv rv)) ;; mret (VInt z)
      | _, _ => addUnsupported lhs rhs
      end
  end.

Definition exec_Add : R ctl :=
  p <- pop2 "Add: stack underflow" ;;
  v <- addValues (fst p) (snd p) ;;
  pushNext v.

(** The operand counts from the top of the stack; the array is spliced in
    place, so on a stack kept top first its items appear reversed. *)
Definition exec_ExpandVarargs : R ctl :=
  let n := operand i in
  size <- stackSize ;;
  if (n <? 0) || (Z.of_nat size <=? n) then error "ExpandVarargs: bad stack offset"
  else
    st <- getFr localStack ;;
    match data (nthV (Z.to_nat n) st) with
    | Arr l =>
        xs <- itemsOf l ;;
        modFr (fun f => f <| localStack := take (Z.to_nat n) st ++ rev xs
                                            ++ drop (S (Z.to_nat n)) st |>
                          <| pendingVarargsDelta ::= Z.add (Z.of_nat (length xs) - 1) |>) ;;
        next
    | _ => error ("Item being expanded with " +:+ str1 DQUOTE +:+ "..." +:+ str1 DQUOTE
                    +:+ " is not an array")
    end.

(** [instr.argCount + static_cast<int32_t>(pendingVarargsDelta)], then the
    delta is reset. *)
Definition effectiveArgCount : R Z :=
  d <- getFr pendingVarargsDelta ;;
  argc <- lift (checked32 (argCount i + wrap32 d)) ;;
  modFr (fun f => f <| pendingVarargsDelta := 0 |>) ;;
  mret argc.

Definition argsInRange (argc : Z) (size : nat) : bool :=
  negb ((argc <? 0) || (Z.of_nat size <? argc)).

Definition exec_MakeArray : R ctl :=
  argc <- effectiveArgCount ;;
  size <- stackSize ;;
  guard (argsInRange argc size) "MakeArray: bad arg count" ;;
  xs <- takeArgs (Z.to_nat argc) ;;
  a <- allocArray xs ;;
  pushNext (a <| isClassInstance := negb (operand i =? 0) |>).

(** [stride] values per entry: the key, then [width] columns. *)
Fixpoint appendEntries (count : nat) (stride : nat) (vals : list Value) (m : Mapping) : Mapping :=
  match count with
  | O => m
  | S n => appendEntries n stride (drop stride vals)
             (appendEntry m (nthV 0 vals) (take (stride - 1) (drop 1 vals)))
  end.

Definition exec_MakeMapping : R ctl :=
  entryCount <- effectiveArgCount ;;
  let w := Z.max 1 (operand i) in
  let stride := w + 1 in
  size <- stackSize ;;
  guard (negb ((entryCount <? 0) || (Z.of_nat size <? stride * entryCount)))
    "MakeMapping: bad arg count" ;;
  vals <- takeArgs (Z.to_nat (stride * entryCount)) ;;
  m <- allocMapping (appendEntries (Z.to_nat entryCount) (Z.to_nat stride) vals
                       (emptyMapping <| width := w |>)) ;;
  pushNext m.
End Run.
