(* ===== verification/ExecIndex.v ===== *)
(** * ExecIndex: indexing, ranges, sscanf and closure literals of [VM::run]

    The remaining opcodes of src/vm/VM.cpp that stay inside one frame. *)
From S2P Require Import Prelude CLib Double Value Bytecode Lookup Machine Sscanf Exec.
Local Open Scope Z_scope.

(** [(argCount & mask) != 0] *)
Definition flag (i : Instruction) (mask : Z) : bool := negb (Z.land (argCount i) mask =? 0).

Definition modHeap (f : heap -> heap) : R unit := modVm (fun s => s <| hp ::= f |>).

(** The sub-index of [m[key, col]]; column 0 without one. *)
Definition mapColumn (hasMapColumn : bool) (v : Value) (m : Mapping) : R Z :=
  if hasMapColumn then
    match data v with
    | Int z =>
        let col := wrap32 z in
        if (col <? 0) || (width m <=? col) then
          error ("Illegal sub-index " +:+ to_string col +:+ ", mapping width is "
                 +:+ to_string (width m) +:+ ".")
        else mret col
    | _ => error "Illegal sub-index type, expected number."
    end
  else mret 0.

Definition fromEnd (b : bool) (len raw : Z) : R Z :=
  if b then lift (checked64 (len - raw)) else mret raw.

Definition indexArray (i : Instruction) (l : option loc) (indexVal : Value) : R Value :=
  match l with
  | None => error "Index: target array is null"
  | Some p =>
      match data indexVal with
      | Int raw =>
          xs <- getVm (fun s => items (hp s) p) ;;
          k <- fromEnd (flag i 1) (Z.of_nat (length xs)) raw ;;
          match poolAt xs k with
          | None => error "Index: array index out of bounds"
          | Some v =>
              v' <- getVm (fun s => coerceIfDestructed s v) ;;
              modHeap (fun h => h <| arrays ::= <[p := <[Z.to_nat k := v']> xs]> |>) ;;
              mret v'
          end
      | _ => error "Index: array index must be an integer"
      end
  end.

Definition indexMapping (hasMapColumn : bool) (l : option loc) (indexVal mapColumnVal : Value)
    : R Value :=
  match l with
  | None => error "Index: target mapping is null"
  | Some p =>
      m <- getVm (fun s => mapping (hp s) p) ;;
      col <- mapColumn hasMapColumn mapColumnVal m ;;
      match findKey indexVal (entries m) with
      | Some hitIdx => getVm (fun s => coerceIfDestructed s (getColumn m hitIdx col))
      | None => mret (if hasMapColumn then VInt 0 else Void)
      end
  end.

(** [str[size]] is the terminating NUL, and allowed. *)
Definition indexString (i : Instruction) (str : string) (indexVal : Value) : R Value :=
  match data indexVal with
  | Int raw =>
      k <- fromEnd (flag i 1) (Z.of_nat (String.length str)) raw ;;
      if (k <? 0) || (Z.of_nat (String.length str) <? k)
      then error "Index: string index out of bounds"
      else mret (VInt (ord (char_at str (Z.to_nat k))))
  | _ => error "Index: string index must be an integer"
  end.

Definition exec_Index (i : Instruction) : R ctl :=
  let hasMapColumn := flag i 4 in
  require (if hasMapColumn then 3 else 2)%nat "Index: stack underflow" ;;
  mapColumnVal <- (if hasMapColumn then pop else mret Void) ;;
  indexVal <- pop ;;
  targetVal <- pop ;;
  v <- match data targetVal with
       | Arr l => indexArray i l indexVal
       | Map l => indexMapping hasMapColumn l indexVal mapColumnVal
       | Str s => indexString i s indexVal
       | _ => error "Index: target is not an array, mapping, or string"
       end ;;
  pushNext v.

Definition assignArray (l : option loc) (indexVal value : Value) : R unit :=
  match l with
  | None => error "IndexAssign: target array is null"
  | Some p =>
      match data indexVal with
      | Int k =>
          xs <- getVm (fun s => items (hp s) p) ;;
          match poolAt xs k with
          | None => error "IndexAssign: array index out of bounds"
          | Some _ => modHeap (fun h => h <| arrays ::= <[p := <[Z.to_nat k := value]> xs]> |>)
          end
      | _ => error "IndexAssign: array index must be an integer"
      end
  end.

(** A new key gets a row of zeros with the assigned column set. *)
Definition mapAssign (m : Mapping) (key : Value) (col : Z) (value : Value) : Mapping :=
  match findKey key (entries m) with
  | Some i => setColumn m i col value
  | None => appendEntry m key (<[Z.to_nat col := value]> (replicate (Z.to_nat (width m)) (VInt 0)))
  end.

Definition assignMapping (hasMapColumn : bool) (l : option loc)
    (indexVal mapColumnVal value : Value) : R unit :=
  match l with
  | None => error "IndexAssign: target mapping is null"
  | Some p =>
      m <- getVm (fun s => mapping (hp s) p) ;;
      col <- mapColumn hasMapColumn mapColumnVal m ;;
      modHeap (fun h => h <| mappings ::= <[p := mapAssign m indexVal col value]> |>)
  end.

Definition exec_IndexAssign (i : Instruction) : R ctl :=
  let hasMapColumn := flag i 4 in
  require (if hasMapColumn then 4 else 3)%nat "IndexAssign: stack underflow" ;;
  value <- pop ;;
  mapColumnVal <- (if hasMapColumn then pop else mret Void) ;;
  indexVal <- pop ;;
  targetVal <- pop ;;
  match data targetVal with
  | Arr l => assignArray l indexVal value
  | Map l => assignMapping hasMapColumn l indexVal mapColumnVal value
  | _ => error "IndexAssign: target is not an array or mapping"
  end ;;
  next.

(** [resolveBounds] and the clamp of the end. *)
Definition resolveBounds (i : Instruction) (rawStart rawEnd len : Z) : R (Z * Z) :=
  start <- fromEnd (flag i 1) len rawStart ;;
  end_ <- fromEnd (flag i 2) len rawEnd ;;
  mret (Z.max 0 start, Z.min end_ (len - 1)).

Definition rangeLength (start clampedEnd : Z) : nat := Z.to_nat (clampedEnd - start + 1).

Definition exec_RangeIndex (i : Instruction) : R ctl :=
  require 3 "RangeIndex: stack underflow" ;;
  endVal <- pop ;;
  startVal <- pop ;;
  targetVal <- pop ;;
  match data startVal with
  | Int rawStart =>
      match data endVal with
      | Int rawEnd =>
          guard (flag i 1 || (0 <=? rawStart)) "RangeIndex: start index must be non-negative" ;;
          match data targetVal with
          | Str s =>
              b <- resolveBounds i rawStart rawEnd (Z.of_nat (String.length s)) ;;
              let '(start, clampedEnd) := b in
              pushNext (V (Str (stake (rangeLength start clampedEnd) (sdrop (Z.to_nat start) s))))
          | Arr None => error "RangeIndex: target array is null"
          | Arr (Some p) =>
              xs <- getVm (fun s => items (hp s) p) ;;
              b <- resolveBounds i rawStart rawEnd (Z.of_nat (length xs)) ;;
              let '(start, clampedEnd) := b in
              a <- allocArray (take (rangeLength start clampedEnd) (drop (Z.to_nat start) xs)) ;;
              pushNext a
          | _ => error "RangeIndex: target is not an array or string"
          end
      | _ => error "RangeIndex: end index must be an integer"
      end
  | _ => error "RangeIndex: start index must be an integer"
  end.

Section Run.
Context (pr : CompiledProgram) (obj : oid) (i : Instruction).

(** The [k]-th matched value goes to the slot the [k]-th data instruction after
    the opcode names: a local, or a variable of the object. *)
Fixpoint storeSscanf (slots : list Instruction) (vals : list Value) : R unit :=
  match slots, vals with
  | slotSpec :: slots', v :: vals' =>
      (if negb (argCount slotSpec =? 0) then
         vars <- objVars obj ;;
         match poolAt vars (operand slotSpec) with
         | None => error "Sscanf: bad object variable slot index"
         | Some _ => setObjVar obj (operand slotSpec) v
         end
       else
         ls <- getFr locals ;;
         match poolAt ls (operand slotSpec) with
         | None => error "Sscanf: bad local slot index"
         | Some _ => modFr (fun f => f <| locals ::= <[Z.to_nat (operand slotSpec) := v]> |>)
         end) ;;
      storeSscanf slots' vals'
  | _, _ => mret tt
  end.

Definition exec_Sscanf : R ctl :=
  let n := operand i in
  guard (0 <=? n) "Sscanf: bad var count" ;;
  require 2 "Sscanf: stack underflow" ;;
  formatVal <- pop ;;
  targetVal <- pop ;;
  match data targetVal, data formatVal with
  | Str target, Str format =>
      here <- getFr ip ;;
      guard (Z.of_nat here + 1 + n <=? Z.of_nat (length (code pr)))
        "Sscanf: truncated var-slot table" ;;
      outcome <- lift (runSscanf target format (Z.to_nat n)) ;;
      storeSscanf (drop (S here) (code pr)) (assigned outcome) ;;
      push (VInt (matchCount outcome)) ;;
      jumpTo (here + 1 + Z.to_nat n)
  | _, _ => error "sscanf: first two arguments must be strings"
  end.

(** [PushClosure] and [PushEfunClosure] differ in their messages and in
    [forceEfun]. *)
Definition exec_closure (opname : string) (force : bool) : R ctl :=
  match poolAt (stringPool pr) (operand i) with
  | None => error (opname +:+ ": bad function name index")
  | Some funcName =>
      size <- stackSize ;;
      guard (argsInRange (argCount i) size) (opname +:+ ": bad bound-arg count for " +:+ funcName) ;;
      bound <- takeArgs (Z.to_nat (argCount i)) ;;
      c <- allocClosure (newClosure <| owner := Some obj |> <| functionName := funcName |>
                                     <| forceEfun := force |> <| boundArgs := bound |>) ;;
      pushNext c
  end.

Definition exec_Pop : R ctl :=
  modFr (fun f => f <| localStack ::= tail |>) ;; next.

Definition exec_Dup : R ctl :=
  require 1 "Dup: stack underflow" ;;
  st <- getFr localStack ;;
  pushNext (nthV 0 st).

Definition exec_Return : R ctl :=
  st <- getFr localStack ;;
  mret (Returned (nthV 0 st)).
End Run.
