(* ===== verification/ExecFacts.v ===== *)
(** * ExecFacts: what the opcodes compute

    Theorems on the handlers of Exec.v and ExecIndex.v: integer arithmetic and
    its limits, shifts, array operators, mapping merge and assignment, element
    access through aliases, ranges, and spread arguments. *)
From S2P Require Import Prelude CLib Double DoubleFacts Value Bytecode Lookup Machine Sscanf Exec ExecIndex.
From Stdlib Require Import Floats.SpecFloat.
Local Open Scope Z_scope.

(** The state after a handler replaced the operands by [v] and moved on. *)
Definition pushed (v : Value) (st : list Value) (s : RunState) : RunState :=
  s <| fr ::= fun f => f <| localStack := v :: st |> <| ip ::= S |> |>.
Definition withStack (st : list Value) (s : RunState) : RunState :=
  s <| fr ::= fun f => f <| localStack := st |> |>.

Lemma pop_spec s v st : localStack (fr s) = v :: st -> pop s = (Ok v, withStack st s).
Proof. intros E. unfold pop. by rewrite E. Qed.

Lemma require_spec s n msg :
  (n <= length (localStack (fr s)))%nat -> require n msg s = (Ok tt, s).
Proof.
  intros H. unfold require, stackSize, getFr, mgets, mbind, guard.
  by destruct (Nat.leb_spec n (length (localStack (fr s)))); [|lia].
Qed.

Lemma pop2_spec s msg l r st :
  localStack (fr s) = r :: l :: st -> pop2 msg s = (Ok (l, r), withStack st s).
Proof.
  intros E. unfold pop2. unfold mbind at 1. rewrite require_spec by (rewrite E; simpl; lia).
  unfold mbind at 1. rewrite (pop_spec _ _ _ E). unfold mbind at 1.
  by rewrite (pop_spec _ l st).
Qed.

Lemma pushNext_spec v st s : pushNext v (withStack st s) = (Ok Continue, pushed v st s).
Proof. done. Qed.

(** ** Integer arithmetic *)

(** The mathematical result of an integer operator, where it has one. *)
Definition exactResult (o : OpCode) (x y : Z) : option Z :=
  match o with
  | Add => Some (x + y)
  | Sub => Some (x - y)
  | Mul => Some (x * y)
  | Mod => if y =? 0 then None else Some (Z.rem x y)
  | _ => None
  end.

(** The handler the [switch] picks. *)
Definition execArith (i : Instruction) : R ctl :=
  match op i with Add => exec_Add | _ => exec_arith i end.

Lemma operand_int x : asArithmeticOperand (VInt x) = Some (Dbl.of_int64 x).
Proof. reflexivity. Qed.

Definition castResult (d : double) : R Value := z <- lift (Dbl.to_int64 d) ;; mret (VInt z).

Lemma castResult_spec d z s :
  small z -> Dbl.trunc d = Some z -> castResult d s = (Ok (VInt z), s).
Proof. intros Hz Hd. unfold castResult, lift, mlift, mbind. by rewrite (to_int64_trunc d z). Qed.

Lemma addValues_int x y :
  addValues (VInt x) (VInt y) = castResult (Dbl.add (Dbl.of_int64 x) (Dbl.of_int64 y)).
Proof. reflexivity. Qed.

(** The double operation behind an integer operator. *)
Definition doubleOp (o : OpCode) (l r : double) : double :=
  match o with
  | Sub => Dbl.sub l r | Mul => Dbl.mul l r | Div => Dbl.div l r | Mod => Dbl.fmod l r
  | _ => Dbl.zero
  end.

Lemma arithmetic_int i x y s :
  bool_decide (op i = Div \/ op i = Mod) && Dbl.eqb (Dbl.of_int64 y) Dbl.zero = false ->
  arithmetic i (VInt x) (VInt y) s
  = castResult (doubleOp (op i) (Dbl.of_int64 x) (Dbl.of_int64 y)) s.
Proof.
  intros H. unfold arithmetic. rewrite !operand_int. cbv iota. by rewrite H.
Qed.

Lemma exec_arith_int i s st x y :
  localStack (fr s) = VInt y :: VInt x :: st ->
  exec_arith i s = (v <- arithmetic i (VInt x) (VInt y) ;; pushNext v) (withStack st s).
Proof.
  intros E. unfold exec_arith. unfold mbind at 1. rewrite (pop2_spec _ _ _ _ _ E).
  by destruct (op i).
Qed.

Lemma eqb_zero y : small y -> y <> 0 -> Dbl.eqb (small_rep y) Dbl.zero = false.
Proof.
  intros Hy Ny. unfold Dbl.eqb, SFeqb. change Dbl.zero with (small_rep 0).
  rewrite compare_exact by done. destruct (Z.compare_spec y 0); [lia|done|done].
Qed.

(** C29: on integers of at most 53 bits whose exact result also has at most 53
    bits, [+], [-], [*] and [%] push that result (truncated remainder for [%])
    although the driver computes them on doubles. *)
Theorem integer_arithmetic_exact i s st x y z :
  localStack (fr s) = VInt y :: VInt x :: st ->
  small x -> small y -> small z -> exactResult (op i) x y = Some z ->
  execArith i s = (Ok Continue, pushed (VInt z) st s).
Proof.
  intros E Hx Hy Hz Hop. unfold execArith.
  assert (forall d, Dbl.trunc d = Some z ->
    (v <- castResult d ;; pushNext v) (withStack st s) = (Ok Continue, pushed (VInt z) st s)) as Hc.
  { intros d Hd. unfold mbind. rewrite (castResult_spec d z) by done. apply pushNext_spec. }
  assert (forall o, op i = o -> o <> Add ->
    bool_decide (o = Div \/ o = Mod) && Dbl.eqb (Dbl.of_int64 y) Dbl.zero = false ->
    Dbl.trunc (doubleOp o (Dbl.of_int64 x) (Dbl.of_int64 y)) = Some z ->
    exec_arith i s = (Ok Continue, pushed (VInt z) st s)) as Ha.
  { intros o <- _ Hb Hd. rewrite (exec_arith_int _ _ _ _ _ E). unfold mbind.
    rewrite arithmetic_int by done. by apply Hc. }
  rewrite !of_int64_small in Ha by done.
  destruct (op i) eqn:Eop; try done; simpl in Hop.
  - injection Hop as <-. unfold exec_Add. unfold mbind at 1. rewrite (pop2_spec _ _ _ _ _ E).
    cbn [fst snd]. rewrite addValues_int, !of_int64_small by done. apply Hc.
    rewrite add_exact by done. by apply trunc_small.
  - injection Hop as <-. apply (Ha Sub); try done. simpl. rewrite sub_exact by done.
    by apply trunc_small.
  - injection Hop as <-. apply (Ha Mul); try done. by apply mul_trunc.
  - destruct (Z.eqb_spec y 0) as [|Ny]; [done|]. injection Hop as <-.
    apply (Ha Mod); try done; [by rewrite eqb_zero|by apply fmod_trunc].
Qed.

(** The truth an integer comparison should have. *)
Definition exactCompare (o : OpCode) (x y : Z) : option bool :=
  match o with
  | Lt => Some (x <? y) | Lte => Some (x <=? y) | Gt => Some (y <? x) | Gte => Some (y <=? x)
  | _ => None
  end.

(** The ordering operators decide the integer order exactly on integers of
    at most 53 bits. *)
Theorem integer_comparison_exact i s st x y b :
  localStack (fr s) = VInt y :: VInt x :: st ->
  small x -> small y -> exactCompare (op i) x y = Some b ->
  exec_compare i s = (Ok Continue, pushed (VBool b) st s).
Proof.
  intros E Hx Hy Hop. unfold exec_compare. unfold mbind at 1. rewrite (pop2_spec _ _ _ _ _ E).
  simpl fst; simpl snd. cbn [fst snd]. rewrite !operand_int. cbv iota.
  rewrite !of_int64_small by done. unfold Dbl.ltb, Dbl.leb, SFltb, SFleb. rewrite !compare_exact by done.
  rewrite pushNext_spec. do 3 f_equal.
  destruct (op i); try done; injection Hop as <-;
    unfold Z.ltb, Z.leb; rewrite ?(Z.compare_antisym x y); by destruct (x ?= y).
Qed.

(** ** Mapping merge *)
Section Merge.
Context (right : Mapping) (Hr : Mapping_wf right) (Hrk : keys_ok right).

(** The extra columns of the entry at [ri], as the merge computes them. *)
Definition mergeRow (ri : nat) (result : Mapping) : list Value :=
  match extraColumns right with
  | [] => replicate (Z.to_nat (width result - 1)) Void
  | xs => nth ri xs []
  end.

Lemma mergeRow_spec ri result :
  width result = width right -> (ri < length (entries right))%nat -> 1 < width right ->
  mergeRow ri result = default [] (extraColumns right !! ri) /\
  Z.of_nat (length (mergeRow ri result)) = width right - 1.
Proof using Hr.
  intros Hw Hri Hwide. destruct Hr as [_ _ H]. destruct (H Hwide) as [Hlen Hrows].
  assert (mergeRow ri result = default [] (extraColumns right !! ri)) as E.
  { unfold mergeRow. rewrite <- nth_lookup. destruct (extraColumns right); [|done].
    simpl in Hlen. lia. }
  split; [done|]. rewrite E. destruct (lookup_lt_is_Some_2 (extraColumns right) ri) as [row Erow];
    [lia|]. rewrite Erow. by apply (Forall_lookup_1 _ _ _ _ Hrows Erow).
Qed.

Lemma keys_app es k v :
  map (fun e : Value * Value => data (fst e)) (es ++ [(k, v)])
  = map (fun e => data (fst e)) es ++ [data k].
Proof using. by rewrite map_app. Qed.

Lemma keys_data_alter es i (f : Value * Value -> Value * Value) :
  (forall e, fst (f e) = fst e) ->
  map (fun e => data (fst e)) (alter f i es) = map (fun e => data (fst e)) es.
Proof using.
  intros Hf. rewrite <- !(map_map fst data). by rewrite keys_alter.
Qed.

Lemma plain_alter es i (f : Value * Value -> Value * Value) :
  (forall e, fst (f e) = fst e) ->
  Forall (fun e => plain (fst e) = true) es -> Forall (fun e => plain (fst e) = true) (alter f i es).
Proof using.
  intros Hf F. apply Forall_alter; [done|]. intros x _ Hx. by rewrite Hf.
Qed.

(** The merged mapping stays well formed. *)
Lemma mergeEntry_wf ri result :
  Mapping_wf result -> keys_ok result -> width result = width right ->
  Mapping_wf (mergeEntry right ri result) /\ keys_ok (mergeEntry right ri result) /\
  width (mergeEntry right ri result) = width right.
Proof using Hr Hrk.
  intros W [Kp Kn] Hw. unfold mergeEntry.
  destruct (entries right !! ri) as [[k v]|] eqn:Er; [|by split_and!].
  assert (ri < length (entries right))%nat as Hri by (by eapply lookup_lt_Some).
  assert (plain k = true) as Hk by (by apply (Forall_lookup_1 _ _ _ _ (proj1 Hrk) Er)).
  fold (mergeRow ri result). destruct W as [W1 W2 W3].
  destruct (findKey k (entries result)) as [li|] eqn:Ef.
  - split; [|split].
    + destruct (extraColumns result) as [|x xs] eqn:Ex; constructor; try done; simpl.
      * intros Hwide. destruct (W3 Hwide). by rewrite Ex, length_alter.
      * intros Hn. by specialize (W2 Hn).
      * intros Hwide. destruct (W3 Hwide) as [L F]. rewrite length_alter.
        split; [by rewrite <- L, <- (length_insert (x :: xs) li (mergeRow ri result))|].
        apply (Forall_insert _ (x :: xs)); [done|].
        destruct (mergeRow_spec ri result Hw Hri ltac:(lia)) as [_ ->]. lia.
    + destruct (extraColumns result); split; simpl;
        try (apply plain_alter; [by intros []|done]);
        rewrite keys_data_alter; done || by intros [].
    + by destruct (extraColumns result).
  - pose proof (findKey_none _ _ Kp Ef) as Nin.
    assert (NoDup (map (fun e => data (fst e)) (entries result ++ [(k, v)]))) as ND.
    { rewrite keys_app. apply list.NoDup_app. split_and!; [done| |apply NoDup_singleton].
      intros x Hx Hx'. apply list_elem_of_singleton in Hx'. by subst. }
    assert (Forall (fun e => plain (fst e) = true) (entries result ++ [(k, v)])) as Fp.
    { apply Forall_app. split; [done|]. by constructor. }
    destruct (Z.ltb_spec 1 (width result)) as [Hwide|Hnarrow].
    + split_and!; [|by split|done]. destruct (W3 Hwide) as [L F].
      constructor; simpl; [done|lia|]. intros _. rewrite !length_app, L. split; [done|].
      apply Forall_app. split; [done|]. constructor; [|done].
      destruct (mergeRow_spec ri result Hw Hri ltac:(lia)) as [_ ->]. lia.
    + split_and!; [|by split|done]. constructor; simpl; [done|done|lia].
Qed.

(** One merged entry is found under its key; the others are untouched. *)
Lemma mergeEntry_lookup ri result k v key col :
  Mapping_wf result -> keys_ok result -> width result = width right ->
  entries right !! ri = Some (k, v) -> 0 <= col < width right ->
  lookupColumn (mergeEntry right ri result) key col =
  if decide (data key = data k) then Some (getColumn right ri col)
  else lookupColumn result key col.
Proof using Hr Hrk.
  intros W [Kp Kn] Hw Er Hcol.
  assert (ri < length (entries right))%nat as Hri by (by eapply lookup_lt_Some).
  assert (plain k = true) as Hk by (by apply (Forall_lookup_1 _ _ _ _ (proj1 Hrk) Er)).
  destruct W as [W1 W2 W3]. unfold mergeEntry. rewrite Er. fold (mergeRow ri result).
  assert (getColumn right ri col = if col <=? 0 then v else nthV (Z.to_nat (col - 1)) (mergeRow ri result))
    as Hget.
  { rewrite getColumn_lookup, Er. destruct (Z.leb_spec col 0); [done|].
    unfold nthV. rewrite nth_lookup. by rewrite (proj1 (mergeRow_spec ri result Hw Hri ltac:(lia))). }
  rewrite Hget. unfold lookupColumn.
  destruct (findKey k (entries result)) as [li|] eqn:Ef.
  - pose proof (findKey_lt _ _ _ Ef) as Hli.
    set (r' := match extraColumns result with [] => _ | _ => _ end).
    assert (entries r' = alter (fun '(k', _) => (k', v)) li (entries result)) as Ee
      by (subst r'; by destruct (extraColumns result)).
    assert (1 < width right -> extraColumns r' = <[li := mergeRow ri result]> (extraColumns result)) as Ex
      by (intros _; subst r'; destruct (extraColumns result) eqn:Ex0; simpl; by rewrite ?Ex0).
    rewrite Ee, findKey_alter by (by intros []).
    destruct (decide (data key = data k)) as [E|N].
    + rewrite (findKey_data key k), Ef by done. simpl. f_equal. rewrite getColumn_lookup, Ee.
      rewrite list_lookup_alter_eq. destruct (Z.leb_spec col 0).
      * destruct (lookup_lt_is_Some_2 _ _ Hli) as [[k1 v1] ->]. done.
      * rewrite Ex by lia. rewrite list_lookup_insert_eq by (rewrite (proj1 (W3 ltac:(lia))); done).
        unfold nthV. by rewrite nth_lookup.
    + destruct (findKey key (entries result)) as [i|] eqn:Ei; [|done]. simpl. f_equal.
      assert (li <> i) as Nli.
      { intros <-. destruct (findKey_spec _ _ _ Kp Ef) as (? & ? & L1 & D1).
        destruct (findKey_spec _ _ _ Kp Ei) as (? & ? & L2 & D2). congruence. }
      rewrite !getColumn_lookup, Ee, list_lookup_alter_ne by done.
      destruct (Z.leb_spec col 0); [done|]. rewrite Ex by lia. by rewrite list_lookup_insert_ne.
  - set (r' := if 1 <? width result then _ else _).
    assert (entries r' = entries result ++ [(k, v)]) as Ee
      by (subst r'; by destruct (1 <? width result)).
    assert (1 < width right -> extraColumns r' = extraColumns result ++ [mergeRow ri result]) as Ex.
    { intros Hwide. subst r'. by destruct (Z.ltb_spec 1 (width result)); [|lia]. }
    rewrite Ee, findKey_app. simpl. rewrite valuesEqual_plain by done.
    destruct (decide (data key = data k)) as [E|N].
    + rewrite (findKey_data key k), Ef by done. rewrite bool_decide_true by done. simpl. f_equal.
      rewrite getColumn_lookup, Ee, Nat.add_0_r. destruct (Z.leb_spec col 0).
      * by rewrite list_lookup_middle.
      * rewrite Ex, <- (proj1 (W3 ltac:(lia))) by lia. rewrite list_lookup_middle by done.
        unfold nthV. by rewrite nth_lookup.
    + rewrite bool_decide_false by done.
      destruct (findKey key (entries result)) as [i|] eqn:Ei; [|done]. simpl. f_equal.
      pose proof (findKey_lt _ _ _ Ei) as Hi.
      rewrite !getColumn_lookup, Ee, lookup_app_l by done.
      destruct (Z.leb_spec col 0); [done|]. rewrite Ex by lia.
      by rewrite lookup_app_l by (rewrite (proj1 (W3 ltac:(lia))); done).
Qed.
End Merge.

(** The merge of the first [n] entries of the right operand. *)
Definition mergeFirst (left right : Mapping) (n : nat) : Mapping :=
  foldl (fun acc ri => mergeEntry right ri acc) left (seq 0 n).

Lemma mergeFirst_S left right n :
  mergeFirst left right (S n) = mergeEntry right n (mergeFirst left right n).
Proof. unfold mergeFirst. by rewrite seq_S, foldl_app. Qed.

Lemma mergeFirst_wf left right n :
  Mapping_wf left -> Mapping_wf right -> keys_ok left -> keys_ok right -> width left = width right ->
  Mapping_wf (mergeFirst left right n) /\ keys_ok (mergeFirst left right n) /\
  width (mergeFirst left right n) = width right.
Proof.
  intros Wl Wr Kl Kr Hw. induction n as [|n (IH1 & IH2 & IH3)]; [by split_and!|].
  rewrite mergeFirst_S. by apply mergeEntry_wf.
Qed.

Lemma mergeFirst_lookup left right n key col :
  Mapping_wf left -> Mapping_wf right -> keys_ok left -> keys_ok right -> width left = width right ->
  0 <= col < width right -> (n <= length (entries right))%nat ->
  lookupColumn (mergeFirst left right n) key col =
  match findKey key (entries right) with
  | Some i => if decide (i < n)%nat then Some (getColumn right i col) else lookupColumn left key col
  | None => lookupColumn left key col
  end.
Proof.
  intros Wl Wr Kl Kr Hw Hcol. induction n as [|n IH]; intros Hn.
  { destruct (findKey key (entries right)); [|done]. by destruct (decide (_ < 0)%nat); [lia|]. }
  destruct (mergeFirst_wf left right n Wl Wr Kl Kr Hw) as (W & K & E).
  destruct (lookup_lt_is_Some_2 (entries right) n) as [[k v] Ek]; [lia|].
  rewrite mergeFirst_S, (mergeEntry_lookup right Wr Kr n _ k v) by done.
  specialize (IH ltac:(lia)). destruct Kr as [Kp Kn]. destruct (decide (data key = data k)) as [D|D].
  - rewrite (findKey_nodup key v (entries right) n k) by done. by destruct (decide _); [|lia].
  - rewrite IH. destruct (findKey key (entries right)) as [i|] eqn:Ei; [|done].
    destruct (findKey_spec _ _ _ Kp Ei) as (k' & v' & L & D').
    assert (i <> n) by (intros ->; congruence).
    destruct (decide (i < n)%nat), (decide (i < S n)%nat); try lia; done.
Qed.

(** Mapping addition.  For well-formed mappings of equal width with plain
    keys, the merged mapping is well formed, has no duplicate keys, and every
    column of every key is the right operand's where it has the key and the left
    operand's otherwise. *)
Theorem mergeMapping_spec left right :
  Mapping_wf left -> Mapping_wf right -> keys_ok left -> keys_ok right -> width left = width right ->
  Mapping_wf (mergeMapping left right) /\ keys_ok (mergeMapping left right) /\
  forall key col, 0 <= col < width right ->
    lookupColumn (mergeMapping left right) key col =
    match lookupColumn right key col with
    | Some v => Some v
    | None => lookupColumn left key col
    end.
Proof.
  intros Wl Wr Kl Kr Hw. change (mergeMapping left right)
    with (mergeFirst left right (length (entries right))).
  destruct (mergeFirst_wf left right (length (entries right)) Wl Wr Kl Kr Hw) as (W & K & E).
  split; [done|]. split; [done|]. intros key col Hcol.
  rewrite mergeFirst_lookup by done. unfold lookupColumn.
  destruct (findKey key (entries right)) as [i|] eqn:Ei; [|done].
  apply findKey_lt in Ei. by destruct (decide _); [|lia].
Qed.

Lemma getColumn_setColumn m i c col value :
  Mapping_wf m -> (i < length (entries m))%nat -> 0 <= c < width m -> 0 <= col < width m ->
  getColumn (setColumn m i c value) i col = if decide (col = c) then value else getColumn m i col.
Proof.
  intros [_ _ W] Hi Hc Hcol. unfold setColumn. rewrite !getColumn_lookup.
  destruct (lookup_lt_is_Some_2 _ _ Hi) as [[k v] Ek].
  destruct (Z.leb_spec c 0), (Z.leb_spec col 0); simpl.
  - rewrite list_lookup_alter_eq, Ek. by destruct (decide _); [|lia].
  - by destruct (decide _); [lia|].
  - by destruct (decide _); [lia|].
  - rewrite list_lookup_alter_eq. destruct (W ltac:(lia)) as [L F].
    destruct (lookup_lt_is_Some_2 (extraColumns m) i) as [row Er]; [lia|]. rewrite Er. simpl.
    pose proof (Forall_lookup_1 _ _ _ _ F Er) as Hlen. simpl in Hlen.
    destruct (decide (col = c)) as [->|N].
    + by rewrite list_lookup_insert_eq by lia.
    + rewrite list_lookup_insert_ne by lia. done.
Qed.

Lemma getColumn_setColumn_ne m i j c col value :
  i <> j -> getColumn (setColumn m i c value) j col = getColumn m j col.
Proof.
  intros N. unfold setColumn. rewrite !getColumn_lookup.
  destruct (Z.leb_spec c 0), (Z.leb_spec col 0); simpl; rewrite ?list_lookup_alter_ne by done; done.
Qed.

Lemma setColumn_keys m i c value key :
  findKey key (entries (setColumn m i c value)) = findKey key (entries m).
Proof. unfold setColumn. destruct (c <=? 0); [|done]. simpl. apply findKey_alter. by intros []. Qed.

Lemma appendEntry_lookup_new m key col vals :
  Mapping_wf m -> keys_ok m -> plain key = true -> findKey key (entries m) = None ->
  Z.of_nat (length vals) = width m -> 0 <= col < width m ->
  lookupColumn (appendEntry m key vals) key col = Some (nthV (Z.to_nat col) vals).
Proof.
  intros [W1 W2 W3] [Kp Kn] Hk Hf Hlen Hcol. unfold lookupColumn.
  assert (entries (appendEntry m key vals) = entries m ++ [(key, nthV 0 vals)]) as Ee.
  { unfold appendEntry. destruct vals; destruct (1 <? width m); done. }
  rewrite Ee, findKey_app, Hf. simpl. rewrite valuesEqual_plain, bool_decide_true by done.
  simpl. f_equal. rewrite getColumn_lookup, Ee, Nat.add_0_r.
  destruct (Z.leb_spec col 0).
  - rewrite list_lookup_middle by done. by replace col with 0 by lia.
  - destruct (W3 ltac:(lia)) as [L _]. unfold appendEntry.
    destruct (Z.ltb_spec 1 (width m)); [|lia]. simpl. rewrite <- L, list_lookup_middle by done.
    simpl. rewrite list_lookup_fmap, lookup_seq_lt by lia. simpl.
    replace (Z.to_nat col) with (S (Z.to_nat (col - 1))) by lia. unfold nthV. rewrite nth_lookup.
    destruct (lookup_lt_is_Some_2 vals (S (Z.to_nat (col - 1)))) as [v ->]; [lia|done].
Qed.

Lemma appendEntry_lookup_old m key key' col vals :
  Mapping_wf m -> keys_ok m -> plain key = true -> data key' <> data key -> 0 <= col < width m ->
  lookupColumn (appendEntry m key vals) key' col = lookupColumn m key' col.
Proof.
  intros [W1 W2 W3] [Kp Kn] Hk Hn Hcol. unfold lookupColumn.
  assert (exists v, entries (appendEntry m key vals) = entries m ++ [(key, v)]) as [v Ee].
  { unfold appendEntry. destruct (1 <? width m); eexists; reflexivity. }
  rewrite Ee, findKey_app. simpl. rewrite valuesEqual_plain, bool_decide_false by done. simpl.
  destruct (findKey key' (entries m)) as [i|] eqn:Ei; [|done]. simpl. f_equal.
  pose proof (findKey_lt _ _ _ Ei). rewrite !getColumn_lookup, Ee, lookup_app_l by done.
  destruct (Z.leb_spec col 0); [done|]. destruct (W3 ltac:(lia)) as [L _].
  unfold appendEntry. destruct (Z.ltb_spec 1 (width m)); [|lia]. simpl.
  by rewrite lookup_app_l by lia.
Qed.

(** Mapping assignment [m[key, c] = value].  Afterwards that cell reads
    [value], the other columns of a key that was present are unchanged, those of
    a new key are 0, and every other key reads as before. *)
Theorem mapAssign_spec m key c value key' col :
  Mapping_wf m -> keys_ok m -> plain key = true -> 0 <= c < width m -> 0 <= col < width m ->
  lookupColumn (mapAssign m key c value) key' col =
  if decide (data key' = data key) then
    if decide (col = c) then Some value
    else Some (default (VInt 0) (lookupColumn m key col))
  else lookupColumn m key' col.
Proof.
  intros W K Hk Hc Hcol. unfold mapAssign.
  destruct (findKey key (entries m)) as [i|] eqn:Ei.
  - pose proof (findKey_lt _ _ _ Ei). pose proof (proj1 K) as Kp.
    unfold lookupColumn. rewrite setColumn_keys. destruct (decide (data key' = data key)) as [D|D].
    + rewrite (findKey_data key' key), Ei by done. simpl.
      rewrite getColumn_setColumn by done. by destruct (decide _).
    + destruct (findKey key' (entries m)) as [j|] eqn:Ej; [|done]. simpl. f_equal.
      apply getColumn_setColumn_ne. intros <-.
      destruct (findKey_spec _ _ _ Kp Ei) as (? & ? & L1 & D1).
      destruct (findKey_spec _ _ _ Kp Ej) as (? & ? & L2 & D2). congruence.
  - destruct (decide (data key' = data key)) as [D|D]; [|by apply appendEntry_lookup_old].
    set (vals := <[Z.to_nat c := value]> (replicate (Z.to_nat (width m)) (VInt 0))).
    assert (Z.of_nat (length vals) = width m) as Hl.
    { subst vals. rewrite length_insert, length_replicate. lia. }
    assert (lookupColumn (appendEntry m key vals) key' col
            = lookupColumn (appendEntry m key vals) key col) as ->.
    { unfold lookupColumn. f_equal. apply findKey_data; [|done]. destruct K as [Kp _].
      unfold appendEntry. destruct (1 <? width m); simpl; apply Forall_app; (split; [done|]);
        by constructor. }
    rewrite appendEntry_lookup_new by done. unfold lookupColumn. rewrite Ei. simpl.
    unfold nthV. rewrite nth_lookup. subst vals. destruct (decide (col = c)) as [->|N].
    + rewrite list_lookup_insert_eq by (rewrite length_replicate; lia). done.
    + rewrite list_lookup_insert_ne by lia. rewrite lookup_replicate_2 by lia. done.
Qed.

(** ** The limits of integer arithmetic *)
Definition opInstr (o : OpCode) : Instruction := mkInstr o 0 0.
Definition emptyVM : VMState := newVM (configFor "fluffos" 1000) ∅ ∅.
Definition stackState (st : list Value) : RunState :=
  mkRun emptyVM {| locals := []; localStack := st; pendingVarargsDelta := 0; ip := 0; catchFrames := [] |}.

(** Beyond 53 bits the result of integer [+] is not the sum: 2^53 + 1 gives
    2^53, and adding 0 to the largest 64-bit integer has undefined behaviour
    (the double it becomes does not fit an [int64_t]). *)
Theorem integer_addition_lossy :
  exec_Add (stackState [VInt 1; VInt (2 ^ 53)])
    = (Ok Continue, pushed (VInt (2 ^ 53)) [] (stackState [])) /\
  fst (exec_Add (stackState [VInt 0; VInt INT64_MAX])) = Undefined "double to int64_t out of range".
Proof. split; vm_compute; reflexivity. Qed.

Lemma shiftr_in_int64 x y : in_int64 x = true -> 0 <= y -> in_int64 (x / 2 ^ y) = true.
Proof.
  rewrite !in_int64_spec. unfold INT64_MIN, INT64_MAX. intros Hx Hy.
  assert (1 <= 2 ^ y) by (pose proof (Z.pow_pos_nonneg 2 y); lia).
  split; [apply Z.div_le_lower_bound; nia|].
  destruct (Z.le_gt_cases 0 x) as [P|N].
  - transitivity x; [apply Z.div_le_upper_bound; nia|lia].
  - assert (x / 2 ^ y < 0) by (apply Z.div_lt_upper_bound; lia). lia.
Qed.

(** [<<] and [>>].  For a count between 0 and 63 the left shift pushes
    x * 2^y reduced to 64 bits and the right shift pushes floor(x / 2^y), both
    64-bit integers again; any other count is undefined behaviour. *)
Theorem shift_spec i s st x y :
  localStack (fr s) = VInt y :: VInt x :: st -> op i = Shl \/ op i = Shr -> in_int64 x = true ->
  if (0 <=? y) && (y <? 64) then
    exists z, exec_Shift i s = (Ok Continue, pushed (VInt z) st s) /\ in_int64 z = true /\
      z = if decide (op i = Shl) then wrap64 (x * 2 ^ y) else x / 2 ^ y
  else exec_Shift i s = (Undefined "shift count out of range", withStack st s).
Proof.
  intros E Hop Hx. unfold exec_Shift. unfold mbind. rewrite (pop2_spec _ _ _ _ _ E). simpl.
  destruct (Z.leb_spec 0 y), (Z.ltb_spec y 0), (Z.leb_spec 64 y), (Z.ltb_spec y 64);
    try lia; simpl; try done.
  rewrite Z.shiftl_mul_pow2, Z.shiftr_div_pow2 by lia. eexists. split; [reflexivity|].
  split; [|done]. destruct (decide _); [apply wrap64_in|by apply shiftr_in_int64].
Qed.

(** ** Arrays *)

Definition readItems (s : RunState) (l : option loc) : list Value :=
  match l with Some p => items (hp (vm s)) p | None => [] end.

(** The array a handler pushed. *)
Definition pushedArray (s s' : RunState) (st xs : list Value) : Prop :=
  localStack (fr s') = V (Arr (Some (nextLoc (hp (vm s))))) :: st /\
  hp (vm s') = snd (newArray xs (hp (vm s))) /\ ip (fr s') = S (ip (fr s)).

(** Array [-] and [&] build a new array with the elements of the left
    operand, in order and with their repetitions, that are equal to no element,
    respectively to some element, of the right operand. *)
Theorem array_set_operators s st l r :
  localStack (fr s) = V (Arr r) :: V (Arr l) :: st ->
  (exists s' ys, exec_arith (opInstr Sub) s = (Ok Continue, s') /\ pushedArray s s' st ys /\
     ys `sublist_of` readItems s l /\
     forall v, v ∈ ys <-> v ∈ readItems s l /\ forall w, w ∈ readItems s r -> valuesEqual v w = false) /\
  (exists s' ys, exec_BitAnd s = (Ok Continue, s') /\ pushedArray s s' st ys /\
     ys `sublist_of` readItems s l /\
     forall v, v ∈ ys <-> v ∈ readItems s l /\ exists w, w ∈ readItems s r /\ valuesEqual v w = true).
Proof.
  intros E.
  assert (forall p : Value -> bool, List.filter p (readItems s l) `sublist_of` readItems s l) as Hsub.
  { intros p. induction (readItems s l) as [|x xs IH]; simpl; [done|].
    destruct (p x); by constructor. }
  assert (forall v, memberOf (readItems s r) v = true <->
            exists w, w ∈ readItems s r /\ valuesEqual v w = true) as Hmem.
  { intros v. unfold memberOf. rewrite existsb_exists. by setoid_rewrite list_elem_of_In. }
  split.
  - unfold exec_arith. unfold mbind at 1. rewrite (pop2_spec _ _ _ _ _ E). simpl.
    eexists _, _. split; [reflexivity|]. split; [split_and!; reflexivity|]. split; [apply Hsub|].
    intros v. rewrite list_elem_of_In, filter_In, negb_true_iff, <- list_elem_of_In.
    fold (readItems s l) (readItems s r).
    split; intros [H1 H2]; (split; [done|]).
    + intros w Hw. apply not_true_is_false. intros T. apply not_true_iff_false in H2.
      apply H2, Hmem. eauto.
    + apply not_true_is_false. rewrite Hmem. intros (w & Hw & T). by rewrite (H2 w Hw) in T.
  - unfold exec_BitAnd. unfold mbind at 1. rewrite (pop2_spec _ _ _ _ _ E). simpl.
    eexists _, _. split; [reflexivity|]. split; [split_and!; reflexivity|]. split; [apply Hsub|].
    intros v. rewrite list_elem_of_In, filter_In, <- list_elem_of_In, <- Hmem. done.
Qed.

Lemma poolAt_in {A} (xs : list A) k x :
  poolAt xs k = Some x <-> 0 <= k /\ xs !! Z.to_nat k = Some x.
Proof.
  unfold poolAt. destruct (Z.ltb_spec k 0); split; [done|lia|done|by intros []].
Qed.

(** The heap with array [p] replaced. *)
Definition withArray (p : loc) (xs : list Value) (s : RunState) : RunState :=
  s <| vm ::= fun v => v <| hp ::= fun h => h <| arrays ::= <[p := xs]> |> |> |>.

Lemma exec_IndexAssign_array i s st p xs k value :
  localStack (fr s) = value :: VInt k :: V (Arr (Some p)) :: st -> flag i 4 = false ->
  arrays (hp (vm s)) !! p = Some xs -> 0 <= k < Z.of_nat (length xs) ->
  exec_IndexAssign i s = (Ok Continue,
    withArray p (<[Z.to_nat k := value]> xs) (withStack st s) <| fr ::= fun f => f <| ip ::= S |> |>).
Proof.
  intros E Hf Hp Hk. unfold exec_IndexAssign. rewrite Hf.
  rewrite (mbind_run _ _ s tt s) by (apply require_spec; rewrite E; simpl; lia).
  erewrite mbind_run by (by apply pop_spec). erewrite mbind_run by reflexivity.
  erewrite mbind_run by (by apply pop_spec). erewrite mbind_run by (by apply pop_spec).
  simpl. unfold assignArray. simpl. unfold mbind, getVm, mgets. simpl. unfold items. rewrite Hp. simpl.
  destruct (lookup_lt_is_Some_2 xs (Z.to_nat k)) as [x Ex]; [lia|].
  assert (poolAt xs k = Some x) as -> by (apply poolAt_in; split; [lia|done]). done.
Qed.

(** Arrays are shared.  After [a[k] = value] through one reference, reading
    any valid index through any reference to the same array gives [value] at [k]
    and the former element elsewhere (0 in place of a destructed object). *)
Theorem array_assign_visible i i' s st p xs k value s1 s2 st2 j :
  localStack (fr s) = value :: VInt k :: V (Arr (Some p)) :: st -> flag i 4 = false ->
  arrays (hp (vm s)) !! p = Some xs -> 0 <= k < Z.of_nat (length xs) ->
  exec_IndexAssign i s = (Ok Continue, s1) ->
  vm s2 = vm s1 -> localStack (fr s2) = VInt j :: V (Arr (Some p)) :: st2 ->
  flag i' 4 = false -> flag i' 1 = false -> 0 <= j < Z.of_nat (length xs) ->
  exists s3, exec_Index i' s2 = (Ok Continue, s3) /\
    localStack (fr s3) =
      coerceIfDestructed (vm s1) (if decide (j = k) then value else nthV (Z.to_nat j) xs) :: st2.
Proof.
  intros E Hf Hp Hk Ha Ev E2 Hf4 Hf1 Hj.
  rewrite (exec_IndexAssign_array i s st p xs k value) in Ha by done. injection Ha as <-.
  unfold exec_Index. rewrite Hf4.
  rewrite (mbind_run _ _ s2 tt s2) by (apply require_spec; rewrite E2; simpl; lia).
  erewrite mbind_run by reflexivity. erewrite mbind_run by (by apply pop_spec).
  erewrite mbind_run by (by apply pop_spec). simpl. unfold indexArray. simpl.
  unfold mbind, getVm, mgets. simpl. rewrite Ev. unfold items. simpl. rewrite lookup_insert_eq. simpl.
  unfold fromEnd. rewrite Hf1. simpl.
  set (v := if decide (j = k) then value else nthV (Z.to_nat j) xs).
  assert (poolAt (<[Z.to_nat k := value]> xs) j = Some v) as ->.
  { apply poolAt_in. split; [lia|]. subst v. destruct (decide (j = k)) as [->|N].
    - apply list_lookup_insert_eq. lia.
    - rewrite list_lookup_insert_ne by lia. unfold nthV. rewrite nth_lookup.
      by destruct (lookup_lt_is_Some_2 xs (Z.to_nat j)) as [x ->]; [lia|]. }
  eexists. split; [reflexivity|]. simpl. by rewrite Ev.
Qed.

(** Array ranges.  [a[b..e]], either bound possibly counted from the end,
    builds a new array: its elements are those of [a] from max(start,0) to
    min(end, size-1), in order; nothing is read outside the array. *)
Theorem range_array_spec i s st p xs b e :
  localStack (fr s) = VInt e :: VInt b :: V (Arr (Some p)) :: st ->
  arrays (hp (vm s)) !! p = Some xs ->
  flag i 1 = true \/ 0 <= b ->
  let len := Z.of_nat (length xs) in
  let start := if flag i 1 then len - b else b in
  let end_ := if flag i 2 then len - e else e in
  in_int64 start = true -> in_int64 end_ = true ->
  exists s' ys, exec_RangeIndex i s = (Ok Continue, s') /\ pushedArray s s' st ys /\
    forall j, ys !! j =
      if decide (Z.max 0 start + Z.of_nat j <= Z.min end_ (len - 1))
      then xs !! (Z.to_nat (Z.max 0 start) + j)%nat else None.
Proof.
  intros E Hp Hb len start end_ Hs He. unfold exec_RangeIndex.
  rewrite (mbind_run _ _ s tt s) by (apply require_spec; rewrite E; simpl; lia).
  erewrite mbind_run by (by apply pop_spec). erewrite mbind_run by (by apply pop_spec).
  erewrite mbind_run by (by apply pop_spec). simpl. unfold mbind at 1, guard.
  assert (flag i 1 || (0 <=? b) = true) as ->.
  { destruct Hb as [->|Hb]; [done|]. destruct (Z.leb_spec 0 b); [|lia]. apply orb_true_r. }
  simpl. unfold mbind at 1, getVm, mgets. simpl. unfold items. rewrite Hp. simpl.
  assert (forall b' raw s0, in_int64 (if b' : bool then len - raw else raw) = true ->
            fromEnd b' len raw s0 = (Ok (if b' then len - raw else raw), s0)) as Hfe.
  { intros [] raw s0 H; [|done]. unfold fromEnd, lift, mlift, checked64. by rewrite H. }
  unfold resolveBounds, mbind. fold len. rewrite (Hfe (flag i 1) b) by done.
  rewrite (Hfe (flag i 2) e) by done. simpl. eexists _, _. split; [reflexivity|].
  split; [split_and!; reflexivity|]. intros j. unfold rangeLength. fold start end_.
  rewrite lookup_take. destruct (decide (j < _)%nat) as [L|L], (decide (_ <= _)) as [G|G]; try lia.
  - by rewrite lookup_drop.
  - done.
Qed.

(** ** Spread arguments *)
Lemma rev_take_app {A} (n : nat) (a b : list A) : n = length a -> rev (take n (rev a ++ b)) = a.
Proof.
  intros ->. rewrite take_app_length' by (by rewrite length_rev). apply rev_involutive.
Qed.

(** A spread argument.  With [before], an array of [xs], and [after] pushed
    in that order, [ExpandVarargs] followed by [MakeArray] of the unexpanded
    count collects exactly before ++ xs ++ after, and leaves the rest of the
    stack and no pending adjustment. *)
Theorem expand_then_collect iE iM s st p xs before after :
  localStack (fr s) = rev after ++ V (Arr (Some p)) :: rev before ++ st ->
  arrays (hp (vm s)) !! p = Some xs -> pendingVarargsDelta (fr s) = 0 ->
  operand iE = Z.of_nat (length after) -> operand iM = 0 ->
  argCount iM = Z.of_nat (length before + 1 + length after) ->
  Z.of_nat (length before + length xs + length after + 1) < 2 ^ 31 ->
  exists s', (exec_ExpandVarargs iE ;; exec_MakeArray iM) s = (Ok Continue, s') /\
    localStack (fr s') = V (Arr (Some (nextLoc (hp (vm s))))) :: st /\
    hp (vm s') = snd (newArray (before ++ xs ++ after) (hp (vm s))) /\
    pendingVarargsDelta (fr s') = 0.
Proof.
  intros E Hp Hd HE HM Hc Hsz.
  assert (exec_ExpandVarargs iE s = (Ok Continue, s <| fr ::= fun f => f
            <| localStack := rev (before ++ xs ++ after) ++ st |>
            <| pendingVarargsDelta := Z.of_nat (length xs) - 1 |> <| ip ::= S |> |>)) as HX.
  { unfold exec_ExpandVarargs. erewrite mbind_run by reflexivity.
    rewrite HE, E, length_app, length_rev. simpl length.
    destruct (Z.ltb_spec (Z.of_nat (length after)) 0); [lia|].
    destruct (Z.leb_spec (Z.of_nat (length after + length (V (Arr (Some p)) :: rev before ++ st)))
                (Z.of_nat (length after))) as [L|_]; [simpl length in L; lia|]. cbv beta iota delta [orb].
    erewrite mbind_run by reflexivity. rewrite E, Nat2Z.id. unfold nthV.
    rewrite nth_lookup, list_lookup_middle by (by rewrite length_rev). change (data (default Void (Some (V (Arr (Some p)))))) with (Arr (Some p)). cbv iota.
    erewrite mbind_run by reflexivity. simpl. unfold items. rewrite Hp. simpl default.
    rewrite take_app_length' by (by rewrite length_rev).
    replace (drop (S (length after)) (rev after ++ V (Arr (Some p)) :: rev before ++ st))
      with (rev before ++ st).
    2:{ rewrite <- (length_rev after), <- Nat.add_1_r, drop_app_add. done. }
    rewrite !rev_app_distr, <- !app_assoc. unfold mbind, mmodify, next, modFr, mret. simpl.
    destruct s as [v f]. destruct f. simpl in *. subst. unfold set_field, mbind, mmodify. simpl.
    by rewrite Z.add_0_r. }
  rewrite (mbind_run _ _ _ _ _ HX). unfold exec_MakeArray.
  assert (wrap32 (Z.of_nat (length xs) - 1) = Z.of_nat (length xs) - 1) as Hw
    by (apply wrap_id; [lia|]; change (2 ^ (32 - 1)) with (2 ^ 31);
        lia).
  assert (checked32 (E := exn) (argCount iM + (Z.of_nat (length xs) - 1))
          = Ok (Z.of_nat (length (before ++ xs ++ after)))) as Hck.
  { rewrite Hc, !length_app. unfold checked32, in_int32.
    match goal with |- (if ?b then Ok ?a else _) = _ => assert (b = true) as ->
      by (apply andb_true_iff; split; [apply Z.leb_le|apply Z.ltb_lt]; lia) end.
    f_equal. lia. }
  erewrite mbind_run.
  2:{ unfold effectiveArgCount. erewrite mbind_run by reflexivity. simpl. rewrite Hw, Hck. reflexivity. }
  erewrite mbind_run by reflexivity. simpl fr. simpl localStack.
  erewrite mbind_run.
  2:{ unfold guard, argsInRange. rewrite (length_app (rev _) st), length_rev.
      destruct (Z.ltb_spec (Z.of_nat (length (before ++ xs ++ after))) 0); [lia|].
      destruct (Z.ltb_spec (Z.of_nat (length (before ++ xs ++ after) + length st))
                  (Z.of_nat (length (before ++ xs ++ after)))); [lia|]. reflexivity. }
  erewrite mbind_run by reflexivity. simpl localStack. rewrite Nat2Z.id, rev_take_app by done.
  erewrite mbind_run by reflexivity. eexists. split; [reflexivity|]. rewrite HM. simpl.
  split_and!; [|done|done]. f_equal. by rewrite drop_app_length' by (by rewrite length_rev).
Qed.

(** ** Witnesses *)
Lemma integer_arithmetic_exact_witness :
  exec_arith (opInstr Mod) (stackState [VInt 5; VInt (-17)])
    = (Ok Continue, pushed (VInt (-2)) [] (stackState [VInt 5; VInt (-17)])).
Proof.
  apply (integer_arithmetic_exact (opInstr Mod) (stackState [VInt 5; VInt (-17)]) [] (-17) 5 (-2));
    (reflexivity || unfold small; lia).
Defined.

Lemma integer_comparison_exact_witness :
  exec_compare (opInstr Lte) (stackState [VInt 5; VInt (-17)])
    = (Ok Continue, pushed (VBool true) [] (stackState [VInt 5; VInt (-17)])).
Proof.
  apply (integer_comparison_exact (opInstr Lte) (stackState [VInt 5; VInt (-17)]) [] (-17) 5 true);
    (reflexivity || unfold small; lia).
Defined.

Lemma shift_spec_witness :
  exists z, exec_Shift (opInstr Shl) (stackState [VInt 63; VInt 3])
      = (Ok Continue, pushed (VInt z) [] (stackState [VInt 63; VInt 3])) /\
    in_int64 z = true /\ z = wrap64 (3 * 2 ^ 63).
Proof.
  apply (shift_spec (opInstr Shl) (stackState [VInt 63; VInt 3]) [] 3 63);
    [reflexivity|by left|reflexivity].
Defined.

(** Mappings of two columns with one and two entries. *)
Definition oneRow : Mapping :=
  mkMapping [(V (Str "a"), VInt 1)] 2 [[VInt 10]].
Definition twoRows : Mapping :=
  mkMapping [(V (Str "b"), VInt 2); (V (Str "a"), VInt 3)] 2 [[VInt 20]; [VInt 30]].

Lemma oneRow_ok : Mapping_wf oneRow /\ keys_ok oneRow.
Proof.
  split; constructor; simpl; try done; [by repeat constructor|by repeat constructor|].
  apply NoDup_singleton.
Defined.
Lemma twoRows_ok : Mapping_wf twoRows /\ keys_ok twoRows.
Proof.
  split; constructor; simpl; try done; [by repeat constructor|by repeat constructor|].
  apply list.NoDup_cons. split; [|apply NoDup_singleton].
  intros H%list_elem_of_singleton. discriminate H.
Defined.

Lemma mergeMapping_spec_witness :
  lookupColumn (mergeMapping oneRow twoRows) (V (Str "a")) 1 = Some (VInt 30) /\
  lookupColumn (mergeMapping twoRows oneRow) (V (Str "b")) 0 = Some (VInt 2).
Proof.
  split.
  - apply (mergeMapping_spec oneRow twoRows); (apply oneRow_ok || apply twoRows_ok || done).
  - apply (mergeMapping_spec twoRows oneRow); (apply oneRow_ok || apply twoRows_ok || done).
Defined.

Lemma mapAssign_spec_witness :
  lookupColumn (mapAssign oneRow (V (Str "z")) 1 (VInt 7)) (V (Str "z")) 0 = Some (VInt 0).
Proof.
  apply (mapAssign_spec oneRow (V (Str "z")) 1 (VInt 7) (V (Str "z")) 0);
    (apply oneRow_ok || done).
Defined.

(** A machine whose heap holds the array [xs] at location 1. *)
Definition arrayState (xs : list Value) (st : list Value) : RunState :=
  (stackState st) <| vm ::= fun v => v <| hp := snd (newArray xs emptyHeap) |> |>.
Definition arr1 : Value := V (Arr (Some 1%positive)).

Lemma array_set_operators_witness :
  let s := arrayState [VInt 1; VInt 2; VInt 1] [arr1; arr1] in
  exists s' ys, exec_arith (opInstr Sub) s = (Ok Continue, s') /\ pushedArray s s' [] ys /\
    ys `sublist_of` [VInt 1; VInt 2; VInt 1].
Proof.
  intros s.
  destruct (array_set_operators s [] (Some 1%positive) (Some 1%positive) eq_refl)
    as [(s' & ys & H1 & H2 & H3 & _) _].
  exists s', ys. split; [exact H1|]. split; [exact H2|exact H3].
Defined.

Lemma array_assign_visible_witness :
  let s := arrayState [VInt 1; VInt 2] [VInt 9; VInt 1; arr1] in
  let s1 := snd (exec_IndexAssign (opInstr IndexAssign) s) in
  exists s3, exec_Index (opInstr Index) (withStack [VInt 1; arr1] s1) = (Ok Continue, s3) /\
    localStack (fr s3) = [VInt 9].
Proof.
  intros s s1.
  apply (array_assign_visible (opInstr IndexAssign) (opInstr Index) s [] 1%positive
           [VInt 1; VInt 2] 1 (VInt 9) s1 (withStack [VInt 1; arr1] s1) [] 1);
    (reflexivity || (simpl; lia)).
Defined.

Lemma range_array_spec_witness :
  let s := arrayState [VInt 1; VInt 2; VInt 3] [VInt 7; VInt 1; arr1] in
  exists s' ys, exec_RangeIndex (opInstr RangeIndex) s = (Ok Continue, s') /\
    pushedArray s s' [] ys /\
    forall j, ys !! j = if decide (1 + Z.of_nat j <= 2)
                        then [VInt 1; VInt 2; VInt 3] !! (1 + j)%nat else None.
Proof.
  intros s.
  apply (range_array_spec (opInstr RangeIndex) s [] 1%positive [VInt 1; VInt 2; VInt 3] 1 7);
    try reflexivity. right. lia.
Defined.

Lemma expand_then_collect_witness :
  let s := arrayState [VInt 2; VInt 3] [VInt 4; arr1; VInt 1; V (Str "rest")] in
  exists s', (exec_ExpandVarargs (mkInstr ExpandVarargs 1 0) ;; exec_MakeArray (mkInstr MakeArray 0 3)) s
      = (Ok Continue, s') /\
    localStack (fr s') = [V (Arr (Some 2%positive)); V (Str "rest")].
Proof.
  intros s.
  destruct (expand_then_collect (mkInstr ExpandVarargs 1 0) (mkInstr MakeArray 0 3) s
    [V (Str "rest")] 1%positive [VInt 2; VInt 3] [VInt 1] [VInt 4])
    as (s' & H1 & H2 & _); try reflexivity.
  exists s'. split; [exact H1|exact H2].
Defined.
