(* ===== verification/Calls.v ===== *)
(** * Calls: entry points of the VM

    [callFunction], [callClosure], driver hooks, [privilegeViolation],
    [moveObject], [dispatchCommand] and [processPendingReplacePrograms] of
    src/vm/VM.cpp, over the interpreter they all end in ([VM::run], here the
    parameter [run]; VM.v closes the knot).

    [EfunTable] (src/efun) is a table from names to functions of the VM; its
    contents are a parameter. *)
From S2P Require Import Prelude CLib Double Value Bytecode Lookup Machine.
Local Open Scope Z_scope.

(** [VM::run(program, fn, args, obj)] *)
Abbreviation RunFn := (pid -> FunctionEntry -> list Value -> oid -> VM Value) (only parsing).

(** What an efun gets: the interpreter, and the fuel it may recurse with. *)
Record VMOps := mkOps { op_run : RunFn; op_fuel : nat; op_ticks : nat -> Z }.

Class EfunTable := efunTable : string -> option (VMOps -> list Value -> VM Value).

(** A table that holds the efuns of a list. *)
Fixpoint findEfun (name : string) (t : list (string * (VMOps -> list Value -> VM Value)))
    : option (VMOps -> list Value -> VM Value) :=
  match t with
  | [] => None
  | (n, f) :: t' => if String.eqb n name then Some f else findEfun name t'
  end.

Definition tableOf (l : list (string * (VMOps -> list Value -> VM Value))) : EfunTable := fun name => findEfun name l.

Definition efun_exists `{EfunTable} (name : string) : bool := is_some (efunTable name).

(** [EfunTable::call] *)
Definition efun_call `{EfunTable} (ops : VMOps) (name : string) (args : list Value) : VM Value :=
  match efunTable name with
  | None => mthrow (LpcRuntimeError ("undefined efun: " +:+ name))
  | Some f => f ops args
  end.

(** The inherit graph is acyclic (a program is compiled after its parents), so
    a chain is never longer than the number of programs. *)
Definition lookupFuel (P : programs) : nat := S (size P).

(** A lookup updates the memo tables of the programs only. *)
Definition onCache {A} (f : programs -> M chainCache exn A) : VM A := fun s =>
  let '(r, c) := f (programStore s) (functionChainCache s) in
  (r, s <| functionChainCache := c |>).

Definition lookupFunction (p : pid) (name : string) : VM FunctionLookupResult :=
  onCache (fun P => findFunctionInChain (lookupFuel P) P p name).
Definition lookupParent (p : pid) (name : string) (q : option string) : VM FunctionLookupResult :=
  onCache (fun P => findParentFunction (lookupFuel P) P p name q).

Definition programOf (s : VMState) (o : oid) : pid := getOb s program 1%positive o.

Definition throwRuntime {A} (msg : string) : VM A := mthrow (LpcRuntimeError msg).

(** [functionExists] *)
Definition functionExists (o : option oid) (name : string) : VM bool :=
  match o with
  | None => mret false
  | Some p =>
      d <- mgets (fun s => isDestructed s p) ;;
      if d : bool then mret false
      else found <- mgets (fun s => programOf s p) ;;
           r <- lookupFunction found name ;; mret (is_some r)
  end.

(** Phase 1 of [callFunction]: the outermost active shadow.  The chain of
    [shadowedBy] links visits an object at most once unless it is cyclic. *)
Fixpoint outermostShadow (fuel : nat) (caller : option oid) (target : oid) (s : VMState)
    : outcome exn oid :=
  match fuel with
  | O => OutOfFuel
  | S f =>
      match lock s (getOb s shadowedBy None target) with
      | Some shadow =>
          if negb (bool_decide (Some shadow = caller)) && negb (isDestructed s shadow)
          then outermostShadow f caller shadow s
          else Ok target
      | None => Ok target
      end
  end.

(** Phase 2: back along [shadowing] until a program defines the function. *)
Fixpoint searchShadowed (fuel : nat) (name : string) (target : oid)
    : VM (option (oid * (pid * FunctionEntry))) :=
  match fuel with
  | O => mlift OutOfFuel
  | S f =>
      p <- mgets (fun s => programOf s target) ;;
      found <- lookupFunction p name ;;
      match found with
      | Some r => mret (Some (target, r))
      | None =>
          next <- mgets (fun s => lock s (getOb s shadowing None target)) ;;
          match next with
          | None => mret None
          | Some t => searchShadowed f name t
          end
      end
  end.

Definition shadowFuel (s : VMState) : nat := S (size (objects s)).

Definition liftS {A} (f : VMState -> outcome exn A) : VM A := fun s => (f s, s).

Section Calls.
Context (run : RunFn) (ticks : nat -> Z).

(** [touchTimeOfRef] *)
Definition touchTimeOfRef (o : oid) : VM unit := fun s =>
  (Ok tt, setOb o (fun ob => ob <| timeOfRef := ticks (clockReads s) |>)
            (s <| clockReads ::= S |>)).

Definition callFunction (obj : option oid) (name : string) (args : list Value) (origin : Origin)
    : VM Value :=
  match obj with
  | None => mret Void
  | Some o =>
      d <- mgets (fun s => isDestructed s o) ;;
      if d : bool then mret Void else
      mmodify (setOb o (fun ob => ob <| resetState := false |>)) ;;
      touchTimeOfRef o ;;
      target <- liftS (fun s => outermostShadow (shadowFuel s) (currentObject s) o s) ;;
      fuel <- mgets shadowFuel ;;
      found <- searchShadowed fuel name target ;;
      match found with
      | None => mret Void
      | Some (t, (p, fn)) => withOrigin origin (run p fn args t)
      end
  end.

(** Only [program]'s own functions are searched. *)
Definition callFunctionInProgram (obj : option oid) (p : pid) (name : string) (args : list Value)
    : VM Value :=
  match obj with
  | None => mret Void
  | Some o =>
      P <- mgets programStore ;;
      match ownFunction (prog P p) name with
      | Some fn => withOrigin Driver (run p fn args o)
      | None => mret Void
      end
  end.

Definition applyMaster (name : string) (args : list Value) : VM Value :=
  master <- mgets masterOb ;;
  match master with
  | None => throwRuntime ("applyMaster(" +:+ name +:+ "): master object not loaded")
  | Some _ => callFunction master name args Driver
  end.

Definition privilegeViolation (what : string) (args : list Value) : VM bool :=
  caller <- mgets currentObject ;;
  master <- mgets masterOb ;;
  simul <- mgets simulEfunOb ;;
  if is_some caller && (bool_decide (caller = master) || bool_decide (caller = simul)) then mret true
  else
  exists_ <- functionExists master "privilege_violation" ;;
  if negb (is_some master) || negb exists_ then throwRuntime ("privilege violation: " +:+ what)
  else
  result <- applyMaster "privilege_violation" ([V (Str what); V (Obj caller)] ++ args) ;;
  match data result with
  | Int n => if n <? 0 then throwRuntime ("privilege violation: " +:+ what) else mret (0 <? n)
  | _ => throwRuntime ("privilege violation: " +:+ what)
  end.

(** ** Closures *)
Definition isSynthesizedLambdaName (name : string) : bool := starts_with "$lambda#" name.

(** The symbol of a lambda parameter; the first of that name counts. *)
Fixpoint paramValue (params : list string) (vals : list Value) (name : string) : option Value :=
  match params, vals with
  | p :: params', v :: vals' => if String.eqb p name then Some v else paramValue params' vals' name
  | _, _ => None
  end.

(** [std::vector::resize] on a vector kept front first. *)
Definition resizeArgs (n : nat) (l : list Value) : list Value :=
  take n l ++ replicate (n - length l) Void.

Context `{EfunTable} (ops : VMOps).

Fixpoint evalArgs (eval : Value -> VM Value) (xs : list Value) : VM (list Value) :=
  match xs with
  | [] => mret []
  | x :: xs' => v <- eval x ;; vs <- evalArgs eval xs' ;; mret (v :: vs)
  end.

(** Quoted lambda code is a tree of arrays in the heap; [call] is
    [callClosure], to which a call node returns. *)
Fixpoint evalQuotedLambdaNode (call : loc -> list Value -> VM Value) (fuel : nat) (node : Value)
    (params : list string) (argValues : list Value) : VM Value :=
  match fuel with
  | O => mlift OutOfFuel
  | S fuel' =>
      match data node with
      | Sym name =>
          match paramValue params argValues name with
          | Some v => mret v
          | None => throwRuntime ("unbound_lambda: symbol '" +:+ name
              +:+ " is not one of this lambda's own declared parameters (global-variable symbol references are not supported)")
          end
      | Arr a =>
          its <- mgets (fun s => match a with Some p => items (hp s) p | None => [] end) ;;
          match its with
          | [] => throwRuntime "unbound_lambda: empty quoted-code call expression"
          | head :: rest =>
              match data head with
              | Fun (Some c) =>
                  callArgs <- evalArgs (fun x => evalQuotedLambdaNode call fuel' x params argValues) rest ;;
                  call c callArgs
              | _ => throwRuntime "unbound_lambda: quoted-code call expression must start with a closure (operator/control-flow closures as the call head are not supported)"
              end
          end
      | _ => mret node
      end
  end.

Definition callUnboundLambdaBody (call : loc -> list Value -> VM Value) (fuel : nat) (c : Closure)
    (argValues : list Value) : VM Value :=
  evalQuotedLambdaNode call fuel (lambdaBody c) (lambdaParams c)
    (resizeArgs (length (lambdaParams c)) argValues).

Fixpoint callClosure (fuel : nat) (l : option loc) (extraArgs : list Value) : VM Value :=
  match fuel with
  | O => mlift OutOfFuel
  | S fuel' =>
      match l with
      | None => throwRuntime "evaluate(): not a function value"
      | Some p =>
          c <- mgets (fun s => closure (hp s) p) ;;
          if unboundUntilBound c then throwRuntime "Uncallable closure" else
          own <- mgets (fun s => match lock s (owner c) with
                                 | Some o => if isDestructed s o then None else Some o
                                 | None => None end) ;;
          match own with
          | None => throwRuntime "evaluate(): owner of function pointer is destructed"
          | Some o =>
              let args := boundArgs c ++ extraArgs in
              if negb (isVoid (lambdaBody c)) then
                callUnboundLambdaBody (fun p => callClosure fuel' (Some p)) fuel' c args
              else if forceEfun c then
                if negb (efun_exists (functionName c)) then
                  throwRuntime ("evaluate(): undefined efun: " +:+ functionName c)
                else withObjectFrame (Some o) (efun_call ops (functionName c) args)
              else
              pr <- mgets (fun s => programOf s o) ;;
              found <- lookupFunction pr (functionName c) ;;
              match found with
              | Some (p, fn) =>
                  withOrigin (if isSynthesizedLambdaName (fname fn) then Functional else Local)
                    (run p fn args o)
              | None =>
                  simul <- mgets simulEfunOb ;;
                  simulFound <- match simul with
                                | None => mret None
                                | Some so =>
                                    sp <- mgets (fun s => programOf s so) ;;
                                    r <- lookupFunction sp (functionName c) ;;
                                    mret ((fun x => (so, x)) <$> r)
                                end ;;
                  match simulFound with
                  | Some (so, (p, fn)) => withOrigin SimulEfun (run p fn args so)
                  | None =>
                      if efun_exists (functionName c) then
                        withObjectFrame (Some o) (efun_call ops (functionName c) args)
                      else throwRuntime ("evaluate(): undefined function or efun: " +:+ functionName c)
                  end
              end
          end
      end
  end.

(** ** Driver hooks *)
Definition getDriverHook (what : Z) (s : VMState) : Value :=
  if (what <? 0) || (kNumDriverHooks <=? what) then Void
  else nthV (Z.to_nat what) (driverHooks s).

Definition setDriverHook (what : Z) (arg : Value) : VM unit :=
  if (what <? 0) || (kNumDriverHooks <=? what) then
    throwRuntime ("Bad hook number: " +:+ to_string what +:+ ", expected 0.."
                  +:+ to_string (kNumDriverHooks - 1))
  else mmodify (fun s => s <| driverHooks ::= <[Z.to_nat what := arg]> |>).

(** The hook closure itself is rebound. *)
Definition callDriverHookClosure (l : option loc) (bindTo : option oid) (args : list Value)
    : VM Value :=
  match l with
  | None => throwRuntime "driver hook: not a function value"
  | Some p =>
      mmodify (fun s => s <| hp ::= fun h => h <| closures ::=
        alter (fun c => c <| owner := bindTo |> <| unboundUntilBound := false |>) p |> |>) ;;
      callClosure (op_fuel ops) (Some p) args
  end.

(** ** moveObject *)
Definition unlink (item : oid) (env : option oid) (s : VMState) : VMState :=
  match lock s env with
  | Some old => setOb old (fun ob => ob <| inventory ::= List.filter (fun x => negb (bool_decide (x = item))) |>
                                        <| resetState := false |>) s
  | None => s
  end.

(** The hardcoded move: leave the old environment, enter the new one. *)
Definition relink (item dest : oid) (s : VMState) : VMState :=
  let s1 := setOb dest (fun ob => ob <| resetState := false |>) s in
  let s2 := unlink item (getOb s1 environment None item) s1 in
  let s3 := setOb item (fun ob => ob <| resetState := false |> <| environment := Some dest |>) s2 in
  setOb dest (fun ob => ob <| inventory ::= fun inv => inv ++ [item] |>) s3.

Definition commandsOn (o : oid) : VM bool := mgets (fun s => getOb s commandsEnabled false o).

Definition callInit (giver target : oid) : VM unit :=
  withCommandGiver (Some giver) (callFunction (Some target) "init" [] Driver ;; mret tt).

Definition initIfCommands (who : oid) (m : VM unit) : VM unit :=
  c <- commandsOn who ;; if c : bool then m else mret tt.

Fixpoint visitOccupants (item : oid) (occupants : list oid) : VM unit :=
  match occupants with
  | [] => mret tt
  | ob :: rest =>
      (if decide (ob = item) then mret tt else
         initIfCommands ob (callInit ob item) ;;
         initIfCommands item (callInit item ob)) ;;
      visitOccupants item rest
  end.

Definition kHMoveObject0 : Z := 0.
Definition kHMoveObject1 : Z := 1.

Definition moveObject (item dest : option oid) : VM unit :=
  match item, dest with
  | Some i, Some d =>
      bad <- mgets (fun s => bool_decide (i = d) || isDestructed s i || isDestructed s d) ;;
      if bad : bool then mret tt else
      hook1 <- mgets (getDriverHook kHMoveObject1) ;;
      hook0 <- mgets (getDriverHook kHMoveObject0) ;;
      cur <- mgets currentObject ;;
      match data hook1, data hook0 with
      | Fun (Some h), _ => callDriverHookClosure (Some h) item [V (Obj item); V (Obj dest)] ;; mret tt
      | _, Fun (Some h) => callDriverHookClosure (Some h) cur [V (Obj item); V (Obj dest)] ;; mret tt
      | _, _ =>
          mmodify (relink i d) ;;
          initIfCommands i (callInit i d) ;;
          occupants <- mgets (fun s => getOb s inventory [] d) ;;
          visitOccupants i occupants
      end
  | _, _ => mret tt
  end.

(** ** dispatchCommand *)
Definition is_ws (c : ascii) : bool := Ascii.eqb c " " || Ascii.eqb c TAB.
Definition not_ws (c : ascii) : bool := negb (is_ws c).

Definition splitVerbAndArg (line : string) : string * option string :=
  let '(_, s1) := span is_ws line in
  let '(verb, s2) := span not_ws s1 in
  let '(_, s3) := span is_ws s2 in
  (verb, if String.eqb s3 "" then None else Some s3).

(** [substr(0, find_last_not_of(' ') + 1)] *)
Fixpoint rtrim_spaces (s : string) : string :=
  match s with
  | EmptyString => EmptyString
  | String c s' =>
      match rtrim_spaces s' with
      | EmptyString => if Ascii.eqb c " " then EmptyString else String c EmptyString
      | t => String c t
      end
  end.

Definition kHModifyCommand : Z := 9.

(** The first entry with that string key decides; a non-string value there
    leaves the line alone. *)
Fixpoint commandRewrite (trimmed : string) (es : list (Value * Value)) : option string :=
  match es with
  | [] => None
  | (k, v) :: es' =>
      match data k with
      | Str key =>
          if String.eqb key trimmed
          then match data v with Str r => Some r | _ => None end
          else commandRewrite trimmed es'
      | _ => commandRewrite trimmed es'
      end
  end.

Definition modifyCommand (line : string) (s : VMState) : string :=
  match data (getDriverHook kHModifyCommand s) with
  | Map (Some p) =>
      let trimmed := rtrim_spaces line in
      if String.eqb trimmed "" then line
      else default line (commandRewrite trimmed (entries (mapping (hp s) p)))
  | _ => line
  end.

Definition actionMatches (e : ActionEntry) (verb : string) : bool :=
  if aflag e =? 0 then String.eqb (averb e) verb else sprefix (averb e) verb.

Definition handlerArg (e : ActionEntry) (verb : string) (arg : option string) : Value :=
  if (aflag e =? 2) && negb (String.eqb (averb e) "") then
    let rest := sdrop (String.length (averb e)) verb in
    V (Str match arg with
           | Some a => if String.eqb rest "" then a else rest +:+ " " +:+ a
           | None => rest end)
  else match arg with Some a => V (Str a) | None => Void end.

Definition withVerb {A} (verb : string) (m : VM A) : VM A := fun s =>
  mfinally m (fun s => s <| verbStack ::= tail |>) (s <| verbStack ::= cons verb |>).

(** One handler call, with the giver and the verb of the command in place. *)
Definition runHandler (giver : oid) (verb : string) (arg : option string) (e : ActionEntry)
    (o : oid) : VM Value :=
  withCommandGiver (Some giver) (withVerb verb
    (cur <- mgets currentObject ;;
     callFunction (Some o) (afunction e) [handlerArg e verb arg]
       (if is_some cur then Efun else Driver))).

Definition actionOwner (s : VMState) (e : ActionEntry) : option oid :=
  match lock s (aowner e) with
  | Some o => if isDestructed s o then None else Some o
  | None => None
  end.

Fixpoint tryActions (giver : oid) (verb : string) (arg : option string)
    (acts : list ActionEntry) : VM bool :=
  match acts with
  | [] => mret false
  | e :: rest =>
      own <- mgets (fun s => actionOwner s e) ;;
      match (if actionMatches e verb then own else None) with
      | None => tryActions giver verb arg rest
      | Some o =>
          result <- runHandler giver verb arg e o ;;
          if isTruthy result then mret true else tryActions giver verb arg rest
      end
  end.

Definition dispatchCommand (giver : option oid) (line : string) : VM bool :=
  match giver with
  | None => mret false
  | Some g =>
      d <- mgets (fun s => isDestructed s g) ;;
      if d : bool then mret false else
      effectiveLine <- mgets (modifyCommand line) ;;
      let '(verb, arg) := splitVerbAndArg effectiveLine in
      if String.eqb verb "" then mret false else
      acts <- mgets (fun s => getOb s actions [] g) ;;
      tryActions g verb arg acts
  end.
End Calls.

(** ** replace_program *)
Definition enqueueReplaceProgram (ob : option oid) (newProgram : option pid) (offset : Z)
    (name : string) (s : VMState) : VMState :=
  let e := mkPending ob newProgram offset name in
  let fix go (l : list PendingReplaceProgram) :=
    match l with
    | [] => [e]
    | x :: l' => if bool_decide (pr_ob x = ob) then mkPending (pr_ob x) newProgram offset name :: l'
                 else x :: go l'
    end in
  s <| pendingReplacePrograms ::= go |>.

(** The variables of the kept ancestor, or a resized vector when the recorded
    offset does not fit. *)
Definition replacedVariables (offset : Z) (newCount : nat) (vars : list Value) : list Value :=
  let off := Z.to_nat (Z.max 0 offset) in
  if (off + newCount <=? length vars)%nat then take newCount (drop off vars)
  else take newCount vars ++ replicate (newCount - length vars) Void.

(** The object leaves the shadow chain it was shadowing in. *)
Definition unshadow (o : oid) (s : VMState) : VMState :=
  match lock s (getOb s shadowing None o) with
  | None => s
  | Some target =>
      let myShadower := lock s (getOb s shadowedBy None o) in
      let s1 := setOb target (fun ob => ob <| shadowedBy := myShadower |>) s in
      let s2 := match myShadower with
                | Some m => setOb o (fun ob => ob <| shadowedBy := None |>)
                              (setOb m (fun ob => ob <| shadowing := Some target |>) s1)
                | None => s1
                end in
      setOb o (fun ob => ob <| shadowing := None |>) s2
  end.

Definition withLeadingSlash (name : string) : string :=
  if Ascii.eqb (char_at name 0) "/" then name else String "/" name.

Definition replaceOne (s : VMState) (e : PendingReplaceProgram) : VMState :=
  match pr_ob e, pr_newProgram e with
  | Some o, Some p =>
      if isDestructed s o then s else
      let newCount := length (objectVarNames (prog (programStore s) p)) in
      let s1 := setOb o (fun ob => ob <| variables ::= replacedVariables (pr_offset e) newCount |>) s in
      let s2 := unshadow o s1 in
      setOb o (fun ob => ob <| program := p |>
                            <| replacedProgramName := Some (withLeadingSlash (pr_name e)) |>) s2
  | _, _ => s
  end.

Definition processPendingReplacePrograms (s : VMState) : VMState :=
  foldl replaceOne (s <| pendingReplacePrograms := [] |>) (pendingReplacePrograms s).
