(* ===== verification/CallsFacts.v ===== *)
(** * CallsFacts: containment, commands, privileges, program replacement

    Theorems on the operations of Calls.v that act on the object world:
    [relink] (the move itself), command splitting and dispatch,
    [privilegeViolation], and the pending replacements of a backend turn with
    the shadow links they undo. *)
From S2P Require Import Prelude CLib Double Value Bytecode Lookup Machine Calls.
Local Open Scope Z_scope.

(** ** Containment *)
Lemma setOb_lookup o f s x :
  objects (setOb o f s) !! x = if decide (x = o) then f <$> objects s !! x else objects s !! x.
Proof.
  unfold setOb. simpl. destruct (decide (x = o)) as [->|N].
  - by rewrite lookup_alter_eq.
  - by rewrite lookup_alter_ne.
Qed.

Lemma lock_some s w o : lock s w = Some o <-> w = Some o /\ is_Some (objects s !! o).
Proof.
  unfold lock. destruct w as [o'|]; [|by split; [|intros [? _]]].
  destruct (objects s !! o') eqn:E; (split; [intros [= <-]; eauto|intros [[= ->] [y Hy]]; congruence]).
Qed.

(** An inventory lists an object once, exactly when its environment is the
    container. *)
Record containment_ok (s : VMState) : Prop := {
  inventory_nodup e oe : objects s !! e = Some oe -> NoDup (inventory oe);
  contained_iff e oe o oo :
    objects s !! e = Some oe -> objects s !! o = Some oo ->
    o ∈ inventory oe <-> environment oo = Some e
}.

Definition removeFrom (item : oid) (inv : list oid) : list oid :=
  List.filter (fun x => negb (bool_decide (x = item))) inv.

Lemma elem_of_removeFrom item inv x : x ∈ removeFrom item inv <-> x ∈ inv /\ x <> item.
Proof.
  unfold removeFrom. rewrite !list_elem_of_In, filter_In, negb_true_iff, bool_decide_eq_false. done.
Qed.

Lemma NoDup_removeFrom item inv : NoDup inv -> NoDup (removeFrom item inv).
Proof.
  induction 1 as [|x inv Hx ND IH]; simpl; [constructor|].
  destruct (negb _); [|done]. constructor; [|done]. rewrite elem_of_removeFrom. naive_solver.
Qed.

Section Relink.
Context (s : VMState) (item dest : oid) (oi od : LpcObject).
Context (Hi : objects s !! item = Some oi) (Hd : objects s !! dest = Some od) (Hne : item <> dest).

(** Every object after the move. *)
Definition moved (e : oid) (oe : LpcObject) : list oid * option oid :=
  let left := if decide (environment oi = Some e) then removeFrom item (inventory oe)
              else inventory oe in
  (if decide (e = dest) then left ++ [item] else left,
   if decide (e = item) then Some dest else environment oe).

Lemma relink_lookup e :
  (fun ob => (inventory ob, environment ob)) <$> objects (relink item dest s) !! e
  = moved e <$> objects s !! e.
Proof using Hi Hd Hne.
  unfold relink, unlink. set (s1 := setOb dest _ s).
  assert (getOb s1 environment None item = environment oi) as ->.
  { unfold getOb. subst s1. rewrite setOb_lookup. destruct (decide (item = dest)); [done|].
    by rewrite Hi. }
  assert (forall x, is_Some (objects s1 !! x) <-> is_Some (objects s !! x)) as Hdom.
  { intros x. subst s1. rewrite setOb_lookup. destruct (decide _); [|done].
    by rewrite fmap_is_Some. }
  destruct (lock s1 (environment oi)) as [old|] eqn:El.
  - apply lock_some in El as [Eo _]. rewrite !setOb_lookup. subst s1. unfold moved. rewrite Eo.
    rewrite !setOb_lookup.
    destruct (objects s !! e) as [oe|] eqn:Ee; simpl;
      repeat (case_decide; simplify_eq/=; try done).
  - assert (forall x y, environment oi = Some x -> objects s !! x = Some y -> False) as Gone.
    { intros x y Ex Ey. destruct (Hdom x) as [_ Hx]. destruct (Hx ltac:(eauto)) as [z Hz].
      unfold lock in El. rewrite Ex, Hz in El. done. }
    clear El. rewrite !setOb_lookup. subst s1. unfold moved. rewrite !setOb_lookup.
    destruct (objects s !! e) as [oe|] eqn:Ee; simpl;
      repeat (case_decide; simplify_eq/=; try done).
    all: exfalso; eauto.
Qed.
End Relink.

(** C26: moving an object keeps containment consistent: every inventory lists an
    object at most once and exactly when that object's environment is the
    container; the moved object ends up in the destination, and no other
    object's environment changes. *)
Theorem relink_containment s item dest :
  containment_ok s -> is_Some (objects s !! item) -> is_Some (objects s !! dest) -> item <> dest ->
  containment_ok (relink item dest s) /\
  getOb (relink item dest s) environment None item = Some dest /\
  forall o, o <> item ->
    getOb (relink item dest s) environment None o = getOb s environment None o.
Proof.
  intros [ND CI] [oi Hi] [od Hd] Hne.
  pose proof (relink_lookup s item dest oi od Hi Hd Hne) as L.
  assert (forall e oe', objects (relink item dest s) !! e = Some oe' ->
    exists oe, objects s !! e = Some oe /\ (inventory oe', environment oe') = moved item dest oi e oe)
    as Linv.
  { intros e oe' E. specialize (L e). rewrite E in L. destruct (objects s !! e) as [oe|]; [|done].
    injection L as L1 L2. exists oe. split; [done|]. by rewrite L1, L2. }
  assert (forall e oe, objects s !! e = Some oe -> environment oi = Some e <-> item ∈ inventory oe)
    as Hold by (intros e oe E; by rewrite (CI e oe item oi)).
  split; [split|split].
  - intros e oe' E. destruct (Linv e oe' E) as (oe & E0 & M). injection M as -> _.
    specialize (ND e oe E0). repeat case_decide; subst; rewrite ?list.NoDup_app;
      auto using NoDup_removeFrom; split_and!; auto using NoDup_removeFrom, NoDup_singleton;
      intros x Hx Hx'; apply list_elem_of_singleton in Hx'; subst.
    + by apply elem_of_removeFrom in Hx as [].
    + by apply (Hold dest oe E0) in Hx.
  - intros e oe' o oo' E1 E2. destruct (Linv e oe' E1) as (oe & E10 & M1).
    destruct (Linv o oo' E2) as (oo & E20 & M2). injection M1 as -> _. injection M2 as _ ->.
    specialize (CI e oe o oo E10 E20). specialize (Hold e oe E10).
    repeat case_decide; subst; rewrite ?elem_of_app, ?list_elem_of_singleton, ?elem_of_removeFrom;
      naive_solver.
  - unfold getOb. specialize (L item). rewrite Hi in L.
    destruct (objects (relink item dest s) !! item); [|done].
    injection L as _ ->. unfold moved. by destruct (decide (item = item)).
  - intros o No. unfold getOb. specialize (L o).
    destruct (objects (relink item dest s) !! o), (objects s !! o); try done.
    injection L as _ ->. unfold moved. by destruct (decide (o = item)).
Qed.

(** ** Commands *)
Lemma span_spec p s a b :
  span p s = (a, b) -> sforall p a = true /\
  match b with EmptyString => True | String c _ => p c = false end.
Proof.
  revert a b. induction s as [|c s IH]; simpl; intros a b.
  - by intros [= <- <-].
  - destruct (p c) eqn:Ec; [|by intros [= <- <-]; split].
    destruct (span p s) as [a' b'] eqn:E. intros [= <- <-]. simpl. rewrite Ec.
    by destruct (IH a' b' eq_refl).
Qed.

Lemma span_split p a b :
  sforall p a = true -> match b with EmptyString => True | String c _ => p c = false end ->
  span p (a +:+ b) = (a, b).
Proof.
  induction a as [|c a IH]; rewrite ?sapp_nil_l, ?sapp_cons; simpl; intros Ha Hb.
  - destruct b as [|c b]; simpl; [done|]. by rewrite Hb.
  - apply andb_true_iff in Ha as [-> Ha]. by rewrite IH.
Qed.

(** The first character of a non-empty string satisfies [p]. *)
Definition starts (p : ascii -> bool) (s : string) : Prop :=
  match s with EmptyString => True | String c _ => p c = true end.

Lemma starts_neg p s :
  starts (fun c => negb (p c)) s <->
  match s with EmptyString => True | String c _ => p c = false end.
Proof. destruct s; simpl; [done|]. apply negb_true_iff. Qed.

(** A command line is blanks, a verb without blanks, blanks, and an argument
    that starts with a non-blank: [splitVerbAndArg] is the only such
    decomposition, and an empty remainder is no argument. *)
Theorem splitVerbAndArg_spec line verb arg :
  splitVerbAndArg line = (verb, arg) <->
  exists w1 w2, line = w1 +:+ verb +:+ w2 +:+ default "" arg /\
    sforall is_ws w1 = true /\ sforall not_ws verb = true /\ sforall is_ws w2 = true /\
    starts not_ws (default "" arg) /\ arg <> Some "" /\
    (verb = "" -> w2 = "" /\ arg = None) /\ (w2 = "" -> arg = None).
Proof.
  unfold splitVerbAndArg. split.
  - destruct (span is_ws line) as [w1 s1] eqn:E1, (span not_ws s1) as [v s2] eqn:E2,
      (span is_ws s2) as [w2 s3] eqn:E3. intros [= -> <-]. exists w1, w2.
    pose proof (span_length _ _ _ _ E1) as L1. pose proof (span_length _ _ _ _ E2) as L2.
    pose proof (span_length _ _ _ _ E3) as L3.
    apply span_spec in E1 as [H1 H1'], E2 as [H2 H2'], E3 as [H3 H3'].
    assert (default "" (if String.eqb s3 "" then None else Some s3) = s3) as ->.
    { destruct (String.eqb_spec s3 ""); by subst. }
    subst. split_and!; try done.
    + by apply starts_neg.
    + destruct (String.eqb_spec s3 ""); [done|]. by intros [= ->].
    + intros ->. rewrite sapp_nil_l in *. destruct w2 as [|c w2], s3 as [|c' s3]; simpl in *; try done;
        rewrite ?sapp_cons, ?sapp_nil_l in *; unfold not_ws in *;
        simpl in *; rewrite ?H1' in *; try done.
    + intros ->. rewrite sapp_nil_l in *. destruct s3 as [|c s3]; [done|]. unfold not_ws in *.
      by rewrite H3' in H2'.
  - intros (w1 & w2 & -> & H1 & H2 & H3 & H4 & H5 & H6 & H7).
    rewrite (span_split is_ws w1); [|done|].
    2:{ destruct verb as [|c verb]; simpl in H2.
        - destruct (H6 eq_refl) as [-> ->]. done.
        - rewrite sapp_cons. apply andb_true_iff in H2 as [Hc _]. by apply negb_true_iff. }
    rewrite (span_split not_ws verb); [|done|].
    2:{ destruct w2 as [|c w2]; simpl in H3.
        - by rewrite (H7 eq_refl).
        - rewrite sapp_cons. apply andb_true_iff in H3 as [Hc _]. unfold not_ws. by rewrite Hc. }
    rewrite (span_split is_ws w2); [|done|by apply starts_neg].
    destruct arg as [a|]; simpl; [|done]. by destruct (String.eqb_spec a ""); subst.
Qed.

Section Dispatch.
Context (run : RunFn) (ticks : nat -> Z).

Definition skipped (s : VMState) (verb : string) (e : ActionEntry) : Prop :=
  actionMatches e verb = false \/ actionOwner s e = None.

Lemma tryActions_skip g verb arg before rest s :
  Forall (skipped s verb) before ->
  tryActions run ticks g verb arg (before ++ rest) s = tryActions run ticks g verb arg rest s.
Proof.
  induction 1 as [|e before He _ IH]; simpl; [done|]. unfold mbind at 1, mgets.
  destruct He as [->| ->]; [done|]. by destruct (actionMatches e verb).
Qed.
End Dispatch.

(** C28: a command goes to the newest action that matches its verb and whose owner
    is alive, run with the giver and the verb in place; a true result settles
    the command, a false one passes it to the actions after it in the state the
    handler left, and an error of the handler is an error of the command. *)
Theorem dispatch_first_match run ticks g line verb arg before e o after s :
  isDestructed s g = false ->
  splitVerbAndArg (modifyCommand line s) = (verb, arg) -> verb <> "" ->
  getOb s actions [] g = before ++ e :: after ->
  Forall (skipped s verb) before ->
  actionMatches e verb = true -> actionOwner s e = Some o ->
  dispatchCommand run ticks (Some g) line s
  = mbind (runHandler run ticks g verb arg e o)
      (fun r => if isTruthy r then mret true else tryActions run ticks g verb arg after) s.
Proof.
  intros Hg Hs Hv Ha Hb Hm Ho. unfold dispatchCommand, mgets, mbind at 1. rewrite Hg.
  unfold mbind at 1. rewrite Hs. apply String.eqb_neq in Hv as ->. unfold mbind at 1.
  rewrite Ha, tryActions_skip by done. simpl. unfold mbind at 1, mgets. by rewrite Hm, Ho.
Qed.

(** ** Program replacement *)
Definition slotOf (s : VMState) (o : oid) : option (pid * list Value * bool) :=
  (fun ob => (program ob, variables ob, destructed ob)) <$> objects s !! o.

Lemma slotOf_setOb o f s x :
  (forall ob, program (f ob) = program ob /\ variables (f ob) = variables ob /\
              destructed (f ob) = destructed ob) ->
  slotOf (setOb o f s) x = slotOf s x.
Proof.
  intros Hf. unfold slotOf. rewrite setOb_lookup. destruct (decide _); [|done].
  destruct (objects s !! x) as [ob|]; simpl; [|done]. by destruct (Hf ob) as (-> & -> & ->).
Qed.

Lemma slotOf_unshadow o s x : slotOf (unshadow o s) x = slotOf s x.
Proof.
  unfold unshadow. destruct (lock s _); [|done]. rewrite slotOf_setOb by done.
  destruct (lock s (getOb s shadowedBy None o)); by rewrite !slotOf_setOb.
Qed.

Lemma programStore_unshadow o s : programStore (unshadow o s) = programStore s.
Proof. unfold unshadow. by repeat case_match. Qed.
Lemma programStore_replaceOne s e : programStore (replaceOne s e) = programStore s.
Proof.
  unfold replaceOne. repeat case_match; try done. cbv zeta. simpl. by rewrite programStore_unshadow.
Qed.

(** The slot of an object whose replacement is processed, and of the others. *)
Definition replacedSlot (P : programs) (p : pid) (off : Z) (sl : pid * list Value * bool)
    : pid * list Value * bool :=
  let '(old, vars, d) := sl in
  if d then sl else (p, replacedVariables off (length (objectVarNames (prog P p))) vars, d).

Lemma slotOf_replaceOne s e x :
  slotOf (replaceOne s e) x
  = match pr_newProgram e with
    | Some p => if decide (pr_ob e = Some x)
                then replacedSlot (programStore s) p (pr_offset e) <$> slotOf s x
                else slotOf s x
    | None => slotOf s x
    end.
Proof.
  unfold replaceOne. destruct (pr_ob e) as [o|]; [|by destruct (pr_newProgram e)].
  destruct (pr_newProgram e) as [p|]; [|done].
  destruct (isDestructed s o) eqn:Hd.
  - case_decide as Ex; [|done]. injection Ex as <-. unfold slotOf, isDestructed, getOb in *.
    destruct (objects s !! o) as [ob|]; simpl; [|done]. by rewrite Hd.
  - set (s1 := setOb o _ s). cbv zeta. unfold slotOf at 1. rewrite setOb_lookup.
    pose proof (slotOf_unshadow o s1 x) as U. unfold slotOf at 1 2 in U.
    assert (forall y, objects s1 !! y = if decide (y = o) then
      (fun ob => ob <| variables ::= replacedVariables (pr_offset e)
         (length (objectVarNames (prog (programStore s) p))) |>) <$> objects s !! y
      else objects s !! y) as L1 by (intros y; apply setOb_lookup).
    rewrite L1 in U. unfold slotOf. unfold isDestructed, getOb in Hd.
    destruct (decide (x = o)) as [->|N].
    + rewrite decide_True by done. destruct (objects s !! o) as [ob|]; simpl in *.
      * destruct (objects (unshadow o s1) !! o); simpl in *; [|done].
        injection U as U1 U2 U3. rewrite Hd in *. by rewrite U2, U3.
      * by destruct (objects (unshadow o s1) !! o).
    + rewrite decide_False by naive_solver. done.
Qed.

Lemma slotOf_fold_other l s x :
  Forall (fun e => pr_ob e <> Some x) l -> slotOf (foldl replaceOne s l) x = slotOf s x.
Proof.
  intros Hl. revert s. induction Hl as [|e l He _ IH]; simpl; intros s; [done|].
  rewrite IH, slotOf_replaceOne. destruct (pr_newProgram e); [|done]. by rewrite decide_False.
Qed.

Lemma programStore_fold l s : programStore (foldl replaceOne s l) = programStore s.
Proof.
  revert s. induction l as [|e l IH]; simpl; intros s; [done|]. by rewrite IH, programStore_replaceOne.
Qed.

(** At the end of the backend turn every object with a pending replacement
    runs its new program, with exactly the variables of that program: those the
    recorded offset designates; an object without one keeps program and
    variables, and nothing stays pending. *)
Theorem replace_program_applied s e o p ob :
  NoDup (pr_ob <$> pendingReplacePrograms s) -> e ∈ pendingReplacePrograms s ->
  pr_ob e = Some o -> pr_newProgram e = Some p ->
  objects s !! o = Some ob -> destructed ob = false ->
  let n := length (objectVarNames (prog (programStore s) p)) in
  let off := Z.to_nat (pr_offset e) in
  (off + n <= length (variables ob))%nat ->
  let s' := processPendingReplacePrograms s in
  pendingReplacePrograms s' = [] /\
  (exists ob', objects s' !! o = Some ob' /\ program ob' = p /\ length (variables ob') = n /\
     forall k, (k < n)%nat -> variables ob' !! k = variables ob !! (off + k)%nat) /\
  (forall x, (forall e', e' ∈ pendingReplacePrograms s -> pr_ob e' <> Some x) ->
     slotOf s' x = slotOf s x).
Proof.
  intros ND Hin Eo Ep Hob Hd n off Hn s'. split_and!.
  - subst s'. unfold processPendingReplacePrograms.
    assert (forall l t, pendingReplacePrograms t = [] ->
      pendingReplacePrograms (foldl replaceOne t l) = []) as A; [|by apply A].
    induction l as [|e' l IH]; simpl; intros t Ht; [done|]. apply IH. unfold replaceOne, unshadow.
    by repeat case_match.
  - apply list_elem_of_split in Hin as (l1 & l2 & El).
    assert (slotOf s' o = Some (p, replacedVariables (pr_offset e) n (variables ob), false)) as E.
    { subst s'. unfold processPendingReplacePrograms. rewrite El, fmap_app, fmap_cons in *.
      apply list.NoDup_app in ND as (_ & N1 & N2). apply list.NoDup_cons in N2 as [N2 _].
      rewrite foldl_app. simpl. rewrite slotOf_fold_other.
      - rewrite slotOf_replaceOne, Ep, decide_True by done. rewrite slotOf_fold_other.
        + rewrite programStore_fold. unfold slotOf. simpl. rewrite Hob. simpl. by rewrite Hd.
        + apply list.Forall_forall. intros e' He' Ee'. apply (N1 (Some o)); [|rewrite Eo; by left].
          rewrite <- Ee'. by apply list_elem_of_fmap_2.
      - apply list.Forall_forall. intros e' He' Ee'. apply N2. rewrite Eo, <- Ee'.
        by apply list_elem_of_fmap_2. }
    unfold slotOf in E. destruct (objects s' !! o) as [ob'|]; [|done]. injection E as <- E _.
    exists ob'. unfold replacedVariables in E.
    assert (Z.to_nat (Z.max 0 (pr_offset e)) = off) as Eoff by (subst off; lia).
    rewrite Eoff, (proj2 (Nat.leb_le _ _) Hn) in E. rewrite E. split_and!; try done.
    + rewrite length_take, length_drop. lia.
    + intros k Hk. by rewrite lookup_take_lt, lookup_drop.
  - intros x Hx. subst s'. unfold processPendingReplacePrograms. rewrite slotOf_fold_other; [done|].
    by apply list.Forall_forall.
Qed.

(** A second request for an object before the end of the turn replaces the
    first one, and the pending requests stay at most one per object. *)
Theorem enqueue_last_wins ob p1 off1 n1 p2 off2 n2 s :
  enqueueReplaceProgram ob p2 off2 n2 (enqueueReplaceProgram ob p1 off1 n1 s)
  = enqueueReplaceProgram ob p2 off2 n2 s /\
  (NoDup (pr_ob <$> pendingReplacePrograms s) ->
   NoDup (pr_ob <$> pendingReplacePrograms (enqueueReplaceProgram ob p1 off1 n1 s))).
Proof.
  unfold enqueueReplaceProgram. split.
  - destruct s. unfold set_field. simpl. f_equal.
    match goal with l : list PendingReplaceProgram |- _ => induction l as [|x l IH] end; simpl.
    + by rewrite bool_decide_eq_true_2.
    + case_bool_decide as E; simpl.
      * by rewrite bool_decide_eq_true_2.
      * rewrite bool_decide_eq_false_2 by done. by f_equal.
  - unfold set_field. simpl. generalize (pendingReplacePrograms s).
    induction l as [|x l IH]; simpl; intros ND; [apply NoDup_singleton|].
    apply list.NoDup_cons in ND as [Nx ND].
    case_bool_decide as E; simpl; apply list.NoDup_cons; split; auto.
    intros H. apply Nx. clear -H E. induction l as [|y l IH]; simpl in *.
    + by apply list_elem_of_singleton in H.
    + case_bool_decide; simpl in *; apply elem_of_cons in H as [H|H]; rewrite elem_of_cons; auto.
Qed.

(** ** Shadows *)
(** The two links of a shadow agree: between live objects, [a] is shadowed by
    [b] exactly when [b] shadows [a]. *)
Definition shadow_ok (s : VMState) : Prop := forall a b oa ob,
  objects s !! a = Some oa -> objects s !! b = Some ob ->
  shadowedBy oa = Some b <-> shadowing ob = Some a.

(** An object whose program is replaced leaves its shadow chain: the object
    it was shadowing is then shadowed by what shadowed it, and the two links
    agree throughout the object world. *)
Theorem unshadow_consistent s o t oo ot :
  shadow_ok s -> objects s !! o = Some oo -> objects s !! t = Some ot ->
  shadowing oo = Some t -> t <> o ->
  shadow_ok (unshadow o s) /\
  getOb (unshadow o s) shadowing (Some t) o = None /\
  getOb (unshadow o s) shadowedBy None t = lock s (shadowedBy oo).
Proof.
  intros Hok Ho Ht Hsh Hne. unfold unshadow.
  assert (lock s (getOb s shadowing None o) = Some t) as ->.
  { apply lock_some. unfold getOb. rewrite Ho. eauto. }
  assert (getOb s shadowedBy None o = shadowedBy oo) as -> by (unfold getOb; by rewrite Ho).
  assert (forall x m, lock s x = Some m -> x = Some m /\ exists om, objects s !! m = Some om) as Lk.
  { intros x m [-> [om Hom]]%lock_some. eauto. }
  assert (shadowedBy oo <> Some o \/ o = t) as Nself.
  { left. intros E. apply (Hok o o oo oo Ho Ho) in E. congruence. }
  unfold getOb. destruct (lock s (shadowedBy oo)) as [m|] eqn:Em.
  - destruct (Lk _ _ Em) as [Es [om Hom]]. pose proof (proj1 (Hok o m oo om Ho Hom) Es) as Hm.
    split_and!.
    + intros a b oa ob. rewrite !setOb_lookup. intros Ha Hb.
      destruct (objects s !! a) as [oa0|] eqn:Ea; [|by repeat case_decide].
      destruct (objects s !! b) as [ob0|] eqn:Eb; [|by repeat case_decide].
      pose proof (Hok a b _ _ Ea Eb) as K. pose proof (Hok a o _ _ Ea Ho) as Ka.
      pose proof (Hok o b _ _ Ho Eb) as Kb. pose proof (Hok t b _ _ Ht Eb) as Kt.
      pose proof (Hok a m _ _ Ea Hom) as Km.
      repeat case_decide; simplify_eq/=; naive_solver.
    + rewrite !setOb_lookup, decide_True, Ho by done. by repeat case_decide; simpl.
    + rewrite !setOb_lookup. rewrite !(decide_False (P := t = o)), (decide_True (P := t = t)), Ht by done.
      by repeat case_decide; simpl.
  - split_and!.
    + intros a b oa ob. rewrite !setOb_lookup. intros Ha Hb.
      destruct (objects s !! a) as [oa0|] eqn:Ea; [|by repeat case_decide].
      destruct (objects s !! b) as [ob0|] eqn:Eb; [|by repeat case_decide].
      pose proof (Hok a b _ _ Ea Eb) as K. pose proof (Hok a o _ _ Ea Ho) as Ka.
      pose proof (Hok t b _ _ Ht Eb) as Kt. pose proof (Hok o b _ _ Ho Eb) as Kb.
      assert (shadowedBy oo <> Some b) as Nb.
      { intros E. rewrite E in Em. unfold lock in Em. by rewrite Eb in Em. }
      repeat case_decide; simplify_eq/=; naive_solver.
    + by rewrite !setOb_lookup, decide_True, decide_False, Ho by done.
    + by rewrite !setOb_lookup, decide_False, decide_True, Ht by done.
Qed.

(** ** Privileges *)
(** C27: a privileged operation is allowed silently only to the master or the
    simul_efun object; for any other caller it is allowed only when the master
    is loaded, defines [privilege_violation], and that call returned a positive
    number. *)
Theorem privilege_granted run ticks what args s s' :
  privilegeViolation run ticks what args s = (Ok true, s') ->
  (exists c, currentObject s = Some c /\ (masterOb s = Some c \/ simulEfunOb s = Some c) /\ s' = s) \/
  (exists m s1 v n, masterOb s = Some m /\
     functionExists (Some m) "privilege_violation" s = (Ok true, s1) /\
     applyMaster run ticks "privilege_violation" ([V (Str what); V (Obj (currentObject s))] ++ args) s1
       = (Ok v, s') /\
     data v = Int n /\ 0 < n).
Proof.
  unfold privilegeViolation. intros H. do 3 (erewrite mbind_run in H by reflexivity; cbv beta in H).
  destruct (is_some (currentObject s) && _) eqn:C.
  - left. injection H as <-. apply andb_true_iff in C as [C1 C2].
    destruct (currentObject s) as [c|]; [|done].
    exists c. split; [done|]. apply orb_true_iff in C2.
    rewrite !bool_decide_eq_true in C2. naive_solver.
  - right. apply mbind_ok in H as (ex & s1 & Ex & H).
    destruct (masterOb s) as [m|] eqn:Em; simpl in H; [|done]. destruct ex; simpl in H; [|done].
    apply mbind_ok in H as (v & s2 & Ev & H). destruct (data v) as [| |n| | | | | | | |] eqn:Dv; try done.
    destruct (n <? 0); [done|]. unfold mret in H. injection H as Hn <-.
    exists m, s1, v, n. split_and!; try done. by apply Z.ltb_lt.
Qed.

(** ** Witnesses

    A room (1) that is also the master, a hall (2), and a player (3) standing in
    the room and shadowing the hall. *)
Definition exampleStore : programs :=
  {[ 1%positive := emptyProgram
       <| functions := [mkFunction "privilege_violation" 0 2 2 false false] |>;
     2%positive := emptyProgram <| objectVarNames := ["hp"; "name"; "age"]%string |>;
     3%positive := emptyProgram <| objectVarNames := ["name"; "age"]%string |> ]}.
Definition roomOb : LpcObject :=
  (newObject "/room" 1 emptyProgram true 0) <| inventory := [3%positive] |>.
Definition hallOb : LpcObject :=
  (newObject "/hall" 1 emptyProgram true 0) <| shadowedBy := Some 3%positive |>.
Definition playerOb : LpcObject :=
  (newObject "/player" 2 emptyProgram true 0)
    <| variables := [VInt 10; V (Str "bob"); VInt 30] |> <| environment := Some 1%positive |>
    <| shadowing := Some 2%positive |>
    <| actions := [mkAction "say" "do_say" (Some 3%positive) 0;
                   mkAction "lo" "do_look" (Some 1%positive) 1] |>.
Definition exampleWorld : VMState :=
  (newVM (configFor "fluffos" 1000)
     {[ 1%positive := roomOb; 2%positive := hallOb; 3%positive := playerOb ]} exampleStore)
    <| masterOb := Some 1%positive |>
    <| pendingReplacePrograms := [mkPending (Some 3%positive) (Some 3%positive) 1 "base"] |>.
(** Every function returns 1. *)
Definition runsToOne : RunFn := fun _ _ _ _ => mret (VInt 1).

Lemma exampleWorld_objects o ob :
  objects exampleWorld !! o = Some ob ->
  (o = 1%positive /\ ob = roomOb) \/ (o = 2%positive /\ ob = hallOb) \/ (o = 3%positive /\ ob = playerOb).
Proof.
  unfold exampleWorld. simpl. rewrite !lookup_insert_Some, lookup_singleton_Some. naive_solver.
Defined.

Lemma exampleWorld_containment : containment_ok exampleWorld.
Proof.
  split.
  - intros e oe H. apply exampleWorld_objects in H as [[-> ->]|[[-> ->]|[-> ->]]];
      [apply NoDup_singleton|constructor|constructor].
  - intros e o oe oo H1 H2. apply exampleWorld_objects in H1 as [[-> ->]|[[-> ->]|[-> ->]]],
      H2 as [[-> ->]|[[-> ->]|[-> ->]]]; simpl;
      rewrite ?list_elem_of_singleton, ?elem_of_nil; split; intros H;
      (reflexivity || discriminate H || destruct H).
Defined.

Lemma exampleWorld_shadow : shadow_ok exampleWorld.
Proof.
  intros a b oa ob H1 H2. apply exampleWorld_objects in H1 as [[-> ->]|[[-> ->]|[-> ->]]],
      H2 as [[-> ->]|[[-> ->]|[-> ->]]]; split; intros H; (reflexivity || discriminate H).
Defined.

Lemma relink_containment_witness :
  containment_ok (relink 3 2 exampleWorld) /\
  getOb (relink 3 2 exampleWorld) environment None 3%positive = Some 2%positive.
Proof.
  destruct (relink_containment exampleWorld 3 2) as (H1 & H2 & _);
    [apply exampleWorld_containment|by eexists|by eexists|done|by split].
Defined.

Lemma dispatch_first_match_witness :
  dispatchCommand runsToOne Z.of_nat (Some 3%positive) " look  at me" exampleWorld
  = mbind (runHandler runsToOne Z.of_nat 3 "look" (Some "at me"%string)
            (mkAction "lo" "do_look" (Some 1%positive) 1) 1)
      (fun r => if isTruthy r then mret true
                else tryActions runsToOne Z.of_nat 3 "look" (Some "at me"%string) [])
      exampleWorld.
Proof.
  apply (dispatch_first_match runsToOne Z.of_nat 3 " look  at me" "look" (Some "at me"%string)
    [mkAction "say" "do_say" (Some 3%positive) 0]); try (vm_compute; reflexivity); [done|].
  constructor; [|constructor]. left. reflexivity.
Defined.

Lemma replace_program_applied_witness :
  exists ob', objects (processPendingReplacePrograms exampleWorld) !! 3%positive = Some ob' /\
    program ob' = 3%positive /\ length (variables ob') = 2%nat /\
    (forall k, (k < 2)%nat -> variables ob' !! k = variables playerOb !! (1 + k)%nat).
Proof.
  apply (replace_program_applied exampleWorld (mkPending (Some 3%positive) (Some 3%positive) 1 "base")
    3 3 playerOb); (reflexivity || apply NoDup_singleton || (by left) || (simpl; lia)).
Defined.

Lemma unshadow_consistent_witness :
  shadow_ok (unshadow 3 exampleWorld) /\
  getOb (unshadow 3 exampleWorld) shadowedBy None 2%positive = None.
Proof.
  destruct (unshadow_consistent exampleWorld 3 2 playerOb hallOb) as (H1 & _ & H2);
    [apply exampleWorld_shadow|reflexivity|reflexivity|reflexivity|done|by split].
Defined.

Lemma privilege_granted_witness :
  exists s', privilegeViolation runsToOne Z.of_nat "shutdown" [] exampleWorld = (Ok true, s') /\
  exists s1 v n, applyMaster runsToOne Z.of_nat "privilege_violation"
    [V (Str "shutdown"); V (Obj None)] s1 = (Ok v, s') /\ data v = Int n /\ 0 < n.
Proof.
  destruct (privilegeViolation runsToOne Z.of_nat "shutdown" [] exampleWorld) as [r s'] eqn:E.
  assert (r = Ok true) as -> by (change r with (fst (r, s')); rewrite <- E; vm_compute; reflexivity).
  exists s'. split; [done|].
  destruct (privilege_granted runsToOne Z.of_nat "shutdown" [] exampleWorld s' E)
    as [(c & Hc & _)|(m & s1 & v & n & _ & _ & H)]; [discriminate Hc|].
  exists s1, v, n. exact H.
Defined.
