(* ===== verification/VM.v ===== *)
(** * VM: the interpreter loop

    [VM::run] of src/vm/VM.cpp.  [loop] is its [while]: one unit of fuel per
    instruction, shared with the calls the instruction makes.  [step] charges
    the evaluation cost and dispatches; [handler] is the pair of C++ catch
    clauses around it.  Discipline.v proves that the charge bounds every run
    that calls no efun which gives budget back: fuel above the remaining budget
    suffices for it. *)
From S2P Require Import Prelude CLib Double Value Bytecode Lookup Machine Sscanf Exec ExecIndex Calls.
Local Open Scope Z_scope.

(** The parameters of one [run] call. *)
Record RunCtx := mkCtx { rc_pid : pid; rc_fn : FunctionEntry; rc_obj : oid; rc_base : Z }.

(** Missing arguments keep the default value, extra ones are dropped. *)
Definition bindArgs (n : nat) (args locals : list Value) : list Value :=
  let k := Nat.min n (Nat.min (length args) (length locals)) in
  take k args ++ drop k locals.

Definition bindLocals (fn : FunctionEntry) (args : list Value) (s : VMState)
    : list Value * VMState :=
  let defaultLocal := if String.eqb (cfg_dialect (config s)) "fluffos"
                      then makeUndefinedNumber else VInt 0 in
  let locals := replicate (numLocals fn) defaultLocal in
  if isVarargs fn && (0 <? numArgs fn)%nat then
    let restSlot := (numArgs fn - 1)%nat in
    let '(p, h) := newArray (drop restSlot args) (hp s) in
    (<[restSlot := V (Arr (Some p))]> (bindArgs restSlot args locals), s <| hp := h |>)
  else (bindArgs (length args) args locals, s).

Definition initialFrame (fn : FunctionEntry) (locals : list Value) : Frame :=
  {| locals := locals; localStack := []; pendingVarargsDelta := 0; ip := entryPoint fn;
     catchFrames := [] |}.

(** The base of the program's variables inside the object: 0 for the object's
    own program, the recorded offset for an inherited one. *)
Definition objectVarBaseOf (p : pid) (obj : oid) (s : VMState) : outcome exn Z :=
  let own := programOf s obj in
  if decide (p = own) then Ok 0
  else match ancestorBaseOffsets (prog (programStore s) own) !! p with
       | Some base => Ok base
       | None => Throw (LpcRuntimeError
           "internal error: no object-variable base offset recorded for an inherited program")
       end.

(** Everything of [run] around its [while] loop. *)
Definition run_with (loop : RunCtx -> R Value) (p : pid) (fn : FunctionEntry)
    (args : list Value) (obj : oid) : VM Value :=
  withObjectFrame (Some obj) (
    base <- liftS (objectVarBaseOf p obj) ;;
    fun s =>
      let '(ls, s1) := bindLocals fn args s in
      let '(r, rs) := loop (mkCtx p fn obj base) (mkRun s1 (initialFrame fn ls)) in
      (r, vm rs)).

Section Interp.
Context `{EfunTable} (ticks : nat -> Z).

Section Step.
Context (ops : VMOps) (ctx : RunCtx).

Definition prOf (s : RunState) : CompiledProgram := prog (programStore (vm s)) (rc_pid ctx).

(** The arguments of a call, checked against the stack. *)
Definition callArgs (i : Instruction) (what : string) : R (list Value) :=
  argc <- effectiveArgCount i ;;
  size <- stackSize ;;
  guard (argsInRange argc size) what ;;
  takeArgs (Z.to_nat argc).

(** A bare call: local or inherited function, then the simul_efun object, then
    the efun table. *)
Definition resolveCall (name : string) (args : list Value) : VM Value :=
  own <- mgets (fun s => programOf s (rc_obj ctx)) ;;
  found <- lookupFunction own name ;;
  match found with
  | Some (p, fn) => withOrigin Local (op_run ops p fn args (rc_obj ctx))
  | None =>
      simul <- mgets simulEfunOb ;;
      simulFound <- match simul with
                    | None => mret None
                    | Some so =>
                        sp <- mgets (fun s => programOf s so) ;;
                        r <- lookupFunction sp name ;;
                        mret ((fun x => (so, x)) <$> r)
                    end ;;
      match simulFound with
      | Some (so, (p, fn)) => withOrigin SimulEfun (op_run ops p fn args so)
      | None =>
          if efun_exists name then efun_call ops name args
          else throwRuntime ("undefined function or efun: " +:+ name)
      end
  end.

Definition exec_Call (pr : CompiledProgram) (i : Instruction) : R ctl :=
  match poolAt (stringPool pr) (operand i) with
  | None => error "Call: bad function name index"
  | Some funcName =>
      args <- callArgs i ("Call: bad arg count for " +:+ funcName) ;;
      result <- onVM (resolveCall funcName args) ;;
      pushNext result
  end.

Definition exec_CallEfun (pr : CompiledProgram) (i : Instruction) : R ctl :=
  match poolAt (stringPool pr) (operand i) with
  | None => error "CallEfun: bad efun name index"
  | Some efunName =>
      args <- callArgs i ("CallEfun: bad arg count for " +:+ efunName) ;;
      result <- onVM (efun_call ops efunName args) ;;
      pushNext result
  end.

(** The qualifier in the data instruction after [CallParent]. *)
Definition parentQualifier (pr : CompiledProgram) (here : nat) : outcome exn (option string) :=
  match code pr !! S here with
  | Some q =>
      if decide (op q = CallParentQualifierSlot) then
        if operand q <? 0 then Ok None
        else match poolAt (stringPool pr) (operand q) with
             | Some s => Ok (Some s)
             | None => Throw (LpcRuntimeError "CallParent: bad qualifier string index")
             end
      else Throw (LpcRuntimeError "CallParent: missing qualifier data instruction")
  | None => Throw (LpcRuntimeError "CallParent: missing qualifier data instruction")
  end.

Definition exec_CallParent (pr : CompiledProgram) (i : Instruction) : R ctl :=
  match poolAt (stringPool pr) (operand i) with
  | None => error "CallParent: bad function name index"
  | Some funcName =>
      here <- getFr ip ;;
      qualifier <- lift (parentQualifier pr here) ;;
      args <- callArgs i ("CallParent: bad arg count for " +:+ funcName) ;;
      found <- onVM (lookupParent (rc_pid ctx) funcName qualifier) ;;
      match found with
      | None =>
          error (match qualifier with Some q => q +:+ "::" | None => "::"%string end +:+ funcName
                 +:+ "(): undefined function in inherited program")
      | Some (p, fn) =>
          result <- onVM (withOrigin Local (op_run ops p fn args (rc_obj ctx))) ;;
          push result ;;
          jumpTo (here + 2)
      end
  end.

(** The [switch]. *)
Definition dispatch (pr : CompiledProgram) (i : Instruction) : R ctl :=
  let obj := rc_obj ctx in
  let base := rc_base ctx in
  match op i with
  | PushConst => exec_PushConst pr i
  | PushInt => exec_PushInt i
  | PushFloat => exec_PushFloat pr i
  | PushNil => exec_PushNil
  | PushSymbol => exec_PushSymbol pr i
  | PushLocal => exec_PushLocal i
  | StoreLocal => exec_StoreLocal i
  | PushObjectVar => exec_PushObjectVar obj base i
  | StoreObjectVar => exec_StoreObjectVar obj base i
  | Eq | Neq => exec_EqNeq i
  | Lt | Lte | Gt | Gte => exec_compare i
  | Not => exec_Not
  | Sub | Mul | Div | Mod => exec_arith i
  | BitAnd => exec_BitAnd
  | BitOr | BitXor => exec_BitOrXor i
  | Shl | Shr => exec_Shift i
  | BitNot => exec_BitNot
  | ForeachKeys => exec_ForeachKeys
  | Jump => exec_Jump pr i
  | JumpIfFalse => exec_JumpIfFalse pr i
  | PushCatchFrame => exec_PushCatchFrame pr i
  | PopCatchFrame => exec_PopCatchFrame
  | TimeExpressionStart => exec_TimeExpressionStart ticks
  | TimeExpressionEnd => exec_TimeExpressionEnd ticks
  | Add => exec_Add
  | ExpandVarargs => exec_ExpandVarargs i
  | MakeArray => exec_MakeArray i
  | MakeMapping => exec_MakeMapping i
  | Index => exec_Index i
  | IndexAssign => exec_IndexAssign i
  | RangeIndex => exec_RangeIndex i
  | Call => exec_Call pr i
  | CallParent => exec_CallParent pr i
  | PushClosure => exec_closure pr obj i "PushClosure" false
  | PushEfunClosure => exec_closure pr obj i "PushEfunClosure" true
  | Sscanf => exec_Sscanf pr obj i
  | CallEfun => exec_CallEfun pr i
  | Pop => exec_Pop
  | Dup => exec_Dup
  | Return => exec_Return
  | Halt => mret (Returned Void)
  | CallApply | CallParentQualifierSlot | SscanfVarSlot | Suspend =>
      mthrow (NotImplementedError ("VM::run opcode " +:+ to_string (opcode_number (op i))))
  end.

(** [++evalCost_; if (evalCost_ > maxEvalCost_) throw ...] *)
Definition charge : R unit :=
  modVm (fun s => s <| evalCost ::= Z.add 1 |>) ;;
  over <- getVm (fun s => maxEvalCost s <? evalCost s) ;;
  if over : bool then mthrow (EvalCostError "eval cost exceeded") else mret tt.

Definition step : R ctl := fun s =>
  let pr := prOf s in
  match code pr !! ip (fr s) with
  | Some i => (charge ;; dispatch pr i) s
  | None => (Undefined "instruction fetch past the end", s)
  end.

(** Unwind to the innermost active [catch] of this run and resume there. *)
Definition unwind (c : CatchFrame) (cs : list CatchFrame) (v : Value) : R ctl :=
  modFr (fun f => f <| catchFrames := cs |>
                    <| localStack := v :: resizeStack (stackDepth c) (localStack f) |>
                    <| ip := resumeIp c |>) ;;
  mret Continue.

Definition here_text (s : VMState) : string :=
  fileOf s (rc_obj ctx) +:+ "::" +:+ fname (rc_fn ctx) +:+ "(): ".

Definition logCatch (msg : string) : R unit :=
  modVm (fun s => s <| stderrLog ::= cons ("[catch] " +:+ here_text s +:+ msg) |>).

(** [catch (const LpcThrownValue&)] and [catch (const LpcRuntimeError&)];
    anything else leaves the loop. *)
Definition handler (e : exn) : R ctl :=
  cs <- getFr catchFrames ;;
  match e, cs with
  | LpcThrownValue v, [] => mthrow e
  | LpcThrownValue v, c :: cs' => logCatch (what e) ;; unwind c cs' v
  | LpcRuntimeError m, [] =>
      tag <- getVm here_text ;; mthrow (LpcRuntimeError (tag +:+ m))
  | LpcRuntimeError m, c :: cs' => logCatch m ;; unwind c cs' (V (Str m))
  | _, _ => mthrow e
  end.
End Step.

Fixpoint loop (fuel : nat) (ctx : RunCtx) : R Value :=
  match fuel with
  | O => mlift OutOfFuel
  | S f => fun s =>
      if (ip (fr s) <? length (code (prOf ctx s)))%nat then
        (c <- mcatch (step (mkOps (run_with (loop f)) f ticks) ctx) (handler ctx) ;;
         match c with
         | Continue => loop f ctx
         | Returned v => mret v
         end) s
      else (Ok Void, s)
  end.

(** [VM::run] *)
Definition run (fuel : nat) : RunFn := run_with (loop fuel).
Definition vmOps (fuel : nat) : VMOps := mkOps (run fuel) fuel ticks.
End Interp.
