(* ===== verification/EvalLimit.v ===== *)
(** * EvalLimit: the efuns over the evaluation budget

    [set_eval_limit], [reset_eval_cost], [eval_cost] and [max_eval_cost] of
    src/efun/EfunTable.cpp, four names of one dispatch with defaults of their
    own.  Two of its branches give a running program budget back: 0 clears the
    cost spent so far, and any number but -1, 0 and 1 becomes the new ceiling. *)
From S2P Require Import Prelude Value Bytecode Lookup Machine Calls.
Local Open Scope Z_scope.

Definition evalLimitDispatch (x : Z) : VM Value :=
  if x =? 0 then
    unchanged <- mgets maxEvalCost ;;
    mmodify resetEvalCost ;;
    mret (VInt unchanged)
  else if x =? -1 then
    left_ <- mgets (fun s => maxEvalCost s - evalCost s) ;;
    n <- mlift (checked64 left_) ;;
    mret (VInt n)
  else if x =? 1 then
    limit <- mgets maxEvalCost ;;
    mret (VInt limit)
  else
    mmodify (setMaxEvalCost x) ;;
    mret (VInt x).

(** The first argument when it is an integer. *)
Definition limitArg (args : list Value) : option Z :=
  match args with v :: _ => match data v with Int n => Some n | _ => None end | [] => None end.

Definition set_eval_limit (ops : VMOps) (args : list Value) : VM Value :=
  match limitArg args with
  | None => throwRuntime "set_eval_limit: expected an int argument"
  | Some x => evalLimitDispatch x
  end.
Definition reset_eval_cost (ops : VMOps) (args : list Value) : VM Value :=
  evalLimitDispatch (default 0 (limitArg args)).
Definition eval_cost (ops : VMOps) (args : list Value) : VM Value :=
  evalLimitDispatch (default (-1) (limitArg args)).
Definition max_eval_cost (ops : VMOps) (args : list Value) : VM Value :=
  evalLimitDispatch (default 1 (limitArg args)).

Definition limitEfuns : list (string * (VMOps -> list Value -> VM Value)) :=
  [("set_eval_limit", set_eval_limit); ("reset_eval_cost", reset_eval_cost);
   ("eval_cost", eval_cost); ("max_eval_cost", max_eval_cost)].

Lemma findEfun_in name l f : findEfun name l = Some f -> exists n, (n, f) ∈ l.
Proof.
  induction l as [|[n g] l IH]; [done|]. cbn. destruct (String.eqb n name).
  - intros [= ->]. exists n. left.
  - intros [m Hm]%IH. exists m. by right.
Qed.

(** What holds of every efun of a list holds of every efun of its table. *)
Lemma tableOf_all P l :
  Forall (fun x => P (snd x)) l -> forall name f, efunTable (EfunTable := tableOf l) name = Some f -> P f.
Proof. intros H name f [n Hn]%findEfun_in. rewrite list.Forall_forall in H. by apply (H (n, f)). Qed.

(** The dispatch spends nothing: it only sets the cost or the ceiling, to the
    numbers its argument chooses. *)
Definition limited (x : Z) (s : VMState) : VMState :=
  s <| evalCost := if x =? 0 then 0 else evalCost s |>
    <| maxEvalCost := if bool_decide (x = 0 \/ x = -1 \/ x = 1) then maxEvalCost s else x |>.

Lemma evalLimitDispatch_state x s : snd (evalLimitDispatch x s) = limited x s.
Proof.
  unfold evalLimitDispatch, limited, resetEvalCost, setMaxEvalCost.
  destruct (Z.eqb_spec x 0) as [->|H0]; [by destruct s|].
  destruct (Z.eqb_spec x (-1)) as [->|H1].
  { cbn. unfold mbind, mlift, mgets. destruct (checked64 _); by destruct s. }
  destruct (Z.eqb_spec x 1) as [->|H2]; [by destruct s|].
  rewrite bool_decide_false by tauto. by destruct s.
Qed.
