(* ===== verification/Discipline.v ===== *)
(** * Discipline: what the opcodes leave alone, and when runs end

    [quiet]: the opcodes that do not call LPC code change the heap, object
    variables and logs only.  Three logics of [VM::run] are built on it, each
    with a contract on the efuns of the table.
    - [steady]: a computation leaves the stacks of the machine as it found them.
    - [calm k]: with a remaining evaluation budget of at most [k], a computation
      ends, restores the call stacks and never gives budget back.
    - [follows]: a computation is another one, cut short where that one calls an
      efun out of a given set ([stopAt]).
    A run ends within its budget unless it calls an efun that gives budget back
    ([set_eval_limit], [reset_eval_cost]) or that loops by itself; [run_terminates]
    says so for any such set of efuns and a table that is calm outside it. *)
From S2P Require Import Prelude CLib Double Value Bytecode Lookup Machine Sscanf Exec ExecIndex Calls VM EvalLimit.
Local Open Scope Z_scope.

(** ** Opcodes inside one frame *)
Record quiet (a b : VMState) : Prop := {
  q_callStack : callStack b = callStack a;
  q_objectChangeStack : objectChangeStack b = objectChangeStack a;
  q_originStack : originStack b = originStack a;
  q_commandGiverStack : commandGiverStack b = commandGiverStack a;
  q_verbStack : verbStack b = verbStack a;
  q_programStore : programStore b = programStore a;
  q_evalCost : evalCost b = evalCost a;
  q_maxEvalCost : maxEvalCost b = maxEvalCost a
}.

#[export] Instance quiet_preorder : PreOrder quiet.
Proof. split; [by intros a; constructor|]. intros a b c [] []. constructor; congruence. Qed.

Definition tame {A} (m : R A) : Prop :=
  always (fun _ => True) (fun s s' => quiet (vm s) (vm s')) m.

Section Tame.
Local Ltac by_rule L := apply L; try done; intros; try (by etrans); auto.

Lemma tame_ret {A} (a : A) : tame (mret a).
Proof. by_rule @always_ret. Qed.
Lemma tame_throw {A} e : tame (mthrow (A := A) e).
Proof. by_rule @always_throw. Qed.
Lemma tame_undef {A} w : tame (mundef (A := A) w).
Proof. by_rule @always_undef. Qed.
Lemma tame_gets {A} (f : RunState -> A) : tame (mgets f).
Proof. by_rule @always_gets. Qed.
Lemma tame_lift {A} (o : outcome exn A) : o <> OutOfFuel -> tame (lift o).
Proof. intros. by_rule @always_lift. Qed.
Lemma tame_bind {A B} (m : R A) (k : A -> R B) :
  tame m -> (forall a, tame (k a)) -> tame (mbind m k).
Proof. intros. by_rule @always_bind. Qed.
Lemma tame_modFr f : tame (modFr f).
Proof. by_rule @always_modify. Qed.
Lemma tame_modVm f : (forall s, quiet s (f s)) -> tame (modVm f).
Proof. intros. by_rule @always_modify. Qed.
End Tame.

Lemma tame_error {A} m : tame (error (A := A) m).
Proof. apply tame_throw. Qed.
Lemma tame_guard b m : tame (guard b m).
Proof. unfold guard. destruct b; [apply tame_ret|apply tame_error]. Qed.
Lemma tame_pop : tame pop.
Proof. intros s _. unfold pop. by destruct (localStack (fr s)). Qed.
Lemma tame_takeArgs n : tame (takeArgs n).
Proof. by intros s _. Qed.
Lemma tame_allocArray l : tame (allocArray l).
Proof. intros s _. split; [done|]. by constructor. Qed.
Lemma tame_allocMapping m : tame (allocMapping m).
Proof. intros s _. split; [done|]. by constructor. Qed.
Lemma tame_allocClosure c : tame (allocClosure c).
Proof. intros s _. split; [done|]. by constructor. Qed.
Lemma quiet_setOb o f s : quiet s (setOb o f s).
Proof. by constructor. Qed.
Lemma checked32_not_fuel z : checked32 (E := exn) z <> OutOfFuel.
Proof. unfold checked32. by case_match. Qed.
Lemma checked64_not_fuel z : checked64 (E := exn) z <> OutOfFuel.
Proof. unfold checked64. by case_match. Qed.
Lemma to_int64_not_fuel d : Dbl.to_int64 (E := exn) d <> OutOfFuel.
Proof. unfold Dbl.to_int64. by repeat case_match. Qed.
Lemma quiet_modHeap f s : quiet s (s <| hp ::= f |>).
Proof. by constructor. Qed.

Create HintDb tame.
#[export] Hint Resolve tame_ret tame_throw tame_undef tame_gets tame_lift tame_modFr tame_modVm
  tame_error tame_guard tame_pop tame_takeArgs tame_allocArray tame_allocMapping tame_allocClosure
  quiet_setOb quiet_modHeap checked32_not_fuel checked64_not_fuel to_int64_not_fuel : tame.

(** Follow the binds of a handler and the branches of its code. *)
Ltac tame_tac :=
  repeat first
    [ progress intros
    | apply tame_bind
    | solve [auto with tame amlp]
    | case_goal
    | progress unfold push, next, pushNext, jumpTo, require, stackSize, getFr, getVm, itemsOf,
        objVars, setObjVar, modHeap, fromEnd, effectiveArgCount ].

Section Opcodes.
Context (pr : CompiledProgram) (obj : oid) (base : Z) (i : Instruction) (ticks : nat -> Z).

Lemma tame_pop2 m : tame (pop2 m).
Proof. unfold pop2. tame_tac. Qed.
Local Hint Resolve tame_pop2 : tame.

Lemma tame_storeSscanf slots vals : tame (storeSscanf obj slots vals).
Proof. revert vals. induction slots; intros [|v vals]; simpl; tame_tac. Qed.
Local Hint Resolve tame_storeSscanf : tame.

Lemma tame_arithmetic l r : tame (arithmetic i l r).
Proof. unfold arithmetic. tame_tac. Qed.
Local Hint Resolve tame_arithmetic : tame.

Lemma tame_addValues l r : tame (addValues l r).
Proof. unfold addValues, addMappings, fileNameOf, addUnsupported. tame_tac. Qed.
Local Hint Resolve tame_addValues : tame.

Lemma tame_mapColumn b v m : tame (mapColumn b v m).
Proof. unfold mapColumn. tame_tac. Qed.
Local Hint Resolve tame_mapColumn : tame.
Lemma tame_index l v1 v2 b : tame (indexArray i l v1) /\ tame (indexMapping b l v1 v2).
Proof. split; [unfold indexArray|unfold indexMapping]; tame_tac. Qed.
Lemma tame_now : tame (now ticks).
Proof. unfold now. tame_tac. by constructor. Qed.
Local Hint Resolve tame_now : tame.

Lemma tame_exec_simple :
  tame (exec_PushConst pr i) /\ tame (exec_PushInt i) /\ tame (exec_PushFloat pr i) /\
  tame exec_PushNil /\ tame (exec_PushSymbol pr i) /\ tame (exec_PushLocal i) /\
  tame (exec_StoreLocal i) /\ tame (exec_PushObjectVar obj base i) /\
  tame (exec_StoreObjectVar obj base i) /\ tame (exec_EqNeq i) /\ tame (exec_compare i) /\
  tame exec_Not /\ tame (exec_arith i) /\ tame exec_BitAnd /\ tame (exec_BitOrXor i) /\
  tame (exec_Shift i) /\ tame exec_BitNot /\ tame exec_ForeachKeys /\ tame (exec_Jump pr i) /\
  tame (exec_JumpIfFalse pr i) /\ tame (exec_PushCatchFrame pr i) /\ tame exec_PopCatchFrame.
Proof.
  repeat split_and; unfold exec_PushConst, exec_PushInt, exec_PushFloat, exec_PushNil,
    exec_PushSymbol, exec_PushLocal, exec_StoreLocal, exec_PushObjectVar, exec_StoreObjectVar,
    exec_EqNeq, exec_compare, exec_Not, exec_arith, exec_BitAnd, exec_BitOrXor, exec_Shift,
    exec_BitNot, exec_ForeachKeys, exec_Jump, exec_JumpIfFalse, exec_PushCatchFrame,
    exec_PopCatchFrame; tame_tac.
Qed.

Lemma tame_exec_more :
  tame (exec_TimeExpressionStart ticks) /\ tame (exec_TimeExpressionEnd ticks) /\
  tame exec_Add /\ tame (exec_ExpandVarargs i) /\ tame (exec_MakeArray i) /\
  tame (exec_MakeMapping i) /\ tame (exec_Index i) /\ tame (exec_IndexAssign i) /\
  tame (exec_RangeIndex i) /\ (forall n b, tame (exec_closure pr obj i n b)) /\
  tame (exec_Sscanf pr obj i) /\ tame exec_Pop /\ tame exec_Dup /\ tame exec_Return.
Proof.
  repeat split_and; unfold exec_TimeExpressionStart, exec_TimeExpressionEnd, exec_Add,
    exec_ExpandVarargs, exec_MakeArray, exec_MakeMapping, exec_Index, exec_IndexAssign,
    exec_RangeIndex, exec_closure, exec_Sscanf, exec_Pop, exec_Dup, exec_Return,
    indexArray, indexMapping, indexString, assignArray, assignMapping, resolveBounds; tame_tac.
  all: by constructor.
Qed.
End Opcodes.

(** ** Calls *)

(** What is left of the evaluation budget. *)
Definition budget (s : VMState) : nat := Z.to_nat (maxEvalCost s - evalCost s).

Record restores (a b : VMState) : Prop := {
  r_callStack : callStack b = callStack a;
  r_objectChangeStack : objectChangeStack b = objectChangeStack a;
  r_originStack : originStack b = originStack a;
  r_budget : (budget b <= budget a)%nat;
  r_acyclic : acyclic (programStore a) -> acyclic (programStore b)
}.

#[export] Instance restores_preorder : PreOrder restores.
Proof.
  split; [by intros a; constructor|].
  intros a b c [] []. constructor; try congruence; [lia|auto].
Qed.

Lemma quiet_restores a b : quiet a b -> restores a b.
Proof. intros []. constructor; unfold budget; congruence || lia || intros; congruence. Qed.

Definition within (k : nat) (s : VMState) : Prop := acyclic (programStore s) /\ (budget s <= k)%nat.

Lemma within_restores k a b : within k a -> restores a b -> within k b.
Proof. intros [] []. split; [auto|lia]. Qed.

Definition calm {A} (k : nat) (m : VM A) : Prop := always (within k) restores m.
Definition calmR {A} (k : nat) (m : R A) : Prop :=
  always (fun s => within k (vm s)) (fun s s' => restores (vm s) (vm s')) m.

(** An efun that is calm when the interpreter it calls back is, with less budget
    than fuel; [efuns_calm] asks it of a whole table. *)
Definition calmEfun (f : VMOps -> list Value -> VM Value) : Prop :=
  forall ops k args, (k < op_fuel ops)%nat ->
    (forall p fn a o, calm k (op_run ops p fn a o)) -> calm k (f ops args).
Definition efuns_calm `{EfunTable} : Prop := forall name f, efunTable name = Some f -> calmEfun f.

Section CalmRules.
Context (k : nat).
Local Ltac by_rule L :=
  apply L; try done; intros; try (by etrans); eauto using within_restores.

Lemma calm_ret {A} (a : A) : calm k (mret a).
Proof. by_rule @always_ret. Qed.
Lemma calm_throw {A} e : calm k (mthrow (A := A) e).
Proof. by_rule @always_throw. Qed.
Lemma calm_gets {A} (f : VMState -> A) : calm k (mgets f).
Proof. by_rule @always_gets. Qed.
Lemma calm_bind {A B} (m : VM A) (f : A -> VM B) :
  calm k m -> (forall a, calm k (f a)) -> calm k (mbind m f).
Proof. intros. by_rule @always_bind. Qed.
Lemma calmR_ret {A} (a : A) : calmR k (mret a).
Proof. by_rule @always_ret. Qed.
Lemma calmR_bind {A B} (m : R A) (f : A -> R B) :
  calmR k m -> (forall a, calmR k (f a)) -> calmR k (mbind m f).
Proof. intros. by_rule @always_bind. Qed.
Lemma calmR_catch {A} (m : R A) h :
  calmR k m -> (forall e, calmR k (h e)) -> calmR k (mcatch m h).
Proof. intros. by_rule @always_catch. Qed.
Lemma tame_calm {A} (m : R A) : tame m -> calmR k m.
Proof.
  apply always_weaken; [done|]. intros a b. apply quiet_restores.
Qed.

Lemma calm_onVM {A} (m : VM A) : calm k m -> calmR k (onVM m).
Proof.
  intros Hm s Hs. unfold onVM. destruct (Hm (vm s) Hs) as [N R].
  by destruct (m (vm s)).
Qed.

Lemma calm_withOrigin {A} o (m : VM A) : calm k m -> calm k (withOrigin o m).
Proof.
  intros Hm s Hs. unfold withOrigin, mfinally.
  destruct (Hm (pushOrigin o s)) as [N [? ? R ? ?]]; [exact Hs|].
  destruct (m (pushOrigin o s)) as [r s']. simpl in *. split; [done|].
  constructor; try done. simpl. by rewrite R.
Qed.

Lemma calm_withObjectFrame {A} o (m : VM A) : calm k m -> calm k (withObjectFrame o m).
Proof.
  intros Hm s Hs. unfold withObjectFrame, mfinally.
  assert (within k (enterFrame o s)) as Hw by (unfold enterFrame; by destruct (objectChanged o s)).
  destruct (Hm _ Hw) as [N [R1 R2 R3 R4 R5]]. destruct (m (enterFrame o s)) as [r s'].
  unfold leaveFrame, enterFrame in *. simpl in *.
  destruct (objectChanged o s); simpl in *; (split; [done|]); constructor; simpl;
    rewrite ?R1, ?R2; try done.
Qed.

Lemma calm_onCache {A} (f : programs -> M chainCache exn A) :
  (forall P c, acyclic P -> fst (f P c) <> OutOfFuel) -> calm k (onCache f).
Proof.
  intros Hf s [Ha Hb]. unfold onCache. specialize (Hf _ (functionChainCache s) Ha).
  destruct (f _ _) as [r c]. split; [done|]. by constructor.
Qed.

Lemma calm_lookupFunction p name : calm k (lookupFunction p name).
Proof. apply calm_onCache. intros P c. apply find_chain_not_fuel. Qed.

Lemma calm_lookupParent p name q : calm k (lookupParent p name q).
Proof.
  apply calm_onCache. intros P c Ha. unfold findParentFunction, lookupFuel.
  destruct q as [q|].
  - destruct (qualifiedParent _ _ _); [by apply find_chain_not_fuel|done].
  - apply firstFound_total. intros. by apply find_chain_not_fuel.
Qed.
End CalmRules.

Create HintDb calm.
#[export] Hint Resolve calm_ret calm_throw calm_gets calm_lookupFunction calm_lookupParent
  calm_withOrigin calm_withObjectFrame calm_onVM calmR_ret tame_calm : calm.

Ltac calm_tac :=
  repeat first
    [ progress intros
    | apply calm_bind
    | apply calmR_bind
    | solve [auto with calm tame]
    | case_goal
    | apply tame_calm; solve [tame_tac] ].

Section Interp.
Context `{EfunTable} (ticks : nat -> Z) (Hefuns : efuns_calm).

Section OneStep.
Context (k : nat) (ops : VMOps) (ctx : RunCtx).
Context (Hrun : forall p fn a o, calm k (op_run ops p fn a o)) (Hfuel : (k < op_fuel ops)%nat).

Lemma calm_efun_call name args : calm k (efun_call ops name args).
Proof using Hefuns Hrun Hfuel.
  unfold efun_call. destruct (efunTable name) eqn:E; [by eapply (Hefuns name)|apply calm_throw].
Qed.
Local Hint Resolve calm_efun_call : calm.

Lemma calm_resolveCall name args : calm k (resolveCall ops ctx name args).
Proof using Hefuns Hrun Hfuel. unfold resolveCall, throwRuntime. calm_tac. Qed.
Local Hint Resolve calm_resolveCall : calm.

Lemma tame_callArgs i m : tame (callArgs i m).
Proof using. unfold callArgs. tame_tac. Qed.
Local Hint Resolve tame_callArgs : tame.

Lemma parentQualifier_not_fuel pr here : parentQualifier pr here <> OutOfFuel.
Proof using. unfold parentQualifier. repeat case_match; done. Qed.
Local Hint Resolve parentQualifier_not_fuel : tame.

Lemma calm_exec_calls pr i :
  calmR k (exec_Call ops ctx pr i) /\ calmR k (exec_CallEfun ops pr i) /\
  calmR k (exec_CallParent ops ctx pr i).
Proof using Hefuns Hrun Hfuel.
  unfold exec_Call, exec_CallEfun, exec_CallParent. repeat split_and; calm_tac.
Qed.

Lemma calm_dispatch pr i : calmR k (dispatch ticks ops ctx pr i).
Proof using Hefuns Hrun Hfuel.
  pose proof (calm_exec_calls pr i) as (C1 & C2 & C3).
  pose proof (tame_exec_simple pr (rc_obj ctx) (rc_base ctx) i) as T1.
  pose proof (tame_exec_more pr (rc_obj ctx) i ticks) as T2.
  destruct_and! T1. destruct_and! T2.
  unfold dispatch. destruct (op i); auto with calm tame.
Qed.
End OneStep.

(** [charge] spends one unit, or throws. *)
Lemma charge_spec s :
  exists s', fr s' = fr s /\ restores (vm s) (vm s') /\
    (charge s = (Ok tt, s') /\ (budget (vm s') < budget (vm s))%nat \/
     charge s = (Throw (EvalCostError "eval cost exceeded"), s')).
Proof.
  unfold charge, modVm, getVm, mbind, mmodify, mgets. simpl.
  eexists (s <| vm ::= fun v => v <| evalCost ::= Z.add 1 |> |>).
  split; [done|]. split.
  { constructor; try done. unfold budget. simpl. lia. }
  destruct (Z.ltb_spec (maxEvalCost (vm s)) (1 + evalCost (vm s))); [by right|].
  left. split; [done|]. unfold budget. simpl. lia.
Qed.

Lemma handler_tame ctx e : tame (handler ctx e).
Proof. unfold handler, logCatch, unwind. tame_tac. all: by constructor. Qed.

(** The step is calm, and it has spent budget when it goes on. *)
Lemma step_calm k ops ctx s :
  ((0 < k)%nat -> (forall p fn a o, calm (k - 1) (op_run ops p fn a o)) /\
                  (k - 1 < op_fuel ops)%nat) ->
  within k (vm s) ->
  let '(r, s') := mcatch (step ticks ops ctx) (handler ctx) s in
  r <> OutOfFuel /\ restores (vm s) (vm s') /\
  (forall c, r = Ok c -> (budget (vm s') < budget (vm s))%nat).
Proof.
  intros Hops [Ha Hb]. unfold mcatch, step.
  destruct (code _ !! _) as [i|]; [|done]. unfold mbind.
  destruct (charge_spec s) as (s1 & F & R1 & [[-> B]| ->]).
  - destruct Hops as [Hrun Hfuel]; [lia|].
    destruct (calm_dispatch (k - 1) ops ctx Hrun Hfuel (prOf ctx s) i s1) as [N R2].
    { split; [by apply R1|lia]. }
    destruct (dispatch _ _ _ _ _ s1) as [[c|e|w|] s2]; simpl in *; try done.
    + split; [done|]. split; [by etrans|]. intros _ _. destruct R2. lia.
    + destruct (handler_tame ctx e s2 I) as [N3 Q3]. destruct (handler ctx e s2) as [r s3].
      simpl in *. apply quiet_restores in Q3. split; [done|].
      split; [by etrans; [|etrans]|]. intros c _. destruct R2, Q3. lia.
    + split; [done|]. split; [by etrans|]. done.
  - destruct (handler_tame ctx (EvalCostError "eval cost exceeded") s1 I) as [N3 Q3].
    unfold handler, mbind, getFr, mgets in *. simpl in *.
    by destruct (catchFrames (fr s1)).
Qed.

Lemma calm_run_with lp k p fn args obj :
  (forall ctx, calmR k (lp ctx)) -> calm k (run_with lp p fn args obj).
Proof.
  intros Hl. unfold run_with. apply calm_withObjectFrame, calm_bind.
  - intros s Hs. unfold liftS, objectVarBaseOf. simpl.
    by repeat case_match.
  - intros base s Hs. unfold bindLocals. set (ls := replicate _ _).
    destruct (_ && _).
    + destruct (Hl (mkCtx p fn obj base) (mkRun (s <| hp := snd (newArray (drop (numArgs fn - 1) args) (hp s)) |>)
        (initialFrame fn (<[(numArgs fn - 1)%nat := V (Arr (Some (nextLoc (hp s))))]>
           (bindArgs (numArgs fn - 1) args ls))))) as [N R]; [exact Hs|].
      simpl in *. destruct (lp _ _). simpl in *. split; [done|]. destruct R. by constructor.
    + destruct (Hl (mkCtx p fn obj base) (mkRun s (initialFrame fn (bindArgs (length args) args ls))))
        as [N R]; [exact Hs|]. by destruct (lp _ _).
Qed.

Lemma loop_calm fuel : forall k ctx, (k < fuel)%nat -> calmR k (loop ticks fuel ctx).
Proof.
  induction fuel as [|f IH]; intros k ctx Hk; [lia|]. intros s Hs. simpl.
  destruct (_ <? _)%nat; [|done]. destruct Hs as [Ha Hb].
  pose proof (step_calm (budget (vm s)) (mkOps (run_with (loop ticks f)) f ticks) ctx s) as St.
  unfold mbind. destruct (mcatch _ _ s) as [r s1]. destruct St as (N & R & D).
  { intros Hpos. split; [|simpl; lia]. intros p fn a o. apply calm_run_with.
    intros ctx'. apply IH. lia. }
  { by split. }
  destruct r as [[|v]|e|w|]; try done.
  destruct (IH (budget (vm s1)) ctx ltac:(specialize (D _ eq_refl); lia) s1) as [N2 R2].
  { split; [by apply R|done]. }
  split; [done|by etrans].
Qed.

Lemma run_calm fuel k p fn args obj : (k < fuel)%nat -> calm k (run ticks fuel p fn args obj).
Proof. intros Hk. apply calm_run_with. intros ctx. by apply loop_calm. Qed.
End Interp.

(** ** The stacks *)

(** The stacks of the machine that a call pushes and pops. *)
Record balanced (a b : VMState) : Prop := {
  b_callStack : callStack b = callStack a;
  b_objectChangeStack : objectChangeStack b = objectChangeStack a;
  b_originStack : originStack b = originStack a;
  b_commandGiverStack : commandGiverStack b = commandGiverStack a;
  b_verbStack : verbStack b = verbStack a
}.

#[export] Instance balanced_preorder : PreOrder balanced.
Proof. split; [by intros a; constructor|]. intros a b c [] []. constructor; congruence. Qed.

Lemma quiet_balanced a b : quiet a b -> balanced a b.
Proof. by intros []. Qed.

Definition steady {A} (m : VM A) : Prop := moves balanced m.
Definition steadyR {A} (m : R A) : Prop := moves (fun s s' => balanced (vm s) (vm s')) m.

(** The contract on the efun table: no efun changes a stack but by calling LPC
    code, which is steady by induction.  (The members of [VM] the stacks are kept
    in have no other access than the guards of the calls.) *)
Definition efuns_steady `{EfunTable} : Prop :=
  forall name f ops args, efunTable name = Some f ->
    (forall p fn a o, steady (op_run ops p fn a o)) -> steady (f ops args).

Section SteadyRules.
Local Ltac by_rule L := apply L; try assumption; intros a b c ? ?; by etrans.

Lemma steady_bind {A B} (m : VM A) (f : A -> VM B) : steady m -> (forall a, steady (f a)) -> steady (mbind m f).
Proof. intros. by_rule @moves_bind. Qed.
Lemma steadyR_bind {A B} (m : R A) (f : A -> R B) : steadyR m -> (forall a, steadyR (f a)) -> steadyR (mbind m f).
Proof. intros. by_rule @moves_bind. Qed.
Lemma steadyR_catch {A} (m : R A) h : steadyR m -> (forall e, steadyR (h e)) -> steadyR (mcatch m h).
Proof. intros. by_rule @moves_catch. Qed.
Lemma steady_ret {A} (a : A) : steady (mret a).
Proof. by intros s. Qed.
Lemma steady_throw {A} e : steady (mthrow (A := A) e).
Proof. by intros s. Qed.
Lemma steady_gets {A} (f : VMState -> A) : steady (mgets f).
Proof. by intros s. Qed.
Lemma steady_onCache {A} (f : programs -> M chainCache exn A) : steady (onCache f).
Proof. intros s. unfold onCache. by destruct (f _ _). Qed.
Lemma tame_steady {A} (m : R A) : tame m -> steadyR m.
Proof. intros Hm. apply always_moves. revert Hm. apply always_weaken; [done|]. intros a b. apply quiet_balanced. Qed.
Lemma steady_onVM {A} (m : VM A) : steady m -> steadyR (onVM m).
Proof. intros Hm s. unfold onVM. specialize (Hm (vm s)). by destruct (m (vm s)). Qed.

Lemma steady_withOrigin {A} o (m : VM A) : steady m -> steady (withOrigin o m).
Proof.
  intros Hm s. unfold withOrigin, mfinally. specialize (Hm (pushOrigin o s)).
  destruct (m (pushOrigin o s)) as [r s']. destruct Hm as [? ? R ? ?]. constructor; try done. simpl in *. by rewrite R.
Qed.
Lemma steady_withObjectFrame {A} o (m : VM A) : steady m -> steady (withObjectFrame o m).
Proof.
  intros Hm s. unfold withObjectFrame, mfinally. specialize (Hm (enterFrame o s)).
  destruct (m (enterFrame o s)) as [r s']. destruct Hm as [R1 R2 R3 R4 R5].
  unfold leaveFrame, enterFrame in *. simpl in *.
  destruct (objectChanged o s); simpl in *; constructor; simpl; rewrite ?R1, ?R2; done.
Qed.
End SteadyRules.

Create HintDb steady.
#[export] Hint Resolve steady_ret steady_throw steady_gets steady_onCache steady_withOrigin
  steady_withObjectFrame steady_onVM tame_steady : steady.

Ltac steady_tac :=
  repeat first
    [ progress intros
    | apply steady_bind
    | apply steadyR_bind
    | solve [auto with steady tame]
    | case_goal
    | apply tame_steady; solve [tame_tac] ].

Section Steady.
Context `{EfunTable} (ticks : nat -> Z) (Hefuns : efuns_steady).

Section OneStep.
Context (ops : VMOps) (ctx : RunCtx) (Hrun : forall p fn a o, steady (op_run ops p fn a o)).

Lemma steady_efun_call name args : steady (efun_call ops name args).
Proof using Hefuns Hrun.
  unfold efun_call. destruct (efunTable name) eqn:E; [by eapply Hefuns|apply steady_throw].
Qed.
Local Hint Resolve steady_efun_call tame_callArgs parentQualifier_not_fuel : steady tame.

Lemma steady_resolveCall name args : steady (resolveCall ops ctx name args).
Proof using Hefuns Hrun. unfold resolveCall, throwRuntime, lookupFunction. steady_tac. Qed.
Local Hint Resolve steady_resolveCall : steady.

Lemma steady_dispatch pr i : steadyR (dispatch ticks ops ctx pr i).
Proof using Hefuns Hrun.
  pose proof (tame_exec_simple pr (rc_obj ctx) (rc_base ctx) i) as T1.
  pose proof (tame_exec_more pr (rc_obj ctx) i ticks) as T2.
  destruct_and! T1. destruct_and! T2.
  unfold dispatch. destruct (op i); auto with steady tame;
    unfold exec_Call, exec_CallEfun, exec_CallParent, lookupParent; steady_tac.
Qed.
End OneStep.

Lemma charge_steady : steadyR charge.
Proof using. intros s. unfold charge, modVm, getVm, mbind, mmodify, mgets. simpl. by destruct (_ <? _). Qed.

Lemma steady_step ops ctx :
  (forall p fn a o, steady (op_run ops p fn a o)) -> steadyR (mcatch (step ticks ops ctx) (handler ctx)).
Proof using Hefuns.
  intros Hrun. apply steadyR_catch; [|intros e; apply tame_steady, handler_tame].
  intros s. unfold step. destruct (code _ !! _) as [i|]; [|done].
  apply steadyR_bind; [|intros []; by apply steady_dispatch].
  apply charge_steady.
Qed.

Lemma steady_run_with lp p fn args obj : (forall ctx, steadyR (lp ctx)) -> steady (run_with lp p fn args obj).
Proof using.
  intros Hl. unfold run_with. apply steady_withObjectFrame, steady_bind; [by intros s|].
  intros base s. destruct (bindLocals fn args s) as [ls s1] eqn:E.
  assert (balanced s s1) as B.
  { revert E. unfold bindLocals. destruct (_ && _); cbn; by intros [= _ <-]. }
  specialize (Hl (mkCtx p fn obj base) (mkRun s1 (initialFrame fn ls))).
  destruct (lp _ _) as [r rs]. by etrans.
Qed.

Lemma steady_loop fuel : forall ctx, steadyR (loop ticks fuel ctx).
Proof using Hefuns.
  induction fuel as [|f IH]; intros ctx s; [done|]. cbn [loop]. destruct (_ <? _)%nat; [|done].
  apply steadyR_bind; [|intros []; [apply IH|by intros ?]].
  apply steady_step. intros p fn a o. by apply steady_run_with.
Qed.

Lemma steady_run fuel p fn args obj : steady (run ticks fuel p fn args obj).
Proof using Hefuns. apply steady_run_with, steady_loop. Qed.
End Steady.

(** ** Runs cut short *)

(** The table in which the efuns that [P] names are not followed. *)
Definition stopMark : string := "an efun that is not followed".
Definition stopAt (P : string -> bool) (T : EfunTable) : EfunTable := fun name =>
  match T name with
  | Some f => Some (if P name then fun _ _ => mundef stopMark else f)
  | None => None
  end.

(** [m'] is [m], or is cut short. *)
Definition follows {S E A} (m' m : M S E A) : Prop :=
  forall s, fst (m' s) = Undefined stopMark \/ m' s = m s.

Section FollowRules.
Context {S E : Type}.

Lemma follows_refl {A} (m : M S E A) : follows m m.
Proof. by right. Qed.
Lemma follows_bind {A B} (m' m : M S E A) (k' k : A -> M S E B) :
  follows m' m -> (forall a, follows (k' a) (k a)) -> follows (mbind m' k') (mbind m k).
Proof.
  intros Hm Hk s. unfold mbind. destruct (Hm s) as [E1| ->].
  - left. destruct (m' s) as [[]]; cbn in *; congruence.
  - destruct (m s) as [[]]; try by right. apply Hk.
Qed.
Lemma follows_catch {A} (m' m : M S E A) h : follows m' m -> follows (mcatch m' h) (mcatch m h).
Proof.
  intros Hm s. unfold mcatch. destruct (Hm s) as [E1| ->]; [|by right].
  left. destruct (m' s) as [[]]; cbn in *; congruence.
Qed.
End FollowRules.

Lemma follows_finally {A} (m' m : VM A) (f g : VMState -> VMState) s :
  follows m' m -> fst (mfinally m' f (g s)) = Undefined stopMark \/ mfinally m' f (g s) = mfinally m f (g s).
Proof.
  intros Hm. unfold mfinally. destruct (Hm (g s)) as [E1| ->]; [|by right].
  left. by destruct (m' (g s)).
Qed.
Lemma follows_withOrigin {A} o (m' m : VM A) : follows m' m -> follows (withOrigin o m') (withOrigin o m).
Proof. intros Hm s. by apply (follows_finally m' m _ (pushOrigin o)). Qed.
Lemma follows_withObjectFrame {A} o (m' m : VM A) :
  follows m' m -> follows (withObjectFrame o m') (withObjectFrame o m).
Proof. intros Hm s. by apply (follows_finally m' m _ (enterFrame o)). Qed.
Lemma follows_onVM {A} (m' m : VM A) : follows m' m -> follows (onVM m') (onVM m).
Proof.
  intros Hm s. unfold onVM. destruct (Hm (vm s)) as [E1| ->]; [|by right].
  left. by destruct (m' (vm s)).
Qed.

(** The same interpreter, with runs cut short. *)
Record follows_ops (ops' ops : VMOps) : Prop := {
  fo_run p fn a o : follows (op_run ops' p fn a o) (op_run ops p fn a o);
  fo_fuel : op_fuel ops' = op_fuel ops;
  fo_ticks : op_ticks ops' = op_ticks ops
}.

(** An efun that reaches the interpreter only by calling it. *)
Definition uniformEfun (f : VMOps -> list Value -> VM Value) : Prop :=
  forall ops' ops args, follows_ops ops' ops -> follows (f ops' args) (f ops args).

Create HintDb follows.
#[export] Hint Resolve follows_refl follows_withOrigin follows_withObjectFrame follows_onVM : follows.

Ltac follows_tac :=
  repeat first
    [ progress intros
    | apply follows_bind
    | solve [auto with follows]
    | case_goal ].

Section Follow.
Context (T : EfunTable) (P : string -> bool) (ticks : nat -> Z).
Context (Huniform : forall name f, P name = false -> T name = Some f -> uniformEfun f).

Section OneStep.
Context (ops' ops : VMOps) (ctx : RunCtx) (Hops : follows_ops ops' ops).

Lemma follows_efun_call name args :
  follows (efun_call (H := stopAt P T) ops' name args) (efun_call (H := T) ops name args).
Proof using Huniform Hops.
  unfold efun_call, efunTable, stopAt. destruct (T name) as [f|] eqn:E; [|apply follows_refl].
  destruct (P name) eqn:EP; [by left|]. by eapply Huniform.
Qed.
Lemma stopAt_exists name : efun_exists (H := stopAt P T) name = efun_exists (H := T) name.
Proof using. unfold efun_exists, efunTable, stopAt. by destruct (T name). Qed.

Local Hint Resolve follows_efun_call : follows.
Local Hint Resolve fo_run : follows.

Lemma follows_resolveCall name args :
  follows (resolveCall (H := stopAt P T) ops' ctx name args) (resolveCall (H := T) ops ctx name args).
Proof using Huniform Hops. unfold resolveCall. rewrite stopAt_exists. destruct Hops. follows_tac. Qed.
Local Hint Resolve follows_resolveCall : follows.

Lemma follows_dispatch pr i :
  follows (dispatch (H := stopAt P T) ticks ops' ctx pr i) (dispatch (H := T) ticks ops ctx pr i).
Proof using Huniform Hops.
  destruct Hops. unfold dispatch. destruct (op i); try apply follows_refl;
    unfold exec_Call, exec_CallEfun, exec_CallParent; follows_tac.
Qed.
End OneStep.

Lemma follows_run_with lp' lp p fn args obj :
  (forall ctx, follows (lp' ctx) (lp ctx)) -> follows (run_with lp' p fn args obj) (run_with lp p fn args obj).
Proof using.
  intros Hl. unfold run_with. apply follows_withObjectFrame, follows_bind; [apply follows_refl|].
  intros base s. destruct (bindLocals fn args s) as [ls s1].
  destruct (Hl (mkCtx p fn obj base) (mkRun s1 (initialFrame fn ls))) as [E| ->]; [|by right].
  left. by destruct (lp' _ _).
Qed.

Lemma follows_loop fuel : forall ctx,
  follows (loop (H := stopAt P T) ticks fuel ctx) (loop (H := T) ticks fuel ctx).
Proof using Huniform.
  induction fuel as [|f IH]; intros ctx s; [by right|]. cbn [loop]. destruct (_ <? _)%nat; [|by right].
  apply follows_bind; [|intros []; [apply IH|apply follows_refl]]. apply follows_catch.
  intros s'. unfold step. destruct (code _ !! _) as [i|]; [|by right].
  apply follows_bind; [apply follows_refl|]. intros _. apply follows_dispatch.
  constructor; [|done|done]. intros p fn a o. by apply follows_run_with.
Qed.

Lemma follows_run fuel p fn args obj :
  follows (run (H := stopAt P T) ticks fuel p fn args obj) (run (H := T) ticks fuel p fn args obj).
Proof using Huniform. apply follows_run_with, follows_loop. Qed.

Lemma stopAt_calm :
  (forall name f, P name = false -> T name = Some f -> calmEfun f) -> efuns_calm (H := stopAt P T).
Proof using.
  intros Hc name f. unfold efunTable, stopAt. destruct (T name) as [g|] eqn:E; [|done].
  destruct (P name) eqn:EP; intros [= <-]; [|by eapply Hc].
  intros ops k args _ _ s _. split; [done|]. by apply quiet_restores.
Qed.
End Follow.

(** ** Theorems *)
Section Theorems.
Context `{EfunTable} (ticks : nat -> Z).

(** C1: when [VM::run] ends.  Take any set of efun names that holds the efuns that
    give budget back or loop by themselves: every other efun of the table is calm,
    and uniform in the interpreter it is given.  With more fuel than there is
    budget left, a run of any function of any program, cut short where it calls
    an efun of the set, never exhausts the fuel; and unless it is cut short there
    it is the run itself.  So the evaluation cost that is charged per instruction
    bounds every loop and recursion of LPC code: within its budget a run returns,
    throws, reaches undefined behaviour or calls an efun of the set. *)
Theorem run_terminates (risky : string -> bool) fuel p fn args obj s :
  (forall name f, risky name = false -> efunTable name = Some f -> calmEfun f /\ uniformEfun f) ->
  acyclic (programStore s) -> (budget s < fuel)%nat ->
  let cut := run (H := stopAt risky H) ticks fuel p fn args obj s in
  fst cut <> OutOfFuel /\ (fst cut = Undefined stopMark \/ run ticks fuel p fn args obj s = cut).
Proof.
  intros He Ha Hf cut. split.
  - refine (proj1 (run_calm (H := stopAt risky H) ticks _ fuel (budget s) p fn args obj Hf s _)); [|by split].
    apply stopAt_calm. intros name f EP E. by apply (He name f).
  - destruct (follows_run H risky ticks (fun name f EP E => proj2 (He name f EP E)) fuel p fn args obj s); auto.
Qed.

(** C2: however a run ends (value, error, eval-cost abort, or cut off at any
    fuel), it leaves the call stack, the [previous_object] stack, the origin
    stack, the command giver stack and the verb stack exactly as it found them,
    for every efun table whose efuns change the stacks by calling LPC code only. *)
Theorem run_restores_stacks fuel p fn args obj s r s' :
  efuns_steady -> run ticks fuel p fn args obj s = (r, s') ->
  callStack s' = callStack s /\ objectChangeStack s' = objectChangeStack s /\
  originStack s' = originStack s /\ commandGiverStack s' = commandGiverStack s /\ verbStack s' = verbStack s.
Proof.
  intros He E. destruct (steady_run ticks He fuel p fn args obj s). by rewrite E in *.
Qed.

(** C3: once the budget is spent the next instruction throws
    [EvalCostError], and no active [catch] of the run intercepts it. *)
Theorem eval_cost_error_uncatchable fuel ctx s :
  maxEvalCost (vm s) <= evalCost (vm s) -> (ip (fr s) < length (code (prOf ctx s)))%nat ->
  exists s', loop ticks (S fuel) ctx s = (Throw (EvalCostError "eval cost exceeded"), s') /\
    catchFrames (fr s') = catchFrames (fr s).
Proof.
  intros Hb Hip. simpl. destruct (Nat.ltb_spec (ip (fr s)) (length (code (prOf ctx s)))); [|lia].
  destruct (lookup_lt_is_Some_2 _ _ Hip) as [i Ei].
  destruct (charge_spec s) as (s1 & F & R & [[E B]| E]).
  - unfold budget in B. destruct R. unfold budget in *. lia.
  - exists s1. unfold mbind at 1, mcatch, step. rewrite Ei. unfold mbind at 1. rewrite E.
    unfold handler, mbind, getFr, mgets. simpl. rewrite F. by destruct (catchFrames (fr s)).
Qed.

(** The value a [catch] yields for an exception it intercepts. *)
Definition caughtValue (e : exn) : option Value :=
  match e with
  | LpcThrownValue v => Some v
  | LpcRuntimeError m => Some (V (Str m))
  | _ => None
  end.

(** C20: an LPC error raised while a [catch] is active resumes the run at that
    catch's target with the frames outside it, the operand stack exactly as it
    was when the catch was entered, and the thrown value (or the message) on
    top; the machine only gains a log line. *)
Theorem catch_resumes fuel ctx s i s1 e v c cs extra base :
  (ip (fr s) < length (code (prOf ctx s)))%nat ->
  code (prOf ctx s) !! ip (fr s) = Some i ->
  (charge ;; dispatch ticks (mkOps (run_with (loop ticks fuel)) fuel ticks) ctx (prOf ctx s) i) s
    = (Throw e, s1) ->
  caughtValue e = Some v -> catchFrames (fr s1) = c :: cs ->
  localStack (fr s1) = extra ++ base -> length base = stackDepth c ->
  exists s2, loop ticks (S fuel) ctx s = loop ticks fuel ctx s2 /\
    fr s2 = (fr s1) <| catchFrames := cs |> <| localStack := v :: base |> <| ip := resumeIp c |> /\
    vm s2 = (vm s1) <| stderrLog := stderrLog (vm s2) |>.
Proof.
  intros Hip Hi Hd Hv Hc Hst Hlen. simpl.
  destruct (Nat.ltb_spec (ip (fr s)) (length (code (prOf ctx s)))); [|lia].
  assert (resizeStack (stackDepth c) (localStack (fr s1)) = base) as Hre.
  { unfold resizeStack. rewrite Hst, length_app, <- Hlen.
    replace (length base - _)%nat with 0%nat by lia.
    replace (length extra + _ - _)%nat with (length extra) by lia. by rewrite drop_app_length. }
  unfold mbind at 1, mcatch, step. rewrite Hi, Hd. unfold handler, mbind, getFr, mgets.
  rewrite Hc. destruct e; try done; injection Hv as <-; simpl;
    eexists; (split; [reflexivity|]); rewrite <- Hre; split; reflexivity.
Qed.

(** An LPC error that no [catch] of the run intercepts leaves it with the
    object's file and the function's name in front of the message; a value
    thrown by LPC code leaves it unchanged. *)
Theorem uncaught_error_tagged fuel ctx s i s1 e :
  (ip (fr s) < length (code (prOf ctx s)))%nat ->
  code (prOf ctx s) !! ip (fr s) = Some i ->
  (charge ;; dispatch ticks (mkOps (run_with (loop ticks fuel)) fuel ticks) ctx (prOf ctx s) i) s
    = (Throw e, s1) ->
  catchFrames (fr s1) = [] ->
  loop ticks (S fuel) ctx s =
    (Throw match e with
           | LpcRuntimeError m => LpcRuntimeError
               (fileOf (vm s1) (rc_obj ctx) +:+ "::" +:+ fname (rc_fn ctx) +:+ "(): " +:+ m)
           | _ => e
           end, s1).
Proof.
  intros Hip Hi Hd Hc. simpl.
  destruct (Nat.ltb_spec (ip (fr s)) (length (code (prOf ctx s)))); [|lia].
  unfold mbind at 1, mcatch, step. rewrite Hi, Hd. unfold handler, mbind, getFr, mgets.
  rewrite Hc. destruct e; try done. simpl. unfold here_text. by rewrite !sapp_assoc.
Qed.
End Theorems.

(** ** Witnesses *)
Section Witnesses.
#[local] Instance noEfuns : EfunTable := fun _ => None.

Definition noTicks : nat -> Z := fun _ => 0.
Definition mainFn : FunctionEntry := mkFunction "main" 0 0 0 false false.

(** A program that jumps to itself, and one that divides by zero in a catch. *)
Definition spinProgram : CompiledProgram :=
  emptyProgram <| code := [mkInstr Jump 0 0] |> <| functions := [mainFn] |>.
Definition catchProgram : CompiledProgram :=
  emptyProgram <| code := [mkInstr PushCatchFrame 4 0; mkInstr PushInt 1 0; mkInstr PushInt 0 0;
                           mkInstr Div 0 0; mkInstr Return 0 0] |> <| functions := [mainFn] |>.

Definition worldOf (pr : CompiledProgram) (limit : Z) : VMState :=
  newVM (configFor "fluffos" limit)
    {[ 1%positive := newObject "/obj" 1%positive pr true 0 ]} {[ 1%positive := pr ]}.

Lemma worldOf_acyclic pr limit :
  inheritedPrograms pr = [] -> acyclic (programStore (worldOf pr limit)).
Proof.
  intros E. exists (fun _ => 0%nat). intros p q. simpl. unfold prog. rewrite lookup_singleton.
  case_decide; simpl; by rewrite ?E.
Defined.

(** [while (1) reset_eval_cost();] *)
Definition resetProgram : CompiledProgram :=
  emptyProgram <| code := [mkInstr Call 0 0; mkInstr Pop 0 0; mkInstr Jump 0 0] |>
    <| stringPool := ["reset_eval_cost"] |> <| functions := [mainFn] |>.

Lemma limited_balanced x s : balanced s (limited x s).
Proof. by constructor. Qed.
Lemma limitEfuns_steady : efuns_steady (H := tableOf limitEfuns).
Proof.
  intros name f ops args Hf _. revert name f Hf.
  apply (tableOf_all (fun f => steady (f ops args)) limitEfuns).
  assert (forall x, steady (evalLimitDispatch x)) as Hl.
  { intros x s. rewrite evalLimitDispatch_state. apply limited_balanced. }
  unfold limitEfuns. rewrite !list.Forall_cons. cbn [snd]. split_and!; try apply Hl; [|done].
  unfold set_eval_limit. destruct (limitArg args); [apply Hl|apply steady_throw].
Qed.

(** The run that resets its cost for ever, wherever it is cut off. *)
Lemma run_restores_stacks_witness :
  let s := worldOf resetProgram 5 in
  let end_ := run (H := tableOf limitEfuns) noTicks 50 1%positive mainFn [] 1%positive s in
  fst end_ = OutOfFuel /\ callStack (snd end_) = [].
Proof.
  intros s end_. split; [vm_compute; reflexivity|].
  apply (run_restores_stacks (H := tableOf limitEfuns) noTicks 50 1%positive mainFn [] 1%positive s (fst end_) (snd end_)).
  - apply limitEfuns_steady.
  - apply surjective_pairing.
Defined.

Definition exampleCtx : RunCtx := mkCtx 1%positive mainFn 1%positive 0.
Definition inCatch (limit : Z) : RunState :=
  mkRun (worldOf catchProgram limit)
    ((initialFrame mainFn []) <| ip := 3%nat |> <| localStack := [VInt 0; VInt 1; V (Str "kept")] |>
       <| catchFrames := [mkCatch 4 1] |>).

Lemma eval_cost_error_uncatchable_witness :
  exists s', loop noTicks 1 exampleCtx (inCatch 0) =
      (Throw (EvalCostError "eval cost exceeded"), s') /\
    catchFrames (fr s') = [mkCatch 4 1].
Proof.
  apply (eval_cost_error_uncatchable noTicks 0 exampleCtx (inCatch 0)).
  - vm_compute. discriminate.
  - vm_compute. lia.
Defined.

Definition afterDiv : RunState :=
  snd ((charge ;; dispatch noTicks (mkOps (run_with (loop noTicks 9)) 9 noTicks) exampleCtx
          catchProgram (mkInstr Div 0 0)) (inCatch 10)).

Lemma catch_resumes_witness :
  exists s2, loop noTicks 10 exampleCtx (inCatch 10) = loop noTicks 9 exampleCtx s2 /\
    fr s2 = (fr afterDiv) <| catchFrames := [] |>
              <| localStack := [V (Str "Div: division by zero"); V (Str "kept")] |> <| ip := 4%nat |> /\
    vm s2 = (vm afterDiv) <| stderrLog := stderrLog (vm s2) |>.
Proof.
  apply (catch_resumes noTicks 9 exampleCtx (inCatch 10) (mkInstr Div 0 0) afterDiv
           (LpcRuntimeError "Div: division by zero") _ (mkCatch 4 1) [] [] [V (Str "kept")]);
    vm_compute; reflexivity || lia.
Defined.

Definition outsideCatch : RunState :=
  mkRun (worldOf catchProgram 10)
    ((initialFrame mainFn []) <| ip := 3%nat |> <| localStack := [VInt 0; VInt 1] |>).

Lemma uncaught_error_tagged_witness :
  fst (loop noTicks 10 exampleCtx outsideCatch) =
    Throw (LpcRuntimeError "/obj::main(): Div: division by zero").
Proof.
  rewrite (uncaught_error_tagged noTicks 9 exampleCtx outsideCatch (mkInstr Div 0 0)
             (snd ((charge ;; dispatch noTicks (mkOps (run_with (loop noTicks 9)) 9 noTicks) exampleCtx
                catchProgram (mkInstr Div 0 0)) outsideCatch))
             (LpcRuntimeError "Div: division by zero")); vm_compute; reflexivity || lia.
Defined.
End Witnesses.
