(* ===== verification/Typing.v ===== *)
(** * Typing: the store invariant of the machine

    A machine state is well typed when every reference a value holds leads to a
    container of its kind in the heap and every mapping keeps one row of extra
    columns per entry ([Mapping_wf]).  [typed h0 m Q]
    says that [m], started in a well-typed state whose heap extends [h0], ends
    in a well-typed state whose heap extends that one, with a result related by
    [Q] to it.  Every opcode, the calls between them, and [VM::run] are typed,
    so no [shared_ptr] the code dereferences dangles and no row of a mapping is
    read past its end. *)
From S2P Require Import Prelude CLib Double Value Bytecode Lookup Machine Sscanf Exec ExecIndex Calls VM.
Local Open Scope Z_scope.

(** ** Well-typed values *)

(** Containers are never freed: a heap only gains locations. *)
Record ext (h h' : heap) : Prop := {
  ext_arrays p : is_Some (arrays h !! p) -> is_Some (arrays h' !! p);
  ext_mappings p : is_Some (mappings h !! p) -> is_Some (mappings h' !! p);
  ext_closures p : is_Some (closures h !! p) -> is_Some (closures h' !! p);
  ext_buffers p : is_Some (buffers h !! p) -> is_Some (buffers h' !! p)
}.
#[export] Instance ext_preorder : PreOrder ext.
Proof. split; [by constructor|]. intros a b c [] []; constructor; auto. Qed.

Definition data_ok (h : heap) (d : ValueVariant) : Prop :=
  match d with
  | Arr (Some p) => is_Some (arrays h !! p)
  | Map (Some p) => is_Some (mappings h !! p)
  | Fun (Some p) => is_Some (closures h !! p)
  | Buf (Some p) => is_Some (buffers h !! p)
  | _ => True
  end.
Definition value_ok (h : heap) (v : Value) : Prop := data_ok h (data v).
Definition values_ok (h : heap) (l : list Value) : Prop := Forall (value_ok h) l.

Record mapping_ok (h : heap) (m : Mapping) : Prop := {
  mapping_rows : Mapping_wf m;
  mapping_entries : Forall (fun e => value_ok h (fst e) /\ value_ok h (snd e)) (entries m);
  mapping_extra : Forall (values_ok h) (extraColumns m)
}.
Definition closure_ok (h : heap) (c : Closure) : Prop :=
  values_ok h (boundArgs c) /\ value_ok h (lambdaBody c).

Record heap_ok (h : heap) : Prop := {
  heap_ok_wf : heap_wf h;
  arrays_ok p xs : arrays h !! p = Some xs -> values_ok h xs;
  mappings_ok p m : mappings h !! p = Some m -> mapping_ok h m;
  closures_ok p c : closures h !! p = Some c -> closure_ok h c
}.

Definition exn_ok (h : heap) (e : exn) : Prop :=
  match e with LpcThrownValue v => value_ok h v | _ => True end.

Section Mono.
Context {h h' : heap} (E : ext h h').

Lemma data_ok_ext d : data_ok h d -> data_ok h' d.
Proof using E. destruct E. destruct d as [| | | | | | |[]|[]|[]|[]]; simpl; auto. Qed.
Lemma value_ok_ext v : value_ok h v -> value_ok h' v.
Proof using E. apply data_ok_ext. Qed.
Lemma values_ok_ext l : values_ok h l -> values_ok h' l.
Proof using E. intros H. eapply list.Forall_impl; [exact H|]. apply value_ok_ext. Qed.
Lemma mapping_ok_ext m : mapping_ok h m -> mapping_ok h' m.
Proof using E.
  intros [H1 H2 H3]. split; [done| |].
  - eapply list.Forall_impl; [exact H2|]. intros ? []. split; by apply value_ok_ext.
  - eapply list.Forall_impl; [exact H3|]. apply values_ok_ext.
Qed.
Lemma closure_ok_ext c : closure_ok h c -> closure_ok h' c.
Proof using E. intros []. split; [by apply values_ok_ext|by apply value_ok_ext]. Qed.
End Mono.

(** ** Well-typed states *)
Definition callout_ok (h : heap) (e : CallOutEntry) : Prop :=
  values_ok h (args e) /\ data_ok h (Fun (closureRef e)).

Record state_ok (s : VMState) : Prop := {
  state_heap : heap_ok (hp s);
  state_objects o ob : objects s !! o = Some ob -> values_ok (hp s) (variables ob);
  state_hooks : values_ok (hp s) (driverHooks s);
  state_callOuts : Forall (callout_ok (hp s)) (callOuts (sched s))
}.
Definition frame_ok (h : heap) (f : Frame) : Prop :=
  values_ok h (locals f) /\ values_ok h (localStack f).

(** ** The logic *)
Definition typed {S A} (G : S -> Prop) (Hp : S -> heap) (h0 : heap) (m : M S exn A)
    (Q : heap -> A -> Prop) : Prop := forall s, G s -> ext h0 (Hp s) ->
  match m s with
  | (Ok a, s') => G s' /\ ext (Hp s) (Hp s') /\ Q (Hp s') a
  | (Throw e, s') => G s' /\ ext (Hp s) (Hp s') /\ exn_ok (Hp s') e
  | _ => True
  end.

Section Rules.
Context {S : Type} (G : S -> Prop) (Hp : S -> heap).
Local Abbreviation T := (typed G Hp) (only parsing).

Lemma typed_ret {A} h0 (a : A) (Q : heap -> A -> Prop) :
  (forall h, ext h0 h -> Q h a) -> T h0 (mret a) Q.
Proof. intros H s Hs E. simpl. split; [done|]. split; [done|auto]. Qed.

Lemma typed_throw {A} h0 e (Q : heap -> A -> Prop) :
  (forall h, ext h0 h -> exn_ok h e) -> T h0 (mthrow e) Q.
Proof. intros H s Hs E. simpl. split; [done|]. split; [done|auto]. Qed.

Lemma typed_undef {A} h0 w (Q : heap -> A -> Prop) : T h0 (mundef w) Q.
Proof. by intros s Hs E. Qed.

Lemma typed_bind {A B} h0 (m : M S exn A) (k : A -> M S exn B) Q Q' :
  T h0 m Q -> (forall h a, ext h0 h -> Q h a -> T h (k a) Q') -> T h0 (mbind m k) Q'.
Proof.
  intros Hm Hk s Hs E. unfold mbind. specialize (Hm s Hs E).
  destruct (m s) as [[a|e|w|] s1]; try done. destruct Hm as (H1 & E1 & H2).
  assert (ext h0 (Hp s1)) as E2 by (etrans; [exact E|exact E1]).
  specialize (Hk (Hp s1) a E2 H2 s1 H1 ltac:(done)).
  destruct (k a s1) as [[b|e|w|] s2]; try done; destruct Hk as (K1 & K2 & K3);
    (split; [done|split; [etrans; [exact E1|exact K2]|done]]).
Qed.

Lemma typed_weaken {A} h0 h1 (m : M S exn A) (Q Q' : heap -> A -> Prop) :
  ext h1 h0 -> T h1 m Q -> (forall h a, ext h0 h -> Q h a -> Q' h a) -> T h0 m Q'.
Proof.
  intros E Hm HQ s Hs E'. specialize (Hm s Hs ltac:(by etrans)).
  destruct (m s) as [[a|e|w|] s1]; try done. destruct Hm as (H1 & E1 & H2).
  split_and!; try done. apply HQ; [|done]. etrans; [exact E'|exact E1].
Qed.

Lemma typed_gets {A} h0 (f : S -> A) (Q : heap -> A -> Prop) :
  (forall s, G s -> ext h0 (Hp s) -> Q (Hp s) (f s)) -> T h0 (mgets f) Q.
Proof. intros H s Hs E. simpl. split; [done|]. split; [done|auto]. Qed.

Lemma typed_modify h0 f :
  (forall s, G s -> ext h0 (Hp s) -> G (f s) /\ ext (Hp s) (Hp (f s))) ->
  T h0 (mmodify f) (fun _ _ => True).
Proof. intros H s Hs E. simpl. destruct (H s Hs E). by split_and!. Qed.

Lemma typed_lift {A} h0 (o : outcome exn A) (Q : heap -> A -> Prop) :
  (forall h, ext h0 h -> match o with Ok a => Q h a | Throw e => exn_ok h e | _ => True end) ->
  T h0 (mlift o) Q.
Proof.
  intros H s Hs E. unfold mlift. specialize (H (Hp s) E). destruct o; try done; (split; [done|by split]).
Qed.

Lemma typed_catch {A} h0 (m : M S exn A) hd Q :
  T h0 m Q -> (forall h e, ext h0 h -> exn_ok h e -> T h (hd e) Q) -> T h0 (mcatch m hd) Q.
Proof.
  intros Hm Hh s Hs E. unfold mcatch. specialize (Hm s Hs E).
  destruct (m s) as [[a|e|w|] s1]; try done. destruct Hm as (H1 & E1 & H2).
  assert (ext h0 (Hp s1)) as E2 by (etrans; [exact E|exact E1]).
  specialize (Hh (Hp s1) e E2 H2 s1 H1 ltac:(done)).
  destruct (hd e s1) as [[b|e'|w|] s2]; try done; destruct Hh as (K1 & K2 & K3);
    (split; [done|split; [etrans; [exact E1|exact K2]|done]]).
Qed.
End Rules.

(** ** Heap operations *)
Lemma items_ok h l : heap_ok h -> data_ok h (Arr l) ->
  values_ok h (match l with Some p => items h p | None => [] end).
Proof.
  intros W H. destruct l as [p|]; [|constructor]. destruct H as [xs E]. unfold items. rewrite E.
  by eapply arrays_ok.
Qed.

Lemma mapping_at_ok h p : heap_ok h -> data_ok h (Map (Some p)) -> mapping_ok h (mapping h p).
Proof. intros W [m E]. unfold mapping. rewrite E. by eapply mappings_ok. Qed.

Lemma closure_at_ok h p : heap_ok h -> data_ok h (Fun (Some p)) -> closure_ok h (closure h p).
Proof. intros W [c E]. unfold closure. rewrite E. by eapply closures_ok. Qed.

Lemma values_ok_in h l v : values_ok h l -> v ∈ l -> value_ok h v.
Proof. intros H Hv. by apply (proj1 (list.Forall_forall _ _) H). Qed.

Lemma is_Some_insert {A} (m : gmap loc A) p q (x : A) :
  is_Some (m !! q) -> is_Some (<[p := x]> m !! q).
Proof. intros H. rewrite lookup_insert. by case_decide; [eexists|]. Qed.

(** Adding or replacing one container. *)
Lemma heap_ok_insert_array h h' p xs :
  heap_ok h -> values_ok h xs -> heap_wf h' -> arrays h' = <[p := xs]> (arrays h) ->
  mappings h' = mappings h -> closures h' = closures h -> buffers h' = buffers h ->
  heap_ok h' /\ ext h h' /\ is_Some (arrays h' !! p).
Proof.
  intros [W1 W2 W3 W4] Hx W' Ea Em Ec Eb.
  assert (ext h h') as E.
  { constructor; intros q Hq; rewrite ?Ea, ?Em, ?Ec, ?Eb; auto using is_Some_insert. }
  split; [|split; [done|rewrite Ea, lookup_insert_eq; by eexists]].
  split; [done| | |].
  - intros q ys. rewrite Ea. intros [[_ <-]|[_ H]]%lookup_insert_Some;
      apply (values_ok_ext E); eauto.
  - intros q m. rewrite Em. intros H. apply (mapping_ok_ext E); eauto.
  - intros q c. rewrite Ec. intros H. apply (closure_ok_ext E); eauto.
Qed.

Lemma heap_ok_insert_mapping h h' p m :
  heap_ok h -> mapping_ok h m -> heap_wf h' -> mappings h' = <[p := m]> (mappings h) ->
  arrays h' = arrays h -> closures h' = closures h -> buffers h' = buffers h ->
  heap_ok h' /\ ext h h' /\ is_Some (mappings h' !! p).
Proof.
  intros [W1 W2 W3 W4] Hx W' Em Ea Ec Eb.
  assert (ext h h') as E.
  { constructor; intros q Hq; rewrite ?Ea, ?Em, ?Ec, ?Eb; auto using is_Some_insert. }
  split; [|split; [done|rewrite Em, lookup_insert_eq; by eexists]].
  split; [done| | |].
  - intros q xs. rewrite Ea. intros H. apply (values_ok_ext E); eauto.
  - intros q m'. rewrite Em. intros [[_ <-]|[_ H]]%lookup_insert_Some;
      apply (mapping_ok_ext E); eauto.
  - intros q c. rewrite Ec. intros H. apply (closure_ok_ext E); eauto.
Qed.

Lemma heap_ok_insert_closure h h' p c :
  heap_ok h -> closure_ok h c -> heap_wf h' -> closures h' = <[p := c]> (closures h) ->
  arrays h' = arrays h -> mappings h' = mappings h -> buffers h' = buffers h ->
  heap_ok h' /\ ext h h' /\ is_Some (closures h' !! p).
Proof.
  intros [W1 W2 W3 W4] Hx W' Ec Ea Em Eb.
  assert (ext h h') as E.
  { constructor; intros q Hq; rewrite ?Ea, ?Em, ?Ec, ?Eb; auto using is_Some_insert. }
  split; [|split; [done|rewrite Ec, lookup_insert_eq; by eexists]].
  split; [done| | |].
  - intros q xs. rewrite Ea. intros H. apply (values_ok_ext E); eauto.
  - intros q m. rewrite Em. intros H. apply (mapping_ok_ext E); eauto.
  - intros q c'. rewrite Ec. intros [[_ <-]|[_ H]]%lookup_insert_Some;
      apply (closure_ok_ext E); eauto.
Qed.

Lemma newArray_ok xs h : heap_ok h -> values_ok h xs ->
  let '(p, h') := newArray xs h in heap_ok h' /\ ext h h' /\ is_Some (arrays h' !! p).
Proof.
  intros W Hx. apply (heap_ok_insert_array h _ (nextLoc h) xs); try done.
  apply newArray_wf, W.
Qed.
Lemma newMapping_ok m h : heap_ok h -> mapping_ok h m ->
  let '(p, h') := newMapping m h in heap_ok h' /\ ext h h' /\ is_Some (mappings h' !! p).
Proof.
  intros W Hx. apply (heap_ok_insert_mapping h _ (nextLoc h) m); try done.
  apply newMapping_wf, W.
Qed.
Lemma newClosureAt_ok c h : heap_ok h -> closure_ok h c ->
  let '(p, h') := newClosureAt c h in heap_ok h' /\ ext h h' /\ is_Some (closures h' !! p).
Proof.
  intros W Hx. apply (heap_ok_insert_closure h _ (nextLoc h) c); try done.
  apply newClosureAt_wf, W.
Qed.

Lemma below_update {A} (m : gmap loc A) p (x : A) n :
  (forall q y, m !! q = Some y -> (q < n)%positive) -> is_Some (m !! p) ->
  forall q y, <[p := x]> m !! q = Some y -> (q < n)%positive.
Proof.
  intros B [z Hz] q y [[<- _]|[_ H]]%lookup_insert_Some; eauto.
Qed.

(** Replacing the contents of a container that is there. *)
Lemma setArray_ok h p xs :
  heap_ok h -> values_ok h xs -> is_Some (arrays h !! p) ->
  heap_ok (h <| arrays ::= <[p := xs]> |>) /\ ext h (h <| arrays ::= <[p := xs]> |>).
Proof.
  intros W Hx Hp. destruct (heap_ok_insert_array h (h <| arrays ::= <[p := xs]> |>) p xs)
    as (H1 & H2 & _); try done.
  destruct W as [[B1 B2 B3 B4] _ _ _]. split; simpl; eauto using below_update.
Qed.
Lemma setMapping_ok h p m :
  heap_ok h -> mapping_ok h m -> is_Some (mappings h !! p) ->
  heap_ok (h <| mappings ::= <[p := m]> |>) /\ ext h (h <| mappings ::= <[p := m]> |>).
Proof.
  intros W Hx Hp. destruct (heap_ok_insert_mapping h (h <| mappings ::= <[p := m]> |>) p m)
    as (H1 & H2 & _); try done.
  destruct W as [[B1 B2 B3 B4] _ _ _]. split; simpl; eauto using below_update.
Qed.

Lemma callout_ok_ext h h' e : ext h h' -> callout_ok h e -> callout_ok h' e.
Proof. intros E []. split; [by eapply values_ok_ext|by eapply data_ok_ext]. Qed.

Lemma state_ok_heap s h' :
  state_ok s -> heap_ok h' -> ext (hp s) h' -> state_ok (s <| hp := h' |>).
Proof.
  intros [H1 H2 H3 H4] W E. split; simpl; try done.
  - intros o ob Ho. apply (values_ok_ext E). eauto.
  - by apply (values_ok_ext E).
  - eapply list.Forall_impl; [exact H4|]. intros e. by apply callout_ok_ext.
Qed.

Lemma frame_ok_ext h h' f : ext h h' -> frame_ok h f -> frame_ok h' f.
Proof. intros E []. split; by eapply values_ok_ext. Qed.

(** ** The primitives of a handler *)
Definition good (s : RunState) : Prop := state_ok (vm s) /\ frame_ok (hp (vm s)) (fr s).
Definition typedR {A} : heap -> R A -> (heap -> A -> Prop) -> Prop := typed good (fun s => hp (vm s)).
Definition typedV {A} : heap -> VM A -> (heap -> A -> Prop) -> Prop := typed state_ok hp.

(** Postconditions. *)
Definition nothing {A} (h : heap) (a : A) : Prop := True.
Definition pair_ok (h : heap) (p : Value * Value) : Prop := value_ok h (fst p) /\ value_ok h (snd p).
Definition ctl_ok (h : heap) (c : ctl) : Prop :=
  match c with Continue => True | Returned v => value_ok h v end.

Lemma void_ok h : value_ok h Void. Proof. done. Qed.
Lemma int_ok h z : value_ok h (VInt z). Proof. done. Qed.
Lemma bool_ok h b : value_ok h (VBool b). Proof. by destruct b. Qed.

Lemma nthV_ok h l n : values_ok h l -> value_ok h (nthV n l).
Proof.
  intros H. unfold nthV. destruct (nth_in_or_default n l Void) as [Hn| ->]; [|done].
  eapply values_ok_in; [exact H|]. by apply list_elem_of_In.
Qed.
Lemma poolAt_ok h l i v : values_ok h l -> poolAt l i = Some v -> value_ok h v.
Proof.
  unfold poolAt. destruct (i <? 0); [done|]. intros H E.
  eapply values_ok_in; [exact H|]. by eapply list_elem_of_lookup_2.
Qed.
Lemma insert_ok h l n v : values_ok h l -> value_ok h v -> values_ok h (<[n := v]> l).
Proof. intros. by apply Forall_insert. Qed.
Lemma coerce_ok s v : value_ok (hp s) v -> value_ok (hp s) (coerceIfDestructed s v).
Proof. intros H. unfold coerceIfDestructed. by repeat case_match. Qed.

Section Primitives.
Local Ltac start := intros s [Hs Hf] E.

Lemma tr_modFr h0 f :
  (forall h fr, ext h0 h -> frame_ok h fr -> frame_ok h (f fr)) -> typedR h0 (modFr f) nothing.
Proof. intros H. apply typed_modify. start. split; [|done]. split; [done|]. simpl. auto. Qed.
Lemma tr_modVm h0 f :
  (forall s, state_ok s -> ext h0 (hp s) -> state_ok (f s) /\ ext (hp s) (hp (f s))) ->
  typedR h0 (modVm f) nothing.
Proof.
  intros H. apply typed_modify. start. destruct (H (vm s) Hs E) as [H1 H2].
  split; [|done]. split; [done|]. by eapply frame_ok_ext.
Qed.
Lemma tr_getVm h0 {A} (f : VMState -> A) Q :
  (forall s, state_ok s -> ext h0 (hp s) -> Q (hp s) (f s)) -> typedR h0 (getVm f) Q.
Proof. intros H. apply typed_gets. intros s [Hs _] E. by apply H. Qed.
Lemma tr_getFr h0 {A} (f : Frame -> A) (Q : heap -> A -> Prop) :
  (forall h fr, frame_ok h fr -> Q h (f fr)) -> typedR h0 (getFr f) Q.
Proof. intros H. apply typed_gets. intros s [_ Hf] E. by apply H. Qed.
Lemma tr_locals h0 : typedR h0 (getFr locals) values_ok.
Proof. apply tr_getFr. by intros h f []. Qed.
Lemma tr_localStack h0 : typedR h0 (getFr localStack) values_ok.
Proof. apply tr_getFr. by intros h f []. Qed.
Lemma tr_getFr_any h0 {A} (f : Frame -> A) : typedR h0 (getFr f) nothing.
Proof. by apply tr_getFr. Qed.
Lemma tr_ret h0 {A} (a : A) Q : (forall h, ext h0 h -> Q h a) -> typedR h0 (mret a) Q.
Proof. apply typed_ret. Qed.
Lemma tr_error h0 {A} m Q : typedR h0 (error (A := A) m) Q.
Proof. by apply typed_throw. Qed.
Lemma tr_guard h0 b m : typedR h0 (guard b m) nothing.
Proof. unfold guard. destruct b; [by apply tr_ret|apply tr_error]. Qed.
Lemma tr_stackSize h0 : typedR h0 stackSize nothing.
Proof. apply tr_getFr_any. Qed.
Lemma tr_bind h0 {A B} (m : R A) (k : A -> R B) Q Q' :
  typedR h0 m Q -> (forall h a, ext h0 h -> Q h a -> typedR h (k a) Q') -> typedR h0 (mbind m k) Q'.
Proof. apply typed_bind. Qed.
Lemma tr_require h0 n m : typedR h0 (require n m) nothing.
Proof. eapply tr_bind; [apply tr_stackSize|]. intros. apply tr_guard. Qed.
Lemma tr_pop h0 : typedR h0 pop value_ok.
Proof.
  start. unfold pop. destruct Hf as [Hl Hst]. destruct (localStack (fr s)) as [|v st]; [done|].
  inversion Hst; subst. simpl. done.
Qed.
Lemma tr_push h0 v : value_ok h0 v -> typedR h0 (push v) nothing.
Proof.
  intros Hv. apply tr_modFr. intros h f E [H1 H2]. split; [done|]. simpl. constructor; [|done].
  by eapply value_ok_ext.
Qed.
Lemma tr_next h0 : typedR h0 next ctl_ok.
Proof. eapply tr_bind; [apply tr_modFr; by intros ? ? ? []|]. intros. by apply tr_ret. Qed.
Lemma tr_jumpTo h0 n : typedR h0 (jumpTo n) ctl_ok.
Proof. eapply tr_bind; [apply tr_modFr; by intros ? ? ? []|]. intros. by apply tr_ret. Qed.
Lemma tr_takeArgs h0 n : typedR h0 (takeArgs n) values_ok.
Proof.
  start. unfold takeArgs. destruct Hf as [Hl Hst]. simpl. split; [|split; [done|]].
  - split; [done|]. split; [done|]. by apply Forall_drop.
  - apply Forall_rev. by apply Forall_take.
Qed.
Lemma tr_allocArray h0 l : values_ok h0 l -> typedR h0 (allocArray l) value_ok.
Proof.
  intros Hl. start. unfold allocArray. pose proof (newArray_ok l (hp (vm s)) (state_heap _ Hs)
    (values_ok_ext E _ Hl)) as P. destruct (newArray l (hp (vm s))) as [p h]. destruct P as (P1 & P2 & P3).
  simpl. split; [|done]. split; [by apply state_ok_heap|]. by eapply frame_ok_ext.
Qed.
Lemma tr_allocMapping h0 m : mapping_ok h0 m -> typedR h0 (allocMapping m) value_ok.
Proof.
  intros Hl. start. unfold allocMapping. pose proof (newMapping_ok m (hp (vm s)) (state_heap _ Hs)
    (mapping_ok_ext E _ Hl)) as P. destruct (newMapping m (hp (vm s))) as [p h]. destruct P as (P1 & P2 & P3).
  simpl. split; [|done]. split; [by apply state_ok_heap|]. by eapply frame_ok_ext.
Qed.
Lemma tr_allocClosure h0 c : closure_ok h0 c -> typedR h0 (allocClosure c) value_ok.
Proof.
  intros Hl. start. unfold allocClosure. pose proof (newClosureAt_ok c (hp (vm s)) (state_heap _ Hs)
    (closure_ok_ext E _ Hl)) as P. destruct (newClosureAt c (hp (vm s))) as [p h]. destruct P as (P1 & P2 & P3).
  simpl. split; [|done]. split; [by apply state_ok_heap|]. by eapply frame_ok_ext.
Qed.
Lemma tr_itemsOf h0 l : data_ok h0 (Arr l) -> typedR h0 (itemsOf l) values_ok.
Proof.
  intros Hl. apply tr_getVm. intros s Hs E. apply items_ok; [apply Hs|]. by eapply data_ok_ext.
Qed.
Lemma tr_items h0 p : data_ok h0 (Arr (Some p)) -> typedR h0 (getVm (fun s => items (hp s) p)) values_ok.
Proof. apply (tr_itemsOf h0 (Some p)). Qed.
Lemma tr_mapping h0 p :
  data_ok h0 (Map (Some p)) -> typedR h0 (getVm (fun s => mapping (hp s) p)) mapping_ok.
Proof.
  intros Hl. apply tr_getVm. intros s Hs E. apply mapping_at_ok; [apply Hs|]. by eapply data_ok_ext.
Qed.
Lemma tr_coerce h0 v : value_ok h0 v -> typedR h0 (getVm (fun s => coerceIfDestructed s v)) value_ok.
Proof. intros Hv. apply tr_getVm. intros s Hs E. apply coerce_ok. by eapply value_ok_ext. Qed.
Lemma tr_objVars h0 o : typedR h0 (objVars o) values_ok.
Proof.
  apply tr_getVm. intros s Hs E. unfold getOb. destruct (objects s !! o) eqn:Eo; [|constructor].
  by eapply state_objects.
Qed.
Lemma tr_setObjVar h0 o n v : value_ok h0 v -> typedR h0 (setObjVar o n v) nothing.
Proof.
  intros Hv. apply tr_modVm. intros s Hs E. split; [|done].
  destruct Hs as [H1 H2 H3 H4]. split; try done. simpl. intros x ob.
  rewrite lookup_alter_Some. intros [(-> & y & Hy & ->)|[_ Hx]]; [|by eapply H2].
  simpl. apply insert_ok; [by eapply H2|]. by eapply value_ok_ext.
Qed.
Lemma tr_setArray h0 p xs : data_ok h0 (Arr (Some p)) -> values_ok h0 xs ->
  typedR h0 (modHeap (fun h => h <| arrays ::= <[p := xs]> |>)) nothing.
Proof.
  intros Hp Hx. apply tr_modVm. intros s Hs E.
  destruct (setArray_ok (hp s) p xs (state_heap _ Hs) (values_ok_ext E _ Hx)) as [P1 P2].
  { by apply (data_ok_ext E) in Hp. }
  split; [by apply state_ok_heap|done].
Qed.
Lemma tr_setMapping h0 p m : data_ok h0 (Map (Some p)) -> mapping_ok h0 m ->
  typedR h0 (modHeap (fun h => h <| mappings ::= <[p := m]> |>)) nothing.
Proof.
  intros Hp Hx. apply tr_modVm. intros s Hs E.
  destruct (setMapping_ok (hp s) p m (state_heap _ Hs) (mapping_ok_ext E _ Hx)) as [P1 P2].
  { by apply (data_ok_ext E) in Hp. }
  split; [by apply state_ok_heap|done].
Qed.
End Primitives.

(** ** Mappings *)
Lemma empty_ok h w : 1 <= w -> mapping_ok h (emptyMapping <| width := w |>).
Proof. intros Hw. split; [split; simpl; try done|constructor|constructor]. Qed.

Lemma getColumn_ok h m i col : mapping_ok h m -> value_ok h (getColumn m i col).
Proof.
  intros [_ He Hx]. unfold getColumn. destruct (col <=? 0).
  - destruct (nth_in_or_default i (entries m) (Void, Void)) as [Hn| ->]; [|done].
    rewrite list.Forall_forall in He. apply He. by apply list_elem_of_In.
  - apply nthV_ok. destruct (nth_in_or_default i (extraColumns m) []) as [Hn| ->]; [|constructor].
    rewrite list.Forall_forall in Hx. apply Hx. by apply list_elem_of_In.
Qed.

Lemma keys_values_ok h m : mapping_ok h m -> values_ok h (map fst (entries m)).
Proof.
  intros [_ He _]. apply List.Forall_map. eapply list.Forall_impl; [exact He|]. by intros ? [].
Qed.

Lemma appendEntry_ok h m k vals :
  mapping_ok h m -> value_ok h k -> values_ok h vals -> mapping_ok h (appendEntry m k vals).
Proof.
  intros [[W1 W2 W3] He Hx] Hk Hv. unfold appendEntry.
  assert (Forall (fun e => value_ok h (fst e) /\ value_ok h (snd e))
    (entries m ++ [(k, match vals with [] => Void | v :: _ => v end)])) as He'.
  { apply Forall_app. split; [done|]. repeat constructor; simpl; [done|]. by destruct Hv. }
  destruct (Z.ltb_spec 1 (width m)); simpl.
  - destruct W3 as [L F]; [done|]. split; simpl; [split; simpl; [done|lia|]|done|].
    + intros _. rewrite !length_app, L. split; [done|]. apply Forall_app. split; [done|].
      repeat constructor. rewrite length_map, length_seq. lia.
    + apply Forall_app. split; [done|]. repeat constructor. apply List.Forall_map, list.Forall_forall.
      intros c _. destruct (vals !! S c) eqn:E; [|done]. eapply values_ok_in; [exact Hv|].
      by eapply list_elem_of_lookup_2.
  - split; simpl; [split; simpl; [done|done|lia]|done|done].
Qed.

Lemma appendEntries_ok h n stride vals m :
  mapping_ok h m -> values_ok h vals -> mapping_ok h (appendEntries n stride vals m).
Proof.
  revert vals m. induction n as [|n IH]; intros vals m Hm Hv; simpl; [done|].
  apply IH; [|by apply Forall_drop]. apply appendEntry_ok; [done|by apply nthV_ok|].
  by apply Forall_take, Forall_drop.
Qed.

Lemma setColumn_ok h m i col v : mapping_ok h m -> value_ok h v -> mapping_ok h (setColumn m i col v).
Proof.
  intros [[W1 W2 W3] He Hx] Hv. unfold setColumn. destruct (col <=? 0); simpl.
  - split; simpl; [split; simpl; rewrite ?length_alter; done| |done].
    apply Forall_alter; [done|]. intros [k w] _ [Hk _]. by split.
  - split; simpl; [split; simpl; [done| |]|done|].
    + intros E. by rewrite W2.
    + intros E. rewrite length_alter. destruct (W3 E) as [L F]. split; [done|].
      apply Forall_alter; [done|]. intros row _ Hr. by rewrite length_insert.
    + apply Forall_alter; [done|]. intros row _ Hr. by apply insert_ok.
Qed.

Lemma mapAssign_ok h m k col v :
  mapping_ok h m -> value_ok h k -> value_ok h v -> mapping_ok h (mapAssign m k col v).
Proof.
  intros Hm Hk Hv. unfold mapAssign. destruct (findKey k (entries m)).
  - by apply setColumn_ok.
  - apply appendEntry_ok; [done|done|]. apply insert_ok; [|done].
    apply Forall_replicate. done.
Qed.

Lemma mergeEntry_ok h right ri result :
  mapping_ok h right -> mapping_ok h result -> width result = width right ->
  mapping_ok h (mergeEntry right ri result) /\ width (mergeEntry right ri result) = width right.
Proof.
  intros [[R1 R2 R3] Re Rx] [[W1 W2 W3] He Hx] Hw. unfold mergeEntry.
  destruct (entries right !! ri) as [[k v]|] eqn:Er; [|split; [split; [by split|done|done]|done]].
  assert (value_ok h k /\ value_ok h v) as [Hk Hv].
  { rewrite list.Forall_forall in Re. apply (Re (k, v)). by eapply list_elem_of_lookup_2. }
  set (row := match extraColumns right with [] => _ | xs => nth ri xs [] end).
  assert (values_ok h row /\ (1 < width right -> Z.of_nat (length row) = width right - 1)) as [Hr Hl].
  { subst row. destruct (extraColumns right) as [|x xs] eqn:Ex.
    - split; [by apply Forall_replicate|]. intros _. rewrite length_replicate. lia.
    - assert (1 < width right) as Hwide by (destruct (Z.eq_dec (width right) 1) as [e|]; [specialize (R2 e); congruence|lia]).
      destruct (R3 Hwide) as [L F]. apply lookup_lt_Some in Er. rewrite <- L, <- Ex in *.
      assert (nth ri (extraColumns right) [] ∈ extraColumns right) as Hin
        by (apply list_elem_of_In, nth_In; lia).
      rewrite list.Forall_forall in F, Rx. split; [by apply Rx|]. intros _. by apply F. }
  destruct (findKey k (entries result)) as [li|] eqn:Ef.
  - assert (Forall (fun e => value_ok h (fst e) /\ value_ok h (snd e))
      (alter (fun '(k', _) => (k', v)) li (entries result))) as He'.
    { apply Forall_alter; [done|]. intros [k' w] _ [Hk' _]. by split. }
    destruct (extraColumns result) as [|x xs] eqn:Ex.
    + split; [|done]. split; simpl; [split; simpl|done|]; rewrite ?length_alter, ?Ex; done.
    + split; [|done]. assert (1 < width result) as Hwide.
      { destruct (Z.eq_dec (width result) 1) as [e|]; [specialize (W2 e); congruence|lia]. }
      destruct (W3 Hwide) as [L F].
      split; cbn [entries width extraColumns set_field]; [split|done|];
        cbn [entries width extraColumns set_field].
      * done.
      * lia.
      * intros _. rewrite length_insert, length_alter. split; [done|].
        apply Forall_insert; [done|]. rewrite Hw. apply Hl. lia.
      * by apply Forall_insert.
  - assert (Forall (fun e => value_ok h (fst e) /\ value_ok h (snd e)) (entries result ++ [(k, v)])) as He'.
    { apply Forall_app. split; [done|]. by repeat constructor. }
    destruct (Z.ltb_spec 1 (width result)).
    + destruct (W3 ltac:(done)) as [L F]. split; [|done]. split; simpl; [split; simpl; [done|lia|]|done|].
      * intros _. rewrite !length_app, L. split; [done|]. apply Forall_app. split; [done|].
        repeat constructor. rewrite Hw. apply Hl. lia.
      * apply Forall_app. by repeat constructor.
    + split; [|done]. split; simpl; [split; simpl; [done|done|lia]|done|done].
Qed.

Lemma mergeMapping_ok h left right :
  mapping_ok h left -> mapping_ok h right -> width left = width right ->
  mapping_ok h (mergeMapping left right).
Proof.
  intros Hl Hr Hw. unfold mergeMapping. generalize (seq 0 (length (entries right))). intros l.
  revert left Hl Hw. induction l as [|ri l IH]; intros left Hl Hw; simpl; [done|].
  destruct (mergeEntry_ok h right ri left Hr Hl Hw) as [H1 H2]. by apply IH.
Qed.

(** ** Opcodes inside one frame *)
Create HintDb typed.
#[export] Hint Resolve tr_getFr_any | 10 : typed.
#[export] Hint Resolve tr_locals tr_localStack tr_error tr_guard tr_stackSize tr_require
  tr_pop tr_push tr_next tr_jumpTo tr_takeArgs tr_allocArray tr_allocMapping tr_allocClosure
  tr_itemsOf tr_items tr_mapping tr_coerce tr_objVars tr_setObjVar tr_setArray tr_setMapping
  void_ok int_ok bool_ok nthV_ok insert_ok getColumn_ok keys_values_ok appendEntries_ok mapAssign_ok
  : typed.

(** Move what is known of values to the current heap. *)
Ltac rebase :=
  repeat match goal with
  | E : ext ?h _, H : data_ok ?h _ |- _ => apply (data_ok_ext E) in H
  | E : ext ?h _, H : value_ok ?h _ |- _ => apply (value_ok_ext E) in H
  | E : ext ?h _, H : values_ok ?h _ |- _ => apply (values_ok_ext E) in H
  | E : ext ?h _, H : mapping_ok ?h _ |- _ => apply (mapping_ok_ext E) in H
  | E : ext ?h _, H : closure_ok ?h _ |- _ => apply (closure_ok_ext E) in H
  end;
  repeat match goal with E : ext ?h ?h' |- _ => clear E end.

(** What a case analysis says of the values at hand. *)
Ltac learn :=
  repeat match goal with
  | H : pair_ok _ _ |- _ => destruct H
  | H : nothing _ _ |- _ => clear H
  | H : value_ok ?h ?v, E : data ?v = ?d |- _ =>
      lazymatch goal with _ : data_ok h d |- _ => fail | _ => idtac end;
      assert (data_ok h d) by (unfold value_ok in H; rewrite E in H; exact H)
  | H : values_ok ?h ?l, E : poolAt ?l _ = Some ?v |- _ =>
      lazymatch goal with _ : value_ok h v |- _ => fail | _ => idtac end;
      assert (value_ok h v) by (by eapply poolAt_ok)
  end; simpl fst in *; simpl snd in *.

Ltac typed_tac :=
  repeat first
    [ progress intros
    | progress rebase
    | progress learn
    | solve [eauto with typed]
    | eapply tr_bind; [solve [eauto with typed]|]
    | case_goal
    | apply tr_ret ].
