(* ===== verification/Safety.v ===== *)
(** * Safety: every opcode keeps the store well typed

    The opcodes of [VM::run], the calls between them and the loop itself, typed
    in the logic of Typing.v; the efun table enters through the contract
    [efuns_typed]. *)
From S2P Require Import Prelude CLib Double Value Bytecode Lookup Machine Sscanf Exec ExecIndex Calls VM Discipline Typing.
Local Open Scope Z_scope.

Section Opcodes.
Context (pr : CompiledProgram) (obj : oid) (base : Z) (i : Instruction) (ticks : nat -> Z).

Lemma tr_pushNext h0 v : value_ok h0 v -> typedR h0 (pushNext v) ctl_ok.
Proof using. intros Hv. unfold pushNext. typed_tac. Qed.
Lemma tr_pop2 h0 m : typedR h0 (pop2 m) pair_ok.
Proof using.
  unfold pop2. typed_tac. split; simpl; [done|]. by eapply value_ok_ext.
Qed.
Local Hint Resolve tr_pushNext tr_pop2 : typed.

Lemma tr_exec_push h0 :
  typedR h0 (exec_PushConst pr i) ctl_ok /\ typedR h0 (exec_PushInt i) ctl_ok /\
  typedR h0 (exec_PushFloat pr i) ctl_ok /\ typedR h0 exec_PushNil ctl_ok /\
  typedR h0 (exec_PushSymbol pr i) ctl_ok.
Proof using.
  unfold exec_PushConst, exec_PushInt, exec_PushFloat, exec_PushNil, exec_PushSymbol.
  split_and!; typed_tac; by apply tr_pushNext.
Qed.

Lemma tr_setLocal h0 n v :
  value_ok h0 v -> typedR h0 (modFr (fun f => f <| locals ::= <[n := v]> |>)) nothing.
Proof using.
  intros Hv. apply tr_modFr. intros h f E [H1 H2]. split; [|done].
  apply insert_ok; [done|by eapply value_ok_ext].
Qed.
Local Hint Resolve tr_setLocal : typed.

Lemma tr_exec_vars h0 :
  typedR h0 (exec_PushLocal i) ctl_ok /\ typedR h0 (exec_StoreLocal i) ctl_ok /\
  typedR h0 (exec_PushObjectVar obj base i) ctl_ok /\
  typedR h0 (exec_StoreObjectVar obj base i) ctl_ok.
Proof using.
  unfold exec_PushLocal, exec_StoreLocal, exec_PushObjectVar, exec_StoreObjectVar.
  split_and!; typed_tac.
Qed.

Lemma tr_lift {A} h0 (o : outcome exn A) (Q : heap -> A -> Prop) :
  (forall a, o = Ok a -> forall h, ext h0 h -> Q h a) -> (forall e, o = Throw e -> forall h, exn_ok h e) ->
  typedR h0 (lift o) Q.
Proof using. intros H1 H2. apply typed_lift. intros h E. destruct o; auto. Qed.
Lemma tr_to_int64 h0 d : typedR h0 (lift (Dbl.to_int64 d)) nothing.
Proof using. apply tr_lift; [done|]. intros e; unfold Dbl.to_int64; repeat case_match; done. Qed.
Lemma tr_checked64 h0 z : typedR h0 (lift (checked64 z)) nothing.
Proof using. apply tr_lift; [done|]. intros e; unfold checked64; destruct (in_int64 z); done. Qed.
Lemma tr_checked32 h0 z : typedR h0 (lift (checked32 z)) nothing.
Proof using. apply tr_lift; [done|]. intros e; unfold checked32; destruct (in_int32 z); done. Qed.
Local Hint Resolve tr_to_int64 tr_checked64 tr_checked32 : typed.

Lemma filter_ok h p l : values_ok h l -> values_ok h (List.filter p l).
Proof using.
  intros H. apply list.Forall_forall. intros v Hv. rewrite list_elem_of_In, filter_In in Hv.
  eapply values_ok_in; [exact H|]. by apply list_elem_of_In, Hv.
Qed.
Lemma app_ok h a b : values_ok h a -> values_ok h b -> values_ok h (a ++ b).
Proof using. intros. by apply Forall_app. Qed.
Local Hint Resolve filter_ok app_ok : typed.

Lemma tr_arithmetic h0 l r : typedR h0 (arithmetic i l r) value_ok.
Proof using. unfold arithmetic. typed_tac; done. Qed.
Local Hint Resolve tr_arithmetic : typed.

Lemma tr_addMappings h0 l r :
  data_ok h0 (Map l) -> data_ok h0 (Map r) -> typedR h0 (addMappings l r) value_ok.
Proof using.
  intros Hl Hr. unfold addMappings.
  assert (forall h l, data_ok h (Map l) -> typedR h (getVm (fun s => mapping (hp s) <$> l))
    (fun h o => match o with Some m => mapping_ok h m | None => True end)) as R.
  { intros h [p|] Hp; apply tr_getVm; [|done]. intros s Hs E. simpl. apply mapping_at_ok; [apply Hs|].
    by eapply data_ok_ext. }
  eapply tr_bind; [by apply R|]. intros h1 lm E1 Hlm. apply (data_ok_ext E1) in Hr.
  eapply tr_bind; [by apply R|]. intros h2 rm E2 Hrm.
  destruct lm as [a|], rm as [b|]; [apply (mapping_ok_ext E2) in Hlm| | |].
  - destruct (Z.eqb_spec (width a) (width b)); simpl; [|apply tr_error].
    apply tr_allocMapping. by apply mergeMapping_ok.
  - apply tr_allocMapping. by apply (mapping_ok_ext E2).
  - apply tr_allocMapping. apply mergeMapping_ok; [|done|done]. apply empty_ok, Hrm.
  - apply tr_allocMapping. by apply (empty_ok h2 1).
Qed.
Local Hint Resolve tr_addMappings : typed.

Lemma tr_addValues h0 l r : value_ok h0 l -> value_ok h0 r -> typedR h0 (addValues l r) value_ok.
Proof using.
  intros Hl Hr. unfold addValues, fileNameOf, addUnsupported.
  destruct (data l) eqn:El, (data r) eqn:Er; typed_tac; try done; try (by apply tr_getVm).
Qed.
Local Hint Resolve tr_addValues : typed.

Lemma tr_exec_operators h0 :
  typedR h0 (exec_EqNeq i) ctl_ok /\ typedR h0 (exec_compare i) ctl_ok /\
  typedR h0 exec_Not ctl_ok /\ typedR h0 (exec_arith i) ctl_ok /\ typedR h0 exec_BitAnd ctl_ok /\
  typedR h0 (exec_BitOrXor i) ctl_ok /\ typedR h0 (exec_Shift i) ctl_ok /\
  typedR h0 exec_BitNot ctl_ok /\ typedR h0 exec_Add ctl_ok.
Proof using.
  unfold exec_EqNeq, exec_compare, exec_Not, exec_arith, exec_BitAnd, exec_BitOrXor, exec_Shift,
    exec_BitNot, exec_Add. split_and!; typed_tac; try apply typed_undef.
Qed.

Lemma tr_modFr_keep h0 g :
  (forall f, locals (g f) = locals f) -> (forall f, localStack (g f) = localStack f) ->
  typedR h0 (modFr g) nothing.
Proof using.
  intros H1 H2. apply tr_modFr. intros h f E [L1 L2]. split; rewrite ?H1, ?H2; done.
Qed.
Local Hint Extern 1 (typedR _ (modFr _) _) => (apply tr_modFr_keep; reflexivity) : typed.

Lemma tr_exec_control h0 :
  typedR h0 (exec_Jump pr i) ctl_ok /\ typedR h0 (exec_JumpIfFalse pr i) ctl_ok /\
  typedR h0 (exec_PushCatchFrame pr i) ctl_ok /\ typedR h0 exec_PopCatchFrame ctl_ok.
Proof using.
  unfold exec_Jump, exec_JumpIfFalse, exec_PushCatchFrame, exec_PopCatchFrame.
  split_and!; typed_tac.
Qed.
Lemma tr_modVm_keep h0 g :
  (forall s, hp (g s) = hp s) -> (forall s, objects (g s) = objects s) ->
  (forall s, driverHooks (g s) = driverHooks s) -> (forall s, sched (g s) = sched s) ->
  typedR h0 (modVm g) nothing.
Proof using.
  intros H1 H2 H3 H4. apply tr_modVm. intros s [] E. split; [|by rewrite H1].
  split; rewrite ?H1, ?H2, ?H3, ?H4; done.
Qed.
Local Hint Extern 1 (typedR _ (modVm _) _) => (apply tr_modVm_keep; reflexivity) : typed.
Lemma tr_getVm_any h0 {A} (f : VMState -> A) : typedR h0 (getVm f) nothing.
Proof using. by apply tr_getVm. Qed.


Lemma tr_now h0 : typedR h0 (now ticks) nothing.
Proof using.
  unfold now. eapply tr_bind; [apply tr_getVm_any|]. typed_tac. done.
Qed.
Local Hint Resolve tr_now : typed.

Lemma tr_keys h0 m : data_ok h0 (Map m) ->
  typedR h0 (getVm (fun s => match m with Some p => map fst (entries (mapping (hp s) p))
                                        | None => [] end)) values_ok.
Proof using.
  intros Hm. apply tr_getVm. intros s Hs E. destruct m; [|constructor].
  apply keys_values_ok, mapping_at_ok; [apply Hs|by eapply data_ok_ext].
Qed.

Lemma tr_dropTop h0 : typedR h0 (modFr (fun f => f <| localStack ::= tail |>)) nothing.
Proof using.
  apply tr_modFr. intros h f E [H1 H2]. split; [done|]. simpl. destruct H2; [constructor|done].
Qed.
Local Hint Resolve tr_dropTop : typed.

Lemma tr_exec_ForeachKeys h0 : typedR h0 exec_ForeachKeys ctl_ok.
Proof using.
  unfold exec_ForeachKeys. eapply tr_bind; [eauto with typed|]. intros h1 [] _ _.
  eapply tr_bind; [apply tr_pop|]. intros h2 v _ Hv.
  destruct (data v) eqn:Ed; try solve [typed_tac].
  learn. eapply tr_bind; [by apply tr_keys|]. typed_tac.
Qed.

Lemma tr_exec_misc h0 :
  typedR h0 (exec_TimeExpressionStart ticks) ctl_ok /\
  typedR h0 (exec_TimeExpressionEnd ticks) ctl_ok /\ typedR h0 exec_Pop ctl_ok /\
  typedR h0 exec_Dup ctl_ok /\ typedR h0 exec_Return ctl_ok.
Proof using.
  unfold exec_TimeExpressionStart, exec_TimeExpressionEnd, exec_Pop, exec_Dup, exec_Return.
  split_and!; [typed_tac| |typed_tac|typed_tac|].
  - eapply tr_bind; [apply tr_getVm_any|]. typed_tac.
  - eapply tr_bind; [apply tr_localStack|]. intros. apply tr_ret. intros h2 E.
    by apply nthV_ok, (values_ok_ext E).
Qed.

(** ** Containers *)
Lemma tr_checked32_argc h0 : typedR h0 (effectiveArgCount i) nothing.
Proof using. unfold effectiveArgCount. typed_tac. done. Qed.
Local Hint Resolve tr_checked32_argc : typed.

Lemma tr_exec_ExpandVarargs h0 : typedR h0 (exec_ExpandVarargs i) ctl_ok.
Proof using.
  unfold exec_ExpandVarargs. eapply tr_bind; [apply tr_stackSize|]. intros h1 size E1 _.
  case_match; [apply tr_error|]. eapply tr_bind; [apply tr_localStack|]. intros h2 st E2 Hst.
  destruct (data (nthV _ st)) as [| | | | | | |l| | |] eqn:Ed; try apply tr_error.
  assert (data_ok h2 (Arr l)) as Hl by (rewrite <- Ed; by apply nthV_ok).
  eapply tr_bind; [by apply tr_itemsOf|]. intros h3 xs E3 Hxs. apply (values_ok_ext E3) in Hst.
  eapply tr_bind; [|intros; apply tr_next]. apply tr_modFr. intros h f E [L _]. split; [done|]. simpl.
  apply (values_ok_ext E) in Hst, Hxs.
  apply app_ok; [by apply Forall_take|]. apply app_ok; [by apply Forall_rev|by apply Forall_drop].
Qed.

Lemma tr_exec_make h0 :
  typedR h0 (exec_MakeArray i) ctl_ok /\ typedR h0 (exec_MakeMapping i) ctl_ok.
Proof using.
  unfold exec_MakeArray, exec_MakeMapping. split; typed_tac.
  eapply tr_bind; [apply tr_allocMapping, appendEntries_ok; [apply empty_ok; lia|done]|]. typed_tac.
Qed.

Lemma tr_fromEnd h0 b n k : typedR h0 (fromEnd b n k) nothing.
Proof using. unfold fromEnd. destruct b; [apply tr_checked64|by apply tr_ret]. Qed.
Lemma tr_mapColumn h0 b v m : typedR h0 (mapColumn b v m) nothing.
Proof using. unfold mapColumn. typed_tac; done. Qed.
Local Hint Resolve tr_fromEnd tr_mapColumn : typed.

Lemma tr_indexArray h0 l v : data_ok h0 (Arr l) -> typedR h0 (indexArray i l v) value_ok.
Proof using.
  intros Hl. unfold indexArray. destruct l as [p|]; [|apply tr_error].
  destruct (data v); try apply tr_error. eapply tr_bind; [by apply tr_items|]. typed_tac.
Qed.
Lemma tr_indexMapping h0 b l v c : data_ok h0 (Map l) -> typedR h0 (indexMapping b l v c) value_ok.
Proof using.
  intros Hl. unfold indexMapping. destruct l as [p|]; [|apply tr_error].
  eapply tr_bind; [by apply tr_mapping|]. intros h1 m E1 Hm.
  eapply tr_bind; [apply tr_mapColumn|]. intros h2 col E2 _. apply (mapping_ok_ext E2) in Hm.
  destruct (findKey v (entries m)).
  - by apply tr_coerce, getColumn_ok.
  - apply tr_ret. by destruct b.
Qed.
Lemma tr_indexString h0 s v : typedR h0 (indexString i s v) value_ok.
Proof using. unfold indexString. typed_tac. Qed.
Lemma tr_assignArray h0 l k v :
  data_ok h0 (Arr l) -> value_ok h0 v -> typedR h0 (assignArray l k v) nothing.
Proof using.
  intros Hl Hv. unfold assignArray. destruct l as [p|]; [|apply tr_error].
  destruct (data k); try apply tr_error. eapply tr_bind; [by apply tr_items|]. typed_tac.
Qed.
Lemma tr_assignMapping h0 b l k c v :
  data_ok h0 (Map l) -> value_ok h0 k -> value_ok h0 v -> typedR h0 (assignMapping b l k c v) nothing.
Proof using.
  intros Hl Hk Hv. unfold assignMapping. destruct l as [p|]; [|apply tr_error].
  eapply tr_bind; [by apply tr_mapping|]. typed_tac.
Qed.
Local Hint Resolve tr_indexArray tr_indexMapping tr_indexString tr_assignArray tr_assignMapping : typed.

Lemma tr_popIf h0 b : typedR h0 (if b : bool then pop else mret Void) value_ok.
Proof using. destruct b; [apply tr_pop|by apply tr_ret]. Qed.
Local Hint Resolve tr_popIf : typed.

Lemma tr_resolveBounds h0 a b n : typedR h0 (resolveBounds i a b n) nothing.
Proof using. unfold resolveBounds. typed_tac. all: done. Qed.
Lemma slice_ok h n k xs : values_ok h xs -> values_ok h (take n (drop k xs)).
Proof using. intros. by apply Forall_take, Forall_drop. Qed.
Local Hint Resolve tr_resolveBounds slice_ok : typed.

Lemma tr_exec_Index h0 : typedR h0 (exec_Index i) ctl_ok.
Proof using.
  unfold exec_Index. typed_tac.
Qed.
Lemma tr_exec_IndexAssign h0 : typedR h0 (exec_IndexAssign i) ctl_ok.
Proof using.
  unfold exec_IndexAssign. do 5 (eapply tr_bind; [eauto with typed|intros]).
  eapply (tr_bind _ _ _ nothing); [|intros; apply tr_next]. typed_tac.
Qed.
Lemma tr_exec_RangeIndex h0 : typedR h0 (exec_RangeIndex i) ctl_ok.
Proof using. unfold exec_RangeIndex. typed_tac. Qed.

Lemma tr_exec_closure h0 n b : typedR h0 (exec_closure pr obj i n b) ctl_ok.
Proof using.
  unfold exec_closure. typed_tac. eapply tr_bind; [apply tr_allocClosure|typed_tac].
  by split.
Qed.

(** [sscanf] assigns strings and numbers. *)
Definition closed_value (v : Value) : Prop := forall h, value_ok h v.
Lemma assign_closed skip n v out o :
  closed_value v -> Forall closed_value (assigned out) -> assign skip n v out = Ok o ->
  Forall closed_value (assigned o).
Proof using.
  unfold assign. intros Hv Ho. destruct skip; [by intros [= <-]|]. case_match; [done|].
  intros [= <-]. apply Forall_app. split; [done|]. by constructor.
Qed.
Lemma sscanf_loop_closed fuel inp fmt out n o :
  Forall closed_value (assigned out) -> sscanf_loop fuel inp fmt out n = Ok o ->
  Forall closed_value (assigned o).
Proof using.
  revert inp fmt out. induction fuel as [|fuel IH]; intros inp fmt out Hout E; [done|].
  simpl in E. destruct (match_literal fmt inp) as [[fmt1 inp1]|]; [|by inv_ok].
  assert (forall skip v o' k s f, closed_value v -> assign skip n v out = Ok o' ->
            sscanf_loop fuel (sdrop k s) f o' n = Ok o -> Forall closed_value (assigned o)) as Hstep.
  { intros * Hv Ha Hl. eapply IH, Hl. eauto using assign_closed. }
  assert (forall z, closed_value (VInt z)) as Hi by done.
  assert (forall d, closed_value (V (Dbl d))) as Hd by done.
  assert (forall t, closed_value (V (Str t))) as Hs by done.
  repeat case_match; try done; inv_ok; eauto using assign_closed.
  { simpl. apply Forall_app. split; [done|]. by constructor. }
  eapply IH; [|exact E]. done.
Qed.
Lemma runSscanf_closed inp fmt n o : runSscanf inp fmt n = Ok o -> Forall closed_value (assigned o).
Proof using. apply sscanf_loop_closed. constructor. Qed.


Definition throws_closed {A} (o : outcome exn A) : Prop :=
  match o with Throw e => forall h, exn_ok h e | _ => True end.
Lemma obind_throws {A B} (m : outcome exn A) (k : A -> outcome exn B) :
  throws_closed m -> (forall a, throws_closed (k a)) -> throws_closed (obind m k).
Proof using. intros Hm Hk. by destruct m; simpl. Qed.
Lemma runSscanf_throws inp fmt n : throws_closed (runSscanf inp fmt n).
Proof using.
  unfold runSscanf. generalize (S (String.length fmt)). intros fuel. generalize (mkOutcome 0 []).
  revert inp fmt. induction fuel as [|fuel IH]; intros inp fmt out; [done|]. simpl.
  assert (forall skip v o, throws_closed (assign skip n v o)) as Ha
    by (intros; unfold assign; by repeat case_match).
  assert (forall c s, throws_closed (adjacentSscanfBoundary c s)) as Hb
    by (intros; unfold adjacentSscanfBoundary; by repeat case_match).
  repeat first [ apply obind_throws; [apply Ha || apply Hb|intros] | apply Ha | apply IH | done | case_match ].
Qed.

Lemma tr_storeSscanf h0 slots vals :
  Forall closed_value vals -> typedR h0 (storeSscanf obj slots vals) nothing.
Proof using.
  intros Hv. revert slots h0. induction Hv as [|v vals Hv Hvals IH]; intros [|i' slots] h0; simpl;
    try by apply tr_ret.
  eapply (tr_bind _ _ _ nothing); [|intros; apply IH].
  destruct (negb _); (eapply tr_bind; [eauto with typed|]); intros; case_match; eauto with typed.
Qed.

Lemma tr_exec_Sscanf h0 : typedR h0 (exec_Sscanf pr obj i) ctl_ok.
Proof using.
  unfold exec_Sscanf. do 4 (eapply tr_bind; [eauto with typed|intros]).
  destruct (data a1), (data a2); try apply tr_error.
  do 2 (eapply tr_bind; [eauto with typed|intros]).
  eapply (tr_bind _ _ _ (fun _ o => Forall closed_value (assigned o))).
  - apply tr_lift; [intros o Ho h' E; by eapply runSscanf_closed|].
    intros e He h'. pose proof (runSscanf_throws s0 s (Z.to_nat (operand i))) as T. rewrite He in T. apply T.
  - intros h' o E Ho. eapply tr_bind; [by apply tr_storeSscanf|]. typed_tac.
Qed.

End Opcodes.

(** ** Calls *)
Section VMRules.
Lemma tv_bind h0 {A B} (m : VM A) (k : A -> VM B) Q Q' :
  typedV h0 m Q -> (forall h a, ext h0 h -> Q h a -> typedV h (k a) Q') -> typedV h0 (mbind m k) Q'.
Proof. apply typed_bind. Qed.
Lemma tv_ret h0 {A} (a : A) Q : (forall h, ext h0 h -> Q h a) -> typedV h0 (mret a) Q.
Proof. apply typed_ret. Qed.
Lemma tv_gets h0 {A} (f : VMState -> A) : typedV h0 (mgets f) nothing.
Proof. by apply typed_gets. Qed.
Lemma tv_throw h0 {A} m (Q : heap -> A -> Prop) : typedV h0 (throwRuntime m) Q.
Proof. by apply typed_throw. Qed.

Lemma tv_onVM h0 {A} (m : VM A) Q : typedV h0 m Q -> typedR h0 (onVM m) Q.
Proof.
  intros Hm s [Hs Hf] E. unfold onVM. specialize (Hm (vm s) Hs E).
  destruct (m (vm s)) as [[a|e|w|] s1]; try done; destruct Hm as (H1 & E1 & H2);
    (split; [|done]); (split; [done|by eapply frame_ok_ext]).
Qed.

(** A guard only touches the stacks. *)
Record stacks_only (f : VMState -> VMState) : Prop := {
  so_hp s : hp (f s) = hp s;
  so_objects s : objects (f s) = objects s;
  so_hooks s : driverHooks (f s) = driverHooks s;
  so_sched s : sched (f s) = sched s
}.
Lemma stacks_only_ok f s : stacks_only f -> state_ok s -> state_ok (f s).
Proof. intros [H1 H2 H3 H4] []. split; rewrite ?H1, ?H2, ?H3, ?H4; done. Qed.

Lemma tv_finally h0 {A} (m : VM A) enter leave Q :
  stacks_only enter -> stacks_only leave -> typedV h0 m Q ->
  typedV h0 (fun s => mfinally m leave (enter s)) Q.
Proof.
  intros He Hl Hm s Hs E. unfold mfinally. specialize (Hm (enter s)).
  rewrite (so_hp _ He) in Hm. specialize (Hm (stacks_only_ok _ _ He Hs) E).
  destruct (m (enter s)) as [[a|e|w|] s1]; try done; destruct Hm as (H1 & E1 & H2);
    rewrite (so_hp _ Hl); split_and!; try done; by apply stacks_only_ok.
Qed.
Lemma tv_withOrigin h0 {A} o (m : VM A) Q : typedV h0 m Q -> typedV h0 (withOrigin o m) Q.
Proof. by apply tv_finally; constructor. Qed.
Lemma tv_withObjectFrame h0 {A} o (m : VM A) Q : typedV h0 m Q -> typedV h0 (withObjectFrame o m) Q.
Proof.
  intros Hm s. apply (tv_finally h0 m (enterFrame o) (leaveFrame (objectChanged o s)) Q); [| |done].
  - split; intros s'; unfold enterFrame; by destruct (objectChanged o s').
  - split; intros s'; unfold leaveFrame; by destruct (objectChanged o s).
Qed.
Lemma tv_onCache (h0 : heap) {A} (f : programs -> M chainCache exn A) :
  (forall P c, throws_closed (fst (f P c))) -> typedV h0 (onCache f) nothing.
Proof.
  intros Hf s Hs E. unfold onCache. specialize (Hf (programStore s) (functionChainCache s)).
  destruct (f _ _) as [[]]; try done; split_and!; try done; by destruct Hs.
Qed.

Definition raises_closed {S A} (m : M S exn A) : Prop := forall s, throws_closed (fst (m s)).
Lemma raises_bind {S A B} (m : M S exn A) (k : A -> M S exn B) :
  raises_closed m -> (forall a, raises_closed (k a)) -> raises_closed (mbind m k).
Proof.
  intros Hm Hk s. unfold mbind. specialize (Hm s). destruct (m s) as [[a|e|w|] s']; try done.
  apply Hk.
Qed.
Lemma raises_firstFound (f : pid -> M chainCache exn FunctionLookupResult) ps :
  (forall q, raises_closed (f q)) -> raises_closed (firstFound f ps).
Proof.
  intros Hf. induction ps as [|[q|] ps IH]; simpl; [done| |done].
  apply raises_bind; [done|]. by intros [r|].
Qed.
Lemma raises_findFunctionInChain fuel P p name : raises_closed (findFunctionInChain fuel P p name).
Proof.
  revert p. induction fuel as [|fuel IH]; intros p; [done|]. simpl.
  apply raises_bind; [done|]. intros [r|]; [done|].
  apply raises_bind; [|intros r; by apply raises_bind].
  destruct (ownFunction _ _); [done|]. by apply raises_firstFound.
Qed.

Lemma tv_lookupFunction (h0 : heap) p name : typedV h0 (lookupFunction p name) nothing.
Proof. apply tv_onCache. intros P c. apply raises_findFunctionInChain. Qed.
Lemma tv_lookupParent (h0 : heap) p name q : typedV h0 (lookupParent p name q) nothing.
Proof.
  apply tv_onCache. intros P c. unfold findParentFunction. destruct q.
  - destruct (qualifiedParent _ _ _); [apply raises_findFunctionInChain|done].
  - apply raises_firstFound. intros q. apply raises_findFunctionInChain.
Qed.
End VMRules.
#[export] Hint Resolve tv_gets tv_throw tv_onVM tv_withOrigin tv_withObjectFrame tv_lookupFunction
  tv_lookupParent : typed.

(** Extends [typed_tac] to computations of the VM. *)
Ltac typedV_tac :=
  repeat first
    [ progress intros
    | progress rebase
    | progress learn
    | solve [eauto with typed]
    | eapply tv_bind; [solve [eauto with typed]|]
    | case_goal
    | apply tv_ret ].

(** The contract of the efun table: called on well-typed arguments, with an
    interpreter that is type safe, an efun is type safe. *)
Definition run_typed (r : RunFn) : Prop :=
  forall h p fn args o, values_ok h args -> typedV h (r p fn args o) value_ok.
Definition efuns_typed `{EfunTable} : Prop :=
  forall name f ops h args, efunTable name = Some f -> run_typed (op_run ops) ->
    values_ok h args -> typedV h (f ops args) value_ok.

Section Interp.
Context `{EfunTable} (ticks : nat -> Z) (Hefuns : efuns_typed).

Section OneStep.
Context (ops : VMOps) (ctx : RunCtx) (Hrun : run_typed (op_run ops)).

Lemma tv_run h0 p fn args o : values_ok h0 args -> typedV h0 (op_run ops p fn args o) value_ok.
Proof using Hrun. apply Hrun. Qed.
Lemma tv_efun_call h0 name args : values_ok h0 args -> typedV h0 (efun_call ops name args) value_ok.
Proof using Hefuns Hrun.
  intros Ha. unfold efun_call. destruct (efunTable name) eqn:E; [by eapply Hefuns|apply tv_throw].
Qed.
Local Hint Resolve tv_run tv_efun_call : typed.

Lemma tv_simulLookup h0 simul name :
  typedV h0 (match simul with
             | None => mret None
             | Some so =>
                 sp <- mgets (fun s => programOf s so) ;;
                 r <- lookupFunction sp name ;;
                 mret ((fun x => (so, x)) <$> r)
             end : VM (option (oid * (pid * FunctionEntry)))) nothing.
Proof using. destruct simul; [typedV_tac; done|by apply tv_ret]. Qed.
Local Hint Resolve tv_simulLookup : typed.

Lemma tv_resolveCall h0 name args : values_ok h0 args -> typedV h0 (resolveCall ops ctx name args) value_ok.
Proof using Hefuns Hrun. intros Ha. unfold resolveCall. typedV_tac. Qed.
Local Hint Resolve tv_resolveCall : typed.

Lemma tr_callArgs h0 i m : typedR h0 (callArgs i m) values_ok.
Proof using. unfold callArgs. eapply tr_bind; [apply tr_checked32_argc|]. typed_tac. Qed.
Local Hint Resolve tr_callArgs : typed.

Lemma tr_pushThen h0 v n : value_ok h0 v -> typedR h0 (push v ;; jumpTo n) ctl_ok.
Proof using. intros Hv. typed_tac. Qed.

Lemma tr_exec_calls h0 pr i :
  typedR h0 (exec_Call ops ctx pr i) ctl_ok /\ typedR h0 (exec_CallEfun ops pr i) ctl_ok /\
  typedR h0 (exec_CallParent ops ctx pr i) ctl_ok.
Proof using Hefuns Hrun.
  unfold exec_Call, exec_CallEfun, exec_CallParent.
  split_and!; (destruct (poolAt _ _) as [name|]; [|apply tr_error]).
  - eapply tr_bind; [apply tr_callArgs|]. intros h1 a E1 Ha.
    eapply tr_bind; [by apply tv_onVM, tv_resolveCall|]. intros. by apply tr_pushNext.
  - eapply tr_bind; [apply tr_callArgs|]. intros h1 a E1 Ha.
    eapply tr_bind; [by apply tv_onVM, tv_efun_call|]. intros. by apply tr_pushNext.
  - eapply tr_bind; [apply tr_getFr_any|]. intros h1 here E1 _.
    eapply (tr_bind _ _ _ nothing).
    { apply tr_lift; [done|]. intros e. unfold parentQualifier. by repeat case_match; intros [= <-]. }
    intros h2 q E2 _. eapply tr_bind; [apply tr_callArgs|]. intros h3 args E3 Ha.
    eapply tr_bind; [apply tv_onVM, tv_lookupParent|]. intros h4 found E4 _. apply (values_ok_ext E4) in Ha.
    destruct found as [[p fn]|]; [|apply tr_error].
    eapply tr_bind; [by apply tv_onVM, tv_withOrigin, Hrun|]. intros. by apply tr_pushThen.
Qed.

Lemma tr_dispatch h0 pr i : typedR h0 (dispatch ticks ops ctx pr i) ctl_ok.
Proof using Hefuns Hrun.
  destruct (tr_exec_calls h0 pr i) as (C1 & C2 & C3).
  destruct (tr_exec_push pr i h0) as (P1 & P2 & P3 & P4 & P5).
  destruct (tr_exec_vars (rc_obj ctx) (rc_base ctx) i h0) as (V1 & V2 & V3 & V4).
  destruct (tr_exec_operators i h0) as (O1 & O2 & O3 & O4 & O5 & O6 & O7 & O8 & O9).
  destruct (tr_exec_control pr i h0) as (J1 & J2 & J3 & J4).
  destruct (tr_exec_misc ticks h0) as (M1 & M2 & M3 & M4 & M5).
  destruct (tr_exec_make i h0) as (N1 & N2).
  unfold dispatch. destruct (op i); eauto using tr_exec_ForeachKeys, tr_exec_ExpandVarargs,
    tr_exec_Index, tr_exec_IndexAssign, tr_exec_RangeIndex, tr_exec_closure, tr_exec_Sscanf.
  all: try by apply typed_throw. by apply tr_ret.
Qed.

Lemma tr_charge h0 : typedR h0 charge nothing.
Proof using.
  unfold charge. eapply (tr_bind _ _ _ nothing); [by apply tr_modVm_keep|]. intros.
  eapply tr_bind; [apply tr_getVm_any|]. intros ? [] ? ?; [by apply typed_throw|by apply tr_ret].
Qed.
Lemma tr_step h0 : typedR h0 (step ticks ops ctx) ctl_ok.
Proof using Hefuns Hrun.
  intros s Hs E. unfold step. destruct (code _ !! _); [|done].
  apply (tr_bind h0 charge (fun _ => dispatch ticks ops ctx (prOf ctx s) i) nothing ctl_ok);
    [apply tr_charge|intros; apply tr_dispatch|done|done].
Qed.

Lemma resizeStack_ok h n st : values_ok h st -> values_ok h (resizeStack n st).
Proof using.
  intros Hst. apply app_ok; [by apply Forall_replicate|by apply Forall_drop].
Qed.
Lemma tr_unwind h0 c cs v : value_ok h0 v -> typedR h0 (unwind c cs v) ctl_ok.
Proof using.
  intros Hv. eapply tr_bind; [|intros; by apply tr_ret]. apply tr_modFr. intros h f E [L1 L2].
  split; [done|]. simpl. constructor; [by eapply value_ok_ext|by apply resizeStack_ok].
Qed.
Lemma tr_logCatch h0 m : typedR h0 (logCatch ctx m) nothing.
Proof using. by apply tr_modVm_keep. Qed.
Lemma tr_handler h0 e : (forall h, ext h0 h -> exn_ok h e) -> typedR h0 (handler ctx e) ctl_ok.
Proof using.
  intros He. unfold handler. eapply tr_bind; [apply tr_getFr_any|]. intros h1 cs E1 _.
  destruct e as [m|v| | |]; try by apply typed_throw.
  - destruct cs as [|c cs].
    + eapply tr_bind; [apply tr_getVm_any|]. intros. by apply typed_throw.
    + eapply tr_bind; [apply tr_logCatch|]. intros. by apply tr_unwind.
  - destruct cs as [|c cs].
    + apply typed_throw. intros h E. apply He. by etrans.
    + eapply tr_bind; [apply tr_logCatch|]. intros h2 _ E2 _. apply tr_unwind.
      apply (value_ok_ext E2). by apply He.
Qed.
End OneStep.

Lemma exn_ok_ext h h' e : ext h h' -> exn_ok h e -> exn_ok h' e.
Proof using. intros E. destruct e; simpl; try done. by apply value_ok_ext. Qed.

Lemma bindArgs_ok h n args ls : values_ok h args -> values_ok h ls -> values_ok h (bindArgs n args ls).
Proof using. intros. apply app_ok; [by apply Forall_take|by apply Forall_drop]. Qed.

Lemma bindLocals_ok fn args s : state_ok s -> values_ok (hp s) args ->
  state_ok (snd (bindLocals fn args s)) /\ ext (hp s) (hp (snd (bindLocals fn args s))) /\
  values_ok (hp (snd (bindLocals fn args s))) (fst (bindLocals fn args s)).
Proof using.
  intros Hs Ha. unfold bindLocals. set (ls := replicate _ _).
  assert (forall h, values_ok h ls) as Hl.
  { intros h. apply Forall_replicate. by destruct (String.eqb _ _). }
  destruct (_ && _); [|by split_and!; [|done|apply bindArgs_ok]].
  pose proof (newArray_ok (drop (numArgs fn - 1) args) (hp s) (state_heap _ Hs) (Forall_drop _ _ _ Ha)) as P.
  destruct (newArray _ _) as [p h]. destruct P as (P1 & P2 & P3). cbn [fst snd].
  split; [by apply state_ok_heap|]. split; [done|]. simpl.
  apply insert_ok; [|done]. apply bindArgs_ok; [by eapply values_ok_ext|done].
Qed.

Lemma tv_run_with h0 lp p fn args o :
  (forall h ctx, typedR h (lp ctx) value_ok) -> values_ok h0 args ->
  typedV h0 (run_with lp p fn args o) value_ok.
Proof using.
  intros Hl Ha. apply tv_withObjectFrame. eapply (tv_bind _ _ _ nothing).
  { intros s Hs E. unfold liftS, objectVarBaseOf. by repeat case_match; simplify_eq. }
  intros h1 base E1 _ s Hs E2. apply (values_ok_ext E1), (values_ok_ext E2) in Ha.
  destruct (bindLocals_ok fn args s Hs Ha) as (B1 & B2 & B3).
  destruct (bindLocals fn args s) as [ls s1]. cbn [fst snd] in *.
  assert (good (mkRun s1 (initialFrame fn ls))) as Hg by (split; [done|split; [done|constructor]]).
  generalize (Hl (hp s1) (mkCtx p fn o base) _ Hg (reflexivity _)).
  destruct (lp _ _) as [[v|e|w|] rs]; try done; intros ([G1 G2] & G3 & G4);
    (split; [done|split; [etrans; [exact B2|exact G3]|done]]).
Qed.

Lemma tr_loop fuel : forall h0 ctx, typedR h0 (loop ticks fuel ctx) value_ok.
Proof using Hefuns.
  induction fuel as [|f IH]; intros h0 ctx s Hs E; [done|]. simpl.
  destruct (_ <? _)%nat; [|done]. revert s Hs E.
  apply (tr_bind h0 _ _ ctl_ok value_ok).
  - apply typed_catch.
    + apply tr_step. intros h p fn args o Ha. by apply tv_run_with.
    + intros h e E He. apply tr_handler. intros h' E'. by eapply exn_ok_ext.
  - intros h [|v] E Hc; [apply IH|]. apply tr_ret. intros h' E'. by eapply value_ok_ext.
Qed.
End Interp.

(** ** Theorems *)
Section Theorems.
Context `{EfunTable} (ticks : nat -> Z).

(** C4: [VM::run] is type safe.  Started in a well-typed state on well-typed
    arguments, whatever the bytecode, a run that returns or throws ends in a
    state where every array, mapping, closure and buffer reachable from a
    value, an object variable, a driver hook or a queued call_out is still
    there and every mapping keeps one row of extra columns per entry, nothing
    allocated before has disappeared, and the value returned or thrown is
    well typed too. *)
Theorem run_type_safe fuel p fn args o s r s' :
  efuns_typed -> state_ok s -> values_ok (hp s) args ->
  run ticks fuel p fn args o s = (r, s') ->
  match r with
  | Ok v => state_ok s' /\ ext (hp s) (hp s') /\ value_ok (hp s') v
  | Throw e => state_ok s' /\ ext (hp s) (hp s') /\ exn_ok (hp s') e
  | _ => True
  end.
Proof.
  intros He Hs Ha E. assert (typedV (hp s) (run ticks fuel p fn args o) value_ok) as T.
  { apply tv_run_with; [|done]. intros h ctx. by apply tr_loop. }
  specialize (T s Hs (reflexivity _)). by rewrite E in T.
Qed.
End Theorems.

(** ** Witnesses *)
Section Witnesses.
#[local] Instance noEfuns : EfunTable := fun _ => None.

(** [x] goes into an array that a fresh mapping of width 2 holds. *)
Definition nestProgram : CompiledProgram :=
  emptyProgram <| code := [mkInstr PushInt 7 0; mkInstr PushLocal 0 0; mkInstr MakeArray 0 1;
                           mkInstr PushInt 9 0; mkInstr MakeMapping 2 1; mkInstr Return 0 0] |>.
Definition nestFn : FunctionEntry := mkFunction "nest" 0 1 1 false false.

Lemma newVM_ok cfg obs P :
  (forall o ob, obs !! o = Some ob -> values_ok emptyHeap (variables ob)) ->
  state_ok (newVM cfg obs P).
Proof.
  intros Ho. split; simpl; [|done| |constructor].
  - split; [apply heap_wf_empty|..]; intros p x; simpl; by rewrite lookup_empty.
  - repeat constructor.
Defined.

Lemma run_type_safe_witness :
  let s := worldOf nestProgram 50 in
  let '(r, s') := run noTicks 60 1%positive nestFn [VInt 5] 1%positive s in
  r = Ok (V (Map (Some 2%positive))) /\ state_ok s' /\ is_Some (mappings (hp s') !! 2%positive).
Proof.
  intros s. pose proof (run_type_safe noTicks 60 1%positive nestFn [VInt 5] 1%positive s
    (fst (run noTicks 60 1%positive nestFn [VInt 5] 1%positive s))
    (snd (run noTicks 60 1%positive nestFn [VInt 5] 1%positive s))) as T.
  assert (fst (run noTicks 60 1%positive nestFn [VInt 5] 1%positive s)
            = Ok (V (Map (Some 2%positive)))) as E by (vm_compute; reflexivity).
  rewrite E in T. destruct T as (T1 & T2 & T3).
  - by intros name f ops h args [=].
  - apply newVM_ok. intros o ob [<- <-]%lookup_singleton_Some. repeat constructor.
  - repeat constructor.
  - rewrite <- E. apply surjective_pairing.
  - destruct (run _ _ _ _ _ _ _) as [r s']. done.
Defined.
End Witnesses.
