(* ===== verification/Registries.v ===== *)
(** * Registries: the global object tables

    src/object/LiveObjectRegistry.cpp, src/object/LivingNameRegistry.cpp and
    src/net/InteractiveRegistry.cpp.  Each is a vector of weak references; an
    entry whose object is gone stays until the next [remove].  The theorem at
    the end is about names of living objects. *)
From S2P Require Import Prelude CLib Double Value Bytecode Lookup Machine.

(** [remove_if] drops the entries of [ob] together with every expired one. *)
Definition stale (s : VMState) (ob : oid) (w : oid) : bool :=
  match lock s (Some w) with None => true | Some o => bool_decide (o = ob) end.

Module LiveObjects.
Definition add (ob : option oid) (reg : list oid) : list oid :=
  match ob with None => reg | Some o => reg ++ [o] end.
Definition remove (s : VMState) (ob : option oid) (reg : list oid) : list oid :=
  match ob with None => reg | Some o => List.filter (fun w => negb (stale s o w)) reg end.
Definition all (s : VMState) (reg : list oid) : list oid :=
  List.filter (fun w => is_some (lock s (Some w)) && negb (isDestructed s w)) reg.

Definition releaseOne (s : VMState) (w : oid) : VMState :=
  setOb w (fun ob => ob <| variables ::= map (fun _ => VInt 0) |> <| inventory := [] |>) s.
(** Every live object forgets its variables and inventory, which breaks the
    reference cycles through them. *)
Definition releaseAll (s : VMState) (reg : list oid) : VMState * list oid :=
  (foldl releaseOne s reg, []).
End LiveObjects.

Module LivingNames.
Abbreviation Entry := LivingEntry (only parsing).

Definition remove (s : VMState) (ob : option oid) (reg : list Entry) : list Entry :=
  match ob with
  | None => reg
  | Some o => List.filter (fun e => negb (stale s o (eobj e))) reg
  end.
Definition set (s : VMState) (ob : option oid) (name : string) (reg : list Entry) : list Entry :=
  match ob with
  | None => reg
  | Some o => remove s ob reg ++ [mkLiving o name]
  end.

Definition eligible (s : VMState) (requireOnceInteractive : bool) (o : oid) : bool :=
  is_some (lock s (Some o)) && negb (isDestructed s o)
  && (negb requireOnceInteractive || getOb s everInteractive false o)
  && getOb s commandsEnabled false o.

Fixpoint find (s : VMState) (name : string) (requireOnceInteractive : bool) (reg : list Entry)
    : option oid :=
  match reg with
  | [] => None
  | e :: reg' =>
      if String.eqb (ename e) name && eligible s requireOnceInteractive (eobj e)
      then Some (eobj e) else find s name requireOnceInteractive reg'
  end.

Definition allWithCommandsEnabled (s : VMState) (reg : list Entry) : list oid :=
  List.filter (eligible s false) (map eobj reg).
End LivingNames.

Module Interactives.
Abbreviation Entry := (oid * positive)%type (only parsing).

(** A connection is named by its [cid]. *)
Definition add (ob : option oid) (c : positive) (reg : list Entry) : list Entry :=
  match ob with None => reg | Some o => reg ++ [(o, c)] end.
Definition remove (s : VMState) (ob : option oid) (reg : list Entry) : list Entry :=
  match ob with
  | None => reg
  | Some o => List.filter (fun e => negb (stale s o (fst e))) reg
  end.
Definition all (s : VMState) (reg : list Entry) : list oid :=
  List.filter (fun w => is_some (lock s (Some w))) (map fst reg).
Definition find (s : VMState) (ob : option oid) (reg : list Entry) : option positive :=
  match ob with
  | None => None
  | Some o => snd <$> List.find (fun e => bool_decide (lock s (Some (fst e)) = Some o)) reg
  end.
End Interactives.

(** ** Living names *)
Lemma living_find_app s nm req l1 l2 :
  LivingNames.find s nm req (l1 ++ l2)
  = match LivingNames.find s nm req l1 with
    | Some o => Some o
    | None => LivingNames.find s nm req l2
    end.
Proof. induction l1 as [|e l1 IH]; simpl; [done|]. by destruct (_ && _). Qed.

Lemma living_find_in s nm req l o :
  LivingNames.find s nm req l = Some o ->
  exists e, e ∈ l /\ eobj e = o /\ ename e = nm /\
    LivingNames.eligible s req o = true.
Proof.
  induction l as [|e l IH]; simpl; [done|]. destruct (_ && _) eqn:E.
  - intros [= <-]. apply andb_true_iff in E as [E1 E2]. apply String.eqb_eq in E1.
    exists e. split_and!; auto. by left.
  - intros H. destruct (IH H) as (e' & He & ?). exists e'. split; [by right|done].
Qed.

Lemma eligible_alive s req o : LivingNames.eligible s req o = true -> lock s (Some o) = Some o.
Proof.
  unfold LivingNames.eligible, lock. destruct (objects s !! o); [done|]. by intros H.
Qed.

(** An entry of a living object other than [o] survives [remove]. *)
Lemma living_find_remove s nm req o l x :
  x <> o -> LivingNames.find s nm req l = Some x ->
  LivingNames.find s nm req (LivingNames.remove s (Some o) l) = Some x.
Proof.
  intros Hx. simpl. induction l as [|e l IH]; simpl; [done|].
  destruct (String.eqb _ nm && _) eqn:E.
  - intros [= <-]. pose proof E as E'. apply andb_true_iff in E' as [_ E2].
    unfold stale. rewrite (eligible_alive _ _ _ E2), bool_decide_eq_false_2 by done. simpl. by rewrite E.
  - intros H. destruct (negb (stale s o (eobj e))); simpl; rewrite ?E; auto.
Qed.

Lemma living_remove_other s o l e :
  e ∈ LivingNames.remove s (Some o) l -> e ∈ l /\ eobj e <> o.
Proof.
  simpl. rewrite !list_elem_of_In, filter_In. intros [Hin Hs]. split; [done|].
  intros Ee. apply negb_true_iff in Hs. unfold stale in Hs. rewrite Ee in Hs. unfold lock in Hs.
  destruct (objects s !! o); [|done]. by apply bool_decide_eq_false in Hs.
Qed.

Lemma living_remove_nodup s o l :
  NoDup (eobj <$> l) -> NoDup (eobj <$> LivingNames.remove s (Some o) l).
Proof.
  simpl. induction l as [|e l IH]; simpl; [done|]. intros [Ne ND]%list.NoDup_cons.
  destruct (negb _); simpl; [|auto]. apply list.NoDup_cons. split; [|auto].
  intros (e' & Ee & He)%list_elem_of_fmap. apply Ne. rewrite Ee. apply list_elem_of_fmap_2.
  rewrite list_elem_of_In, filter_In in He. rewrite list_elem_of_In. tauto.
Qed.

(** Naming a living object registers it under that name alone: the registry
    keeps one entry per object, the object is no longer found under another
    name, is found under the new one unless an earlier object holds it, and every
    other object is still found under the names it was found under. *)
Theorem living_name_set s o name req reg :
  NoDup (eobj <$> reg) ->
  let reg' := LivingNames.set s (Some o) name reg in
  NoDup (eobj <$> reg') /\
  (LivingNames.eligible s req o = true ->
     LivingNames.find s name req reg = None -> LivingNames.find s name req reg' = Some o) /\
  (forall nm, nm <> name -> LivingNames.find s nm req reg' <> Some o) /\
  (forall nm x, x <> o -> LivingNames.find s nm req reg = Some x ->
     LivingNames.find s nm req reg' = Some x).
Proof.
  intros ND reg'. subst reg'. unfold LivingNames.set. split_and!.
  - rewrite fmap_app. apply list.NoDup_app. split_and!.
    + by apply living_remove_nodup.
    + intros x (e & -> & He)%list_elem_of_fmap Hx. apply list_elem_of_singleton in Hx.
      by apply living_remove_other in He as [_ He].
    + apply NoDup_singleton.
  - intros He Hn. rewrite living_find_app.
    destruct (LivingNames.find s name req (LivingNames.remove s (Some o) reg)) as [x|] eqn:E.
    + exfalso. apply living_find_in in E as (e & Hin & <- & <- & Hel).
      apply living_remove_other in Hin as [Hin _]. clear -Hn Hin Hel.
      induction reg as [|y reg IH]; [by apply elem_of_nil in Hin|]. simpl in Hn.
      apply elem_of_cons in Hin as [->|Hin].
      * by rewrite String.eqb_refl, Hel in Hn.
      * destruct (_ && _); [done|]. auto.
    + simpl. by rewrite String.eqb_refl, He.
  - intros nm Nn. rewrite living_find_app.
    destruct (LivingNames.find s nm req (LivingNames.remove s (Some o) reg)) as [x|] eqn:E.
    + intros [= ->]. apply living_find_in in E as (e & Hin & Ee & _).
      by apply living_remove_other in Hin as [_ Hin].
    + simpl. apply not_eq_sym, String.eqb_neq in Nn. by rewrite Nn.
  - intros nm x Nx H. rewrite living_find_app. by rewrite (living_find_remove _ _ _ _ _ x).
Qed.

Definition namedWorld : VMState :=
  newVM (configFor "fluffos" 1000)
    {[ 1%positive := (newObject "/bob" 1 emptyProgram true 0) <| commandsEnabled := true |>;
       2%positive := (newObject "/eve" 1 emptyProgram true 0) <| commandsEnabled := true |> ]} ∅.
Lemma living_name_set_witness :
  let reg := [mkLiving 1 "bob"; mkLiving 2 "eve"] in
  let reg' := LivingNames.set namedWorld (Some 1%positive) "rob" reg in
  LivingNames.find namedWorld "rob" false reg' = Some 1%positive /\
  LivingNames.find namedWorld "bob" false reg' <> Some 1%positive /\
  LivingNames.find namedWorld "eve" false reg' = Some 2%positive.
Proof.
  intros reg reg'. destruct (living_name_set namedWorld 1 "rob" false reg) as (_ & H1 & H2 & H3).
  - apply list.NoDup_cons. split; [|apply NoDup_singleton].
    intros H%list_elem_of_singleton. discriminate H.
  - split_and!; [by apply H1|by apply H2|by apply H3].
Defined.
