(* ===== verification/Preprocess.v ===== *)
(** * Preprocess: the text passes of src/object/ObjectManager.cpp

    What happens to LPC source before the lexer sees it: include files are
    spliced in, [efun_defined(name)] becomes 1 or 0, [#'name] closures are
    masked, the text goes through cpp, line markers are dropped and the
    closures come back.

    The files are [disk].  cpp is a parameter: from its options and the staged
    text it gives whether it exited with 0, its output and its errors.  The
    temporary files that carry the text to it are not modelled. *)
From S2P Require Import Prelude CLib Value Config Network Machine.
Local Open Scope string_scope.

Definition blank (c : ascii) : bool := Ascii.eqb c " " || Ascii.eqb c TAB.
Definition notBlank (c : ascii) : bool := negb (blank c).
Definition is_word (c : ascii) : bool := isalnum c || Ascii.eqb c "_".

(** [while (i < s.size() && p(s[i])) ++i;] *)
Definition skipWhile (p : ascii -> bool) (i : nat) (s : string) : nat :=
  i + String.length (fst (span p (sdrop i s))).
Definition findChar (c : ascii) (i : nat) (s : string) : option nat := find_first (Ascii.eqb c) i s.
(** [s.substr(a, b - a)] *)
Definition slice (a b : nat) (s : string) : string := stake (b - a) (sdrop a s).
Definition quoted (s : string) : string := str1 DQUOTE +:+ s +:+ str1 DQUOTE.

(** An [std::ifstream] on a path: its content, if it can be opened.  Opening a
    directory succeeds and reads nothing. *)
Definition openFile (d : gmap string FileEntry) (path : string) : option string :=
  match d !! path with
  | Some (RegularFile t) => Some t
  | Some Directory => Some ""
  | None => None
  end.
(** The directory part of a path; all of it when there is no slash. *)
Definition dirOf (path : string) : string :=
  match find_last "/" path with Some i => stake i path | None => path end.

(** ** Closures are masked *)
Definition kHashQuoteMarker : string := "__AMLP_HASHQUOTE_MARKER__".

Fixpoint maskHashQuote (s : string) : string :=
  match s with
  | String c ((String d s2) as s1) =>
      if Ascii.eqb c "#" && Ascii.eqb d SQUOTE then kHashQuoteMarker +:+ maskHashQuote s2
      else String c (maskHashQuote s1)
  | _ => s
  end.

Fixpoint unmask (fuel : nat) (s : string) : string :=
  match fuel, s with
  | S f, String c s' =>
      if sprefix kHashQuoteMarker s
      then String "#" (String SQUOTE (unmask f (sdrop (String.length kHashQuoteMarker) s)))
      else String c (unmask f s')
  | _, _ => ""
  end.
(** Each round of the loop moves on by one byte at least. *)
Definition unmaskHashQuote (text : string) : string := unmask (String.length text) text.

(** ** Directives *)

(** The keyword of a line whose first character is [#]: where it starts and ends. *)
Definition directive (line : string) : option (nat * nat) :=
  match find_first notBlank 0 line with
  | None => None
  | Some hashPos =>
      if negb (Ascii.eqb (char_at line hashPos) "#") then None else
      match find_first notBlank (hashPos + 1) line with
      | None => None
      | Some kwStart => Some (kwStart, skipWhile isalpha kwStart line)
      end
  end.
Definition keyword (line : string) (d : nat * nat) : string := slice d.1 d.2 line.

(** What a compilation has seen: the files being spliced, and the macros
    defined as a string. *)
Record PP := mkPP { activeIncludes : gset string; macroDefs : gmap string string }.
#[export] Instance eta_PP : Eta PP := fun s =>
  {| activeIncludes := activeIncludes s; macroDefs := macroDefs s |}.

(** [#define NAME ... string]: the text between the first two quotes. *)
Definition recordDefine (line : string) (kwEnd : nat) (s : PP) : PP :=
  match find_first notBlank kwEnd line with
  | None => s
  | Some nameStart =>
      let nameEnd := skipWhile is_word nameStart line in
      if (nameStart <? nameEnd)%nat && negb (Ascii.eqb (char_at line nameEnd) "(") then
        match findChar DQUOTE nameEnd line with
        | None => s
        | Some q1 =>
            match findChar DQUOTE (q1 + 1) line with
            | None => s
            | Some q2 => s <| macroDefs ::= insert (slice nameStart nameEnd line) (slice (q1 + 1) q2 line) |>
            end
        end
      else s
  end.

(** What an include names: its delimiter, the path, and the line a computed
    include expands to. *)
Record Include := mkInclude { delim : ascii; targetPath : string; macroExpandedLine : option string }.

Definition lastNot (p : ascii -> bool) (line : string) : nat :=
  match find_last_of (fun c => negb (p c)) line with Some i => i + 1 | None => 0 end.

(** A bare macro name. *)
Definition computedInclude (line : string) (d : nat * nat) (s : PP) : option Include :=
  match find_first notBlank d.2 line with
  | None => None
  | Some nameStart =>
      let nameEnd := lastNot (fun c => blank c || Ascii.eqb c CR) line in
      if (nameStart <? nameEnd)%nat then
        match macroDefs s !! slice nameStart nameEnd line with
        | None => None
        | Some t => Some (mkInclude DQUOTE t (Some (stake d.1 line +:+ "include " +:+ quoted t)))
        end
      else None
  end.

Definition includeTarget (line : string) (d : nat * nat) (s : PP) : option Include :=
  match findChar DQUOTE d.2 line with
  | Some q =>
      match findChar DQUOTE (q + 1) line with
      | Some e => Some (mkInclude DQUOTE (slice (q + 1) e line) None)
      | None => None
      end
  | None =>
      match findChar "<" d.2 line with
      | Some a =>
          match findChar ">" (a + 1) line with
          | Some e => Some (mkInclude "<" (slice (a + 1) e line) None)
          | None => None
          end
      | None => computedInclude line d s
      end
  end.

Definition isAbsolute (path : string) : bool := Ascii.eqb (char_at path 0) "/".

Section Files.
Context (fs : gmap string FileEntry) (mudlibRoot : string) (includeDirs : list string).

(** The first candidate that can be opened. *)
Definition firstOpen (paths : list string) : option string :=
  List.find (fun p => is_some (openFile fs p)) paths.
Definition locate (i : Include) (currentDir : string) : option string :=
  if isAbsolute (targetPath i) then firstOpen [mudlibRoot +:+ targetPath i]
  else
    firstOpen (map (fun d => d +:+ "/" +:+ targetPath i)
      ((if Ascii.eqb (delim i) DQUOTE && negb (String.eqb currentDir "") then [currentDir] else []) ++ includeDirs)).

(** The line of an include that is left to cpp. *)
Definition leftForCpp (i : Include) (line : string) (kwEnd : nat) : string :=
  if isAbsolute (targetPath i) then
    let line' := default line (macroExpandedLine i) in
    match findChar DQUOTE kwEnd line' with
    | Some p =>
        if Ascii.eqb (char_at line' (p + 1)) "/"
        then stake (p + 1) line' +:+ mudlibRoot +:+ sdrop (p + 1) line' else line'
    | None => line'
    end
  else default line (macroExpandedLine i).

(** One line, and the text it contributes; [rec] splices a file that is found. *)
Definition rewriteInclude (rec : string -> string -> M PP exn string) (line currentDir : string)
    (d : nat * nat) : M PP exn string :=
  target <- mgets (includeTarget line d) ;;
  match target with
  | None => mret (line +:+ str1 NL)
  | Some i =>
      active <- mgets activeIncludes ;;
      match locate i currentDir with
      | Some realPath =>
          if bool_decide (realPath ∈ active) then mret (leftForCpp i line d.2 +:+ str1 NL) else
          mmodify (fun s => s <| activeIncludes ::= union {[ realPath ]} |>) ;;
          text <- rec (maskHashQuote (default "" (openFile fs realPath))) (dirOf realPath) ;;
          mmodify (fun s => s <| activeIncludes ::= fun a => a ∖ {[ realPath ]} |>) ;;
          mret (text +:+ str1 NL)
      | None => mret (leftForCpp i line d.2 +:+ str1 NL)
      end
  end.

Definition rewriteLine (rec : string -> string -> M PP exn string) (line currentDir : string) : M PP exn string :=
  match directive line with
  | None => mret (line +:+ str1 NL)
  | Some d =>
      if String.eqb (keyword line d) "define" then
        mmodify (recordDefine line d.2) ;; mret (line +:+ str1 NL)
      else if String.eqb (keyword line d) "include" then rewriteInclude rec line currentDir d
      else mret (line +:+ str1 NL)
  end.

Fixpoint rewriteLines (rec : string -> string -> M PP exn string) (ls : list string) (currentDir : string)
    : M PP exn string :=
  match ls with
  | [] => mret ""
  | l :: rest => a <- rewriteLine rec l currentDir ;; b <- rewriteLines rec rest currentDir ;; mret (a +:+ b)
  end.

(** [levels] is 65 less the nesting depth: beyond depth 64 the source is
    returned as it is. *)
Fixpoint rewriteIncludes (levels : nat) (source currentDir : string) : M PP exn string :=
  match levels with
  | O => mret source
  | S n => rewriteLines (rewriteIncludes n) (getlines source) currentDir
  end.
Definition maxLevels : nat := 65.
Definition rewriteAbsoluteIncludesRecursive (source currentDir : string) : M PP exn string :=
  rewriteIncludes maxLevels source currentDir.
End Files.

(** ** efun_defined *)
Section EfunDefined.
Context (efunExists : string -> bool).

(** After [efun_defined] at [callPos]: the name in parentheses, and the
    position of the closing one. *)
Definition efunCall (line : string) (callPos : nat) : option (string * nat) :=
  match find_first notBlank (callPos + 12) line with
  | None => None
  | Some open_ =>
      if negb (Ascii.eqb (char_at line open_) "(") then None else
      match find_first notBlank (open_ + 1) line with
      | None => None
      | Some nameStart =>
          let nameEnd := skipWhile is_word nameStart line in
          match find_first notBlank nameEnd line with
          | None => None
          | Some closeParen =>
              if (nameEnd =? nameStart)%nat || negb (Ascii.eqb (char_at line closeParen) ")") then None
              else Some (slice nameStart nameEnd line, closeParen)
          end
      end
  end.

Fixpoint replaceEfunDefined (fuel : nat) (line : string) (searchFrom : nat) : outcome exn string :=
  match fuel with
  | O => OutOfFuel
  | S f =>
      match find_str_from "efun_defined" searchFrom line with
      | None => Ok line
      | Some callPos =>
          match efunCall line callPos with
          | None => replaceEfunDefined f line (callPos + 12)
          | Some (efunName, closeParen) =>
              let replacement := if efunExists efunName then "1" else "0" in
              replaceEfunDefined f (stake callPos line +:+ replacement +:+ sdrop (closeParen + 1) line)
                (callPos + 1)
          end
      end
  end.

Definition rewriteEfunLine (line : string) : outcome exn string :=
  match directive line with
  | Some d =>
      if String.eqb (keyword line d) "if" || String.eqb (keyword line d) "elif"
      then replaceEfunDefined (S (String.length line)) line d.2 else Ok line
  | None => Ok line
  end.

Fixpoint rewriteEfunLines (ls : list string) : outcome exn string :=
  match ls with
  | [] => Ok ""
  | l :: rest => let! a := rewriteEfunLine l in let! b := rewriteEfunLines rest in Ok (a +:+ str1 NL +:+ b)
  end.
Definition rewriteEfunDefined (source : string) : outcome exn string := rewriteEfunLines (getlines source).
End EfunDefined.

(** ** Around cpp *)
Definition isMarker (line : string) : bool :=
  match find_first notBlank 0 line with Some i => Ascii.eqb (char_at line i) "#" | None => false end.
Definition unlines (ls : list string) : string := fold_right (fun l s => l +:+ str1 NL +:+ s) "" ls.
Definition stripLineMarkers (text : string) : string :=
  unlines (List.filter (fun l => negb (isMarker l)) (getlines text)).

(** The pieces between separators. *)
Fixpoint pieces (sep : ascii) (s : string) : list string :=
  match s with
  | EmptyString => [""]
  | String c s' =>
      if Ascii.eqb c sep then "" :: pieces sep s'
      else match pieces sep s' with
           | [] => [str1 c]
           | p :: ps => String c p :: ps
           end
  end.
Definition splitIncludeDirs (raw mudlibRoot : string) : list string :=
  map (fun e => if isAbsolute e then e else mudlibRoot +:+ "/" +:+ e)
    (List.filter (fun e => negb (String.eqb e "")) (pieces ":" raw)).

(** ** Predefined macros

    The values go through a shell: a quote is written with a backslash. *)
Definition escaped (s : string) : string := str1 BSLASH +:+ str1 DQUOTE +:+ s +:+ str1 BSLASH +:+ str1 DQUOTE.

Definition kFluffosPredefinedMacros : list (string * string) :=
  [("__STRIP_BEFORE_PROCESS_INPUT__", ""); ("__NO_LIGHT__", ""); ("__CUSTOM_CRYPT__", "");
   ("__RECEIVE_SNOOP__", ""); ("__ARGUMENTS_IN_TRACEBACK__", ""); ("__NEXT_MALLOC_DEBUG__", "");
   ("__ARRAY_STATS__", ""); ("__LOCALS_IN_TRACEBACK__", ""); ("__SYSMALLOC__", "");
   ("__CFG_MAX_CALL_DEPTH__", "150"); ("__SAVE_EXTENSION__", escaped ".o");
   ("__LOG_CATCHES__", ""); ("__NONINTERACTIVE_STDERR_WRITE__", "");
   ("__SMALL_STRING_SIZE__", "100"); ("__CALLOUT_CYCLE_SIZE__", "32"); ("__PACKAGE_MATH__", "");
   ("__PACKAGE_DEVELOP__", ""); ("__SUPPRESS_ARGUMENT_WARNINGS__", "");
   ("__LARGEST_PRINTABLE_STRING__", "8192"); ("__CFG_LIVING_HASH_SIZE__", "256");
   ("__CACHE_STATS__", ""); ("__CONFIG_FILE_DIR__", escaped "./"); ("__PARSE_DEBUG__", "");
   ("__TRAP_CRASHES__", ""); ("__RESTRICTED_ED__", ""); ("__STRING_STATS__", "");
   ("__CALLOUT_HANDLES__", ""); ("__FLUFFOS__", ""); ("__CFG_COMPILER_STACK_SIZE__", "600000");
   ("__LARGE_STRING_SIZE__", "1000"); ("__HEARTBEAT_INTERVAL__", "1"); ("__PACKAGE_MATRIX__", "");
   ("__PRIVS__", ""); ("__COMMAND_BUF_SIZE__", "2000"); ("__OLD_ED__", "");
   ("__PACKAGE_PARSER__", ""); ("__THIS_PLAYER_IN_CALL_OUT__", ""); ("__PACKAGE_CONTRIB__", "");
   ("__ALLOW_INHERIT_AFTER_GLOBAL_VARIABLES__", ""); ("__CFG_MAX_LOCAL_VARIABLES__", "50");
   ("__MESSAGE_BUFFER_SIZE__", "4096"); ("__NO_WIZARDS__", "");
   ("__SAVE_GZ_EXTENSION__", escaped ".o.gz"); ("__PACKAGE_SOCKETS__", "");
   ("__NUM_EXTERNAL_CMDS__", "100"); ("__HEART_BEAT_CHUNK__", "32");
   ("__INTERACTIVE_CATCH_TELL__", ""); ("__MAX_SAVE_SVALUE_DEPTH__", "100");
   ("__DEFAULT_PRAGMAS__", "0"); ("__NO_ANSI__", ""); ("__HAS_STATUS_TYPE__", "");
   ("__CFG_EVALUATOR_STACK_SIZE__", "3000"); ("__PACKAGE_MUDLIB_STATS__", "");
   ("__WARN_TAB__", ""); ("__ALLOW_INHERIT_AFTER_FUNCTION__", ""); ("__APPLY_CACHE_BITS__", "11");
   ("__MUDLIB_ERROR_HANDLER__", "")].
Definition kFluffosRuntimePredefinedMacros : list (string * string) :=
  [("MUDOS", ""); ("__VERSION__", escaped "2.9-ds2.08"); ("__ARCH__", escaped "Linux");
   ("__COMPILER__", escaped "g++"); ("__OPTIMIZATION__", escaped "-O2"); ("SIZEOFINT", "8");
   ("MAX_INT", "9223372036854775807")].
Definition kPcrePackagePredefinedMacros : list (string * string) :=
  [("__PACKAGE_PCRE__", ""); ("PCRE_DEFAULT", "0"); ("PCRE_I", "65536"); ("PCRE_M", "131072");
   ("PCRE_S", "262144"); ("PCRE_U", "524288"); ("PCRE_X", "1048576"); ("PCRE_A", "2097152")].

Definition macroFlags (l : list (string * string)) : string :=
  fold_right (fun m s => " -D" +:+ m.1 +:+ "=" +:+ m.2 +:+ s) "" l.

Definition buildPredefinedMacroFlags (c : Config) (compiledFilename : string) : string :=
  let lpcFile := compiledFilename +:+ ".c" in
  let lpcDir := match find_last "/" lpcFile with Some i => stake (i + 1) lpcFile | None => "" end in
  macroFlags kFluffosPredefinedMacros +:+ macroFlags kFluffosRuntimePredefinedMacros
  +:+ macroFlags kPcrePackagePredefinedMacros
  +:+ " -D__PORT__=" +:+ to_string (port c)
  +:+ " -DMUD_NAME=" +:+ escaped (mudName c)
  +:+ " -D__FILE__=" +:+ escaped lpcFile
  +:+ " -D__DIR__=" +:+ escaped lpcDir.

(** ** The whole pass *)
Section Stage.
Context (fs : gmap string FileEntry) (c : Config) (efunExists : string -> bool).
Context (cpp : string -> string -> bool * string * string).

(** The global include file: spliced when it is in angle brackets and found. *)
Definition globalHeader (includeDirs : list string) : option string :=
  let g := globalIncludeFile c in
  if (2 <=? String.length g)%nat && Ascii.eqb (char_at g 0) "<" && Ascii.eqb (char_at g (String.length g - 1)) ">" then
    let headerName := slice 1 (String.length g - 1) g in
    List.find (fun dir => is_some (openFile fs (dir +:+ "/" +:+ headerName))) includeDirs
  else None.

Definition stagePrefix (includeDirs : list string) : M PP exn string :=
  let g := globalIncludeFile c in
  if String.eqb g "" then mret "" else
  match globalHeader includeDirs with
  | Some dir =>
      let headerName := slice 1 (String.length g - 1) g in
      rewriteAbsoluteIncludesRecursive fs (mudlibRoot c) includeDirs
        (maskHashQuote (default "" (openFile fs (dir +:+ "/" +:+ headerName)))) dir
  | None =>
      rewriteAbsoluteIncludesRecursive fs (mudlibRoot c) includeDirs
        ("#include " +:+ g +:+ str1 NL) (mudlibRoot c)
  end.

(** The staged text; [None] when the source cannot be opened. *)
Definition stageSourceForPreprocessing (originalPath : string) (includeDirs : list string) : outcome exn (option string) :=
  match openFile fs originalPath with
  | None => Ok None
  | Some text =>
      let m :=
        prefix <- stagePrefix includeDirs ;;
        body <- rewriteAbsoluteIncludesRecursive fs (mudlibRoot c) includeDirs (maskHashQuote text) (dirOf originalPath) ;;
        mret (prefix +:+ "# 1 " +:+ quoted originalPath +:+ str1 NL +:+ body) in
      let! rewritten := fst (m (mkPP ∅ ∅)) in
      let! staged := rewriteEfunDefined efunExists rewritten in
      Ok (Some staged)
  end.

(** The options cpp is called with. *)
Definition cppOptions (includeDirs : list string) (originalSourceDir compiledFilename : string) : string :=
  "-I '.' -I '" +:+ originalSourceDir +:+ "'"
  +:+ fold_right (fun d s => " -I '" +:+ d +:+ "'" +:+ s) "" includeDirs
  +:+ buildPredefinedMacroFlags c compiledFilename +:+ " -x c".

(** The text for the lexer, or what cpp complained about. *)
Definition runPreprocessor (staged : string) (includeDirs : list string) (originalSourceDir compiledFilename : string)
    : string + string :=
  let '(exitedOk, out, err) := cpp (cppOptions includeDirs originalSourceDir compiledFilename) staged in
  if exitedOk : bool then inl (unmaskHashQuote (stripLineMarkers out)) else inr err.
End Stage.
