(* ===== verification/PreprocessFacts.v ===== *)
(** * PreprocessFacts: the text passes do what they are for

    Masking is undone by unmasking, line markers and nothing else are dropped,
    include directories are split at colons, and the rewriting loops end. *)
From S2P Require Import Prelude CLib Value Config Network Machine Preprocess.
Local Open Scope nat_scope.

(** ** Strings *)
Lemma sprefix_own p s : sprefix p (p +:+ s) = true.
Proof. induction p as [|c p IH]; [done|]. rewrite sapp_cons. cbn. by rewrite Ascii.eqb_refl. Qed.
Lemma sprefix_true p : forall s, sprefix p s = true -> exists r, s = p +:+ r.
Proof.
  induction p as [|c p IH]; intros s Hs; [by exists s|]. destruct s as [|d s]; [done|]. cbn in Hs.
  apply andb_true_iff in Hs as [->%Ascii.eqb_eq Hs]. destruct (IH s Hs) as [r ->]. by exists r.
Qed.
(** A shorter pattern does not look beyond its length. *)
Lemma sprefix_short p : forall a b, String.length p <= String.length a -> sprefix p (a +:+ b) = sprefix p a.
Proof.
  induction p as [|c p IH]; intros [|d a] b Hl; cbn in Hl; try done; try lia. rewrite sapp_cons. cbn. f_equal. apply IH. lia.
Qed.
Lemma find_str_tail p c s : find_str p (String c s) = None -> find_str p s = None.
Proof. cbn. destruct (sprefix p (String c s)); [done|]. by destruct (find_str p s). Qed.
Lemma find_str_drop p n : forall s, find_str p s = None -> find_str p (sdrop n s) = None.
Proof.
  induction n as [|n IH]; intros s Hs; [done|]. destruct s as [|c s]; [done|]. exact (IH s (find_str_tail _ _ _ Hs)).
Qed.
Lemma find_str_none_prefix p s : find_str p s = None -> sprefix p s = false.
Proof. destruct s; cbn; by destruct (sprefix p _). Qed.

(** ** Masking *)

(** A pattern that begins the masked text begins the text, or runs into the
    marker of a closure. *)
Lemma sprefix_mask p : forall s, sprefix p (maskHashQuote s) = true ->
  sprefix p s = true \/
  exists k v, k < String.length p /\ s = stake k p +:+ String "#" (String SQUOTE v) /\
    sprefix (sdrop k p) (kHashQuoteMarker +:+ maskHashQuote v) = true.
Proof.
  induction p as [|c p IH]; intros s Hs; [by left|]. destruct s as [|a [|b s]]; [by left|by left|].
  cbn [maskHashQuote] in Hs. destruct (Ascii.eqb a "#" && Ascii.eqb b SQUOTE) eqn:E.
  - right. apply andb_true_iff in E as [->%Ascii.eqb_eq ->%Ascii.eqb_eq]. exists 0, s. split; [cbn; lia|]. by split.
  - change (sprefix (String c p) (String a (maskHashQuote (String b s))) = true) in Hs. cbn [sprefix] in Hs |- *.
    apply andb_true_iff in Hs as [->%Ascii.eqb_eq Hs].
    destruct (IH _ Hs) as [H|(k & v & Hk & -> & H)]; [left; by rewrite Ascii.eqb_refl|].
    right. exists (S k), v. split; [cbn; lia|]. by split.
Qed.

(** The marker without its last two bytes. *)
Definition kMarkerStem : string := "__AMLP_HASHQUOTE_MARKER".

Lemma marker_starts_closure s : find_str kMarkerStem s = None -> sprefix kHashQuoteMarker (maskHashQuote s) = true ->
  exists v, s = String "#" (String SQUOTE v).
Proof.
  intros Hs Hm. assert (forall r, s <> kMarkerStem +:+ r) as Hno.
  { intros r ->. pose proof (find_str_none_prefix _ _ Hs) as H. by rewrite sprefix_own in H. }
  apply sprefix_mask in Hm as [H|(k & v & Hk & E & H)].
  - apply sprefix_true in H as [r ->]. exfalso. by apply (Hno ("__" +:+ r)).
  - rewrite sprefix_short in H by (rewrite sdrop_length; cbn; lia).
    do 25 (destruct k as [|k]; [first [by exists v | by vm_compute in H | by destruct (Hno _ E)]|]). cbn in Hk. lia.
Qed.

(** Masking is undone: the closures of a text that does not contain the
    marker survive cpp's view of it, and everything else is as it was. *)
Theorem unmask_mask s : find_str kMarkerStem s = None -> unmaskHashQuote (maskHashQuote s) = s.
Proof.
  intros Hs. unfold unmaskHashQuote.
  assert (forall n s, String.length s <= n -> find_str kMarkerStem s = None -> forall fuel,
    String.length (maskHashQuote s) <= fuel -> unmask fuel (maskHashQuote s) = s) as Hall; [|by eapply Hall].
  clear s Hs. induction n as [|n IH]; intros s Hn Hs fuel Hf.
  { destruct s; [|cbn in Hn; lia]. by destruct fuel. }
  destruct (sprefix kHashQuoteMarker (maskHashQuote s)) eqn:Hm.
  - destruct (marker_starts_closure s Hs Hm) as [v ->].
    change (maskHashQuote (String "#" (String SQUOTE v))) with (kHashQuoteMarker +:+ maskHashQuote v) in *.
    rewrite slength_app in Hf. change (String.length kHashQuoteMarker) with 25 in Hf. destruct fuel as [|fuel]; [lia|].
    destruct (kHashQuoteMarker +:+ maskHashQuote v) as [|a r] eqn:E; [done|]. cbn [unmask]. rewrite Hm, <- E, sdrop_app.
    rewrite IH; [done|cbn in Hn; lia|by do 2 apply find_str_tail in Hs|lia].
  - destruct s as [|c s]; [by destruct fuel|].
    assert (maskHashQuote (String c s) = String c (maskHashQuote s)) as E.
    { destruct s as [|d s]; [done|]. cbn [maskHashQuote] in Hm |- *.
      destruct (Ascii.eqb c "#" && Ascii.eqb d SQUOTE); [|done]. by rewrite sprefix_own in Hm. }
    rewrite E in *. destruct fuel as [|fuel]; [cbn in Hf; lia|]. cbn [unmask]. rewrite Hm.
    f_equal. apply IH; [cbn in Hn; lia|by apply find_str_tail in Hs|cbn in Hf; lia].
Qed.
Lemma unmask_mask_witness : find_str kMarkerStem "map(a, #'f);" = None /\
  maskHashQuote "map(a, #'f);" = "map(a, __AMLP_HASHQUOTE_MARKER__f);" /\
  unmaskHashQuote (maskHashQuote "map(a, #'f);") = "map(a, #'f);".
Proof. split; [reflexivity|]. split; [reflexivity|]. apply unmask_mask. reflexivity. Defined.

(** ** Lines and pieces *)
Definition no_nl (s : string) : Prop := sforall (fun c => negb (Ascii.eqb c NL)) s = true.

Lemma getlines_line l s : no_nl l -> getlines (l +:+ str1 NL +:+ s) = l :: getlines s.
Proof.
  unfold no_nl. induction l as [|c l IH]; intros Hl; [done|]. cbn in Hl. apply andb_true_iff in Hl as [Hc Hl].
  rewrite sapp_cons. cbn [getlines]. rewrite (proj1 (negb_true_iff _) Hc). by rewrite IH.
Qed.
Lemma getlines_no_nl s : Forall no_nl (getlines s).
Proof.
  induction s as [|c s IH]; cbn [getlines]; [constructor|]. destruct (Ascii.eqb c NL) eqn:E; [by constructor|].
  assert (forall l, no_nl l -> no_nl (String c l)) as Hc by (unfold no_nl; intros l Hl; cbn; by rewrite E, Hl).
  destruct IH as [|l ls Hl Hls]; constructor; auto. by apply (Hc "").
Qed.
Lemma getlines_unlines ls : Forall no_nl ls -> getlines (unlines ls) = ls.
Proof. induction 1 as [|l ls Hl Hls IH]; [done|]. cbn [unlines fold_right]. rewrite getlines_line by done. f_equal. exact IH. Qed.

(** Only the line markers go: the lines the lexer gets are those cpp wrote
    whose first character is not [#], in their order. *)
Theorem stripLineMarkers_spec t :
  getlines (stripLineMarkers t) = List.filter (fun l => negb (isMarker l)) (getlines t).
Proof.
  apply getlines_unlines. assert (forall ls, Forall no_nl ls -> Forall no_nl (List.filter (fun l => negb (isMarker l)) ls)) as H.
  { induction 1; simpl; [constructor|]. destruct (negb _); by try constructor. }
  apply H, getlines_no_nl.
Qed.

Lemma pieces_one sep d s : sforall (fun c => negb (Ascii.eqb c sep)) d = true ->
  pieces sep (d +:+ String sep s) = d :: pieces sep s /\ pieces sep d = [d].
Proof.
  induction d as [|c d IH]; intros Hd.
  - rewrite sapp_nil_l. cbn. by rewrite Ascii.eqb_refl.
  - cbn in Hd. apply andb_true_iff in Hd as [Hc Hd]. apply IH in Hd as [E1 E2]. rewrite sapp_cons. cbn [pieces].
    rewrite (proj1 (negb_true_iff _) Hc). by rewrite E1, E2.
Qed.

(** The include directories of the configuration are the entries between
    its colons, relative ones taken from the root of the mudlib. *)
Theorem splitIncludeDirs_spec root dirs :
  Forall (fun d => d <> ""%string /\ sforall (fun c => negb (Ascii.eqb c ":")) d = true) dirs ->
  splitIncludeDirs (String.concat ":" dirs) root =
  map (fun e => if isAbsolute e then e else root +:+ "/" +:+ e) dirs.
Proof.
  intros Hd. unfold splitIncludeDirs. f_equal.
  assert (forall d ds, Forall (fun d => d <> ""%string /\ sforall (fun c => negb (Ascii.eqb c ":")) d = true) (d :: ds) ->
    pieces ":" (String.concat ":" (d :: ds)) = d :: ds) as Hp.
  { intros d ds. revert d. induction ds as [|d2 ds IH]; intros d Hf; apply list.Forall_cons in Hf as [[_ H1] Hf].
    - by apply (pieces_one _ _ "").
    - change (String.concat ":" (d :: d2 :: ds)) with (d +:+ String ":" (String.concat ":" (d2 :: ds))).
      rewrite (proj1 (pieces_one ":" d (String.concat ":" (d2 :: ds)) H1)). by rewrite IH. }
  destruct dirs as [|d ds]; [done|]. rewrite Hp by done. clear Hp.
  induction Hd as [|x l [Hx _] _ IH]; [done|]. cbn. destruct (String.eqb_spec x ""); [done|]. cbn. by rewrite IH.
Qed.
Lemma splitIncludeDirs_spec_witness :
  Forall (fun d => d <> ""%string /\ sforall (fun c => negb (Ascii.eqb c ":")) d = true) ["/inc"; "secure/include"] /\
  splitIncludeDirs (String.concat ":" ["/inc"; "secure/include"]) "lib" = ["/inc"; "lib/secure/include"].
Proof.
  assert (Forall (fun d => d <> ""%string /\ sforall (fun c => negb (Ascii.eqb c ":")) d = true) ["/inc"; "secure/include"]) as H
    by (repeat constructor; discriminate).
  split; [exact H|]. exact (splitIncludeDirs_spec "lib" _ H).
Defined.

(** ** efun_defined *)
Lemma span_shorter p s : String.length (fst (span p s)) <= String.length s.
Proof. induction s as [|c s IH]; [done|]. cbn. destruct (p c); [|cbn; lia]. destruct (span p s). cbn in *. lia. Qed.
Lemma index_of_bound p s i : index_of p s = Some i -> i < String.length s.
Proof.
  revert i. induction s as [|c s IH]; intros i; [done|]. cbn. destruct (p c); [intros [= <-]; lia|].
  destruct (index_of p s) as [j|]; [|done]. intros [= <-]. specialize (IH j eq_refl). lia.
Qed.
Lemma find_first_bound p from s i : find_first p from s = Some i -> from <= i /\ i < String.length s.
Proof.
  unfold find_first. destruct (index_of p _) as [j|] eqn:E; [|done]. intros [= <-]. apply index_of_bound in E.
  rewrite sdrop_length in E. lia.
Qed.
Lemma find_str_bound pat s i : find_str pat s = Some i -> i + String.length pat <= String.length s.
Proof.
  revert i. induction s as [|c s IH]; intros i; cbn [find_str].
  - destruct (sprefix pat "") eqn:E; [|done]. intros [= <-]. destruct pat; [cbn; lia|done].
  - destruct (sprefix pat (String c s)) eqn:E.
    + intros [= <-]. apply sprefix_true in E as [r ->]. rewrite slength_app. lia.
    + destruct (find_str pat s) as [j|]; [|done]. intros [= <-]. specialize (IH j eq_refl). cbn. lia.
Qed.
Lemma find_from_bound pat from s i : find_str_from pat from s = Some i ->
  from <= i /\ i + String.length pat <= String.length s.
Proof.
  unfold find_str_from. destruct (Nat.ltb_spec (String.length s) from); [done|].
  destruct (find_str pat _) as [j|] eqn:E; [|done]. intros [= <-]. apply find_str_bound in E.
  rewrite sdrop_length in E. lia.
Qed.
Lemma efunCall_bound line callPos name e : efunCall line callPos = Some (name, e) -> callPos + 12 < e /\ e < String.length line.
Proof.
  unfold efunCall. destruct (find_first notBlank (callPos + 12) line) as [o|] eqn:E1; [|done].
  destruct (negb _); [done|]. destruct (find_first notBlank (o + 1) line) as [n|] eqn:E2; [|done].
  destruct (find_first notBlank (skipWhile _ _ _) line) as [c|] eqn:E3; [|done]. destruct (_ || _); [done|]. intros [= _ <-].
  apply find_first_bound in E1, E2, E3. unfold skipWhile in E3. lia.
Qed.

(** What is left of the line shrinks in every round. *)
Lemma replaceEfunDefined_ends ex fuel : forall line from, String.length line - from < fuel ->
  exists r, replaceEfunDefined ex fuel line from = Ok r.
Proof.
  induction fuel as [|f IH]; intros line from Hf; [lia|]. cbn [replaceEfunDefined].
  destruct (find_str_from "efun_defined" from line) as [p|] eqn:E; [|by eexists]. apply find_from_bound in E as [E1 E2].
  cbn in E2. destruct (efunCall line p) as [[name e]|] eqn:Ec; [|apply IH; lia].
  apply efunCall_bound in Ec as [H1 H2]. apply IH.
  rewrite !slength_app, stake_length, sdrop_length. destruct (ex name); cbn [String.length]; lia.
Qed.

(** The rewriting of [efun_defined] ends on every text, and leaves a text
    without directives alone but for its last line end. *)
Theorem rewriteEfunDefined_total ex t :
  exists r, rewriteEfunDefined ex t = Ok r /\
    ((forall l, l ∈ getlines t -> directive l = None) -> r = unlines (getlines t)).
Proof.
  unfold rewriteEfunDefined. induction (getlines t) as [|l ls (r & IH & Hr)]; [by eexists|]. cbn [rewriteEfunLines].
  assert (exists a, rewriteEfunLine ex l = Ok a /\ (directive l = None -> a = l)) as (a & Ea & Ha).
  { unfold rewriteEfunLine. destruct (directive l) as [d|]; [|by eexists]. destruct (_ || _); [|by eexists].
    destruct (replaceEfunDefined_ends ex (S (String.length l)) l d.2) as [r' ->]; [lia|]. by eexists. }
  rewrite Ea, IH. cbn [obind]. eexists. split; [reflexivity|]. intros Hd. rewrite Ha, Hr; [done| |].
  - intros l' Hl'. apply Hd. by right.
  - apply Hd. by left.
Qed.
Lemma rewriteEfunDefined_total_sample :
  rewriteEfunDefined (String.eqb "map") ("#if efun_defined( map ) && efun_defined(foo)" +:+ str1 NL +:+ "efun_defined(map)")
  = Ok ("#if 1 && 0" +:+ str1 NL +:+ "efun_defined(map)" +:+ str1 NL).
Proof. reflexivity. Qed.

(** ** Includes *)
Section Includes.
Context (fs : gmap string FileEntry) (root : string) (dirs : list string).

(** [settles m]: [m] returns, and the set of files being spliced is as before. *)
Definition settles (m : M PP exn string) : Prop :=
  forall s, exists t s', m s = (Ok t, s') /\ activeIncludes s' = activeIncludes s.

Lemma settles_ret t : settles (mret t).
Proof. intros s. by eexists _, _. Qed.
Lemma settles_bind m k : settles m -> (forall t, settles (k t)) -> settles (mbind m k).
Proof.
  intros Hm Hk s. destruct (Hm s) as (t & s1 & E & H1). destruct (Hk t s1) as (t2 & s2 & E2 & H2).
  exists t2, s2. split; [by erewrite mbind_run|congruence].
Qed.

Lemma recordDefine_active line kw s : activeIncludes (recordDefine line kw s) = activeIncludes s.
Proof. unfold recordDefine. by repeat case_match. Qed.

Lemma rewriteInclude_settles rec line dir d : (forall t d', settles (rec t d')) -> settles (rewriteInclude fs root dirs rec line dir d).
Proof.
  intros Hrec s. unfold rewriteInclude, mbind at 1, mgets at 1. destruct (includeTarget line d s) as [i|]; [|apply settles_ret].
  unfold mbind at 1, mgets at 1. destruct (locate fs root dirs i dir) as [path|]; [|apply settles_ret].
  case_bool_decide as Ha; [apply settles_ret|]. unfold mbind at 1, mmodify at 1.
  destruct (Hrec (maskHashQuote (default "" (openFile fs path))) (dirOf path)
              (s <| activeIncludes ::= union {[ path ]} |>)) as (t & s1 & E & H1).
  erewrite mbind_run by exact E. eexists _, _. split; [reflexivity|]. cbn. rewrite H1. cbn. set_solver.
Qed.
Lemma rewriteLine_settles rec line dir : (forall t d', settles (rec t d')) -> settles (rewriteLine fs root dirs rec line dir).
Proof.
  intros Hrec. unfold rewriteLine. destruct (directive line) as [d|]; [|apply settles_ret].
  destruct (String.eqb _ "define"); [|destruct (String.eqb _ "include"); [by apply rewriteInclude_settles|apply settles_ret]].
  intros s. eexists _, _. split; [reflexivity|]. apply recordDefine_active.
Qed.
Lemma rewriteLines_settles rec ls dir : (forall t d', settles (rec t d')) -> settles (rewriteLines fs root dirs rec ls dir).
Proof.
  intros Hrec. induction ls as [|l ls IH]; [apply settles_ret|]. cbn [rewriteLines].
  apply settles_bind; [by apply rewriteLine_settles|]. intros a. apply settles_bind; [done|]. intros b. apply settles_ret.
Qed.

(** Lines that are no includes stay as they are. *)
Definition is_include (line : string) : bool :=
  match directive line with Some d => String.eqb (keyword line d) "include" | None => false end.
Lemma rewriteLine_other rec line dir s : is_include line = false ->
  fst (rewriteLine fs root dirs rec line dir s) = Ok (line +:+ str1 NL).
Proof.
  unfold is_include, rewriteLine. destruct (directive line) as [d|]; [|done]. intros Hi. rewrite Hi.
  by destruct (String.eqb (keyword line d) "define").
Qed.

Lemma rewriteIncludes_settles levels t d : settles (rewriteIncludes fs root dirs levels t d).
Proof. revert t d. induction levels as [|n IH]; intros t d; [apply settles_ret|]. by apply rewriteLines_settles. Qed.

(** Splicing includes ends whatever the files include, cyclically or not,
    leaves the set of files being spliced as it was, and a source that
    includes nothing is staged line by line as it is. *)
Theorem rewriteIncludes_total levels source dir s :
  (exists t s', rewriteIncludes fs root dirs levels source dir s = (Ok t, s') /\ activeIncludes s' = activeIncludes s) /\
  (0 < levels -> forallb (fun l => negb (is_include l)) (getlines source) = true ->
   fst (rewriteIncludes fs root dirs levels source dir s) = Ok (unlines (getlines source))).
Proof.
  split; [apply rewriteIncludes_settles|]. destruct levels as [|n]; [lia|]. intros _. cbn [rewriteIncludes]. revert s.
  induction (getlines source) as [|l ls IH]; intros s Hf; [done|]. cbn [forallb] in Hf. apply andb_true_iff in Hf as [Hl Hf].
  cbn [rewriteLines]. apply negb_true_iff in Hl. pose proof (rewriteLine_other (rewriteIncludes fs root dirs n) l dir s Hl) as E.
  destruct (rewriteLine _ _ _ _ l dir s) as [r s1] eqn:E1. cbn [fst] in E. subst r. erewrite mbind_run by exact E1.
  specialize (IH s1 Hf). destruct (rewriteLines _ _ _ _ ls dir s1) as [r s2] eqn:E2. cbn [fst] in IH. subst r.
  erewrite mbind_run by exact E2. cbn. by rewrite sapp_assoc.
Qed.
End Includes.
Lemma rewriteIncludes_total_witness (fs := {[ "lib/a.h" := RegularFile "#include <a.h>" ]} : gmap string FileEntry) :
  0 < maxLevels /\ forallb (fun l => negb (is_include l)) (getlines ("int x;" +:+ str1 NL +:+ "int y;")) = true /\
  fst (rewriteIncludes fs "lib" ["lib"] maxLevels "#include <a.h>" "lib" (mkPP ∅ ∅)) =
    Ok ("#include <a.h>" +:+ str1 NL +:+ str1 NL) /\
  fst (rewriteIncludes fs "lib" ["lib"] maxLevels ("int x;" +:+ str1 NL +:+ "int y;") "lib" (mkPP ∅ ∅)) =
    Ok ("int x;" +:+ str1 NL +:+ "int y;" +:+ str1 NL).
Proof.
  split; [unfold maxLevels; lia|]. split; [reflexivity|]. split; [vm_compute; reflexivity|].
  apply (rewriteIncludes_total fs "lib" ["lib"] maxLevels ("int x;" +:+ str1 NL +:+ "int y;") "lib" (mkPP ∅ ∅)); [unfold maxLevels; lia|reflexivity].
Defined.
