(* ===== verification/PreprocessPass.v ===== *)
(** * PreprocessPass: what reaches the lexer

    The passes of Preprocess.v put together.  [spliced] says, line by line and
    without closures, masks or macros, what a source with its include files in
    place is.  [preprocess_pass]: that, masked, is what cpp is given, and when
    cpp keeps the lines it is given (line markers aside), it is what the lexer
    gets. *)
From S2P Require Import Prelude CLib Value Config Network Machine Preprocess PreprocessFacts.
Local Open Scope nat_scope.

(** ** The specification *)

(** A line cpp has nothing to do with: its first character is no [#], or it is
    the [#] of a closure.  The text of the mask does not occur in it. *)
Definition startsPlain (l : string) : bool :=
  match snd (span blank l) with
  | String c r => negb (Ascii.eqb c "#") || Ascii.eqb (char_at r 0) SQUOTE
  | EmptyString => true
  end.
Definition plain (l : string) : Prop := startsPlain l = true /\ find_str kMarkerStem l = None.

Definition blanks (s : string) : Prop := sforall blank s = true.
Definition without (c : ascii) (s : string) : Prop := sforall (fun x => negb (Ascii.eqb x c)) s = true.

(** [#include] with a path in quotes or in angle brackets, blanks anywhere. *)
Definition includeText (pre mid sp : string) (open_ : ascii) (target : string) (close : ascii) (post : string) : string :=
  pre +:+ String "#" (mid +:+ "include" +:+ sp +:+ String open_ (target +:+ String close post)).
Inductive includeLine : string -> Include -> Prop :=
  | include_quote pre mid sp target post :
      blanks pre -> blanks mid -> blanks sp -> without "#" target -> without DQUOTE target ->
      includeLine (includeText pre mid sp DQUOTE target DQUOTE post) (mkInclude DQUOTE target None)
  | include_angle pre mid sp target post :
      blanks pre -> blanks mid -> blanks sp -> without "#" target -> without ">" target ->
      without DQUOTE target -> without DQUOTE post ->
      includeLine (includeText pre mid sp "<" target ">" post) (mkInclude "<" target None).

Section Spec.
Context (fs : gmap string FileEntry) (root : string) (dirs : list string).

(** The lines of a source in the directory [dir], with the files it includes in
    place of the lines that include them, each followed by a blank line; [n]
    bounds the depth, and [active] are the files around this one. *)
Inductive spliced : nat -> gset string -> string -> list string -> list string -> Prop :=
  | spliced_end n active dir : spliced n active dir [] []
  | spliced_plain n active dir l ls out :
      plain l -> spliced n active dir ls out -> spliced n active dir (l :: ls) (l :: out)
  | spliced_include n active dir l i path text body ls out :
      includeLine l i -> locate fs root dirs i dir = Some path -> path ∉ active -> openFile fs path = Some text ->
      spliced n ({[ path ]} ∪ active) (dirOf path) (getlines text) body ->
      spliced (S n) active dir ls out ->
      spliced (S n) active dir (l :: ls) (body ++ "" :: out).
End Spec.

(** ** Masking, line by line *)
Definition closes (c : ascii) (s : string) : bool := Ascii.eqb c "#" && Ascii.eqb (char_at s 0) SQUOTE.

Lemma mask_cons c s : closes c s = false -> maskHashQuote (String c s) = String c (maskHashQuote s).
Proof. unfold closes. destruct s as [|d s]; [done|]. change (char_at (String d s) 0) with d. cbn [maskHashQuote]. by intros ->. Qed.
Lemma closes_true c s : closes c s = true -> exists v, c = "#"%char /\ s = String SQUOTE v.
Proof.
  unfold closes. intros [->%Ascii.eqb_eq H]%andb_true_iff. destruct s as [|d s]; [done|].
  apply Ascii.eqb_eq in H. change (char_at (String d s) 0) with d in H. subst d. by exists s.
Qed.

(** Two ways a text begins, for masking. *)
Lemma mask_ind (P : string -> Prop) :
  P "" -> (forall v, P v -> P (String "#" (String SQUOTE v))) ->
  (forall c s, closes c s = false -> P s -> P (String c s)) -> forall s, P s.
Proof.
  intros H0 H1 H2 s. cut (forall n s, String.length s <= n -> P s); [intros H; by apply (H (String.length s))|].
  clear s. induction n as [|n IH]; intros [|c s] Hn; cbn in Hn; try done; try lia.
  destruct (closes c s) eqn:E; [|by apply H2, IH; lia || done].
  apply closes_true in E as (v & -> & ->). apply H1, IH. cbn in Hn. lia.
Qed.

Lemma mask_nl a b : maskHashQuote (a +:+ String NL b) = maskHashQuote a +:+ String NL (maskHashQuote b).
Proof.
  induction a as [|v IH|c s Hc IH] using mask_ind.
  - apply (mask_cons NL). by destruct b.
  - rewrite !sapp_cons. change (maskHashQuote (String "#" (String SQUOTE ?x))) with (kHashQuoteMarker +:+ maskHashQuote x).
    by rewrite IH, sapp_assoc.
  - rewrite sapp_cons, !mask_cons, sapp_cons, IH; [done|done|].
    revert Hc. unfold closes. destruct s; [|done]. cbn. by rewrite !andb_false_r.
Qed.
Lemma mask_unlines ls : maskHashQuote (unlines ls) = unlines (map maskHashQuote ls).
Proof.
  induction ls as [|l ls IH]; [done|].
  change (maskHashQuote (l +:+ String NL (unlines ls)) = maskHashQuote l +:+ String NL (unlines (map maskHashQuote ls))).
  by rewrite <- IH, mask_nl.
Qed.

Lemma getlines_glue p s : no_nl p -> p <> ""%string ->
  getlines (p +:+ s) = match getlines s with [] => [p] | l :: ls => (p +:+ l) :: ls end.
Proof.
  intros Hp Hne. induction p as [|c p IH]; [done|]. unfold no_nl in *. cbn in Hp. apply andb_true_iff in Hp as [Hc Hp].
  rewrite sapp_cons. cbn [getlines]. rewrite (proj1 (negb_true_iff _) Hc).
  destruct p as [|d p]; [by rewrite sapp_nil_l; destruct (getlines s)|]. rewrite IH by done. by destruct (getlines s).
Qed.
Lemma getlines_head s l ls : getlines s = l :: ls -> char_at l 0 = SQUOTE -> char_at s 0 = SQUOTE.
Proof.
  destruct s as [|c s]; [done|]. cbn [getlines]. destruct (Ascii.eqb c NL); [by intros [= <- _]|].
  destruct (getlines s); by intros [= <- _].
Qed.
Lemma getlines_mask s : getlines (maskHashQuote s) = map maskHashQuote (getlines s).
Proof.
  induction s as [|v IH|c s Hc IH] using mask_ind; [done| |].
  - change (maskHashQuote (String "#" (String SQUOTE v))) with (kHashQuoteMarker +:+ maskHashQuote v).
    change (String "#" (String SQUOTE v)) with (String "#" (str1 SQUOTE) +:+ v).
    rewrite !getlines_glue, IH by done. by destruct (getlines v).
  - rewrite mask_cons by done. cbn [getlines]. destruct (Ascii.eqb c NL); [cbn; by rewrite IH|].
    rewrite IH. destruct (getlines s) as [|l ls] eqn:E; cbn [map]; [done|].
    rewrite mask_cons; [done|]. revert Hc. unfold closes. destruct (Ascii.eqb c "#"); [|done]. cbn [andb].
    rewrite !Ascii.eqb_neq. intros H1 H2. by apply H1, (getlines_head s l ls).
Qed.

Lemma find_str_skip c p a b :
  without c a -> find_str (String c p) b = None -> find_str (String c p) (a +:+ b) = None.
Proof.
  unfold without. intros Ha Hb. induction a as [|x a IH]; [done|]. cbn in Ha. apply andb_true_iff in Ha as [Hx Ha].
  rewrite sapp_cons. cbn [find_str sprefix]. rewrite Ascii.eqb_sym, (proj1 (negb_true_iff _) Hx). cbn [andb]. by rewrite IH.
Qed.

(** cpp sees no closure. *)
Lemma mask_no_closure s : find_str (String "#" (str1 SQUOTE)) (maskHashQuote s) = None.
Proof.
  assert (forall s, Ascii.eqb (char_at (maskHashQuote s) 0) SQUOTE = Ascii.eqb (char_at s 0) SQUOTE) as H0.
  { intros t. induction t as [|v _|c t Hc _] using mask_ind; [done|done|]. by rewrite mask_cons. }
  induction s as [|v IH|c s Hc IH] using mask_ind; [done| |].
  - change (maskHashQuote (String "#" (String SQUOTE v))) with (kHashQuoteMarker +:+ maskHashQuote v).
    by apply find_str_skip.
  - rewrite mask_cons by done. cbn [find_str]. rewrite IH.
    destruct (sprefix _ _) eqn:E; [|done]. cbn [sprefix] in E. apply andb_true_iff in E as [E1 E2].
    unfold closes in Hc. rewrite Ascii.eqb_sym, E1, <- H0 in Hc. cbn [andb] in Hc.
    destruct (maskHashQuote s) as [|d r]; [done|]. change (char_at (String d r) 0) with d in Hc.
    change (Ascii.eqb SQUOTE d && true = true) in E2. rewrite andb_true_r, Ascii.eqb_sym in E2. congruence.
Qed.

(** ** Lines that are no directives *)
Lemma isMarker_span l : isMarker l = match snd (span blank l) with String c _ => Ascii.eqb c "#" | EmptyString => false end.
Proof.
  unfold isMarker, find_first. cbn [sdrop]. induction l as [|c l IH]; [done|]. cbn [span index_of]. unfold notBlank at 1.
  destruct (blank c) eqn:E; cbn [negb]; [|done]. destruct (span blank l) as [a b]. cbn [snd] in *. rewrite <- IH.
  by destruct (index_of notBlank l).
Qed.
Lemma isMarker_directive l : isMarker l = false -> directive l = None.
Proof. unfold isMarker, directive. destruct (find_first notBlank 0 l); [by intros ->|done]. Qed.

Lemma span_blank_cons c l : blank c = true -> snd (span blank (String c l)) = snd (span blank l).
Proof. intros H. cbn [span]. rewrite H. by destruct (span blank l). Qed.

Lemma mask_plain l : startsPlain l = true -> isMarker (maskHashQuote l) = false.
Proof.
  induction l as [|c l IH]; [done|]. destruct (blank c) eqn:E.
  - unfold startsPlain. rewrite span_blank_cons by done. intros H.
    rewrite mask_cons, isMarker_span, span_blank_cons, <- isMarker_span by (done || by destruct c as [[] [] [] [] [] [] [] []]).
    by apply IH.
  - unfold startsPlain. cbn [span]. rewrite E. cbn [snd]. destruct (Ascii.eqb c "#") eqn:Eh; cbn [negb orb]; intros H.
    + destruct (closes_true c l) as (v & -> & ->); [unfold closes; by rewrite Eh, H|]. done.
    + rewrite mask_cons by (unfold closes; by rewrite Eh). rewrite isMarker_span. cbn [span]. by rewrite E.
Qed.

(** ** Lines that include *)
Lemma index_of_app p a c b :
  sforall (fun x => negb (p x)) a = true -> p c = true -> index_of p (a +:+ String c b) = Some (String.length a).
Proof.
  intros Ha Hc. induction a as [|x a IH]; [rewrite sapp_nil_l; cbn [index_of]; by rewrite Hc|].
  cbn in Ha. apply andb_true_iff in Ha as [Hx Ha]. rewrite sapp_cons. cbn [index_of]. rewrite (proj1 (negb_true_iff _) Hx). by rewrite IH.
Qed.
Lemma index_of_none p a : sforall (fun x => negb (p x)) a = true -> index_of p a = None.
Proof.
  induction a as [|x a IH]; [done|]. cbn. intros [Hx Ha]%andb_true_iff. rewrite (proj1 (negb_true_iff _) Hx). by rewrite IH.
Qed.
Lemma find_first_app p b a c r :
  sforall (fun x => negb (p x)) a = true -> p c = true ->
  find_first p (String.length b) (b +:+ a +:+ String c r) = Some (String.length b + String.length a).
Proof. intros Ha Hc. unfold find_first. by rewrite sdrop_app, index_of_app. Qed.
Lemma char_at_app b c r : char_at (b +:+ String c r) (String.length b) = c.
Proof. induction b as [|x b IH]; [done|]. exact IH. Qed.
Lemma slice_app b a r : slice (String.length b) (String.length b + String.length a) (b +:+ a +:+ r) = a.
Proof. unfold slice. rewrite sdrop_app. replace (_ - _) with (String.length a) by lia. apply stake_app. Qed.

Lemma blanks_notBlank s : blanks s -> sforall (fun x => negb (notBlank x)) s = true.
Proof. apply sforall_impl. intros c. unfold notBlank. by rewrite negb_involutive. Qed.
Lemma blanks_without c s : blank c = false -> blanks s -> without c s.
Proof. intros Hc. apply sforall_impl. intros x Hx. destruct (Ascii.eqb_spec x c) as [->|]; [congruence|done]. Qed.
Lemma without_find c s : without c s -> sforall (fun x => negb (Ascii.eqb c x)) s = true.
Proof. apply sforall_impl. intros x. by rewrite Ascii.eqb_sym. Qed.

(** Where the keyword of such a line is. *)
Lemma include_directive pre mid sp c r :
  blanks pre -> blanks mid -> blanks sp -> isalpha c = false ->
  let line := pre +:+ String "#" (mid +:+ "include" +:+ sp +:+ String c r) in
  let before := pre +:+ str1 "#" +:+ mid in
  directive line = Some (String.length before, String.length (before +:+ "include")) /\
  keyword line (String.length before, String.length (before +:+ "include")) = "include"%string /\
  line = (before +:+ "include") +:+ sp +:+ String c r.
Proof.
  intros Hp Hm Hs Hc line before.
  assert (line = (before +:+ "include") +:+ sp +:+ String c r) as El.
  { subst line before. change (String "#" ?x) with (str1 "#" +:+ x). by rewrite !sapp_assoc. }
  assert (find_first notBlank 0 line = Some (String.length pre)) as E1.
  { apply (find_first_app notBlank "" pre "#" _); [by apply blanks_notBlank|done]. }
  assert (find_first notBlank (String.length pre + 1) line = Some (String.length before)) as E2.
  { subst before. rewrite <- sapp_assoc, slength_app. replace (String.length pre + 1) with (String.length (pre +:+ str1 "#"))
      by (rewrite slength_app; done).
    subst line. change (String "#" ?x) with (str1 "#" +:+ x) at 1. rewrite <- (sapp_assoc pre).
    apply (find_first_app notBlank (pre +:+ str1 "#") mid "i" _); [by apply blanks_notBlank|done]. }
  assert (skipWhile isalpha (String.length before) line = String.length (before +:+ "include")) as E3.
  { unfold skipWhile. rewrite El, sapp_assoc, sdrop_app, slength_app. f_equal.
    rewrite span_all; [done|done|]. intros x y. destruct sp as [|b sp]; [rewrite sapp_nil_l|rewrite sapp_cons]; intros [= <- _]; [done|].
    unfold blanks in Hs. cbn in Hs. apply andb_true_iff in Hs as [Hb _].
    unfold blank in Hb. apply orb_true_iff in Hb as [->%Ascii.eqb_eq| ->%Ascii.eqb_eq]; done. }
  split; [|split; [|done]].
  - unfold directive. rewrite E1. subst line. rewrite char_at_app. cbn [Ascii.eqb]. rewrite E2. by rewrite E3.
  - unfold keyword. cbn [fst snd]. rewrite El, sapp_assoc, slength_app. apply slice_app.
Qed.

Lemma include_read l i :
  includeLine l i -> exists d, directive l = Some d /\ keyword l d = "include"%string /\ forall s, includeTarget l d s = Some i.
Proof.
  intros [pre mid sp target post Hp Hm Hs _ Ht|pre mid sp target post Hp Hm Hs _ Ht Ht' Hq].
  - destruct (include_directive pre mid sp DQUOTE (target +:+ String DQUOTE post) Hp Hm Hs eq_refl) as (D & K & E).
    eexists. split; [exact D|]. split; [exact K|]. intros s. unfold includeText in *. rewrite E. unfold includeTarget, findChar.
    set (b := (pre +:+ str1 "#" +:+ mid) +:+ "include"). cbn [snd].
    rewrite find_first_app by (done || by apply without_find, blanks_without).
    assert (Hq : String.length b + String.length sp + 1 = String.length (b +:+ sp +:+ str1 DQUOTE)) by (rewrite !slength_app; cbn; lia).
    assert (El : b +:+ sp +:+ String DQUOTE (target +:+ String DQUOTE post) = (b +:+ sp +:+ str1 DQUOTE) +:+ target +:+ String DQUOTE post)
      by (rewrite !sapp_assoc; done).
    rewrite Hq, El, find_first_app by (done || by apply without_find). by rewrite slice_app.
  - destruct (include_directive pre mid sp "<" (target +:+ String ">" post) Hp Hm Hs eq_refl) as (D & K & E).
    eexists. split; [exact D|]. split; [exact K|]. intros s. unfold includeText in *. rewrite E. unfold includeTarget, findChar.
    set (b := (pre +:+ str1 "#" +:+ mid) +:+ "include"). cbn [snd].
    assert (find_first (Ascii.eqb DQUOTE) (String.length b) (b +:+ sp +:+ String "<" (target +:+ String ">" post)) = None) as ->.
    { unfold find_first. rewrite sdrop_app, index_of_none; [done|]. apply without_find. unfold without in *.
      rewrite sforall_app, (blanks_without DQUOTE sp eq_refl Hs). cbn. rewrite sforall_app, Ht'. cbn. done. }
    rewrite find_first_app by (done || by apply without_find, blanks_without).
    assert (Hl : String.length b + String.length sp + 1 = String.length (b +:+ sp +:+ str1 "<")) by (rewrite !slength_app; cbn; lia).
    assert (El : b +:+ sp +:+ String "<" (target +:+ String ">" post) = (b +:+ sp +:+ str1 "<") +:+ target +:+ String ">" post)
      by (rewrite !sapp_assoc; done).
    rewrite Hl, El, find_first_app by (done || by apply without_find). by rewrite slice_app.
Qed.

(** A masked include line includes the same file. *)
Lemma mask_app a b : without "#" a -> maskHashQuote (a +:+ b) = a +:+ maskHashQuote b.
Proof.
  unfold without. induction a as [|c a IH]; [done|]. cbn. intros [Hc Ha]%andb_true_iff. rewrite !sapp_cons.
  rewrite mask_cons by (unfold closes; by rewrite (proj1 (negb_true_iff _) Hc)). by rewrite IH.
Qed.
Lemma mask_without c s : without c s -> without c kHashQuoteMarker -> without c (maskHashQuote s).
Proof.
  unfold without. intros Hs Hk. induction s as [|v IH|x s Hc IH] using mask_ind; [done| |].
  - change (maskHashQuote (String "#" (String SQUOTE v))) with (kHashQuoteMarker +:+ maskHashQuote v).
    rewrite sforall_app, Hk. cbn in Hs. rewrite !andb_true_iff in Hs. apply IH, Hs.
  - rewrite mask_cons by done. cbn in *. apply andb_true_iff in Hs as [Hx Hs]. rewrite Hx. by apply IH.
Qed.
Lemma mask_includeText pre mid sp o target c post :
  blanks pre -> blanks mid -> blanks sp -> without "#" target -> Ascii.eqb o "#" = false -> Ascii.eqb c "#" = false ->
  maskHashQuote (includeText pre mid sp o target c post) = includeText pre mid sp o target c (maskHashQuote post).
Proof.
  intros Hp Hm Hs Ht Ho Hc. unfold includeText.
  assert (forall x s, Ascii.eqb x "#" = false -> maskHashQuote (String x s) = String x (maskHashQuote s)) as Hx.
  { intros x s Hx. apply mask_cons. unfold closes. by rewrite Hx. }
  rewrite mask_app by by apply blanks_without. rewrite mask_cons.
  - rewrite mask_app by by apply blanks_without. rewrite mask_app by done. rewrite mask_app by by apply blanks_without.
    rewrite Hx by done. rewrite mask_app by done. by rewrite Hx.
  - unfold closes. destruct mid as [|m mid]; [done|]. unfold blanks in Hm. cbn in Hm. apply andb_true_iff in Hm as [Hm _].
    unfold blank in Hm. apply orb_true_iff in Hm as [->%Ascii.eqb_eq| ->%Ascii.eqb_eq]; done.
Qed.
Lemma mask_include l i : includeLine l i -> includeLine (maskHashQuote l) i.
Proof.
  intros [pre mid sp target post Hp Hm Hs Hh Ht|pre mid sp target post Hp Hm Hs Hh Ht Ht' Hq];
    rewrite mask_includeText by done; constructor; try done. by apply mask_without.
Qed.

(** ** The rewriting does what the specification says *)
Section Rewrite.
Context (fs : gmap string FileEntry) (root : string) (dirs : list string).
Abbreviation splicedIn := (spliced fs root dirs) (only parsing).

Lemma unlines_app a b : unlines (a ++ b) = unlines a +:+ unlines b.
Proof. induction a as [|l a IH]; [done|]. cbn [unlines fold_right app]. fold (unlines (a ++ b)) (unlines a). by rewrite IH, !sapp_assoc. Qed.

Lemma spliced_rewritten n active dir ls out : splicedIn n active dir ls out -> forall defs,
  rewriteLines fs root dirs (rewriteIncludes fs root dirs n) (map maskHashQuote ls) dir (mkPP active defs) =
    (Ok (unlines (map maskHashQuote out)), mkPP active defs).
Proof.
  induction 1 as [n active dir|n active dir l ls out [Hl _] _ IH|n active dir l i path text body ls out Hi Hloc Hact Hopen _ IHb _ IH];
    intros defs; cbn [map rewriteLines]; [done| |].
  - unfold mbind at 1, rewriteLine. rewrite isMarker_directive by by apply mask_plain. cbn [mret].
    erewrite mbind_run by apply IH. cbn. by rewrite sapp_assoc.
  - destruct (include_read _ _ (mask_include _ _ Hi)) as (d & D & K & T).
    assert (rewriteLine fs root dirs (rewriteIncludes fs root dirs (S n)) (maskHashQuote l) dir (mkPP active defs) =
      (Ok (unlines (map maskHashQuote body) +:+ str1 NL), mkPP active defs)) as E.
    { unfold rewriteLine. rewrite D, K. cbn [String.eqb Ascii.eqb Bool.eqb]. unfold rewriteInclude, mbind at 1, mgets at 1.
      rewrite T. unfold mbind at 1, mgets at 1. cbn [activeIncludes]. rewrite Hloc, bool_decide_eq_false_2 by done.
      unfold mbind at 1, mmodify at 1. cbn [rewriteIncludes]. rewrite Hopen, getlines_mask. erewrite mbind_run by apply IHb.
      unfold mbind, mmodify, mret, set_field. cbn. do 2 f_equal. set_solver. }
    erewrite mbind_run by exact E. erewrite mbind_run by apply IH. cbn [mret]. do 2 f_equal.
    rewrite map_app, unlines_app, sapp_assoc. done.
Qed.

Lemma spliced_plain_lines n active dir ls out : splicedIn n active dir ls out -> Forall plain out.
Proof.
  induction 1; [constructor|by constructor|]. apply Forall_app. split; [done|]. constructor; [by split|done].
Qed.
End Rewrite.

(** ** No line holds the mask, so no text does *)
Lemma sprefix_nl p a b : no_nl p -> sprefix p (a +:+ String NL b) = true -> sprefix p a = true.
Proof.
  revert a. induction p as [|c p IH]; intros a Hp; [done|]. unfold no_nl in Hp. cbn in Hp. apply andb_true_iff in Hp as [Hc Hp].
  destruct a as [|x a].
  - rewrite sapp_nil_l. cbn [sprefix]. by rewrite (proj1 (negb_true_iff _) Hc).
  - rewrite sapp_cons. cbn [sprefix]. rewrite !andb_true_iff. intros [Hx Hs]. split; [done|]. by apply IH.
Qed.
Lemma find_str_line p a b : no_nl p -> find_str p a = None -> find_str p b = None -> find_str p (a +:+ String NL b) = None.
Proof.
  intros Hp Ha Hb. induction a as [|c a IH].
  - rewrite sapp_nil_l. cbn [find_str]. rewrite Hb. destruct (sprefix p (String NL b)) eqn:E; [|done].
    apply (sprefix_nl p "" b Hp) in E. by rewrite (find_str_none_prefix _ _ Ha) in E.
  - rewrite sapp_cons. cbn [find_str]. rewrite IH by by apply find_str_tail in Ha.
    destruct (sprefix p (String c (a +:+ String NL b))) eqn:E; [|done].
    apply (sprefix_nl p (String c a) b Hp) in E. by rewrite (find_str_none_prefix _ _ Ha) in E.
Qed.
Lemma find_str_unlines ls : Forall plain ls -> find_str kMarkerStem (unlines ls) = None.
Proof. induction 1 as [|l ls [_ Hl] _ IH]; [done|]. by apply find_str_line. Qed.

(** ** The whole pass *)
Definition lineMarker (path : string) : string := "# 1 " +:+ quoted path.
Definition notMarker (l : string) : bool := negb (isMarker l).

Lemma rewriteEfunLines_still ex ls :
  Forall (fun l => rewriteEfunLine ex l = Ok l) ls -> rewriteEfunLines ex ls = Ok (unlines ls).
Proof. induction 1 as [|l ls Hl _ IH]; [done|]. cbn [rewriteEfunLines]. rewrite Hl, IH. done. Qed.
Lemma rewriteEfunLine_masked ex l : startsPlain l = true -> rewriteEfunLine ex (maskHashQuote l) = Ok (maskHashQuote l).
Proof. intros Hl. unfold rewriteEfunLine. by rewrite isMarker_directive by by apply mask_plain. Qed.

Lemma no_nl_mask l : no_nl l -> no_nl (maskHashQuote l).
Proof. intros H. by apply (mask_without NL). Qed.

Lemma spliced_no_nl fs root dirs n active dir ls out :
  spliced fs root dirs n active dir ls out -> Forall no_nl ls -> Forall no_nl out.
Proof.
  induction 1 as [|? ? ? ? ? ? _ _ IH|? ? ? ? ? ? text ? ? ? _ _ _ _ _ IHb _ IH]; [done| |]; intros Hn;
    inversion Hn as [|? ? Hl Hls]; subst; [constructor; auto|].
  apply Forall_app. split; [apply IHb, getlines_no_nl|]. constructor; [done|auto].
Qed.


(** A room that includes a header, which holds a closure at the start of a line. *)
Definition passFs : gmap string FileEntry :=
  {[ "lib/room.c" := RegularFile ("#include " +:+ quoted "hall.h" +:+ str1 NL +:+ "f = #'look;");
     "lib/hall.h" := RegularFile ("g = ({" +:+ str1 NL +:+ "#'go });") ]}.
Definition passConfig : Config := (configFor "fluffos" 1000) <| mudlibRoot := "lib" |>.
Definition passLines : list string := ["g = ({"; "#'go });"; ""; "f = #'look;"].

Lemma passLines_spliced : spliced passFs "lib" [] (maxLevels - 1) ∅ "lib" (getlines ("#include " +:+ quoted "hall.h" +:+ str1 NL +:+ "f = #'look;")) passLines.
Proof.
  apply (spliced_include passFs "lib" [] 63 ∅ "lib" ("#include " +:+ quoted "hall.h") (mkInclude DQUOTE "hall.h" None) "lib/hall.h"
           ("g = ({" +:+ str1 NL +:+ "#'go });") ["g = ({"; "#'go });"]).
  - exact (include_quote "" "" " " "hall.h" "" eq_refl eq_refl eq_refl eq_refl eq_refl).
  - reflexivity.
  - set_solver.
  - reflexivity.
  - repeat (apply spliced_plain; [split; reflexivity|]). apply spliced_end.
  - repeat (apply spliced_plain; [split; reflexivity|]). apply spliced_end.
Qed.

(** A cpp that writes a line marker of its own. *)
Definition plainCpp (opts t : string) : bool * string * string := (true, lineMarker "x" +:+ str1 NL +:+ t, "").
Definition passStaged : string :=
  match stageSourceForPreprocessing passFs passConfig (fun _ => false) "lib/room.c" [] with Ok (Some t) => t | _ => "" end.

