(* ===== verification/Connection.v ===== *)
(** * Connection: src/net/Connection.cpp

    A player's connection: reading bytes, the telnet state machine, splitting
    into lines, echo control, and the binding to an LPC object.

    The bytes a connection answers while it parses its input are collected in
    [sent] and written by [pollLines] in that order, before the answers to the
    lines: the socket is not touched in between. *)
From S2P Require Import Prelude CLib Double Value Bytecode Lookup Network Machine Registries.
Local Open Scope Z_scope.

(** ** Telnet *)
Definition kIac : Z := 255.
Definition kDont : Z := 254.
Definition kDo : Z := 253.
Definition kWont : Z := 252.
Definition kWill : Z := 251.
Definition kSb : Z := 250.
Definition kSe : Z := 240.
Definition kTelOptEcho : Z := 1.
Definition kTelOptTtype : Z := 24.
Definition kTelOptNaws : Z := 31.
Definition kTelQualIs : Z := 0.
Definition kTelQualSend : Z := 1.

Definition bytes_of (l : list Z) : string := fold_right (fun z s => String (chr z) s) ""%string l.

(** A connection that parses: what it has read as text, and its answers. *)
Record Telnet := mkTelnet { conn : Connection; plainOut : string; sent : list string }.
#[export] Instance eta_Telnet : Eta Telnet := fun t =>
  {| conn := conn t; plainOut := plainOut t; sent := sent t |}.

Definition setState (ts : TelnetState) (t : Telnet) : Telnet := t <| conn ::= fun c => c <| telnetState := ts |> |>.
Definition plainByte (b : ascii) (t : Telnet) : Telnet := t <| plainOut ::= fun s => s +:+ str1 b |>.
Definition answer (l : list Z) (t : Telnet) : Telnet := t <| sent ::= fun s => s ++ [bytes_of l] |>.
Definition sbPush (b : ascii) (t : Telnet) : Telnet := t <| conn ::= fun c => c <| sbBuffer ::= fun s => s +:+ str1 b |> |>.

Definition windowSizeRequest : list Z := [kIac; kDo; kTelOptNaws].
Definition terminalTypeRequest : list Z := [kIac; kSb; kTelOptTtype; kTelQualSend; kIac; kSe].
Definition startTerminalType : list Z := [kIac; kDo; kTelOptTtype].

Definition handleNegotiation (kind : TelnetState) (b : ascii) (t : Telnet) : Telnet :=
  let option := ord b in
  match kind with
  | TsWill =>
      if (option =? kTelOptEcho) || (option =? kTelOptNaws) then t
      else if option =? kTelOptTtype then answer terminalTypeRequest t
      else answer [kIac; kDont; option] t
  | TsDo => if option =? kTelOptEcho then t else answer [kIac; kWont; option] t
  | _ => t
  end.

(** [static_cast<unsigned char>(sbBuffer_[i])] *)
Definition byteAt (s : string) (i : nat) : Z := ord (char_at s i).

Definition handleSubnegotiation (c : Connection) : Connection :=
  let sb := sbBuffer c in
  if String.eqb sb "" then c else
  let sbOption := byteAt sb 0 in
  if sbOption =? kTelOptTtype then
    if (2 <=? String.length sb)%nat && (byteAt sb 1 =? kTelQualIs)
    then c <| terminalType := sdrop 2 sb |> <| terminalTypeUpdated := true |>
    else c
  else if negb (sbOption =? kTelOptNaws) then c
  else if (String.length sb <? 5)%nat then c
  else c <| terminalWidth := Z.lor (Z.shiftl (byteAt sb 1) 8) (byteAt sb 2) |>
         <| terminalHeight := Z.lor (Z.shiftl (byteAt sb 3) 8) (byteAt sb 4) |>
         <| windowSizeUpdated := true |>.

(** The state after IAC. *)
Definition iacCommand (b : ascii) (t : Telnet) : Telnet :=
  let z := ord b in
  if z =? kIac then setState TsData (plainByte b t)
  else if z =? kWill then setState TsWill t
  else if z =? kWont then setState TsWont t
  else if z =? kDo then setState TsDo t
  else if z =? kDont then setState TsDont t
  else if z =? kSb then (setState TsSb t) <| conn ::= fun c => c <| sbBuffer := ""%string |> |>
  else setState TsData t.

(** One round of the loop of [processTelnetBytes]. *)
Definition telnetByte (t : Telnet) (b : ascii) : Telnet :=
  match telnetState (conn t) with
  | TsData => if ord b =? kIac then setState TsIac t else plainByte b t
  | TsIac => iacCommand b t
  | TsWill => setState TsData (handleNegotiation TsWill b t)
  | TsWont => setState TsData (handleNegotiation TsWont b t)
  | TsDo => setState TsData (handleNegotiation TsDo b t)
  | TsDont => setState TsData (handleNegotiation TsDont b t)
  | TsSb => if ord b =? kIac then setState TsSbIac t else sbPush b t
  | TsSbIac =>
      if ord b =? kSe then setState TsData (t <| conn ::= handleSubnegotiation |>)
      else if ord b =? kIac then setState TsSb (sbPush b t)
      else setState TsData t
  end.

Fixpoint processTelnetBytes (raw : string) (t : Telnet) : Telnet :=
  match raw with
  | EmptyString => t
  | String b raw' => processTelnetBytes raw' (telnetByte t b)
  end.

(** ** Lines *)

(** [if (!line.empty() && line.back() == '\r') line.pop_back()] *)
Fixpoint popCr (line : string) : string :=
  match line with
  | EmptyString => ""%string
  | String c EmptyString => if Ascii.eqb c CR then ""%string else line
  | String c rest => String c (popCr rest)
  end.

(** The complete lines of a buffer, each without its line end, and what is left. *)
Fixpoint splitLines (s : string) : list string * string :=
  match s with
  | EmptyString => ([], ""%string)
  | String c s' =>
      let '(ls, r) := splitLines s' in
      if Ascii.eqb c NL then (""%string :: ls, r)
      else match ls with
           | [] => ([], String c r)
           | l :: ls' => (String c l :: ls', r)
           end
  end.

Definition echoOn : list Z := [kIac; kWont; kTelOptEcho].

(** The end of a round of the line loop: echo comes back with the first line. *)
Definition lineTaken (t : Telnet) : Telnet :=
  if echoSuppressed (conn t)
  then answer echoOn (t <| conn ::= fun c => c <| echoSuppressed := false |> |>)
  else t.

(** What [pollLines] makes of a chunk of input: the lines, the connection and
    its answers. *)
Definition pollChunk (raw : string) (c : Connection) : list string * Connection * list string :=
  let t := processTelnetBytes raw (mkTelnet c (inputBuffer c) []) in
  let '(ls, r) := splitLines (plainOut t) in
  let t' := Nat.iter (length ls) lineTaken t in
  (map popCr ls, (conn t') <| inputBuffer := r |>, sent t').

(** ** The socket *)

(** The loop around read(): the bytes, whether the peer is gone, and the
    results left for the next poll. *)
Fixpoint readAll (rs : list ReadResult) : string * bool * list ReadResult :=
  match rs with
  | [] => (""%string, false, [])
  | RBytes s :: rest =>
      if String.eqb s "" then (""%string, true, rest)
      else let '(t, gone, left_) := readAll rest in (s +:+ t, gone, left_)
  | RError EAGAIN :: rest => (""%string, false, rest)
  | RError EINTR :: rest => readAll rest
  | RError _ :: rest => (""%string, true, rest)
  end.

(** The loop around write(): the bytes the kernel took, and its further results. *)
Fixpoint writeAll (ws : list WriteResult) (d : string) : string * list WriteResult :=
  if String.eqb d "" then (""%string, ws) else
  match ws with
  | [] => (d, [])
  | Wrote O :: rest => (""%string, rest)
  | Wrote n :: rest =>
      let '(t, left_) := writeAll rest (sdrop n d) in (stake n d +:+ t, left_)
  | WError EINTR :: rest => writeAll rest d
  | WError _ :: rest => (""%string, rest)
  end.

Definition netSend (f : Z) (d : string) (n : NetState) : NetState :=
  if f <? 0 then n else
  let '(took, left_) := writeAll (default [] (kernelWrites n !! f)) d in
  n <| kernelWrites ::= insert f left_ |> <| wire ::= fun w => w ++ [(f, took)] |>.

(** ** Operations *)
Definition modNet (f : NetState -> NetState) (s : VMState) : VMState := s <| net ::= f |>.
Definition setConn (c : cid) (f : Connection -> Connection) (s : VMState) : VMState :=
  modNet (fun n => n <| conns ::= alter f c |>) s.
Definition getConn {A} (f : Connection -> A) (c : cid) : VM A := fun s =>
  match conns (net s) !! c with
  | Some x => (Ok (f x), s)
  | None => (Undefined "dangling connection", s)
  end.

Definition send (c : cid) (d : string) : VM unit :=
  f <- getConn fd c ;;
  mmodify (modNet (netSend f d)).

Fixpoint sendAll (c : cid) (ds : list string) : VM unit :=
  match ds with
  | [] => mret tt
  | d :: rest => send c d ;; sendAll c rest
  end.

Definition pollLines (c : cid) : VM (list string) :=
  cn <- getConn id c ;;
  if fd cn <? 0 then mret [] else
  rs <- mgets (fun s => default [] (kernelReads (net s) !! fd cn)) ;;
  let '(raw, gone, left_) := readAll rs in
  mmodify (modNet (fun n => n <| kernelReads ::= insert (fd cn) left_ |>)) ;;
  let '(ls, cn', answers) := pollChunk raw (if gone : bool then cn <| closed := true |> else cn) in
  mmodify (setConn c (fun _ => cn')) ;;
  sendAll c answers ;;
  mret ls.

Definition attach (c : cid) (obj : option oid) : VM unit :=
  old <- getConn boundObject c ;;
  (if is_some old
   then mmodify (fun s => modNet (fun n => n <| interactives ::= Interactives.remove s old |>) s)
   else mret tt) ;;
  mmodify (setConn c (fun x => x <| boundObject := obj |>)) ;;
  match obj with
  | None => mret tt
  | Some o =>
      mmodify (modNet (fun n => n <| interactives ::= Interactives.add obj c |>)) ;;
      mmodify (setOb o (fun ob => ob <| everInteractive := true |>))
  end.

(** The first half of [close]: the object is let go. *)
Definition releaseObject (c : cid) (b : oid) : VM unit :=
  snooper <- mgets (fun s => lock s (getOb s snoopedBy None b)) ;;
  match snooper with
  | Some sn => mmodify (setOb sn (fun ob => ob <| snooping := None |>))
  | None => mret tt
  end ;;
  mmodify (setOb b (fun ob => ob <| snoopedBy := None |>)) ;;
  mmodify (fun s => modNet (fun n => n <| interactives ::= Interactives.remove s (Some b) |>) s) ;;
  mmodify (setConn c (fun x => x <| boundObject := None |>)).

Definition close (c : cid) : VM unit :=
  bound <- getConn boundObject c ;;
  match bound with
  | None => mret tt
  | Some b => releaseObject c b
  end ;;
  f <- getConn fd c ;;
  (if 0 <=? f then
     mmodify (modNet (fun n => n <| closeLog ::= fun l => l ++ [f] |>)) ;;
     mmodify (setConn c (fun x => x <| fd := -1 |>))
   else mret tt) ;;
  mmodify (setConn c (fun x => x <| closed := true |>)).

(** The last [shared_ptr] to a connection goes: its destructor closes it. *)
Definition dropConnection (c : cid) : VM unit :=
  close c ;; mmodify (modNet (fun n => n <| conns ::= delete c |>)).

Definition suppressEcho (c : cid) : VM unit :=
  e <- getConn echoSuppressed c ;;
  if e : bool then mret tt else
  mmodify (setConn c (fun x => x <| echoSuppressed := true |>)) ;;
  send c (bytes_of [kIac; kWill; kTelOptEcho]).

Definition requestWindowSize (c : cid) : VM unit := send c (bytes_of windowSizeRequest).
Definition requestTerminalType (c : cid) : VM unit := send c (bytes_of terminalTypeRequest).
Definition startRequestTerminalType (c : cid) : VM unit := send c (bytes_of startTerminalType).

Definition markClosed (c : cid) : VM unit := mmodify (setConn c (fun x => x <| closed := true |>)).

Definition takeWindowSizeUpdate (c : cid) : VM bool :=
  had <- getConn windowSizeUpdated c ;;
  mmodify (setConn c (fun x => x <| windowSizeUpdated := false |>)) ;; mret had.
Definition takeTerminalTypeUpdate (c : cid) : VM bool :=
  had <- getConn terminalTypeUpdated c ;;
  mmodify (setConn c (fun x => x <| terminalTypeUpdated := false |>)) ;; mret had.

Definition setPendingInputTo (c : cid) (obj : option oid) (f : Value) (extra : list Value) : VM unit :=
  mmodify (setConn c (fun x => x <| pendingInputTo := Some (mkPendingInputTo obj f extra) |>)).
Definition takePendingInputTo (c : cid) : VM (option PendingInputTo) :=
  r <- getConn pendingInputTo c ;;
  mmodify (setConn c (fun x => x <| pendingInputTo := None |>)) ;; mret r.
Definition setPendingNotifyFail (c : cid) (msg : Value) : VM unit :=
  mmodify (setConn c (fun x => x <| pendingNotifyFail := Some msg |>)).
Definition takePendingNotifyFail (c : cid) : VM (option Value) :=
  r <- getConn pendingNotifyFail c ;;
  mmodify (setConn c (fun x => x <| pendingNotifyFail := None |>)) ;; mret r.
Definition clearPendingNotifyFail (c : cid) : VM unit :=
  mmodify (setConn c (fun x => x <| pendingNotifyFail := None |>)).

(** [now] is [std::time(nullptr)]. *)
Definition touchActivity (now : Z) (c : cid) : VM unit :=
  mmodify (setConn c (fun x => x <| lastActivityTime := now |>)).
