(* ===== verification/ConnectionFacts.v ===== *)
(** * ConnectionFacts: what the telnet parser accepts, and that packets do not matter

    The telnet state machine is compared with the grammar of the protocol: a
    stream is a sequence of data bytes, commands, negotiations and
    subnegotiations, and the machine does for each what it means, whatever the
    boundaries at which the bytes arrive. *)
From S2P Require Import Prelude CLib Double Value Bytecode Lookup Network Machine Registries Connection.
Local Open Scope Z_scope.

(** ** The grammar *)
Inductive Item :=
  | Plain (b : ascii)
  | EscapedIac
  | Command (b : ascii)
  | Negotiate (kind : TelnetState) (option : ascii)
  | Sub (payload : string)
  | AbortedSub (payload : string) (b : ascii).

Definition is_command (b : ascii) : bool :=
  negb (existsb (Z.eqb (ord b)) [kIac; kWill; kWont; kDo; kDont; kSb]).
Definition item_ok (i : Item) : bool :=
  match i with
  | Plain b => negb (ord b =? kIac)
  | EscapedIac | Sub _ => true
  | Command b => is_command b
  | Negotiate k _ => bool_decide (k ∈ [TsWill; TsWont; TsDo; TsDont])
  | AbortedSub _ b => negb (ord b =? kSe) && negb (ord b =? kIac)
  end.

Definition IAC : ascii := chr kIac.
Fixpoint escape (s : string) : string :=
  match s with
  | EmptyString => ""%string
  | String b s' => if ord b =? kIac then String IAC (String IAC (escape s')) else String b (escape s')
  end.
Definition kindByte (k : TelnetState) : Z :=
  match k with TsWill => kWill | TsWont => kWont | TsDo => kDo | _ => kDont end.

Definition itemBytes (i : Item) : string :=
  match i with
  | Plain b => str1 b
  | EscapedIac => bytes_of [kIac; kIac]
  | Command b => String IAC (str1 b)
  | Negotiate k o => String IAC (String (chr (kindByte k)) (str1 o))
  | Sub p => bytes_of [kIac; kSb] +:+ escape p +:+ bytes_of [kIac; kSe]
  | AbortedSub p b => bytes_of [kIac; kSb] +:+ escape p +:+ String IAC (str1 b)
  end.
Definition itemsBytes (its : list Item) : string := fold_right (fun i s => itemBytes i +:+ s) ""%string its.

(** What an item means to the connection. *)
Definition itemEffect (t : Telnet) (i : Item) : Telnet :=
  match i with
  | Plain b => plainByte b t
  | EscapedIac => plainByte IAC t
  | Command _ => t
  | Negotiate k o => handleNegotiation k o t
  | Sub p => t <| conn ::= fun c => handleSubnegotiation (c <| sbBuffer := p |>) |>
  | AbortedSub p _ => t <| conn ::= fun c => c <| sbBuffer := p |> |>
  end.

(** What may be left at the end: an item that is not complete. *)
Inductive incomplete : string -> Prop :=
  | inc_none : incomplete ""
  | inc_iac : incomplete (str1 IAC)
  | inc_kind k : k ∈ [TsWill; TsWont; TsDo; TsDont] -> incomplete (String IAC (str1 (chr (kindByte k))))
  | inc_sub p : incomplete (bytes_of [kIac; kSb] +:+ escape p)
  | inc_sub_iac p : incomplete (bytes_of [kIac; kSb] +:+ escape p +:+ str1 IAC).

(** ** Lemmas on the machine *)
Lemma process_app a : forall b t, processTelnetBytes (a +:+ b) t = processTelnetBytes b (processTelnetBytes a t).
Proof. induction a as [|x a IH]; intros b t; rewrite ?sapp_nil_l, ?sapp_cons; simpl; auto. Qed.

Lemma chr_ord b : chr (ord b) = b.
Proof.
  unfold chr, ord. rewrite Z.mod_small by (pose proof (N_ascii_bounded b); lia).
  by rewrite N2Z.id, ascii_N_embedding.
Qed.
Lemma ord_chr z : 0 <= z < 256 -> ord (chr z) = z.
Proof. intros Hz. unfold ord, chr. rewrite Z.mod_small, N_ascii_embedding by lia. lia. Qed.
Lemma ord_IAC : ord IAC = kIac.
Proof. reflexivity. Qed.
Lemma ord_is b z : ord b = z -> b = chr z.
Proof. intros <-. by rewrite chr_ord. Qed.

(** Unfold the updates of the two records. *)
Ltac upd := unfold setState, plainByte, answer, sbPush, set_field in *; cbn -[ord chr kIac kSe bytes_of] in *.

Lemma setState_id t : setState (telnetState (conn t)) t = t.
Proof. by destruct t as [[]]. Qed.
Lemma telnetState_set a t : telnetState (conn (setState a t)) = a.
Proof. by destruct t as [[]]. Qed.

(** The payload of a subnegotiation. *)
Lemma process_escape p : forall t, telnetState (conn t) = TsSb ->
  processTelnetBytes (escape p) t = t <| conn ::= fun c => c <| sbBuffer ::= fun s => s +:+ p |> |>.
Proof.
  induction p as [|b p IH]; intros [c po se] Ht; simpl in Ht.
  - destruct c. upd. by rewrite sapp_nil_r.
  - cbn [escape]. destruct (Z.eqb_spec (ord b) kIac) as [Hb|Hb].
    + apply ord_is in Hb as ->. cbn [processTelnetBytes]. unfold telnetByte at 2. cbn [conn]. rewrite Ht.
      rewrite ord_IAC, Z.eqb_refl. unfold telnetByte. rewrite telnetState_set, ord_IAC.
      change (kIac =? kSe) with false. rewrite Z.eqb_refl. rewrite IH by apply telnetState_set. destruct c. upd. subst.
      by rewrite sapp_assoc.
    + cbn [processTelnetBytes]. unfold telnetByte. cbn [conn]. rewrite Ht. apply Z.eqb_neq in Hb. rewrite Hb.
      rewrite IH by (destruct c; by upd). destruct c. upd. by rewrite sapp_assoc.
Qed.

Lemma telnetState_answer l t : telnetState (conn (answer l t)) = telnetState (conn t).
Proof. by destruct t as [[]]. Qed.
Lemma negotiation_state k b t : telnetState (conn (handleNegotiation k b t)) = telnetState (conn t).
Proof. unfold handleNegotiation. destruct k; repeat case_match; rewrite ?telnetState_answer; done. Qed.
Lemma subnegotiation_state c : telnetState (handleSubnegotiation c) = telnetState c.
Proof. unfold handleSubnegotiation. repeat case_match; by destruct c. Qed.

Lemma answer_setState l ts t : answer l (setState ts t) = setState ts (answer l t).
Proof. reflexivity. Qed.
Lemma negotiation_setState k b ts t : handleNegotiation k b (setState ts t) = setState ts (handleNegotiation k b t).
Proof. unfold handleNegotiation. destruct k; repeat case_match; done. Qed.
Lemma subnegotiation_setState ts c :
  handleSubnegotiation (c <| telnetState := ts |>) = handleSubnegotiation c <| telnetState := ts |>.
Proof. unfold handleSubnegotiation. cbn [sbBuffer set_field]. upd. repeat case_match; done. Qed.

(** One byte outside a subnegotiation, and after IAC. *)
Lemma byte_data b t : telnetState (conn t) = TsData -> (ord b =? kIac) = false -> telnetByte t b = plainByte b t.
Proof. intros Ht Hb. unfold telnetByte. by rewrite Ht, Hb. Qed.
Lemma byte_iac t : telnetState (conn t) = TsData -> telnetByte t IAC = setState TsIac t.
Proof. intros Ht. unfold telnetByte. by rewrite Ht. Qed.
Lemma byte_after_iac b t : telnetByte (setState TsIac t) b = iacCommand b (setState TsIac t).
Proof. reflexivity. Qed.

Lemma iac_command b t : is_command b = true -> iacCommand b (setState TsIac t) = setState TsData t.
Proof.
  unfold is_command, iacCommand. cbn [existsb]. rewrite negb_true_iff, !orb_false_iff.
  intros (H1 & H2 & H3 & H4 & H5 & H6 & _). by rewrite H1, H2, H3, H4, H5, H6.
Qed.
Lemma iac_kind k t : k ∈ [TsWill; TsWont; TsDo; TsDont] ->
  iacCommand (chr (kindByte k)) (setState TsIac t) = setState k t.
Proof. intros Hk. repeat (apply elem_of_cons in Hk as [->|Hk]; [reflexivity|]). by apply elem_of_nil in Hk. Qed.
Lemma byte_kind k b t : k ∈ [TsWill; TsWont; TsDo; TsDont] ->
  telnetByte (setState k t) b = setState TsData (handleNegotiation k b t).
Proof.
  intros Hk. repeat (apply elem_of_cons in Hk as [->|Hk]; [unfold telnetByte; rewrite telnetState_set, negotiation_setState; reflexivity|]).
  by apply elem_of_nil in Hk.
Qed.

(** From IAC SB on, the payload is in the buffer. *)
Lemma process_sub p t : telnetState (conn t) = TsData ->
  processTelnetBytes (bytes_of [kIac; kSb] +:+ escape p) t =
  setState TsSb (t <| conn ::= fun c => c <| sbBuffer := p |> |>).
Proof.
  intros Ht. change (bytes_of [kIac; kSb]) with (String IAC (str1 (chr kSb))).
  unfold str1. rewrite sapp_cons, sapp_cons, sapp_nil_l. cbn [processTelnetBytes]. rewrite (byte_iac t) by done.
  rewrite byte_after_iac. rewrite process_escape by (by destruct t as [[]]). destruct t as [[] po se]. by upd.
Qed.
Lemma process_sub_iac p t : telnetState (conn t) = TsData ->
  processTelnetBytes (bytes_of [kIac; kSb] +:+ escape p +:+ str1 IAC) t =
  setState TsSbIac (t <| conn ::= fun c => c <| sbBuffer := p |> |>).
Proof. intros Ht. rewrite <- sapp_assoc, process_app, process_sub by done. reflexivity. Qed.

Lemma process_item i t : item_ok i = true -> telnetState (conn t) = TsData ->
  processTelnetBytes (itemBytes i) t = itemEffect t i /\ telnetState (conn (itemEffect t i)) = TsData.
Proof.
  intros Hi Ht. assert (telnetState (conn (itemEffect t i)) = TsData) as Hs.
  { destruct i; simpl; rewrite ?negotiation_state; try (by destruct t as [[]]).
    destruct t as [c po se]. upd. rewrite subnegotiation_state. by destruct c. }
  split; [|done]. destruct i as [b| |b|k o|p|p b]; cbn [itemBytes itemEffect item_ok] in *.
  - apply byte_data; [done|by apply negb_true_iff].
  - change (bytes_of [kIac; kIac]) with (String IAC (str1 IAC)). cbn [processTelnetBytes str1]. rewrite (byte_iac t) by done.
    destruct t as [[] po se]. upd. by rewrite Ht.
  - cbn [processTelnetBytes str1]. rewrite (byte_iac t) by done. rewrite byte_after_iac, iac_command by done. rewrite <- Ht. apply setState_id.
  - apply bool_decide_eq_true in Hi. cbn [processTelnetBytes str1]. rewrite (byte_iac t) by done. rewrite byte_after_iac, iac_kind by done.
    rewrite byte_kind by done. rewrite <- Ht, <- (negotiation_state k o). apply setState_id.
  - change (bytes_of [kIac; kSe]) with (str1 IAC +:+ str1 (chr kSe)). rewrite <- (sapp_assoc (escape p)), <- sapp_assoc.
    rewrite process_app, process_sub_iac by done. cbn [processTelnetBytes str1]. unfold telnetByte. rewrite telnetState_set.
    change (ord (chr kSe) =? kSe) with true. cbv iota. clear Hs. destruct t as [[] po se]. upd. subst.
    unfold handleSubnegotiation. upd. repeat case_match; done.
  - apply andb_true_iff in Hi as [H1%negb_true_iff H2%negb_true_iff].
    change (String IAC (str1 b)) with (str1 IAC +:+ str1 b). rewrite <- (sapp_assoc (escape p)), <- sapp_assoc.
    rewrite process_app, process_sub_iac by done. cbn [processTelnetBytes str1]. unfold telnetByte. rewrite telnetState_set.
    rewrite H1, H2. destruct t as [[] po se]. upd. by rewrite Ht.
Qed.

(** ** Every stream is in the grammar *)
Lemma escape_app a : forall b, escape (a +:+ b) = escape a +:+ escape b.
Proof.
  induction a as [|x a IH]; intros b; rewrite ?sapp_nil_l, ?sapp_cons; [done|]. cbn [escape]. rewrite IH.
  destruct (ord x =? kIac); by rewrite ?sapp_cons.
Qed.

(** After IAC, every byte is a command, an escaped 255, the start of a
    negotiation, or the start of a subnegotiation. *)
Lemma after_iac b : is_command b = true \/ b = IAC \/
  (exists k, k ∈ [TsWill; TsWont; TsDo; TsDont] /\ b = chr (kindByte k)) \/ b = chr kSb.
Proof.
  destruct (is_command b) eqn:E; [by left|right]. unfold is_command in E. apply negb_false_iff in E. cbn [existsb] in E.
  rewrite !orb_true_iff, !Z.eqb_eq in E.
  assert (forall k, k ∈ [TsWill; TsWont; TsDo; TsDont] -> ord b = kindByte k -> exists k, k ∈ [TsWill; TsWont; TsDo; TsDont] /\ b = chr (kindByte k)) as Hk
    by (intros k ? H; exists k; split; [done|by apply ord_is]).
  destruct E as [H|[H|[H|[H|[H|[H|H] ] ] ] ] ]; [left; by apply ord_is| | | | |do 2 right; by apply ord_is|done]; right; left.
  - apply (Hk TsWill); [set_solver|done].
  - apply (Hk TsWont); [set_solver|done].
  - apply (Hk TsDo); [set_solver|done].
  - apply (Hk TsDont); [set_solver|done].
Qed.

Lemma incomplete_step tail b : incomplete tail ->
  incomplete (tail +:+ str1 b) \/ exists i, item_ok i = true /\ itemBytes i = tail +:+ str1 b.
Proof.
  destruct 1 as [| |k Hk|p|p].
  - destruct (Z.eqb_spec (ord b) kIac) as [H|H].
    + left. apply ord_is in H as ->. exact inc_iac.
    + right. exists (Plain b). split; [|done]. simpl. by apply negb_true_iff, Z.eqb_neq.
  - destruct (after_iac b) as [H|[Hb|[(k & Hk & Hb)|Hb]]]; [|subst b..].
    + right. by exists (Command b).
    + right. by exists EscapedIac.
    + left. by apply inc_kind.
    + left. exact (inc_sub "").
  - right. exists (Negotiate k b). split; [|done]. by apply bool_decide_eq_true.
  - destruct (Z.eqb_spec (ord b) kIac) as [H|H].
    + left. apply ord_is in H as ->. rewrite sapp_assoc. apply inc_sub_iac.
    + left. rewrite sapp_assoc. replace (escape p +:+ str1 b) with (escape (p +:+ str1 b)); [apply inc_sub|].
      rewrite escape_app. apply Z.eqb_neq in H. cbn [escape str1]. by rewrite H.
  - destruct (Z.eqb_spec (ord b) kSe) as [H|H]; [|destruct (Z.eqb_spec (ord b) kIac) as [H2|H2]].
    + right. exists (Sub p). split; [done|]. apply ord_is in H as ->. cbn [itemBytes]. by rewrite !sapp_assoc.
    + left. apply ord_is in H2 as ->. rewrite !sapp_assoc.
      replace (escape p +:+ str1 IAC +:+ str1 (chr kIac)) with (escape (p +:+ str1 IAC)); [apply inc_sub|by rewrite escape_app].
    + right. exists (AbortedSub p b). split; [|cbn [itemBytes]; by rewrite !sapp_assoc].
      simpl. apply Z.eqb_neq in H, H2. by rewrite H, H2.
Qed.

Lemma stream_grammar raw : forall tail, incomplete tail -> exists its tail',
  tail +:+ raw = itemsBytes its +:+ tail' /\ forallb item_ok its = true /\ incomplete tail'.
Proof.
  induction raw as [|b raw IH]; intros tail Ht.
  - exists [], tail. by rewrite sapp_nil_r.
  - replace (tail +:+ String b raw) with ((tail +:+ str1 b) +:+ raw) by (rewrite sapp_assoc; reflexivity).
    destruct (incomplete_step tail b Ht) as [H|(i & Hi & E)]; [by apply IH|].
    destruct (IH "" inc_none) as (its & tail' & E2 & Hok & Hinc). exists (i :: its), tail'.
    rewrite <- E. rewrite sapp_nil_l in E2. rewrite E2. cbn [itemsBytes fold_right forallb].
    rewrite sapp_assoc, Hi. by split_and!.
Qed.

Lemma process_items its : forall t, forallb item_ok its = true -> telnetState (conn t) = TsData ->
  processTelnetBytes (itemsBytes its) t = fold_left itemEffect its t /\
  telnetState (conn (fold_left itemEffect its t)) = TsData.
Proof.
  induction its as [|i its IH]; intros t Hok Ht; [done|]. simpl in Hok. apply andb_true_iff in Hok as [Hi Hok].
  cbn [itemsBytes fold_right fold_left]. rewrite process_app. destruct (process_item i t Hi Ht) as [-> Hs]. by apply IH.
Qed.

Lemma incomplete_state tail t : incomplete tail -> telnetState (conn t) = TsData ->
  (telnetState (conn (processTelnetBytes tail t)) = TsData <-> tail = ""%string) /\
  plainOut (processTelnetBytes tail t) = plainOut t /\ sent (processTelnetBytes tail t) = sent t.
Proof.
  intros Hi Ht. destruct Hi as [| |k Hk|p|p].
  - done.
  - cbn [processTelnetBytes str1]. rewrite byte_iac by done. by rewrite telnetState_set.
  - cbn [processTelnetBytes str1]. rewrite byte_iac by done. rewrite byte_after_iac, iac_kind by done.
    rewrite telnetState_set. split; [|done]. split; [|done]. intros ->. set_solver.
  - rewrite process_sub by done. by rewrite telnetState_set.
  - rewrite process_sub_iac by done. by rewrite telnetState_set.
Qed.

(** Text that holds no 255. *)
Definition noIac : string -> bool := sforall (fun b => negb (ord b =? kIac)).

Lemma item_text t i : item_ok i = true -> i <> EscapedIac ->
  exists p, noIac p = true /\ plainOut (itemEffect t i) = plainOut t +:+ p.
Proof.
  intros Hi Hn.
  assert (forall u, plainOut u = plainOut t -> exists p, noIac p = true /\ plainOut u = plainOut t +:+ p) as Hq
    by (intros u ->; exists ""%string; by rewrite sapp_nil_r).
  destruct i as [b| |b|k o|p|p b]; cbn [itemEffect]; try done; try (by apply Hq).
  - exists (str1 b). split; [|by destruct t as [[]]]. unfold noIac. cbn [str1 sforall item_ok] in *. by rewrite Hi.
  - apply Hq. unfold handleNegotiation. destruct k; repeat case_match; done.
Qed.
Lemma items_text its : forall t, forallb item_ok its = true -> EscapedIac ∉ its ->
  exists p, noIac p = true /\ plainOut (fold_left itemEffect its t) = plainOut t +:+ p.
Proof.
  induction its as [|i its IH]; intros t Hok Hn; [exists ""%string; by rewrite sapp_nil_r|].
  cbn [forallb] in Hok. apply andb_true_iff in Hok as [Hi Hok]. apply not_elem_of_cons in Hn as [Hi' Hn].
  destruct (item_text t i Hi) as (p & Hp & E); [congruence|].
  destruct (IH (itemEffect t i) Hok Hn) as (q & Hq & E2). exists (p +:+ q). cbn [fold_left].
  split; [|by rewrite E2, E, sapp_assoc]. unfold noIac in *. by rewrite sforall_app, Hp, Hq.
Qed.

(** C10: the telnet machine reads the grammar of the protocol.  Every input is
    a sequence of data bytes, commands, negotiations, subnegotiations and
    escaped bytes, followed by a part of one more.  When no byte of the text is an
    escaped 255, the machine does for each item what it means, in order; the
    incomplete part produces neither text nor answers, the machine is between
    items exactly when there is none, and no IAC byte gets into the text. *)
Theorem telnet_reads_grammar raw t : telnetState (conn t) = TsData ->
  exists its tail, raw = itemsBytes its +:+ tail /\ forallb item_ok its = true /\ incomplete tail /\
    let t1 := fold_left itemEffect its t in
    let t2 := processTelnetBytes raw t in
    (EscapedIac ∉ its ->
     plainOut t2 = plainOut t1 /\ sent t2 = sent t1 /\ (tail = ""%string -> t2 = t1) /\
     exists text, noIac text = true /\ plainOut t2 = plainOut t +:+ text) /\
    (telnetState (conn t2) = TsData <-> tail = ""%string).
Proof.
  intros Ht. destruct (stream_grammar raw "" inc_none) as (its & tail & E & Hok & Hinc). rewrite sapp_nil_l in E.
  exists its, tail. destruct (process_items its t Hok Ht) as [E1 H1].
  destruct (incomplete_state tail _ Hinc H1) as (S1 & P1 & A1). rewrite E, process_app, E1.
  split_and!; [done..|]. cbv zeta. split; [|exact S1]. intros Hn.
  destruct (items_text its t Hok Hn) as (p & Hp & Ep). split_and!; [done|done|by intros ->|].
  exists p. by rewrite P1.
Qed.

Lemma telnet_reads_grammar_witness :
  let t := mkTelnet (newConnection 3 0) "" [] in
  let raw := bytes_of [104; 255; 251; 31; 255; 250; 31; 0; 80; 0; 24; 255; 240; 105; 255] in
  telnetState (conn t) = TsData /\
  (plainOut (processTelnetBytes raw t), terminalWidth (conn (processTelnetBytes raw t))) = ("hi"%string, 80) /\
  exists its tail, raw = itemsBytes its +:+ tail /\ forallb item_ok its = true /\ incomplete tail /\
    let t1 := fold_left itemEffect its t in
    let t2 := processTelnetBytes raw t in
    (EscapedIac ∉ its ->
     plainOut t2 = plainOut t1 /\ sent t2 = sent t1 /\ (tail = ""%string -> t2 = t1) /\
     exists text, noIac text = true /\ plainOut t2 = plainOut t +:+ text) /\
    (telnetState (conn t2) = TsData <-> tail = ""%string).
Proof.
  split; [reflexivity|]. split; [reflexivity|].
  apply (telnet_reads_grammar _ (mkTelnet (newConnection 3 0) "" [])). reflexivity.
Defined.

(** A window size report, and an escaped byte: it is delivered as the byte 255,
    although no IAC byte is to reach the command line. *)
Example naws_report :
  let t := processTelnetBytes (bytes_of [104; 255; 255; 255; 250; 31; 0; 80; 0; 24; 255; 240; 105])
             (mkTelnet (newConnection 3 0) "" []) in
  (plainOut t, terminalWidth (conn t), terminalHeight (conn t), windowSizeUpdated (conn t))
  = (bytes_of [104; 255; 105], 80, 24, true).
Proof. reflexivity. Qed.

(** What the sender escapes arrives as it was. *)
Lemma escape_transparent s : forall t, telnetState (conn t) = TsData ->
  processTelnetBytes (escape s) t = t <| plainOut ::= fun p => p +:+ s |>.
Proof.
  induction s as [|b s IH]; intros t Ht.
  - destruct t. upd. by rewrite sapp_nil_r.
  - assert (exists i, item_ok i = true /\ escape (String b s) = itemBytes i +:+ escape s /\ itemEffect t i = plainByte b t) as (i & Hi & E & Ei).
    { cbn [escape]. destruct (Z.eqb_spec (ord b) kIac) as [H|H].
      - apply ord_is in H as ->. by exists EscapedIac.
      - exists (Plain b). split; [|done]. simpl. by apply negb_true_iff, Z.eqb_neq. }
    rewrite E, process_app. destruct (process_item i t Hi Ht) as [-> Hs]. rewrite IH by done. rewrite Ei.
    destruct t. upd. by rewrite sapp_assoc.
Qed.

(** ** Packet boundaries *)

(** The machine appends to its text and answers, and does not look at them, nor
    at the line buffer and the echo flag. *)
Definition rebase (r : string) (e : bool) (c : Connection) : Connection :=
  c <| inputBuffer := r |> <| echoSuppressed := e |>.
Definition after (p : string) (s : list string) (r : string) (e : bool) (t : Telnet) : Telnet :=
  mkTelnet (rebase r e (conn t)) (p +:+ plainOut t) (s ++ sent t).

Lemma negotiation_after k b p s r e t :
  handleNegotiation k b (after p s r e t) = after p s r e (handleNegotiation k b t).
Proof.
  assert (forall l, answer l (after p s r e t) = after p s r e (answer l t)) as Ha
    by (intros l; destruct t; unfold after; upd; by rewrite app_assoc).
  unfold handleNegotiation. destruct k; repeat case_match; by rewrite ?Ha.
Qed.
Lemma subnegotiation_rebase r e c : handleSubnegotiation (rebase r e c) = rebase r e (handleSubnegotiation c).
Proof.
  unfold handleSubnegotiation. change (sbBuffer (rebase r e c)) with (sbBuffer c).
  repeat case_match; reflexivity.
Qed.
Lemma subnegotiation_after p s r e t :
  (after p s r e t) <| conn ::= handleSubnegotiation |> = after p s r e (t <| conn ::= handleSubnegotiation |>).
Proof. exact (f_equal (fun x => mkTelnet x (p +:+ plainOut t) (s ++ sent t)) (subnegotiation_rebase r e (conn t))). Qed.
Lemma telnetByte_after b p s r e t : telnetByte (after p s r e t) b = after p s r e (telnetByte t b).
Proof.
  assert (forall ts u, setState ts (after p s r e u) = after p s r e (setState ts u)) as Hs by done.
  assert (plainByte b (after p s r e t) = after p s r e (plainByte b t)) as Hp
    by (destruct t; unfold after; upd; by rewrite sapp_assoc).
  unfold telnetByte. change (telnetState (conn (after p s r e t))) with (telnetState (conn t)).
  destruct (telnetState (conn t)); rewrite ?negotiation_after, ?Hs, ?Hp.
  2: { unfold iacCommand. rewrite Hp, !Hs. repeat case_match; done. }
  all: rewrite ?subnegotiation_after; repeat case_match; done.
Qed.
Lemma process_after raw : forall p s r e t,
  processTelnetBytes raw (after p s r e t) = after p s r e (processTelnetBytes raw t).
Proof. induction raw as [|b raw IH]; intros p s r e t; [done|]. cbn [processTelnetBytes]. by rewrite telnetByte_after. Qed.

Lemma splitLines_app a : forall b,
  splitLines (a +:+ b) =
  let '(l1, r1) := splitLines a in let '(l2, r2) := splitLines (r1 +:+ b) in (l1 ++ l2, r2).
Proof.
  induction a as [|c a IH]; intros b.
  - simpl. rewrite sapp_nil_l. by destruct (splitLines b).
  - rewrite sapp_cons. cbn [splitLines]. rewrite IH. destruct (splitLines a) as [[|l ls] r1]; cbn [fst snd].
    + destruct (Ascii.eqb_spec c NL) as [->|Hc].
      * by destruct (splitLines (r1 +:+ b)).
      * rewrite sapp_cons. cbn [splitLines app]. apply Ascii.eqb_neq in Hc. rewrite Hc. by destruct (splitLines (r1 +:+ b)) as [[]].
    + destruct (splitLines (r1 +:+ b)) as [l2 r2] eqn:E. destruct (Ascii.eqb c NL); by rewrite E.
Qed.

(** The echo flag after some lines, and the answers. *)
Lemma lineTaken_iter n t : Nat.iter n lineTaken t =
  if (0 <? n)%nat && echoSuppressed (conn t)
  then answer echoOn (t <| conn ::= fun c => c <| echoSuppressed := false |> |>) else t.
Proof.
  induction n as [|n IH]; [done|]. cbn [Nat.iter nat_rect]. unfold Nat.iter in IH. rewrite IH.
  destruct n; cbn [Nat.ltb Nat.leb andb]; unfold lineTaken; destruct (echoSuppressed (conn t)) eqn:E; try done.
  by rewrite E.
Qed.

(** The answers of [n] lines: the echo comes back once. *)
Definition echoAnswers (n : nat) (e : bool) : list string := if (0 <? n)%nat && e then [bytes_of echoOn] else [].
Definition echoAfter (n : nat) (e : bool) : bool := if (0 <? n)%nat then false else e.

Lemma pollChunk_eq raw c :
  let t := processTelnetBytes raw (mkTelnet c "" []) in
  let '(ls, r) := splitLines (inputBuffer c +:+ plainOut t) in
  pollChunk raw c = (map popCr ls, rebase r (echoAfter (length ls) (echoSuppressed c)) (conn t),
                     sent t ++ echoAnswers (length ls) (echoSuppressed c)).
Proof.
  intros t. unfold pollChunk.
  assert (mkTelnet c (inputBuffer c) [] = after (inputBuffer c) [] (inputBuffer c) (echoSuppressed c) (mkTelnet c "" [])) as ->
    by (unfold after; cbn [plainOut sent]; rewrite sapp_nil_r; by destruct c).
  rewrite process_after. fold t. cbv zeta.
  change (plainOut (after (inputBuffer c) _ _ _ t)) with (inputBuffer c +:+ plainOut t).
  destruct (splitLines _) as [ls r]. rewrite lineTaken_iter.
  change (echoSuppressed (conn (after _ _ _ (echoSuppressed c) t))) with (echoSuppressed c).
  unfold echoAnswers, echoAfter. destruct (0 <? length ls)%nat; cbn [andb].
  - destruct (echoSuppressed c); [done|]. cbn [sent]. by rewrite app_nil_r.
  - by rewrite app_nil_r.
Qed.

(** C15: packet boundaries do not matter.  Polling a connection when some input
    has arrived and again when the rest has arrived gives, together, the lines
    that one poll of the whole input gives, leaves the connection the same, and
    sends the same answers; only the order of the answers may differ, since
    the echo is turned on after the first line of a poll. *)
Theorem poll_boundaries a b c :
  let '(l1, c1, s1) := pollChunk a c in
  let '(l2, c2, s2) := pollChunk b c1 in
  exists s, pollChunk (a +:+ b) c = (l1 ++ l2, c2, s) /\ s ≡ₚ s1 ++ s2.
Proof.
  pose proof (pollChunk_eq a c) as Ea. pose proof (pollChunk_eq (a +:+ b) c) as Eab. cbv zeta in *.
  rewrite process_app in Eab. set (ta := processTelnetBytes a (mkTelnet c "" [])) in *.
  destruct (splitLines (inputBuffer c +:+ plainOut ta)) as [l1 r1] eqn:E1. rewrite Ea.
  pose proof (pollChunk_eq b (rebase r1 (echoAfter (length l1) (echoSuppressed c)) (conn ta))) as Eb. cbv zeta in Eb.
  assert (forall r e, mkTelnet (rebase r e (conn ta)) "" [] = after "" [] r e (mkTelnet (conn ta) "" [])) as Hr by done.
  rewrite Hr, process_after in Eb. set (tb := processTelnetBytes b (mkTelnet (conn ta) "" [])) in *.
  assert (ta = after (plainOut ta) (sent ta) (inputBuffer (conn ta)) (echoSuppressed (conn ta)) (mkTelnet (conn ta) "" [])) as Hta
    by (unfold after; cbn [plainOut sent]; rewrite sapp_nil_r, app_nil_r; by destruct ta as [[]]).
  rewrite Hta, process_after in Eab. fold tb in Eab. cbn [after plainOut sent conn] in *.
  rewrite <- sapp_assoc, splitLines_app, E1 in Eab. change (inputBuffer (rebase r1 _ _)) with r1 in Eb.
  rewrite sapp_nil_l in Eb. destruct (splitLines (r1 +:+ plainOut tb)) as [l2 r2] eqn:E2. rewrite Eb, Eab.
  change (echoSuppressed (rebase _ ?e _)) with e. eexists. rewrite map_app. split.
  - do 2 f_equal. rewrite length_app. unfold echoAfter. by destruct (length l1), (length l2).
  - rewrite length_app. unfold echoAnswers, echoAfter. cbn [echoSuppressed rebase].
    destruct (length l1), (length l2), (echoSuppressed c); cbn; rewrite ?app_nil_r, <- ?app_assoc; try done.
    all: apply Permutation_app_head, Permutation_app_comm.
Qed.

Lemma be16_bounds x y : 0 <= x < 256 -> 0 <= y < 256 -> 0 <= Z.lor (Z.shiftl x 8) y < 65536.
Proof.
  assert (forall z, 0 <= z < 65536 -> Z.log2 z < 16) as Hl.
  { intros z Hz. destruct (Z.eq_dec z 0) as [->|]; [done|]. apply Z.log2_lt_pow2; lia. }
  intros Hx Hy. rewrite Z.shiftl_mul_pow2 by lia. change (2 ^ 8) with 256.
  assert (0 <= Z.lor (x * 256) y) by (apply Z.lor_nonneg; lia). split; [done|].
  destruct (Z.eq_dec (Z.lor (x * 256) y) 0) as [->|]; [lia|].
  apply (Z.log2_lt_pow2 _ 16); [lia|]. rewrite Z.log2_lor by lia. apply Z.max_lub_lt; apply Hl; lia.
Qed.

(** A window size report fits 16 bits, whatever bytes a client sends. *)
Theorem window_size_bounds raw c : 0 <= terminalWidth c < 65536 /\ 0 <= terminalHeight c < 65536 ->
  let '(_, c', _) := pollChunk raw c in
  0 <= terminalWidth c' < 65536 /\ 0 <= terminalHeight c' < 65536.
Proof.
  set (size_ok := fun c => 0 <= terminalWidth c < 65536 /\ 0 <= terminalHeight c < 65536).
  assert (forall s i, 0 <= byteAt s i < 256) as Hb.
  { intros s i. unfold byteAt, ord. pose proof (N_ascii_bounded (char_at s i)). lia. }
  pose proof be16_bounds as Hw.
  assert (forall c, size_ok c -> size_ok (handleSubnegotiation c)) as Hsub.
  { intros x Hx. unfold handleSubnegotiation. repeat case_match; try done. split; apply Hw; apply Hb. }
  assert (forall k b t, conn (handleNegotiation k b t) = conn t) as Hneg.
  { intros k b t. unfold handleNegotiation. destruct k; repeat case_match; done. }
  assert (forall ts t, size_ok (conn t) -> size_ok (conn (setState ts t))) as Hset by done.
  assert (forall t b, size_ok (conn t) -> size_ok (conn (telnetByte t b))) as Hstep.
  { intros t b Ht. unfold telnetByte, iacCommand.
    destruct (telnetState (conn t)); repeat case_match; try apply Hset; rewrite ?Hneg; try exact Ht. by apply (Hsub (conn t)). }
  assert (forall t, size_ok (conn t) -> size_ok (conn (processTelnetBytes raw t))) as Hall.
  { induction raw as [|b raw IH]; intros t Ht; [done|]. cbn [processTelnetBytes]. by apply IH, Hstep. }
  intros Hc. pose proof (pollChunk_eq raw c) as E. cbv zeta in E. destruct (splitLines _) as [ls r]. rewrite E.
  exact (Hall (mkTelnet c "" []) Hc).
Qed.
