(* ===== verification/InteractiveFacts.v ===== *)
(** * InteractiveFacts: connections and the registry of interactive objects agree

    [net_ok]: the registry has exactly one entry for each connection that is
    bound, and no object is bound twice.  [attach] and [close] keep it, so that
    [InteractiveRegistry::find] gives the connection of an object. *)
From S2P Require Import Prelude CLib Double Value Bytecode Lookup Network Machine Registries Connection.
Local Open Scope Z_scope.

Definition bound_to (s : VMState) (c : cid) (o : oid) : Prop :=
  exists x, conns (net s) !! c = Some x /\ boundObject x = Some o.

Record net_ok (s : VMState) : Prop := {
  entries_bound o c : (o, c) ∈ interactives (net s) <-> bound_to s c o;
  bound_once o c c' : bound_to s c o -> bound_to s c' o -> c = c';
  bound_alive o c : bound_to s c o -> is_Some (objects s !! o)
}.

Lemma lock_alive s o : is_Some (objects s !! o) -> lock s (Some o) = Some o.
Proof. intros [x Hx]. unfold lock. by rewrite Hx. Qed.

Lemma interactives_find s o c : net_ok s ->
  Interactives.find s (Some o) (interactives (net s)) = Some c <-> bound_to s c o.
Proof.
  intros [He Ho Ha]. unfold Interactives.find.
  set (p := fun e : oid * positive => bool_decide (lock s (Some e.1) = Some o)).
  assert (forall o' c', (o', c') ∈ interactives (net s) -> p (o', c') = true <-> o' = o) as Hp.
  { intros o' c' Hin. unfold p. apply He, Ha in Hin. rewrite bool_decide_eq_true. cbn [fst].
    rewrite lock_alive by done. split; congruence. }
  split.
  - destruct (List.find p _) as [[o' c']|] eqn:E; [|done]. intros [= <-]. apply List.find_some in E as [Hin Hpo].
    apply list_elem_of_In in Hin. apply Hp in Hpo as ->; [|done]. by apply He.
  - intros Hb. apply He in Hb as Hin. destruct (List.find p _) as [[o' c']|] eqn:E.
    + apply List.find_some in E as [Hin' Hpo]. apply list_elem_of_In in Hin'. apply Hp in Hpo as ->; [|done].
      apply He in Hin'. by rewrite (Ho _ _ _ Hb Hin').
    + apply list_elem_of_In in Hin. apply (List.find_none _ _ E) in Hin as Hf. apply list_elem_of_In in Hin.
      rewrite (proj2 (Hp o c Hin) eq_refl) in Hf. done.
Qed.

(** What the registry keeps when an object's entries go. *)
Lemma remove_elem s o e : net_ok s ->
  e ∈ Interactives.remove s (Some o) (interactives (net s)) <-> e ∈ interactives (net s) /\ e.1 <> o.
Proof.
  intros [He _ Ha]. unfold Interactives.remove. rewrite !list_elem_of_In, List.filter_In.
  split; intros [Hin H]; (split; [done|]).
  - intros <-. unfold stale in H. destruct e as [o c]. apply list_elem_of_In, He, Ha in Hin.
    rewrite lock_alive in H by done. by rewrite bool_decide_true in H.
  - unfold stale. destruct e as [o' c]. apply list_elem_of_In, He, Ha in Hin. cbn [fst] in *.
    rewrite lock_alive by done. by rewrite bool_decide_false.
Qed.

(** The operations do not make an object appear or go. *)
Lemma setOb_alive o f s o' : is_Some (objects (setOb o f s) !! o') <-> is_Some (objects s !! o').
Proof.
  unfold setOb, set_field. cbn. destruct (decide (o = o')) as [->|H].
  - rewrite lookup_alter_eq. destruct (objects s !! o'); by split; intros [x Hx]; eexists.
  - by rewrite lookup_alter_ne.
Qed.

(** [s'] has the connections of [s], with [c]'s as [f] makes it. *)
Definition unbound (s : VMState) (c : cid) (s' : VMState) : Prop :=
  (forall c' o, bound_to s' c' o <-> bound_to s c' o /\ c' <> c) /\
  (forall o, is_Some (objects s' !! o) <-> is_Some (objects s !! o)).

Lemma net_ok_unbind s c s' : net_ok s -> unbound s c s' ->
  (forall e, e ∈ interactives (net s') <-> e ∈ interactives (net s) /\ e.2 <> c) -> net_ok s'.
Proof.
  intros [He Ho Ha] [Hb Hal] Hi. split.
  - intros o c'. rewrite Hi, Hb, He. done.
  - intros o c1 c2. rewrite !Hb. intros [H1 _] [H2 _]. by eapply Ho.
  - intros o c1. rewrite Hb, Hal. intros [H1 _]. by eapply Ha.
Qed.

Lemma remove_alive s1 s2 ob reg : (forall o, is_Some (objects s1 !! o) <-> is_Some (objects s2 !! o)) ->
  Interactives.remove s1 ob reg = Interactives.remove s2 ob reg.
Proof.
  intros Ha. destruct ob as [o|]; [|done]. unfold Interactives.remove. apply List.filter_ext. intros e. f_equal.
  unfold stale, lock. specialize (Ha e.1). destruct (objects s1 !! e.1), (objects s2 !! e.1); try done.
  - by destruct (proj1 Ha (ex_intro _ _ eq_refl)).
  - by destruct (proj2 Ha (ex_intro _ _ eq_refl)).
Qed.

Lemma getConn_run {A} (f : Connection -> A) c s x : conns (net s) !! c = Some x -> getConn f c s = (Ok (f x), s).
Proof. intros Hx. unfold getConn. by rewrite Hx. Qed.
Lemma setConn_self f c s x : conns (net s) !! c = Some x -> conns (net (setConn c f s)) !! c = Some (f x).
Proof. intros Hx. unfold setConn, modNet, set_field. cbn. by rewrite lookup_alter_eq, Hx. Qed.

Lemma releaseObject_run s c b x : conns (net s) !! c = Some x ->
  exists s', releaseObject c b s = (Ok tt, s') /\
    (forall o, is_Some (objects s' !! o) <-> is_Some (objects s !! o)) /\
    net s' = (net s) <| interactives := Interactives.remove s (Some b) (interactives (net s)) |>
                   <| conns := <[c := x <| boundObject := None |>]> (conns (net s)) |>.
Proof.
  intros Hx. unfold releaseObject.
  set (s1 := match lock s (getOb s snoopedBy None b) with
             | Some sn => setOb sn (fun ob => ob <| snooping := None |>) s | None => s end).
  set (s2 := setOb b (fun ob => ob <| snoopedBy := None |>) s1).
  assert (forall o, is_Some (objects s2 !! o) <-> is_Some (objects s !! o)) as Ha.
  { intros o. unfold s2. rewrite setOb_alive. unfold s1. destruct (lock s _); [apply setOb_alive|done]. }
  exists (setConn c (fun x => x <| boundObject := None |>)
            (modNet (fun n => n <| interactives ::= Interactives.remove s2 (Some b) |>) s2)).
  split_and!.
  - unfold mbind, mgets, mmodify, mret. unfold s2, s1. by destruct (lock s _).
  - exact Ha.
  - assert (net s2 = net s) as E by (unfold s2, s1; by destruct (lock s _)).
    clearbody s2. unfold setConn, modNet, set_field. cbn -[Interactives.remove]. rewrite E, (remove_alive s2 s) by done. destruct (net s). cbn in *. f_equal.
    apply map_eq. intros c'. destruct (decide (c' = c)) as [->|Hc].
    + by rewrite lookup_alter_eq, lookup_insert_eq, Hx.
    + by rewrite lookup_alter_ne, lookup_insert_ne.
Qed.

Lemma setConn_net f c s : net (setConn c f s) = (net s) <| conns ::= alter f c |>.
Proof. reflexivity. Qed.
Lemma alter_insert_conn (m : gmap positive Connection) c f x : alter f c (<[c := x]> m) = <[c := f x]> m.
Proof. apply alter_insert_eq. Qed.

(** The state [close] leaves. *)
Lemma close_run s c x : conns (net s) !! c = Some x ->
  exists s', close c s = (Ok tt, s') /\
    (forall o, is_Some (objects s' !! o) <-> is_Some (objects s !! o)) /\
    conns (net s') = <[c := x <| boundObject := None |> <| fd := (if 0 <=? fd x then -1 else fd x) |> <| closed := true |>]> (conns (net s)) /\
    interactives (net s') = Interactives.remove s (boundObject x) (interactives (net s)) /\
    closeLog (net s') = closeLog (net s) ++ (if 0 <=? fd x then [fd x] else []).
Proof.
  intros Hx.
  assert (exists s1, (match boundObject x with None => mret tt | Some b => releaseObject c b end) s = (Ok tt, s1) /\
    (forall o, is_Some (objects s1 !! o) <-> is_Some (objects s !! o)) /\
    conns (net s1) = <[c := x <| boundObject := None |>]> (conns (net s)) /\
    interactives (net s1) = Interactives.remove s (boundObject x) (interactives (net s)) /\
    closeLog (net s1) = closeLog (net s)) as (s1 & E1 & Ha & Hc & Hi & Hl).
  { destruct (boundObject x) as [b|] eqn:Hb.
    - destruct (releaseObject_run s c b x Hx) as (s1 & E1 & Ha & En). exists s1. by rewrite En.
    - exists s. split_and!; try done. rewrite insert_id; [done|]. rewrite Hx. f_equal. destruct x. cbn in *. by subst. }
  unfold close. erewrite mbind_run by (by apply getConn_run). erewrite mbind_run by exact E1.
  assert (conns (net s1) !! c = Some (x <| boundObject := None |>)) as Hx1 by (by rewrite Hc, lookup_insert_eq).
  erewrite mbind_run by (by apply getConn_run). change (fd (x <| boundObject := None |>)) with (fd x).
  destruct (0 <=? fd x).
  - eexists. split; [reflexivity|]. rewrite !setConn_net. split; [exact Ha|]. cbn -[Interactives.remove].
    rewrite Hc, !alter_insert_conn, Hi, Hl. done.
  - eexists. split; [reflexivity|]. rewrite !setConn_net. split; [exact Ha|]. cbn -[Interactives.remove].
    rewrite Hc, !alter_insert_conn, Hi, Hl, app_nil_r. done.
Qed.

(** C12: closing a connection lets its object go: the registry still has one
    entry for each bound connection, the object has none, the descriptor is
    passed to close() if it was open, and closing again changes nothing. *)
Theorem close_spec s c x : net_ok s -> conns (net s) !! c = Some x ->
  exists s', close c s = (Ok tt, s') /\ net_ok s' /\
    (forall o, boundObject x = Some o -> Interactives.find s' (Some o) (interactives (net s')) = None) /\
    (forall c' o, c' <> c -> bound_to s' c' o <-> bound_to s c' o) /\
    closeLog (net s') = closeLog (net s) ++ (if 0 <=? fd x then [fd x] else []) /\
    (fst (close c s') = Ok tt /\ closeLog (net (snd (close c s'))) = closeLog (net s')).
Proof.
  intros Hok Hx. destruct (close_run s c x Hx) as (s' & E & Ha & Hc & Hi & Hl).
  assert (unbound s c s') as Hu.
  { split; [|exact Ha]. intros c' o. unfold bound_to. rewrite Hc. destruct (decide (c' = c)) as [->|Hn].
    - rewrite lookup_insert_eq. split; [|by intros [_ []]]. by intros (y & [= <-] & Hy).
    - rewrite lookup_insert_ne by done. naive_solver. }
  assert (net_ok s') as Hok'.
  { apply (net_ok_unbind s c); [done|done|]. intros [o c']. rewrite Hi. cbn [snd].
    destruct (boundObject x) as [b|] eqn:Hb.
    - rewrite remove_elem by done. cbn [fst]. split; intros [Hin H]; (split; [done|]).
      + intros ->. apply (entries_bound _ Hok) in Hin as (y & Hy & Ho). congruence.
      + intros ->. apply H, (bound_once _ Hok b); [by apply (entries_bound _ Hok)|by exists x].
    - split; [|tauto]. intros Hin. split; [done|]. intros ->.
      apply (entries_bound _ Hok) in Hin as (y & Hy & Ho). congruence. }
  exists s'. split_and!; [done|done| |intros c' o Hn; rewrite (proj1 Hu); tauto|done| |].
  - intros o Ho. destruct (Interactives.find s' _ _) as [c'|] eqn:F; [|done]. apply interactives_find in F; [|done].
    apply (proj1 Hu) in F as [F Hn]. destruct Hn. apply (bound_once _ Hok o); [done|by exists x].
  - destruct (close_run s' c _ (eq_trans (f_equal (.!! c) Hc) (lookup_insert_eq _ _ _))) as (s2 & E2 & _). by rewrite E2.
  - destruct (close_run s' c _ (eq_trans (f_equal (.!! c) Hc) (lookup_insert_eq _ _ _))) as (s2 & E2 & _ & _ & _ & L2).
    rewrite E2. cbn [snd]. rewrite L2. cbn [fd set_field]. destruct (0 <=? fd x) eqn:Ef; cbn; rewrite ?Ef; by rewrite app_nil_r.
Qed.

(** The state [attach] leaves. *)
Lemma attach_run s c x o : conns (net s) !! c = Some x ->
  exists s', attach c (Some o) s = (Ok tt, s') /\
    (forall o', is_Some (objects s' !! o') <-> is_Some (objects s !! o')) /\
    conns (net s') = <[c := x <| boundObject := Some o |>]> (conns (net s)) /\
    interactives (net s') =
      (if is_some (boundObject x) then Interactives.remove s (boundObject x) (interactives (net s)) else interactives (net s))
      ++ [(o, c)].
Proof.
  intros Hx. unfold attach. erewrite mbind_run by (by apply getConn_run).
  assert (forall m : gmap positive Connection, m !! c = Some x ->
    alter (fun y => y <| boundObject := Some o |>) c m = <[c := x <| boundObject := Some o |>]> m) as Halt.
  { intros m Hm. apply map_eq. intros c'. destruct (decide (c' = c)) as [->|Hc].
    - by rewrite lookup_alter_eq, lookup_insert_eq, Hm.
    - by rewrite lookup_alter_ne, lookup_insert_ne. }
  destruct (boundObject x) as [b|] eqn:Hb; cbn [is_some].
  - eexists. split; [reflexivity|]. split_and!; [intros o'; etrans; [apply setOb_alive|done]| |].
    + cbn -[Interactives.remove]. by rewrite Halt.
    + reflexivity.
  - eexists. split; [reflexivity|]. split_and!; [intros o'; etrans; [apply setOb_alive|done]| |].
    + cbn. by rewrite Halt.
    + reflexivity.
Qed.

(** C11: binding a connection to an object that no other connection has keeps
    the registry in agreement with the connections, makes the object's entry
    the one of this connection, and drops the entry of the object it had. *)
Theorem attach_spec s c x o : net_ok s -> conns (net s) !! c = Some x -> is_Some (objects s !! o) ->
  (forall c', bound_to s c' o -> c' = c) ->
  exists s', attach c (Some o) s = (Ok tt, s') /\ net_ok s' /\
    Interactives.find s' (Some o) (interactives (net s')) = Some c /\
    (forall b, boundObject x = Some b -> b <> o -> Interactives.find s' (Some b) (interactives (net s')) = None) /\
    (forall c' o', c' <> c -> bound_to s' c' o' <-> bound_to s c' o').
Proof.
  intros Hok Hx Hal Hfree. destruct (attach_run s c x o Hx) as (s' & E & Ha & Hc & Hi).
  assert (forall c' o', c' <> c -> bound_to s' c' o' <-> bound_to s c' o') as Hother
    by (intros c' o' Hn; unfold bound_to; rewrite Hc, lookup_insert_ne; naive_solver).
  assert (forall o', bound_to s' c o' <-> o' = o) as Hself.
  { intros o'. unfold bound_to. rewrite Hc, lookup_insert_eq. split; [intros (y & [= <-] & Hy); by injection Hy|].
    intros ->. by eexists. }
  assert (forall o' c', (o', c') ∈ (if is_some (boundObject x) then Interactives.remove s (boundObject x) (interactives (net s)) else interactives (net s))
            <-> bound_to s c' o' /\ c' <> c) as Hrest.
  { intros o' c'. destruct (boundObject x) as [b|] eqn:Hb; cbn [is_some].
    - rewrite remove_elem, (entries_bound _ Hok) by done. cbn [fst]. split; intros [Hin H]; (split; [done|]).
      + intros ->. destruct Hin as (y & Hy & Ho). congruence.
      + intros ->. apply H, (bound_once _ Hok b); [done|by exists x].
    - rewrite (entries_bound _ Hok). split; [|tauto]. intros Hin. split; [done|]. intros ->.
      destruct Hin as (y & Hy & Ho). congruence. }
  assert (net_ok s') as Hok'.
  { split.
    - intros o' c'. rewrite Hi, elem_of_app, Hrest, list_elem_of_singleton. destruct (decide (c' = c)) as [->|Hn].
      + rewrite Hself. split; [intros [[_ []]|[= ->]]; done|]. intros ->. by right.
      + rewrite Hother by done. split; [intros [[]|[= -> ->]]; done|]. by left.
    - intros o' c1 c2 H1 H2. destruct (decide (c1 = c)) as [->|N1], (decide (c2 = c)) as [->|N2]; try done.
      + apply Hself in H1 as ->. apply Hother in H2; [|done]. symmetry. by apply Hfree.
      + apply Hself in H2 as ->. apply Hother in H1; [|done]. by apply Hfree.
      + apply Hother in H1, H2; [|done..]. by eapply (bound_once _ Hok).
    - intros o' c'. rewrite Ha. destruct (decide (c' = c)) as [->|Hn]; [by rewrite Hself; intros ->|].
      rewrite Hother by done. apply (bound_alive _ Hok). }
  exists s'. split_and!; [done|done| | |done].
  - apply interactives_find; [done|]. by apply Hself.
  - intros b Hb Hbo. destruct (Interactives.find s' _ _) as [c'|] eqn:F; [|done]. apply interactives_find in F; [|done].
    destruct (decide (c' = c)) as [->|Hn]; [by apply Hself in F|].
    apply Hother in F; [|done]. destruct Hn. apply (bound_once _ Hok b); [done|by exists x].
Qed.

(** ** Witnesses: one bound connection, one that is not *)
Definition witnessNet : NetState :=
  emptyNet <| conns := <[1%positive := (newConnection 5 0) <| boundObject := Some 1%positive |>]> {[ 2%positive := newConnection 6 0 ]} |>
           <| interactives := [(1, 1)]%positive |>.
Definition witnessVM : VMState :=
  (newVM (configFor "fluffos" 1000)
    (<[1%positive := newObject "/a" 1%positive emptyProgram false 0]> {[ 2%positive := newObject "/b" 1%positive emptyProgram false 0 ]}) ∅)
    <| net := witnessNet |>.
Lemma witness_bound c o : bound_to witnessVM c o <-> c = 1%positive /\ o = 1%positive.
Proof.
  unfold bound_to. change (conns (net witnessVM)) with (conns witnessNet). cbn [conns witnessNet set_field].
  split; [|intros [-> ->]; by eexists]. intros (x & Hx & Hb).
  apply lookup_insert_Some in Hx as [[<- <-]|[Hn Hx]]; [by injection Hb|].
  apply lookup_singleton_Some in Hx as [<- <-]. done.
Qed.
Lemma witness_ok : net_ok witnessVM.
Proof.
  split.
  - intros o c. rewrite witness_bound. change (interactives (net witnessVM)) with [(1, 1)]%positive.
    rewrite list_elem_of_singleton. naive_solver.
  - intros o c c'. rewrite !witness_bound. naive_solver.
  - intros o c [-> ->]%witness_bound. by eexists.
Qed.

Lemma close_spec_witness :
  net_ok witnessVM /\ conns (net witnessVM) !! 1%positive = Some ((newConnection 5 0) <| boundObject := Some 1%positive |>) /\
  exists s', close 1%positive witnessVM = (Ok tt, s') /\ net_ok s' /\
    (forall o, Some 1%positive = Some o -> Interactives.find s' (Some o) (interactives (net s')) = None) /\
    (forall c' o, c' <> 1%positive -> bound_to s' c' o <-> bound_to witnessVM c' o) /\
    closeLog (net s') = [] ++ [5] /\
    (fst (close 1%positive s') = Ok tt /\ closeLog (net (snd (close 1%positive s'))) = closeLog (net s')).
Proof. split; [exact witness_ok|]. split; [reflexivity|]. exact (close_spec witnessVM 1%positive ((newConnection 5 0) <| boundObject := Some 1%positive |>) witness_ok eq_refl). Defined.

Lemma attach_spec_witness :
  net_ok witnessVM /\ is_Some (objects witnessVM !! 2%positive) /\
  exists s', attach 1%positive (Some 2%positive) witnessVM = (Ok tt, s') /\ net_ok s' /\
    Interactives.find s' (Some 2%positive) (interactives (net s')) = Some 1%positive /\
    (forall b, Some 1%positive = Some b -> b <> 2%positive -> Interactives.find s' (Some b) (interactives (net s')) = None) /\
    (forall c' o', c' <> 1%positive -> bound_to s' c' o' <-> bound_to witnessVM c' o').
Proof.
  assert (is_Some (objects witnessVM !! 2%positive)) as Ha by (by eexists).
  split; [exact witness_ok|]. split; [exact Ha|]. 
  assert (forall c', bound_to witnessVM c' 2%positive -> c' = 1%positive) as Hf by (intros c' [_ H]%witness_bound; done).
  exact (attach_spec witnessVM 1%positive ((newConnection 5 0) <| boundObject := Some 1%positive |>) 2%positive witness_ok eq_refl Ha Hf).
Defined.

(** The registry drops every entry of an object, whichever connection it
    names: when two connections are bound to one object, closing the first
    hides the second. *)
Example close_hides_second :
  let s0 := snd (attach 2%positive (Some 1%positive) witnessVM) in
  let s1 := snd (close 1%positive s0) in
  interactives (net s0) = [(1, 1); (1, 2)]%positive /\ interactives (net s1) = [] /\
  (boundObject <$> conns (net s1) !! 2%positive) = Some (Some 1%positive).
Proof. vm_compute. done. Qed.
