(* ===== verification/Sockets.v ===== *)
(** * Sockets: src/net/SocketRegistry.cpp

    The sockets LPC code opens.  Every operation checks the handle, the owner
    and the state before it touches the socket, and answers with a code of
    [SocketErr]; what the kernel answers comes from [syscalls].  [inet_addr] of
    the C library is a parameter: [None] is INADDR_NONE. *)
From S2P Require Import Prelude CLib Double Value Bytecode Lookup Network Machine Connection.
Local Open Scope Z_scope.

Definition syscall : VM SysResult := fun s =>
  match syscalls (net s) with
  | [] => (Ok (SysErr EOTHER), s)
  | r :: rest => (Ok r, modNet (fun n => n <| syscalls := rest |>) s)
  end.

(** The status of a call that returns 0 or -1. *)
Definition failed (r : SysResult) : bool := match r with SysOk n => n <? 0 | SysPeer n _ _ => n <? 0 | SysErr _ => true | SysBytes _ => false end.

(** [std::atoi] *)
Definition atoi (s : string) : Z := match strtoll 10 s with Some (v, _) => wrap32 v | None => 0 end.

Definition parseHostPort (name : string) : option (string * Z) :=
  match find_first (Ascii.eqb " ") 0 name with
  | None => None
  | Some sp =>
      let portStr := sdrop (sp + 1) name in
      if String.eqb portStr "" then None else Some (stake sp name, atoi portStr)
  end.

Definition kErrorStrings : list string :=
  ["Problem creating socket"; "Problem with setsockopt"; "Problem setting non-blocking mode";
   "No more available efun sockets"; "Descriptor out of range"; "Socket is closed";
   "Security violation attempted"; "Socket is already bound"; "Address already in use";
   "Problem with bind"; "Problem with getsockname"; "Socket mode not supported";
   "Socket not bound to an address"; "Socket is already connected"; "Problem with listen";
   "Socket not listening"; "Operation would block"; "Interrupted system call";
   "Problem with accept"; "Socket is listening"; "Problem with address format";
   "Operation already in progress"; "Connection refused"; "Problem with connect";
   "Socket not connected"; "Object type not supported"; "Problem with sendto";
   "Problem with send"; "Wait for callback"; "Socket already released"; "Socket not released";
   "Data nested too deeply"]%string.
Definition kErrorStringsCount : Z := Z.of_nat (length kErrorStrings).

(** [error] is an [int]: [error + 1] may overflow. *)
Definition errorString (error : Z) : outcome exn string :=
  let! n := checked32 (error + 1) in
  let index := - n in
  if (index <? 0) || (kErrorStringsCount <=? index)
  then Ok "socket_error: invalid error number"%string
  else Ok (default ""%string (kErrorStrings !! Z.to_nat index)).

Definition modeName (m : SocketMode) : string := match m with Stream => "STREAM" | Datagram => "DATAGRAM" end.
Definition stateName (st : SocketState) : string :=
  match st with
  | Unbound => "UNBOUND" | Bound => "BOUND" | Listen => "LISTEN" | DataXfer => "DATA_XFER"
  | ClosedState => "CLOSED"
  end.

(** ** The registry *)
Definition setSocket (h : Z) (f : LpcSocket -> LpcSocket) : VM unit :=
  mmodify (modNet (fun n => n <| sockets ::= alter f h |>)).

Definition findSocket (h : Z) (n : NetState) : option LpcSocket :=
  if bool_decide (h ∈ registered n) then sockets n !! h else None.

Definition forceRemove (h : Z) : VM unit :=
  mmodify (modNet (fun n => n <| registered ::= List.filter (fun x => negb (Z.eqb x h)) |>)).

(** A socket of the next handle enters the registry. *)
Definition registerSocket (sock : Z -> LpcSocket) : VM Z :=
  h <- mgets (fun s => g_nextHandle (net s)) ;;
  next <- mlift (checked32 (h + 1)) ;;
  mmodify (modNet (fun n => n <| g_nextHandle := next |> <| sockets ::= insert h (sock h) |>
                              <| registered ::= fun l => l ++ [h] |>)) ;;
  mret h.

(** The checks every operation on a handle begins with: it is registered, not
    closed, and the caller owns it. *)
Definition withSocket (h : Z) (caller : option oid) (k : LpcSocket -> VM Z) : VM Z :=
  found <- mgets (fun s => findSocket h (net s)) ;;
  match found with
  | None => mret SocketErr.EFdRange
  | Some sock =>
      if bool_decide (so_state sock = ClosedState) then mret SocketErr.EBadF else
      own <- mgets (fun s => lock s (so_owner sock)) ;;
      if negb (bool_decide (own = caller)) then mret SocketErr.ESecurity else k sock
  end.

(** [setNonBlocking]: two calls of fcntl. *)
Definition setNonBlocking : VM bool :=
  r <- syscall ;;
  if failed r then mret false else
  r2 <- syscall ;;
  mret (match r2 with SysOk n => n =? 0 | _ => false end).

Definition closeFd (f : Z) : VM unit := mmodify (modNet (fun n => n <| closeLog ::= fun l => l ++ [f] |>)).

Definition createSocket (mode : Z) (readCb closeCb : Value) (owner : option oid) : VM Z :=
  let sm := if mode =? 1 then Some Stream else if mode =? 2 then Some Datagram else None in
  match sm with
  | None => mret SocketErr.EModeNotSupp
  | Some sm =>
      r <- syscall ;;
      match r with
      | SysOk f =>
          if f <? 0 then mret SocketErr.ESocket else
          opt <- syscall ;;
          if failed opt then closeFd f ;; mret SocketErr.ESetSockOpt else
          nb <- setNonBlocking ;;
          if negb nb then closeFd f ;; mret SocketErr.ENonBlock else
          registerSocket (fun h =>
            (newSocket h f sm owner) <| readCallback := readCb |>
              <| closeCallback := match sm with Stream => closeCb | Datagram => Void end |>)
      | _ => mret SocketErr.ESocket
      end
  end.

Section Ops.
Context (inet_addr : string -> option Z).

(** [buildSockaddr] succeeds. *)
Definition buildSockaddr (host : string) : bool :=
  is_some (inet_addr host) || String.eqb host "255.255.255.255".

Definition bind (h : Z) (addr : option string) (caller : option oid) : VM Z :=
  withSocket h caller (fun sock =>
    if negb (bool_decide (so_state sock = Unbound)) then mret SocketErr.EIsBound else
    if match addr with Some a => negb (is_some (inet_addr a)) | None => false end
    then mret SocketErr.EBadAddr else
    r <- syscall ;;
    match r with
    | SysErr EADDRINUSE => mret SocketErr.EAddrInUse
    | _ =>
        if failed r then mret SocketErr.EBind else
        name <- syscall ;;
        match name with
        | SysPeer 0 a p => setSocket h (fun x => x <| localAddr := a |> <| localPort := p |>)
        | _ => mret tt
        end ;;
        setSocket h (fun x => x <| so_state := Bound |>) ;;
        mret SocketErr.Success
    end).

Definition listenSocket (h : Z) (callback : Value) (caller : option oid) : VM Z :=
  withSocket h caller (fun sock =>
    match so_mode sock with
    | Datagram => mret SocketErr.EModeNotSupp
    | Stream =>
        match so_state sock with
        | Unbound => mret SocketErr.ENoAddr
        | Bound =>
            r <- syscall ;;
            if failed r then mret SocketErr.EListen else
            setSocket h (fun x => x <| so_state := Listen |> <| readCallback := callback |>) ;;
            mret SocketErr.Success
        | _ => mret SocketErr.EIsConn
        end
    end).

Definition acceptSocket (h : Z) (readCb writeCb : Value) (caller : option oid) : VM Z :=
  withSocket h caller (fun sock =>
    match so_mode sock with
    | Datagram => mret SocketErr.EModeNotSupp
    | Stream =>
        if negb (bool_decide (so_state sock = Listen)) then mret SocketErr.ENotListn else
        setSocket h (fun x => x <| acceptPending := false |>) ;;
        r <- syscall ;;
        match r with
        | SysPeer newFd a p =>
            if newFd <? 0 then mret SocketErr.EAccept else
            setNonBlocking ;;
            registerSocket (fun nh =>
              (newSocket nh newFd (so_mode sock) caller)
                <| so_state := DataXfer |> <| readCallback := readCb |> <| writeCallback := writeCb |>
                <| closeCallback := closeCallback sock |> <| remoteAddr := a |> <| remotePort := p |>
                <| localAddr := localAddr sock |> <| localPort := localPort sock |>)
        | SysErr EAGAIN => mret SocketErr.EWouldBlock
        | SysErr EINTR => mret SocketErr.EIntr
        | _ => mret SocketErr.EAccept
        end
    end).

Definition connectError (r : SysResult) : option Z :=
  if negb (failed r) then None else
  match r with
  | SysErr EINTR => Some SocketErr.EIntr
  | SysErr EADDRINUSE => Some SocketErr.EAddrInUse
  | SysErr EALREADY => Some SocketErr.EAlready
  | SysErr ECONNREFUSED => Some SocketErr.EConnRefused
  | SysErr EINPROGRESS => None
  | _ => Some SocketErr.EConnect
  end.

Definition connectSocket (h : Z) (address : string) (readCb writeCb : Value) (caller : option oid) : VM Z :=
  withSocket h caller (fun sock =>
    match so_mode sock, so_state sock with
    | Datagram, _ => mret SocketErr.EModeNotSupp
    | _, Listen => mret SocketErr.EIsListen
    | _, DataXfer => mret SocketErr.EIsConn
    | _, _ =>
        match parseHostPort address with
        | None => mret SocketErr.EBadAddr
        | Some (host, p) =>
            if negb (buildSockaddr host) then mret SocketErr.EBadAddr else
            setSocket h (fun x => x <| readCallback := readCb |> <| writeCallback := writeCb |>) ;;
            r <- syscall ;;
            match connectError r with
            | Some e => mret e
            | None =>
                setSocket h (fun x => x <| so_state := DataXfer |> <| remoteAddr := host |>
                                        <| remotePort := p |> <| blocked := true |>) ;;
                mret SocketErr.Success
            end
        end
    end).

Definition writeDatagram (address : option string) : VM Z :=
  match address with
  | None => mret SocketErr.ENoAddr
  | Some a =>
      match parseHostPort a with
      | None => mret SocketErr.EBadAddr
      | Some (host, _) =>
          if negb (buildSockaddr host) then mret SocketErr.EBadAddr else
          r <- syscall ;;
          mret (if failed r then SocketErr.ESendTo else SocketErr.Success)
      end
  end.

Definition writeStream (h : Z) (text : string) (sock : LpcSocket) (address : option string) : VM Z :=
  if negb (bool_decide (so_state sock = DataXfer)) then mret SocketErr.ENotConn
  else if is_some address then mret SocketErr.EBadAddr
  else if blocked sock then mret SocketErr.EAlready
  else if String.eqb text "" then mret SocketErr.Success
  else
  r <- syscall ;;
  match r with
  | SysErr EAGAIN => mret SocketErr.EWouldBlock
  | SysErr EINTR => mret SocketErr.EIntr
  | SysOk off =>
      if off <=? 0 then forceRemove h ;; mret SocketErr.ESend
      else if off <? Z.of_nat (String.length text) then
        setSocket h (fun x => x <| blocked := true |> <| pendingWrite := sdrop (Z.to_nat off) text |>) ;;
        mret SocketErr.ECallback
      else mret SocketErr.Success
  | _ => forceRemove h ;; mret SocketErr.ESend
  end.

Definition writeSocket (h : Z) (message : Value) (address : option string) (caller : option oid) : VM Z :=
  withSocket h caller (fun sock =>
    match data message with
    | Str text =>
        match so_mode sock with
        | Datagram => writeDatagram address
        | Stream => writeStream h text sock address
        end
    | _ => mret SocketErr.ETypeNotSupp
    end).
End Ops.

Definition closeSocket (h : Z) (caller : option oid) : VM Z :=
  withSocket h caller (fun _ => forceRemove h ;; mret SocketErr.Success).

Definition closeAllOwnedBy (owner : option oid) : VM unit :=
  match owner with
  | None => mret tt
  | Some _ =>
      mmodify (fun s => modNet (fun n => n <| registered ::= List.filter (fun h =>
        match sockets n !! h with
        | Some sock => negb (bool_decide (lock s (so_owner sock) = owner)
                             && negb (bool_decide (so_state sock = ClosedState)))
        | None => true
        end) |>) s)
  end.

Definition statusOne (sock : LpcSocket) : VM Value := fun s =>
  let address a p := V (Str (if String.eqb a "" then ""%string else a +:+ " " +:+ to_string p)) in
  let '(p, h) := newArray
    [VInt (so_handle sock); V (Str (stateName (so_state sock))); V (Str (modeName (so_mode sock)));
     address (localAddr sock) (localPort sock); address (remoteAddr sock) (remotePort sock);
     match lock s (so_owner sock) with Some o => V (Obj (Some o)) | None => Void end] (hp s) in
  (Ok (V (Arr (Some p))), s <| hp := h |>).

(** [all]: the order of an [unordered_map] is not specified; [hashOrder] gives
    it for the handles that are registered. *)
Definition allSockets (hashOrder : list Z -> list Z) (n : NetState) : list Z := hashOrder (registered n).

Definition beginRelease (h : Z) (ob caller : option oid) : VM Z :=
  withSocket h caller (fun sock =>
    if released sock then mret SocketErr.ESockRlsd else
    setSocket h (fun x => x <| released := true |> <| releaseTarget := ob |>) ;;
    mret SocketErr.Success).

Definition isReleased (h : Z) (n : NetState) : bool :=
  match findSocket h n with Some sock => released sock | None => false end.

Definition cancelRelease (h : Z) : VM unit :=
  found <- mgets (fun s => findSocket h (net s)) ;;
  match found with
  | None => mret tt
  | Some _ => setSocket h (fun x => x <| released := false |> <| releaseTarget := None |>)
  end.

Definition acquireSocket (h : Z) (readCb writeCb closeCb : Value) (caller : option oid) : VM Z :=
  found <- mgets (fun s => findSocket h (net s)) ;;
  match found with
  | None => mret SocketErr.EFdRange
  | Some sock =>
      if bool_decide (so_state sock = ClosedState) then mret SocketErr.EBadF else
      if negb (released sock) then mret SocketErr.ESockNotRlsd else
      target <- mgets (fun s => lock s (releaseTarget sock)) ;;
      if negb (bool_decide (target = caller)) then mret SocketErr.ESecurity else
      setSocket h (fun x => x <| released := false |> <| so_owner := caller |> <| releaseTarget := None |>
        <| readCallback := readCb |> <| writeCallback := writeCb |> <| closeCallback := closeCb |>) ;;
      mret SocketErr.Success
  end.
