(* ===== verification/SocketsFacts.v ===== *)
(** * SocketsFacts: the life of an efun socket

    The registry keeps an invariant, a socket's state only moves forward, and
    only the owner of a socket acts on it. *)
From S2P Require Import Prelude CLib Double Value Bytecode Lookup Network Machine Connection Sockets.
Local Open Scope Z_scope.

(** ** The invariant *)
Record sock_ok (x : LpcSocket) : Prop := {
  datagram_idle : so_mode x = Datagram -> so_state x = Unbound \/ so_state x = Bound;
  pending_listens : acceptPending x = true -> so_state x = Listen;
  blocked_connected : blocked x = true -> so_state x = DataXfer;
  pending_blocked : pendingWrite x <> ""%string -> blocked x = true;
  never_closed : so_state x <> ClosedState
}.
Record sockets_ok (n : NetState) : Prop := {
  each_ok h x : sockets n !! h = Some x -> sock_ok x /\ so_handle x = h /\ h < g_nextHandle n;
  registered_known h : h ∈ registered n -> is_Some (sockets n !! h);
  registered_once : NoDup (registered n)
}.

(** Where bind, listen and connect can take a socket. *)
Definition reaches (a b : SocketState) : bool :=
  bool_decide (a = b) ||
  match a, b with
  | Unbound, Bound | Unbound, Listen | Unbound, DataXfer | Bound, Listen | Bound, DataXfer => true
  | _, _ => false
  end.
(** What becomes of a socket. *)
Definition evolves (x x' : LpcSocket) : Prop :=
  so_handle x' = so_handle x /\ so_fd x' = so_fd x /\ so_mode x' = so_mode x /\
  reaches (so_state x) (so_state x') = true.
#[export] Instance evolves_preorder : PreOrder evolves.
Proof.
  split.
  - intros x. repeat split. unfold reaches. by rewrite bool_decide_true.
  - intros x y z (A & B & C & D) (A' & B' & C' & D'). split_and!; [congruence..|].
    unfold reaches in *. by destruct (so_state x), (so_state y), (so_state z).
Qed.

(** ** The operations LPC code can ask for *)
Inductive SocketOp :=
  | OCreate (mode : Z) (readCb closeCb : Value)
  | OBind (h : Z) (addr : option string)
  | OListen (h : Z) (cb : Value)
  | OAccept (h : Z) (readCb writeCb : Value)
  | OConnect (h : Z) (address : string) (readCb writeCb : Value)
  | OWrite (h : Z) (message : Value) (address : option string)
  | OClose (h : Z)
  | ORelease (h : Z) (to : option oid)
  | OAcquire (h : Z) (readCb writeCb closeCb : Value).

Definition socketOp (inet_addr : string -> option Z) (op : SocketOp) (caller : option oid) : VM Z :=
  match op with
  | OCreate m r c => createSocket m r c caller
  | OBind h a => bind inet_addr h a caller
  | OListen h cb => listenSocket h cb caller
  | OAccept h r w => acceptSocket h r w caller
  | OConnect h a r w => connectSocket inet_addr h a r w caller
  | OWrite h m a => writeSocket inet_addr h m a caller
  | OClose h => closeSocket h caller
  | ORelease h to => beginRelease h to caller
  | OAcquire h r w c => acquireSocket h r w c caller
  end.
(** The socket an operation needs the owner of. *)
Definition owned (op : SocketOp) : option Z :=
  match op with
  | OCreate _ _ _ | OAcquire _ _ _ _ => None
  | OBind h _ | OListen h _ | OAccept h _ _ | OConnect h _ _ _ | OWrite h _ _ | OClose h | ORelease h _ => Some h
  end.

(** ** One operation *)
Definition socks (n : NetState) := (sockets n, registered n, g_nextHandle n).
Definition grows (s s' : VMState) : Prop :=
  sockets_ok (net s) -> sockets_ok (net s') /\
  forall h x, sockets (net s) !! h = Some x -> exists x', sockets (net s') !! h = Some x' /\ evolves x x'.

Lemma grows_same s s' : socks (net s') = socks (net s) -> grows s s'.
Proof.
  intros [= H1 H2 H3] [A B C]. split; [split; rewrite ?H1, ?H2, ?H3; done|]. rewrite H1. intros h x Hx. by exists x.
Qed.
Lemma registry_grows_trans a b c : grows a b -> grows b c -> grows a c.
Proof.
  intros Hab Hbc Ha. destruct (Hab Ha) as [Hb H1]. destruct (Hbc Hb) as [Hc H2]. split; [done|].
  intros h x Hx. destruct (H1 h x Hx) as (y & Hy & E1). destruct (H2 h y Hy) as (z & Hz & E2).
  exists z. split; [done|by etrans].
Qed.

(** [quiet m]: [m] leaves the sockets alone. *)
Definition quiet {A} (m : VM A) : Prop := forall s, socks (net (snd (m s))) = socks (net s).
Definition grow {A} (P : VMState -> Prop) (m : VM A) : Prop := forall s, P s -> grows s (snd (m s)).
Definition has (h : Z) (x : LpcSocket) (s : VMState) : Prop := sockets (net s) !! h = Some x.

Lemma quiet_ret {A} (a : A) : quiet (mret a).
Proof. by intros s. Qed.
Lemma quiet_gets {A} (f : VMState -> A) : quiet (mgets f).
Proof. by intros s. Qed.
Lemma quiet_syscall : quiet syscall.
Proof. intros s. unfold syscall. by destruct (syscalls (net s)). Qed.
Lemma quiet_closeFd f : quiet (closeFd f).
Proof. by intros s. Qed.
Lemma quiet_bind {A B} (m : VM A) (k : A -> VM B) : quiet m -> (forall a, quiet (k a)) -> quiet (mbind m k).
Proof.
  intros Hm Hk s. unfold mbind. specialize (Hm s). destruct (m s) as [[a| | |] s1]; simpl in *; try done.
  by rewrite Hk.
Qed.
Lemma quiet_nonblock : quiet setNonBlocking.
Proof.
  apply quiet_bind; [apply quiet_syscall|]. intros r. destruct (failed r); [apply quiet_ret|].
  apply quiet_bind; [apply quiet_syscall|]. intros r2. apply quiet_ret.
Qed.
Create HintDb sock.
#[export] Hint Resolve quiet_ret quiet_gets quiet_syscall quiet_closeFd quiet_nonblock : sock.

Lemma grow_quiet {A} P (m : VM A) : quiet m -> grow P m.
Proof. intros Hm s _. by apply grows_same. Qed.
(** A quiet step keeps what is known of a socket. *)
Lemma grow_step {A B} h x (m : VM A) (k : A -> VM B) :
  quiet m -> (forall a, grow (has h x) (k a)) -> grow (has h x) (mbind m k).
Proof.
  intros Hm Hk s Hs. unfold mbind. specialize (Hm s). destruct (m s) as [[a|e|w|] s1]; cbn [snd] in *.
  2-4: by apply grows_same.
  apply (registry_grows_trans _ s1); [by apply grows_same|]. apply Hk. unfold has in *. by injection Hm as -> _ _.
Qed.
Lemma grow_bind {A B} P (m : VM A) (k : A -> VM B) :
  grow P m -> (forall a, grow (fun _ => True) (k a)) -> grow P (mbind m k).
Proof.
  intros Hm Hk s Hs. unfold mbind. specialize (Hm s Hs). destruct (m s) as [[a|e|w|] s1]; cbn [snd] in *; try done.
  apply (registry_grows_trans _ s1); [done|]. by apply Hk.
Qed.
Lemma grow_weaken {A} P (m : VM A) : grow (fun _ => True) m -> grow P m.
Proof. intros Hm s _. by apply Hm. Qed.

(** An update of one socket. *)
Lemma grow_set h x f : evolves x (f x) -> (sock_ok x -> sock_ok (f x)) -> grow (has h x) (setSocket h f).
Proof.
  intros He Hf s Hx [A B C]. unfold has in Hx. cbn.
  assert (forall h', alter f h (sockets (net s)) !! h' = if decide (h' = h) then Some (f x) else sockets (net s) !! h') as E.
  { intros h'. destruct (decide (h' = h)) as [->|Hn]; [by rewrite lookup_alter_eq, Hx|by rewrite lookup_alter_ne]. }
  split.
  - split; cbn; [|intros h'; rewrite E; case_decide; [by eexists|apply B]|done].
    intros h' y. rewrite E. case_decide as Hd; [|apply A]. intros [= <-]. destruct (A h x Hx) as (H1 & H2 & H3).
    split_and!; [by apply Hf| |by subst]. destruct He as (-> & _). by subst.
  - intros h' y Hy. rewrite E. case_decide as Hd; [|by exists y]. subst. rewrite Hx in Hy. injection Hy as <-. eauto.
Qed.

Lemma grow_set_then {A} h x f (k : unit -> VM A) : evolves x (f x) -> (sock_ok x -> sock_ok (f x)) ->
  (forall a, grow (has h (f x)) (k a)) -> grow (has h x) (mbind (setSocket h f) k).
Proof.
  intros He Hf Hk s Hs. apply (registry_grows_trans _ (snd (setSocket h f s))); [by apply (grow_set h x)|]. apply Hk.
  unfold has in *. cbn. by rewrite lookup_alter_eq, Hs.
Qed.

(** A new socket gets a handle no socket has. *)
Lemma grow_register sock : (forall h, sock_ok (sock h) /\ so_handle (sock h) = h) -> grow (fun _ => True) (registerSocket sock).
Proof.
  intros Hs s _ [A B C]. unfold registerSocket, mbind, mgets, mlift, checked32.
  set (h := g_nextHandle (net s)). assert (sockets (net s) !! h = None) as Hf.
  { destruct (sockets (net s) !! h) as [x|] eqn:E; [|done]. destruct (A h x E) as (_ & _ & H). unfold h in H. lia. }
  destruct (in_int32 (h + 1)); [|by apply grows_same].
  cbn. split.
  - split; cbn.
    + intros h' x. destruct (decide (h' = h)) as [->|Hn].
      * rewrite lookup_insert_eq. intros [= <-]. destruct (Hs h). split_and!; [done|done|lia].
      * rewrite lookup_insert_ne by done. intros Hx. destruct (A h' x Hx) as (H1 & H2 & H3). split_and!; [done|done|unfold h; lia].
    + intros h' [Hin|Hin%list_elem_of_singleton]%elem_of_app; [|subst; rewrite lookup_insert_eq; by eexists].
      destruct (B h' Hin) as [x Hx]. exists x. rewrite lookup_insert_ne; [done|congruence].
    + apply list.NoDup_app. split_and!; [done| |apply NoDup_singleton]. intros h' Hin Hh%list_elem_of_singleton. subst h'.
      destruct (B h Hin) as [x Hx]. congruence.
  - intros h' x Hx. exists x. rewrite lookup_insert_ne; [done|congruence].
Qed.

(** Removing a handle from the registry. *)
Lemma grow_filter (P : VMState -> Prop) keep :
  grow P (mmodify (fun s => modNet (fun n => n <| registered ::= List.filter (keep s n) |>) s)).
Proof.
  intros s _ [A B C]. split; [|intros h x Hx; by exists x]. split; cbn; [done| |].
  - intros h Hin. apply list_elem_of_In, List.filter_In in Hin as [Hin _]. by apply B, list_elem_of_In.
  - apply NoDup_ListNoDup, List.NoDup_filter. by apply NoDup_ListNoDup.
Qed.
Lemma grow_forceRemove P h : grow P (forceRemove h).
Proof. exact (grow_filter P (fun _ _ x => negb (Z.eqb x h))). Qed.

(** The checks in front of an operation. *)
Lemma grow_withSocket h caller k :
  (forall x, sock_ok x -> grow (has h x) (k x)) -> grow (fun _ => True) (withSocket h caller k).
Proof.
  intros Hk s _. unfold withSocket. cbn [mgets mbind]. unfold mbind at 1, mgets at 1.
  unfold findSocket. case_bool_decide as Hr; [|by apply grows_same].
  destruct (sockets (net s) !! h) as [x|] eqn:Hx; [|by apply grows_same].
  destruct (bool_decide (so_state x = ClosedState)); [by apply grows_same|].
  unfold mbind, mgets. destruct (negb _); [by apply grows_same|].
  intros Hok. apply (Hk x); [|done|done]. by apply (each_ok _ Hok h).
Qed.

Lemma evolves_state x x' : so_handle x' = so_handle x -> so_fd x' = so_fd x -> so_mode x' = so_mode x ->
  reaches (so_state x) (so_state x') = true -> evolves x x'.
Proof. by repeat split. Qed.
Lemma state_reaches_refl a : reaches a a = true.
Proof. unfold reaches. by rewrite bool_decide_true. Qed.

(** Goals about the update of one socket whose state is known. *)
Ltac sock :=
  match goal with
  | |- evolves ?x ?y => apply evolves_state; cbn in *; try done; try apply state_reaches_refl;
      try match goal with H : so_state _ = _ |- _ => rewrite H end; try done
  | |- sock_ok ?x -> sock_ok _ => let D := fresh in intros D; destruct D; split; cbn in *; intros;
      repeat match goal with D : ?P -> _, H : ?P |- _ => specialize (D H) end;
      first [assumption | congruence | by left | by right | by auto | intuition congruence]
  end.
#[export] Hint Resolve grow_forceRemove : sock.
#[export] Hint Extern 2 (grow _ _) => (apply grow_quiet; solve [auto with sock nocore]) : sock.

Lemma grow_create m r c caller : grow (fun _ => True) (createSocket m r c caller).
Proof.
  unfold createSocket. destruct (if m =? 1 then _ else _) as [sm|]; [|auto with sock].
  apply grow_bind; [auto with sock|]. intros [f| | |]; try (auto with sock).
  destruct (f <? 0); [auto with sock|]. apply grow_bind; [auto with sock|]. intros opt.
  destruct (failed opt); [apply grow_bind; auto with sock|].
  apply grow_bind; [auto with sock|]. intros nb. destruct (negb nb); [apply grow_bind; auto with sock|].
  apply grow_register. intros h. split; [|done]. split; cbn; try done. by left.
Qed.

Lemma grow_bindOp inet h a caller : grow (fun _ => True) (bind inet h a caller).
Proof.
  apply grow_withSocket. intros x Hx. case_bool_decide as Hu; cbn [negb]; [|auto with sock].
  destruct (match a with Some _ => _ | None => _ end); [auto with sock|].
  apply grow_step; [auto with sock|]. intros r.
  assert (forall y, so_state y = Unbound -> sock_ok y ->
    grow (has h y) (setSocket h (fun x => x <| so_state := Bound |>) ;; mret SocketErr.Success)) as Hlast.
  { intros y Hy Hok. apply grow_set_then; [sock|sock|auto with sock]. }
  assert (grow (has h x) (name <- syscall ;;
        match name with
        | SysPeer 0 a p => setSocket h (fun x => x <| localAddr := a |> <| localPort := p |>)
        | _ => mret tt
        end ;;
        setSocket h (fun x => x <| so_state := Bound |>) ;;
        mret SocketErr.Success)) as Hgo.
  { apply grow_step; [auto with sock|]. intros nm.
    pose proof (grow_step h x (mret tt) _ (quiet_ret tt) (fun _ => Hlast x Hu Hx)) as Hno.
    destruct nm as [| | |[] ad p]; try exact Hno.
    apply grow_set_then; [sock|sock|]. intros _. apply Hlast; [exact Hu|]. revert Hx. sock. }
  destruct r as [n|[]| |]; auto with sock; destruct (failed _); auto with sock.
Qed.

Lemma grow_listen h cb caller : grow (fun _ => True) (listenSocket h cb caller).
Proof.
  apply grow_withSocket. intros x Hx. destruct (so_mode x) eqn:Hm; [|auto with sock].
  destruct (so_state x) eqn:Hu; auto with sock. apply grow_step; [auto with sock|]. intros r.
  destruct (failed r); [auto with sock|]. apply grow_set_then; [sock|sock|auto with sock].
Qed.

Lemma grow_accept h r w caller : grow (fun _ => True) (acceptSocket h r w caller).
Proof.
  apply grow_withSocket. intros x Hx. destruct (so_mode x) eqn:Hm; [|auto with sock].
  case_bool_decide as Hu; cbn [negb]; [|auto with sock].
  apply grow_set_then; [sock|sock|]. intros _. apply grow_weaken, grow_bind; [auto with sock|].
  intros [n|[]| |f ad p]; try (auto with sock). destruct (f <? 0); [auto with sock|].
  apply grow_bind; [auto with sock|]. intros _. apply grow_register. intros nh. split; [|done].
  by split.
Qed.

Lemma grow_connect inet h a r w caller : grow (fun _ => True) (connectSocket inet h a r w caller).
Proof.
  apply grow_withSocket. intros x Hx. destruct (so_mode x) eqn:Hm; [|auto with sock].
  assert (forall host p, so_state x = Unbound \/ so_state x = Bound -> grow (has h x)
    (setSocket h (fun x => x <| readCallback := r |> <| writeCallback := w |>) ;;
     r <- syscall ;;
     match connectError r with
     | Some e => mret e
     | None => setSocket h (fun x => x <| so_state := DataXfer |> <| remoteAddr := host |>
                                        <| remotePort := p |> <| blocked := true |>) ;; mret SocketErr.Success
     end)) as Hgo.
  { intros host p Hs. apply grow_set_then; [sock|sock|]. intros _. apply grow_step; [auto with sock|]. intros c.
    destruct (connectError c); [auto with sock|].
    apply grow_set_then; [destruct Hs; sock|sock|auto with sock]. }
  destruct (so_state x) eqn:Hu; auto with sock;
    destruct (parseHostPort a) as [[host p]|]; auto with sock; destruct (negb _); auto with sock.
  by destruct (never_closed _ Hx).
Qed.

Lemma grow_write inet h m a caller : grow (fun _ => True) (writeSocket inet h m a caller).
Proof.
  apply grow_withSocket. intros x Hx. destruct (data m); auto with sock. destruct (so_mode x) eqn:Hm.
  - unfold writeStream. case_bool_decide as Hu; cbn [negb]; [|auto with sock]. destruct (is_some a); [auto with sock|].
    destruct (blocked x); [auto with sock|]. destruct (String.eqb _ _); [auto with sock|].
    assert (grow (has h x) (forceRemove h ;; mret SocketErr.ESend)) as Hrm by (apply grow_bind; auto with sock).
    apply grow_step; [auto with sock|]. intros [n|[]| |]; auto with sock.
    destruct (n <=? 0); [auto with sock|]. destruct (n <? _); [|auto with sock].
    apply grow_set_then; [sock|sock|auto with sock].
  - unfold writeDatagram. destruct a as [a|]; [|auto with sock]. destruct (parseHostPort a) as [[host p]|]; [|auto with sock].
    destruct (negb _); [auto with sock|]. apply grow_step; auto with sock.
Qed.

Lemma grow_closeOp h caller : grow (fun _ => True) (closeSocket h caller).
Proof. apply grow_withSocket. intros x Hx. apply grow_bind; auto with sock. Qed.
Lemma grow_release h to caller : grow (fun _ => True) (beginRelease h to caller).
Proof.
  apply grow_withSocket. intros x Hx. destruct (released x); [auto with sock|].
  apply grow_set_then; [sock|sock|auto with sock].
Qed.
Lemma grow_acquire h r w c caller : grow (fun _ => True) (acquireSocket h r w c caller).
Proof.
  intros s _. unfold acquireSocket, mbind at 1, mgets at 1. unfold findSocket. case_bool_decide; [|by apply grows_same].
  destruct (sockets (net s) !! h) as [x|] eqn:Hx; [|by apply grows_same].
  destruct (bool_decide (so_state x = ClosedState)); [by apply grows_same|].
  destruct (negb (released x)); [by apply grows_same|]. unfold mbind at 1, mgets.
  destruct (negb _); [by apply grows_same|].
  eapply (grow_set_then h x); [sock|sock|auto with sock|done].
Qed.

(** ** Any operation *)
Lemma grow_op inet op caller : grow (fun _ => True) (socketOp inet op caller).
Proof.
  destruct op; [apply grow_create|apply grow_bindOp|apply grow_listen|apply grow_accept|apply grow_connect|
    apply grow_write|apply grow_closeOp|apply grow_release|apply grow_acquire].
Qed.

(** C13: a socket lives an orderly life.  Every operation, whoever calls it and
    whatever the kernel answers, keeps the registry's invariant (a datagram
    socket never listens or connects, only a listening socket has a pending
    connection, only a connected one is blocked and holds unsent bytes, handles
    are unique and never reused), keeps every socket's handle, descriptor and
    mode, and moves its state only forward, unbound, bound, then listening or
    connected. *)
Theorem socket_lifecycle inet op caller s : sockets_ok (net s) ->
  sockets_ok (net (snd (socketOp inet op caller s))) /\
  forall h x, sockets (net s) !! h = Some x ->
    exists x', sockets (net (snd (socketOp inet op caller s))) !! h = Some x' /\ evolves x x'.
Proof. intros Hok. by apply (grow_op inet op caller s Logic.I). Qed.

(** Only the owner of a socket acts on it.  On a socket that is not the
    caller's, or on a handle that is not in the registry, an operation changes
    nothing at all and answers with one of the three refusals. *)
Theorem socket_owner_only inet op h caller s : owned op = Some h ->
  (forall x, findSocket h (net s) = Some x -> lock s (so_owner x) <> caller) ->
  exists r, socketOp inet op caller s = (Ok r, s) /\ r ∈ [SocketErr.EFdRange; SocketErr.EBadF; SocketErr.ESecurity].
Proof.
  intros Hop Hx.
  assert (forall k, exists r, withSocket h caller k s = (Ok r, s) /\ r ∈ [SocketErr.EFdRange; SocketErr.EBadF; SocketErr.ESecurity]) as Hw.
  { intros k. unfold withSocket, mbind at 1, mgets at 1. destruct (findSocket h (net s)) as [x|] eqn:E.
    - destruct (bool_decide (so_state x = ClosedState)); [eexists; split; [reflexivity|set_solver]|].
      unfold mbind, mgets. rewrite bool_decide_false by (by apply Hx). eexists. split; [reflexivity|set_solver].
    - eexists. split; [reflexivity|set_solver]. }
  destruct op; simpl in Hop; try discriminate Hop; injection Hop as ->; apply Hw.
Qed.

(** ** Witnesses: a stream socket of object 1 *)
Definition witnessSockets : VMState :=
  snd (socketOp (fun _ => None) (OCreate 1 Void Void) (Some 1%positive)
    ((newVM (configFor "fluffos" 1000) {[ 1%positive := newObject "/a" 1%positive emptyProgram false 0 ]} ∅)
       <| net := emptyNet <| syscalls := [SysOk 7; SysOk 0; SysOk 0; SysOk 0; SysOk 0; SysPeer 0 "0.0.0.0" 4000] |> |>)).
Lemma emptyNet_ok : sockets_ok emptyNet.
Proof. split; cbn; [intros h x; by rewrite lookup_empty|intros h Hh; by apply elem_of_nil in Hh|constructor]. Qed.
Lemma witnessSockets_ok : sockets_ok (net witnessSockets).
Proof. apply (grow_op _ (OCreate 1 Void Void)); [done|]. destruct emptyNet_ok as [A B C]. by split. Qed.

Lemma socket_lifecycle_witness :
  sockets_ok (net witnessSockets) /\
  (so_state <$> (sockets (net witnessSockets) !! 0)) = Some Unbound /\
  (so_state <$> (sockets (net (snd (socketOp (fun _ => None) (OBind 0 None) (Some 1%positive) witnessSockets))) !! 0)) = Some Bound /\
  sockets_ok (net (snd (socketOp (fun _ => None) (OBind 0 None) (Some 1%positive) witnessSockets))) /\
  forall h x, sockets (net witnessSockets) !! h = Some x ->
    exists x', sockets (net (snd (socketOp (fun _ => None) (OBind 0 None) (Some 1%positive) witnessSockets))) !! h = Some x' /\ evolves x x'.
Proof.
  split; [exact witnessSockets_ok|]. split; [vm_compute; reflexivity|]. split; [vm_compute; reflexivity|].
  exact (socket_lifecycle (fun _ => None) (OBind 0 None) (Some 1%positive) witnessSockets witnessSockets_ok).
Defined.

Lemma socket_owner_only_witness :
  owned (OClose 0) = Some 0 /\ (exists x, findSocket 0 (net witnessSockets) = Some x) /\
  exists r, socketOp (fun _ => None) (OClose 0) (Some 2%positive) witnessSockets = (Ok r, witnessSockets) /\
    r ∈ [SocketErr.EFdRange; SocketErr.EBadF; SocketErr.ESecurity].
Proof.
  split; [reflexivity|]. split; [vm_compute; eexists; reflexivity|].
  apply (socket_owner_only _ (OClose 0) 0); [reflexivity|]. intros x Hx.
  assert (findSocket 0 (net witnessSockets) = Some (newSocket 0 7 Stream (Some 1%positive))) as E by (vm_compute; reflexivity).
  rewrite E in Hx. injection Hx as <-. vm_compute. discriminate.
Defined.
