(* ===== verification/Server.v ===== *)
(** * Server: src/net/Server.cpp, src/net/SnoopRelay.cpp, src/net/OutputContext.cpp

    Accepting connections, giving their lines to LPC code, and firing the
    callbacks of efun sockets.  What LPC code throws is caught at the edge of
    each line, apply or callback.  [poll] answers through [syscalls] with the
    events that are ready; a datagram takes two entries, its bytes and its
    peer.  What is printed to standard output is left out. *)
From S2P Require Import Prelude CLib Double Value Bytecode Lookup Network Machine Calls VM Registries Connection Sockets.
Local Open Scope Z_scope.

Definition setOutput (c : option cid) : VM unit := mmodify (modNet (fun n => n <| outputContext := c |>)).
Definition logLine (msg : VMState -> string) : VM unit :=
  mmodify (fun s => s <| stderrLog ::= cons (msg s) |>).

(** [try { m } catch (const std::exception& e) { log }] *)
Definition guarded (prefix : string) (m : VM unit) : VM unit :=
  mcatch m (fun e => logLine (fun _ => prefix +:+ what e)).

(** [std::string(buf)] stops at the first NUL. *)
Definition cstr (s : string) : string := fst (span (fun c => negb (Ascii.eqb c NUL)) s).

Section Server.
Context (run : RunFn) (ticks : nat -> Z) (wall : nat -> Z) `{EfunTable} (ops : VMOps).

Definition apply_ (o : option oid) (name : string) (args : list Value) : VM Value :=
  callFunction run ticks o name args Driver.
Definition evaluate (l : loc) (args : list Value) : VM Value := callClosure run ops (op_fuel ops) (Some l) args.

(** [std::time(nullptr)] *)
Definition timeNow : VM Z := fun s => (Ok (wall (clockReads s)), s <| clockReads ::= S |>).

(** ** SnoopRelay *)
Definition deliverToConnection (c : cid) (text : string) : VM unit :=
  send c text ;;
  victim <- getConn boundObject c ;;
  match victim with
  | None => mret tt
  | Some v =>
      snooper <- mgets (fun s => lock s (getOb s snoopedBy None v)) ;;
      match snooper with
      | None => mret tt
      | Some sn => apply_ (Some sn) "receive_snoop" [V (Str text)] ;; mret tt
      end
  end.

(** ** One line of input *)

(** The handler [input_to] registered gets the line. *)
Definition runInputTo (p : PendingInputTo) (line : string) : VM unit :=
  target <- mgets (fun s => lock s (pi_object p)) ;;
  match target with
  | None => mret tt
  | Some t =>
      let callArgs := V (Str line) :: pi_extraArgs p in
      match data (pi_function p) with
      | Fun (Some l) => evaluate l callArgs ;; mret tt
      | Str name => callFunction run ticks (Some t) name callArgs Internal ;; mret tt
      | _ => mret tt
      end
  end.

(** [notify_fail]'s message, when nothing claimed the command. *)
Definition notifyNoCommand (c : cid) : VM unit :=
  pending <- takePendingNotifyFail c ;;
  match data <$> pending with
  | Some (Str msg) => deliverToConnection c msg
  | Some (Fun (Some l)) =>
      result <- evaluate l [] ;;
      match data result with
      | Str msg => deliverToConnection c msg
      | _ => mret tt
      end
  | _ => mret tt
  end.

Definition runCommand (c : cid) (o : oid) (toDispatch : string) : VM unit :=
  claimed <- dispatchCommand run ticks (Some o) toDispatch ;;
  if claimed : bool then mret tt else notifyNoCommand c.

Definition dispatchLine (c : cid) (line : string) : VM unit :=
  now <- timeNow ;;
  touchActivity now c ;;
  clearPendingNotifyFail c ;;
  mmodify resetEvalCost ;;
  pending <- getConn pendingInputTo c ;;
  match pending with
  | Some p => takePendingInputTo c ;; runInputTo p line
  | None =>
      obj <- getConn boundObject c ;;
      match obj with
      | None => mret tt
      | Some o =>
          processed <- apply_ (Some o) "process_input" [V (Str line)] ;;
          match data processed with
          | Str replacement => runCommand c o replacement
          | Int n => if negb (n =? 0) then mret tt else runCommand c o line
          | _ => runCommand c o line
          end
      end
  end.

(** ** A connection's turn *)
Definition fireNetDeadIfLinkDead (c : cid) : VM unit :=
  dead <- getConn closed c ;;
  obj <- getConn boundObject c ;;
  match obj with
  | Some o =>
      if negb dead then mret tt else
      setOutput (Some c) ;;
      guarded "[net] net_dead() failed: " (apply_ (Some o) "net_dead" [] ;; mret tt) ;;
      setOutput None
  | None => mret tt
  end.

(** An apply of the object a connection is bound to, when an update came. *)
Definition fireUpdate (c : cid) (obj : option oid) (had : bool) (name : string)
    (args : Connection -> list Value) : VM unit :=
  match obj with
  | Some o =>
      if negb had then mret tt else
      setOutput (Some c) ;;
      guarded ("[net] " +:+ name +:+ "() failed: ") (a <- getConn args c ;; apply_ (Some o) name a ;; mret tt) ;;
      setOutput None
  | None => mret tt
  end.

(** A line whose handling throws is answered with an error message. *)
Definition runLine (c : cid) (line : string) : VM unit :=
  mcatch (dispatchLine c line) (fun e =>
    logLine (fun _ => "[net] input handling failed (command isolated, connection stays open): " +:+ what e) ;;
    guarded "[net] error-report delivery itself failed: "
      (deliverToConnection c ("Error while processing your command." +:+ str1 NL))).

Fixpoint runLines (c : cid) (ls : list string) : VM unit :=
  match ls with
  | [] => mret tt
  | l :: rest => runLine c l ;; runLines c rest
  end.

Definition handleConnection (c : cid) : VM unit :=
  ls <- pollLines c ;;
  obj <- getConn boundObject c ;;
  resized <- takeWindowSizeUpdate c ;;
  fireUpdate c obj resized "window_size" (fun x => [VInt (terminalWidth x); VInt (terminalHeight x)]) ;;
  typed <- takeTerminalTypeUpdate c ;;
  fireUpdate c obj typed "terminal_type" (fun x => [V (Str (terminalType x))]) ;;
  (match obj, ls with
   | Some _, _ :: _ => setOutput (Some c) ;; runLines c ls ;; setOutput None
   | _, _ => mret tt
   end) ;;
  fireNetDeadIfLinkDead c.

(** ** New connections *)
Definition createConnection (f : Z) : VM cid :=
  now <- timeNow ;;
  c <- mgets (fun s => fresh (dom (conns (net s)))) ;;
  mmodify (modNet (fun n => n <| conns ::= insert c (newConnection f now) |>)) ;;
  mret c.

(** The master did not give an object: the descriptor is closed, and closed
    again by the destructor of the connection. *)
Definition refuseConnection (f : Z) (c : cid) (msg : string) : VM unit :=
  setOutput None ;; logLine (fun _ => msg) ;; closeFd f ;; dropConnection c.

Definition logonConnection (c : cid) (o : oid) : VM unit :=
  attach c (Some o) ;;
  ok <- mcatch (apply_ (Some o) "logon" [] ;; mret true)
          (fun e => setOutput None ;; logLine (fun _ => "[net] logon() failed: " +:+ what e) ;;
                    close c ;; dropConnection c ;; mret false) ;;
  if ok : bool then
    setOutput None ;;
    mmodify (modNet (fun n => n <| connections ::= fun l => l ++ [c] |>))
  else mret tt.

Definition onNewConnection (clientFd : Z) : VM unit :=
  setNonBlocking ;;
  syscall ;;
  c <- createConnection clientFd ;;
  send c (bytes_of startTerminalType) ;;
  send c (bytes_of windowSizeRequest) ;;
  setOutput (Some c) ;;
  result <- mcatch (v <- applyMaster run ticks "connect" [] ;; mret (inl v)) (fun e => mret (inr e)) ;;
  match result with
  | inr e => refuseConnection clientFd c ("[net] master->connect() failed: " +:+ what e)
  | inl v =>
      match data v with
      | Obj (Some o) => logonConnection c o
      | Obj None => refuseConnection clientFd c "[net] master->connect() returned a null object"
      | _ => refuseConnection clientFd c "[net] master->connect() did not return an object; closing connection"
      end
  end.

Fixpoint acceptLoop (fuel : nat) : VM unit :=
  match fuel with
  | O => mlift OutOfFuel
  | S fuel' =>
      r <- syscall ;;
      match r with
      | SysPeer f _ _ => if f <? 0 then mret tt else onNewConnection f ;; acceptLoop fuel'
      | SysErr EAGAIN => mret tt
      | SysErr EINTR => acceptLoop fuel'
      | _ => logLine (fun _ => "[net] accept() failed")
      end
  end.

Definition acceptNewConnections : VM unit :=
  n <- mgets (fun s => length (syscalls (net s))) ;; acceptLoop (S n).

(** ** Efun sockets *)
Definition fireSocketCallback (callback : Value) (owner : option oid) (args : list Value) : VM unit :=
  match data callback with
  | Fun (Some l) => guarded "[net] socket closure callback failed: " (evaluate l args ;; mret tt)
  | Str name =>
      ob <- mgets (fun s => lock s owner) ;;
      match ob with
      | None => mret tt
      | Some o => guarded ("[net] socket callback " +:+ name +:+ "() failed: ")
                    (callFunction run ticks (Some o) name args Internal ;; mret tt)
      end
  | _ => mret tt
  end.

Definition getSocket {A} (f : LpcSocket -> A) (h : Z) : VM A := fun s =>
  match sockets (net s) !! h with
  | Some x => (Ok (f x), s)
  | None => (Undefined "dangling socket", s)
  end.

Definition fireRead (h : Z) (args : list Value) : VM unit :=
  cb <- getSocket readCallback h ;; own <- getSocket so_owner h ;;
  fireSocketCallback cb own (VInt h :: args).

Definition closeSocketAndFireCallback (h : Z) : VM unit :=
  cb <- getSocket closeCallback h ;; own <- getSocket so_owner h ;;
  forceRemove h ;;
  fireSocketCallback cb own [VInt h].

Definition POLLIN : Z := 0.
Definition POLLOUT : Z := 2.
(** Bit [event] of the events poll() reports. *)
Definition ready (event : Z) (r : SysResult) : bool :=
  match r with SysOk n => Z.testbit n event | _ => false end.

Definition pollDatagram (h : Z) : VM unit :=
  r <- syscall ;;
  if negb (ready POLLIN r) then mret tt else
  d <- syscall ;;
  match d with
  | SysBytes s =>
      peer <- syscall ;;
      if String.eqb s "" then mret tt else
      match peer with
      | SysPeer _ a p => fireRead h [V (Str (cstr s)); V (Str (a +:+ " " +:+ to_string p))]
      | _ => mret tt
      end
  | _ => mret tt
  end.

Definition pollListen (h : Z) : VM unit :=
  pending <- getSocket acceptPending h ;;
  if pending : bool then mret tt else
  r <- syscall ;;
  if negb (ready POLLIN r) then mret tt else
  setSocket h (fun x => x <| acceptPending := true |>) ;;
  fireRead h [].

(** The read part of a stream; whether the rest of the turn is skipped. *)
Definition pollStreamRead (h : Z) : VM bool :=
  d <- syscall ;;
  match d with
  | SysBytes s =>
      if String.eqb s "" then closeSocketAndFireCallback h ;; mret true
      else fireRead h [V (Str (cstr s))] ;; mret false
  | SysErr EAGAIN | SysErr EINTR => mret false
  | _ => closeSocketAndFireCallback h ;; mret true
  end.

(** Flush what is pending; whether the socket failed. *)
Definition flushPending (h : Z) : VM bool :=
  pw <- getSocket pendingWrite h ;;
  if String.eqb pw "" then mret false else
  r <- syscall ;;
  match r with
  | SysOk off => setSocket h (fun x => x <| pendingWrite ::= sdrop (Z.to_nat off) |>) ;; mret false
  | SysErr EAGAIN | SysErr EINTR => mret false
  | _ => closeSocketAndFireCallback h ;; mret true
  end.

Definition pollStreamWrite (h : Z) : VM unit :=
  b <- getSocket blocked h ;;
  if negb b then mret tt else
  gone <- flushPending h ;;
  if gone : bool then mret tt else
  pw <- getSocket pendingWrite h ;;
  if negb (String.eqb pw "") then mret tt else
  setSocket h (fun x => x <| blocked := false |>) ;;
  cb <- getSocket writeCallback h ;; own <- getSocket so_owner h ;;
  fireSocketCallback cb own [VInt h].

Definition pollStream (h : Z) : VM unit :=
  r <- syscall ;;
  gone <- (if ready POLLIN r then pollStreamRead h else mret false) ;;
  if gone : bool then mret tt else
  if ready POLLOUT r then pollStreamWrite h else mret tt.

Definition pollSocket (h : Z) : VM unit :=
  sock <- getSocket id h ;;
  if so_fd sock <? 0 then mret tt else
  match so_mode sock, so_state sock with
  | Datagram, _ => pollDatagram h
  | _, Listen => pollListen h
  | _, DataXfer => pollStream h
  | _, _ => mret tt
  end.

Fixpoint pollEach (hs : list Z) : VM unit :=
  match hs with
  | [] => mret tt
  | h :: rest => pollSocket h ;; pollEach rest
  end.

Context (hashOrder : list Z -> list Z).
Definition pollSockets : VM unit :=
  hs <- mgets (fun s => allSockets hashOrder (net s)) ;; pollEach hs.

(** ** The poll of the backend loop *)
Fixpoint handleAll (cs : list cid) : VM unit :=
  match cs with
  | [] => mret tt
  | c :: rest =>
      f <- getConn fd c ;;
      (if 0 <=? f then handleConnection c else mret tt) ;;
      handleAll rest
  end.

(** The closed connections leave the table, and are destroyed. *)
Fixpoint pruneClosed (cs : list cid) : VM unit :=
  match cs with
  | [] => mret tt
  | c :: rest =>
      dead <- getConn closed c ;;
      (if dead : bool then
         mmodify (modNet (fun n => n <| connections ::= List.filter (fun x => negb (Pos.eqb x c)) |>)) ;;
         dropConnection c
       else mret tt) ;;
      pruneClosed rest
  end.

Definition pollOnce : VM unit :=
  l <- mgets (fun s => listenFd (net s)) ;;
  if l <? 0 then mret tt else
  acceptNewConnections ;;
  cs <- mgets (fun s => connections (net s)) ;;
  handleAll cs ;;
  pollSockets ;;
  cs <- mgets (fun s => connections (net s)) ;;
  pruneClosed cs.
End Server.
