(* ===== verification/ServerFacts.v ===== *)
(** * ServerFacts: no LPC error leaves the network code, closed connections go

    [nothrow m]: [m] never ends in a C++ exception, whatever the efuns and the
    program store do. *)
From S2P Require Import Prelude CLib Double Value Bytecode Lookup Network Machine Calls VM Registries Connection InteractiveFacts Sockets Server.
Local Open Scope Z_scope.

Definition nothrow {S E A} (m : M S E A) : Prop := forall s e s', m s <> (Throw e, s').

Lemma nothrow_ret {S E A} (a : A) : nothrow (mret (S := S) (E := E) a).
Proof. by intros s e s'. Qed.
Lemma nothrow_gets {S E A} (f : S -> A) : nothrow (mgets (E := E) f).
Proof. by intros s e s'. Qed.
Lemma nothrow_modify {S E} (f : S -> S) : nothrow (mmodify (E := E) f).
Proof. by intros s e s'. Qed.
Lemma nothrow_fuel {S E A} : nothrow (mlift (S := S) (@OutOfFuel E A)).
Proof. by intros s e s'. Qed.
Lemma nothrow_bind {S E A B} (m : M S E A) (k : A -> M S E B) :
  nothrow m -> (forall a, nothrow (k a)) -> nothrow (mbind m k).
Proof. intros Hm Hk s e s'. unfold mbind. specialize (Hm s). destruct (m s) as [[]]; try done; [apply Hk|naive_solver]. Qed.
(** A handler catches whatever its body throws. *)
Lemma nothrow_catch {S E A} (m : M S E A) h : (forall e, nothrow (h e)) -> nothrow (mcatch m h).
Proof. intros Hh s e s'. unfold mcatch. destruct (m s) as [[]]; try done. apply Hh. Qed.
Lemma nothrow_getConn {A} (f : Connection -> A) c : nothrow (getConn f c).
Proof. intros s e s'. unfold getConn. by destruct (conns (net s) !! c). Qed.
Lemma nothrow_getSocket {A} (f : LpcSocket -> A) h : nothrow (getSocket f h).
Proof. intros s e s'. unfold getSocket. by destruct (sockets (net s) !! h). Qed.
Lemma nothrow_syscall : nothrow syscall.
Proof. intros s e s'. unfold syscall. by destruct (syscalls (net s)). Qed.

Create HintDb nothrow.
#[export] Hint Resolve nothrow_ret nothrow_gets nothrow_modify nothrow_fuel nothrow_getConn nothrow_getSocket
  nothrow_syscall : nothrow.
Ltac nothrow :=
  repeat first
    [ solve [auto 1 with nothrow nocore]
    | apply nothrow_catch; intros ?
    | apply nothrow_bind; [|intros ?]
    | match goal with |- nothrow (match ?x with _ => _ end) => destruct x end ].

Lemma nothrow_logLine f : nothrow (logLine f).
Proof. unfold logLine. nothrow. Qed.
Lemma nothrow_setOutput c : nothrow (setOutput c).
Proof. unfold setOutput. nothrow. Qed.
Lemma nothrow_guarded p m : nothrow (guarded p m).
Proof. apply nothrow_catch. intros e. apply nothrow_logLine. Qed.
Lemma nothrow_setSocket h f : nothrow (setSocket h f).
Proof. unfold setSocket. nothrow. Qed.
Lemma nothrow_forceRemove h : nothrow (forceRemove h).
Proof. unfold forceRemove. nothrow. Qed.
Lemma nothrow_send c d : nothrow (send c d).
Proof. unfold send. nothrow. Qed.
#[export] Hint Resolve nothrow_logLine nothrow_setOutput nothrow_guarded nothrow_setSocket nothrow_forceRemove
  nothrow_send : nothrow.

Lemma nothrow_sendAll c ds : nothrow (sendAll c ds).
Proof. induction ds; cbn [sendAll]; nothrow. Qed.
#[export] Hint Resolve nothrow_sendAll : nothrow.
Lemma nothrow_pollLines c : nothrow (pollLines c).
Proof. unfold pollLines. nothrow. Qed.
Lemma nothrow_close c : nothrow (close c).
Proof. unfold close, releaseObject. nothrow. Qed.
#[export] Hint Resolve nothrow_pollLines nothrow_close : nothrow.
Lemma nothrow_drop c : nothrow (dropConnection c).
Proof. unfold dropConnection. nothrow. Qed.
Lemma nothrow_attach c o : nothrow (attach c o).
Proof. unfold attach. nothrow. Qed.
Lemma nothrow_takeSize c : nothrow (takeWindowSizeUpdate c).
Proof. unfold takeWindowSizeUpdate. nothrow. Qed.
Lemma nothrow_takeType c : nothrow (takeTerminalTypeUpdate c).
Proof. unfold takeTerminalTypeUpdate. nothrow. Qed.
Lemma nothrow_nonblock : nothrow setNonBlocking.
Proof. unfold setNonBlocking. nothrow. Qed.
#[export] Hint Resolve nothrow_takeSize nothrow_takeType nothrow_drop nothrow_attach nothrow_nonblock : nothrow.

Section Facts.
Context (run : RunFn) (ticks wall : nat -> Z) `{EfunTable} (ops : VMOps).

Lemma nothrow_netDead c : nothrow (fireNetDeadIfLinkDead run ticks c).
Proof. unfold fireNetDeadIfLinkDead. nothrow. Qed.
Lemma nothrow_fireUpdate c obj had name a : nothrow (fireUpdate run ticks c obj had name a).
Proof. unfold fireUpdate. nothrow. Qed.
Lemma nothrow_runLines c ls : nothrow (runLines run ticks wall ops c ls).
Proof.
  induction ls as [|l ls IH]; cbn [runLines]; [nothrow|]. apply nothrow_bind; [|by intros].
  unfold runLine. nothrow.
Qed.
#[local] Hint Resolve nothrow_netDead nothrow_fireUpdate nothrow_runLines : nothrow.
Lemma nothrow_handleConnection c : nothrow (handleConnection run ticks wall ops c).
Proof. unfold handleConnection. nothrow. Qed.
#[local] Hint Resolve nothrow_handleConnection : nothrow.
Lemma nothrow_handleAll cs : nothrow (handleAll run ticks wall ops cs).
Proof. induction cs; cbn [handleAll]; nothrow. Qed.

Lemma nothrow_refuse f c m : nothrow (refuseConnection f c m).
Proof. unfold refuseConnection, closeFd. nothrow. Qed.
Lemma nothrow_onNewConnection f : nothrow (onNewConnection run ticks wall f).
Proof.
  assert (nothrow (timeNow wall)) as Ht by (by intros s e s').
  assert (forall c o, nothrow (logonConnection run ticks c o)) as Hl by (intros; unfold logonConnection; nothrow).
  pose proof nothrow_refuse. unfold onNewConnection, createConnection. nothrow.
Qed.
#[local] Hint Resolve nothrow_handleAll nothrow_onNewConnection : nothrow.
Lemma nothrow_accept n : nothrow (acceptLoop run ticks wall n).
Proof. induction n; cbn [acceptLoop]; nothrow. Qed.
#[local] Hint Resolve nothrow_accept : nothrow.

Lemma nothrow_callback cb o a : nothrow (fireSocketCallback run ticks ops cb o a).
Proof. unfold fireSocketCallback. nothrow. Qed.
#[local] Hint Resolve nothrow_callback : nothrow.
Lemma nothrow_fireRead h a : nothrow (fireRead run ticks ops h a).
Proof. unfold fireRead. nothrow. Qed.
Lemma nothrow_closeFire h : nothrow (closeSocketAndFireCallback run ticks ops h).
Proof. unfold closeSocketAndFireCallback. nothrow. Qed.
#[local] Hint Resolve nothrow_fireRead nothrow_closeFire : nothrow.
Lemma nothrow_flush h : nothrow (flushPending run ticks ops h).
Proof. unfold flushPending. nothrow. Qed.
Lemma nothrow_streamRead h : nothrow (pollStreamRead run ticks ops h).
Proof. unfold pollStreamRead. nothrow. Qed.
#[local] Hint Resolve nothrow_flush nothrow_streamRead : nothrow.
Lemma nothrow_pollSocket h : nothrow (pollSocket run ticks ops h).
Proof. unfold pollSocket, pollDatagram, pollListen, pollStream, pollStreamWrite. nothrow. Qed.
#[local] Hint Resolve nothrow_pollSocket : nothrow.
Lemma nothrow_pollEach hs : nothrow (pollEach run ticks ops hs).
Proof. induction hs; cbn [pollEach]; nothrow. Qed.
Lemma nothrow_prune cs : nothrow (pruneClosed cs).
Proof. induction cs; cbn [pruneClosed]; nothrow. Qed.
#[local] Hint Resolve nothrow_pollEach nothrow_prune : nothrow.
Lemma nothrow_pollOnce order : nothrow (pollOnce run ticks wall ops order).
Proof. unfold pollOnce, acceptNewConnections, pollSockets. nothrow. Qed.

(** ** What the last part of a poll does *)
Lemma drop_run s c x : conns (net s) !! c = Some x ->
  exists s', dropConnection c s = (Ok tt, s') /\ conns (net s') = delete c (conns (net s)) /\
    connections (net s') = connections (net s).
Proof.
  intros Hx. unfold dropConnection. destruct (close_run s c x Hx) as (s1 & E & _ & Hc & _ & _).
  assert (connections (net s1) = connections (net s)) as Hl.
  { revert E. unfold close, releaseObject, mbind, mgets, mmodify, mret. rewrite (getConn_run _ _ _ _ Hx).
    destruct (boundObject x) as [b|].
    - destruct (lock s _); erewrite getConn_run by (apply setConn_self; exact Hx); destruct (0 <=? _); by intros [= <-].
    - rewrite (getConn_run _ _ _ _ Hx). destruct (0 <=? _); by intros [= <-]. }
  erewrite mbind_run by exact E. eexists. split; [reflexivity|]. cbn. rewrite Hc. split; [apply delete_insert_eq|done].
Qed.

(** One step of the pruning. *)
Lemma prune_cons c cs s s' : pruneClosed (c :: cs) s = (Ok tt, s') ->
  exists x s1, conns (net s) !! c = Some x /\ pruneClosed cs s1 = (Ok tt, s') /\
    if closed x then conns (net s1) = delete c (conns (net s)) /\
                     connections (net s1) = List.filter (fun y => negb (Pos.eqb y c)) (connections (net s))
    else s1 = s.
Proof.
  cbn [pruneClosed]. intros Hp. apply mbind_ok in Hp as (d & s0 & E & Hp). unfold getConn in E.
  destruct (conns (net s) !! c) as [x|] eqn:Hx; [|done]. injection E as <- <-.
  apply mbind_ok in Hp as ([] & s1 & E & Hp). exists x, s1. split_and!; [done|done|]. destruct (closed x); [|by injection E].
  apply mbind_ok in E as ([] & s2 & E2 & E). injection E2 as <-.
  match type of E with dropConnection c ?s0 = _ => destruct (drop_run s0 c x Hx) as (s3 & E3 & H2 & H3) end.
  rewrite E in E3. by injection E3 as <-.
Qed.
Lemma prune_frame cs : forall s s', pruneClosed cs s = (Ok tt, s') ->
  (forall c, c ∈ connections (net s') -> c ∈ connections (net s)) /\
  (forall c, c ∉ cs -> conns (net s') !! c = conns (net s) !! c).
Proof.
  induction cs as [|c cs IH]; intros s s' Hp; [by injection Hp as <-|].
  apply prune_cons in Hp as (x & s1 & Hx & Hp & Hs). apply IH in Hp as [H1 H2]. destruct (closed x).
  - destruct Hs as [Hc Hl]. split.
    + intros c' Hin. apply H1 in Hin. rewrite Hl in Hin. apply list_elem_of_In, List.filter_In in Hin.
      apply list_elem_of_In, Hin.
    + intros c' Hin. rewrite H2 by set_solver. rewrite Hc, lookup_delete_ne; [done|set_solver].
  - subst s1. split; [done|]. intros c' Hin. apply H2. set_solver.
Qed.
Lemma prune_open cs : forall s s', pruneClosed cs s = (Ok tt, s') ->
  forall c, c ∈ cs -> c ∈ connections (net s') -> exists x, conns (net s') !! c = Some x /\ closed x = false.
Proof.
  induction cs as [|c0 cs IH]; intros s s' Hp c Hc Hin; [by apply elem_of_nil in Hc|].
  apply prune_cons in Hp as (x & s1 & Hx & Hp & Hs). destruct (decide (c ∈ cs)) as [Hcs|Hcs]; [by eapply IH|].
  apply elem_of_cons in Hc as [->|Hc]; [|done]. destruct (prune_frame _ _ _ Hp) as [H1 H2]. destruct (closed x) eqn:Hd.
  - destruct Hs as [_ Hl]. apply H1 in Hin. rewrite Hl in Hin. apply list_elem_of_In, List.filter_In in Hin as [_ Hf].
    by rewrite Pos.eqb_refl in Hf.
  - subst s1. exists x. by rewrite H2.
Qed.

(** C9: the network survives every error of LPC code.  Whatever the efuns and
    the programs do, polling the network never ends in an exception; and when
    it returns, no connection that is closed is left in the table.  (That it
    returns is not claimed: LPC code that resets its cost may run for ever.) *)
Theorem pollOnce_survives order s :
  (forall e s', pollOnce run ticks wall ops order s <> (Throw e, s')) /\
  forall s', pollOnce run ticks wall ops order s = (Ok tt, s') -> 0 <= listenFd (net s) ->
    forall c, c ∈ connections (net s') -> exists x, conns (net s') !! c = Some x /\ closed x = false.
Proof.
  split; [apply nothrow_pollOnce|]. intros s' Hp Hl c Hin. unfold pollOnce in Hp.
  apply mbind_ok in Hp as (l & s1 & E & Hp). unfold mgets in E. injection E as <- <-.
  rewrite (proj2 (Z.ltb_ge _ _) Hl) in Hp. do 3 (apply mbind_ok in Hp as (? & ? & _ & Hp)).
  apply mbind_ok in Hp as (? & ? & _ & Hp). apply mbind_ok in Hp as (cs & s2 & E & Hp). unfold mgets in E. injection E as <- <-.
  eapply prune_open; [exact Hp| |exact Hin]. by eapply prune_frame.
Qed.
End Facts.

(** A peer that is gone, and a listening socket with nobody waiting. *)
Definition witnessPoll : VMState :=
  witnessVM <| net := witnessNet <| connections := [1%positive] |> <| listenFd := 3 |>
                                 <| kernelReads := {[ 5 := [RBytes "look"; RBytes ""] ]} |> |>.
Lemma pollOnce_survives_witness (noEfuns := (fun _ => None) : EfunTable) :
  let poll := pollOnce (run (fun _ => 0) 10) (fun _ => 0) (fun _ => 0) (vmOps (fun _ => 0) 10) (fun l => l) in
  0 <= listenFd (net witnessPoll) /\ connections (net witnessPoll) = [1%positive] /\
  fst (poll witnessPoll) = Ok tt /\ connections (net (snd (poll witnessPoll))) = [] /\
  (forall e s', poll witnessPoll <> (Throw e, s')) /\
  forall s', poll witnessPoll = (Ok tt, s') -> 0 <= listenFd (net witnessPoll) ->
    forall c, c ∈ connections (net s') -> exists x, conns (net s') !! c = Some x /\ closed x = false.
Proof.
  cbv zeta. split; [done|]. split; [reflexivity|]. split; [vm_compute; reflexivity|]. split; [vm_compute; reflexivity|].
  apply (pollOnce_survives (run (fun _ => 0) 10) (fun _ => 0) (fun _ => 0) (vmOps (fun _ => 0) 10) (fun l => l) witnessPoll).
Defined.
