(* ===== verification/Scheduler.v ===== *)
(** * Scheduler: call_outs, heartbeats, resets and clean-up

    src/scheduler/Scheduler.cpp.  The two pending lists and the handle counter
    are the scheduler's own state, the field [sched] of the machine; [tick*]
    take the entries to fire out of it before they run any LPC code, which may
    add or remove entries, and log what it throws.  Times are nanoseconds of
    the steady clock. *)
From S2P Require Import Prelude CLib Double Value Bytecode Lookup Machine Exec Calls VM Registries.
Local Open Scope Z_scope.

Definition sec : Z := 10 ^ 9.
Definition kHeartbeatCycle : Z := 2 * sec.

Definition newScheduler (now : Z) : Scheduler := mkScheduler [] [] now 1.

(** The handle of the entry given is ignored: a fresh one is drawn. *)
Definition addCallOut (e : CallOutEntry) (s : Scheduler) : Z * Scheduler :=
  (nextHandle s, s <| callOuts ::= fun l => l ++ [e <| handle := nextHandle s |>] |>
                   <| nextHandle ::= Z.add 1 |>).

Definition remainingSeconds (now due : Z) : Z :=
  if due <=? now then 0 else Z.quot (due - now) sec.

(** The first entry that satisfies [p], and the list without it. *)
Fixpoint extract {A} (p : A -> bool) (l : list A) : option (A * list A) :=
  match l with
  | [] => None
  | x :: l' => if p x then Some (x, l')
               else (fun '(y, r) => (y, x :: r)) <$> extract p l'
  end.

Definition byName (v : VMState) (owner : oid) (fn : string) (e : CallOutEntry) : bool :=
  negb (is_some (closureRef e)) && bool_decide (lock v (target e) = Some owner)
  && String.eqb (function e) fn.
Definition byHandle (h : Z) (e : CallOutEntry) : bool := handle e =? h.

Definition removeFirst (p : CallOutEntry -> bool) (now : Z) (s : Scheduler) : Z * Scheduler :=
  match extract p (callOuts s) with
  | Some (e, l) => (remainingSeconds now (dueAt e), s <| callOuts := l |>)
  | None => (-1, s)
  end.

Definition findFirst (p : CallOutEntry -> bool) (now : Z) (s : Scheduler) : Z :=
  match List.find p (callOuts s) with
  | Some e => remainingSeconds now (dueAt e)
  | None => -1
  end.

Definition removeCallOutByName (v : VMState) (owner : option oid) (fn : string) (now : Z)
    (s : Scheduler) : Z * Scheduler :=
  match owner with None => (-1, s) | Some o => removeFirst (byName v o fn) now s end.
Definition removeCallOutByHandle (h now : Z) (s : Scheduler) : Z * Scheduler :=
  removeFirst (byHandle h) now s.
Definition findCallOutByName (v : VMState) (owner : option oid) (fn : string) (now : Z)
    (s : Scheduler) : Z :=
  match owner with None => -1 | Some o => findFirst (byName v o fn) now s end.
Definition findCallOutByHandle (h now : Z) (s : Scheduler) : Z := findFirst (byHandle h) now s.

(** The live owner of an entry: of its closure, or its target. *)
Definition entryOwner (v : VMState) (e : CallOutEntry) : option oid :=
  match closureRef e with
  | Some c => lock v (owner (closure (hp v) c))
  | None => lock v (target e)
  end.

Definition ownedOrDead (v : VMState) (obj : option oid) (e : CallOutEntry) : bool :=
  match entryOwner v e with
  | None => true
  | Some o => bool_decide (obj = Some o) || isDestructed v o
  end.

Definition removeAllCallOutsForObject (v : VMState) (obj : option oid) (s : Scheduler) : Scheduler :=
  s <| callOuts ::= List.filter (fun e => negb (ownedOrDead v obj e)) |>.

(** ** Heartbeats *)
Definition isTarget (v : VMState) (o : oid) (e : HeartbeatEntry) : bool :=
  bool_decide (lock v (hbTarget e) = Some o).

Fixpoint updateFirst {A} (p : A -> bool) (f : A -> A) (l : list A) : list A :=
  match l with
  | [] => []
  | x :: l' => if p x then f x :: l' else x :: updateFirst p f l'
  end.

Definition setInterval (o : oid) (n : Z) (v : VMState) : VMState :=
  setOb o (fun ob => ob <| heartbeatInterval := n |>) v.

Definition setHeartbeatInterval (obj : option oid) (to : Z) (v : VMState) (s : Scheduler)
    : VMState * Scheduler :=
  match obj with
  | None => (v, s)
  | Some o =>
      if to =? 0 then
        (setInterval o 0 v,
         match extract (isTarget v o) (heartbeats s) with
         | Some (_, l) => s <| heartbeats := l |>
         | None => s
         end)
      else if existsb (isTarget v o) (heartbeats s) then
        if to <? 0 then (v, s)
        else (setInterval o (wrap32 to) v,
              s <| heartbeats ::= updateFirst (isTarget v o)
                     (fun e => mkHeartbeat (hbTarget e) (wrap32 to)) |>)
      else
        let interval := if to <? 0 then 1 else wrap32 to in
        (setInterval o interval v,
         s <| heartbeats ::= fun l => l ++ [mkHeartbeat (Some o) interval] |>)
  end.

(** One pass over the entries: expired ones go, the others count down, and
    those that reach zero are rearmed and due.  The counter is an [int]. *)
Fixpoint countDown (v : VMState) (l : list HeartbeatEntry)
    : outcome exn (list HeartbeatEntry * list oid) :=
  match l with
  | [] => Ok ([], [])
  | e :: l' =>
      match lock v (hbTarget e) with
      | None => countDown v l'
      | Some o =>
          let! t := checked32 (ticksRemaining e - 1) in
          let! '(rest, due) := countDown v l' in
          Ok (if t <? 1
              then (mkHeartbeat (hbTarget e) (getOb v heartbeatInterval 0 o) :: rest, o :: due)
              else (mkHeartbeat (hbTarget e) t :: rest, due))
      end
  end.

(** [try { m } catch (const std::exception& e) { std::cerr << prefix << e.what(); }]:
    all exceptions of the driver derive from [std::exception]. *)
Definition logged {A} (prefix : VMState -> string) (m : VM A) : VM unit :=
  mcatch (m ;; mret tt)
    (fun e => mmodify (fun s => s <| stderrLog ::= cons (prefix s +:+ what e) |>)).

(** The object at the inner end of the [shadowing] chain. *)
Fixpoint innermostShadowed (fuel : nat) (o : oid) (s : VMState) : outcome exn oid :=
  match fuel with
  | O => OutOfFuel
  | S f => match lock s (getOb s shadowing None o) with
           | Some t => innermostShadowed f t s
           | None => Ok o
           end
  end.

Section Ticks.
Context (run : RunFn) (ticks : nat -> Z).

Definition nowVM : VM Z := fun s => (Ok (ticks (clockReads s)), s <| clockReads ::= S |>).

Definition fireHeartbeat (o : oid) : VM unit :=
  logged (fun s => "[heart_beat] " +:+ fileOf s o +:+ ": ")
    (mmodify resetEvalCost ;;
     giver <- liftS (fun s => innermostShadowed (shadowFuel s) o s) ;;
     enabled <- mgets (fun s => getOb s commandsEnabled false giver) ;;
     withCommandGiver (if enabled : bool then Some giver else None)
       (callFunction run ticks (Some o) "heart_beat" [] Driver)).

Fixpoint fireAll {A} (f : A -> VM unit) (l : list A) : VM unit :=
  match l with [] => mret tt | x :: l' => f x ;; fireAll f l' end.

Definition modSched (f : Scheduler -> Scheduler) (v : VMState) : VMState := v <| sched ::= f |>.

Definition tickHeartbeats : VM unit :=
  counted <- liftS (fun v => countDown v (heartbeats (sched v))) ;;
  mmodify (modSched (fun s => s <| heartbeats := fst counted |>)) ;;
  fireAll fireHeartbeat (snd counted).

(** ** call_outs *)
Definition isDue (now : Z) (e : CallOutEntry) : bool := dueAt e <=? now.

Context `{EfunTable} (ops : VMOps).

Definition fireCallOut (e : CallOutEntry) : VM unit :=
  match closureRef e with
  | Some c =>
      logged (fun _ => "[call_out] (closure): "%string)
        (mmodify resetEvalCost ;; callClosure run ops (op_fuel ops) (Some c) (args e))
  | None =>
      obj <- mgets (fun s => lock s (target e)) ;;
      match obj with
      | None => mret tt
      | Some o =>
          logged (fun s => "[call_out] " +:+ fileOf s o +:+ "::" +:+ function e +:+ "(): ")
            (mmodify resetEvalCost ;;
             callFunction run ticks (Some o) (function e) (args e) Internal)
      end
  end.

Definition splitDue (now : Z) (l : list CallOutEntry) : list CallOutEntry * list CallOutEntry :=
  (List.filter (isDue now) l, List.filter (fun e => negb (isDue now e)) l).

Definition tickCallOuts : VM unit :=
  now <- nowVM ;;
  due <- mgets (fun v => fst (splitDue now (callOuts (sched v)))) ;;
  mmodify (modSched (fun s => s <| callOuts := snd (splitDue now (callOuts s)) |>)) ;;
  fireAll fireCallOut due.

(** ** Resets and clean-up *)
Definition kHReset : Z := 7.
Definition kHCleanUp : Z := 8.
Definition kTimeToReset : Z := 1800.
Definition kTimeToCleanUp : Z := 3600 * sec.

Definition hookFunctionName (hookNum : Z) (fallback : string) (s : VMState) : string :=
  match data (getDriverHook hookNum s) with Str name => name | _ => fallback end.

(** The seconds the reset jitter draws for an object. *)
Context (jitter : oid -> Z).

Definition armResetVM (o : oid) : VM unit :=
  t <- nowVM ;; mmodify (setOb o (armReset t kTimeToReset (jitter o))).

(** The reset part; whether a real reset was called this cycle. *)
Definition resetObject (now : Z) (o : oid) : VM bool :=
  due <- mgets (fun s => getOb s timeReset 0 o <=? now) ;;
  if negb due then mret false else
  quiet <- mgets (fun s => getOb s resetState false o) ;;
  if quiet : bool then armResetVM o ;; mret false else
  armResetVM o ;;
  resetFn <- mgets (hookFunctionName kHReset "reset") ;;
  ex <- functionExists (Some o) resetFn ;;
  (if ex : bool then
     logged (fun s => "[reset] " +:+ fileOf s o +:+ ": ")
       (mmodify resetEvalCost ;; callFunction run ticks (Some o) resetFn [] Driver)
   else mmodify (setOb o disableReset)) ;;
  gone <- mgets (fun s => isDestructed s o) ;;
  (if gone : bool then mret tt else mmodify (setOb o (fun ob => ob <| resetState := true |>))) ;;
  mret true.

(** The result of [clean_up], void when it threw. *)
Definition callCleanUp (o : oid) : VM Value :=
  fn <- mgets (hookFunctionName kHCleanUp "clean_up") ;;
  clone <- mgets (fun s => getOb s isClone false o) ;;
  mcatch (mmodify resetEvalCost ;;
          callFunction run ticks (Some o) fn [VInt (if clone : bool then 0 else 1)] Driver)
    (fun e => mmodify (fun s => s <| stderrLog ::=
        cons ("[clean_up] " +:+ fileOf s o +:+ ": " +:+ what e) |>) ;; mret Void).

Definition cleanUpObject (o : oid) : VM unit :=
  saved <- mgets (fun s => getOb s resetState false o) ;;
  result <- callCleanUp o ;;
  gone <- mgets (fun s => isDestructed s o) ;;
  if gone : bool then mret tt else
  (if isTruthy result then mret tt
   else mmodify (setOb o (fun ob => ob <| willCleanUp := false |>))) ;;
  mmodify (setOb o (fun ob => ob <| resetState := saved |>)).

Definition tickObject (dialect : LpcDialect) (now : Z) (o : oid) : VM unit :=
  gone <- mgets (fun s => isDestructed s o) ;;
  if gone : bool then mret tt else
  ready <- mgets (fun s => getOb s willCleanUp false o
                           && (kTimeToCleanUp <? now - getOb s timeOfRef 0 o)) ;;
  resetCalled <- resetObject now o ;;
  gone <- mgets (fun s => isDestructed s o) ;;
  if gone : bool then mret tt else
  if ready && negb (resetCalled && bool_decide (dialect = LdMud)) then cleanUpObject o
  else mret tt.

Definition tickResetsAndCleanup (registry : list oid) : VM unit :=
  d <- mgets (fun s => dialectFromString (cfg_dialect (config s))) ;;
  dialect <- mlift d ;;
  now <- nowVM ;;
  obs <- mgets (fun s => LiveObjects.all s registry) ;;
  fireAll (tickObject dialect now) obs.

(** ** The backend loop

    [server.pollOnce()] (see Server.v) and [vm_.resumeReadyAsyncTasks(now)],
    the coroutines of runAsync, are parameters. *)
Context (pollOnce : VM unit) (resumeReadyAsyncTasks : Z -> VM unit).
Context (shutdownRequested : VMState -> bool) (registry : VMState -> list oid).

Definition runOnce : VM unit :=
  pollOnce ;;
  mmodify processPendingReplacePrograms ;;
  now <- nowVM ;;
  due <- mgets (fun v => kHeartbeatCycle <=? now - lastHeartbeat (sched v)) ;;
  (if due : bool then
     mmodify (modSched (fun s => s <| lastHeartbeat := now |>)) ;;
     tickHeartbeats ;;
     reg <- mgets registry ;;
     tickResetsAndCleanup reg
   else mret tt) ;;
  tickCallOuts ;;
  resumeReadyAsyncTasks now.

(** [Scheduler::run(server, maxIterations)] with a positive bound. *)
Fixpoint runLoop (iterations : nat) : VM unit :=
  match iterations with
  | O => mret tt
  | S n =>
      runOnce ;;
      stop <- mgets shutdownRequested ;;
      if stop : bool then mret tt else runLoop n
  end.
End Ticks.
