(* ===== verification/SchedulerFacts.v ===== *)
(** * SchedulerFacts: call_outs and heartbeats

    Handles are unique along every run of the scheduler's operations; a tick
    fires the due call_outs in order and survives what they throw; heartbeats
    are at most one per object and come at their interval. *)
From S2P Require Import Prelude CLib Double Value Bytecode Lookup Machine Exec Calls CallsFacts VM Discipline Registries Scheduler.
From Stdlib Require Import Sorted.
Local Open Scope Z_scope.

(** ** Lists *)
Lemma extract_some {A} (p : A -> bool) l x r :
  extract p l = Some (x, r) ->
  exists l1 l2, l = l1 ++ x :: l2 /\ r = l1 ++ l2 /\ p x = true /\ Forall (fun y => p y = false) l1.
Proof.
  revert x r. induction l as [|y l IH]; simpl; intros x r; [done|].
  destruct (p y) eqn:Ey; [intros [= <- <-]; by exists [], l|].
  destruct (extract p l) as [[z r']|]; [|done]. intros [= <- <-].
  destruct (IH z r' eq_refl) as (l1 & l2 & -> & -> & Hp & H1).
  exists (y :: l1), l2. split_and!; auto.
Qed.

Lemma extract_none {A} (p : A -> bool) l : extract p l = None -> Forall (fun y => p y = false) l.
Proof.
  induction l as [|y l IH]; simpl; [done|].
  destruct (p y) eqn:Ey; [done|]. destruct (extract p l) as [[]|]; [done|]. auto.
Qed.

Lemma filter_sublist {A} (p : A -> bool) l : List.filter p l `sublist_of` l.
Proof. induction l as [|x l IH]; simpl; [constructor|]. destruct (p x); by constructor. Qed.

Lemma sorted_sublist {A} (f : A -> Z) l k :
  l `sublist_of` k -> StronglySorted Z.lt (f <$> k) -> StronglySorted Z.lt (f <$> l).
Proof.
  induction 1 as [|x l k Hs IH|x l k Hs IH]; simpl; intros H; auto; inversion H; subst; auto.
  constructor; auto. apply list.Forall_forall. intros y Hy.
  apply list_elem_of_fmap in Hy as (z & -> & Hz).
  assert (f z ∈ f <$> k) as Hk by (apply list_elem_of_fmap_2; by eapply elem_of_sublist).
  by apply (proj1 (list.Forall_forall _ _) ltac:(eassumption)).
Qed.

(** ** Handles *)
Inductive sched_step : Scheduler -> Scheduler -> Prop :=
  | step_add e s : sched_step s (snd (addCallOut e s))
  | step_remove_name v o f now s : sched_step s (snd (removeCallOutByName v o f now s))
  | step_remove_handle h now s : sched_step s (snd (removeCallOutByHandle h now s))
  | step_remove_all v o s : sched_step s (removeAllCallOutsForObject v o s)
  | step_take now s : sched_step s (s <| callOuts := snd (splitDue now (callOuts s)) |>)
  | step_set_heart_beat o n v s : sched_step s (snd (setHeartbeatInterval o n v s))
  | step_count v s c : countDown v (heartbeats s) = Ok c -> sched_step s (s <| heartbeats := fst c |>)
  | step_cycle now s : sched_step s (s <| lastHeartbeat := now |>).

Definition reachable (s : Scheduler) : Prop := exists now, rtc sched_step (newScheduler now) s.

Record sched_wf (s : Scheduler) : Prop := {
  handles_sorted : StronglySorted Z.lt (handle <$> callOuts s);
  handles_issued h : h ∈ handle <$> callOuts s -> 1 <= h < nextHandle s;
  next_positive : 1 <= nextHandle s
}.

Lemma sched_wf_sublist s l :
  sched_wf s -> l `sublist_of` callOuts s -> sched_wf (s <| callOuts := l |>).
Proof.
  intros [H1 H2 H3] Hs. split; simpl; auto.
  - by eapply sorted_sublist.
  - intros h (e & -> & He)%list_elem_of_fmap. apply H2, list_elem_of_fmap_2.
    by eapply elem_of_sublist.
Qed.

Lemma extract_sublist {A} (p : A -> bool) l x r : extract p l = Some (x, r) -> r `sublist_of` l.
Proof.
  intros (l1 & l2 & -> & -> & _)%extract_some. apply sublist_app; [done|]. by apply sublist_cons.
Qed.

Lemma sched_wf_heartbeats s s' :
  callOuts s' = callOuts s -> nextHandle s' = nextHandle s -> sched_wf s -> sched_wf s'.
Proof. intros E1 E2 [H1 H2 H3]. split; rewrite ?E1, ?E2; auto. Qed.

Lemma sched_wf_removeFirst p now s : sched_wf s -> sched_wf (snd (removeFirst p now s)).
Proof.
  unfold removeFirst. intros H. destruct (extract p (callOuts s)) as [[x r]|] eqn:E; simpl; [|done].
  apply sched_wf_sublist; [done|]. by eapply extract_sublist.
Qed.

Lemma StronglySorted_snoc l x :
  StronglySorted Z.lt l -> (forall y, y ∈ l -> y < x) -> StronglySorted Z.lt (l ++ [x]).
Proof.
  induction 1 as [|y l Hs IH Hy]; intros Hx; simpl; [repeat constructor|].
  constructor; [apply IH; intros; apply Hx; by right|].
  apply Forall_app. split; [done|]. repeat constructor. apply Hx. by left.
Qed.

Lemma sched_step_wf s s' : sched_step s s' -> sched_wf s -> sched_wf s'.
Proof.
  intros H W. destruct H; simpl.
  - destruct W as [H1 H2 H3]. split; simpl; [| |lia].
    + rewrite fmap_app. apply StronglySorted_snoc; [done|]. intros y Hy. by apply H2.
    + intros h. rewrite fmap_app, elem_of_app. intros [Hh|Hh]; [specialize (H2 h Hh); lia|].
      apply list_elem_of_singleton in Hh as ->. simpl. lia.
  - unfold removeCallOutByName. destruct o; [by apply sched_wf_removeFirst|done].
  - by apply sched_wf_removeFirst.
  - apply sched_wf_sublist; [done|]. apply filter_sublist.
  - apply sched_wf_sublist; [done|]. apply filter_sublist.
  - unfold setHeartbeatInterval. repeat case_goal; simpl; try done;
      by eapply sched_wf_heartbeats; [| |exact W].
  - by eapply sched_wf_heartbeats; [| |exact W].
  - by eapply sched_wf_heartbeats; [| |exact W].
Qed.

Lemma reachable_wf s : reachable s -> sched_wf s.
Proof.
  intros [now H]. assert (sched_wf (newScheduler now)) as W.
  { split; simpl; [constructor| |lia]. intros h Hh. by apply elem_of_nil in Hh. }
  induction H; eauto using sched_step_wf.
Qed.

(** The only entry with a handle, in a list whose handles are increasing. *)
Lemma sorted_handle_other l1 e l2 :
  StronglySorted Z.lt (handle <$> l1 ++ e :: l2) ->
  forall x, x ∈ l1 ++ l2 -> handle x <> handle e.
Proof.
  induction l1 as [|y l1 IH]; simpl; intros H x Hx; inversion H as [|? ? Hs Hf]; subst.
  - rewrite list.Forall_forall in Hf. specialize (Hf _ (list_elem_of_fmap_2 handle _ _ Hx)). lia.
  - apply elem_of_cons in Hx as [->|Hx]; [|by apply IH].
    rewrite list.Forall_forall in Hf.
    assert (handle e ∈ handle <$> l1 ++ e :: l2) as He
      by (apply list_elem_of_fmap_2; set_solver).
    specialize (Hf _ He). lia.
Qed.

(** Along any run of the scheduler, a call_out gets a handle greater than
    every pending one; removing by that handle takes out exactly that entry and
    reports the whole seconds it had left, and removing by any handle that is
    not pending changes nothing and reports -1. *)
Theorem callout_handles e s h s1 now :
  reachable s -> addCallOut e s = (h, s1) ->
  reachable s1 /\
  (forall x, x ∈ callOuts s -> handle x < h) /\
  (forall s2, rtc sched_step s1 s2 ->
     (forall x, x ∈ callOuts s2 -> handle x = h ->
        removeCallOutByHandle h now s2
        = (remainingSeconds now (dueAt x),
           s2 <| callOuts ::= List.filter (fun y => negb (handle y =? h)) |>)) /\
     ((forall x, x ∈ callOuts s2 -> handle x <> h) -> removeCallOutByHandle h now s2 = (-1, s2))).
Proof.
  intros [t Hr] Ha. assert (reachable s1) as Hr1.
  { exists t. eapply rtc_r; [exact Hr|]. replace s1 with (snd (addCallOut e s)) by (by rewrite Ha).
    apply step_add. }
  split; [done|]. split.
  - intros x Hx. injection Ha as <- _. destruct (reachable_wf s ltac:(by exists t)) as [_ H _].
    apply H. by apply list_elem_of_fmap_2.
  - intros s2 H2. assert (sched_wf s2) as W.
    { destruct Hr1 as [t' Hr1]. apply reachable_wf. exists t'. by etransitivity. }
    unfold removeCallOutByHandle, removeFirst, byHandle.
    destruct (extract _ (callOuts s2)) as [[y r]|] eqn:E.
    + apply extract_some in E as (l1 & l2 & El & -> & Hy & _). apply Z.eqb_eq in Hy.
      pose proof (handles_sorted s2 W) as Hs. rewrite El in Hs.
      pose proof (sorted_handle_other l1 y l2 Hs) as Ho. split.
      * intros x Hx Ex. rewrite El in Hx.
        assert (x = y) as ->.
        { apply elem_of_app in Hx as [Hx|Hx]; [|apply elem_of_cons in Hx as [Hx|Hx]; [done|]];
            exfalso; apply (Ho x); rewrite ?elem_of_app; auto; lia. }
        f_equal. destruct s2. unfold set_field. simpl in *. f_equal. rewrite El.
        rewrite filter_app. simpl. rewrite Hy, Z.eqb_refl. simpl.
        assert (forall l, (forall z, z ∈ l -> handle z <> handle y) ->
          List.filter (fun z => negb (handle z =? h)) l = l) as F.
        { induction l as [|z l IH]; simpl; intros Hl; [done|].
          rewrite (proj2 (Z.eqb_neq _ _)) by (rewrite <- Hy; apply Hl; by left). simpl.
          f_equal. apply IH. intros. apply Hl. by right. }
        rewrite !F; [done| |]; intros z Hz; apply Ho; rewrite elem_of_app; auto.
      * intros Hn. exfalso. apply (Hn y); [rewrite El; set_solver|lia].
    + apply extract_none in E. rewrite list.Forall_forall in E. split; [|done].
      intros x Hx Ex. specialize (E x Hx). simpl in E. by apply Z.eqb_neq in E.
Qed.

(** ** Firing *)
Lemma logged_caught prefix {A} (m : VM A) s :
  forall e, fst (logged prefix m s) <> Throw e.
Proof.
  intros e. unfold logged, mcatch, mbind. destruct (m s) as [[]]; simpl; done.
Qed.

(** [fired f l s s']: every element of [l] is run, in order, each in the state
    the one before left. *)
Inductive fired {A} (f : A -> VM unit) : list A -> VMState -> VMState -> Prop :=
  | fired_nil s : fired f [] s s
  | fired_cons x l s s1 s2 : f x s = (Ok tt, s1) -> fired f l s1 s2 -> fired f (x :: l) s s2.

Lemma fireAll_fired {A} (f : A -> VM unit) l s s' :
  fireAll f l s = (Ok tt, s') <-> fired f l s s'.
Proof.
  split.
  - revert s. induction l as [|x l IH]; simpl; intros s.
    + intros [= ->]. constructor.
    + intros ([] & s1 & H1 & H2)%mbind_ok. econstructor; eauto.
  - induction 1 as [|x l s s1 s2 H _ IH]; simpl; [done|]. by erewrite mbind_run.
Qed.

Lemma fireAll_caught {A} (f : A -> VM unit) l s :
  (forall x s e, fst (f x s) <> Throw e) -> forall e, fst (fireAll f l s) <> Throw e.
Proof.
  intros Hf. revert s. induction l as [|x l IH]; simpl; intros s e; [done|].
  unfold mbind. pose proof (Hf x s) as Hx. destruct (f x s) as [[[]|e'|w|] s1]; simpl in *; done.
Qed.

Section Firing.
Context (run : RunFn) (ticks : nat -> Z) `{EfunTable} (ops : VMOps).

Lemma fireCallOut_caught e s : forall x, fst (fireCallOut run ticks ops e s) <> Throw x.
Proof.
  intros x. unfold fireCallOut. destruct (closureRef e); [by apply logged_caught|].
  unfold mbind, mgets. destruct (lock s (target e)); [by apply logged_caught|done].
Qed.
End Firing.

(** C24: a call_out tick never fails with an LPC error.  When it completes, every
    entry that was due, and no other, has been fired, in the order of the list,
    starting from a scheduler in which only the entries that were not due are
    left. *)
Theorem tickCallOuts_fires run ticks `{EfunTable} ops v r v' :
  tickCallOuts run ticks ops v = (r, v') ->
  let now := ticks (clockReads v) in
  let due := List.filter (isDue now) (callOuts (sched v)) in
  let left := List.filter (fun e => negb (isDue now e)) (callOuts (sched v)) in
  let start := modSched (fun s => s <| callOuts := left |>) (v <| clockReads ::= S |>) in
  (forall e, r <> Throw e) /\
  (r = Ok tt -> fired (fireCallOut run ticks ops) due start v') /\
  due ++ left ≡ₚ callOuts (sched v) /\
  (forall e, e ∈ callOuts (sched start) <-> e ∈ callOuts (sched v) /\ now < dueAt e).
Proof.
  intros Ht now due left start.
  assert (fireAll (fireCallOut run ticks ops) due start = (r, v')) as F by exact Ht.
  split_and!.
  - intros e ->. pose proof (fireAll_caught (fireCallOut run ticks ops) due start
      (fireCallOut_caught run ticks ops) e) as N. by rewrite F in N.
  - intros ->. by apply fireAll_fired.
  - subst due left. generalize (callOuts (sched v)). induction l as [|x l IH]; simpl; [done|].
    destruct (isDue now x); simpl; [by constructor|]. rewrite <- Permutation_middle. by constructor.
  - intros e. subst start left. simpl. rewrite !list_elem_of_In, filter_In. unfold isDue.
    rewrite negb_true_iff, Z.leb_gt. done.
Qed.

(** An error a call_out raises is logged, and the state the body reached is
    kept: nothing it did is undone and the next entry runs from there. *)
Theorem callout_error_logged run ticks `{EfunTable} ops e o v x v1 :
  closureRef e = None -> lock v (target e) = Some o ->
  callFunction run ticks (Some o) (function e) (args e) Internal (resetEvalCost v) = (Throw x, v1) ->
  fireCallOut run ticks ops e v
  = (Ok tt, v1 <| stderrLog ::=
      cons (("[call_out] " +:+ fileOf v1 o +:+ "::" +:+ function e +:+ "(): ") +:+ what x) |>).
Proof.
  intros Hc Hl Hx. unfold fireCallOut. rewrite Hc. erewrite mbind_run by reflexivity.
  rewrite Hl. unfold logged, mcatch.
  assert ((mmodify resetEvalCost ;;
           callFunction run ticks (Some o) (function e) (args e) Internal) v = (Throw x, v1)) as E
    by exact Hx.
  unfold mbind at 1. by rewrite E.
Qed.

(** ** Heartbeats *)
Definition in_count (z : Z) : Prop := 1 <= z < 2 ^ 31.

(** The state of the heart_beat list: one entry per live object, counters and
    intervals positive [int]s. *)
Record heartbeats_wf (v : VMState) (l : list HeartbeatEntry) : Prop := {
  one_entry : NoDup (omap (fun e => lock v (hbTarget e)) l);
  counters e : e ∈ l -> in_count (ticksRemaining e);
  intervals e o : e ∈ l -> lock v (hbTarget e) = Some o -> in_count (getOb v heartbeatInterval 0 o)
}.

Definition counted (v : VMState) (e : HeartbeatEntry) : option HeartbeatEntry :=
  o ← lock v (hbTarget e);
  Some (mkHeartbeat (hbTarget e)
    (if ticksRemaining e =? 1 then getOb v heartbeatInterval 0 o else ticksRemaining e - 1)).
Definition beating (v : VMState) (e : HeartbeatEntry) : option oid :=
  if ticksRemaining e =? 1 then lock v (hbTarget e) else None.

Lemma heartbeats_wf_tail v e l : heartbeats_wf v (e :: l) -> heartbeats_wf v l.
Proof.
  intros [H1 H2 H3]. split.
  - simpl in H1. destruct (lock v (hbTarget e)); [|done]. by apply list.NoDup_cons in H1 as [_ H1].
  - intros x Hx. apply H2. by right.
  - intros x o Hx. apply H3. by right.
Qed.

Lemma countDown_spec v l :
  heartbeats_wf v l -> countDown v l = Ok (omap (counted v) l, omap (beating v) l).
Proof.
  induction l as [|e l IH]; simpl; intros W; [done|].
  specialize (IH (heartbeats_wf_tail v e l W)).
  pose proof (counters v _ W e ltac:(by left)) as C. unfold in_count in C.
  destruct (lock v (hbTarget e)) as [o|] eqn:El; unfold counted, beating; rewrite El; simpl.
  - unfold checked32, in_int32.
    rewrite (proj2 (andb_true_iff _ _)); [|split; [apply Z.leb_le; lia|apply Z.ltb_lt; lia]].
    simpl. fold (counted v) (beating v) in *. rewrite IH. simpl.
    destruct (Z.eqb_spec (ticksRemaining e) 1) as [E|N].
    + by rewrite E.
    + by rewrite (proj2 (Z.ltb_ge _ _)) by lia.
  - rewrite IH. by destruct (ticksRemaining e =? 1).
Qed.

Lemma counted_target v e e' : counted v e = Some e' -> hbTarget e' = hbTarget e.
Proof. unfold counted. destruct (lock v (hbTarget e)); simpl; [|done]. by intros [= <-]. Qed.

Lemma omap_counted_locks v (l : list HeartbeatEntry) :
  omap (fun e => lock v (hbTarget e)) (omap (counted v) l) = omap (fun e => lock v (hbTarget e)) l.
Proof.
  induction l as [|e l IH]; simpl; [done|].
  unfold counted at 1. destruct (lock v (hbTarget e)) eqn:E; simpl; [|exact IH].
  rewrite E. f_equal. exact IH.
Qed.

Lemma counted_wf v l : heartbeats_wf v l -> heartbeats_wf v (omap (counted v) l).
Proof.
  intros [H1 H2 H3]. split.
  - by rewrite omap_counted_locks.
  - intros e' (e & He & E)%list_elem_of_omap. unfold counted in E.
    destruct (lock v (hbTarget e)) as [o|] eqn:El; simpl in E; [|done]. injection E as <-.
    specialize (H2 e He). specialize (H3 e o He El). simpl.
    destruct (Z.eqb_spec (ticksRemaining e) 1); [done|]. unfold in_count in *. lia.
  - intros e' o (e & He & E)%list_elem_of_omap. rewrite (counted_target _ _ _ E). by apply H3.
Qed.

(** The heart_beat list after [k] cycles in which nothing else happens to it. *)
Fixpoint cycles (v : VMState) (k : nat) (l : list HeartbeatEntry) : outcome exn (list HeartbeatEntry) :=
  match k with
  | O => Ok l
  | S k' => let! c := countDown v l in cycles v k' (fst c)
  end.
(** [o] is called in cycle [k]. *)
Definition beats_at (v : VMState) (l : list HeartbeatEntry) (k : nat) (o : oid) : Prop :=
  exists l' c, cycles v k l = Ok l' /\ countDown v l' = Ok c /\ o ∈ snd c.

Lemma beats_now v l e o :
  heartbeats_wf v l -> e ∈ l -> lock v (hbTarget e) = Some o ->
  o ∈ omap (beating v) l <-> ticksRemaining e = 1.
Proof.
  intros W He El. rewrite list_elem_of_omap. split.
  - intros (e' & He' & E). unfold beating in E.
    destruct (Z.eqb_spec (ticksRemaining e') 1) as [T|]; [|done].
    enough (e' = e) by by subst. pose proof (one_entry v l W) as ND. clear -He He' E El ND.
    induction l as [|x l IH]; [by apply elem_of_nil in He|]. simpl in ND.
    assert (forall y, y ∈ l -> lock v (hbTarget y) = Some o ->
            o ∈ omap (fun e => lock v (hbTarget e)) l) as In by (intros; apply list_elem_of_omap; eauto).
    apply elem_of_cons in He as [->|He], He' as [->|He']; [done| | |].
    + rewrite El in ND. apply list.NoDup_cons in ND as [Nin _]. exfalso. eauto.
    + rewrite E in ND. apply list.NoDup_cons in ND as [Nin _]. exfalso. eauto.
    + apply IH; auto. destruct (lock v (hbTarget x)); [|done]. by apply list.NoDup_cons in ND as [_ ND].
  - intros T. exists e. split; [done|]. unfold beating. by rewrite T.
Qed.

(** C25: a live object whose heart_beat entry has [t] cycles left is called first
    in the [t]-th cycle and then exactly once every [n] cycles, [n] being the
    interval it asked for; and no cycle of a well-formed list overflows a
    counter. *)
Theorem heartbeat_period v l e o n :
  heartbeats_wf v l -> e ∈ l -> lock v (hbTarget e) = Some o ->
  getOb v heartbeatInterval 0 o = n ->
  forall k, (exists l', cycles v k l = Ok l' /\ heartbeats_wf v l') /\
    (beats_at v l k o <-> exists j : nat, Z.of_nat k + 1 = ticksRemaining e + Z.of_nat j * n).
Proof.
  intros W He El En k. pose proof (intervals v l W e o He El) as Hn. rewrite En in Hn.
  unfold in_count in Hn. revert l e W He El. induction k as [|k IH]; intros l e W He El.
  - split; [by exists l|]. pose proof (counters v l W e He) as T. unfold in_count in T.
    pose proof (beats_now v l e o W He El) as B. pose proof (countDown_spec v l W) as C. split.
    + intros (l' & c & [= <-] & C' & Ho). rewrite C in C'. injection C' as <-.
      apply B in Ho. exists 0%nat. lia.
    + intros [j Hj]. exists l. eexists. split; [done|]. split; [exact C|]. simpl. apply B. nia.
  - pose proof (countDown_spec v l W) as C. pose proof (counters v l W e He) as T. unfold in_count in T.
    set (t' := if ticksRemaining e =? 1 then n else ticksRemaining e - 1).
    destruct (IH (omap (counted v) l) (mkHeartbeat (hbTarget e) t')) as [IH1 IH2];
      [by apply counted_wf| |done|].
    { apply list_elem_of_omap. exists e. split; [done|]. unfold counted. rewrite El. simpl.
      by rewrite En. }
    split; [simpl; rewrite C; exact IH1|].
    assert (beats_at v l (S k) o <-> beats_at v (omap (counted v) l) k o) as ->.
    { unfold beats_at. simpl. by rewrite C. }
    rewrite IH2. simpl. subst t'. destruct (Z.eqb_spec (ticksRemaining e) 1) as [E|N].
    + rewrite E. split; intros [j Hj]; [exists (S j); lia|]. destruct j; [lia|]. exists j. lia.
    + split; intros [j Hj]; exists j; lia.
Qed.

(** ** set_heart_beat *)
Lemma lock_setOb o f s w : lock (setOb o f s) w = lock s w.
Proof.
  unfold lock. destruct w as [x|]; [|done]. rewrite setOb_lookup.
  destruct (decide (x = o)); [|done]. by destruct (objects s !! x).
Qed.

Lemma omap_lock_setOb o f s (l : list HeartbeatEntry) :
  omap (fun e => lock (setOb o f s) (hbTarget e)) l = omap (fun e => lock s (hbTarget e)) l.
Proof.
  induction l as [|e l IH]; simpl; [done|]. rewrite lock_setOb.
  destruct (lock s (hbTarget e)); [f_equal|]; exact IH.
Qed.

Lemma interval_setInterval o n v x d :
  getOb (setInterval o n v) heartbeatInterval d x
  = if decide (x = o) then match objects v !! x with Some _ => n | None => d end
    else getOb v heartbeatInterval d x.
Proof.
  unfold getOb, setInterval. rewrite setOb_lookup. destruct (decide (x = o)); [|done].
  by destruct (objects v !! x).
Qed.

Lemma isTarget_spec v o e : isTarget v o e = true <-> lock v (hbTarget e) = Some o.
Proof. unfold isTarget. by rewrite bool_decide_eq_true. Qed.
Lemma isTarget_false v o e : isTarget v o e = false <-> lock v (hbTarget e) <> Some o.
Proof. unfold isTarget. by rewrite bool_decide_eq_false. Qed.

Lemma no_target v o (l : list HeartbeatEntry) :
  Forall (fun e => isTarget v o e = false) l -> o ∉ omap (fun e => lock v (hbTarget e)) l.
Proof.
  intros H (e & He & E)%list_elem_of_omap. rewrite list.Forall_forall in H.
  by apply (proj1 (isTarget_false v o e) (H e He)) in E.
Qed.

Lemma updateFirst_split {A} (p : A -> bool) f l1 x l2 :
  Forall (fun y => p y = false) l1 -> p x = true ->
  updateFirst p f (l1 ++ x :: l2) = l1 ++ f x :: l2.
Proof. induction 1 as [|y l1 Hy _ IH]; simpl; intros Hx; [by rewrite Hx|]. by rewrite Hy, IH. Qed.

(** Well-formedness after the entry of [o] is set to [n], or removed. *)
Lemma heartbeats_wf_enable v o n l1 old l2 :
  in_count n -> heartbeats_wf v (l1 ++ old ++ l2) ->
  (forall e, e ∈ l1 ++ l2 -> lock v (hbTarget e) <> Some o) ->
  is_Some (objects v !! o) ->
  heartbeats_wf (setInterval o n v) (l1 ++ mkHeartbeat (Some o) n :: l2).
Proof.
  intros Hn [H1 H2 H3] Ho [ob Hob]. unfold setInterval. split.
  - rewrite omap_lock_setOb. rewrite omap_app in *. simpl. rewrite omap_app in H1. rewrite Hob.
    assert (NoDup (omap (fun e => lock v (hbTarget e)) l1 ++ omap (fun e => lock v (hbTarget e)) l2))
      as ND.
    { apply list.NoDup_app in H1 as (A & B & C). apply list.NoDup_app in C as (_ & _ & D).
      apply list.NoDup_app. split_and!; auto. intros x Hx Hx'. apply (B x Hx). set_solver. }
    rewrite <- Permutation_middle. apply list.NoDup_cons. split; [|done].
    intros [H|H]%elem_of_app; apply list_elem_of_omap in H as (e & He & E);
      apply (Ho e); auto; set_solver.
  - intros e He. apply elem_of_app in He as [He|He]; [apply H2; set_solver|].
    apply elem_of_cons in He as [->|He]; [done|apply H2; set_solver].
  - intros e x He. rewrite lock_setOb. fold (setInterval o n v). rewrite interval_setInterval.
    intros Ex. destruct (decide (x = o)) as [->|N]; [by rewrite Hob|].
    apply elem_of_app in He as [He|He]; [eapply H3; [|exact Ex]; set_solver|].
    apply elem_of_cons in He as [->|He]; [|eapply H3; [|exact Ex]; set_solver].
    simpl in Ex. rewrite Hob in Ex. by injection Ex.
Qed.

Lemma heartbeats_wf_disable v o l1 old l2 :
  heartbeats_wf v (l1 ++ old ++ l2) ->
  (forall e, e ∈ l1 ++ l2 -> lock v (hbTarget e) <> Some o) ->
  heartbeats_wf (setInterval o 0 v) (l1 ++ l2).
Proof.
  intros [H1 H2 H3] Ho. unfold setInterval. split.
  - rewrite omap_lock_setOb. rewrite !omap_app in *.
    apply list.NoDup_app in H1 as (A & B & C). apply list.NoDup_app in C as (_ & _ & D).
    apply list.NoDup_app. split_and!; auto. intros x Hx Hx'. apply (B x Hx). set_solver.
  - intros e He. apply H2. set_solver.
  - intros e x He. rewrite lock_setOb. fold (setInterval o 0 v). rewrite interval_setInterval.
    intros Ex. destruct (decide (x = o)) as [->|N]; [by apply (Ho e) in Ex|].
    eapply H3; [|exact Ex]. set_solver.
Qed.

(** No entry of [o], or exactly one. *)
Lemma target_absent v o (l : list HeartbeatEntry) :
  extract (isTarget v o) l = None -> forall e, e ∈ l -> lock v (hbTarget e) <> Some o.
Proof.
  intros E e He. apply extract_none in E. rewrite list.Forall_forall in E.
  apply isTarget_false. by apply E.
Qed.

Lemma target_present v o l x r :
  heartbeats_wf v l -> extract (isTarget v o) l = Some (x, r) ->
  exists l1 l2, l = l1 ++ [x] ++ l2 /\ r = l1 ++ l2 /\ hbTarget x = Some o /\
    isTarget v o x = true /\ Forall (fun y => isTarget v o y = false) l1 /\
    forall e, e ∈ l1 ++ l2 -> lock v (hbTarget e) <> Some o.
Proof.
  intros W (l1 & l2 & El & -> & Hx & F)%extract_some. exists l1, l2. split_and!; try done.
  - apply isTarget_spec in Hx. by apply lock_some in Hx as [Hx _].
  - pose proof (one_entry v _ W) as ND. rewrite El, omap_app in ND. simpl in ND.
    apply isTarget_spec in Hx. rewrite Hx in ND. rewrite <- Permutation_middle in ND.
    apply list.NoDup_cons in ND as [Nin _]. rewrite <- omap_app in Nin.
    intros e He E. apply Nin, list_elem_of_omap. eauto.
Qed.

Lemma interval_set v o n ob :
  objects v !! o = Some ob -> getOb (setInterval o n v) heartbeatInterval 0 o = n.
Proof. intros H. by rewrite interval_setInterval, decide_True, H by done. Qed.

(** The branch [to == 0]. *)
Lemma set_heart_beat_off v s o ob :
  heartbeats_wf v (heartbeats s) -> objects v !! o = Some ob ->
  let '(v', s') := setHeartbeatInterval (Some o) 0 v s in
  heartbeats_wf v' (heartbeats s') /\ getOb v' heartbeatInterval 0 o = 0 /\
  forall e, e ∈ heartbeats s' -> lock v' (hbTarget e) <> Some o.
Proof.
  intros W Hob. unfold setHeartbeatInterval. simpl.
  destruct (extract _ _) as [[x r]|] eqn:E.
  - destruct (target_present _ _ _ _ _ W E) as (l1 & l2 & El & -> & _ & _ & _ & No).
    rewrite El in W. simpl. split_and!; [by eapply heartbeats_wf_disable|by eapply interval_set|].
    intros e He. unfold setInterval. rewrite lock_setOb. by apply No.
  - pose proof (target_absent _ _ _ E) as Out. split_and!; [|by eapply interval_set|].
    + rewrite <- (app_nil_l (heartbeats s)) in W |- *.
      by apply (heartbeats_wf_disable v o [] [] (heartbeats s)).
    + intros e He. unfold setInterval. rewrite lock_setOb. by apply Out.
Qed.

(** An object that has no entry gets one. *)
Lemma set_heart_beat_fresh v s o ob m :
  heartbeats_wf v (heartbeats s) -> objects v !! o = Some ob -> in_count m ->
  (forall e, e ∈ heartbeats s -> lock v (hbTarget e) <> Some o) ->
  heartbeats_wf (setInterval o m v) (heartbeats s ++ [mkHeartbeat (Some o) m]) /\
  mkHeartbeat (Some o) m ∈ heartbeats s ++ [mkHeartbeat (Some o) m] /\
  getOb (setInterval o m v) heartbeatInterval 0 o = m.
Proof.
  intros W Hob Hm No. split_and!; [|set_solver|by eapply interval_set].
  apply (heartbeats_wf_enable v o m (heartbeats s) [] []); rewrite ?app_nil_r; eauto.
Qed.

(** [set_heart_beat] keeps the heart_beat list well formed (one entry per
    object, positive counters) for every argument an [int] can hold: 0 removes
    the object, a positive number gives it that interval starting now, and a
    negative one enables a disabled object with interval 1 and leaves an enabled
    one as it was. *)
Theorem set_heart_beat_spec v s o n :
  heartbeats_wf v (heartbeats s) -> is_Some (objects v !! o) -> n < 2 ^ 31 ->
  let '(v', s') := setHeartbeatInterval (Some o) n v s in
  let enabled := exists e, e ∈ heartbeats s /\ lock v (hbTarget e) = Some o in
  let set_to m := mkHeartbeat (Some o) m ∈ heartbeats s' /\ getOb v' heartbeatInterval 0 o = m in
  heartbeats_wf v' (heartbeats s') /\
  (n = 0 -> getOb v' heartbeatInterval 0 o = 0 /\
            forall e, e ∈ heartbeats s' -> lock v' (hbTarget e) <> Some o) /\
  (0 < n -> set_to n) /\
  (n < 0 -> ~ enabled -> set_to 1) /\
  (n < 0 -> enabled -> v' = v /\ s' = s).
Proof.
  intros W [ob Hob] Hn. destruct (Z.eq_dec n 0) as [->|Nz].
  { pose proof (set_heart_beat_off v s o ob W Hob) as P.
    destruct (setHeartbeatInterval (Some o) 0 v s) as [v' s']. destruct P as [W' P].
    split_and!; try lia; done. }
  unfold setHeartbeatInterval. rewrite (proj2 (Z.eqb_neq n 0)) by done.
  destruct (existsb (isTarget v o) (heartbeats s)) eqn:Ex.
  - apply existsb_exists in Ex as (x0 & Hx0 & T0). apply list_elem_of_In in Hx0.
    apply isTarget_spec in T0. destruct (Z.ltb_spec n 0).
    { split_and!; try lia; try done. intros _ Ne. exfalso. eauto. }
    destruct (extract (isTarget v o) (heartbeats s)) as [[x r]|] eqn:E;
      [|by apply (target_absent _ _ _ E) in T0].
    destruct (target_present _ _ _ _ _ W E) as (l1 & l2 & El & _ & Ht & Tx & F & No).
    unfold wrap32. rewrite wrap_id by lia. simpl. rewrite El. simpl.
    rewrite updateFirst_split, Ht by done. rewrite El in W. split_and!; try lia.
    + eapply heartbeats_wf_enable; eauto. unfold in_count. lia.
    + intros _. split; [set_solver|by eapply interval_set].
  - assert (forall e, e ∈ heartbeats s -> lock v (hbTarget e) <> Some o) as No.
    { intros e He T. apply isTarget_spec in T. apply not_true_iff_false in Ex. apply Ex.
      apply existsb_exists. exists e. split; [by apply list_elem_of_In|done]. }
    assert ((if n <? 0 then 1 else wrap32 n) = if n <? 0 then 1 else n) as ->.
    { destruct (Z.ltb_spec n 0); [done|]. unfold wrap32. by rewrite wrap_id by lia. }
    destruct (set_heart_beat_fresh v s o ob (if n <? 0 then 1 else n) W Hob) as [W' set_to];
      [unfold in_count; destruct (Z.ltb_spec n 0); lia|done|]. simpl.
    split_and!; try done.
    + intros P. by destruct (Z.ltb_spec n 0); [lia|].
    + intros P _. by destruct (Z.ltb_spec n 0); [|lia].
    + intros P (e & He & T). by apply No in T.
Qed.

(** Beyond an [int] the interval is truncated: 2^32 enables an object whose
    interval then reads 0, as if it were disabled, and which is called every
    cycle; 2^31 gives a counter whose next decrement is a signed overflow. *)
Theorem heartbeat_interval_truncated :
  (let '(v, s) := setHeartbeatInterval (Some 3%positive) (2 ^ 32) exampleWorld (newScheduler 0) in
   getOb v heartbeatInterval 1 3%positive = 0 /\
   countDown v (heartbeats s) = Ok (heartbeats s, [3%positive])) /\
  (let '(v, s) := setHeartbeatInterval (Some 3%positive) (2 ^ 31) exampleWorld (newScheduler 0) in
   countDown v (heartbeats s) = Undefined "signed 32-bit overflow").
Proof. split; [split|]; vm_compute; reflexivity. Qed.

(** ** Witnesses *)
Definition exampleEntry (t due : Z) : CallOutEntry :=
  mkCallOut t (Some 3%positive) "tick" None [VInt 1] due.
Definition exampleSched : Scheduler := snd (addCallOut (exampleEntry 0 5) (newScheduler 0)).

Lemma callout_handles_witness :
  let '(h, s1) := addCallOut (exampleEntry 0 9) exampleSched in
  removeCallOutByHandle h 7 s1
  = (remainingSeconds 7 9, s1 <| callOuts ::= List.filter (fun y => negb (handle y =? h)) |>).
Proof.
  assert (reachable exampleSched) as R.
  { exists 0. eapply rtc_l; [apply (step_add (exampleEntry 0 5))|constructor]. }
  destruct (callout_handles (exampleEntry 0 9) exampleSched 2
    (snd (addCallOut (exampleEntry 0 9) exampleSched)) 7 R eq_refl) as (_ & _ & H).
  destruct (H _ (rtc_refl _ _)) as [H1 _].
  apply (H1 (exampleEntry 2 9)); [right; left|reflexivity].
Defined.

#[local] Instance noEfuns : EfunTable := fun _ => None.
Definition exampleOps : VMOps := mkOps runsToOne 10 Z.of_nat.
Definition tickingWorld : VMState :=
  exampleWorld <| sched := mkScheduler [exampleEntry 1 5; exampleEntry 2 0] [] 0 3 |>.

Lemma tickCallOuts_fires_witness :
  exists v', tickCallOuts runsToOne Z.of_nat exampleOps tickingWorld = (Ok tt, v') /\
    fired (fireCallOut runsToOne Z.of_nat exampleOps) [exampleEntry 2 0]
      (modSched (fun s => s <| callOuts := [exampleEntry 1 5] |>) (tickingWorld <| clockReads ::= S |>)) v'.
Proof.
  destruct (tickCallOuts runsToOne Z.of_nat exampleOps tickingWorld) as [r v'] eqn:E.
  assert (r = Ok tt) as -> by (change r with (fst (r, v')); rewrite <- E; vm_compute; reflexivity).
  exists v'. split; [done|].
  destruct (tickCallOuts_fires runsToOne Z.of_nat exampleOps tickingWorld (Ok tt) v' E) as (_ & H & _).
  exact (H eq_refl).
Defined.

(** Every function throws. *)
Definition runsToError : RunFn := fun _ _ _ _ => mthrow (LpcRuntimeError "boom").
Lemma callout_error_logged_witness :
  exists v1, fireCallOut runsToError Z.of_nat exampleOps
    (mkCallOut 1 (Some 1%positive) "privilege_violation" None [] 0) exampleWorld
  = (Ok tt, v1 <| stderrLog ::= cons "[call_out] /room::privilege_violation(): boom"%string |>).
Proof.
  destruct (callFunction runsToError Z.of_nat (Some 1%positive) "privilege_violation" [] Internal
    (resetEvalCost exampleWorld)) as [r v1] eqn:E.
  assert (r = Throw (LpcRuntimeError "boom")) as ->
    by (change r with (fst (r, v1)); rewrite <- E; vm_compute; reflexivity).
  exists v1.
  replace "[call_out] /room::privilege_violation(): boom"%string
    with (("[call_out] " +:+ fileOf v1 1 +:+ "::" +:+ "privilege_violation" +:+ "(): ")
          +:+ what (LpcRuntimeError "boom"))
    by (change v1 with (snd (Throw (A := Value) (LpcRuntimeError "boom"), v1)); rewrite <- E;
        vm_compute; reflexivity).
  apply (callout_error_logged runsToError Z.of_nat exampleOps
    (mkCallOut 1 (Some 1%positive) "privilege_violation" None [] 0) 1 exampleWorld); done.
Defined.

Definition beatingWorld : VMState := setInterval 3 4 exampleWorld.
Lemma beatingWorld_wf : heartbeats_wf beatingWorld [mkHeartbeat (Some 3%positive) 4].
Proof.
  split.
  - apply NoDup_singleton.
  - intros e He. apply list_elem_of_singleton in He as ->. unfold in_count. simpl. lia.
  - intros e o He. apply list_elem_of_singleton in He as ->. intros [= <-]. unfold in_count.
    vm_compute. split; [discriminate|reflexivity].
Defined.

Lemma heartbeat_period_witness :
  beats_at beatingWorld [mkHeartbeat (Some 3%positive) 4] 7 3%positive.
Proof.
  apply (heartbeat_period beatingWorld [mkHeartbeat (Some 3%positive) 4]
    (mkHeartbeat (Some 3%positive) 4) 3 4 beatingWorld_wf);
    [by left|reflexivity|reflexivity|]. exists 1%nat. reflexivity.
Defined.

Lemma set_heart_beat_spec_witness :
  let '(v', s') := setHeartbeatInterval (Some 3%positive) 6 beatingWorld
    (mkScheduler [] [mkHeartbeat (Some 3%positive) 4] 0 1) in
  heartbeats_wf v' (heartbeats s') /\
  mkHeartbeat (Some 3%positive) 6 ∈ heartbeats s'.
Proof.
  destruct (set_heart_beat_spec beatingWorld (mkScheduler [] [mkHeartbeat (Some 3%positive) 4] 0 1) 3 6)
    as (H1 & _ & H2 & _); [apply beatingWorld_wf|by eexists|lia|].
  split; [exact H1|]. apply H2. lia.
Defined.
