(* ===== verification/Serializer.v ===== *)
(** * Serializer: world dumps

    src/persist/StateSerializer.cpp.  The output stream is a string that
    grows; it keeps what was written before an exception.  The reader works on
    the whole file [s] with an absolute [size_t] position, whose arithmetic
    wraps: [npos + 1] is 0.  [serialize_deserialize] (SerializerFacts.v) is the
    contract of the value format.

    [ObjectOps] is what the serializer uses of ObjectManager. *)
From S2P Require Import Prelude CLib Double Value Bytecode Lookup Machine Calls Registries.
Local Open Scope Z_scope.

(** ** Writing *)
Abbreviation Out := (M string exn) (only parsing).
Definition emit (t : string) : Out unit := mmodify (fun out => out +:+ t).

Fixpoint emitAll {A} (f : A -> Out unit) (l : list A) : Out unit :=
  match l with [] => mret tt | x :: l' => f x ;; emitAll f l' end.

Definition throwOut {A} (msg : string) : Out A := mthrow (LpcRuntimeError msg).

Definition count_text {A} (l : list A) : string := to_string (Z.of_nat (length l)).
Definition sized (t : string) : string := to_string (Z.of_nat (String.length t)) +:+ ":" +:+ t.

Abbreviation IdOfObject := (gmap oid Z) (only parsing).
Abbreviation ObjectOfId := (gmap Z oid) (only parsing).

Section Write.
Context (st : VMState) (idOfObject : IdOfObject).

Definition ownerId (c : Closure) : Z :=
  match lock st (owner c) with
  | Some o => default (-1) (idOfObject !! o)
  | None => -1
  end.

(** [ser] writes a value. *)
Definition serializeClosure (ser : Value -> Out unit) (c : Closure) : Out unit :=
  if unboundUntilBound c || negb (isVoid (lambdaBody c)) then
    throwOut "dump_state: cannot dump an unbound_lambda()/quoted-code closure -- see ROADMAP.md row 2.1's own note on this exact gap"
  else
  emit ("C" +:+ to_string (ownerId c) +:+ ";" +:+ to_string (if forceEfun c then 1 else 0) +:+ ";"
        +:+ sized (functionName c) +:+ count_text (boundArgs c) +:+ ";") ;;
  emitAll ser (boundArgs c).

(** The recursion follows the containers, which may be cyclic. *)
Fixpoint serializeWorldValue (fuel : nat) (v : Value) : Out unit :=
  match fuel with
  | O => mlift OutOfFuel
  | S f =>
      let h := hp st in
      match data v with
      | Int i => emit ("I" +:+ to_string i +:+ ";")
      | Dbl d => emit ("F" +:+ Dbl.ostream_g d +:+ ";")
      | Str s => emit ("S" +:+ sized s)
      | Arr l =>
          let its := match l with Some p => items h p | None => [] end in
          emit ("A" +:+ count_text its +:+ ":") ;;
          emitAll (serializeWorldValue f) its
      | Map None => emit ("M" +:+ count_text (@nil Value) +:+ ":")
      | Map (Some p) =>
          let m := mapping h p in
          if 1 <? width m then
            throwOut "dump_state: cannot dump a mapping with width > 1 (real LDMud N-column mapping) -- this format only serializes column 0 today, matching save_object()'s own established error for this exact gap, see ROADMAP.md row 1.9"
          else
          emit ("M" +:+ count_text (entries m) +:+ ":") ;;
          emitAll (fun e => serializeWorldValue f (fst e) ;; serializeWorldValue f (snd e))
            (entries m)
      | Obj None => emit "N"
      | Obj (Some o) =>
          match idOfObject !! o with
          | None => throwOut "dump_state: object reference not found in id table"
          | Some id => emit ("O" +:+ to_string id +:+ ";")
          end
      | Fun None => emit "N"
      | Fun (Some p) => serializeClosure (serializeWorldValue f) (closure h p)
      | NilV | Sym _ | Buf _ | Monostate => emit "N"
      end
  end.
End Write.

Definition kMagic : string := "AMLPSTATE1" +:+ str1 NL.

(** Later duplicates win, as in [idOfObject[ptr] = i]. *)
Definition idTable (obs : list oid) : IdOfObject :=
  foldl (fun t '(i, o) => <[o := i]> t) ∅ (zip (map Z.of_nat (seq 0 (length obs))) obs).

Section Dump.
Context (st : VMState).

Definition placementText (ids : IdOfObject) (o : oid) : string :=
  let envId := match lock st (getOb st environment None o) with
               | Some e => default (-1) (ids !! e)
               | None => -1
               end in
  let inv := getOb st inventory [] o in
  to_string (default 0 (ids !! o)) +:+ ";"
  +:+ to_string (if getOb st isClone false o then 1 else 0) +:+ ";" +:+ to_string envId +:+ ";"
  +:+ count_text inv +:+ ";"
  +:+ String.concat "," (map to_string (omap (fun c => ids !! c) inv)) +:+ ";"
  +:+ sized (fileOf st o).

Definition dumpVariables (fuel : nat) (ids : IdOfObject) (o : oid) : Out unit :=
  let vars := getOb st variables [] o in
  emit (to_string (default 0 (ids !! o)) +:+ ";" +:+ count_text vars +:+ ";") ;;
  emitAll (serializeWorldValue st ids fuel) vars.

(** The file is open and writable: [true] is returned. *)
Definition dumpState (fuel : nat) (registry : list oid) : Out bool :=
  let liveObjects := LiveObjects.all st registry in
  let ids := idTable liveObjects in
  emit kMagic ;;
  emit (count_text liveObjects +:+ ";") ;;
  emitAll (fun o => emit (placementText ids o)) liveObjects ;;
  emitAll (dumpVariables fuel ids) liveObjects ;;
  mret true.
End Dump.

(** ** Reading *)
Definition SIZE_MAX : Z := 2 ^ 64.
Definition npos : Z := SIZE_MAX - 1.
Definition slen (s : string) : Z := Z.of_nat (String.length s).
Definition size_t (z : Z) : Z := z mod SIZE_MAX.

(** [s.find(c, pos)] *)
Definition findc (c : ascii) (s : string) (pos : Z) : Z :=
  if slen s <=? pos then npos
  else match find_str (str1 c) (sdrop (Z.to_nat pos) s) with
       | Some n => pos + Z.of_nat n
       | None => npos
       end.

(** [s.substr(pos, n)] *)
Definition substr (s : string) (pos n : Z) : outcome exn string :=
  if slen s <? pos then
    Throw (StdException ("basic_string::substr: __pos (which is " +:+ to_string pos
             +:+ ") > this->size() (which is " +:+ to_string (slen s) +:+ ")"))
  else Ok (stake (Z.to_nat (Z.min n (slen s - pos))) (sdrop (Z.to_nat pos) s)).

Record ReadState := mkRead { rvm : VMState; rpos : Z }.
#[export] Instance eta_ReadState : Eta ReadState := fun r =>
  {| rvm := rvm r; rpos := rpos r |}.

Abbreviation Rd := (M ReadState exn) (only parsing).
Definition getPos : Rd Z := mgets rpos.
Definition setPos (p : Z) : Rd unit := mmodify (fun r => r <| rpos := p |>).
Definition throwRd {A} (msg : string) : Rd A := mthrow (LpcRuntimeError msg).

(** An exception of [std::sto*]; its message is the function's name. *)
Definition number {A} (fn : string) (r : A + num_error) : Rd A :=
  match r with inl v => mret v | inr _ => mthrow (StdException fn) end.

Definition allocRd {A} (alloc : heap -> loc * heap) (k : loc -> A) : Rd A := fun r =>
  let '(p, h) := alloc (hp (rvm r)) in
  (Ok (k p), r <| rvm ::= fun v => v <| hp := h |> |>).

Fixpoint repeatM {A} (n : nat) (m : Rd A) : Rd (list A) :=
  match n with
  | O => mret []
  | S n' => x <- m ;; xs <- repeatM n' m ;; mret (x :: xs)
  end.

Section Read.
(** The largest capacity [vector::reserve] can provide; above it
    [std::length_error] is thrown. *)
Context (reserveLimit : Z).
Context (s : string) (objectOfId : ObjectOfId).

Definition reserve (n : Z) : Rd unit :=
  if reserveLimit <? n then mthrow (StdException "vector::reserve") else mret tt.

(** [s.substr(pos, s.find(c, pos) - pos)], and the position after [c]. *)
Definition field (c : ascii) : Rd (string * Z) :=
  pos <- getPos ;;
  let end_ := findc c s pos in
  t <- mlift (substr s pos (size_t (end_ - pos))) ;;
  mret (t, size_t (end_ + 1)).

Definition intField (c : ascii) : Rd Z :=
  f <- field c ;; v <- number "stoll" (stoll (fst f)) ;; setPos (snd f) ;; mret v.
Definition sizeField (c : ascii) : Rd Z :=
  f <- field c ;; v <- number "stoull" (stoull (fst f)) ;; setPos (snd f) ;; mret v.

(** [s.substr(pos, len); pos += len;] *)
Definition bytes (len : Z) : Rd string :=
  pos <- getPos ;;
  t <- mlift (substr s pos len) ;;
  setPos (size_t (pos + len)) ;;
  mret t.

Definition deserializeClosure (des : Rd Value) : Rd Closure :=
  ownerId <- intField ";" ;;
  flag <- (f <- field ";" ;; setPos (snd f) ;; mret (fst f)) ;;
  name <- (nameLen <- sizeField ":" ;; bytes nameLen) ;;
  argCount <- sizeField ";" ;;
  reserve argCount ;;
  args <- repeatM (Z.to_nat argCount) des ;;
  mret (newClosure <| functionName := name |> <| boundArgs := args |>
                   <| forceEfun := String.eqb flag "1" |>
                   <| owner := if 0 <=? ownerId then objectOfId !! ownerId else None |>).

(** The [switch] on the tag; [des] reads a nested value. *)
Definition readKind (des : Rd Value) (kind : ascii) : Rd Value :=
  if Ascii.eqb kind "N" then mret Void
  else if Ascii.eqb kind "I" then v <- intField ";" ;; mret (VInt v)
  else if Ascii.eqb kind "F" then
    d <- (f <- field ";" ;; d <- number "stod" (Dbl.stod (fst f)) ;; setPos (snd f) ;; mret d) ;;
    mret (V (Dbl d))
  else if Ascii.eqb kind "S" then
    t <- (len <- sizeField ":" ;; bytes len) ;; mret (V (Str t))
  else if Ascii.eqb kind "A" then
    count <- sizeField ":" ;;
    reserve count ;;
    xs <- repeatM (Z.to_nat count) des ;;
    allocRd (newArray xs) (fun p => V (Arr (Some p)))
  else if Ascii.eqb kind "M" then
    count <- sizeField ":" ;;
    reserve count ;;
    es <- repeatM (Z.to_nat count) (k <- des ;; v <- des ;; mret (k, v)) ;;
    allocRd (newMapping (emptyMapping <| entries := es |>)) (fun p => V (Map (Some p)))
  else if Ascii.eqb kind "O" then
    id <- intField ";" ;;
    mret (match objectOfId !! id with Some o => V (Obj (Some o)) | None => Void end)
  else if Ascii.eqb kind "C" then
    c <- deserializeClosure des ;;
    allocRd (newClosureAt c) (fun p => V (Fun (Some p)))
  else throwRd "restore_state: corrupt statedump data (unknown value kind)".

Fixpoint deserializeWorldValue (fuel : nat) : Rd Value :=
  match fuel with
  | O => mlift OutOfFuel
  | S f =>
      pos <- getPos ;;
      if slen s <=? pos then mret Void else
      setPos (pos + 1) ;;
      readKind (deserializeWorldValue f) (char_at s (Z.to_nat pos))
  end.
End Read.

(** ** restoreState *)

(** What the serializer asks of ObjectManager; a null result is [None]. *)
Class ObjectOps := {
  cloneObject : string -> VM (option oid);
  lookupLoadedObject : string -> VM (option oid);
  loadObject : string -> VM (option oid);
  retainRestoredObjects : list oid -> VM unit
}.

Record PlacementEntry := mkPlacement {
  pe_id : Z; pe_isClone : bool; pe_envId : Z; pe_invIds : list Z; pe_filename : string
}.

Definition onRd {A} (m : VM A) : Rd A := fun r =>
  let '(x, v) := m (rvm r) in (x, r <| rvm := v |>).

Fixpoint forEach {A} (f : A -> Rd unit) (l : list A) : Rd unit :=
  match l with [] => mret tt | x :: l' => f x ;; forEach f l' end.

(** [k] numbers separated by commas; the empty text is no number. *)
Fixpoint invIdsOf (k : nat) (rest : string) : Rd (list Z) :=
  match k with
  | O => mret []
  | S k' =>
      let '(tok, r) := match find_str "," rest with
                       | None => (rest, ""%string)
                       | Some i => (stake i rest, sdrop (S i) rest)
                       end in
      id <- number "stoll" (stoll tok) ;;
      ids <- invIdsOf k' r ;;
      mret (id :: ids)
  end.

Section Restore.
Context (reserveLimit : Z) (s : string).

(** A field whose delimiter must be there. *)
Definition checkedField (c : ascii) (msg : string) : Rd (string * Z) :=
  pos <- getPos ;;
  if findc c s pos =? npos then throwRd msg else field s c.

Definition readIntField (c : ascii) : Rd Z :=
  f <- checkedField c "restore_state: corrupt statedump data (truncated field)" ;;
  v <- number "stoll" (stoll (fst f)) ;; setPos (snd f) ;; mret v.

Definition readPlacement : Rd PlacementEntry :=
  id <- readIntField ";" ;;
  isClone <- readIntField ";" ;;
  envId <- readIntField ";" ;;
  invCount <- readIntField ";" ;;
  invList <- checkedField ";"
    "restore_state: corrupt statedump data (truncated inventory list)" ;;
  setPos (snd invList) ;;
  invIds <- invIdsOf (Z.to_nat (size_t invCount)) (fst invList) ;;
  len <- checkedField ":" "restore_state: corrupt statedump data (truncated filename)" ;;
  fnameLen <- number "stoull" (stoull (fst len)) ;;
  setPos (snd len) ;;
  fname <- bytes s fnameLen ;;
  mret (mkPlacement id (negb (isClone =? 0)) envId invIds fname).

Definition varsInto (dst : list Value) (src : list Value) : list Value :=
  take (length dst) src ++ drop (length src) dst.

(** Pass 2: the values are assigned up to the shorter of the two lengths. *)
Definition restoreVariables (fuel : nat) (objectOfId : ObjectOfId) : Rd unit :=
  id <- readIntField ";" ;;
  varCount <- readIntField ";" ;;
  reserve reserveLimit (size_t varCount) ;;
  vals <- repeatM (Z.to_nat (size_t varCount)) (deserializeWorldValue reserveLimit s objectOfId fuel) ;;
  match objectOfId !! id with
  | None => mret tt
  | Some o => mmodify (fun r => r <| rvm ::= setOb o (fun ob =>
                ob <| variables ::= fun vars => varsInto vars vals |>) |>)
  end.

(** Environment and inventory, once every id is known. *)
Definition place (objectOfId : ObjectOfId) (e : PlacementEntry) : Rd unit :=
  match objectOfId !! pe_id e with
  | None => mret tt
  | Some o => mmodify (fun r => r <| rvm ::= setOb o (fun ob =>
      (match (if 0 <=? pe_envId e then objectOfId !! pe_envId e else None) with
       | Some env => ob <| environment := Some env |>
       | None => ob
       end) <| inventory := omap (fun i => objectOfId !! i) (pe_invIds e) |>) |>)
  end.

Context `{ObjectOps}.

Definition reconstruct (e : PlacementEntry) : Rd oid :=
  obj <- onRd (if pe_isClone e then cloneObject (pe_filename e)
               else o <- lookupLoadedObject (pe_filename e) ;;
                    match o with Some _ => mret o | None => loadObject (pe_filename e) end) ;;
  match obj with
  | Some o => mret o
  | None => throwRd ("restore_state: could not reconstruct object for " +:+ pe_filename e)
  end.

Fixpoint reconstructAll (es : list PlacementEntry) : Rd (list (Z * oid)) :=
  match es with
  | [] => mret []
  | e :: es' => o <- reconstruct e ;; l <- reconstructAll es' ;; mret ((pe_id e, o) :: l)
  end.

(** The file is readable and [s] is its contents. *)
Definition restoreState (fuel : nat) : Rd bool :=
  if negb (sprefix kMagic s) then mret false else
  setPos (slen kMagic) ;;
  count <- readIntField ";" ;;
  reserve reserveLimit (size_t count) ;;
  es <- repeatM (Z.to_nat (size_t count)) readPlacement ;;
  made <- reconstructAll es ;;
  let objectOfId := foldl (fun t '(i, o) => <[i := o]> t) ∅ made in
  onRd (retainRestoredObjects (map snd made)) ;;
  forEach (place objectOfId) es ;;
  repeatM (length es) (restoreVariables fuel objectOfId) ;;
  mret true.
End Restore.
