(* ===== verification/SerializerFacts.v ===== *)
(** * SerializerFacts: the value format of a world dump is read back

    A small program logic for the reader: [reads P m t Q] says that [m],
    started where the text [t] stands in the file, consumes exactly [t] and
    returns a value related by [Q] to the heap it has then.  The texts the
    writer emits are proved readable tag by tag.  Then: the writer ends on
    acyclic values, and two things the reader does not reject. *)
From S2P Require Import Prelude CLib Double Value Bytecode Lookup Machine Calls Registries Serializer.
From Stdlib Require Import Floats.SpecFloat.
Local Open Scope Z_scope.

(** ** Characters of the numbers the writer prints *)
Lemma sforall_stake p n s : sforall p s = true -> sforall p (stake n s) = true.
Proof.
  revert s. induction n; intros [|c s]; simpl; rewrite ?andb_true_iff; intuition.
Qed.
Lemma sforall_sdrop p n s : sforall p s = true -> sforall p (sdrop n s) = true.
Proof.
  revert s. induction n; intros [|c s]; simpl; rewrite ?andb_true_iff; intuition.
Qed.

Definition not_char (d : ascii) (c : ascii) : bool := negb (Ascii.eqb c d).

Lemma isdigit_not_char d c : isdigit d = false -> isdigit c = true -> not_char d c = true.
Proof. intros Hd Hc. unfold not_char. destruct (Ascii.eqb_spec c d) as [->|]; [congruence|done]. Qed.

Lemma digits_not_char d n : isdigit d = false -> 0 <= n -> sforall (not_char d) (digits n) = true.
Proof.
  intros Hd Hn. eapply sforall_impl; [|by apply digits_isdigit].
  intros c. by apply isdigit_not_char.
Qed.

Lemma to_string_not_char d z :
  isdigit d = false -> d <> "-"%char -> sforall (not_char d) (to_string z) = true.
Proof.
  intros Hd Hm. unfold to_string. destruct (z <? 0) eqn:E; [|apply digits_not_char; [done|lia]].
  simpl. rewrite digits_not_char by (done || lia).
  unfold not_char. by destruct (Ascii.eqb_spec "-" d).
Qed.

Lemma strip_zeros_chars p s : sforall p s = true -> sforall p (Dbl.strip_zeros s) = true.
Proof.
  induction s as [|c s IH]; simpl; [done|]. rewrite andb_true_iff. intros [Hc Hs].
  specialize (IH Hs). destruct (Dbl.strip_zeros s); simpl in *.
  - destruct (Ascii.eqb c "0"); simpl; by rewrite ?Hc.
  - by rewrite Hc.
Qed.

Lemma strip_fraction_chars p a b :
  p "."%char = true -> sforall p a = true -> sforall p b = true ->
  sforall p (Dbl.strip_fraction a b) = true.
Proof.
  intros Hp Ha Hb. unfold Dbl.strip_fraction. apply strip_zeros_chars in Hb.
  destruct (Dbl.strip_zeros b) as [|c s]; [done|].
  rewrite sforall_app, Ha, sapp_cons, sapp_nil_l. simpl in *. by rewrite Hp.
Qed.

Lemma left_pad_chars p n s :
  p "0"%char = true -> sforall p s = true -> sforall p (Dbl.left_pad n s) = true.
Proof.
  intros Hp Hs. unfold Dbl.left_pad. rewrite sforall_app, Hs, andb_true_r.
  induction (n - String.length s)%nat as [|k IH]; [done|].
  simpl. destruct k; simpl; [by rewrite Hp|].
  change (sforall p (String "0" (String.concat "" ("0"%string :: replicate k "0"%string))) = true).
  simpl. rewrite Hp. exact IH.
Qed.

Lemma div_even_nonneg n d : 0 <= n -> 0 < d -> 0 <= Dbl.div_even n d.
Proof.
  intros Hn Hd. unfold Dbl.div_even. pose proof (Z.div_pos n d). repeat case_match; lia.
Qed.

Lemma scale_pos b e : 0 < b -> 0 < (if 0 <=? e then b ^ e else 1).
Proof. intros Hb. destruct (Z.leb_spec 0 e); [by apply Z.pow_pos_nonneg|lia]. Qed.

Lemma scaled_round_nonneg m e k : 0 <= m -> 0 <= Dbl.scaled_round m e k.
Proof.
  intros Hm. unfold Dbl.scaled_round.
  assert (forall b e, 0 < b -> 0 < (if 0 <=? e then 1 else b ^ (- e))) as H.
  { intros b' e' Hb. destruct (Z.leb_spec 0 e'); [lia|]. apply Z.pow_pos_nonneg; lia. }
  pose proof (scale_pos 2 e). pose proof (scale_pos 10 k).
  pose proof (H 2 e). pose proof (H 10 k). apply div_even_nonneg; nia.
Qed.

Lemma ostream_g_not_char c d : c = ";"%char \/ c = NL -> sforall (not_char c) (Dbl.ostream_g d) = true.
Proof.
  intros Hc. assert (isdigit c = false) as Hd by (by destruct Hc as [->| ->]).
  destruct d as [s|s| |s m e]; try (by destruct Hc as [->| ->], s); [by destruct Hc as [->| ->]|]. unfold Dbl.ostream_g.
  set (x0 := Dbl.dec_exp _ _). pose proof (scaled_round_nonneg (Zpos m) e (5 - x0)) as HR.
  set (r0 := Dbl.scaled_round _ _ _) in *.
  assert (exists x r, (if r0 =? 10 ^ 6 then (x0 + 1, 10 ^ 5) else (x0, r0)) = (x, r) /\ 0 <= r)
    as (x & r & -> & Hr).
  { destruct (_ =? _); eexists _, _; split; try done. lia. }
  assert (sforall (not_char c) (digits r) = true) as Hr' by (by apply digits_not_char).
  assert (not_char c "0" = true /\ not_char c "." = true) as [H0 Hp] by (by destruct Hc as [->| ->]).
  rewrite sforall_app. apply andb_true_iff; split; [by destruct Hc as [->| ->], s|].
  assert (sforall (not_char c) (digits (Z.abs x)) = true) by (apply digits_not_char; [done|lia]).
  destruct (_ || _); [|destruct (x <? 0)].
  - rewrite !sforall_app. rewrite strip_fraction_chars by auto using sforall_stake, sforall_sdrop.
    rewrite left_pad_chars by auto. destruct (x <? 0); by destruct Hc as [->| ->].
  - apply strip_fraction_chars; auto using left_pad_chars. by destruct Hc as [->| ->].
  - apply strip_fraction_chars; auto using sforall_stake, sforall_sdrop.
Qed.

Lemma ostream_g_not_semicolon d : sforall (not_char ";") (Dbl.ostream_g d) = true.
Proof. apply ostream_g_not_char. by left. Qed.

(** ** Finding a delimiter *)
Lemma sprefix_str1 c s : sprefix (str1 c) s = match s with String d _ => Ascii.eqb c d | _ => false end.
Proof. destruct s as [|d s]; simpl; [done|]. by rewrite andb_true_r. Qed.

Lemma find_delim c a b :
  sforall (not_char c) a = true -> find_str (str1 c) (a +:+ String c b) = Some (String.length a).
Proof.
  induction a as [|d a IH]; intros Ha; rewrite ?sapp_nil_l, ?sapp_cons; simpl in *.
  - by rewrite Ascii.eqb_refl.
  - apply andb_true_iff in Ha as [Hd Ha]. unfold not_char in Hd.
    rewrite Ascii.eqb_sym. destruct (Ascii.eqb d c); [done|]. simpl. by rewrite IH.
Qed.

Lemma slen_app a b : slen (a +:+ b) = slen a + slen b.
Proof. unfold slen. rewrite slength_app. lia. Qed.
Lemma slen_cons c a : slen (String c a) = 1 + slen a.
Proof. unfold slen. simpl String.length. lia. Qed.
Lemma slen_nonneg a : 0 <= slen a.
Proof. unfold slen. lia. Qed.

Lemma sdrop_slen a b : sdrop (Z.to_nat (slen a)) (a +:+ b) = b.
Proof. unfold slen. rewrite Nat2Z.id. apply sdrop_app. Qed.

Lemma stake_slen a b : stake (Z.to_nat (slen a)) (a +:+ b) = a.
Proof. unfold slen. rewrite Nat2Z.id. apply stake_app. Qed.

(** ** The reader's logic *)
Section Reads.
Context (limit : Z) (s : string) (objectOfId : gmap Z oid).
Context (Hs : slen s < npos) (Hlimit : slen s <= limit).

(** Only the heap of the VM may change, and it only grows. *)
Definition grows (r r' : ReadState) : Prop :=
  rvm r' = (rvm r) <| hp := hp (rvm r') |> /\ heap_le (hp (rvm r)) (hp (rvm r')) /\
  heap_wf (hp (rvm r')).

Definition reads {A} (P : heap -> Prop) (m : Rd A) (t : string) (Q : heap -> A -> Prop) : Prop :=
  forall pre rest r,
    s = pre +:+ t +:+ rest -> rpos r = slen pre -> heap_wf (hp (rvm r)) -> P (hp (rvm r)) ->
    exists a r', m r = (Ok a, r') /\ rpos r' = slen pre + slen t /\ grows r r' /\
                 Q (hp (rvm r')) a.

Definition any : heap -> Prop := fun _ => True.

Lemma grows_refl r : heap_wf (hp (rvm r)) -> grows r r.
Proof. intros H. split; [by destruct r as [[]]|]. by split. Qed.

Lemma grows_trans r1 r2 r3 : grows r1 r2 -> grows r2 r3 -> grows r1 r3.
Proof.
  intros (E1 & L1 & W1) (E2 & L2 & W2). split; [|split; [by etrans|done]].
  rewrite E2, E1. done.
Qed.

Lemma reads_weaken {A} P (m : Rd A) t (Q Q' : heap -> A -> Prop) :
  (forall h a, Q h a -> Q' h a) -> reads P m t Q -> reads P m t Q'.
Proof.
  intros HQ Hm pre rest r E1 E2 W HP.
  destruct (Hm pre rest r E1 E2 W HP) as (a & r' & ? & ? & ? & ?). eauto 10.
Qed.

Lemma reads_pre {A} (P P' : heap -> Prop) (m : Rd A) t Q :
  (forall h, P' h -> P h) -> reads P m t Q -> reads P' m t Q.
Proof. intros HP Hm pre rest r E1 E2 W H'. by apply (Hm pre rest r); auto. Qed.

Lemma reads_bind {A B} P (m : Rd A) (k : A -> Rd B) t1 t2 Q1 Q2 :
  reads P m t1 Q1 -> (forall a, reads (fun h => Q1 h a) (k a) t2 Q2) ->
  reads P (mbind m k) (t1 +:+ t2) Q2.
Proof.
  intros Hm Hk pre rest r E1 E2 W HP.
  destruct (Hm pre (t2 +:+ rest) r) as (a & r1 & R1 & P1 & G1 & H1); auto.
  { by rewrite E1, sapp_assoc. }
  destruct (Hk a (pre +:+ t1) rest r1) as (b & r2 & R2 & P2 & G2 & H2); auto.
  { by rewrite E1, !sapp_assoc. }
  { by rewrite P1, slen_app. }
  { apply G1. }
  exists b, r2. unfold mbind. rewrite R1. split; [done|]. rewrite P2, !slen_app.
  split; [lia|]. split; [by eapply grows_trans|done].
Qed.

Lemma reads_ret {A} P (a : A) (Q : heap -> A -> Prop) :
  (forall h, P h -> Q h a) -> reads P (mret a) "" Q.
Proof.
  intros HQ pre rest r E1 E2 W HP. exists a, r. split; [done|].
  split; [rewrite E2; unfold slen; simpl; lia|]. split; [by apply grows_refl|auto].
Qed.

(** A computation that reads nothing in front of one that does. *)
Lemma reads_bind_nil {A B} P (m : Rd A) (k : A -> Rd B) t Q1 Q2 :
  reads P m "" Q1 -> (forall a, reads (fun h => Q1 h a) (k a) t Q2) -> reads P (mbind m k) t Q2.
Proof. intros Hm Hk. rewrite <- (sapp_nil_l t). by eapply reads_bind. Qed.

Lemma reads_map {A B} P (m : Rd A) (f : A -> B) t (Q : heap -> A -> Prop) (Q' : heap -> B -> Prop) :
  reads P m t Q -> (forall h a, Q h a -> Q' h (f a)) ->
  reads P (a <- m ;; mret (f a)) t Q'.
Proof.
  intros Hm HQ. rewrite <- (sapp_nil_r t). eapply reads_bind; [done|].
  intros a. apply reads_ret. auto.
Qed.

Lemma size_t_small z : 0 <= z < SIZE_MAX -> size_t z = z.
Proof. apply Z.mod_small. Qed.

Lemma substr_spec pre t rest : s = pre +:+ t +:+ rest -> substr s (slen pre) (slen t) = Ok t.
Proof.
  intros E. assert (slen s = slen pre + slen t + slen rest) as L by (rewrite E, !slen_app; lia).
  pose proof (slen_nonneg t). pose proof (slen_nonneg rest). unfold substr.
  destruct (Z.ltb_spec (slen s) (slen pre)); [lia|].
  rewrite Z.min_l by lia. by rewrite E at 1; rewrite sdrop_slen, stake_slen.
Qed.

(** [field] returns the text before the delimiter and the position after it,
    without moving. *)
Lemma field_spec c t pre rest r :
  s = pre +:+ (t +:+ String c "") +:+ rest -> rpos r = slen pre ->
  sforall (not_char c) t = true -> field s c r = (Ok (t, slen pre + slen (t +:+ String c "")), r).
Proof.
  intros E1 E2 Ht. unfold field, mbind, getPos, mgets, mlift. rewrite E2.
  pose proof (slen_nonneg pre). pose proof (slen_nonneg t). pose proof (slen_nonneg rest).
  assert (slen s = slen pre + slen t + 1 + slen rest) as L.
  { rewrite E1, !slen_app, slen_cons. unfold slen. simpl. lia. }
  assert (slen (t +:+ String c "") = slen t + 1) as L'.
  { rewrite slen_app, slen_cons. unfold slen. simpl. lia. }
  unfold npos, SIZE_MAX in *.
  assert (findc c s (slen pre) = slen pre + slen t) as F.
  { unfold findc. destruct (Z.leb_spec (slen s) (slen pre)); [lia|].
    rewrite E1, sdrop_slen, sapp_assoc, sapp_cons, sapp_nil_l, find_delim by done. done. }
  rewrite F. rewrite !size_t_small by (unfold SIZE_MAX; lia).
  replace (slen pre + slen t - slen pre) with (slen t) by lia.
  rewrite (substr_spec pre t (String c rest)) by (by rewrite E1, sapp_assoc).
  by rewrite L', Z.add_assoc.
Qed.

(** Reading a delimited number with the parser [p]. *)
Lemma reads_number {A} P c fn (p : string -> A + num_error) t v :
  sforall (not_char c) t = true -> p t = inl v ->
  reads P (f <- field s c ;; v <- number fn (p (fst f)) ;; setPos (snd f) ;; mret v)
    (t +:+ String c "") (fun h a => P h /\ a = v).
Proof.
  intros Ht Hp pre rest r E1 E2 W HP. unfold mbind.
  rewrite (field_spec c t pre rest) by done. cbn [fst snd]. rewrite Hp. simpl.
  eexists _, _. split; [done|]. split; [done|]. split; [|done].
  split; [by destruct r as [[]]|]. done.
Qed.

Lemma reads_intField P z :
  in_int64 z = true ->
  reads P (intField s ";") (to_string z +:+ ";") (fun h a => P h /\ a = z).
Proof.
  intros Hz. apply reads_number; [by apply to_string_not_char|by apply stoll_to_string].
Qed.

Lemma reads_sizeField P c n :
  isdigit c = false -> c <> "-"%char -> 0 <= n < UINT64 ->
  reads P (sizeField s c) (to_string n +:+ String c "") (fun h a => P h /\ a = n).
Proof.
  intros Hc Hm Hn. apply reads_number; [by apply to_string_not_char|by apply stoull_to_string].
Qed.

Lemma reads_bytes P t :
  reads P (bytes s (slen t)) t (fun h a => P h /\ a = t).
Proof.
  intros pre rest r E1 E2 W HP. unfold bytes, mbind, getPos, mgets, mlift. rewrite E2.
  pose proof (slen_nonneg pre). pose proof (slen_nonneg t). pose proof (slen_nonneg rest).
  assert (slen s = slen pre + slen t + slen rest) as L by (rewrite E1, !slen_app; lia).
  rewrite (substr_spec pre t rest) by done. unfold npos, SIZE_MAX in *.
  rewrite size_t_small by (unfold SIZE_MAX; lia).
  eexists _, _. split; [done|]. split; [done|]. split; [|done].
  split; [by destruct r as [[]]|]. done.
Qed.

(** Length-prefixed bytes. *)
Lemma reads_sized P t :
  slen t < UINT64 ->
  reads P (len <- sizeField s ":" ;; bytes s len) (sized t) (fun h a => P h /\ a = t).
Proof.
  intros Ht. unfold sized. rewrite <- sapp_assoc. eapply reads_bind.
  - apply (reads_sizeField P ":"); [done|done|]. pose proof (slen_nonneg t). unfold slen in *. lia.
  - intros a. intros pre rest r E1 E2 W [HP ->]. by apply (reads_bytes P t pre rest r).
Qed.

Lemma char_at_slen a c b : char_at (a +:+ String c b) (Z.to_nat (slen a)) = c.
Proof.
  unfold slen, char_at. rewrite Nat2Z.id.
  induction a as [|d a IH]; rewrite ?sapp_nil_l, ?sapp_cons; simpl; auto.
Qed.

(** A value is read by its tag and then its body. *)
Lemma reads_tagged (body : ascii -> Rd Value) k t Q :
  reads any (body k) t Q ->
  reads any (pos <- getPos ;; if slen s <=? pos then mret Void else
             setPos (pos + 1) ;; body (char_at s (Z.to_nat pos))) (String k t) Q.
Proof.
  intros Hk pre rest r E1 E2 W HP. unfold mbind at 1. simpl. rewrite E2.
  pose proof (slen_nonneg pre). pose proof (slen_nonneg t). pose proof (slen_nonneg rest).
  assert (slen s = slen pre + 1 + slen t + slen rest) as L.
  { rewrite E1, !slen_app, slen_cons. lia. }
  destruct (Z.leb_spec (slen s) (slen pre)); [lia|]. unfold mbind. simpl.
  assert (char_at s (Z.to_nat (slen pre)) = k) as -> by (rewrite E1, sapp_cons; apply char_at_slen).
  destruct (Hk (pre +:+ String k "") rest (r <| rpos := slen pre + 1 |>)) as (a & r' & R & P & G & Q').
  - rewrite E1, sapp_assoc, !sapp_cons. done.
  - rewrite slen_app, slen_cons. simpl. unfold slen. simpl. lia.
  - done.
  - done.
  - exists a, r'. split; [exact R|]. split; [|split; [exact G|done]].
    rewrite P, slen_app, !slen_cons. unfold slen. simpl. lia.
Qed.

Lemma reads_tag f k t Q :
  reads any (readKind limit s objectOfId (deserializeWorldValue limit s objectOfId f) k) t Q ->
  reads any (deserializeWorldValue limit s objectOfId (S f)) (String k t) Q.
Proof. apply (reads_tagged (readKind limit s objectOfId (deserializeWorldValue limit s objectOfId f))). Qed.

Lemma reads_reserve P n : n <= limit -> reads P (reserve limit n) "" (fun h _ => P h).
Proof.
  intros Hn. unfold reserve. destruct (Z.ltb_spec limit n); [lia|]. by apply reads_ret.
Qed.

(** The allocations keep the heap growing. *)
Lemma reads_alloc {B} P (mk : heap -> loc * heap) (k : loc -> B) (Q : heap -> B -> Prop) :
  (forall h, heap_wf h -> heap_wf (snd (mk h)) /\ heap_le h (snd (mk h))) ->
  (forall h, heap_wf h -> P h -> Q (snd (mk h)) (k (fst (mk h)))) ->
  reads P (allocRd mk k) "" Q.
Proof.
  intros Hm HQ pre rest r E1 E2 W HP. unfold allocRd.
  destruct (Hm _ W) as [W' L]. specialize (HQ _ W HP).
  destruct (mk (hp (rvm r))) as [p h] eqn:Em. simpl in *.
  eexists _, _. split; [done|]. simpl. split; [unfold slen in *; simpl; lia|].
  split; [|done]. split; [by destruct r as [[]]|]. done.
Qed.

(** What is read is part of the file. *)
Lemma reads_inside {A} P (m : Rd A) t Q :
  ((exists pre rest, s = pre +:+ t +:+ rest) -> reads P m t Q) -> reads P m t Q.
Proof. intros H pre rest r E1. exact (H (ex_intro _ pre (ex_intro _ rest E1)) pre rest r E1). Qed.

Lemma inside_bound t : (exists pre rest, s = pre +:+ t +:+ rest) -> slen t < UINT64.
Proof.
  intros (pre & rest & E). rewrite E, !slen_app in Hs.
  unfold npos, SIZE_MAX, UINT64, slen in *. lia.
Qed.

(** A counted sequence: number, delimiter, elements. *)
Lemma reads_counted {B C} P c (n : nat) (des : Rd B) (k : list B -> Rd C) t Q1 Q2 :
  isdigit c = false -> c <> "-"%char -> Z.of_nat n < UINT64 -> Z.of_nat n <= limit ->
  reads P (repeatM n des) t Q1 ->
  (forall xs, reads (fun h => Q1 h xs) (k xs) "" Q2) ->
  reads P (count <- sizeField s c ;; reserve limit count ;;
           xs <- repeatM (Z.to_nat count) des ;; k xs)
    ((to_string (Z.of_nat n) +:+ String c "") +:+ t) Q2.
Proof.
  intros Hc Hm H64 Hn Hr Hk.
  eapply reads_bind; [apply (reads_sizeField P c (Z.of_nat n)); [done|done|lia]|].
  intros count pre rest r E1 E2 W [HP ->].
  revert pre rest r E1 E2 W HP. change (reads P (reserve limit (Z.of_nat n) ;;
    xs <- repeatM (Z.to_nat (Z.of_nat n)) des ;; k xs) t Q2).
  rewrite Nat2Z.id. eapply reads_bind_nil; [by apply reads_reserve|]. intros u. cbv beta.
  rewrite <- (sapp_nil_r t). by eapply reads_bind.
Qed.
End Reads.

(** ** Copies of values

    [v'] in the heap [h'] is a copy of [v] in [h]: containers and closures are new
    ones of copies of what they held, and [leaf] says what the rest becomes. *)
Definition bare (v : Value) : Prop := v = V (data v).
Definition one_column (m : Mapping) : Prop := width m = 1 /\ extraColumns m = [].

Section Copies.
Context (leaf : Value -> option Value) (h : heap).

Fixpoint copied (n : nat) (h' : heap) (v v' : Value) : Prop :=
  match n with
  | O => False
  | S n' =>
      match leaf v with
      | Some w => v' = w
      | None =>
          match data v with
          | Arr (Some q) => exists p xs, v' = V (Arr (Some p)) /\ arrays h' !! p = Some xs /\
              Forall2 (copied n' h') (items h q) xs
          | Map (Some q) => exists p es, v' = V (Map (Some p)) /\
              mappings h' !! p = Some ((mapping h q) <| entries := es |>) /\
              Forall2 (fun e e' => copied n' h' (fst e) (fst e') /\ copied n' h' (snd e) (snd e'))
                (entries (mapping h q)) es
          | Fun (Some q) => exists p args, v' = V (Fun (Some p)) /\
              closures h' !! p = Some ((closure h q) <| boundArgs := args |>) /\
              Forall2 (copied n' h') (boundArgs (closure h q)) args
          | _ => False
          end
      end
  end.

Lemma copied_mono n h1 h2 v v' : heap_le h1 h2 -> copied n h1 v v' -> copied n h2 v v'.
Proof.
  intros L. revert v v'. induction n as [|n IH]; intros v v'; [done|]. simpl.
  destruct (leaf v); [done|].
  destruct (data v) as [| | | | | | |[q|]|[q|]|[q|]|]; try done.
  - intros (p & xs & -> & E & F). exists p, xs. split; [done|]. split.
    + exact (lookup_weaken _ _ _ _ E (le_arrays _ _ L)).
    + eapply Forall2_impl; eauto.
  - intros (p & es & -> & E & F). exists p, es. split; [done|]. split.
    + exact (lookup_weaken _ _ _ _ E (le_mappings _ _ L)).
    + eapply Forall2_impl; [|exact F]. intros ?? []; auto.
  - intros (p & args & -> & E & F). exists p, args. split; [done|]. split.
    + exact (lookup_weaken _ _ _ _ E (le_closures _ _ L)).
    + eapply Forall2_impl; eauto.
Qed.

Lemma one_column_entries m es : one_column m -> m <| entries := es |> = emptyMapping <| entries := es |>.
Proof. destruct m as [e w x]. by intros [[= ->] [= ->]]. Qed.

(** A container read back, on the heap it was allocated in. *)
Lemma copied_array n v q h1 xs :
  leaf v = None -> data v = Arr (Some q) -> heap_wf h1 -> Forall2 (copied n h1) (items h q) xs ->
  copied (S n) (snd (newArray xs h1)) v (V (Arr (Some (fst (newArray xs h1))))).
Proof.
  intros El Ed W F. simpl. rewrite El, Ed. exists (nextLoc h1), xs.
  split; [done|]. split; [by rewrite lookup_insert_eq|].
  eapply Forall2_impl; [|exact F]. intros ? ?. apply copied_mono. by apply (newArray_le xs).
Qed.
Lemma copied_mapping n v q h1 es :
  leaf v = None -> data v = Map (Some q) -> one_column (mapping h q) -> heap_wf h1 ->
  Forall2 (fun e e' => copied n h1 (fst e) (fst e') /\ copied n h1 (snd e) (snd e')) (entries (mapping h q)) es ->
  let m := emptyMapping <| entries := es |> in
  copied (S n) (snd (newMapping m h1)) v (V (Map (Some (fst (newMapping m h1))))).
Proof.
  intros El Ed H1 W F m. simpl. rewrite El, Ed. exists (nextLoc h1), es.
  split; [done|]. split; [by rewrite lookup_insert_eq, one_column_entries|].
  eapply Forall2_impl; [|exact F]. intros ? ? []. split; eapply copied_mono; eauto; by apply (newMapping_le m).
Qed.
End Copies.

(** ** Round trip *)
Section RoundTrip.
Context (st : VMState) (ids : gmap oid Z) (objectOfId : gmap Z oid) (limit : Z).

(** The reader's table inverts the writer's. *)
Definition tables_ok : Prop :=
  forall o id, ids !! o = Some id -> 0 <= id /\ in_int64 id = true /\ objectOfId !! id = Some o.

(** What the format holds exactly, to depth [n]: integers of 64 bits, floats
    that their six digits give back, strings, void, objects that have a number,
    and arrays, mappings of one column and closures of such values. *)
Definition owned (c : Closure) : Prop :=
  match owner c with None => True | Some o => lock st (Some o) = Some o /\ is_Some (ids !! o) end.
Fixpoint storable (n : nat) (v : Value) : Prop :=
  match n with
  | O => True
  | S n' =>
      bare v /\
      match data v with
      | Int i => in_int64 i = true
      | Dbl d => Dbl.stod (Dbl.ostream_g d) = inl d
      | Str _ | Monostate => True
      | Obj (Some o) => is_Some (ids !! o)
      | Arr (Some p) => Forall (storable n') (items (hp st) p)
      | Map (Some p) => one_column (mapping (hp st) p) /\
          Forall (fun e => storable n' (fst e) /\ storable n' (snd e)) (entries (mapping (hp st) p))
      | Fun (Some p) => owned (closure (hp st) p) /\ lambdaParams (closure (hp st) p) = [] /\
          lambdaBody (closure (hp st) p) = Void /\ Forall (storable n') (boundArgs (closure (hp st) p))
      | _ => False
      end
  end.

(** Everything but containers and closures is read back as itself. *)
Definition worldLeaf (v : Value) : option Value :=
  match data v with Arr (Some _) | Map (Some _) | Fun (Some _) => None | _ => Some v end.
Abbreviation restored := (copied worldLeaf (hp st)) (only parsing).

(** [m] writes a text that [des] reads back as a result related by [Q]. *)
Definition readable {A} (des : string -> Rd A) (t : string) (Q : heap -> A -> Prop) : Prop :=
  forall s, slen s < npos -> slen s <= limit -> reads s any (des s) t Q.

Definition writes {A} (m : Out unit) (des : string -> Rd A) (k : nat) (Q : heap -> A -> Prop) : Prop :=
  forall out out', m out = (Ok tt, out') ->
    exists t, out' = out +:+ t /\ (k <= String.length t)%nat /\ readable des t Q.

Lemma emitAll_readable {A B} (f : A -> Out unit) (des : string -> Rd B)
    (Rel : heap -> A -> B -> Prop) l :
  (forall h h' x y, heap_le h h' -> Rel h x y -> Rel h' x y) ->
  (forall x, x ∈ l -> writes (f x) des 1 (fun h => Rel h x)) ->
  writes (emitAll f l) (fun s => repeatM (length l) (des s)) (length l)
    (fun h ys => Forall2 (Rel h) l ys).
Proof.
  intros Mono. induction l as [|x l IH]; intros Hf out out'; simpl.
  - unfold mret. intros [= <-]. exists "". rewrite sapp_nil_r. split; [done|]. split; [simpl; lia|].
    intros s Hs Hl. apply reads_ret; done.
  - intros E. apply mbind_ok in E as ([] & out1 & E1 & E2).
    destruct (Hf x (list_elem_of_here x l) _ _ E1) as (t1 & -> & L1 & R1).
    destruct (IH (fun y Hy => Hf y (list_elem_of_further y x l Hy)) _ _ E2) as (t2 & -> & L2 & R2).
    exists (t1 +:+ t2). rewrite sapp_assoc, slength_app. split; [done|]. split; [lia|].
    intros s Hs Hl. eapply reads_bind; [by apply R1|]. intros y.
    intros pre rest r P1 P2 W Hy.
    destruct (R2 s Hs Hl pre rest r P1 P2 W I) as (ys & r' & RR & PP & G & F).
    exists (y :: ys), r'. unfold mbind. rewrite RR. split; [done|]. split; [done|]. split; [done|].
    constructor; [|done]. eapply Mono; [apply G|done].
Qed.

(** The side conditions of a counted text of at least [n] bytes. *)
Lemma counted_bounds (n : nat) t a s :
  slen s < npos -> slen s <= limit -> (n <= String.length t)%nat ->
  (exists pre rest, s = pre +:+ (a +:+ t) +:+ rest) ->
  Z.of_nat n < UINT64 /\ Z.of_nat n <= limit.
Proof.
  intros Hs Hl Hn (pre & rest & ->). rewrite !slen_app in *.
  pose proof (slen_nonneg pre). pose proof (slen_nonneg rest). pose proof (slen_nonneg a).
  unfold slen, npos, SIZE_MAX, UINT64 in *. lia.
Qed.

(** The side conditions of [reads_counted] may be assumed where it is used:
    the text is part of the file. *)
Lemma readable_counted {B C} c (des : string -> Rd B) (k : list B -> Rd C) n t Q1 Q2 :
  isdigit c = false -> c <> "-"%char -> (n <= String.length t)%nat ->
  readable (fun s => repeatM n (des s)) t Q1 ->
  (forall s xs, slen s < npos -> slen s <= limit -> reads s (fun h => Q1 h xs) (k xs) "" Q2) ->
  readable (fun s => count <- sizeField s c ;; reserve limit count ;;
              xs <- repeatM (Z.to_nat count) (des s) ;; k xs)
    ((to_string (Z.of_nat n) +:+ String c "") +:+ t) Q2.
Proof.
  intros Hc Hm Hn Hr Hk s Hs Hl pre rest r E1 E2 W HP.
  destruct (counted_bounds n t (to_string (Z.of_nat n) +:+ String c "") s); eauto.
  eapply (reads_counted limit s Hs any c n); eauto.
Qed.

(** The tag, the number of elements and the elements of a container. *)
Lemma container_readable {A B C} tag (f : A -> Out unit) (l : list A) (des : string -> Rd B)
    (k : list B -> Rd C) Q1 Q2 out out' :
  writes (emitAll f l) (fun s => repeatM (length l) (des s)) (length l) Q1 ->
  (forall s xs, slen s < npos -> slen s <= limit -> reads s (fun h => Q1 h xs) (k xs) "" Q2) ->
  (emit (String tag "" +:+ count_text l +:+ ":") ;; emitAll f l) out = (Ok tt, out') ->
  exists t, out' = out +:+ String tag t /\
    readable (fun s => count <- sizeField s ":" ;; reserve limit count ;;
                xs <- repeatM (Z.to_nat count) (des s) ;; k xs) t Q2.
Proof.
  intros Hw Hk E. apply mbind_ok in E as (u & out1 & E1 & E2). injection E1 as _ <-.
  destruct (Hw _ _ E2) as (t & -> & L & R). exists ((count_text l +:+ ":") +:+ t).
  rewrite !sapp_assoc. split; [done|]. rewrite <- sapp_assoc.
  by eapply (readable_counted ":").
Qed.

Hypothesis (Htab : tables_ok).

Lemma owner_read c : owned c ->
  (if 0 <=? ownerId st ids c then objectOfId !! ownerId st ids c else None) = owner c /\
  in_int64 (ownerId st ids c) = true.
Proof.
  unfold ownerId, owned. destruct (owner c) as [o|]; [|done]. intros [-> [id E]]. rewrite E. simpl.
  destruct (Htab o id E) as (H0 & H1 & ->). by destruct (Z.leb_spec 0 id); [|lia].
Qed.

Abbreviation des n := (fun s => deserializeWorldValue limit s objectOfId n) (only parsing).

Definition value_readable (n : nat) (v : Value) : Prop :=
  storable n v ->
  writes (serializeWorldValue st ids n v) (des n) 1 (fun h => restored n h v).

Lemma emit_writes {A} (des : string -> Rd A) k t Q :
  (k <= String.length t)%nat -> readable des t Q -> writes (emit t) des k Q.
Proof. intros Hk Hr out out'. unfold emit, mmodify. intros [= <-]. eauto. Qed.

Lemma readable_tag n k t Q :
  readable (fun s => readKind limit s objectOfId (des n s) k) t Q ->
  readable (des (S n)) (String k t) Q.
Proof. intros H s Hs Hl. apply reads_tag; auto. Qed.

(** Values written in one piece. *)
Lemma scalar_readable n v k t :
  serializeWorldValue st ids (S n) v = emit (String k t) ->
  readable (fun s => readKind limit s objectOfId (des n s) k) t (fun h => restored (S n) h v) ->
  writes (serializeWorldValue st ids (S n) v) (des (S n)) 1 (fun h => restored (S n) h v).
Proof. intros -> Hr. apply emit_writes; [simpl; lia|]. by apply readable_tag. Qed.

Lemma elements_readable n l :
  (forall v, value_readable n v) -> Forall (storable n) l ->
  writes (emitAll (serializeWorldValue st ids n) l) (fun s => repeatM (length l) (des n s))
    (length l) (fun h ys => Forall2 (restored n h) l ys).
Proof.
  intros IH Hl. apply emitAll_readable.
  - intros h h' x y. apply copied_mono.
  - intros x Hx. apply (IH x). by apply (proj1 (list.Forall_forall _ _) Hl).
Qed.

Lemma entries_readable n (l : list (Value * Value)) :
  (forall v, value_readable n v) -> Forall (fun e => storable n (fst e) /\ storable n (snd e)) l ->
  writes (emitAll (fun e => serializeWorldValue st ids n (fst e) ;;
                            serializeWorldValue st ids n (snd e)) l)
    (fun s => repeatM (length l) (k <- des n s ;; v <- des n s ;; mret (k, v)))
    (length l)
    (fun h ys => Forall2 (fun e e' => restored n h (fst e) (fst e') /\
                                      restored n h (snd e) (snd e')) l ys).
Proof.
  intros IH Hl. apply (emitAll_readable _
    (fun s => k <- des n s ;; v <- des n s ;; mret (k, v))
    (fun h e e' => restored n h (fst e) (fst e') /\ restored n h (snd e) (snd e'))).
  - intros h h' x y L [? ?]. split; by eapply copied_mono.
  - intros [k v] Hx out out' E. destruct (proj1 (list.Forall_forall _ _) Hl _ Hx) as [Hk Hv].
    simpl in *. apply mbind_ok in E as ([] & out1 & E1 & E2).
    destruct (IH k Hk _ _ E1) as (t1 & -> & L1 & R1).
    destruct (IH v Hv _ _ E2) as (t2 & -> & L2 & R2).
    exists (t1 +:+ t2). rewrite sapp_assoc, slength_app. split; [done|]. split; [lia|].
    intros s Hs Hl'. eapply reads_bind; [by apply R1|]. intros k'.
    intros pre rest r P1 P2 W Hk'.
    destruct (R2 s Hs Hl' pre rest r P1 P2 W I) as (v' & r' & RR & PP & G & F).
    exists (k', v'), r'. unfold mbind. rewrite RR. split; [done|]. split; [done|].
    split; [done|]. split; [|done]. simpl. eapply copied_mono; [apply G|done].
Qed.

Lemma array_readable n v q :
  (forall v, value_readable n v) -> data v = Arr (Some q) ->
  value_readable (S n) v.
Proof.
  intros IH Ed [_ Hits] out out' E. simpl in E. rewrite Ed in E, Hits.
  apply mbind_ok in E as ([] & out1 & E1 & E2). injection E1 as <-.
  set (its := items (hp st) q) in *.
  destruct (elements_readable n its IH Hits _ _ E2) as (t & -> & L & R).
  exists ("A" +:+ (count_text its +:+ ":") +:+ t). rewrite !sapp_assoc. split; [done|].
  split; [rewrite slength_app; simpl; lia|].
  apply readable_tag. rewrite <- sapp_assoc.
  eapply (readable_counted ":"); [done|done|exact L|exact R|].
  intros s xs Hs Hl. apply reads_alloc; [auto with amlp|].
  intros h W F. apply (copied_array worldLeaf (hp st) n v q); [by unfold worldLeaf; rewrite Ed|done..].
Qed.

Lemma mapping_readable n v q :
  (forall v, value_readable n v) -> data v = Map (Some q) ->
  value_readable (S n) v.
Proof.
  intros IH Ed [_ Hm] out out' E. simpl in E. rewrite Ed in E, Hm. destruct Hm as [H1 Hes].
  set (es := entries (mapping (hp st) q)) in *. destruct (1 <? _); [done|].
  apply mbind_ok in E as ([] & out1 & E1 & E2). injection E1 as <-.
  destruct (entries_readable n es IH Hes _ _ E2) as (t & -> & L & R).
  exists ("M" +:+ (count_text es +:+ ":") +:+ t). rewrite !sapp_assoc. split; [done|].
  split; [rewrite slength_app; simpl; lia|].
  apply readable_tag. rewrite <- sapp_assoc.
  eapply (readable_counted ":"); [done|done|exact L|exact R|].
  intros s xs Hs Hl. apply reads_alloc; [auto with amlp|].
  intros h W F. apply (copied_mapping worldLeaf (hp st) n v q h xs); [by unfold worldLeaf; rewrite Ed|done..].
Qed.

(** The [0]/[1] flag of a closure. *)
Lemma reads_flag s P b :
  slen s < npos ->
  reads s P (f <- field s ";" ;; setPos (snd f) ;; mret (fst f))
    (to_string (if b : bool then 1 else 0) +:+ ";")
    (fun h a => P h /\ a = to_string (if b then 1 else 0)).
Proof.
  intros Hs. refine (reads_number s Hs P ";" "" (fun t => inl t) _ _ _ eq_refl).
  by destruct b.
Qed.

(** The head of a closure, up to its argument count. *)
Lemma reads_closure_head {B} s c (k : Z -> string -> string -> Rd B) t Q :
  slen s < npos -> slen (functionName c) < UINT64 -> owned c ->
  reads s any (k (ownerId st ids c) (to_string (if forceEfun c then 1 else 0)) (functionName c)) t Q ->
  reads s any
    (ownerId <- intField s ";" ;;
     flag <- (f <- field s ";" ;; setPos (snd f) ;; mret (fst f)) ;;
     name <- (nameLen <- sizeField s ":" ;; bytes s nameLen) ;;
     k ownerId flag name)
    ((to_string (ownerId st ids c) +:+ ";") +:+ (to_string (if forceEfun c then 1 else 0) +:+ ";")
     +:+ sized (functionName c) +:+ t) Q.
Proof.
  intros Hs Hn Ho Hk.
  eapply reads_bind; [by apply (reads_intField s Hs any), owner_read|].
  intros a1. eapply reads_bind; [by apply (reads_flag s)|].
  intros a2. eapply reads_bind; [by apply (reads_sized s Hs)|].
  intros a3 pre rest r E1 E2 W [[[HP ->] ->] ->]. by apply (Hk pre rest r).
Qed.

Lemma flag_eqb b : String.eqb (to_string (if b : bool then 1 else 0)) "1" = b.
Proof. by destruct b. Qed.

Lemma closure_readable n v l :
  (forall v, value_readable n v) -> data v = Fun (Some l) ->
  value_readable (S n) v.
Proof.
  intros IH Ed [_ Hc] out out' E. simpl in E. rewrite Ed in E, Hc.
  set (c := closure (hp st) l) in *. destruct Hc as (Ho & Hp & Hb & Hargs).
  unfold serializeClosure in E. destruct (unboundUntilBound c) eqn:Hu; [done|]. rewrite Hb in E. simpl in E.
  apply mbind_ok in E as ([] & out1 & E1 & E2). injection E1 as <-.
  destruct (elements_readable n _ IH Hargs _ _ E2) as (t & -> & L & R).
  exists ("C" +:+ (to_string (ownerId st ids c) +:+ ";")
     +:+ (to_string (if forceEfun c then 1 else 0) +:+ ";") +:+ sized (functionName c)
     +:+ (count_text (boundArgs c) +:+ ";") +:+ t).
  split; [by rewrite !sapp_assoc|]. split; [rewrite !slength_app; simpl; lia|].
  apply readable_tag. intros s Hs Hl. apply reads_inside. intros Hin.
  assert (slen (functionName c) < UINT64) as Hlen.
  { apply (inside_bound s Hs) in Hin. unfold sized in Hin. rewrite !slen_app in Hin.
    unfold slen in *. lia. }
  clear Hin. match goal with |- reads _ _ _ ?u _ => rewrite <- (sapp_nil_r u) end.
  refine (reads_bind s any (deserializeClosure limit s objectOfId (des n s)) _ _ _
    (fun h c' => exists args, Forall2 (restored n h) (boundArgs c) args /\
       c' = c <| boundArgs := args |>) _ _ _).
  - apply reads_closure_head; [done|done|done|].
    refine (readable_counted ";" (des n) _ _ _ _ _ _ _ L R _ s Hs Hl); [done|done|].
    intros s' xs Hs' Hl'. apply reads_ret. intros h F. exists xs. split; [done|].
    rewrite flag_eqb, (proj1 (owner_read c Ho)). clear -Hu Hb Hp. destruct c. cbn in *. by subst.
  - intros c'. apply reads_alloc; [auto with amlp|].
    intros h W (args & F & ->). simpl. unfold worldLeaf. rewrite Ed. exists (nextLoc h), args.
    split; [done|]. split; [by rewrite lookup_insert_eq|].
    eapply Forall2_impl; [|exact F]. intros ? ?. apply copied_mono.
    refine (newClosureAt_le _ h W).
Qed.

Lemma value_readable_all n v : value_readable n v.
Proof.
  revert v. induction n as [|n IH]; intros v; [by intros _ out out'|].
  destruct (data v) as [| |i|d|t|y|[o|]|[l|]|[l|]|[l|]|b] eqn:Ed;
    try (eapply array_readable; by eauto);
    try (eapply mapping_readable; by eauto);
    try (eapply closure_readable; by eauto).
  all: unfold value_readable; cbn [storable]; rewrite Ed; intros [Eb Hv]; try done.
  all: assert (forall h w, w = v -> restored (S n) h v w) as Hleaf
         by (intros h w ->; simpl; unfold worldLeaf; by rewrite Ed).
  all: unfold bare in Eb; rewrite Ed in Eb.
  - eapply scalar_readable; [simpl; by rewrite Ed|]. intros s Hs Hl.
    apply reads_ret; intros h _. by apply Hleaf.
  - eapply scalar_readable; [simpl; by rewrite Ed|]. intros s Hs Hl.
    eapply reads_map; [by apply (reads_intField s Hs any)|]. intros h a [_ ->]. by apply Hleaf.
  - eapply scalar_readable; [simpl; by rewrite Ed|]. intros s Hs Hl.
    eapply reads_map; [apply (reads_number s Hs any ";" "stod" Dbl.stod); [apply ostream_g_not_semicolon|done]|].
    intros h a [_ ->]. by apply Hleaf.
  - eapply scalar_readable; [simpl; by rewrite Ed|]. intros s Hs Hl.
    apply reads_inside. intros Hin. assert (slen t < UINT64) as Hlen.
    { apply (inside_bound s Hs) in Hin. unfold sized in Hin. rewrite !slen_app in Hin.
      unfold slen in *. lia. }
    eapply reads_map; [by apply (reads_sized s Hs any)|]. intros h a [_ ->]. by apply Hleaf.
  - destruct Hv as [id Eo]. destruct (Htab o id Eo) as (H1 & H2 & H3).
    eapply scalar_readable; [simpl; by rewrite Ed, Eo|]. intros s Hs Hl.
    eapply reads_map; [by apply (reads_intField s Hs any)|]. intros h a [_ ->].
    rewrite H3. by apply Hleaf.
Qed.
End RoundTrip.

(** C21: a value of the dump format is read back exactly: whatever text the
    writer emitted for a value that the format holds ([storable]: no nil, symbol,
    buffer or null reference, and floats that six digits determine), the reader
    started at that text, in any file it is part of, consumes exactly it and
    returns the same value, its containers and closures freshly allocated with
    the same content, and nothing else in the machine changed. *)
Theorem serialize_deserialize st ids objectOfId limit n v out out' :
  tables_ok ids objectOfId -> storable st ids n v ->
  serializeWorldValue st ids n v out = (Ok tt, out') ->
  exists t, out' = out +:+ t /\ forall pre rest r,
    let s := pre +:+ t +:+ rest in
    slen s < npos -> slen s <= limit -> rpos r = slen pre -> heap_wf (hp (rvm r)) ->
    exists v' r', deserializeWorldValue limit s objectOfId n r = (Ok v', r') /\
      rpos r' = slen pre + slen t /\ grows r r' /\ copied worldLeaf (hp st) n (hp (rvm r')) v v'.
Proof.
  intros Ht Hv E.
  destruct (value_readable_all st ids objectOfId limit Ht n v Hv _ _ E) as (t & -> & _ & R).
  exists t. split; [done|]. intros pre rest r s Hs Hl Hp W.
  by apply (R s Hs Hl pre rest r eq_refl Hp W).
Qed.

(** ** Termination of the writer *)
Definition children (h : heap) (v : Value) : list Value :=
  match data v with
  | Arr (Some p) => items h p
  | Map (Some p) => flat_map (fun e => [fst e; snd e]) (entries (mapping h p))
  | Fun (Some p) => boundArgs (closure h p)
  | _ => []
  end.
(** The containers reachable from [v] nest less than [n] deep. *)
Fixpoint nested (h : heap) (n : nat) (v : Value) : Prop :=
  match n with O => False | S n' => Forall (nested h n') (children h v) end.

Lemma emitAll_total {A} (f : A -> Out unit) l out :
  (forall x out, x ∈ l -> fst (f x out) <> OutOfFuel) -> fst (emitAll f l out) <> OutOfFuel.
Proof.
  revert out. induction l as [|x l IH]; simpl; intros out Hf; [done|].
  unfold mbind. pose proof (Hf x out ltac:(by left)) as Hx.
  destruct (f x out) as [[| | |] o]; simpl in *; try done. apply IH. intros. apply Hf. by right.
Qed.

(** A value whose containers are not cyclic is written, or refused with an
    error, with as much fuel as its nesting is deep. *)
Theorem serialize_terminates st ids n v out :
  nested (hp st) n v -> fst (serializeWorldValue st ids n v out) <> OutOfFuel.
Proof.
  revert v out. induction n as [|n IH]; intros v out; [done|]. simpl. unfold children.
  destruct (data v) as [| | | | | |[o|]|[p|]|[p|]|[p|]|] eqn:Ed; try done;
    rewrite ?list.Forall_forall; intros W.
  - by destruct (ids !! o).
  - unfold mbind, emit, mmodify. apply emitAll_total. auto.
  - destruct (1 <? _); [done|]. unfold mbind at 1, emit, mmodify. apply emitAll_total.
    intros e out1 He. unfold mbind.
    assert (forall x, x = fst e \/ x = snd e -> forall o, fst (serializeWorldValue st ids n x o) <> OutOfFuel)
      as Hx.
    { intros x Hx o. apply IH, W. apply list_elem_of_In, in_flat_map. exists e.
      split; [by apply list_elem_of_In|]. simpl. naive_solver. }
    pose proof (Hx _ (or_introl eq_refl) out1) as H1.
    destruct (serializeWorldValue st ids n (fst e) out1) as [[| | |] o1]; simpl in *; try done.
    by apply Hx; right.
  - unfold serializeClosure. destruct (_ || _); [done|].
    unfold mbind, emit, mmodify. apply emitAll_total. auto.
Qed.

(** ** What the reader does not reject *)
Definition vm0 : VMState := newVM (configFor "fluffos" 1000) ∅ ∅.

(** A number field whose delimiter is missing sends the reader back to the
    start of the file (the position after [npos] wraps to 0): on the text
    [A2:I5] it recurses without end, whatever the fuel. *)
Theorem unterminated_field_loops limit ids fuel h :
  2 <= limit ->
  fst (deserializeWorldValue limit "A2:I5" ids fuel (mkRead (vm0 <| hp := h |>) 0)) = OutOfFuel.
Proof.
  intros Hl. revert h. induction fuel as [|f IH]; intros h; [done|].
  simpl. unfold mbind at 1, getPos, mgets. simpl.
  assert (forall g, deserializeWorldValue limit "A2:I5" ids (S g) (mkRead (vm0 <| hp := h |>) 3)
    = (Ok (VInt 5), mkRead (vm0 <| hp := h |>) 0)) as E by (intros g; reflexivity).
  unfold readKind. simpl.
  assert (forall B (k : Z -> Rd B), (count <- sizeField "A2:I5" ":" ;; k count)
      (mkRead (vm0 <| hp := h |>) 1) = k 2 (mkRead (vm0 <| hp := h |>) 3)) as C by (intros; reflexivity).
  unfold mbind at 1, setPos, mmodify. simpl.
  unfold set_field. simpl. rewrite C. unfold mbind at 1, reserve.
  rewrite (proj2 (Z.ltb_ge _ _)) by lia. simpl.
  destruct f as [|f]; [done|]. unfold mbind at 1 2 3. rewrite E.
  unfold mbind at 1. specialize (IH h).
  destruct (deserializeWorldValue _ _ _ (S f) (mkRead _ 0)) as [r s]. simpl in IH. by subst r.
Qed.

(** A world of one object, already loaded when it is restored. *)
Definition bobWorld (vars : list Value) : VMState :=
  newVM (configFor "fluffos" 1000)
    {[ 1%positive := (newObject "/bob" 1 emptyProgram true 0) <| variables := vars |> ]} ∅.
#[local] Instance bobOps : ObjectOps := {
  cloneObject _ := mret None;
  lookupLoadedObject _ := mret (Some 1%positive);
  loadObject _ := mret None;
  retainRestoredObjects _ := mret tt
}.
Definition bobDump : string := snd (dumpState (bobWorld [VInt 7; VInt 8]) 1 [1%positive] "").
(** The result of restoring [t] over an object whose variables are 1 and 2. *)
Definition bobRestored (t : string) : outcome exn bool * list Value :=
  let '(r, s) := restoreState 1000 t 5 (mkRead (bobWorld [VInt 1; VInt 2]) 0) in
  (r, getOb (rvm s) variables [] 1%positive).

(** A dump restores the variables it was taken from, and a dump cut off in
    its last variable is restored without complaint, that variable being void. *)
Theorem truncated_dump_accepted :
  bobRestored bobDump = (Ok true, [VInt 7; VInt 8]) /\
  bobRestored (stake (String.length bobDump - 3) bobDump) = (Ok true, [VInt 7; Void]).
Proof. split; vm_compute; reflexivity. Qed.

(** ** Witnesses *)
(** The heap holds the mapping [1 : "x"] at 1 and the array of it and 5 at 2. *)
Definition savedHeap : heap :=
  let '(p, h) := newMapping (emptyMapping <| entries := [(VInt 1, V (Str "x"))] |>) emptyHeap in
  snd (newArray [V (Map (Some p)); VInt 5] h).
Definition savedVM : VMState := vm0 <| hp := savedHeap |>.
Definition savedValue : Value := V (Arr (Some 2%positive)).

Lemma serialize_deserialize_witness :
  let s := "xA2:M1:I1;S1:xI5;rest"%string in
  exists v' r', deserializeWorldValue 100 s ∅ 3 (mkRead vm0 1) = (Ok v', r') /\
    rpos r' = 17 /\ copied worldLeaf savedHeap 3 (hp (rvm r')) savedValue v'.
Proof.
  intros s. destruct (serialize_deserialize savedVM ∅ ∅ 100 3 savedValue ""
    (snd (serializeWorldValue savedVM ∅ 3 savedValue ""))) as (t & Et & H).
  - intros o id E. rewrite lookup_empty in E. discriminate E.
  - repeat first [reflexivity | split | constructor].
  - vm_compute. reflexivity.
  - assert (t = "A2:M1:I1;S1:xI5;"%string) as -> by (symmetry; vm_compute in Et; exact Et).
    destruct (H "x"%string "rest"%string (mkRead vm0 1)) as (v' & r' & H1 & H2 & _ & H3);
      [reflexivity|vm_compute; discriminate|reflexivity|apply heap_wf_empty|].
    exists v', r'. split; [exact H1|]. split; [exact H2|exact H3].
Defined.

Lemma serialize_terminates_witness :
  fst (serializeWorldValue savedVM ∅ 3 savedValue "") <> OutOfFuel.
Proof.
  apply serialize_terminates. vm_compute. repeat constructor.
Defined.

Lemma unterminated_field_loops_witness :
  fst (deserializeWorldValue 2 "A2:I5" ∅ 1000 (mkRead (vm0 <| hp := emptyHeap |>) 0)) = OutOfFuel.
Proof. apply unterminated_field_loops. lia. Defined.
