(* ===== verification/Ast.v ===== *)
(** * Ast: the syntax tree of LPC

    include/amlp/compiler/Ast.hpp.  A node is a tree of uniquely owned
    children ([AstPtr]), so it is an inductive value; a pointer that may be
    null is an option.  The class of a node, which the code recovers with
    [dynamic_cast], is its constructor. *)
From S2P Require Import Prelude CLib Double Value.
Local Open Scope Z_scope.

Module BinOp.
Inductive t :=
  | Eq | Neq | Lt | Lte | Gt | Gte | Add | Or | And | Sub | Mul | Div | Mod
  | BitAnd | BitOr | BitXor | Shl | Shr.
#[global] Instance t_eq_dec : EqDecision t.
Proof. solve_decision. Defined.
End BinOp.

Module UnaryOp.
Inductive t := Not | Neg | BitNot.
End UnaryOp.

Module IncDecOp.
Inductive t := Inc | Dec.
End IncDecOp.

Record Param := mkParam { ptype : string; pname : string; pisArray : bool }.

#[warnings="-register-all"]
Inductive AstNode :=
  (* expressions *)
  | StringLiteral (value : string)
  | IntLiteral (value : Z)
  | FloatLiteral (value : double)
  | NilLiteral
  | SymbolLiteralExpr (name : string)
  | VarRefExpr (name : string)
  | BinaryExpr (op : BinOp.t) (left right : AstNode)
  | CommaExpr (left right : AstNode)
  | UnaryExpr (op : UnaryOp.t) (operand : AstNode)
  | TernaryExpr (condition thenBranch elseBranch : AstNode)
  | CallExpr (callee : string) (args : list AstNode) (argIsSpread : list bool)
      (forceEfun parentCall : bool) (parentQualifier : string)
  | CallOtherExpr (target function : AstNode) (args : list AstNode) (argIsSpread : list bool)
  | SscanfExpr (target format : AstNode) (varNames : list string)
      (indexedTargets : list (option AstNode))
  | CatchExpr (guarded : AstNode)
  | ClosureLiteralExpr (functionName : string) (boundArgs : list AstNode) (forceEfun : bool)
  | InlineLambdaExpr (bodyExprs : list AstNode) (paramCount : Z) (boundValueExprs : list AstNode)
  | LambdaParamExpr (index : Z) (isBoundValue : bool)
  | AssignExpr (name : string) (value : AstNode) (isCompound : bool) (compoundOp : BinOp.t)
  | IncDecExpr (op : IncDecOp.t) (prefix : bool) (name : string)
      (indexTarget indexKey mapColumn : option AstNode)
  | ArrayLiteralExpr (elements : list AstNode) (elementIsSpread : list bool)
  | MappingLiteralExpr (entries : list (AstNode * list AstNode))
  | MemberNameMarker (name : string)
  | TypeCastExpr (className : string) (inner : AstNode)
  | NewClassExpr (className : string) (fieldInits : list (string * AstNode))
  | IndexExpr (target index : AstNode) (rangeEnd : option AstNode)
      (indexFromEnd rangeEndFromEnd : bool) (mapColumn : option AstNode)
  | IndexAssignExpr (target index value : AstNode) (isCompound : bool) (compoundOp : BinOp.t)
      (mapColumn : option AstNode)
  | TimeExpressionExpr (body : Block)
  | AnonFunctionExpr (params : list Param) (isVarargs : bool) (body : Block)
  (* statements *)
  | ExprStmt (expr : AstNode)
  | ReturnStmt (expr : option AstNode)
  | VarDeclStmt (type : string) (isArray : bool) (name : string) (initializer : option AstNode)
  | AssignStmt (name : string) (value : AstNode)
  | IndexAssignStmt (target index value : AstNode) (isCompound : bool) (compoundOp : BinOp.t)
      (mapColumn : option AstNode)
  | BlockStmt (block : Block)
  | IfStmt (condition : AstNode) (thenBranch : Block) (elseBranch : option Block)
  | WhileStmt (condition : AstNode) (body : Block)
  | DoWhileStmt (condition : AstNode) (body : Block)
  | ForStmt (init condition update : option AstNode) (body : Block)
  | BreakStmt
  | ContinueStmt
  | CaseLabel (value rangeEnd : option AstNode)
  | SwitchStmt (subject : AstNode) (body : list AstNode)
  | ForeachStmt (varName : string) (declareVar hasValueVar : bool) (valueVarName : string)
      (declareValueVar : bool) (collection : AstNode) (body : Block)
      (varClassType valueVarClassType : string)
with Block := mkBlock (statements : list AstNode) (isRealScope : bool).

Definition statements (b : Block) : list AstNode := let '(mkBlock ss _) := b in ss.
Definition isRealScope (b : Block) : bool := let '(mkBlock _ r) := b in r.

(** ** Declarations *)
Record FunctionDecl := mkFunctionDecl {
  fd_returnType : string;
  fd_returnTypeIsArray : bool;
  fd_name : string;
  fd_params : list Param;
  fd_isVarargs : bool;
  fd_body : option Block
}.

Record ObjectVarDecl := mkObjectVarDecl {
  ov_type : string;
  ov_isArray : bool;
  ov_name : string;
  ov_isPrivate : bool;
  ov_initializer : option AstNode
}.

Record ClassDeclStmt := mkClassDecl { cd_name : string; cd_memberNames : list string }.

Record Program := mkProgramAst {
  pg_functions : list FunctionDecl;
  pg_objectVars : list ObjectVarDecl;
  pg_inherits : list string;
  pg_classes : list ClassDeclStmt
}.
