(* ===== verification/CodeGen.v ===== *)
(** * CodeGen: from syntax trees to bytecode

    src/compiler/CodeGen.cpp, one definition per member function.  The member
    variables of the class are the record [CodeGen]; [vector]s used as stacks
    keep their back at the head of the list.  Functions that take children of
    the node take the recursive emitters as section variables; [emitExpr],
    [emitStatement] and [emitBlock] close the knot.  Lambda bodies are compiled
    from queues, one unit of fuel per queued body. *)
From S2P Require Import Prelude CLib Double Value Bytecode Ast.
Local Open Scope Z_scope.

(** [LoopContext]: the jumps waiting for the end or the next round of a loop. *)
Record LoopContext := mkLoop {
  breakJumps : list nat;
  continueJumps : list nat;
  isSwitch : bool
}.
#[export] Instance eta_LoopContext : Eta LoopContext := fun l =>
  {| breakJumps := breakJumps l; continueJumps := continueJumps l; isSwitch := isSwitch l |}.

Record PendingLambda := mkPendingLambda {
  pl_name : string;
  pl_bodyExprs : list AstNode;
  pl_paramCount : Z;
  pl_boundValueExprs : list AstNode
}.
Record PendingAnonFunc := mkPendingAnonFunc {
  pa_name : string;
  pa_params : list Param;
  pa_isVarargs : bool;
  pa_body : Block
}.

Record CodeGen := mkCodeGen {
  out_ : CompiledProgram;
  loopStack_ : list LoopContext;
  foreachCounter_ : Z;
  switchCounter_ : Z;
  indexAssignCounter_ : Z;
  locals_ : gmap string Z;
  nextLocalSlot_ : Z;
  localScopeStack_ : list (list string);
  objectVars_ : gmap string Z;
  classDefs_ : gmap string (list string);
  localClassTypes_ : gmap string string;
  objectVarClassTypes_ : gmap string string;
  pendingLambdas_ : list PendingLambda;
  nextLambdaId_ : Z;
  currentLambdaBoundValueCount_ : nat;
  pendingAnonFuncs_ : list PendingAnonFunc;
  nextAnonFuncId_ : Z
}.
#[export] Instance eta_CodeGen : Eta CodeGen := fun g =>
  {| out_ := out_ g; loopStack_ := loopStack_ g; foreachCounter_ := foreachCounter_ g;
     switchCounter_ := switchCounter_ g; indexAssignCounter_ := indexAssignCounter_ g;
     locals_ := locals_ g; nextLocalSlot_ := nextLocalSlot_ g;
     localScopeStack_ := localScopeStack_ g; objectVars_ := objectVars_ g;
     classDefs_ := classDefs_ g; localClassTypes_ := localClassTypes_ g;
     objectVarClassTypes_ := objectVarClassTypes_ g; pendingLambdas_ := pendingLambdas_ g;
     nextLambdaId_ := nextLambdaId_ g;
     currentLambdaBoundValueCount_ := currentLambdaBoundValueCount_ g;
     pendingAnonFuncs_ := pendingAnonFuncs_ g; nextAnonFuncId_ := nextAnonFuncId_ g |}.

Definition newCodeGen : CodeGen :=
  {| out_ := emptyProgram; loopStack_ := []; foreachCounter_ := 0; switchCounter_ := 0;
     indexAssignCounter_ := 0; locals_ := ∅; nextLocalSlot_ := 0; localScopeStack_ := [];
     objectVars_ := ∅; classDefs_ := ∅; localClassTypes_ := ∅; objectVarClassTypes_ := ∅;
     pendingLambdas_ := []; nextLambdaId_ := 0; currentLambdaBoundValueCount_ := 0;
     pendingAnonFuncs_ := []; nextAnonFuncId_ := 0 |}.

Abbreviation G := (M CodeGen exn) (only parsing).

Definition genError {A} (msg : string) : G A := mthrow (LpcRuntimeError ("codegen: " +:+ msg)).
Definition quoted (s : string) : string := str1 DQUOTE +:+ s +:+ str1 DQUOTE.
(** [static_cast<int>] of a size. *)
Definition int_of (n : nat) : Z := wrap32 (Z.of_nat n).

Definition modOut (f : CompiledProgram -> CompiledProgram) : G unit :=
  mmodify (fun g => g <| out_ ::= f |>).
(** [out_->code.push_back(Instruction{op, a, n})] *)
Definition emit (op : OpCode) (a n : Z) : G unit :=
  modOut (fun p => p <| code ::= fun c => c ++ [mkInstr op a n] |>).
Definition codeSize : G nat := mgets (fun g => length (code (out_ g))).

(** ** Pools and variables *)
Fixpoint indexIf {A} (p : A -> bool) (l : list A) : option nat :=
  match l with
  | [] => None
  | x :: l' => if p x then Some O else S <$> indexIf p l'
  end.

Definition internString (s : string) : G Z :=
  pool <- mgets (fun g => stringPool (out_ g)) ;;
  match indexIf (String.eqb s) pool with
  | Some i => mret (int_of i)
  | None => modOut (fun p => p <| stringPool ::= fun l => l ++ [s] |>) ;; mret (int_of (length pool))
  end.

Definition internFloat (d : double) : G Z :=
  pool <- mgets (fun g => floatPool (out_ g)) ;;
  match indexIf (fun x => Dbl.eqb x d) pool with
  | Some i => mret (int_of i)
  | None => modOut (fun p => p <| floatPool ::= fun l => l ++ [d] |>) ;; mret (int_of (length pool))
  end.

Inductive VarKind := LocalVar | ObjectVar.
Record ResolvedVar := mkResolved { kind : VarKind; slot : Z }.

Definition resolveVariable (name : string) : G ResolvedVar := fun g =>
  match locals_ g !! name with
  | Some s => (Ok (mkResolved LocalVar s), g)
  | None => match objectVars_ g !! name with
            | Some s => (Ok (mkResolved ObjectVar s), g)
            | None => genError ("undeclared variable " +:+ quoted name) g
            end
  end.
Definition pushOp (v : ResolvedVar) : OpCode :=
  match kind v with LocalVar => PushLocal | ObjectVar => PushObjectVar end.
Definition storeOp (v : ResolvedVar) : OpCode :=
  match kind v with LocalVar => StoreLocal | ObjectVar => StoreObjectVar end.

Definition classMembers (className : string) : G (list string) :=
  defs <- mgets classDefs_ ;;
  match defs !! className with
  | None => genError ("undefined class " +:+ quoted className)
  | Some members => mret members
  end.
Definition noMember {A} (className memberName : string) : G A :=
  genError ("class " +:+ quoted className +:+ " has no member " +:+ quoted memberName).

Definition resolveClassMemberIndex (className memberName : string) : G Z :=
  members <- classMembers className ;;
  match indexIf (fun m => String.eqb m memberName) members with
  | Some i => mret (int_of i)
  | None => noMember className memberName
  end.

Fixpoint staticClassTypeOf (g : CodeGen) (expr : AstNode) : string :=
  match expr with
  | TypeCastExpr className _ => className
  | IndexExpr target index rangeEnd _ _ _ =>
      match rangeEnd, index with
      | Some _, _ | _, MemberNameMarker _ => ""
      | None, _ => staticClassTypeOf g target
      end
  | VarRefExpr name =>
      match localClassTypes_ g !! name with
      | Some c => c
      | None => default "" (objectVarClassTypes_ g !! name)
      end
  | _ => ""
  end.

(** The name of a class type, [typeText.substr(6)] after "class:". *)
Definition classTypeOf (typeText : string) : option string :=
  if starts_with "class:" typeText then Some (sdrop 6 typeText) else None.

Definition declareLocal (name typeText : string) : G Z :=
  slot <- mgets nextLocalSlot_ ;;
  if String.eqb name "" then mmodify (fun g => g <| nextLocalSlot_ := slot + 1 |>) ;; mret slot
  else
  known <- mgets locals_ ;;
  match known !! name with
  | Some _ => genError ("variable " +:+ quoted name +:+ " already declared in this scope")
  | None =>
      mmodify (fun g => g <| nextLocalSlot_ := slot + 1 |> <| locals_ ::= <[name := slot]> |>) ;;
      match classTypeOf typeText with
      | Some c => mmodify (fun g => g <| localClassTypes_ ::= <[name := c]> |>)
      | None => mret tt
      end ;;
      mmodify (fun g => match localScopeStack_ g with
                        | [] => g
                        | top :: rest => g <| localScopeStack_ := (top ++ [name]) :: rest |>
                        end) ;;
      mret slot
  end.

(** ** Jumps *)
Definition emitJumpPlaceholder (op : OpCode) : G nat :=
  idx <- codeSize ;; emit op (-1) 0 ;; mret idx.
Definition setOperand (z : Z) (i : Instruction) : Instruction := mkInstr (op i) z (argCount i).
Definition patchJumpTo (idx target : nat) : G unit :=
  modOut (fun p => p <| code ::= alter (setOperand (int_of target)) idx |>).
Definition patchJumpToHere (idx : nat) : G unit := here <- codeSize ;; patchJumpTo idx here.

Fixpoint patchAll (idxs : list nat) (target : nat) : G unit :=
  match idxs with
  | [] => mret tt
  | i :: idxs' => patchJumpTo i target ;; patchAll idxs' target
  end.
Definition patchAllToHere (idxs : list nat) : G unit := here <- codeSize ;; patchAll idxs here.

Definition pushLoop (l : LoopContext) : G unit := mmodify (fun g => g <| loopStack_ ::= cons l |>).
Definition popLoop : G LoopContext := fun g =>
  match loopStack_ g with
  | [] => (Undefined "back of an empty vector", g)
  | l :: rest => (Ok l, g <| loopStack_ := rest |>)
  end.
Definition newLoop : LoopContext := mkLoop [] [] false.

Definition openScope : G unit := mmodify (fun g => g <| localScopeStack_ ::= cons [] |>).
(** The names of the innermost scope are forgotten. *)
Definition closeScope : G unit := fun g =>
  match localScopeStack_ g with
  | [] => (Undefined "back of an empty vector", g)
  | names :: rest =>
      (Ok tt, g <| locals_ ::= fun m => foldr delete m names |>
                <| localClassTypes_ ::= fun m => foldr delete m names |>
                <| localScopeStack_ := rest |>)
  end.

(** The opcode of a binary operator that is not short-circuit. *)
Definition binaryOp (o : BinOp.t) : option OpCode :=
  match o with
  | BinOp.Eq => Some Eq | BinOp.Neq => Some Neq | BinOp.Lt => Some Lt | BinOp.Lte => Some Lte
  | BinOp.Gt => Some Gt | BinOp.Gte => Some Gte | BinOp.Add => Some Add | BinOp.Sub => Some Sub
  | BinOp.Mul => Some Mul | BinOp.Div => Some Div | BinOp.Mod => Some Mod
  | BinOp.BitAnd => Some BitAnd | BinOp.BitOr => Some BitOr | BinOp.BitXor => Some BitXor
  | BinOp.Shl => Some Shl | BinOp.Shr => Some Shr
  | BinOp.Or | BinOp.And => None
  end.
Definition emitBinaryOp (o : BinOp.t) : G unit :=
  match binaryOp o with Some op => emit op 0 0 | None => genError "unknown BinOp" end.

(** The operators a compound assignment may use. *)
Definition compoundOpcode (o : BinOp.t) : option OpCode :=
  match o with
  | BinOp.Add => Some Add | BinOp.Sub => Some Sub | BinOp.Mul => Some Mul | BinOp.Div => Some Div
  | BinOp.Mod => Some Mod | BinOp.BitOr => Some BitOr | BinOp.BitAnd => Some BitAnd
  | BinOp.BitXor => Some BitXor | BinOp.Shl => Some Shl | BinOp.Shr => Some Shr
  | _ => None
  end.
Definition emitCompoundOp (o : BinOp.t) : G unit :=
  match compoundOpcode o with
  | Some op => emit op 0 0
  | None => genError "unsupported compound assignment operator"
  end.

Fixpoint forEach {A} (l : list A) (f : A -> G unit) : G unit :=
  match l with [] => mret tt | x :: l' => f x ;; forEach l' f end.

(** ** Expressions *)
Section Emitters.
Context (emitExpr emitStatement : AstNode -> G unit) (emitBlock : Block -> G unit).

Fixpoint emitAll (es : list AstNode) : G unit :=
  match es with [] => mret tt | e :: es' => emitExpr e ;; emitAll es' end.
Fixpoint emitStatements (ss : list AstNode) : G unit :=
  match ss with [] => mret tt | s :: ss' => emitStatement s ;; emitStatements ss' end.
Definition emitOpt (e : option AstNode) : G unit :=
  match e with Some x => emitExpr x | None => mret tt end.

Definition emitIndexValue (targetExpr indexNode : AstNode) : G unit :=
  match indexNode with
  | MemberNameMarker name =>
      className <- mgets (fun g => staticClassTypeOf g targetExpr) ;;
      if String.eqb className "" then
        genError ("cannot resolve " +:+ quoted ("->" +:+ name)
          +:+ ": the target's static class type is not known here (only a variable declared with a real "
          +:+ quoted "class <Name>" +:+ " type resolves)")
      else
        memberIndex <- resolveClassMemberIndex className name ;;
        emit PushInt memberIndex 0
  | _ => emitExpr indexNode
  end.

Definition emitBinaryExpr (o : BinOp.t) (left right : AstNode) : G unit :=
  emitExpr left ;; emitExpr right ;; emitBinaryOp o.

Definition emitLogicalExpr (o : BinOp.t) (left right : AstNode) : G unit :=
  emitExpr left ;;
  emit Dup 0 0 ;;
  jumpIfFalseIdx <- emitJumpPlaceholder JumpIfFalse ;;
  if decide (o = BinOp.Or) then
    jumpToEndIdx <- emitJumpPlaceholder Jump ;;
    patchJumpToHere jumpIfFalseIdx ;;
    emit Pop 0 0 ;;
    emitExpr right ;;
    patchJumpToHere jumpToEndIdx
  else
    emit Pop 0 0 ;;
    emitExpr right ;;
    patchJumpToHere jumpIfFalseIdx.

Definition emitTernaryExpr (condition thenBranch elseBranch : AstNode) : G unit :=
  emitExpr condition ;;
  jumpIfFalseIdx <- emitJumpPlaceholder JumpIfFalse ;;
  emitExpr thenBranch ;;
  jumpToEndIdx <- emitJumpPlaceholder Jump ;;
  patchJumpToHere jumpIfFalseIdx ;;
  emitExpr elseBranch ;;
  patchJumpToHere jumpToEndIdx.

Definition emitCatchExpr (guarded : AstNode) : G unit :=
  catchFrameIdx <- emitJumpPlaceholder PushCatchFrame ;;
  emitExpr guarded ;;
  emit Pop 0 0 ;;
  emit PopCatchFrame 0 0 ;;
  patchJumpToHere catchFrameIdx.

Definition emitTimeExpressionExpr (body : Block) : G unit :=
  emit TimeExpressionStart 0 0 ;;
  emitBlock body ;;
  emit TimeExpressionEnd 0 0.

Definition emitAssignExpr (name : string) (value : AstNode) (isCompound : bool)
    (compoundOp : BinOp.t) : G unit :=
  var <- resolveVariable name ;;
  (if isCompound then
     emit (pushOp var) (slot var) 0 ;;
     emitExpr value ;;
     emitCompoundOp compoundOp
   else emitExpr value) ;;
  emit Dup 0 0 ;;
  emit (storeOp var) (slot var) 0.

Definition columnFlag (mapColumn : option AstNode) : Z :=
  match mapColumn with Some _ => 4 | None => 0 end.

(** A fresh hidden local. *)
Definition hiddenLocal (prefix : string) : G Z :=
  n <- mgets indexAssignCounter_ ;;
  mmodify (fun g => g <| indexAssignCounter_ := n + 1 |>) ;;
  declareLocal (prefix +:+ to_string n) "".

(** [target[index]] or [target[index, column]] pushed for Index or IndexAssign. *)
Definition emitPlace (target index : AstNode) (mapColumn : option AstNode) : G unit :=
  emitExpr target ;; emitIndexValue target index ;; emitOpt mapColumn.

Definition emitIncDecIndexed (deltaOp : OpCode) (prefix : bool) (target key : AstNode)
    (mapColumn : option AstNode) : G unit :=
  oldSlot <- hiddenLocal "$idxassign#" ;;
  newSlot <- hiddenLocal "$idxassign#" ;;
  let flags := columnFlag mapColumn in
  emitPlace target key mapColumn ;;
  emit Index 0 flags ;;
  emit StoreLocal oldSlot 0 ;;
  emit PushLocal oldSlot 0 ;;
  emit PushInt 1 0 ;;
  emit deltaOp 0 0 ;;
  emit StoreLocal newSlot 0 ;;
  emitPlace target key mapColumn ;;
  emit PushLocal newSlot 0 ;;
  emit IndexAssign 0 flags ;;
  emit PushLocal (if prefix then newSlot else oldSlot) 0.

Definition deltaOpcode (o : IncDecOp.t) : OpCode :=
  match o with IncDecOp.Inc => Add | IncDecOp.Dec => Sub end.

Definition emitIncDecVar (deltaOp : OpCode) (prefix : bool) (name : string) : G unit :=
  var <- resolveVariable name ;;
  emit (pushOp var) (slot var) 0 ;;
  if prefix then
    emit PushInt 1 0 ;; emit deltaOp 0 0 ;; emit Dup 0 0 ;; emit (storeOp var) (slot var) 0
  else
    emit Dup 0 0 ;; emit PushInt 1 0 ;; emit deltaOp 0 0 ;; emit (storeOp var) (slot var) 0.

Definition emitIncDecExpr (o : IncDecOp.t) (prefix : bool) (name : string)
    (indexTarget indexKey mapColumn : option AstNode) : G unit :=
  match indexTarget with
  | Some target =>
      match indexKey with
      | Some key => emitIncDecIndexed (deltaOpcode o) prefix target key mapColumn
      | None => mundef "null indexKey"
      end
  | None => emitIncDecVar (deltaOpcode o) prefix name
  end.

Fixpoint emitSpreadFrom (n : Z) (isSpread : list bool) : G unit :=
  match isSpread with
  | [] => mret tt
  | spread :: rest =>
      (if spread : bool then emit ExpandVarargs (n - 1) 0 else mret tt) ;; emitSpreadFrom (n - 1) rest
  end.
Definition emitSpreadExpansions (isSpread : list bool) : G unit :=
  emitSpreadFrom (int_of (length isSpread)) isSpread.

Definition emitCallExpr (callee : string) (args : list AstNode) (argIsSpread : list bool)
    (forceEfun parentCall : bool) (parentQualifier : string) : G unit :=
  emitAll args ;;
  emitSpreadExpansions argIsSpread ;;
  calleeIdx <- internString callee ;;
  if parentCall then
    qualifierIdx <- (if String.eqb parentQualifier "" then mret (-1) else internString parentQualifier) ;;
    emit CallParent calleeIdx (int_of (length args)) ;;
    emit CallParentQualifierSlot qualifierIdx 0
  else emit (if forceEfun then CallEfun else Call) calleeIdx (int_of (length args)).

Definition emitCallOtherExpr (target function : AstNode) (args : list AstNode)
    (argIsSpread : list bool) : G unit :=
  emitExpr target ;;
  emitExpr function ;;
  emitAll args ;;
  emitSpreadExpansions argIsSpread ;;
  calleeIdx <- internString "call_other" ;;
  emit CallEfun calleeIdx (int_of (2 + length args)).

(** The var-slot table; returns the hidden locals of the indexed outputs. *)
Fixpoint emitVarSlots (varNames : list string) (indexed : list (option AstNode)) : G (list Z) :=
  match varNames with
  | [] => mret []
  | name :: varNames' =>
      match indexed with
      | [] => mundef "indexedTargets out of range"
      | Some _ :: indexed' =>
          tempSlot <- hiddenLocal "$sscanf_out#" ;;
          emit SscanfVarSlot tempSlot 0 ;;
          slots <- emitVarSlots varNames' indexed' ;;
          mret (tempSlot :: slots)
      | None :: indexed' =>
          var <- resolveVariable name ;;
          emit SscanfVarSlot (slot var) (match kind var with ObjectVar => 1 | LocalVar => 0 end) ;;
          emitVarSlots varNames' indexed'
      end
  end.

(** The indexed outputs, written from their hidden locals. *)
Fixpoint emitIndexedWrites (slots : list Z) (indexed : list (option AstNode)) : G unit :=
  match indexed with
  | [] => mret tt
  | None :: indexed' => emitIndexedWrites slots indexed'
  | Some target :: indexed' =>
      match slots with
      | [] => mret tt
      | tempSlot :: slots' =>
          match target with
          | IndexExpr t index _ _ _ mapColumn =>
              emitExpr t ;;
              emitExpr index ;;
              emitOpt mapColumn ;;
              emit PushLocal tempSlot 0 ;;
              emit IndexAssign 0 (columnFlag mapColumn)
          | _ => mundef "static_cast to IndexExpr"
          end ;;
          emitIndexedWrites slots' indexed'
      end
  end.

Definition emitSscanfExpr (target format : AstNode) (varNames : list string)
    (indexedTargets : list (option AstNode)) : G unit :=
  emitExpr target ;;
  emitExpr format ;;
  emit Sscanf (int_of (length varNames)) 0 ;;
  slots <- emitVarSlots varNames indexedTargets ;;
  emitIndexedWrites slots indexedTargets.

Definition emitIndexExpr (target index : AstNode) (rangeEnd : option AstNode)
    (indexFromEnd rangeEndFromEnd : bool) (mapColumn : option AstNode) : G unit :=
  emitExpr target ;;
  emitIndexValue target index ;;
  let flags := if indexFromEnd then 1 else 0 in
  match rangeEnd with
  | Some e => emitExpr e ;; emit RangeIndex 0 (Z.lor flags (if rangeEndFromEnd then 2 else 0))
  | None => emitOpt mapColumn ;; emit Index 0 (Z.lor flags (columnFlag mapColumn))
  end.

Definition emitIndexAssignExpr (target index value : AstNode) (isCompound : bool)
    (compoundOp : BinOp.t) (mapColumn : option AstNode) : G unit :=
  tempSlot <- hiddenLocal "$idxassign#" ;;
  let flags := columnFlag mapColumn in
  (if isCompound then
     emitPlace target index mapColumn ;;
     emit Index 0 flags ;;
     emitExpr value ;;
     emitCompoundOp compoundOp
   else emitExpr value) ;;
  emit StoreLocal tempSlot 0 ;;
  emitPlace target index mapColumn ;;
  emit PushLocal tempSlot 0 ;;
  emit IndexAssign 0 flags ;;
  emit PushLocal tempSlot 0.

(** The first initializer of that name. *)
Fixpoint emitField (memberName : string) (fieldInits : list (string * AstNode)) : G unit :=
  match fieldInits with
  | [] => emit PushInt 0 0
  | (fname, fexpr) :: rest =>
      if String.eqb fname memberName then emitExpr fexpr else emitField memberName rest
  end.
Fixpoint checkFields (className : string) (members fields : list string) : G unit :=
  match fields with
  | [] => mret tt
  | f :: fields' =>
      if existsb (fun m => String.eqb m f) members then checkFields className members fields'
      else noMember className f
  end.

Definition emitNewClassExpr (className : string) (fieldInits : list (string * AstNode)) : G unit :=
  members <- classMembers className ;;
  forEach members (fun m => emitField m fieldInits) ;;
  checkFields className members (map fst fieldInits) ;;
  emit MakeArray 1 (int_of (length members)).

Fixpoint emitEntries (entries : list (AstNode * list AstNode)) : G unit :=
  match entries with
  | [] => mret tt
  | (key, vals) :: rest => emitExpr key ;; emitAll vals ;; emitEntries rest
  end.
Definition mappingWidth (entries : list (AstNode * list AstNode)) : Z :=
  match entries with [] => 1 | (_, vals) :: _ => Z.max 1 (int_of (length vals)) end.
Definition emitMappingLiteral (entries : list (AstNode * list AstNode)) : G unit :=
  emitEntries entries ;;
  emit MakeMapping (mappingWidth entries) (int_of (length entries)).

Definition emitUnaryExpr (o : UnaryOp.t) (operand : AstNode) : G unit :=
  match o with
  | UnaryOp.Not => emitExpr operand ;; emit Not 0 0
  | UnaryOp.BitNot => emitExpr operand ;; emit BitNot 0 0
  | UnaryOp.Neg => emit PushInt 0 0 ;; emitExpr operand ;; emit Sub 0 0
  end.

Definition emitVarRef (name : string) : G unit :=
  var <- resolveVariable name ;; emit (pushOp var) (slot var) 0.

Definition emitClosureLiteral (functionName : string) (boundArgs : list AstNode) (forceEfun : bool)
    : G unit :=
  emitAll boundArgs ;;
  nameIdx <- internString functionName ;;
  emit (if forceEfun then PushEfunClosure else PushClosure) nameIdx (int_of (length boundArgs)).

(** [$N]: the call-time arguments come after the bound values. *)
Definition emitLambdaParam (index : Z) (isBoundValue : bool) : G unit :=
  bound <- mgets currentLambdaBoundValueCount_ ;;
  emit PushLocal (if isBoundValue then index else index + int_of bound) 0.

Definition emitInlineLambda (bodyExprs : list AstNode) (paramCount : Z)
    (boundValueExprs : list AstNode) : G unit :=
  emitAll boundValueExprs ;;
  id <- mgets nextLambdaId_ ;;
  let name := "$lambda#" +:+ to_string id in
  mmodify (fun g => g <| nextLambdaId_ := id + 1 |>
    <| pendingLambdas_ ::= fun l => l ++ [mkPendingLambda name bodyExprs paramCount boundValueExprs] |>) ;;
  nameIdx <- internString name ;;
  emit PushClosure nameIdx (int_of (length boundValueExprs)).

Definition emitAnonFunction (params : list Param) (isVarargs : bool) (body : Block) : G unit :=
  id <- mgets nextAnonFuncId_ ;;
  let name := "$anonfunc#" +:+ to_string id in
  mmodify (fun g => g <| nextAnonFuncId_ := id + 1 |>
    <| pendingAnonFuncs_ ::= fun l => l ++ [mkPendingAnonFunc name params isVarargs body] |>) ;;
  nameIdx <- internString name ;;
  emit PushClosure nameIdx 0.

(** ** Statements *)
Definition emitReturnStmt (expr : option AstNode) : G unit := emitOpt expr ;; emit Return 0 0.

Definition emitVarDeclStmt (type name : string) (initializer : option AstNode) : G unit :=
  slot <- declareLocal name type ;;
  match initializer with
  | Some e => emitExpr e ;; emit StoreLocal slot 0
  | None => mret tt
  end.

Definition emitAssignStmt (name : string) (value : AstNode) : G unit :=
  var <- resolveVariable name ;;
  emitExpr value ;;
  emit (storeOp var) (slot var) 0.

Definition emitIndexAssignStmt (target index value : AstNode) (isCompound : bool)
    (compoundOp : BinOp.t) (mapColumn : option AstNode) : G unit :=
  let flags := columnFlag mapColumn in
  if isCompound then
    emitPlace target index mapColumn ;;
    emitPlace target index mapColumn ;;
    emit Index 0 flags ;;
    emitExpr value ;;
    emitCompoundOp compoundOp ;;
    emit IndexAssign 0 flags
  else
    emitPlace target index mapColumn ;;
    emitExpr value ;;
    emit IndexAssign 0 flags.

Definition emitIfStmt (condition : AstNode) (thenBranch : Block) (elseBranch : option Block) : G unit :=
  emitExpr condition ;;
  jumpIfFalseIdx <- emitJumpPlaceholder JumpIfFalse ;;
  emitBlock thenBranch ;;
  match elseBranch with
  | Some b =>
      jumpToEndIdx <- emitJumpPlaceholder Jump ;;
      patchJumpToHere jumpIfFalseIdx ;;
      emitBlock b ;;
      patchJumpToHere jumpToEndIdx
  | None => patchJumpToHere jumpIfFalseIdx
  end.

(** The body of a loop; returns the jumps it leaves to be patched. *)
Definition emitLoopBody (body : Block) : G LoopContext :=
  pushLoop newLoop ;; emitBlock body ;; popLoop.

Definition emitWhileStmt (condition : AstNode) (body : Block) : G unit :=
  loopTop <- codeSize ;;
  emitExpr condition ;;
  jumpIfFalseIdx <- emitJumpPlaceholder JumpIfFalse ;;
  ctx <- emitLoopBody body ;;
  patchAll (continueJumps ctx) loopTop ;;
  emit Jump (int_of loopTop) 0 ;;
  patchJumpToHere jumpIfFalseIdx ;;
  patchAllToHere (breakJumps ctx).

Definition emitDoWhileStmt (condition : AstNode) (body : Block) : G unit :=
  bodyStart <- codeSize ;;
  ctx <- emitLoopBody body ;;
  continueTarget <- codeSize ;;
  patchAll (continueJumps ctx) continueTarget ;;
  emitExpr condition ;;
  jumpIfFalseIdx <- emitJumpPlaceholder JumpIfFalse ;;
  emit Jump (int_of bodyStart) 0 ;;
  patchJumpToHere jumpIfFalseIdx ;;
  patchAllToHere (breakJumps ctx).

(** The update clause of a [for]; the initializer of one that declares nothing. *)
Definition emitForClause (clause : option AstNode) : G unit :=
  match clause with
  | None => mret tt
  | Some (BlockStmt b) => emitBlock b
  | Some e => emitExpr e ;; emit Pop 0 0
  end.
Definition emitForInit (init : option AstNode) : G unit :=
  match init with
  | Some (VarDeclStmt type _ name initializer) => emitVarDeclStmt type name initializer
  | _ => emitForClause init
  end.

Definition emitForCondition (condition : option AstNode) : G (option nat) :=
  match condition with
  | Some c => emitExpr c ;; idx <- emitJumpPlaceholder JumpIfFalse ;; mret (Some idx)
  | None => mret None
  end.

Definition emitForStmt (init condition update : option AstNode) (body : Block) : G unit :=
  openScope ;;
  emitForInit init ;;
  loopTop <- codeSize ;;
  jumpIfFalseIdx <- emitForCondition condition ;;
  ctx <- emitLoopBody body ;;
  continueTarget <- codeSize ;;
  patchAll (continueJumps ctx) continueTarget ;;
  emitForClause update ;;
  emit Jump (int_of loopTop) 0 ;;
  match jumpIfFalseIdx with Some idx => patchJumpToHere idx | None => mret tt end ;;
  patchAllToHere (breakJumps ctx) ;;
  closeScope.

(** The loop variable: declared here, or found in scope. *)
Definition foreachVar (declare : bool) (name classType : string) : G ResolvedVar :=
  if declare then
    slot <- declareLocal name (if String.eqb classType "" then "" else "class:" +:+ classType) ;;
    mret (mkResolved LocalVar slot)
  else resolveVariable name.

Definition emitForeachValue (origSlot : Z) (keyVar : ResolvedVar) (declare : bool)
    (name classType : string) : G unit :=
  valVar <- foreachVar declare name classType ;;
  emit PushLocal origSlot 0 ;;
  emit (pushOp keyVar) (slot keyVar) 0 ;;
  emit Index 0 0 ;;
  emit (storeOp valVar) (slot valVar) 0.

(** The three hidden locals: the collection, the array to walk, the index. *)
Definition emitForeachHead (collection : AstNode) : G (Z * Z * Z) :=
  id <- mgets foreachCounter_ ;;
  mmodify (fun g => g <| foreachCounter_ := id + 1 |>) ;;
  origSlot <- declareLocal ("$foreach_orig_" +:+ to_string id) "" ;;
  emitExpr collection ;;
  emit StoreLocal origSlot 0 ;;
  iterSlot <- declareLocal ("$foreach_iter_" +:+ to_string id) "" ;;
  emit PushLocal origSlot 0 ;;
  emit ForeachKeys 0 0 ;;
  emit StoreLocal iterSlot 0 ;;
  idxSlot <- declareLocal ("$foreach_idx_" +:+ to_string id) "" ;;
  emit PushInt 0 0 ;;
  emit StoreLocal idxSlot 0 ;;
  mret (origSlot, iterSlot, idxSlot).

Definition emitForeachStmt (varName : string) (declareVar hasValueVar : bool)
    (valueVarName : string) (declareValueVar : bool) (collection : AstNode) (body : Block)
    (varClassType valueVarClassType : string) : G unit :=
  openScope ;;
  slots <- emitForeachHead collection ;;
  let '(origSlot, iterSlot, idxSlot) := slots in
  loopTop <- codeSize ;;
  emit PushLocal idxSlot 0 ;;
  emit PushLocal iterSlot 0 ;;
  sizeofIdx <- internString "sizeof" ;;
  emit Call sizeofIdx 1 ;;
  emit Lt 0 0 ;;
  jumpIfFalseIdx <- emitJumpPlaceholder JumpIfFalse ;;
  keyVar <- foreachVar declareVar varName varClassType ;;
  emit PushLocal iterSlot 0 ;;
  emit PushLocal idxSlot 0 ;;
  emit Index 0 0 ;;
  emit (storeOp keyVar) (slot keyVar) 0 ;;
  (if hasValueVar then
     emitForeachValue origSlot keyVar declareValueVar valueVarName valueVarClassType
   else mret tt) ;;
  ctx <- emitLoopBody body ;;
  continueTarget <- codeSize ;;
  patchAll (continueJumps ctx) continueTarget ;;
  emit PushLocal idxSlot 0 ;;
  emit PushInt 1 0 ;;
  emit Add 0 0 ;;
  emit StoreLocal idxSlot 0 ;;
  emit Jump (int_of loopTop) 0 ;;
  patchJumpToHere jumpIfFalseIdx ;;
  patchAllToHere (breakJumps ctx) ;;
  closeScope.

(** First pass of a [switch]: the comparisons.  Per label position, the jump
    to its body; and the position of the last [default]. *)
Definition emitCaseRange (subjSlot : Z) (low high : AstNode) : G nat :=
  emit PushLocal subjSlot 0 ;;
  emitExpr low ;;
  emit Gte 0 0 ;;
  emit Dup 0 0 ;;
  lowFailedJumpIdx <- emitJumpPlaceholder JumpIfFalse ;;
  emit Pop 0 0 ;;
  emit PushLocal subjSlot 0 ;;
  emitExpr high ;;
  emit Lte 0 0 ;;
  patchJumpToHere lowFailedJumpIdx ;;
  emit Not 0 0 ;;
  emitJumpPlaceholder JumpIfFalse.
Definition emitCaseValue (subjSlot : Z) (value : AstNode) : G nat :=
  emit PushLocal subjSlot 0 ;;
  emitExpr value ;;
  emit Eq 0 0 ;;
  emit Not 0 0 ;;
  emitJumpPlaceholder JumpIfFalse.

Fixpoint emitSwitchLabels (subjSlot : Z) (i : nat) (body : list AstNode)
    : G (list (nat * nat) * option nat) :=
  match body with
  | [] => mret ([], None)
  | CaseLabel None _ :: body' =>
      r <- emitSwitchLabels subjSlot (S i) body' ;;
      mret (fst r, Some (default i (snd r)))
  | CaseLabel (Some value) rangeEnd :: body' =>
      jumpIdx <- match rangeEnd with
                 | Some high => emitCaseRange subjSlot value high
                 | None => emitCaseValue subjSlot value
                 end ;;
      r <- emitSwitchLabels subjSlot (S i) body' ;;
      mret ((i, jumpIdx) :: fst r, snd r)
  | _ :: body' => emitSwitchLabels subjSlot (S i) body'
  end.

(** Second pass: the bodies, with the jumps of each label patched to it. *)
Fixpoint emitSwitchBodies (jumps : list (nat * nat)) (defaultBodyIndex : option nat)
    (noMatchJumpIdx : nat) (i : nat) (body : list AstNode) : G unit :=
  match body with
  | [] => mret tt
  | s :: body' =>
      patchAllToHere (map snd (List.filter (fun j => Nat.eqb (fst j) i) jumps)) ;;
      (if bool_decide (defaultBodyIndex = Some i) then patchJumpToHere noMatchJumpIdx
       else match s with
            | CaseLabel _ _ => mret tt
            | _ => emitStatement s
            end) ;;
      emitSwitchBodies jumps defaultBodyIndex noMatchJumpIdx (S i) body'
  end.

Definition emitSwitchStmt (subject : AstNode) (body : list AstNode) : G unit :=
  n <- mgets switchCounter_ ;;
  mmodify (fun g => g <| switchCounter_ := n + 1 |>) ;;
  subjSlot <- declareLocal ("$switch_subj_" +:+ to_string n) "" ;;
  emitExpr subject ;;
  emit StoreLocal subjSlot 0 ;;
  labels <- emitSwitchLabels subjSlot 0 body ;;
  let '(jumps, defaultBodyIndex) := labels in
  noMatchJumpIdx <- emitJumpPlaceholder Jump ;;
  pushLoop (mkLoop [] [] true) ;;
  emitSwitchBodies jumps defaultBodyIndex noMatchJumpIdx 0 body ;;
  match defaultBodyIndex with
  | None => patchJumpToHere noMatchJumpIdx
  | Some _ => mret tt
  end ;;
  ctx <- popLoop ;;
  patchAllToHere (breakJumps ctx).

Definition emitBreakStmt : G unit :=
  loops <- mgets loopStack_ ;;
  match loops with
  | [] => genError "break statement outside of a loop"
  | top :: rest =>
      idx <- emitJumpPlaceholder Jump ;;
      mmodify (fun g => g <| loopStack_ := (top <| breakJumps ::= fun l => l ++ [idx] |>) :: rest |>)
  end.

(** The innermost frame that is not a [switch]. *)
Fixpoint addContinue (idx : nat) (loops : list LoopContext) : option (list LoopContext) :=
  match loops with
  | [] => None
  | l :: rest =>
      if isSwitch l then cons l <$> addContinue idx rest
      else Some ((l <| continueJumps ::= fun js => js ++ [idx] |>) :: rest)
  end.
Definition emitContinueStmt : G unit :=
  loops <- mgets loopStack_ ;;
  here <- codeSize ;;
  match addContinue here loops with
  | None => genError "continue statement outside of a loop"
  | Some loops' =>
      idx <- emitJumpPlaceholder Jump ;;
      mmodify (fun g => g <| loopStack_ := loops' |>)
  end.
End Emitters.

(** ** The recursion *)
Fixpoint emitExpr (expr : AstNode) {struct expr} : G unit :=
  match expr with
  | StringLiteral value => idx <- internString value ;; emit PushConst idx 0
  | IntLiteral value => emit PushInt (wrap32 value) 0
  | FloatLiteral value => idx <- internFloat value ;; emit PushFloat idx 0
  | NilLiteral => emit PushNil 0 0
  | SymbolLiteralExpr name => idx <- internString name ;; emit PushSymbol idx 0
  | VarRefExpr name => emitVarRef name
  | BinaryExpr o lhs rhs =>
      match o with
      | BinOp.Or | BinOp.And => emitLogicalExpr emitExpr o lhs rhs
      | _ => emitBinaryExpr emitExpr o lhs rhs
      end
  | CommaExpr lhs rhs => emitExpr lhs ;; emit Pop 0 0 ;; emitExpr rhs
  | UnaryExpr o operand => emitUnaryExpr emitExpr o operand
  | TernaryExpr c t e => emitTernaryExpr emitExpr c t e
  | CallExpr callee args argIsSpread forceEfun parentCall parentQualifier =>
      emitCallExpr emitExpr callee args argIsSpread forceEfun parentCall parentQualifier
  | CallOtherExpr target function args argIsSpread =>
      emitCallOtherExpr emitExpr target function args argIsSpread
  | SscanfExpr target format varNames indexedTargets =>
      emitSscanfExpr emitExpr target format varNames indexedTargets
  | CatchExpr guarded => emitCatchExpr emitExpr guarded
  | ClosureLiteralExpr functionName boundArgs forceEfun =>
      emitClosureLiteral emitExpr functionName boundArgs forceEfun
  | InlineLambdaExpr bodyExprs paramCount boundValueExprs =>
      emitInlineLambda emitExpr bodyExprs paramCount boundValueExprs
  | LambdaParamExpr index isBoundValue => emitLambdaParam index isBoundValue
  | AssignExpr name value isCompound compoundOp =>
      emitAssignExpr emitExpr name value isCompound compoundOp
  | IncDecExpr o prefix name indexTarget indexKey mapColumn =>
      emitIncDecExpr emitExpr o prefix name indexTarget indexKey mapColumn
  | ArrayLiteralExpr elements elementIsSpread =>
      emitAll emitExpr elements ;;
      emitSpreadExpansions elementIsSpread ;;
      emit MakeArray 0 (int_of (length elements))
  | MappingLiteralExpr entries => emitMappingLiteral emitExpr entries
  | TypeCastExpr _ inner => emitExpr inner
  | NewClassExpr className fieldInits => emitNewClassExpr emitExpr className fieldInits
  | IndexExpr target index rangeEnd indexFromEnd rangeEndFromEnd mapColumn =>
      emitIndexExpr emitExpr target index rangeEnd indexFromEnd rangeEndFromEnd mapColumn
  | IndexAssignExpr target index value isCompound compoundOp mapColumn =>
      emitIndexAssignExpr emitExpr target index value isCompound compoundOp mapColumn
  | TimeExpressionExpr body => emitTimeExpressionExpr emitBlock body
  | AnonFunctionExpr params isVarargs body => emitAnonFunction params isVarargs body
  | _ => genError "unsupported expression kind this slice"
  end
with emitStatement (stmt : AstNode) {struct stmt} : G unit :=
  match stmt with
  | BlockStmt (mkBlock ss isRealScope as b) =>
      if isRealScope : bool then emitBlock b else emitStatements emitStatement ss
  | ExprStmt expr => emitExpr expr ;; emit Pop 0 0
  | ReturnStmt expr => emitReturnStmt emitExpr expr
  | VarDeclStmt type _ name initializer => emitVarDeclStmt emitExpr type name initializer
  | AssignStmt name value => emitAssignStmt emitExpr name value
  | IndexAssignStmt target index value isCompound compoundOp mapColumn =>
      emitIndexAssignStmt emitExpr target index value isCompound compoundOp mapColumn
  | IfStmt condition thenBranch elseBranch =>
      emitIfStmt emitExpr emitBlock condition thenBranch elseBranch
  | WhileStmt condition body => emitWhileStmt emitExpr emitBlock condition body
  | DoWhileStmt condition body => emitDoWhileStmt emitExpr emitBlock condition body
  | ForStmt init condition update body =>
      emitForStmt emitExpr emitBlock init condition update body
  | ForeachStmt varName declareVar hasValueVar valueVarName declareValueVar collection body
      varClassType valueVarClassType =>
      emitForeachStmt emitExpr emitBlock varName declareVar hasValueVar valueVarName
        declareValueVar collection body varClassType valueVarClassType
  | SwitchStmt subject body => emitSwitchStmt emitExpr emitStatement subject body
  | BreakStmt => emitBreakStmt
  | ContinueStmt => emitContinueStmt
  | _ => genError "unsupported statement kind this slice"
  end
with emitBlock (b : Block) {struct b} : G unit :=
  match b with
  | mkBlock ss _ => openScope ;; emitStatements emitStatement ss ;; closeScope
  end.

(** ** Functions and programs *)

(** What every function starts from. *)
Definition resetFunction : G unit :=
  mmodify (fun g => g <| locals_ := ∅ |> <| nextLocalSlot_ := 0 |> <| localScopeStack_ := [] |>
    <| loopStack_ := [] |> <| foreachCounter_ := 0 |> <| switchCounter_ := 0 |>
    <| indexAssignCounter_ := 0 |>).

(** [static_cast<uint8_t>] and [static_cast<uint32_t>] *)
Definition uint8_of (z : Z) : nat := Z.to_nat (z mod 2 ^ 8).
Definition uint32_of (n : nat) : nat := Z.to_nat (Z.of_nat n mod 2 ^ 32).

(** The body of a function between its entry point and its final Return. *)
Definition emitFunction (name : string) (numArgs : Z) (isVarargs : bool) (body : G unit) : G unit :=
  start <- codeSize ;;
  body ;;
  emit Return 0 0 ;;
  n <- mgets nextLocalSlot_ ;;
  modOut (fun p => p <| functions ::= fun fs =>
    fs ++ [mkFunction name (uint32_of start) (uint8_of numArgs) (uint8_of n) false isVarargs] |>).

Definition declareParams (params : list Param) : G unit :=
  forEach params (fun p => declareLocal (pname p) (ptype p) ;; mret tt).

(** A comma list: every value but the last is dropped. *)
Fixpoint emitLambdaBody (es : list AstNode) : G unit :=
  match es with
  | [] => mret tt
  | [e] => emitExpr e
  | e :: es' => emitExpr e ;; emit Pop 0 0 ;; emitLambdaBody es'
  end.

Definition emitPendingLambda (p : PendingLambda) : G unit :=
  resetFunction ;;
  mmodify (fun g => g <| currentLambdaBoundValueCount_ := length (pl_boundValueExprs p) |>
    <| nextLocalSlot_ := int_of (length (pl_boundValueExprs p)) + pl_paramCount p |>) ;;
  emitFunction (pl_name p) (pl_paramCount p) false (emitLambdaBody (pl_bodyExprs p)).

Definition emitPendingAnonFunc (p : PendingAnonFunc) : G unit :=
  resetFunction ;;
  declareParams (pa_params p) ;;
  emitFunction (pa_name p) (Z.of_nat (length (pa_params p))) (pa_isVarargs p) (emitBlock (pa_body p)).

(** The queue may grow while it is walked; it is cleared at its end. *)
Fixpoint emitPendingLambdas (fuel : nat) (i : nat) : G unit :=
  match fuel with
  | O => mlift OutOfFuel
  | S fuel' =>
      pending <- mgets pendingLambdas_ ;;
      match pending !! i with
      | None => mmodify (fun g => g <| pendingLambdas_ := [] |>)
      | Some p => emitPendingLambda p ;; emitPendingLambdas fuel' (S i)
      end
  end.
Fixpoint emitPendingAnonFuncs (fuel : nat) (i : nat) : G unit :=
  match fuel with
  | O => mlift OutOfFuel
  | S fuel' =>
      pending <- mgets pendingAnonFuncs_ ;;
      match pending !! i with
      | None => mmodify (fun g => g <| pendingAnonFuncs_ := [] |>)
      | Some p => emitPendingAnonFunc p ;; emitPendingAnonFuncs fuel' (S i)
      end
  end.

Definition hasPending (g : CodeGen) : bool :=
  match pendingLambdas_ g, pendingAnonFuncs_ g with [], [] => false | _, _ => true end.
Fixpoint drainPending (fuel : nat) : G unit :=
  match fuel with
  | O => mlift OutOfFuel
  | S fuel' =>
      more <- mgets hasPending ;;
      if more : bool then
        emitPendingLambdas fuel 0 ;;
        emitPendingAnonFuncs fuel 0 ;;
        drainPending fuel'
      else mret tt
  end.

(** One top-level variable: its slot, and its initializer. *)
Definition declareObjectVar (nextSlot : Z) (v : ObjectVarDecl) : G unit :=
  mmodify (fun g => g <| objectVars_ ::= <[ov_name v := nextSlot]> |>) ;;
  match classTypeOf (ov_type v) with
  | Some c => mmodify (fun g => g <| objectVarClassTypes_ ::= <[ov_name v := c]> |>)
  | None => mret tt
  end ;;
  modOut (fun p => p <| objectVarNames ::= fun l =>
    l ++ [if ov_isPrivate v then "$private#" +:+ to_string nextSlot else ov_name v] |>).

Fixpoint declareObjectVars (nextSlot : Z) (vs : list ObjectVarDecl) : G (list (Z * AstNode)) :=
  match vs with
  | [] => mret []
  | v :: vs' =>
      declareObjectVar nextSlot v ;;
      rest <- declareObjectVars (nextSlot + 1) vs' ;;
      mret (match ov_initializer v with Some e => (nextSlot, e) :: rest | None => rest end)
  end.

Fixpoint emitVarInitializers (inits : list (Z * AstNode)) : G unit :=
  match inits with
  | [] => mret tt
  | (slot, e) :: rest => emitExpr e ;; emit StoreObjectVar slot 0 ;; emitVarInitializers rest
  end.

Definition emitObjVarInit (fuel : nat) (inits : list (Z * AstNode)) : G unit :=
  match inits with
  | [] => mret tt
  | _ =>
      resetFunction ;;
      emitFunction "$objvarinit" 0 false (emitVarInitializers inits) ;;
      emitPendingLambdas fuel 0
  end.

Definition emitFunctionDecl (fuel : nat) (fn : FunctionDecl) : G unit :=
  match fd_body fn with
  | None => mret tt
  | Some body =>
      resetFunction ;;
      declareParams (fd_params fn) ;;
      emitFunction (fd_name fn) (Z.of_nat (length (fd_params fn))) (fd_isVarargs fn) (emitBlock body) ;;
      drainPending fuel
  end.

Definition declareClasses (cs : list ClassDeclStmt) : gmap string (list string) :=
  foldl (fun m c => <[cd_name c := cd_memberNames c]> m) ∅ cs.
Definition inheritedSlots (names : list string) : gmap string Z :=
  foldl (fun m p => <[snd p := Z.of_nat (fst p)]> m) ∅ (imap pair names).

Definition generate (fuel : nat) (program : Program) (inheritedObjectVarNames : list string)
    : G CompiledProgram :=
  mmodify (fun g => g <| out_ := emptyProgram <| objectVarNames := inheritedObjectVarNames |> |>
    <| objectVars_ := inheritedSlots inheritedObjectVarNames |>
    <| classDefs_ := declareClasses (pg_classes program) |>
    <| objectVarClassTypes_ := ∅ |>) ;;
  inits <- declareObjectVars (Z.of_nat (length inheritedObjectVarNames)) (pg_objectVars program) ;;
  modOut (fun p => p <| inherits := pg_inherits program |>) ;;
  emitObjVarInit fuel inits ;;
  forEach (pg_functions program) (emitFunctionDecl fuel) ;;
  mgets out_.

(** A fresh generator, as ObjectManager makes one per file. *)
Definition compile (fuel : nat) (program : Program) (inherited : list string)
    : outcome exn CompiledProgram :=
  fst (generate fuel program inherited newCodeGen).
