(* ===== verification/CodeGenFacts.v ===== *)
(** * CodeGenFacts: the code generator emits well-formed bytecode

    [Inv]: what holds of the generator in the middle of a function.  Every
    instruction of the function so far is well formed, except the jumps whose
    targets are not known yet: those of the enclosing loops, and those the
    running emitters hold ([S] below).  Each emitter keeps it, whatever the
    tree; a function that is complete has no pending jump left. *)
From S2P Require Import Prelude CLib Double Value Bytecode Ast CodeGen.
Local Open Scope Z_scope.

(** ** Size of a tree *)
Fixpoint node_size (e : AstNode) : nat :=
  let opt (o : option AstNode) := match o with Some x => node_size x | None => O end in
  let sum (l : list AstNode) := list_sum (map node_size l) in
  S (match e with
     | StringLiteral _ | IntLiteral _ | FloatLiteral _ | NilLiteral | SymbolLiteralExpr _
     | VarRefExpr _ | LambdaParamExpr _ _ | MemberNameMarker _ | BreakStmt | ContinueStmt => 0
     | BinaryExpr _ l r | CommaExpr l r => node_size l + node_size r
     | UnaryExpr _ x | CatchExpr x | AssignExpr _ x _ _ | TypeCastExpr _ x | ExprStmt x
     | AssignStmt _ x => node_size x
     | TernaryExpr c t f => node_size c + node_size t + node_size f
     | CallExpr _ args _ _ _ _ => sum args
     | CallOtherExpr t f args _ => node_size t + node_size f + sum args
     | SscanfExpr t f _ idx =>
         node_size t + node_size f
         + list_sum (map (fun o : option AstNode => match o with Some x => node_size x | None => 0 end) idx)
     | ClosureLiteralExpr _ args _ => sum args
     | InlineLambdaExpr body _ bound => sum body + sum bound
     | IncDecExpr _ _ _ t k c => opt t + opt k + opt c
     | ArrayLiteralExpr es _ => sum es
     | MappingLiteralExpr es => list_sum (map (fun p => node_size (fst p) + sum (snd p)) es)
     | NewClassExpr _ fs => list_sum (map (fun p => node_size (snd p)) fs)
     | IndexExpr t i r _ _ c => node_size t + node_size i + opt r + opt c
     | IndexAssignExpr t i v _ _ c | IndexAssignStmt t i v _ _ c =>
         node_size t + node_size i + node_size v + opt c
     | TimeExpressionExpr b | AnonFunctionExpr _ _ b | BlockStmt b => block_size b
     | ReturnStmt o | VarDeclStmt _ _ _ o => opt o
     | IfStmt c t f => node_size c + block_size t + match f with Some b => block_size b | None => 0 end
     | WhileStmt c b | DoWhileStmt c b => node_size c + block_size b
     | ForStmt i c u b => opt i + opt c + opt u + block_size b
     | CaseLabel v r => opt v + opt r
     | SwitchStmt s body => node_size s + sum body
     | ForeachStmt _ _ _ _ _ c b _ _ => node_size c + block_size b
     end)%nat
with block_size (b : Block) : nat :=
  match b with mkBlock ss _ => S (list_sum (map node_size ss)) end.

Definition sum_sizes (l : list AstNode) : nat := list_sum (map node_size l).
Definition opt_size (o : option AstNode) : nat :=
  match o with Some x => node_size x | None => O end.

(** ** Generator actions: they return what they promise or report an error *)
Definition hoare {A} (P : CodeGen -> Prop) (m : G A) (Q : A -> CodeGen -> Prop) : Prop :=
  forall g, P g -> match m g with (Ok a, g') => Q a g' | (OutOfFuel, _) => False | _ => True end.

Lemma hoare_ret {A} (a : A) (P : CodeGen -> Prop) (Q : A -> CodeGen -> Prop) :
  (forall g, P g -> Q a g) -> hoare P (mret a) Q.
Proof. intros H g Hg. by apply H. Qed.
Lemma hoare_throw {A} e P (Q : A -> CodeGen -> Prop) : hoare P (mthrow e) Q.
Proof. by intros g Hg. Qed.
Lemma hoare_undef {A} w P (Q : A -> CodeGen -> Prop) : hoare P (mundef w) Q.
Proof. by intros g Hg. Qed.
Lemma hoare_bind {A B} (m : G A) (k : A -> G B) P Q R :
  hoare P m Q -> (forall a, hoare (Q a) (k a) R) -> hoare P (mbind m k) R.
Proof.
  intros Hm Hk g Hg. unfold mbind. specialize (Hm g Hg).
  destruct (m g) as [[a|e|w|] g1]; try done. by apply Hk.
Qed.
Lemma hoare_assoc {A B C} (m : G A) (k : A -> G B) (l : B -> G C) P Q :
  hoare P (mbind m (fun a => mbind (k a) l)) Q -> hoare P (mbind (mbind m k) l) Q.
Proof. intros H g Hg. specialize (H g Hg). unfold mbind in *. by destruct (m g) as [[]]. Qed.
Lemma hoare_gets {A} (f : CodeGen -> A) (P : CodeGen -> Prop) (Q : A -> CodeGen -> Prop) :
  (forall g, P g -> Q (f g) g) -> hoare P (mgets f) Q.
Proof. intros H g Hg. by apply H. Qed.
Lemma hoare_modify f (P : CodeGen -> Prop) (Q : unit -> CodeGen -> Prop) :
  (forall g, P g -> Q tt (f g)) -> hoare P (mmodify f) Q.
Proof. intros H g Hg. by apply H. Qed.
Lemma hoare_weaken {A} (m : G A) (P P' : CodeGen -> Prop) (Q Q' : A -> CodeGen -> Prop) :
  hoare P m Q -> (forall g, P' g -> P g) -> (forall a g, Q a g -> Q' a g) -> hoare P' m Q'.
Proof.
  intros Hm HP HQ g Hg. specialize (Hm g (HP g Hg)). destruct (m g) as [[]]; auto.
Qed.

(** ** Well-formed instructions *)
Definition jumps (o : OpCode) : bool :=
  match o with Jump | JumpIfFalse | PushCatchFrame => true | _ => false end.

Definition index_into {A} (l : list A) (z : Z) : Prop :=
  exists k, z = int_of k /\ (k < length l)%nat.

(** All but the target of a jump. *)
Definition operands_ok (strings : list string) (floats : list double) (nvars : nat) (first nlocals : Z)
    (i : Instruction) : Prop :=
  match op i with
  | PushConst | PushSymbol | Call | CallEfun | CallParent | PushClosure | PushEfunClosure =>
      index_into strings (operand i)
  | CallParentQualifierSlot => operand i = -1 \/ index_into strings (operand i)
  | PushFloat => index_into floats (operand i)
  | StoreLocal => first <= operand i < nlocals
  | PushObjectVar | StoreObjectVar => 0 <= operand i < Z.of_nat nvars
  | SscanfVarSlot => if argCount i =? 0 then first <= operand i < nlocals else 0 <= operand i < Z.of_nat nvars
  | CallApply | Halt | Suspend => False
  | _ => True
  end.

Definition pendingJumps (g : CodeGen) : list nat :=
  flat_map (fun l => breakJumps l ++ continueJumps l) (loopStack_ g).

Definition vars_in (m : gmap string Z) (lo n : Z) : Prop :=
  forall x s, m !! x = Some s -> lo <= s < n.

(** The names the generator gives to inline lambdas. *)
Definition is_lambda_name (s : string) : bool := String.prefix "$lambda#" s.
Lemma lambda_name s : is_lambda_name ("$lambda#" +:+ s) = true.
Proof. by destruct s. Qed.

(** A function under way: the generator at its start, and the size of its tree. *)
Record Start := mkStart { st_gen :> CodeGen; st_size : nat }.
(** What is queued meanwhile is smaller. *)
Definition lambda_small (n : nat) (p : PendingLambda) : Prop :=
  is_lambda_name (pl_name p) = true /\ (sum_sizes (pl_bodyExprs p) < n)%nat.
Definition anon_small (n : nat) (p : PendingAnonFunc) : Prop := (block_size (pa_body p) < n)%nat.
Definition grows (n : nat) (ls0 : list PendingLambda) (fs0 : list PendingAnonFunc) (g : CodeGen) : Prop :=
  (exists ls, pendingLambdas_ g = ls0 ++ ls /\ Forall (lambda_small n) ls) /\
  (exists fs, pendingAnonFuncs_ g = fs0 ++ fs /\ Forall (anon_small n) fs).
Definition queued (base : Start) : CodeGen -> Prop :=
  grows (st_size base) (pendingLambdas_ base) (pendingAnonFuncs_ base).

(** [base] is the start of the function, [d] says which of the
    enclosing loops are switches, [S] the jumps held by emitters, [L] the positions and [T]
    the local slots they hold. *)
Section Invariant.
Context (base : Start).
Local Abbreviation start := (length (code (out_ base))) (only parsing).
(** Local slots are counted from here (a lambda's arguments come before). *)
Local Abbreviation first := (Z.min 0 (nextLocalSlot_ base)) (only parsing).

Record Inv (d : list bool) (S L : list nat) (T : list Z) (g : CodeGen) : Prop := {
  inv_code : code (out_ base) `prefix_of` code (out_ g);
  inv_strings : stringPool (out_ base) `prefix_of` stringPool (out_ g);
  inv_floats : floatPool (out_ base) `prefix_of` floatPool (out_ g);
  inv_functions : functions (out_ g) = functions (out_ base);
  inv_names : objectVarNames (out_ g) = objectVarNames (out_ base);
  inv_operands i ins : (start <= i)%nat -> code (out_ g) !! i = Some ins ->
    operands_ok (stringPool (out_ g)) (floatPool (out_ g)) (length (objectVarNames (out_ g)))
      first (nextLocalSlot_ g) ins;
  inv_targets i ins : (start <= i)%nat -> code (out_ g) !! i = Some ins -> jumps (op ins) = true ->
    i ∈ S ++ pendingJumps g \/
    exists k, operand ins = int_of k /\ (start <= k <= length (code (out_ g)))%nat;
  inv_held i : i ∈ S ++ pendingJumps g -> (start <= i)%nat /\
    exists ins, code (out_ g) !! i = Some ins /\ jumps (op ins) = true;
  inv_labels k : k ∈ L -> (start <= k <= length (code (out_ g)))%nat;
  inv_slots s : s ∈ T -> first <= s < nextLocalSlot_ g;
  inv_next : first <= nextLocalSlot_ g;
  inv_locals : vars_in (locals_ g) first (nextLocalSlot_ g);
  inv_objectVars : vars_in (objectVars_ g) 0 (Z.of_nat (length (objectVarNames (out_ g))));
  inv_loops : map isSwitch (loopStack_ g) = d;
  inv_switch l : l ∈ loopStack_ g -> isSwitch l = true -> continueJumps l = [];
  inv_queued : queued base g
}.

(** A generator action that keeps the invariant, whatever is held. *)
Definition keeps {A} (m : G A) : Prop :=
  forall d S L T, hoare (Inv d S L T) m (fun _ => Inv d S L T).

Lemma operands_ok_mono ss ss' fs fs' nv lo nl nl' i :
  ss `prefix_of` ss' -> fs `prefix_of` fs' -> nl <= nl' ->
  operands_ok ss fs nv lo nl i -> operands_ok ss' fs' nv lo nl' i.
Proof.
  intros Hs%prefix_length Hf%prefix_length Hn. unfold operands_ok.
  assert (forall z, index_into ss z -> index_into ss' z) as H1.
  { intros z (k & E & Hk). exists k. split; [done|lia]. }
  assert (forall z, index_into fs z -> index_into fs' z) as H2.
  { intros z (k & E & Hk). exists k. split; [done|lia]. }
  destruct (op i); try done; try (intros; lia); auto; [|case_match; lia].
  intros [?|?]; auto.
Qed.

Lemma lookup_snoc_inv {A} (l : list A) x i y :
  (l ++ [x]) !! i = Some y -> l !! i = Some y \/ i = length l /\ y = x.
Proof.
  destruct (lt_eq_lt_dec i (length l)) as [[H| ->]|H].
  - rewrite lookup_app_l by done. auto.
  - rewrite list_lookup_middle by done. intros [= <-]. auto.
  - rewrite lookup_ge_None_2; [done|]. rewrite length_app. simpl. lia.
Qed.

(** One more instruction that is not a jump. *)
Lemma hoare_emit d S L T o a n (P : CodeGen -> Prop) :
  jumps o = false -> (forall g, P g -> Inv d S L T g) ->
  (forall g, P g -> operands_ok (stringPool (out_ g)) (floatPool (out_ g))
                     (length (objectVarNames (out_ g))) first (nextLocalSlot_ g) (mkInstr o a n)) ->
  hoare P (emit o a n) (fun _ => Inv d S L T).
Proof.
  intros Hj HP Ho. apply hoare_modify. intros g Hg. specialize (Ho g Hg). destruct (HP g Hg).
  split; simpl; try done.
  - by apply prefix_app_r.
  - intros i ins Hi [E|[-> ->]]%lookup_snoc_inv; [eauto|done].
  - intros i ins Hi [E|[-> ->]]%lookup_snoc_inv Hop; [|by simpl in Hop; rewrite Hj in Hop].
    destruct (inv_targets0 i ins Hi E Hop) as [H|(k & H & Hk)]; [by left|right].
    exists k. rewrite length_app. split; [done|lia].
  - intros i Hi. destruct (inv_held0 i Hi) as (H1 & ins & H2 & H3). split; [done|].
    exists ins. split; [|done]. by apply lookup_app_l_Some.
  - intros k Hk. rewrite length_app. specialize (inv_labels0 k Hk). lia.
Qed.

(** The current position becomes a label. *)
Lemma hoare_codeSize d S L T : hoare (Inv d S L T) codeSize (fun n => Inv d S (n :: L) T).
Proof.
  apply hoare_gets. intros g []. split; try done.
  intros k [->|Hk]%elem_of_cons; [|by apply inv_labels0]. apply prefix_length in inv_code0. lia.
Qed.

Lemma hoare_placeholder d S L T o :
  jumps o = true -> hoare (Inv d S L T) (emitJumpPlaceholder o) (fun n => Inv d (n :: S) L T).
Proof.
  intros Hj g []. unfold emitJumpPlaceholder, mbind, codeSize, emit, modOut, mgets, mmodify, mret. simpl.
  split; simpl; try done.
  - by apply prefix_app_r.
  - intros i ins Hi [E|[-> ->]]%lookup_snoc_inv; [eauto|]. by destruct o.
  - intros i ins Hi [E|[-> ->]]%lookup_snoc_inv Hop; [|left; set_solver].
    destruct (inv_targets0 i ins Hi E Hop) as [H|(k & H & Hk)]; [left; set_solver|right].
    exists k. rewrite length_app. split; [done|lia].
  - intros i [->|Hi]%elem_of_cons.
    + split; [by apply prefix_length|]. eexists. split; [by apply list_lookup_middle|done].
    + destruct (inv_held0 i Hi) as (H1 & ins & H2 & H3). split; [done|].
      exists ins. split; [|done]. by apply lookup_app_l_Some.
  - intros k Hk. rewrite length_app. specialize (inv_labels0 k Hk). lia.
Qed.

Lemma prefix_alter {A} (l1 l2 : list A) f i :
  l1 `prefix_of` l2 -> (length l1 <= i)%nat -> l1 `prefix_of` alter f i l2.
Proof.
  intros [k ->] Hi. exists (alter f (i - length l1)%nat k). by rewrite alter_app_r_alt.
Qed.

(** A held jump gets its target. *)
Lemma hoare_patch d S L T i k :
  k ∈ L -> hoare (Inv d (i :: S) L T) (patchJumpTo i k) (fun _ => Inv d S L T).
Proof.
  intros HkL. apply hoare_modify. intros g []. assert (i ∈ (i :: S) ++ pendingJumps g) as Hin by set_solver.
  destruct (inv_held0 i Hin) as (Hi & ins0 & E0 & J0).
  split; simpl; try done.
  - by apply prefix_alter.
  - intros j ins Hj. rewrite list_lookup_alter. case_decide as Dj; [subst j|eauto].
    rewrite E0. intros [= <-]. specialize (inv_operands0 i ins0 Hi E0).
    destruct ins0 as [o a n]. by destruct o.
  - intros j ins Hj. rewrite list_lookup_alter, length_alter. case_decide as Dj; [subst j|].
    + rewrite E0. intros [= <-] _. right. exists k. split; [done|by apply inv_labels0].
    + intros E Hop. destruct (inv_targets0 j ins Hj E Hop) as [H|H]; [left|by right]. set_solver.
  - intros j Hin'. destruct (inv_held0 j) as (H1 & ins & H2 & H3); [set_solver|]. split; [done|].
    rewrite list_lookup_alter. case_decide; [subst j|by exists ins].
    rewrite H2. simpl. by eexists.
  - intros k' Hk'. rewrite length_alter. by apply inv_labels0.
Qed.


Lemma hoare_here d S L T i : hoare (Inv d (i :: S) L T) (patchJumpToHere i) (fun _ => Inv d S L T).
Proof.
  eapply hoare_bind; [apply hoare_codeSize|]. intros k. eapply hoare_weaken; [|done|].
  - apply hoare_patch. by left.
  - intros _ g []. split; try done. intros j Hj. apply inv_labels0. by right.
Qed.

Lemma hoare_patchAll d S L T js k :
  k ∈ L -> hoare (Inv d (js ++ S) L T) (patchAll js k) (fun _ => Inv d S L T).
Proof.
  intros Hk. induction js as [|j js IH]; simpl; [by apply hoare_ret|].
  eapply hoare_bind; [by apply hoare_patch|]. intros []. apply IH.
Qed.
Lemma hoare_patchAllToHere d S L T js :
  hoare (Inv d (js ++ S) L T) (patchAllToHere js) (fun _ => Inv d S L T).
Proof.
  eapply hoare_bind; [apply hoare_codeSize|]. intros k. eapply hoare_weaken; [|done|].
  - apply hoare_patchAll. by left.
  - intros _ g []. split; try done. intros j Hj. apply inv_labels0. by right.
Qed.

(** ** What the invariant does not mention *)
Record same_facts (g g' : CodeGen) : Prop := {
  sf_out : out_ g' = out_ g;
  sf_loops : loopStack_ g' = loopStack_ g;
  sf_next : nextLocalSlot_ g' = nextLocalSlot_ g;
  sf_locals : locals_ g' ⊆ locals_ g;
  sf_objectVars : objectVars_ g' = objectVars_ g;
  sf_lambdas : pendingLambdas_ g' = pendingLambdas_ g;
  sf_anon : pendingAnonFuncs_ g' = pendingAnonFuncs_ g
}.
Lemma Inv_same d S L T g g' : same_facts g g' -> Inv d S L T g -> Inv d S L T g'.
Proof.
  intros [E1 E2 E3 E4 E5 E6 E7] []. unfold pendingJumps, queued, grows in *.
  split; unfold pendingJumps, queued, grows; rewrite ?E1, ?E2, ?E3, ?E5, ?E6, ?E7; try done.
  intros x s Hx. by eapply inv_locals0, lookup_weaken.
Qed.
Lemma keeps_modify f : (forall g, same_facts g (f g)) -> keeps (mmodify f).
Proof. intros H d S L T. apply hoare_modify. intros g. apply Inv_same, H. Qed.
Lemma keeps_ret {A} (a : A) : keeps (mret a).
Proof. intros d S L T. by apply hoare_ret. Qed.
Lemma keeps_throw {A} e : keeps (mthrow (A := A) e).
Proof. intros d S L T. apply hoare_throw. Qed.
Lemma keeps_error {A} m : keeps (genError (A := A) m).
Proof. apply keeps_throw. Qed.
Lemma keeps_undef {A} w : keeps (mundef (A := A) w).
Proof. intros d S L T. apply hoare_undef. Qed.
Lemma keeps_gets {A} (f : CodeGen -> A) : keeps (mgets f).
Proof. intros d S L T. by apply hoare_gets. Qed.
Lemma keeps_bind {A B} (m : G A) (k : A -> G B) : keeps m -> (forall a, keeps (k a)) -> keeps (mbind m k).
Proof. intros Hm Hk d S L T. eapply hoare_bind; [apply Hm|]. intros a. apply Hk. Qed.

(** Opcodes whose operand is not checked. *)
Definition free_operand (o : OpCode) : bool :=
  match o with
  | PushInt | PushNil | PushLocal | Add | Sub | Mul | Div | Mod | BitAnd | BitOr | BitXor | Shl | Shr
  | BitNot | Eq | Neq | Lt | Lte | Gt | Gte | Not | ExpandVarargs | MakeArray | MakeMapping | Index
  | IndexAssign | RangeIndex | Sscanf | ForeachKeys | PopCatchFrame | TimeExpressionStart
  | TimeExpressionEnd | Return | Pop | Dup => true
  | _ => false
  end.
Lemma keeps_emit o a n : free_operand o = true -> keeps (emit o a n).
Proof.
  intros Ho d S L T. apply hoare_emit; [by destruct o|done|]. intros g Hg. by destruct o.
Qed.

(** Pools. *)
Lemma indexIf_lt {A} (p : A -> bool) l i : indexIf p l = Some i -> (i < length l)%nat.
Proof.
  revert i. induction l as [|x l IH]; intros i; simpl; [done|]. destruct (p x); [intros [= <-]; lia|].
  destruct (indexIf p l); [|done]. intros [= <-]. specialize (IH _ eq_refl). lia.
Qed.

Definition in_strings (z : Z) (g : CodeGen) : Prop := index_into (stringPool (out_ g)) z.
Definition in_floats (z : Z) (g : CodeGen) : Prop := index_into (floatPool (out_ g)) z.

Lemma hoare_internString d S L T s :
  hoare (Inv d S L T) (internString s) (fun z g => Inv d S L T g /\ in_strings z g).
Proof.
  eapply (hoare_bind _ _ _ (fun pool g => Inv d S L T g /\ pool = stringPool (out_ g))); [by apply hoare_gets|].
  intros pool. destruct (indexIf _ pool) as [i|] eqn:E.
  - apply hoare_ret. intros g [Hg ->]. split; [done|]. exists i. split; [done|by eapply indexIf_lt].
  - intros g [[] ->]. unfold mbind, modOut, mmodify, mret. simpl. split.
    + split; simpl; try done; [by apply prefix_app_r|]. intros i ins Hi Hl.
      eapply operands_ok_mono; [..|by eapply inv_operands0]; [by apply prefix_app_r|done|done].
    + exists (length (stringPool (out_ g))). simpl. rewrite length_app. simpl. split; [done|lia].
Qed.
Lemma hoare_internFloat d S L T x :
  hoare (Inv d S L T) (internFloat x) (fun z g => Inv d S L T g /\ in_floats z g).
Proof.
  eapply (hoare_bind _ _ _ (fun pool g => Inv d S L T g /\ pool = floatPool (out_ g))); [by apply hoare_gets|].
  intros pool. destruct (indexIf _ pool) as [i|] eqn:E.
  - apply hoare_ret. intros g [Hg ->]. split; [done|]. exists i. split; [done|by eapply indexIf_lt].
  - intros g [[] ->]. unfold mbind, modOut, mmodify, mret. simpl. split.
    + split; simpl; try done; [by apply prefix_app_r|]. intros i ins Hi Hl.
      eapply operands_ok_mono; [..|by eapply inv_operands0]; [done|by apply prefix_app_r|done].
    + exists (length (floatPool (out_ g))). simpl. rewrite length_app. simpl. split; [done|lia].
Qed.

(** An opcode that refers to a string. *)
Definition string_operand (o : OpCode) : bool :=
  match o with
  | PushConst | PushSymbol | Call | CallEfun | CallParent | PushClosure | PushEfunClosure => true
  | _ => false
  end.
Lemma hoare_emit_string d S L T o z n : string_operand o = true ->
  hoare (fun g => Inv d S L T g /\ in_strings z g) (emit o z n) (fun _ => Inv d S L T).
Proof.
  intros Ho. apply hoare_emit; [by destruct o|by intros g []|]. intros g [_ Hz]. by destruct o.
Qed.
Lemma keeps_string o s n : string_operand o = true -> keeps (z <- internString s ;; emit o z n).
Proof.
  intros Ho d S L T. eapply hoare_bind; [apply hoare_internString|]. intros z. by apply hoare_emit_string.
Qed.

(** A [::] call interns two strings before it emits its two instructions. *)
Lemma keeps_string_more {A} z s (k : Z -> G A) d S L T Q :
  (forall z', hoare (fun g => Inv d S L T g /\ in_strings z g /\ in_strings z' g) (k z') Q) ->
  hoare (fun g => Inv d S L T g /\ in_strings z g) (z' <- internString s ;; k z') Q.
Proof.
  intros Hk. eapply (hoare_bind _ _ _ (fun z' g => Inv d S L T g /\ in_strings z g /\ in_strings z' g)); [|apply Hk].
  intros g [Hg Hz]. pose proof (hoare_internString d S L T s g Hg) as Hi.
  assert (match internString s g with
          | (Ok _, g') => stringPool (out_ g) `prefix_of` stringPool (out_ g') | _ => True end) as Hp.
  { unfold internString, mbind, mgets. destruct (indexIf _ _); simpl; [done|by apply prefix_app_r]. }
  destruct (internString s g) as [[z'|e|w|] g']; try done. destruct Hi as [H1 H2].
  split; [done|]. split; [|done]. destruct Hz as (i & -> & Hi). exists i. split; [done|].
  apply prefix_length in Hp. lia.
Qed.
Lemma hoare_emit_parent d S L T z q n :
  hoare (fun g => Inv d S L T g /\ in_strings z g /\ (q = -1 \/ in_strings q g))
    (emit CallParent z n ;; emit CallParentQualifierSlot q 0) (fun _ => Inv d S L T).
Proof.
  eapply (hoare_bind _ _ _ (fun _ g => Inv d S L T g /\ (q = -1 \/ in_strings q g))).
  - intros g (Hg & Hz & Hq).
    pose proof (hoare_emit d S L T CallParent z n (fun g' => Inv d S L T g' /\ in_strings z g')
      eq_refl ltac:(by intros g' []) ltac:(by intros g' []) g (conj Hg Hz)) as H.
    split; [exact H|exact Hq].
  - intros []. apply hoare_emit; [done|by intros g []|by intros g []].
Qed.

(** ** Held positions, slots and jumps *)
Lemma Inv_mono d S S' L L' T T' g :
  (forall i, i ∈ S <-> i ∈ S') -> L' ⊆ L -> T' ⊆ T -> Inv d S L T g -> Inv d S' L' T' g.
Proof.
  intros HS HL HT []. split; try done.
  - intros i ins Hi Hl Hj. destruct (inv_targets0 i ins Hi Hl Hj) as [H|H]; [left|by right].
    revert H. rewrite !elem_of_app, HS. done.
  - intros i Hi. apply inv_held0. revert Hi. rewrite !elem_of_app, HS. done.
  - intros k Hk. by apply inv_labels0, HL.
  - intros x Hx. by apply inv_slots0, HT.
Qed.

Lemma with_label {B} d S S' L T T' (k : nat -> G B) :
  (forall n, hoare (Inv d S (n :: L) T) (k n) (fun _ => Inv d S' (n :: L) T')) ->
  hoare (Inv d S L T) (n <- codeSize ;; k n) (fun _ => Inv d S' L T').
Proof.
  intros H. eapply hoare_bind; [apply hoare_codeSize|]. intros n.
  eapply hoare_weaken; [apply H|done|]. intros ? g. apply Inv_mono; set_solver.
Qed.

Lemma hoare_here_under d S L T i j :
  hoare (Inv d (j :: i :: S) L T) (patchJumpToHere i) (fun _ => Inv d (j :: S) L T).
Proof.
  intros g Hg. apply (hoare_here d (j :: S) L T i). revert Hg. apply Inv_mono; set_solver.
Qed.

Lemma hoare_here_any d S S' L T i :
  (forall x, x ∈ i :: S' <-> x ∈ S) ->
  hoare (Inv d S L T) (patchJumpToHere i) (fun _ => Inv d S' L T).
Proof.
  intros HS g Hg. apply (hoare_here d S' L T i). revert Hg. apply Inv_mono; [|done..].
  intros x. by rewrite HS.
Qed.

(** A jump whose target is known. *)
Lemma hoare_jump d S L T k :
  k ∈ L -> hoare (Inv d S L T) (emit Jump (int_of k) 0) (fun _ => Inv d S L T).
Proof.
  intros Hk. apply hoare_modify. intros g []. split; simpl; try done.
  - by apply prefix_app_r.
  - intros i ins Hi [E|[-> ->]]%lookup_snoc_inv; [by eapply inv_operands0|done].
  - intros i ins Hi [E|[-> ->]]%lookup_snoc_inv Hop; rewrite length_app.
    + destruct (inv_targets0 i ins Hi E Hop) as [H|(k' & H & Hk')]; [by left|right].
      exists k'. split; [done|lia].
    + right. exists k. specialize (inv_labels0 k Hk). split; [done|lia].
  - intros i Hi. destruct (inv_held0 i Hi) as (H1 & ins & H2 & H3). split; [done|].
    exists ins. split; [|done]. by apply lookup_app_l_Some.
  - intros k' Hk'. rewrite length_app. specialize (inv_labels0 k' Hk'). lia.
Qed.

Lemma hoare_declareLocal d S L T x t :
  hoare (Inv d S L T) (declareLocal x t) (fun s => Inv d S L (s :: T)).
Proof.
  assert (forall g, Inv d S L T g ->
    Inv d S L (nextLocalSlot_ g :: T) (g <| nextLocalSlot_ := nextLocalSlot_ g + 1 |>)) as Hnext.
  { intros g []. split; simpl; try done; [|set_solver by lia| |].
    - intros i ins Hi Hl. eapply operands_ok_mono; [..|by eapply inv_operands0]; [done|done|lia].
    - lia.
    - intros y s Hy. specialize (inv_locals0 y s Hy). lia. }
  unfold declareLocal.
  eapply (hoare_bind _ _ _ (fun s g => Inv d S L T g /\ s = nextLocalSlot_ g)); [by apply hoare_gets|].
  intros s. destruct (String.eqb x "").
  { eapply (hoare_bind _ _ _ (fun _ => Inv d S L (s :: T))); [|intros []; by apply hoare_ret].
    apply hoare_modify. intros g [Hg ->]. by apply Hnext. }
  eapply (hoare_bind _ _ _ (fun _ g => Inv d S L T g /\ s = nextLocalSlot_ g)); [by apply hoare_gets|].
  intros known. destruct (known !! x); [apply hoare_throw|].
  eapply (hoare_bind _ _ _ (fun _ => Inv d S L (s :: T))).
  { apply hoare_modify. intros g [Hg ->]. pose proof (inv_next _ _ _ _ _ Hg). apply Hnext in Hg.
    destruct Hg. split; simpl; try done. intros y v. rewrite lookup_insert_Some.
    intros [[_ <-]|[_ Hy]]; [lia|by apply (inv_locals0 y)]. }
  intros []. eapply (hoare_bind _ _ _ (fun _ => Inv d S L (s :: T))).
  { destruct (classTypeOf t); [apply keeps_modify|apply keeps_ret]. by constructor. }
  intros []. eapply (hoare_bind _ _ _ (fun _ => Inv d S L (s :: T))); [|intros []; by apply hoare_ret].
  apply keeps_modify. intros g. by destruct (localScopeStack_ g).
Qed.
Lemma with_slot {B} d S S' L L' T x t (k : Z -> G B) :
  (forall s, hoare (Inv d S L (s :: T)) (k s) (fun _ => Inv d S' L' (s :: T))) ->
  hoare (Inv d S L T) (s <- declareLocal x t ;; k s) (fun _ => Inv d S' L' T).
Proof.
  intros H. eapply hoare_bind; [apply hoare_declareLocal|]. intros n.
  eapply hoare_weaken; [apply H|done|]. intros ? g. apply Inv_mono; set_solver.
Qed.
(** Variables. *)
Lemma hoare_emit_store d S L T s n :
  s ∈ T -> hoare (Inv d S L T) (emit StoreLocal s n) (fun _ => Inv d S L T).
Proof. intros Hs. apply hoare_emit; [done|done|]. intros g []. by apply inv_slots0. Qed.

(** The slot of a resolved variable is of its kind. *)
Definition var_held (v : ResolvedVar) (T : list Z) : Prop :=
  match kind v with
  | LocalVar => slot v ∈ T
  | ObjectVar => 0 <= slot v < Z.of_nat (length (objectVarNames (out_ base)))
  end.
Lemma hoare_resolve d S L T x :
  hoare (Inv d S L T) (resolveVariable x) (fun v g => exists T', T ⊆ T' /\ var_held v T' /\ Inv d S L T' g).
Proof.
  intros g Hg. unfold resolveVariable. destruct (locals_ g !! x) as [s|] eqn:E.
  { exists (s :: T). split_and!; [set_solver|unfold var_held; set_solver|].
    apply (inv_locals _ _ _ _ _ Hg) in E. destruct Hg. split; try done. set_solver. }
  destruct (objectVars_ g !! x) as [s|] eqn:E'; [|done].
  exists T. split_and!; [done| |done]. unfold var_held. simpl.
  rewrite <- (inv_names _ _ _ _ _ Hg). by apply (inv_objectVars _ _ _ _ _ Hg) in E'.
Qed.
Lemma with_var {B} d S S' L L' T x (k : ResolvedVar -> G B) :
  (forall v T', var_held v T' -> T ⊆ T' -> hoare (Inv d S L T') (k v) (fun _ => Inv d S' L' T')) ->
  hoare (Inv d S L T) (v <- resolveVariable x ;; k v) (fun _ => Inv d S' L' T).
Proof.
  intros H g Hg. unfold mbind. pose proof (hoare_resolve d S L T x g Hg) as Hr.
  destruct (resolveVariable x g) as [[v|e|w|] g1]; try done. destruct Hr as (T' & HT & Hv & Hg1).
  specialize (H v T' Hv HT g1 Hg1). destruct (k v g1) as [[b|e|w|] g2]; try done.
  eapply Inv_mono; [..|exact H]; set_solver.
Qed.

Lemma hoare_push_var d S L T v n :
  var_held v T -> hoare (Inv d S L T) (emit (pushOp v) (slot v) n) (fun _ => Inv d S L T).
Proof.
  unfold var_held, pushOp. intros Hv. destruct (kind v); [by apply keeps_emit|].
  apply hoare_emit; [done|done|]. intros g Hg. unfold operands_ok. simpl. by rewrite (inv_names _ _ _ _ _ Hg).
Qed.
Lemma hoare_store_var d S L T v n :
  var_held v T -> hoare (Inv d S L T) (emit (storeOp v) (slot v) n) (fun _ => Inv d S L T).
Proof.
  unfold var_held, storeOp. intros Hv. destruct (kind v); [by apply hoare_emit_store|].
  apply hoare_emit; [done|done|]. intros g Hg. unfold operands_ok. simpl. by rewrite (inv_names _ _ _ _ _ Hg).
Qed.

Lemma keeps_hoare {A} (m : G A) d S L T :
  keeps m -> hoare (Inv d S L T) m (fun _ => Inv d S L T).
Proof. intros H. apply H. Qed.
Lemma keeps_internString s : keeps (internString s).
Proof.
  intros d S L T. eapply hoare_weaken; [apply hoare_internString|done|]. by intros z g [].
Qed.
Lemma keeps_patchAll_nil d S L T k : hoare (Inv d S L T) (patchAll [] k) (fun _ => Inv d S L T).
Proof. by apply hoare_ret. Qed.
End Invariant.

Create HintDb gen.
#[export] Hint Resolve keeps_ret keeps_throw keeps_error keeps_undef keeps_gets keeps_emit
  hoare_push_var hoare_store_var hoare_emit_store hoare_here hoare_here_under hoare_jump keeps_string
  keeps_internString keeps_hoare : gen.
#[export] Hint Extern 1 (_ = true) => reflexivity : gen.
Ltac size_lia :=
  repeat match goal with H : (_ < _)%nat |- _ => revert H end;
  unfold sum_sizes, opt_size; simpl; lia.
#[export] Hint Extern 2 (_ < _)%nat => size_lia : gen.
Ltac held_tac :=
  first [ assumption | apply list_elem_of_here | apply list_elem_of_further; held_tac
        | match goal with H : _ ⊆ ?T |- _ ∈ ?T => apply H; held_tac end ].
#[export] Hint Extern 2 (_ ∈ _) => held_tac : gen.

(** Run the first action of a generator program. *)
Ltac gen_step :=
  lazymatch goal with
  | |- keeps _ _ => intros ? ? ? ?
  | |- hoare _ (mbind (mbind _ _) _) _ => apply hoare_assoc
  | |- hoare _ (mbind (internString _) _) _ => apply keeps_string; (reflexivity || by case_goal)
  | |- hoare _ (mbind codeSize _) _ => apply with_label; intros ?
  | |- hoare _ (mbind (declareLocal _ _) _) _ => apply with_slot; intros ?
  | |- hoare _ (mbind (resolveVariable _) _) _ => apply with_var; intros ? ? ? ?
  | |- hoare _ (mbind (emitJumpPlaceholder _) _) _ =>
      eapply hoare_bind; [apply hoare_placeholder; reflexivity|intros ?; cbv beta]
  | |- hoare _ (mbind _ _) _ => eapply hoare_bind; [solve [eauto 4 with gen]|intros ?; cbv beta]
  | |- hoare _ _ _ => solve [eauto 4 with gen]
  end.
Ltac gen_tac := repeat first [gen_step | case_goal].

Section Emitters.
Context (base : Start) (n : nat).
Context (emitExpr emitStatement : AstNode -> G unit) (emitBlock : Block -> G unit).
Context (HE : forall e, (node_size e < n)%nat -> keeps base (emitExpr e)).
Context (HS : forall s, (node_size s < n)%nat -> keeps base (emitStatement s)).
Context (HB : forall b, (block_size b < n)%nat -> keeps base (emitBlock b)).
Local Abbreviation keeps := (keeps base) (only parsing).

Lemma keeps_emitAll es : (sum_sizes es < n)%nat -> keeps (emitAll emitExpr es).
Proof. induction es as [|e es IH]; intros Hn; simpl; gen_tac.
Qed.
Lemma keeps_emitStatements ss : (sum_sizes ss < n)%nat -> keeps (emitStatements emitStatement ss).
Proof. induction ss as [|e es IH]; intros Hn; simpl; gen_tac. Qed.
Lemma keeps_emitOpt o : (opt_size o < n)%nat -> keeps (emitOpt emitExpr o).
Proof. destruct o; intros; simpl; gen_tac. Qed.
Local Hint Resolve keeps_emitAll keeps_emitStatements keeps_emitOpt : gen.

Lemma keeps_classMembers c : keeps (classMembers c).
Proof. unfold classMembers. gen_tac. Qed.
Local Hint Resolve keeps_classMembers : gen.
Lemma keeps_resolveMember c m : keeps (resolveClassMemberIndex c m).
Proof. unfold resolveClassMemberIndex, noMember. gen_tac. Qed.
Local Hint Resolve keeps_resolveMember : gen.
Lemma keeps_indexValue t i : (node_size i < n)%nat -> keeps (emitIndexValue emitExpr t i).
Proof.
  intros Hi. unfold emitIndexValue. destruct i; try by apply HE. gen_tac.
Qed.
Local Hint Resolve keeps_indexValue : gen.
Lemma keeps_binaryOp o : keeps (emitBinaryOp o).
Proof. unfold emitBinaryOp. destruct o; simpl; gen_tac. Qed.
Lemma keeps_compoundOp o : keeps (emitCompoundOp o).
Proof. unfold emitCompoundOp. destruct o; simpl; gen_tac. Qed.
Local Hint Resolve keeps_binaryOp keeps_compoundOp : gen.

Lemma keeps_logical o l r : (node_size l + node_size r < n)%nat -> keeps (emitLogicalExpr emitExpr o l r).
Proof. intros Hn. unfold emitLogicalExpr. gen_tac. Qed.
Lemma keeps_ternary c t e :
  (node_size c + node_size t + node_size e < n)%nat -> keeps (emitTernaryExpr emitExpr c t e).
Proof. intros Hn. unfold emitTernaryExpr. gen_tac. Qed.
Lemma keeps_catch x : (node_size x < n)%nat -> keeps (emitCatchExpr emitExpr x).
Proof. intros Hn. unfold emitCatchExpr. gen_tac. Qed.
Lemma keeps_time b : (block_size b < n)%nat -> keeps (emitTimeExpressionExpr emitBlock b).
Proof. intros Hn. unfold emitTimeExpressionExpr. gen_tac. Qed.
Lemma keeps_assign x v c o : (node_size v < n)%nat -> keeps (emitAssignExpr emitExpr x v c o).
Proof. intros Hn. unfold emitAssignExpr. gen_tac. Qed.
Lemma keeps_place t i c :
  (node_size t + node_size i + opt_size c < n)%nat -> keeps (emitPlace emitExpr t i c).
Proof. intros Hn. unfold emitPlace. gen_tac. Qed.
Local Hint Resolve keeps_place : gen.

Lemma with_hidden {B} d S S' L L' T x (k : Z -> G B) :
  (forall s, hoare (Inv base d S L (s :: T)) (k s) (fun _ => Inv base d S' L' (s :: T))) ->
  hoare (Inv base d S L T) (s <- hiddenLocal x ;; k s) (fun _ => Inv base d S' L' T).
Proof.
  intros H. unfold hiddenLocal. apply hoare_assoc.
  eapply hoare_bind; [by apply keeps_gets|]. intros m. cbv beta. apply hoare_assoc.
  eapply hoare_bind; [by apply keeps_modify|]. intros []. cbv beta. by apply with_slot.
Qed.
Ltac gen_tac ::= repeat first [apply with_hidden; intros ? | gen_step | case_goal].

Lemma keeps_incDec o p x t k c :
  (opt_size t + opt_size k + opt_size c < n)%nat -> keeps (emitIncDecExpr emitExpr o p x t k c).
Proof.
  intros Hn. unfold emitIncDecExpr, emitIncDecIndexed, emitIncDecVar.
  assert (free_operand (deltaOpcode o) = true) by (by destruct o). gen_tac.
Qed.
Lemma keeps_spread m l : keeps (emitSpreadFrom m l).
Proof. revert m. induction l as [|b l IH]; intros m; simpl; gen_tac. Qed.
Local Hint Resolve keeps_spread : gen.
Lemma keeps_call f args sp fe pc q :
  (sum_sizes args < n)%nat -> keeps (emitCallExpr emitExpr f args sp fe pc q).
Proof.
  intros Hn. unfold emitCallExpr, emitSpreadExpansions. gen_step. gen_step. gen_step.
  eapply hoare_bind; [apply hoare_internString|]. intros z. cbv beta. destruct pc.
  - destruct (String.eqb q "").
    + intros g [Hg Hz]. apply (hoare_emit_parent base d S L T z (-1) _ g). eauto.
    + eapply keeps_string_more. intros z' g (Hg & Hz & Hz'). apply hoare_emit_parent. eauto.
  - destruct fe; by apply hoare_emit_string.
Qed.
Lemma keeps_callOther t f args sp :
  (node_size t + node_size f + sum_sizes args < n)%nat -> keeps (emitCallOtherExpr emitExpr t f args sp).
Proof. intros Hn. unfold emitCallOtherExpr, emitSpreadExpansions. gen_tac. Qed.

Lemma keeps_varSlots names idx (k : list Z -> G unit) d S L T :
  (forall slots T', T ⊆ T' -> slots ⊆ T' -> hoare (Inv base d S L T') (k slots) (fun _ => Inv base d S L T')) ->
  hoare (Inv base d S L T) (slots <- emitVarSlots names idx ;; k slots) (fun _ => Inv base d S L T).
Proof.
  revert idx k T. induction names as [|x names IH]; intros idx k T Hk; simpl.
  { intros g Hg. apply (Hk [] T); [done|set_solver|done]. }
  destruct idx as [|[t|] idx]; [intros g Hg; done|..].
  - apply hoare_assoc, with_hidden. intros s. apply hoare_assoc.
    eapply (hoare_bind _ _ _ (fun _ => Inv base d S L (s :: T))); [|intros []; apply hoare_assoc, (IH idx (fun a => mbind (mret (s :: a)) k))].
    + apply hoare_emit; [done|done|]. intros g Hg. unfold operands_ok. simpl. apply (inv_slots _ _ _ _ _ _ Hg). by left.
    + intros slots T' HT Hs. apply (Hk (s :: slots)); set_solver.
  - apply hoare_assoc, with_var. intros v T' Hv HT. apply hoare_assoc.
    eapply (hoare_bind _ _ _ (fun _ => Inv base d S L T')); [|intros []; apply IH].
    + unfold var_held in Hv. apply hoare_emit; [done|done|]. intros g Hg. unfold operands_ok.
      destruct (kind v); simpl; [by apply (inv_slots _ _ _ _ _ _ Hg)|by rewrite (inv_names _ _ _ _ _ _ Hg)].
    + intros slots T'' HT' Hs. apply Hk; set_solver.
Qed.
Lemma keeps_indexedWrites slots idx :
  (list_sum (map opt_size idx) < n)%nat -> keeps (emitIndexedWrites emitExpr slots idx).
Proof.
  revert slots. induction idx as [|[t|] idx IH]; intros slots Hn; simpl in *; [gen_tac| |].
  - destruct slots; [gen_tac|]. destruct t; gen_tac.
  - apply IH. lia.
Qed.
Lemma keeps_sscanf t f names idx :
  (node_size t + node_size f + list_sum (map opt_size idx) < n)%nat ->
  keeps (emitSscanfExpr emitExpr t f names idx).
Proof.
  intros Hn. unfold emitSscanfExpr. gen_step. do 3 gen_step. apply keeps_varSlots. intros.
  apply keeps_indexedWrites. lia.
Qed.
Lemma keeps_index t i r b1 b2 c :
  (node_size t + node_size i + opt_size r + opt_size c < n)%nat ->
  keeps (emitIndexExpr emitExpr t i r b1 b2 c).
Proof. intros Hn. unfold emitIndexExpr. gen_tac. Qed.
Lemma keeps_indexAssign t i v b o c :
  (node_size t + node_size i + node_size v + opt_size c < n)%nat ->
  keeps (emitIndexAssignExpr emitExpr t i v b o c).
Proof. intros Hn. unfold emitIndexAssignExpr. gen_tac. Qed.
Lemma keeps_field m fs :
  (list_sum (map (fun p => node_size (snd p)) fs) < n)%nat -> keeps (emitField emitExpr m fs).
Proof. induction fs as [|[x e] fs IH]; intros Hn; simpl in *; gen_tac. Qed.
Lemma keeps_forEach {A} (l : list A) f : (forall x, x ∈ l -> keeps (f x)) -> keeps (forEach l f).
Proof.
  induction l as [|x l IH]; intros Hf; simpl; [gen_tac|]. gen_step.
  eapply hoare_bind; [apply Hf; by left|]. intros. apply IH. intros y Hy. apply Hf. by right.
Qed.
Lemma keeps_checkFields c ms fs : keeps (checkFields c ms fs).
Proof. induction fs as [|f fs IH]; simpl; unfold noMember; gen_tac. Qed.
Lemma keeps_newClass c fs :
  (list_sum (map (fun p => node_size (snd p)) fs) < n)%nat -> keeps (emitNewClassExpr emitExpr c fs).
Proof.
  intros Hn. unfold emitNewClassExpr. gen_step. gen_step.
  eapply hoare_bind; [apply keeps_forEach; intros; by apply keeps_field|]. intros [].
  eapply hoare_bind; [apply keeps_checkFields|]. intros []. gen_tac.
Qed.
Lemma keeps_entries es :
  (list_sum (map (fun p => node_size (fst p) + sum_sizes (snd p)) es) < n)%nat ->
  keeps (emitEntries emitExpr es).
Proof. induction es as [|[k vs] es IH]; intros Hn; simpl in *; gen_tac. Qed.
Local Hint Resolve keeps_entries : gen.
Lemma keeps_mappingLiteral es :
  (list_sum (map (fun p => node_size (fst p) + sum_sizes (snd p)) es) < n)%nat ->
  keeps (emitMappingLiteral emitExpr es).
Proof. intros Hn. unfold emitMappingLiteral. gen_tac. Qed.
Lemma keeps_unary o x : (node_size x < n)%nat -> keeps (emitUnaryExpr emitExpr o x).
Proof. intros Hn. unfold emitUnaryExpr. gen_tac. Qed.
Lemma keeps_varRef x : keeps (emitVarRef x).
Proof. unfold emitVarRef. gen_tac. Qed.
Lemma keeps_closureLiteral f args b :
  (sum_sizes args < n)%nat -> keeps (emitClosureLiteral emitExpr f args b).
Proof. intros Hn. unfold emitClosureLiteral. gen_tac. Qed.
Lemma keeps_lambdaParam k b : keeps (emitLambdaParam k b).
Proof. unfold emitLambdaParam. gen_tac. Qed.
Lemma keeps_inlineLambda body k bound :
  (n <= st_size base)%nat -> (sum_sizes body + sum_sizes bound < n)%nat ->
  keeps (emitInlineLambda emitExpr body k bound).
Proof.
  intros Hsize Hn. unfold emitInlineLambda. do 3 gen_step.
  eapply (hoare_bind _ _ _ (fun _ => Inv base d S L T)); [|intros []; gen_tac].
  apply hoare_modify. intros g []. split; try done. destruct inv_queued0 as [(ls & E & H) Hf].
  split; [|exact Hf]. exists (ls ++ [mkPendingLambda ("$lambda#" +:+ to_string a0) body k bound]). simpl.
  rewrite E, app_assoc. split; [done|]. apply Forall_app. split; [done|]. apply Forall_singleton.
  split; [apply lambda_name|simpl; lia].
Qed.
Lemma keeps_anonFunction ps v b :
  (n <= st_size base)%nat -> (block_size b < n)%nat -> keeps (emitAnonFunction ps v b).
Proof.
  intros Hsize Hn. unfold emitAnonFunction. do 2 gen_step.
  eapply (hoare_bind _ _ _ (fun _ => Inv base d S L T)); [|intros []; gen_tac].
  apply hoare_modify. intros g []. split; try done. destruct inv_queued0 as [Hl (fs & E & H)].
  split; [exact Hl|]. exists (fs ++ [mkPendingAnonFunc ("$anonfunc#" +:+ to_string a) ps v b]). simpl.
  rewrite E, app_assoc. split; [done|]. apply Forall_app. split; [done|]. apply Forall_singleton.
  unfold anon_small. simpl. lia.
Qed.

(** ** Statements *)
Lemma hoare_pushLoop d S L T b :
  hoare (Inv base d S L T) (pushLoop (mkLoop [] [] b)) (fun _ => Inv base (b :: d) S L T).
Proof.
  apply hoare_modify. intros g []. split; try done; simpl; [by f_equal|].
  intros l [->|Hl]%elem_of_cons; [done|eauto].
Qed.
Lemma hoare_popLoop d S L T b :
  hoare (Inv base (b :: d) S L T) popLoop (fun ctx g =>
    Inv base d (breakJumps ctx ++ continueJumps ctx ++ S) L T g /\
    (b = true -> continueJumps ctx = [])).
Proof.
  intros g Hg. unfold popLoop. destruct (loopStack_ g) as [|ctx rest] eqn:E; [done|].
  destruct Hg. unfold pendingJumps in *. rewrite E in *. simpl in *. injection inv_loops0 as <- <-.
  assert (forall i S', i ∈ (breakJumps ctx ++ continueJumps ctx ++ S) ++ S' <->
            i ∈ S ++ (breakJumps ctx ++ continueJumps ctx) ++ S') as Eq.
  { intros i S'. rewrite !elem_of_app. tauto. }
  split; [|intros Hb; apply inv_switch0; [by left|done]].
  split; try done; unfold pendingJumps; simpl.
  - intros i ins Hi Hl Hj. destruct (inv_targets0 i ins Hi Hl Hj) as [H|H]; [left|by right]. by apply Eq.
  - intros i Hi. by apply inv_held0, Eq.
  - intros l Hl. apply inv_switch0. by right.
Qed.

Lemma hoare_loopBody d S L T b : (block_size b < n)%nat ->
  hoare (Inv base d S L T) (emitLoopBody emitBlock b)
    (fun ctx => Inv base d (continueJumps ctx ++ breakJumps ctx ++ S) L T).
Proof.
  intros Hb. unfold emitLoopBody. eapply hoare_bind; [apply hoare_pushLoop|]. intros [].
  eapply hoare_bind; [by apply HB|]. intros []. cbv beta.
  eapply hoare_weaken; [apply hoare_popLoop|done|]. intros ctx g [H _]. revert H.
  apply Inv_mono; [|done..]. intros i. rewrite !elem_of_app. tauto.
Qed.

Lemma keeps_closeScope : keeps closeScope.
Proof.
  intros d S L T g Hg. unfold closeScope. destruct (localScopeStack_ g) as [|names rest]; [done|].
  eapply Inv_same; [|exact Hg]. split; try done. simpl. clear. induction names as [|x l IH]; [done|].
  simpl. etrans; [apply delete_subseteq|done].
Qed.
Lemma keeps_openScope : keeps openScope.
Proof. by apply keeps_modify. Qed.
Local Hint Resolve keeps_closeScope keeps_openScope : gen.

Lemma keeps_varDecl t x e : (opt_size e < n)%nat -> keeps (emitVarDeclStmt emitExpr t x e).
Proof. intros Hn. unfold emitVarDeclStmt. gen_tac. Qed.
Lemma keeps_assignStmt x v : (node_size v < n)%nat -> keeps (emitAssignStmt emitExpr x v).
Proof. intros Hn. unfold emitAssignStmt. gen_tac. Qed.
Lemma keeps_indexAssignStmt t i v b o c :
  (node_size t + node_size i + node_size v + opt_size c < n)%nat ->
  keeps (emitIndexAssignStmt emitExpr t i v b o c).
Proof. intros Hn. unfold emitIndexAssignStmt. gen_tac. Qed.
Lemma keeps_return e : (opt_size e < n)%nat -> keeps (emitReturnStmt emitExpr e).
Proof. intros Hn. unfold emitReturnStmt. gen_tac. Qed.
Lemma keeps_if c t f :
  (node_size c + block_size t + match f with Some b => block_size b | None => 0 end < n)%nat ->
  keeps (emitIfStmt emitExpr emitBlock c t f).
Proof. intros Hn. unfold emitIfStmt. destruct f; gen_tac. Qed.

(** The jumps a loop leaves, patched. *)
Lemma hoare_loopEnd d S L T j ctx :
  hoare (Inv base d (breakJumps ctx ++ j :: S) L T)
    (patchJumpToHere j ;; patchAllToHere (breakJumps ctx)) (fun _ => Inv base d S L T).
Proof.
  eapply (hoare_bind _ _ _ (fun _ => Inv base d (breakJumps ctx ++ S) L T));
    [|intros []; apply hoare_patchAllToHere].
  apply hoare_here_any. intros x. rewrite elem_of_cons, !elem_of_app, elem_of_cons. tauto.
Qed.
Lemma with_loopEnd d S L T j ctx (m : unit -> G unit) (Q : unit -> CodeGen -> Prop) :
  hoare (Inv base d S L T) (m tt) Q ->
  hoare (Inv base d (breakJumps ctx ++ j :: S) L T)
    (u <- patchJumpToHere j ;; v <- patchAllToHere (breakJumps ctx) ;; m v) Q.
Proof.
  intros Hm. eapply (hoare_bind _ _ _ (fun _ => Inv base d (breakJumps ctx ++ S) L T)).
  - apply hoare_here_any. intros x. rewrite elem_of_cons, !elem_of_app, elem_of_cons. tauto.
  - intros []. eapply hoare_bind; [apply hoare_patchAllToHere|]. by intros [].
Qed.
Lemma with_patched {B} d S L T js k (m : unit -> G B) (Q : B -> CodeGen -> Prop) :
  k ∈ L -> hoare (Inv base d S L T) (m tt) Q ->
  hoare (Inv base d (js ++ S) L T) (u <- patchAll js k ;; m u) Q.
Proof. intros Hk Hm. eapply hoare_bind; [by apply hoare_patchAll|]. by intros []. Qed.

Lemma keeps_while c b : (node_size c + block_size b < n)%nat -> keeps (emitWhileStmt emitExpr emitBlock c b).
Proof.
  intros Hn. unfold emitWhileStmt. do 4 gen_step.
  eapply hoare_bind; [apply hoare_loopBody; lia|]. intros ctx. cbv beta.
  apply with_patched; [by left|]. gen_step. apply hoare_loopEnd.
Qed.
Lemma keeps_doWhile c b : (node_size c + block_size b < n)%nat -> keeps (emitDoWhileStmt emitExpr emitBlock c b).
Proof.
  intros Hn. unfold emitDoWhileStmt. do 2 gen_step.
  eapply hoare_bind; [apply hoare_loopBody; lia|]. intros ctx. cbv beta. gen_step.
  apply with_patched; [by left|]. do 3 gen_step.
  intros g Hg. eapply hoare_loopEnd. revert Hg. apply Inv_mono; [|done..].
  intros x. rewrite elem_of_cons, !elem_of_app, elem_of_cons. tauto.
Qed.

Lemma keeps_forClause o : (opt_size o < n)%nat -> keeps (emitForClause emitExpr emitBlock o).
Proof.
  intros Hn. unfold emitForClause. destruct o as [e|]; [|gen_tac].
  destruct e; gen_tac.
Qed.
Lemma keeps_forInit o : (opt_size o < n)%nat -> keeps (emitForInit emitExpr emitBlock o).
Proof.
  intros Hn. unfold emitForInit. destruct o as [e|]; [|by apply keeps_forClause].
  destruct e; try by apply keeps_forClause. apply keeps_varDecl. size_lia.
Qed.
Definition heldOpt (o : option nat) : list nat := match o with Some j => [j] | None => [] end.
Lemma hoare_forCondition d S L T c : (opt_size c < n)%nat ->
  hoare (Inv base d S L T) (emitForCondition emitExpr c) (fun j => Inv base d (heldOpt j ++ S) L T).
Proof.
  intros Hn. unfold emitForCondition. destruct c as [c|]; [|by apply hoare_ret].
  gen_step. gen_step. by apply hoare_ret.
Qed.
Lemma keeps_for i c u b :
  (opt_size i + opt_size c + opt_size u + block_size b < n)%nat ->
  keeps (emitForStmt emitExpr emitBlock i c u b).
Proof.
  intros Hn. unfold emitForStmt. do 2 gen_step.
  eapply hoare_bind; [apply keeps_forInit; lia|]. intros []. cbv beta. gen_step.
  eapply hoare_bind; [apply hoare_forCondition; lia|]. intros j. cbv beta.
  eapply hoare_bind; [apply hoare_loopBody; lia|]. intros ctx. cbv beta. gen_step.
  apply with_patched; [by left|].
  eapply hoare_bind; [apply keeps_forClause; lia|]. intros []. cbv beta. gen_step.
  eapply (hoare_bind _ _ _ (fun _ => Inv base d (breakJumps ctx ++ S) _ T)).
  { destruct j as [j|]; [|by apply hoare_ret]. apply hoare_here_any. intros x. simpl.
    rewrite elem_of_cons, !elem_of_app, elem_of_cons. tauto. }
  intros []. cbv beta. eapply hoare_bind; [apply hoare_patchAllToHere|]. intros []. gen_tac.
Qed.

Lemma with_foreachVar d S S' L L' T b x c (k : ResolvedVar -> G unit) :
  (forall v T', var_held base v T' -> T ⊆ T' ->
     hoare (Inv base d S L T') (k v) (fun _ => Inv base d S' L' T')) ->
  hoare (Inv base d S L T) (v <- foreachVar b x c ;; k v) (fun _ => Inv base d S' L' T).
Proof.
  intros Hk. unfold foreachVar. destruct b; [|by apply with_var].
  apply hoare_assoc, with_slot. intros s. apply (Hk (mkResolved LocalVar s)); [|set_solver].
  unfold var_held. simpl. by left.
Qed.
Lemma var_held_mono v T T' : T ⊆ T' -> var_held base v T -> var_held base v T'.
Proof. unfold var_held. destruct (kind v); [|done]. intros HT. apply HT. Qed.
Local Hint Resolve var_held_mono : gen.

Lemma keeps_foreachValue s v b x c d S L T : var_held base v T ->
  hoare (Inv base d S L T) (emitForeachValue s v b x c) (fun _ => Inv base d S L T).
Proof.
  intros Hv. unfold emitForeachValue. apply with_foreachVar. intros v' T' Hv' HT. gen_step.
  eapply hoare_bind; [apply hoare_push_var; by eapply var_held_mono|]. intros []. cbv beta.
  gen_step. by apply hoare_store_var.
Qed.

Lemma hoare_foreachHead d S L T c (k : Z * Z * Z -> G unit) : (node_size c < n)%nat ->
  (forall o i x T', T ⊆ T' -> x ∈ T' ->
    hoare (Inv base d S L T') (k (o, i, x)) (fun _ => Inv base d S L T')) ->
  hoare (Inv base d S L T) (r <- emitForeachHead emitExpr c ;; k r) (fun _ => Inv base d S L T).
Proof.
  intros Hn Hk. unfold emitForeachHead. repeat apply hoare_assoc.
  eapply hoare_bind; [by apply keeps_gets|]. intros id. cbv beta. apply hoare_assoc.
  eapply hoare_bind; [by apply keeps_modify|]. intros []. cbv beta. apply hoare_assoc, with_slot. intros o.
  do 2 (apply hoare_assoc; gen_step). apply hoare_assoc, with_slot. intros i.
  do 3 (apply hoare_assoc; gen_step). apply hoare_assoc, with_slot. intros x.
  do 2 (apply hoare_assoc; gen_step). apply (Hk o i x); set_solver.
Qed.

Lemma keeps_foreach x b1 b2 y b3 c b t1 t2 : (node_size c + block_size b < n)%nat ->
  keeps (emitForeachStmt emitExpr emitBlock x b1 b2 y b3 c b t1 t2).
Proof.
  intros Hn. unfold emitForeachStmt. do 2 gen_step. apply hoare_foreachHead; [lia|].
  intros orig iter idx T' HT Hidx. gen_step. do 2 gen_step.
  eapply hoare_bind; [apply hoare_internString|]. intros z. cbv beta.
  eapply hoare_bind; [by apply hoare_emit_string|]. intros []. cbv beta. do 2 gen_step.
  apply with_foreachVar. intros v T'' Hv HT''. do 3 gen_step.
  eapply hoare_bind; [by apply hoare_store_var|]. intros []. cbv beta.
  eapply hoare_bind; [destruct b2; [by apply keeps_foreachValue|by apply hoare_ret]|]. intros []. cbv beta.
  eapply hoare_bind; [apply hoare_loopBody; lia|]. intros ctx. cbv beta. gen_step.
  apply with_patched; [by left|]. do 5 gen_step.
  apply with_loopEnd. gen_tac.
Qed.

(** [switch]: the jump of each label is held until its body is reached. *)
Definition jumpsFrom (i : nat) (js : list (nat * nat)) : list nat :=
  map snd (List.filter (fun j => i <=? fst j)%nat js).
Definition labels_in (lo hi : nat) (js : list (nat * nat)) : Prop :=
  Forall (fun j => lo <= fst j < hi)%nat js.

Lemma jumpsFrom_all i k js : labels_in i k js -> jumpsFrom i js = map snd js.
Proof.
  unfold jumpsFrom. induction 1 as [|j js Hj H IH]; simpl; [done|].
  destruct (Nat.leb_spec i (fst j)); [simpl; by f_equal|lia].
Qed.
Lemma jumpsFrom_step i js x :
  x ∈ map snd (List.filter (fun j => Nat.eqb (fst j) i) js) ++ jumpsFrom (S i) js <-> x ∈ jumpsFrom i js.
Proof.
  unfold jumpsFrom. induction js as [|j js IH]; [done|].
  cbn [List.filter]. destruct (Nat.eqb_spec (fst j) i), (Nat.leb_spec i (fst j)), (Nat.leb_spec (S i) (fst j));
    try lia; cbn [map]; rewrite ?elem_of_app, ?elem_of_cons in *; tauto.
Qed.

Lemma hoare_caseRange s lo hi d S L T : (node_size lo + node_size hi < n)%nat ->
  hoare (Inv base d S L T) (emitCaseRange emitExpr s lo hi) (fun j => Inv base d (j :: S) L T).
Proof. intros Hn. unfold emitCaseRange. do 11 gen_step. by apply hoare_placeholder. Qed.
Lemma hoare_caseValue s v d S L T : (node_size v < n)%nat ->
  hoare (Inv base d S L T) (emitCaseValue emitExpr s v) (fun j => Inv base d (j :: S) L T).
Proof. intros Hn. unfold emitCaseValue. do 4 gen_step. by apply hoare_placeholder. Qed.

Lemma hoare_switchLabels s i body d S L T : (sum_sizes body < n)%nat ->
  hoare (Inv base d S L T) (emitSwitchLabels emitExpr s i body)
    (fun r g => Inv base d (map snd (fst r) ++ S) L T g /\ labels_in i (i + length body) (fst r) /\
                (forall k, snd r = Some k -> i <= k < i + length body)%nat).
Proof.
  revert i S. induction body as [|e body IH]; intros i S Hn.
  { apply hoare_ret. intros g Hg. split_and!; [done|constructor|done]. }
  assert (hoare (Inv base d S L T) (emitSwitchLabels emitExpr s (Datatypes.S i) body)
    (fun r g => Inv base d (map snd (fst r) ++ S) L T g /\ labels_in i (i + length (e :: body)) (fst r) /\
                (forall k, snd r = Some k -> i <= k < i + length (e :: body))%nat)) as Hrest.
  { eapply hoare_weaken; [apply IH; size_lia|done|]. intros r g (H1 & H2 & H3). split_and!; [done| |].
    - eapply list.Forall_impl; [exact H2|]. simpl. intros j Hj. lia.
    - intros k Hk. specialize (H3 k Hk). simpl. lia. }
  assert (sum_sizes body < n)%nat as Hb by size_lia.
  destruct e; try exact Hrest. simpl. destruct value as [v|].
  - eapply (hoare_bind _ _ _ (fun j => Inv base d (j :: S) L T)).
    { destruct rangeEnd; [apply hoare_caseRange; size_lia|apply hoare_caseValue; size_lia]. }
    intros j. cbv beta. eapply hoare_bind; [by apply IH|]. intros r. apply hoare_ret.
    intros g (H1 & H2 & H3). simpl. split_and!.
    + revert H1. apply Inv_mono; [|done..]. intros x. rewrite ?elem_of_app, ?elem_of_cons, ?elem_of_app. tauto.
    + constructor; [simpl; lia|]. eapply list.Forall_impl; [exact H2|]. simpl. intros j' Hj. lia.
    + intros k Hk. specialize (H3 k Hk). lia.
  - eapply hoare_bind; [apply Hrest|]. intros r. apply hoare_ret. intros g (H1 & H2 & H3).
    simpl. split_and!; [done|done|]. intros k [= <-]. destruct (snd r); simpl; [|lia]. by apply H3.
Qed.

(** The no-match jump is held until the default label, if any. *)
Definition heldDefault (dflt : option nat) (j i : nat) : list nat :=
  match dflt with Some k => if (i <=? k)%nat then [j] else [] | None => [j] end.

Lemma heldDefault_step dflt j i x :
  x ∈ (if bool_decide (dflt = Some i) then [j] else []) ++ heldDefault dflt j (S i)
  <-> x ∈ heldDefault dflt j i.
Proof.
  unfold heldDefault. case_bool_decide as E; [subst dflt|].
  - destruct (Nat.leb_spec (S i) i), (Nat.leb_spec i i); try lia. by rewrite app_nil_r.
  - rewrite app_nil_l. destruct dflt as [k|]; [|done].
    destruct (Nat.leb_spec i k), (Nat.leb_spec (S i) k); try done; try lia. exfalso. apply E. f_equal. lia.
Qed.

Lemma hoare_switchBodies js dflt j i body d S L T : (sum_sizes body < n)%nat ->
  hoare (Inv base d (jumpsFrom i js ++ heldDefault dflt j i ++ S) L T)
    (emitSwitchBodies emitStatement js dflt j i body)
    (fun _ => Inv base d (jumpsFrom (i + length body) js ++ heldDefault dflt j (i + length body) ++ S) L T).
Proof.
  revert i. induction body as [|e body IH]; intros i Hn; simpl.
  { apply hoare_ret. by rewrite Nat.add_0_r. }
  rewrite Nat.add_succ_r. change (Datatypes.S (i + length body)) with (Datatypes.S i + length body)%nat.
  set (here := map snd (List.filter (fun j' => Nat.eqb (fst j') i) js)).
  set (dh := if bool_decide (dflt = Some i) then [j] else []).
  eapply (hoare_bind _ _ _ (fun _ =>
    Inv base d (dh ++ jumpsFrom (Datatypes.S i) js ++ heldDefault dflt j (Datatypes.S i) ++ S) L T)).
  { intros g Hg. apply (hoare_patchAllToHere base d _ L T here g). revert Hg. apply Inv_mono; [|done..].
    intros x. rewrite !elem_of_app. rewrite <- (jumpsFrom_step i js), <- (heldDefault_step dflt j i).
    fold here dh. rewrite !elem_of_app. tauto. }
  intros []. cbv beta.
  eapply (hoare_bind _ _ _ (fun _ =>
    Inv base d (jumpsFrom (Datatypes.S i) js ++ heldDefault dflt j (Datatypes.S i) ++ S) L T)).
  { subst dh. case_bool_decide; [apply hoare_here|]. simpl.
    destruct e; try by apply HS; size_lia. by apply hoare_ret. }
  intros []. apply IH. size_lia.
Qed.

Lemma jumpsFrom_end i js : labels_in 0 i js -> jumpsFrom i js = [].
Proof.
  intros H. unfold jumpsFrom. induction H as [|j js Hj H IH]; simpl; [done|].
  destruct (Nat.leb_spec i (fst j)); [lia|done].
Qed.

Lemma hoare_switchEnd dflt j m d S L T : (forall k, dflt = Some k -> k < m)%nat ->
  hoare (Inv base (true :: d) (heldDefault dflt j m ++ S) L T)
    (match dflt with None => patchJumpToHere j | Some _ => mret tt end ;;
     ctx <- popLoop ;; patchAllToHere (breakJumps ctx)) (fun _ => Inv base d S L T).
Proof.
  intros Hd. eapply (hoare_bind _ _ _ (fun _ => Inv base (true :: d) S L T)).
  - destruct dflt as [k|]; simpl; [|apply hoare_here].
    rewrite (proj2 (Nat.leb_gt m k)) by auto. by apply hoare_ret.
  - intros []. eapply hoare_bind; [apply hoare_popLoop|]. intros ctx g [Hg Hc].
    rewrite Hc in Hg by done. by apply hoare_patchAllToHere in Hg.
Qed.

Lemma keeps_switch e body : (node_size e + sum_sizes body < n)%nat ->
  keeps (emitSwitchStmt emitExpr emitStatement e body).
Proof.
  intros Hn. unfold emitSwitchStmt. do 2 gen_step.
  eapply hoare_bind; [by apply keeps_modify|]. intros []. cbv beta. do 3 gen_step.
  eapply hoare_bind; [apply hoare_switchLabels; lia|]. intros [js dflt]. cbn [fst snd].
  intros g (Hg & Hjs & Hd). revert g Hg.
  eapply (hoare_bind (B := unit)); [by apply hoare_placeholder|]. intros j.
  eapply hoare_bind; [apply hoare_pushLoop|]. intros []. cbv beta.
  eapply (hoare_bind _ _ _ (fun _ => Inv base (true :: d) (heldDefault dflt j (length body) ++ S) L (s :: T)));
    [|intros []; apply hoare_switchEnd].
  - eapply hoare_weaken; [apply (hoare_switchBodies js dflt j 0 body (true :: d) S L (s :: T)); lia| |].
    + intros g. apply Inv_mono; [|done..]. intros x. rewrite (jumpsFrom_all _ _ _ Hjs).
      assert (heldDefault dflt j 0 = [j]) as -> by by destruct dflt.
      rewrite elem_of_cons, !elem_of_app, list_elem_of_singleton. tauto.
    + intros [] g. by rewrite (jumpsFrom_end _ _ Hjs).
  - intros k Hk. specialize (Hd k Hk). lia.
Qed.

(** A new jump, handed to an enclosing loop. *)
Lemma hoare_loopJump d S L T g loops' :
  Inv base d S L T g -> map isSwitch loops' = d ->
  (forall l, l ∈ loops' -> isSwitch l = true -> continueJumps l = []) ->
  (forall i, i ∈ flat_map (fun l => breakJumps l ++ continueJumps l) loops' <->
             i = length (code (out_ g)) \/ i ∈ pendingJumps g) ->
  match (idx <- emitJumpPlaceholder Jump ;; mmodify (fun g => g <| loopStack_ := loops' |>)) g with
  | (Ok _, g') => Inv base d S L T g' | (OutOfFuel, _) => False | _ => True end.
Proof.
  intros Hg Hd Hs Hp. pose proof (hoare_placeholder base d S L T Jump eq_refl g Hg) as H.
  unfold mbind at 1. unfold emitJumpPlaceholder, mbind, codeSize, emit, modOut, mgets, mmodify, mret in *.
  simpl in *. destruct H. split; try done; unfold pendingJumps in *; simpl in *.
  - intros i ins Hi Hl Hj. destruct (inv_targets0 i ins Hi Hl Hj) as [H|H]; [left|by right].
    revert H. rewrite elem_of_cons, !elem_of_app, Hp. tauto.
  - intros i Hi. apply inv_held0. revert Hi. rewrite elem_of_cons, !elem_of_app, Hp. tauto.
Qed.

Lemma keeps_break : keeps emitBreakStmt.
Proof.
  intros d S L T g Hg. unfold emitBreakStmt. unfold mbind at 1. unfold mgets at 1.
  destruct (loopStack_ g) as [|top rest] eqn:E; [done|].
  apply (hoare_loopJump d S L T g _ Hg); pose proof Hg as []; unfold pendingJumps in *; rewrite E in *; simpl in *.
  - done.
  - intros l [->|Hl]%elem_of_cons; [apply (inv_switch0 top); by left|apply inv_switch0; by right].
  - intros i. rewrite !elem_of_app, list_elem_of_singleton. tauto.
Qed.

Lemma addContinue_spec idx loops loops' : addContinue idx loops = Some loops' ->
  map isSwitch loops' = map isSwitch loops /\ ((forall l, l ∈ loops -> isSwitch l = true -> continueJumps l = []) ->
   forall l, l ∈ loops' -> isSwitch l = true -> continueJumps l = []) /\
  (forall i, i ∈ flat_map (fun l => breakJumps l ++ continueJumps l) loops' <->
             i = idx \/ i ∈ flat_map (fun l => breakJumps l ++ continueJumps l) loops).
Proof.
  revert loops'. induction loops as [|l loops IH]; intros loops'; simpl; [done|].
  destruct (isSwitch l) eqn:Hl.
  - destruct (addContinue idx loops) as [ls|] eqn:E; [|done]. intros [= <-]. simpl.
    destruct (IH ls eq_refl) as (IH1 & IH2 & IH3). split_and!; [by rewrite Hl, IH1| |].
    + intros H x [->|Hx]%elem_of_cons; [apply H; by left|]. apply IH2; [|done]. intros y Hy. apply H. by right.
    + intros i. rewrite !elem_of_app, IH3. tauto.
  - intros [= <-]. simpl. rewrite Hl. split_and!; [done| |].
    + intros H x [->|Hx]%elem_of_cons; [simpl; by rewrite Hl|]. apply H. by right.
    + intros i. rewrite !elem_of_app, list_elem_of_singleton. tauto.
Qed.

Lemma keeps_continue : keeps emitContinueStmt.
Proof.
  intros d S L T g Hg. unfold emitContinueStmt. unfold mbind at 1 2. unfold mgets at 1, codeSize, mgets.
  destruct (addContinue _ (loopStack_ g)) as [loops'|] eqn:E; [|done].
  destruct (addContinue_spec _ _ _ E) as (H1 & H2 & H3).
  apply (hoare_loopJump d S L T g _ Hg); pose proof Hg as [].
  - congruence.
  - auto.
  - exact H3.
Qed.
End Emitters.

(** ** Every tree *)
Section Trees.
Context (base : Start) (n : nat).
Context (HE : forall e, (node_size e < n)%nat -> keeps base (emitExpr e)).
Context (HS : forall s, (node_size s < n)%nat -> keeps base (emitStatement s)).
Context (HB : forall b, (block_size b < n)%nat -> keeps base (emitBlock b)).

Lemma keeps_floatLiteral x : keeps base (emitExpr (FloatLiteral x)).
Proof.
  simpl. gen_step. eapply hoare_bind; [apply hoare_internFloat|]. intros z. cbv beta.
  apply hoare_emit; [done|by intros g []|by intros g []].
Qed.
Lemma keeps_arrayLiteral es spread :
  (sum_sizes es < n)%nat -> keeps base (emitExpr (ArrayLiteralExpr es spread)).
Proof.
  intros Hn. simpl. unfold emitSpreadExpansions. gen_step.
  eapply hoare_bind; [by eapply keeps_emitAll|]. intros []. cbv beta.
  eapply hoare_bind; [apply keeps_spread|]. intros []. gen_tac.
Qed.
Lemma keeps_binary o l r :
  (node_size l + node_size r < n)%nat -> keeps base (emitExpr (BinaryExpr o l r)).
Proof.
  intros Hn. simpl.
  assert (keeps base (emitBinaryExpr emitExpr o l r)) as Hb.
  { unfold emitBinaryExpr. do 3 gen_step. apply keeps_binaryOp. }
  destruct o; try exact Hb; (eapply keeps_logical; [exact HE|lia]).
Qed.

Lemma keeps_expr_step e :
  (n <= st_size base)%nat -> (node_size e < S n)%nat -> keeps base (emitExpr e).
Proof.
  intros Hsize Hn. destruct e; simpl in Hn; try apply keeps_error; try solve [simpl; gen_tac].
  - apply keeps_floatLiteral.
  - apply keeps_varRef.
  - apply keeps_binary. lia.
  - eapply keeps_unary; [exact HE|lia].
  - eapply keeps_ternary; [exact HE|lia].
  - eapply keeps_call; [exact HE|size_lia].
  - eapply keeps_callOther; [exact HE|size_lia].
  - eapply keeps_sscanf; [exact HE|exact HS|exact HB|size_lia].
  - eapply keeps_catch; [exact HE|lia].
  - eapply keeps_closureLiteral; [exact HE|size_lia].
  - eapply keeps_inlineLambda; [exact HE|exact Hsize|size_lia].
  - apply keeps_lambdaParam.
  - eapply keeps_assign; [exact HE|lia].
  - eapply keeps_incDec; [exact HE|size_lia].
  - apply keeps_arrayLiteral. size_lia.
  - eapply keeps_mappingLiteral; [exact HE|size_lia].
  - eapply keeps_newClass; [exact HE|size_lia].
  - eapply keeps_index; [exact HE|size_lia].
  - eapply keeps_indexAssign; [exact HE|size_lia].
  - eapply keeps_time; [exact HB|lia].
  - eapply keeps_anonFunction; [exact Hsize|lia].
Qed.

Lemma keeps_statement_step s : (node_size s < S n)%nat -> keeps base (emitStatement s).
Proof.
  intros Hn. destruct s; simpl in Hn; try apply keeps_error; try solve [simpl; gen_tac].
  - eapply keeps_return; [exact HE|size_lia].
  - eapply keeps_varDecl; [exact HE|size_lia].
  - eapply keeps_assignStmt; [exact HE|lia].
  - eapply keeps_indexAssignStmt; [exact HE|size_lia].
  - destruct block as [ss []]; [apply (HB (mkBlock ss true)); simpl in *; lia|simpl in *].
    eapply keeps_emitStatements; [exact HS|size_lia].
  - eapply keeps_if; [exact HE|exact HB|size_lia].
  - eapply keeps_while; [exact HE|exact HB|lia].
  - eapply keeps_doWhile; [exact HE|exact HB|lia].
  - eapply keeps_for; [exact HE|exact HB|size_lia].
  - apply keeps_break.
  - apply keeps_continue.
  - eapply keeps_switch; [exact HE|exact HS|size_lia].
  - eapply keeps_foreach; [exact HE|exact HS|exact HB|lia].
Qed.

Lemma keeps_block_step b : (block_size b < S n)%nat -> keeps base (emitBlock b).
Proof.
  destruct b as [ss r]. simpl. intros Hn. gen_step.
  eapply hoare_bind; [by apply keeps_openScope|]. intros []. cbv beta.
  eapply hoare_bind; [eapply keeps_emitStatements; [exact HS|size_lia]|]. intros [].
  apply keeps_closeScope.
Qed.
End Trees.

Lemma keeps_trees (base : Start) n : (n <= S (st_size base))%nat ->
  (forall e, (node_size e < n)%nat -> keeps base (emitExpr e)) /\
  (forall s, (node_size s < n)%nat -> keeps base (emitStatement s)) /\
  (forall b, (block_size b < n)%nat -> keeps base (emitBlock b)).
Proof.
  induction n as [|n IH]; intros Hn; [split_and!; intros; lia|].
  destruct IH as (HE & HS & HB); [lia|]. split_and!.
  - intros e He. apply (keeps_expr_step base n); first [done|lia].
  - intros s. by apply keeps_statement_step.
  - intros b. by apply keeps_block_step.
Qed.
Lemma keeps_expr (base : Start) e : (node_size e <= st_size base)%nat -> keeps base (emitExpr e).
Proof. intros He. destruct (keeps_trees base (S (node_size e))) as (H & _ & _); [lia|]. apply H. lia. Qed.
Lemma keeps_block (base : Start) b : (block_size b <= st_size base)%nat -> keeps base (emitBlock b).
Proof. intros Hb. destruct (keeps_trees base (S (block_size b))) as (_ & _ & H); [lia|]. apply H. lia. Qed.
