(* ===== verification/CodeGenProgram.v ===== *)
(** * CodeGenProgram: a generated program passes the bytecode verifier

    From the emitters of one function (CodeGenFacts) to whole programs: every
    entry of the function table [CodeGen::generate] fills is the start of a
    region of code that ends with [Return], that no jump leaves, and whose
    operands refer to what the program has. *)
From S2P Require Import Prelude CLib Double Value Bytecode Ast CodeGen CodeGenFacts.
Local Open Scope Z_scope.

(** ** Functions *)

(** A function of [p]: a region of code that its jumps do not leave and that
    ends with [Return].  [first] is 0 but for inline lambdas. *)
Definition region_ok (p : CompiledProgram) (start stop : nat) (first nl : Z) : Prop :=
  (start < stop <= length (code p))%nat /\
  (exists ins, code p !! pred stop = Some ins /\ op ins = Return) /\
  forall i ins, (start <= i < stop)%nat -> code p !! i = Some ins ->
    operands_ok (stringPool p) (floatPool p) (length (objectVarNames p)) first nl ins /\
    (jumps (op ins) = true -> exists k, operand ins = int_of k /\ (start <= k < stop)%nat).
Definition entry_ok (p : CompiledProgram) (f : FunctionEntry) : Prop :=
  exists start stop first nl, region_ok p start stop first nl /\
    entryPoint f = uint32_of start /\ numLocals f = uint8_of nl /\
    (is_lambda_name (fname f) = false -> first = 0).

Record extends (p p' : CompiledProgram) : Prop := {
  ext_code : code p `prefix_of` code p';
  ext_strings : stringPool p `prefix_of` stringPool p';
  ext_floats : floatPool p `prefix_of` floatPool p';
  ext_names : objectVarNames p' = objectVarNames p
}.
Lemma prefix_lookup_back {A} (l l' : list A) i x :
  l `prefix_of` l' -> (i < length l)%nat -> l' !! i = Some x -> l !! i = Some x.
Proof. intros [k ->] Hi. by rewrite lookup_app_l. Qed.
Lemma entry_ok_extends p p' f : extends p p' -> entry_ok p f -> entry_ok p' f.
Proof.
  intros [Hc Hs Hf Hn] (start & stop & first & nl & (Hr & (ins & Hi & Ho) & H) & Hrest).
  exists start, stop, first, nl. split; [|done]. pose proof (prefix_length _ _ Hc).
  split_and!; [lia|lia| |].
  - exists ins. split; [by eapply prefix_lookup_Some|done].
  - intros i ins' Hi' E. assert (code p !! i = Some ins') as E' by (eapply prefix_lookup_back; [done|lia|done]).
    destruct (H i ins' Hi' E') as [H1 H2]. split; [|done]. rewrite Hn. by eapply operands_ok_mono.
Qed.

(** The functions of one file: [names] are its object variables,
    [inherited] those of its parents. *)
Section Functions.
Context (names inherited : list string).

(** Between functions. *)
Record Done (g : CodeGen) : Prop := {
  done_vars : vars_in (objectVars_ g) 0 (Z.of_nat (length (objectVarNames (out_ g))));
  done_functions : Forall (entry_ok (out_ g)) (functions (out_ g));
  done_lambdas : Forall (fun p => is_lambda_name (pl_name p) = true) (pendingLambdas_ g);
  done_names : objectVarNames (out_ g) = names
}.
(** At the start of a function. *)
Record Ready (g : CodeGen) : Prop := {
  ready_done : Done g;
  ready_locals : vars_in (locals_ g) (Z.min 0 (nextLocalSlot_ g)) (nextLocalSlot_ g);
  ready_loops : loopStack_ g = []
}.

Lemma Ready_Inv g n : Ready g -> Inv (mkStart g n) [] [] [] [] g.
Proof.
  intros [[Hv _ Hn _] Hl Hs].
  assert (forall i ins, (length (code (out_ g)) <= i)%nat -> code (out_ g) !! i = Some ins -> False) as Hno.
  { intros i ins Hi E%lookup_lt_Some. lia. }
  assert (pendingJumps g = []) as Hp by (unfold pendingJumps; by rewrite Hs).
  split; rewrite ?Hp, ?Hs; try done; try (intros; set_solver); try (intros; exfalso; eauto; fail); [simpl; lia|].
  split; (exists []; split; [by rewrite app_nil_r|constructor]).
Qed.

(** A complete function adds one well-formed entry. *)
Lemma Inv_complete (base : Start) g name (na : nat) (va : bool) :
  Done base -> Inv base [] [] [] [] g -> (is_lambda_name name = false -> 0 <= nextLocalSlot_ base) ->
  let p := (out_ g) <| code ::= fun c => c ++ [mkInstr Return 0 0] |> in
  Done (g <| out_ := p <| functions ::= fun fs => fs ++ [mkFunction name (uint32_of (length (code (out_ base))))
    na (uint8_of (nextLocalSlot_ g)) false va] |> |>).
Proof.
  intros [Hv Hf Hq Hm] [] Hname p.
  assert (pendingJumps g = []) as Hp. { unfold pendingJumps. by destruct (loopStack_ g). }
  split; simpl; [done| | |by rewrite inv_names].
  2: { destruct inv_queued as [(ls & -> & Hls) _]. apply Forall_app. split; [done|].
       eapply list.Forall_impl; [exact Hls|]. by intros p' []. }
  apply Forall_app. split.
  - rewrite inv_functions. eapply list.Forall_impl; [exact Hf|]. intros f. apply entry_ok_extends.
    split; simpl; [by apply prefix_app_r|done..].
  - constructor; [|done]. exists (length (code (out_ base))), (S (length (code (out_ g)))).
    exists (Z.min 0 (nextLocalSlot_ base)), (nextLocalSlot_ g). split_and!; try done.  
    2: { simpl. intros Hl. specialize (Hname Hl). lia. }
    apply prefix_length in inv_code. split_and!; simpl; [lia|rewrite length_app; simpl; lia| |].
    + eexists. by rewrite list_lookup_middle by done.
    + intros i ins Hi [E|[-> ->]]%lookup_snoc_inv; [|done]. split; [apply (inv_operands i); [lia|done]|].
      intros Hj. destruct (inv_targets i ins) as [H|(k & H & Hk)]; [lia|done|done| |].
      * rewrite Hp in H. set_solver.
      * exists k. split; [done|lia].
Qed.

Lemma hoare_emitFunction (P : CodeGen -> Prop) n ls fs name na va body :
  (forall base : Start, st_size base = n -> P base -> keeps base body) ->
  hoare (fun g => Ready g /\ P g /\ (is_lambda_name name = false -> 0 <= nextLocalSlot_ g) /\
                  pendingLambdas_ g = ls /\ pendingAnonFuncs_ g = fs)
    (emitFunction name na va body) (fun _ g => Done g /\ grows n ls fs g).
Proof.
  intros Hb g (Hg & HP & Hn & <- & <-). unfold emitFunction. unfold mbind at 1, codeSize at 1, mgets at 1.
  pose proof (Hb (mkStart g n) eq_refl HP [] [] [] [] g (Ready_Inv g n Hg)) as Hi. unfold mbind.
  destruct (body g) as [[[]|e|w|] g1]; try done. split.
  - exact (Inv_complete (mkStart g n) g1 name _ va (ready_done _ Hg) Hi Hn).
  - exact (inv_queued _ _ _ _ _ _ Hi).
Qed.

(** The generator before the code of a function. *)
Definition Reset (ls : list PendingLambda) (fs : list PendingAnonFunc) (g : CodeGen) : Prop :=
  Ready g /\ nextLocalSlot_ g = 0 /\ locals_ g = ∅ /\ pendingLambdas_ g = ls /\ pendingAnonFuncs_ g = fs.
Definition Between (ls : list PendingLambda) (fs : list PendingAnonFunc) (g : CodeGen) : Prop :=
  Done g /\ pendingLambdas_ g = ls /\ pendingAnonFuncs_ g = fs.
Lemma hoare_resetFunction ls fs :
  hoare (Between ls fs) resetFunction (fun _ => Reset ls fs).
Proof.
  intros g ([Hv Hf Hl Hm] & <- & <-). split; [|done]. split; [by split| |done]. intros x s Hx. done.
Qed.

(** The parameters take the first slots. *)
Lemma Inv_restart base n g : Ready base -> nextLocalSlot_ base = 0 -> Inv (mkStart base n) [] [] [] [] g ->
  Ready g /\ 0 <= nextLocalSlot_ g.
Proof.
  intros Hb H0 []. destruct Hb as [[_ Hf Hq Hm] _ _]. simpl in *. rewrite H0 in *. split; [split|lia].
  - split; [done| | |].
    + rewrite inv_functions. eapply list.Forall_impl; [exact Hf|]. intros f. by apply entry_ok_extends.
    + destruct inv_queued as [(ls & -> & Hls) _]. apply Forall_app. split; [done|].
      eapply list.Forall_impl; [exact Hls|]. by intros p' [].
    + by rewrite inv_names.
  - intros x s Hx. specialize (inv_locals x s Hx). lia.
  - by destruct (loopStack_ g).
Qed.
Lemma hoare_declareParams ps ls fs :
  hoare (Reset ls fs) (declareParams ps) (fun _ g => Ready g /\ 0 <= nextLocalSlot_ g /\
    pendingLambdas_ g = ls /\ pendingAnonFuncs_ g = fs).
Proof.
  intros g (Hg & Hn & _ & <- & <-).
  assert (forall base, keeps base (declareParams ps)) as Hk.
  { intros base. unfold declareParams. apply keeps_forEach. intros p _. gen_step. gen_step. gen_tac. }
  pose proof (Hk (mkStart g 0) [] [] [] [] g (Ready_Inv g 0 Hg)) as Hi.
  destruct (declareParams ps g) as [[[]|e|w|] g1]; try done.
  destruct (Inv_restart _ _ _ Hg Hn Hi) as [H1 H2]. split_and!; try done.
  - destruct (inv_queued _ _ _ _ _ _ Hi) as [([|p l] & E & H) _]; [by rewrite app_nil_r in E|].
    apply list.Forall_cons in H as [[_ H] _]. simpl in H. lia.
  - destruct (inv_queued _ _ _ _ _ _ Hi) as [_ ([|p l] & E & H)]; [by rewrite app_nil_r in E|].
    apply list.Forall_cons in H as [H _]. unfold anon_small in H. simpl in H. lia.
Qed.

Lemma keeps_lambdaBody (base : Start) es :
  (sum_sizes es <= st_size base)%nat -> keeps base (emitLambdaBody es).
Proof.
  unfold sum_sizes. induction es as [|e es IH]; intros Hs; simpl in *; [gen_tac|].
  assert (keeps base (emitExpr e)) as He by (apply keeps_expr; lia).
  destruct es as [|e' es']; [done|]. gen_step. gen_step. gen_step. apply keeps_hoare, IH. simpl in *. lia.
Qed.
Lemma keeps_varInitializers (base : Start) inits :
  (list_sum (map (fun p => node_size (snd p)) inits) <= st_size base)%nat ->
  (forall s, s ∈ map fst inits -> 0 <= s < Z.of_nat (length (objectVarNames (out_ base)))) ->
  keeps base (emitVarInitializers inits).
Proof.
  induction inits as [|[s e] inits IH]; intros Hn Hs; simpl in *; [gen_tac|].
  assert (keeps base (emitExpr e)) as He by (apply keeps_expr; lia). do 2 gen_step.
  eapply (hoare_bind _ _ _ (fun _ => Inv base d S L T));
    [|intros []; apply keeps_hoare, IH; [lia|intros x Hx; apply Hs; by right]].
  apply hoare_emit; [done|done|]. intros g Hg. unfold operands_ok. simpl.
  rewrite (inv_names _ _ _ _ _ _ Hg). apply Hs. by left.
Qed.

Lemma hoare_pendingLambda p ls fs : is_lambda_name (pl_name p) = true ->
  hoare (Between ls fs) (emitPendingLambda p)
    (fun _ g => Done g /\ grows (sum_sizes (pl_bodyExprs p)) ls fs g).
Proof.
  intros Hp. unfold emitPendingLambda. eapply hoare_bind; [apply hoare_resetFunction|]. intros [].
  eapply (hoare_bind _ _ _ (fun _ g => Ready g /\ pendingLambdas_ g = ls /\ pendingAnonFuncs_ g = fs)).
  - apply hoare_modify. intros g ([Hd _ Hl] & _ & E & H1 & H2).
    split_and!; [split; simpl; [by destruct Hd|by rewrite E|done]|done|done].
  - intros []. eapply hoare_weaken; [apply (hoare_emitFunction (fun _ => True) (sum_sizes (pl_bodyExprs p)) ls fs)|..]; [|simpl|done].
    + intros base Hs _. apply keeps_lambdaBody. rewrite Hs. done.
    + intros g (H1 & H2 & H3). split_and!; [done|done|congruence|done|done].
Qed.
Lemma hoare_paramsFunction name na va ps b ls fs :
  hoare (Between ls fs) (resetFunction ;; declareParams ps ;; emitFunction name na va (emitBlock b))
    (fun _ g => Done g /\ grows (block_size b) ls fs g).
Proof.
  eapply hoare_bind; [apply hoare_resetFunction|]. intros [].
  eapply hoare_bind; [apply hoare_declareParams|].
  intros []. eapply hoare_weaken; [apply (hoare_emitFunction (fun _ => True) (block_size b) ls fs)|..]; [|simpl|done].
  - intros base Hs _. apply keeps_block. by rewrite Hs.
  - intros g (H1 & H2 & H3 & H4). by split_and!.
Qed.

(** ** Actions with fuel: one answer, given enough *)
Definition good {A} (Post : A -> CodeGen -> Prop) (r : outcome exn A * CodeGen) : Prop :=
  match r with (Ok a, g) => Post a g | (OutOfFuel, _) => False | _ => True end.
Definition converges {A} (m : nat -> G A) (g : CodeGen) (Post : A -> CodeGen -> Prop) : Prop :=
  exists F r, good Post r /\
    forall fuel, m fuel g = r \/ (fuel < F)%nat /\ fst (m fuel g) = OutOfFuel.

Lemma converges_const {A} (m : G A) P Q g : hoare P m Q -> P g -> converges (fun _ => m) g Q.
Proof. intros Hm Hg. exists O, (m g). split; [by apply Hm|by left]. Qed.
Lemma converges_bind {A B} (m : nat -> G A) (k : nat -> A -> G B) g Q R :
  converges m g Q -> (forall a g', Q a g' -> converges (fun fuel => k fuel a) g' R) ->
  converges (fun fuel => mbind (m fuel) (k fuel)) g R.
Proof.
  intros (F & [o g'] & Hr & Hm) Hk. unfold mbind.
  assert (forall o', o = o' -> (forall a, o' <> Ok a) ->
    converges (fun fuel => mbind (m fuel) (k fuel)) g R) as Hstop.
  { intros o' <- Ho. unfold mbind. destruct o as [a|e|w|]; [by destruct (Ho a)|..|done];
      (eexists F, (_, g'); split; [|intros fuel; destruct (Hm fuel) as [E|[HF E]];
        [left; rewrite E; reflexivity|right; split; [done|]; by destruct (m fuel g) as [[]]]]; done). }
  destruct o as [a|e|w|]; [|by eapply Hstop..]. destruct (Hk a g' Hr) as (F' & r' & Hr' & Hk').
  exists (max F F'), r'. split; [done|]. intros fuel. destruct (Hm fuel) as [E|[HF E]].
  - rewrite E. destruct (Hk' fuel) as [E'|[HF' E']]; [by left|right]. split; [lia|done].
  - right. split; [lia|]. by destruct (m fuel g) as [[]].
Qed.
Lemma converges_weaken {A} (m : nat -> G A) g (Q Q' : A -> CodeGen -> Prop) :
  converges m g Q -> (forall a g', Q a g' -> Q' a g') -> converges m g Q'.
Proof.
  intros (F & [[a|e|w|] g'] & Hr & Hm) HQ; eexists F, _; (split; [|exact Hm]); simpl in *; auto.
Qed.

Lemma converges_succ {A} (m : nat -> G A) g Q : converges m g Q -> converges (fun fuel => m (S fuel)) g Q.
Proof.
  intros (F & r & Hr & Hm). exists F, r. split; [done|]. intros fuel.
  destruct (Hm (S fuel)) as [E|[HF E]]; [by left|right]. split; [lia|done].
Qed.

(** ** A queue that its own entries make longer *)
Section Worklist.
Context {X : Type} (walk : nat -> nat -> G unit) (queue : CodeGen -> list X)
  (clear : CodeGen -> CodeGen) (run : X -> G unit) (small : nat -> X -> Prop)
  (I : CodeGen -> Prop) (D : nat).
Context (walk_O : forall i g, fst (walk 0 i g) = OutOfFuel).
Context (walk_S : forall fuel i g, walk (S fuel) i g =
  match queue g !! i with
  | None => (Ok tt, clear g)
  | Some p => (run p ;; walk fuel (S i)) g
  end).
Context (small_O : forall p, ~ small 0 p).
Context (run_ok : forall p n g, I g -> p ∈ queue g -> small (S n) p -> (S n <= D)%nat ->
  good (fun _ g' => I g' /\ exists new, queue g' = queue g ++ new /\ Forall (small n) new) (run p g)).

Lemma worklist d i g old new : (d <= D)%nat -> I g -> drop i (queue g) = old ++ new ->
  Forall (small d) old -> Forall (small (pred d)) new ->
  converges (fun fuel => walk fuel i) g (fun _ g' => exists g1, g' = clear g1 /\ I g1).
Proof.
  revert i g old new. induction d as [|d IH]; intros i g old new Hd Hg Eq Hold Hnew.
  { assert (drop i (queue g) = []) as E.
    { rewrite Eq. destruct old as [|p ?], new as [|q ?]; try done.
      - apply list.Forall_cons in Hnew as [H _]. by apply small_O in H.
      - apply list.Forall_cons in Hold as [H _]. by apply small_O in H.
      - apply list.Forall_cons in Hold as [H _]. by apply small_O in H. }
    exists 1%nat, (Ok tt, clear g). split; [by exists g|]. intros [|fuel]; [right; split; [lia|apply walk_O]|left].
    rewrite walk_S, lookup_ge_None_2; [done|]. apply (f_equal length) in E. rewrite length_drop in E. simpl in E. lia. }
  revert i g new Hg Eq Hnew. induction old as [|p old IHold]; intros i g new Hg Eq Hnew.
  { simpl in *. apply (IH i g new []); [lia|done|by rewrite app_nil_r|done|constructor]. }
  assert (queue g !! i = Some p) as Ei.
  { rewrite <- (Nat.add_0_r i), <- lookup_drop, Eq. done. }
  apply list.Forall_cons in Hold as [Hp Hold].
  pose proof (run_ok p d g Hg ltac:(by eapply list_elem_of_lookup_2) Hp Hd) as Hrun.
  assert (converges (fun fuel => mbind (run p) (fun _ => walk fuel (S i))) g
    (fun _ g' => exists g1, g' = clear g1 /\ I g1)) as (F & r & Hr & Hw).
  { eapply (converges_bind (fun _ => run p) (fun fuel _ => walk fuel (S i))).
    - apply (converges_const (run p) (eq g)); [|done]. intros g0 <-. exact Hrun.
    - intros [] g' (Hg' & new' & Eq' & Hn'). apply (IHold Hold _ _ (new ++ new')); [done| |].
      + rewrite Eq', drop_app_le by (apply lookup_lt_Some in Ei; lia).
        rewrite <- Nat.add_1_r, <- drop_drop, Eq. simpl. by rewrite drop_0, app_assoc.
      + apply Forall_app. split; [done|]. done. }
  exists (S F), r. split; [done|]. intros [|fuel]; [right; split; [lia|apply walk_O]|].
  rewrite walk_S, Ei. destruct (Hw fuel) as [E|[HF E]]; [by left|right]. split; [lia|done].
Qed.
End Worklist.

(** ** The queues *)
Lemma lambda_small_mono n n' p : (n <= n')%nat -> lambda_small n p -> lambda_small n' p.
Proof. unfold lambda_small. intros Hn []. split; [done|lia]. Qed.
Lemma anon_small_mono n n' p : (n <= n')%nat -> anon_small n p -> anon_small n' p.
Proof. unfold anon_small. lia. Qed.
Lemma lambdas_small_mono n n' l : (n <= n')%nat -> Forall (lambda_small n) l -> Forall (lambda_small n') l.
Proof. intros Hn H. eapply list.Forall_impl; [exact H|]. intros p. by apply lambda_small_mono. Qed.
Lemma anons_small_mono n n' l : (n <= n')%nat -> Forall (anon_small n) l -> Forall (anon_small n') l.
Proof. intros Hn H. eapply list.Forall_impl; [exact H|]. intros p. by apply anon_small_mono. Qed.

(** Every queue has a bound. *)
Lemma lambdas_bounded l : Forall (fun p => is_lambda_name (pl_name p) = true) l ->
  exists n, Forall (lambda_small n) l.
Proof.
  induction 1 as [|p l Hp Hl [n IH]]; [by exists O|].
  exists (max n (S (sum_sizes (pl_bodyExprs p)))). constructor; [split; [done|lia]|].
  eapply lambdas_small_mono; [|done]. lia.
Qed.
Lemma anons_bounded l : exists n, Forall (anon_small n) l.
Proof.
  induction l as [|p l [n IH]]; [by exists O|]. exists (max n (S (block_size (pa_body p)))).
  constructor; [unfold anon_small; lia|]. eapply anons_small_mono; [|done]. lia.
Qed.

Lemma emitPendingLambdas_S fuel i g : emitPendingLambdas (S fuel) i g =
  match pendingLambdas_ g !! i with
  | None => (Ok tt, g <| pendingLambdas_ := [] |>)
  | Some p => (emitPendingLambda p ;; emitPendingLambdas fuel (S i)) g
  end.
Proof. simpl. unfold mbind at 1, mgets. by destruct (pendingLambdas_ g !! i). Qed.
Lemma emitPendingAnonFuncs_S fuel i g : emitPendingAnonFuncs (S fuel) i g =
  match pendingAnonFuncs_ g !! i with
  | None => (Ok tt, g <| pendingAnonFuncs_ := [] |>)
  | Some p => (emitPendingAnonFunc p ;; emitPendingAnonFuncs fuel (S i)) g
  end.
Proof. simpl. unfold mbind at 1, mgets. by destruct (pendingAnonFuncs_ g !! i). Qed.

Definition SmallQueues (dl da : nat) (g : CodeGen) : Prop :=
  Done g /\ Forall (lambda_small dl) (pendingLambdas_ g) /\ Forall (anon_small da) (pendingAnonFuncs_ g).

Lemma lambdas_converge d g : SmallQueues d d g ->
  converges (fun fuel => emitPendingLambdas fuel 0) g (fun _ => SmallQueues 0 d).
Proof.
  intros (Hg & Hl & Ha). eapply converges_weaken.
  - apply (worklist emitPendingLambdas pendingLambdas_ (fun g => g <| pendingLambdas_ := [] |>)
      emitPendingLambda lambda_small (fun g => Done g /\ Forall (anon_small d) (pendingAnonFuncs_ g)) d)
      with (d := d) (old := pendingLambdas_ g) (new := []); try done.
    + apply emitPendingLambdas_S.
    + unfold lambda_small. intros p []. lia.
    + intros p n g0 [Hg0 Ha0] _ [Hp Hn] Hd.
      pose proof (hoare_pendingLambda p _ _ Hp g0 (conj Hg0 (conj eq_refl eq_refl))) as H.
      destruct (emitPendingLambda p g0) as [[[]|e|w|] g1]; try done.
      destruct H as (Hg1 & (ls & El & Hls) & (fs & Ef & Hfs)). simpl. split_and!; [done| |].
      * rewrite Ef. apply Forall_app. split; [done|]. eapply anons_small_mono; [|done]. lia.
      * exists ls. split; [done|]. eapply lambdas_small_mono; [|done]. lia.
    + by rewrite app_nil_r.
  - intros [] g' (g1 & -> & [[] Ha1]). by split.
Qed.
Lemma anons_converge d g : SmallQueues (pred d) d g ->
  converges (fun fuel => emitPendingAnonFuncs fuel 0) g (fun _ => SmallQueues (pred d) 0).
Proof.
  intros (Hg & Hl & Ha). eapply converges_weaken.
  - apply (worklist emitPendingAnonFuncs pendingAnonFuncs_ (fun g => g <| pendingAnonFuncs_ := [] |>)
      emitPendingAnonFunc anon_small (fun g => Done g /\ Forall (lambda_small (pred d)) (pendingLambdas_ g)) d)
      with (d := d) (old := pendingAnonFuncs_ g) (new := []); try done.
    + apply emitPendingAnonFuncs_S.
    + unfold anon_small. intros p. lia.
    + intros p n g0 [Hg0 Ha0] _ Hp Hd. unfold anon_small in Hp.
      pose proof (hoare_paramsFunction (pa_name p) (Z.of_nat (length (pa_params p))) (pa_isVarargs p)
        (pa_params p) (pa_body p) _ _ g0 (conj Hg0 (conj eq_refl eq_refl))) as H.
      change (resetFunction ;; _) with (emitPendingAnonFunc p) in H.
      destruct (emitPendingAnonFunc p g0) as [[[]|e|w|] g1]; try done.
      destruct H as (Hg1 & (ls & El & Hls) & (fs & Ef & Hfs)). simpl. split_and!; [done| |].
      * rewrite El. apply Forall_app. split; [done|]. eapply lambdas_small_mono; [|done]. lia.
      * exists fs. split; [done|]. eapply anons_small_mono; [|done]. lia.
    + by rewrite app_nil_r.
  - intros [] g' (g1 & -> & [[] Ha1]). by split.
Qed.
Lemma drain_converges d g : SmallQueues d d g ->
  converges drainPending g (fun _ g' => Done g').
Proof.
  revert g. induction d as [|d IH]; intros g Hg.
  { destruct Hg as (Hg & Hl & Ha). exists 1%nat, (Ok tt, g). split; [done|].
    intros [|fuel]; [right; split; [lia|done]|left]. simpl. unfold mbind at 1, mgets, hasPending.
    destruct (pendingLambdas_ g) as [|p l]; [|apply list.Forall_cons in Hl as [[_ H] _]; lia].
    destruct (pendingAnonFuncs_ g) as [|p l]; [done|]. apply list.Forall_cons in Ha as [H _].
    unfold anon_small in H. lia. }
  assert (converges (fun fuel => emitPendingLambdas (S fuel) 0 ;;
    emitPendingAnonFuncs (S fuel) 0 ;; drainPending fuel) g (fun _ g' => Done g')) as (F & r & Hr & Hw).
  { eapply (converges_bind (fun fuel => emitPendingLambdas (S fuel) 0)).
    - by apply (converges_succ (fun fuel => emitPendingLambdas fuel 0)), lambdas_converge.
    - intros [] g1 (Hg1 & Hl & Ha).
      eapply (converges_bind (fun fuel => emitPendingAnonFuncs (S fuel) 0) (fun fuel _ => drainPending fuel)).
      + apply (converges_succ (fun fuel => emitPendingAnonFuncs fuel 0)), (anons_converge (S d)). split_and!; [done|eapply lambdas_small_mono, Hl; lia|done].
      + intros [] g2 (Hg2 & Hl2 & Ha2). apply IH. split_and!; [done|done|eapply anons_small_mono, Ha2; lia]. }
  destruct (hasPending g) eqn:Hp.
  - exists (S F), r. split; [done|]. intros [|fuel]; [right; split; [lia|done]|].
    assert (drainPending (S fuel) g = (emitPendingLambdas (S fuel) 0 ;;
      emitPendingAnonFuncs (S fuel) 0 ;; drainPending fuel) g) as ->.
    { simpl. unfold mbind at 1, mgets at 1. by rewrite Hp. }
    destruct (Hw fuel) as [E|[HF E]]; [by left|right]. split; [lia|done].
  - exists 1%nat, (Ok tt, g). split; [apply Hg|]. intros [|fuel]; [right; split; [lia|done]|left].
    simpl. unfold mbind at 1, mgets at 1. by rewrite Hp.
Qed.
Lemma drains g : Done g -> converges drainPending g (fun _ g' => Done g').
Proof.
  intros Hg. destruct (lambdas_bounded _ (done_lambdas _ Hg)) as [n Hn].
  destruct (anons_bounded (pendingAnonFuncs_ g)) as [n' Hn']. apply (drain_converges (max n n')).
  split_and!; [done|eapply lambdas_small_mono, Hn; lia|eapply anons_small_mono, Hn'; lia].
Qed.

(** ** Programs *)
Definition slots_in (inits : list (Z * AstNode)) (g : CodeGen) : Prop :=
  forall s, s ∈ map fst inits -> 0 <= s < Z.of_nat (length (objectVarNames (out_ g))).

(** Nothing is emitted yet. *)
Record Fresh (g : CodeGen) : Prop := {
  fresh_vars : vars_in (objectVars_ g) 0 (Z.of_nat (length (objectVarNames (out_ g))));
  fresh_functions : functions (out_ g) = [];
  fresh_lambdas : pendingLambdas_ g = [];
  fresh_prefix : inherited `prefix_of` objectVarNames (out_ g)
}.
Lemma hoare_declareObjectVar k v :
  hoare (fun g => Fresh g /\ k = Z.of_nat (length (objectVarNames (out_ g))))
    (declareObjectVar k v)
    (fun _ g => Fresh g /\ k + 1 = Z.of_nat (length (objectVarNames (out_ g)))).
Proof.
  intros g [[Hv Hf Hl Hp] ->]. unfold declareObjectVar, mbind, mmodify, modOut, mret.
  destruct (classTypeOf (ov_type v)) as [c|]; simpl.
  all: split; [split; try done; [|simpl; by apply prefix_app_r]|simpl; rewrite length_app; simpl; lia].
  all: simpl; rewrite length_app; intros x s; simpl; rewrite lookup_insert_Some.
  all: intros [[_ <-]|[_ Hx]]; [lia|specialize (Hv x s Hx); lia].
Qed.

Lemma hoare_declareObjectVars k vs :
  hoare (fun g => Fresh g /\ k = Z.of_nat (length (objectVarNames (out_ g))))
    (declareObjectVars k vs)
    (fun inits g => Fresh g /\ slots_in inits g /\ k <= Z.of_nat (length (objectVarNames (out_ g)))).
Proof.
  revert k. induction vs as [|v vs IH]; intros k; simpl.
  { apply hoare_ret. intros g [Hg ->]. split_and!; [done| |lia]. intros s. simpl. set_solver. }
  intros g [Hg Hk]. assert (0 <= k) as H0 by lia. revert g Hg Hk.
  assert (hoare (fun g => Fresh g /\ k = Z.of_nat (length (objectVarNames (out_ g))))
    (declareObjectVar k v ;; rest <- declareObjectVars (k + 1) vs ;;
      mret (match ov_initializer v with Some e => (k, e) :: rest | None => rest end))
    (fun inits g => Fresh g /\ slots_in inits g /\ k <= Z.of_nat (length (objectVarNames (out_ g))))) as H.
  { eapply hoare_bind; [apply hoare_declareObjectVar|]. intros [].
    eapply hoare_bind; [apply IH|]. intros rest. apply hoare_ret. intros g (Hg & Hs & Hk).
    split_and!; [done| |lia]. destruct (ov_initializer v); [|done].
    intros s. simpl. rewrite elem_of_cons. intros [->|Hs']; [lia|by apply Hs]. }
  intros g Hg Hk. by apply H.
Qed.

Lemma objVarInit_converges inits g : Done g -> slots_in inits g ->
  converges (fun fuel => emitObjVarInit fuel inits) g (fun _ g' => Done g').
Proof.
  intros Hg Hs. destruct inits as [|i inits].
  { by apply (converges_const (mret tt) (fun g0 => Done g0)); [apply hoare_ret|]. }
  set (all := i :: inits) in *.
  apply (converges_bind (fun _ => resetFunction) (fun fuel _ =>
    emitFunction "$objvarinit" 0 false (emitVarInitializers all) ;; emitPendingLambdas fuel 0)) with
    (Q := fun _ g1 => Reset (pendingLambdas_ g) (pendingAnonFuncs_ g) g1 /\ slots_in all g1).
  { apply (converges_const _ (eq g)); [|done]. intros g0 <-.
    pose proof (hoare_resetFunction _ _ g (conj Hg (conj eq_refl eq_refl))). by split. }
  intros [] g1 [(H1 & H2 & _ & H3 & H4) Hs1].
  apply (converges_bind (fun _ => emitFunction "$objvarinit" 0 false (emitVarInitializers all))
    (fun fuel _ => emitPendingLambdas fuel 0)) with (Q := fun _ g2 => Done g2).
  - assert (forall base : Start, st_size base = list_sum (map (fun p => node_size (snd p)) all) ->
      slots_in all base -> keeps base (emitVarInitializers all)) as Hk.
    { intros base Hb HP. apply keeps_varInitializers; [by rewrite Hb|done]. }
    eapply converges_weaken; [eapply converges_const; [apply (hoare_emitFunction (slots_in all) _
      (pendingLambdas_ g) (pendingAnonFuncs_ g) _ _ _ _ Hk)|]|by intros [] g2 []].
    split_and!; [done|done|lia|done|done].
  - intros [] g2 Hg2. destruct (lambdas_bounded _ (done_lambdas _ Hg2)) as [n Hn].
    destruct (anons_bounded (pendingAnonFuncs_ g2)) as [n' Hn'].
    eapply converges_weaken; [apply (lambdas_converge (max n n'))|by intros [] g3 []].
    split_and!; [done|eapply lambdas_small_mono, Hn; lia|eapply anons_small_mono, Hn'; lia].
Qed.

Lemma functionDecl_converges fn g : Done g ->
  converges (fun fuel => emitFunctionDecl fuel fn) g (fun _ g' => Done g').
Proof.
  intros Hg. unfold emitFunctionDecl. destruct (fd_body fn) as [b|].
  2: { by apply (converges_const (mret tt) (fun g0 => Done g0)); [apply hoare_ret|]. }
  set (f := fun fuel => (resetFunction ;; declareParams (fd_params fn) ;;
    emitFunction (fd_name fn) (Z.of_nat (length (fd_params fn))) (fd_isVarargs fn) (emitBlock b)) ;;
    drainPending fuel).
  assert (converges f g (fun _ g' => Done g')) as (F & r & Hr & Hf).
  { apply (converges_bind (fun _ => _) (fun fuel _ => drainPending fuel)) with (Q := fun _ g1 => Done g1).
    - eapply converges_weaken; [eapply converges_const; [apply (hoare_paramsFunction _ _ _ _ _ (pendingLambdas_ g) (pendingAnonFuncs_ g))|by split_and!]|].
      by intros [] g2 [].
    - intros [] g1. apply drains. }
  exists F, r. split; [done|]. intros fuel. specialize (Hf fuel). revert Hf. unfold f, mbind.
  destruct (resetFunction g) as [[[]|e|w|] g1]; try done.
  by destruct (declareParams _ g1) as [[[]|e|w|] g2].
Qed.
Lemma functionDecls_converge fns g : Done g ->
  converges (fun fuel => forEach fns (emitFunctionDecl fuel)) g (fun _ g' => Done g').
Proof.
  revert g. induction fns as [|fn fns IH]; intros g Hg; simpl.
  { by apply (converges_const (mret tt) (fun g0 => Done g0)); [apply hoare_ret|]. }
  apply (converges_bind (fun fuel => emitFunctionDecl fuel fn) (fun fuel _ => forEach fns (emitFunctionDecl fuel)))
    with (Q := fun _ g1 => Done g1); [by apply functionDecl_converges|]. intros [] g1. apply IH.
Qed.
End Functions.

Lemma inheritedSlots_in names : vars_in (inheritedSlots names) 0 (Z.of_nat (length names)).
Proof.
  unfold inheritedSlots.
  assert (forall (l : list (nat * string)) m, vars_in m 0 (Z.of_nat (length names)) ->
    Forall (fun p => (fst p < length names)%nat) l ->
    vars_in (foldl (fun m p => <[snd p := Z.of_nat (fst p)]> m) m l) 0 (Z.of_nat (length names))) as H.
  { induction l as [|p l IH]; intros m Hm Hl; simpl; [done|]. inversion Hl; subst. apply IH; [|done].
    intros x s. rewrite lookup_insert_Some. intros [[_ <-]|[_ Hx]]; [lia|by apply (Hm x)]. }
  apply H; [intros x s Hx; done|]. apply Forall_lookup. intros i [k x].
  rewrite list_lookup_imap. destruct (names !! i) as [y|] eqn:E; [|done].
  intros [= <- <-]. simpl. by eapply lookup_lt_Some.
Qed.

(** The part of [generate] that emits no code. *)
Definition declarations (program : Program) (inherited : list string) : G (list (Z * AstNode)) :=
  mmodify (fun g => g <| out_ := emptyProgram <| objectVarNames := inherited |> |>
    <| objectVars_ := inheritedSlots inherited |>
    <| classDefs_ := declareClasses (pg_classes program) |>
    <| objectVarClassTypes_ := ∅ |>) ;;
  inits <- declareObjectVars (Z.of_nat (length inherited)) (pg_objectVars program) ;;
  modOut (fun p => p <| inherits := pg_inherits program |>) ;;
  mret inits.
(** The object variables of the file come after the inherited ones. *)
Definition Declared (inherited : list string) (g : CodeGen) : Prop :=
  inherited `prefix_of` objectVarNames (out_ g) /\ Done (objectVarNames (out_ g)) g.
Lemma hoare_declarations program inherited :
  hoare (fun g => g = newCodeGen) (declarations program inherited)
    (fun inits g => Declared inherited g /\ slots_in inits g).
Proof.
  unfold declarations.
  eapply (hoare_bind _ _ _ (fun _ g => Fresh inherited g /\ Z.of_nat (length inherited) = Z.of_nat (length (objectVarNames (out_ g))))).
  { apply hoare_modify. intros g ->. split; [|done]. split; simpl; [apply inheritedSlots_in|done..]. }
  intros []. eapply hoare_bind; [apply hoare_declareObjectVars|]. intros inits. cbv beta.
  eapply (hoare_bind _ _ _ (fun _ g => Declared inherited g /\ slots_in inits g)); [|intros []; by apply hoare_ret].
  apply hoare_modify. intros g ([Hv Hf Hl Hp] & Hs & _). split; [|done]. split; [done|].
  split; [done|simpl; rewrite Hf; constructor|simpl; by rewrite Hl|done].
Qed.

Lemma generate_converges program inherited :
  converges (fun fuel => generate fuel program inherited) newCodeGen (fun p g => p = out_ g /\ Declared inherited g).
Proof.
  assert (converges (fun fuel => inits <- declarations program inherited ;;
    emitObjVarInit fuel inits ;; forEach (pg_functions program) (emitFunctionDecl fuel) ;; mgets out_)
    newCodeGen (fun p g => p = out_ g /\ Declared inherited g)) as (F & r & Hr & Hf).
  { apply (converges_bind (fun _ => declarations program inherited) (fun fuel inits =>
      emitObjVarInit fuel inits ;; forEach (pg_functions program) (emitFunctionDecl fuel) ;; mgets out_))
      with (Q := fun inits g => Declared inherited g /\ slots_in inits g).
    { eapply converges_const; [apply hoare_declarations|done]. }
    intros inits g [[Hp Hg] Hs]. set (names := objectVarNames (out_ g)) in *.
    apply (converges_bind (fun fuel => emitObjVarInit fuel inits) (fun fuel _ =>
      forEach (pg_functions program) (emitFunctionDecl fuel) ;; mgets out_)) with (Q := fun _ g1 => Done names g1);
      [by apply objVarInit_converges|]. intros [] g1 Hg1.
    apply (converges_bind (fun fuel => forEach (pg_functions program) (emitFunctionDecl fuel))
      (fun _ _ => mgets out_)) with (Q := fun _ g2 => Done names g2); [by apply functionDecls_converge|].
    intros [] g2 Hg2. apply (converges_const (mgets out_) (fun g => Done names g)); [|done].
    apply hoare_gets. intros g3 Hg3. split; [done|]. split; rewrite (done_names _ _ Hg3); done. }
  exists F, r. split; [done|]. intros fuel. specialize (Hf fuel). revert Hf.
  unfold generate, declarations, mbind, mmodify.
  by destruct (declareObjectVars _ _ _) as [[inits|e|w|] g1].
Qed.

Lemma compile_declared fuel program inherited p : compile fuel program inherited = Ok p ->
  exists g, p = out_ g /\ Declared inherited g.
Proof.
  intros Hg. destruct (generate_converges program inherited) as (F & [o g] & Hr & H).
  unfold compile in Hg. destruct (H fuel) as [E|[_ E]]; [|congruence]. rewrite E in Hg. simpl in Hg.
  subst o. destruct Hr as [-> Hd]. by exists g.
Qed.
(** The inherited variables come first. *)
Lemma compile_names fuel program inherited p : compile fuel program inherited = Ok p ->
  inherited `prefix_of` objectVarNames p.
Proof. intros (g & -> & H & _)%compile_declared. done. Qed.

(** ** The verifier *)

(** What the interpreter relies on in one instruction of a function whose code
    is at the positions from [lo] below [hi]. *)
Definition in_range (lo z hi : Z) : bool := (lo <=? z) && (z <? hi).
Definition verify_instruction (p : CompiledProgram) (lo hi : nat) (first nl : Z) (i : Instruction) : bool :=
  let below n := in_range 0 (operand i) (Z.of_nat n) in
  match op i with
  | Jump | JumpIfFalse | PushCatchFrame => in_range (Z.of_nat lo) (operand i) (Z.of_nat hi)
  | PushConst | PushSymbol | Call | CallEfun | CallParent | PushClosure | PushEfunClosure =>
      below (length (stringPool p))
  | CallParentQualifierSlot => (operand i =? -1) || below (length (stringPool p))
  | PushFloat => below (length (floatPool p))
  | StoreLocal => in_range first (operand i) nl
  | PushObjectVar | StoreObjectVar => below (length (objectVarNames p))
  | SscanfVarSlot =>
      if argCount i =? 0 then in_range first (operand i) nl else below (length (objectVarNames p))
  | CallApply | Halt | Suspend => false
  | _ => true
  end.
Definition is_return (i : option Instruction) : bool :=
  match i with Some (mkInstr Return _ _) => true | _ => false end.
Definition verify_function (p : CompiledProgram) (f : FunctionEntry) (stop : nat) (first nl : Z) : bool :=
  let lo := entryPoint f in
  (lo <? stop)%nat && (stop <=? length (code p))%nat &&
  is_return (code p !! pred stop) &&
  forallb (verify_instruction p lo stop first nl) (take (stop - lo) (drop lo (code p))) &&
  (is_lambda_name (fname f) || (first =? 0)).
Definition verified (p : CompiledProgram) (f : FunctionEntry) : Prop :=
  exists stop first nl, verify_function p f stop first nl = true /\ numLocals f = uint8_of nl.

Definition fits_int {A} (l : list A) : Prop := Z.of_nat (length l) < 2 ^ 31.

Lemma int_of_small {A} (l : list A) k : fits_int l -> (k <= length l)%nat -> int_of k = Z.of_nat k.
Proof. unfold fits_int. intros Hl Hk. apply wrap_id; lia. Qed.
Lemma index_in_range {A} (l : list A) z :
  fits_int l -> index_into l z -> in_range 0 z (Z.of_nat (length l)) = true.
Proof.
  intros Hl (k & -> & Hk). rewrite (int_of_small l) by (done || lia). unfold in_range.
  rewrite andb_true_iff, Z.leb_le, Z.ltb_lt. lia.
Qed.
Lemma in_range_true lo z hi : lo <= z < hi -> in_range lo z hi = true.
Proof. unfold in_range. rewrite andb_true_iff, Z.leb_le, Z.ltb_lt. lia. Qed.

Lemma verify_instruction_ok p lo hi first nl i :
  fits_int (code p) -> fits_int (stringPool p) -> fits_int (floatPool p) -> (hi <= length (code p))%nat ->
  operands_ok (stringPool p) (floatPool p) (length (objectVarNames p)) first nl i ->
  (jumps (op i) = true -> exists k, operand i = int_of k /\ (lo <= k < hi)%nat) ->
  verify_instruction p lo hi first nl i = true.
Proof.
  intros Hc Hs Hf Hhi Ho Hj. unfold verify_instruction, operands_ok in *.
  assert (jumps (op i) = true -> in_range (Z.of_nat lo) (operand i) (Z.of_nat hi) = true) as Hj'.
  { intros H. destruct (Hj H) as (k & -> & Hk). rewrite (int_of_small (code p)) by (done || lia).
    apply in_range_true. lia. }
  destruct (op i); try done; auto using index_in_range, in_range_true.
  - destruct Ho as [->|Ho]; [done|]. by rewrite index_in_range, orb_true_r.
  - destruct (argCount i =? 0); by apply in_range_true.
Qed.

Lemma entry_verified p f :
  fits_int (code p) -> fits_int (stringPool p) -> fits_int (floatPool p) ->
  entry_ok p f -> verified p f.
Proof.
  intros Hc Hs Hf (start & stop & first & nl & (Hr & (ins & Hi & Ho) & H) & He & Hn & Hl).
  exists stop, first, nl. split; [|done].
  assert (entryPoint f = start) as E.
  { rewrite He. unfold uint32_of, fits_int in *. rewrite Z.mod_small; lia. }
  unfold verify_function. rewrite E, !andb_true_iff, Nat.ltb_lt, Nat.leb_le, forallb_forall.
  split_and!; [lia|lia| | |].
  - rewrite Hi. destruct ins as [o a k]. simpl in Ho. by subst o.
  - intros i Hin. apply list_elem_of_In, list_elem_of_lookup in Hin as [k Hk].
    apply lookup_take_Some in Hk as [Hk Hlt]. rewrite lookup_drop in Hk.
    destruct (H (start + k)%nat i) as [H1 H2]; [lia|done|]. apply verify_instruction_ok; auto. lia.
  - destruct (is_lambda_name (fname f)); [done|]. by rewrite Hl.
Qed.

(** C17: whatever tree the parser hands over, the code generator returns: given
    enough fuel the result does not depend on it. *)
Theorem compile_terminates program inherited :
  exists fuel0 r, r <> OutOfFuel /\ forall fuel, (fuel0 <= fuel)%nat -> compile fuel program inherited = r.
Proof.
  destruct (generate_converges program inherited) as (F & [o g] & Hr & Hf).
  exists F, o. split; [by intros ->|]. intros fuel HF. unfold compile.
  destruct (Hf fuel) as [->|[H _]]; [done|lia].
Qed.

(** C16: whatever tree the parser hands over, a file that compiles gives a program
    whose every function the verifier accepts: its code runs from its entry to
    a [Return], no jump leaves it, every pool index, object variable and
    stored local exists, and no opcode is emitted that the interpreter does
    not handle (sizes within [int]). *)
Theorem compile_verified fuel program inherited p :
  compile fuel program inherited = Ok p ->
  fits_int (code p) -> fits_int (stringPool p) -> fits_int (floatPool p) ->
  Forall (verified p) (functions p).
Proof.
  intros (g & -> & _ & [_ Hd _ _])%compile_declared Hc Hs Hf. eapply list.Forall_impl; [exact Hd|].
  intros f. by apply entry_verified.
Qed.

(** A file with a loop, a [switch], a closure and an initialized variable. *)
Definition demo_body : Block := mkBlock [
  VarDeclStmt "int" false "s" (Some (IntLiteral 0));
  ForStmt (Some (VarDeclStmt "int" false "i" (Some (IntLiteral 0))))
    (Some (BinaryExpr BinOp.Lt (VarRefExpr "i") (VarRefExpr "n")))
    (Some (IncDecExpr IncDecOp.Inc false "i" None None None))
    (mkBlock [
       SwitchStmt (VarRefExpr "i") [
         CaseLabel (Some (IntLiteral 3)) None; ContinueStmt;
         CaseLabel None None; ExprStmt (AssignExpr "s" (VarRefExpr "i") true BinOp.Add); BreakStmt]] true);
  ReturnStmt (Some (InlineLambdaExpr [BinaryExpr BinOp.Add (LambdaParamExpr 0 false) (IntLiteral 1)] 1 []))] true.
Definition demo : Program :=
  mkProgramAst [mkFunctionDecl "int" false "sum" [mkParam "int" "n" false] false (Some demo_body)]
    [mkObjectVarDecl "int" false "total" false (Some (IntLiteral 7))] [] [].
Definition demo_program : CompiledProgram :=
  match compile 10 demo ["name"] with Ok p => p | _ => emptyProgram end.

Lemma compile_verified_witness :
  map fname (functions demo_program) = ["$objvarinit"; "sum"; "$lambda#0"] /\
  Forall (verified demo_program) (functions demo_program).
Proof.
  split; [vm_compute; reflexivity|].
  apply (compile_verified 10 demo ["name"] demo_program); vm_compute; reflexivity.
Defined.
