(* ===== verification/Parser.v ===== *)
(** * Parser: from tokens to syntax trees

    src/compiler/Parser.cpp, one definition per member function.  The tokens
    and the dialect do not change and are section variables; the member
    variables that do are the record [ParseState], whose two stacks keep their
    back at the head.  The precedence levels refer to each other through
    [parseUnary], [parseTernary] and [parseStatement]: the functions take these
    as section variables, and the fixpoint at the end closes the knot, one unit
    of fuel per nested call.  A loop consumes a token per round, so its fuel is
    the number of tokens. *)
From S2P Require Import Prelude CLib Double Value Bytecode Lexer Ast.
Local Open Scope string_scope.
Local Open Scope list_scope.
Local Open Scope Z_scope.

Record ParseState := mkParse {
  pos_ : nat;
  lambdaParamMaxStack_ : list Z;
  lambdaBoundValuesStack_ : list (list AstNode)
}.
#[export] Instance eta_ParseState : Eta ParseState := fun s =>
  {| pos_ := pos_ s; lambdaParamMaxStack_ := lambdaParamMaxStack_ s;
     lambdaBoundValuesStack_ := lambdaBoundValuesStack_ s |}.

Abbreviation P := (M ParseState exn) (only parsing).
Definition parseError {A} (msg : string) : P A := mthrow (LpcRuntimeError msg).
Definition quote (s : string) : string := str1 DQUOTE +:+ s +:+ str1 DQUOTE.

(** [if (c) a else b], and [c && d] *)
Notation "'If' c 'Then' a 'Else' b" := (mbind c (fun x : bool => if x then a else b))
  (at level 200, c at level 100, a at level 200, b at level 200,
   format "'[v' 'If'  c '/'  'Then'  a '/'  'Else'  b ']'").
Definition andP (c d : P bool) : P bool := If c Then d Else mret false.
Definition orP (c d : P bool) : P bool := If c Then mret true Else d.
Infix "&&&" := andP (at level 40, left associativity).
Infix "|||" := orP (at level 50, left associativity).

(** [for (;;)] with its variables: [inl] goes round again, [inr] leaves. *)
Fixpoint rounds {A} (fuel : nat) (body : A -> P (A + A)) (a : A) : P A :=
  match fuel with
  | O => mlift OutOfFuel
  | S fuel' => r <- body a ;; match r with inl a' => rounds fuel' body a' | inr a' => mret a' end
  end.
Definition again {A} (a : A) : P (A + A) := mret (inl a).
Definition done {A} (a : A) : P (A + A) := mret (inr a).

(** [std::stoll(s, nullptr, base)]; the exceptions of the conversions. *)
Definition stoll_base (base : Z) (s : string) : Z + num_error :=
  match strtoll_raw base s with
  | None => inr InvalidArgument
  | Some (v, _) => if in_int64 v then inl v else inr OutOfRange
  end.
Definition number {A} (what : string) (r : A + num_error) : P A :=
  match r with inl a => mret a | inr _ => mthrow (StdException what) end.

Section Parser.
Context (tokens_ : list Token) (dialect_ : LpcDialect).

Definition maxRounds : nat := S (length tokens_).

(** [tokens_[i < tokens_.size() ? i : tokens_.size() - 1]]; with no tokens at
    all [parseProgram] returns before it looks at one. *)
Definition tokenAt (i : nat) : Token :=
  default (mkToken TEnd "" 1) (tokens_ !! (if (i <? length tokens_)%nat then i else pred (length tokens_))).
Definition endAt (i : nat) : bool :=
  (length tokens_ <=? i)%nat || bool_decide (ttype (tokenAt i) = TEnd).

Definition atEnd : P bool := mgets (fun s => endAt (pos_ s)).
Definition peekAt (offset : nat) : P Token := mgets (fun s => tokenAt (pos_ s + offset)).
Definition peek : P Token := peekAt 0.
Definition advance : P Token :=
  t <- peek ;;
  e <- atEnd ;;
  (if e : bool then mret tt else mmodify (fun s => s <| pos_ ::= S |>)) ;;
  mret t.
Definition setPos (save : nat) : P unit := mmodify (fun s => s <| pos_ := save |>).

Definition hasType (type : TokenType) (i : nat) : bool :=
  negb (endAt i) && bool_decide (ttype (tokenAt i) = type).
Definition hasText (txt : string) (i : nat) : bool :=
  let t := tokenAt i in
  negb (endAt i)
  && (bool_decide (ttype t = TSymbol) || bool_decide (ttype t = TKeyword))
  && String.eqb (text t) txt.
Definition check (type : TokenType) : P bool := mgets (fun s => hasType type (pos_ s)).
Definition checkText (txt : string) : P bool := mgets (fun s => hasText txt (pos_ s)).

(** [peekAt(k).text == txt] and [peekAt(k).type == type]: no test for the end. *)
Definition peekText (k : nat) (txt : string) : P bool := t <- peekAt k ;; mret (String.eqb (text t) txt).
Definition peekType (k : nat) (type : TokenType) : P bool :=
  t <- peekAt k ;; mret (bool_decide (ttype t = type)).
(** [check(Ident) && peek().text == txt] *)
Definition checkIdent (txt : string) : P bool := check TIdent &&& peekText 0 txt.
Definition dialectIs (d : LpcDialect) : P bool := mret (bool_decide (dialect_ = d)).

Definition unexpected (what context : string) : P string :=
  t <- peek ;;
  mret ("parse error: expected " +:+ what +:+ " in " +:+ context +:+ " at line "
        +:+ to_string (tline t) +:+ " (got " +:+ quote (text t) +:+ ")").
Definition expect (type : TokenType) (context : string) : P Token :=
  If check type Then advance
  Else (m <- unexpected "token type" context ;; parseError m).
Definition expectText (txt context : string) : P unit :=
  If checkText txt Then (advance ;; mret tt)
  Else (m <- unexpected (quote txt) context ;; parseError m).
(** [if (checkText(txt)) { advance(); ... }] *)
Definition accept (txt : string) : P bool :=
  If checkText txt Then (advance ;; mret true) Else mret false.

(** ** Types and modifiers *)
Definition consumeArrayMarker : P bool :=
  If accept "*" Then mret true
  Else If checkIdent "array" Then (advance ;; mret true)
  Else mret false.

Definition nonTypeKeywords : list string :=
  ["return"; "if"; "else"; "while"; "for"; "do"; "inherit"; "break"; "continue";
   "foreach"; "in"; "switch"; "case"; "default";
   "static"; "private"; "public"; "protected"; "nomask"; "varargs"; "atomic"; "nil"].
Definition isTypeKeyword (t : Token) : bool :=
  bool_decide (ttype t = TKeyword) && negb (mem_string (text t) nonTypeKeywords).

Definition modifierKeywords : list string :=
  ["static"; "private"; "public"; "protected"; "nomask"; "varargs"].
Definition isModifierKeyword (t : Token) : bool :=
  bool_decide (ttype t = TKeyword)
  && (mem_string (text t) modifierKeywords
      || bool_decide (dialect_ = DGD) && String.eqb (text t) "atomic").

(** [check(TokenType::Keyword) && isTypeKeyword(peek())] *)
Definition atTypeKeyword : P bool := check TKeyword &&& (t <- peek ;; mret (isTypeKeyword t)).

Definition startsClassType : P bool :=
  dialectIs FluffOS &&& checkIdent "class" &&& peekType 1 TIdent.
Definition startsType : P bool :=
  If (atTypeKeyword &&& peekText 1 "::") Then mret false
  Else If atTypeKeyword Then mret true
  Else If startsClassType Then mret true
  Else checkIdent "array".

Definition parseTypeToken (context : string) : P (string * bool) :=
  If startsClassType Then
    (advance ;; t <- advance ;; isArray <- consumeArrayMarker ;; mret ("class:" +:+ text t, isArray))
  Else If checkIdent "array" Then (advance ;; mret ("mixed", true))
  Else (t <- expect TKeyword context ;; isArray <- consumeArrayMarker ;; mret (text t, isArray)).

Definition paramRound (params : list Param) : P (list Param + list Param) :=
  typeTok <- parseTypeToken "function parameter type" ;;
  paramName <- (If check TIdent Then (t <- advance ;; mret (text t)) Else mret "") ;;
  let params := params ++ [mkParam (fst typeTok) paramName (snd typeTok)] in
  If accept "," Then again params Else done params.
(** The parameters, and whether the list ends in [...] *)
Definition parseParamList : P (list Param * bool) :=
  If checkText ")" Then mret ([], false)
  Else (params <- rounds maxRounds paramRound [] ;;
        isVarargs <- accept "..." ;;
        mret (params, isVarargs)).

(** ** Binary operators *)
Fixpoint matchOp (ops : list (string * BinOp.t)) : P (option BinOp.t) :=
  match ops with
  | [] => mret None
  | (opText, op) :: ops' => If checkText opText Then mret (Some op) Else matchOp ops'
  end.

Definition binaryRound (ops : list (string * BinOp.t)) (next : P AstNode) (left : AstNode)
    : P (AstNode + AstNode) :=
  o <- matchOp ops ;;
  match o with
  | None => done left
  | Some op => advance ;; right <- next ;; again (BinaryExpr op left right)
  end.
(** [left = next(); while (one of ops) left = left op next();] *)
Definition leftAssoc (ops : list (string * BinOp.t)) (next : P AstNode) : P AstNode :=
  left <- next ;; rounds maxRounds (binaryRound ops next) left.

Definition kCompoundOps : list (string * BinOp.t) :=
  [("+=", BinOp.Add); ("-=", BinOp.Sub); ("*=", BinOp.Mul); ("/=", BinOp.Div);
   ("%=", BinOp.Mod); ("|=", BinOp.BitOr); ("&=", BinOp.BitAnd); ("^=", BinOp.BitXor);
   ("<<=", BinOp.Shl); (">>=", BinOp.Shr)].
(** The assignment operator here, if any: isCompound and compoundOp. *)
Definition assignOp : P (option (bool * BinOp.t)) :=
  If checkText "=" Then mret (Some (false, BinOp.Add))
  Else (o <- matchOp kCompoundOps ;;
        mret (match o with Some op => Some (true, op) | None => None end)).

(** The rules, over the calls that recurse. *)
Section Rules.
Context (parseUnary parseTernary parseStatement : P AstNode).

Definition parseExpr : P AstNode := parseTernary.
Definition parseCommaExpr : P AstNode :=
  left <- parseExpr ;;
  rounds maxRounds (fun left =>
    If accept "," Then (right <- parseExpr ;; again (CommaExpr left right)) Else done left) left.

(** ** Argument lists and literals *)

(** One element with its [...] flag. *)
Definition parseSpreadable : P (AstNode * bool) :=
  e <- parseExpr ;; spread <- accept "..." ;; mret (e, spread).
(** [e1, e2, ..., ] up to [close], which may follow a comma. *)
Definition spreadRound (close : string) (es : list (AstNode * bool))
    : P (list (AstNode * bool) + list (AstNode * bool)) :=
  e <- parseSpreadable ;;
  let es := es ++ [e] in
  If accept "," Then (If checkText close Then done es Else again es) Else done es.
Definition spreadFlags (es : list (AstNode * bool)) : list bool :=
  if existsb snd es then map snd es else [].
Definition parseSpreadList (close : string) : P (list AstNode * list bool) :=
  If checkText close Then mret ([], [])
  Else (es <- rounds maxRounds (spreadRound close) [] ;; mret (map fst es, spreadFlags es)).
Definition parseArgList : P (list AstNode * list bool) := parseSpreadList ")".

Definition parseCallArgs (context : string) : P (list AstNode * list bool) :=
  expectText "(" context ;; r <- parseArgList ;; expectText ")" context ;; mret r.

(** Starts at "::". *)
Definition parseQualifiedParentCall (qualifier : string) : P AstNode :=
  advance ;;
  fnNameTok <- expect TIdent "qualifier:: function name" ;;
  r <- parseCallArgs "qualifier:: call arguments" ;;
  mret (CallExpr (text fnNameTok) (fst r) (snd r) false true qualifier).

Definition parseStringLiteral : P AstNode :=
  t <- advance ;;
  value <- rounds maxRounds (fun value =>
    If check TString Then (t' <- advance ;; again (value +:+ text t')) Else done value) (text t) ;;
  mret (StringLiteral value).

Definition isHex (raw : string) : bool :=
  (2 <? String.length raw)%nat && Ascii.eqb (char_at raw 0) "0"
  && (Ascii.eqb (char_at raw 1) "x" || Ascii.eqb (char_at raw 1) "X").
Definition parseNumberLiteral : P AstNode :=
  t <- advance ;;
  let raw := text t in
  match find_str "." raw with
  | Some _ => d <- number "stod" (Dbl.stod raw) ;; mret (FloatLiteral d)
  | None => v <- number "stoll" (if isHex raw then stoll_base 16 raw else stoll raw) ;; mret (IntLiteral v)
  end.

(** [$(expr)] *)
Definition parseBoundValue : P AstNode :=
  stack <- mgets lambdaBoundValuesStack_ ;;
  match stack with
  | [] => parseError "$(...) illegal outside of function pointer"
  | _ =>
      advance ;; advance ;;
      valueExpr <- parseCommaExpr ;;
      expectText ")" "$(...) bound value" ;;
      stack <- mgets lambdaBoundValuesStack_ ;;
      match stack with
      | [] => mundef "back() of an empty vector"
      | values :: rest =>
          mmodify (fun s => s <| lambdaBoundValuesStack_ := (values ++ [valueExpr]) :: rest |>) ;;
          mret (LambdaParamExpr (wrap32 (Z.of_nat (length values))) true)
      end
  end.

(** The values of one mapping entry; LDMud allows several columns. *)
Definition parseEntryValues : P (list AstNode) :=
  first <- parseExpr ;;
  If dialectIs LdMud Then
    rounds maxRounds (fun values =>
      If accept ";" Then (v <- parseExpr ;; again (values ++ [v])) Else done values) [first]
  Else mret [first].
Definition entryRound (st : Z * list (AstNode * list AstNode))
    : P ((Z * list (AstNode * list AstNode)) + (Z * list (AstNode * list AstNode))) :=
  let '(expectedWidth, entries) := st in
  key <- parseExpr ;;
  expectText ":" "mapping literal entry" ;;
  values <- parseEntryValues ;;
  let thisWidth := wrap32 (Z.of_nat (length values)) in
  if negb (expectedWidth <? 0) && negb (thisWidth =? expectedWidth)
  then parseError "Inconsistent number of values in mapping literal"
  else
    let st := (if expectedWidth <? 0 then thisWidth else expectedWidth, entries ++ [(key, values)]) in
    If accept "," Then (If checkText "]" Then done st Else again st) Else done st.
Definition parseMappingLiteral : P AstNode :=
  advance ;; advance ;;
  entries <- (If checkText "]" Then mret []
              Else (st <- rounds maxRounds entryRound (-1, []) ;; mret (snd st))) ;;
  expectText "]" "mapping literal" ;;
  expectText ")" "mapping literal" ;;
  mret (MappingLiteralExpr entries).

(** LDMud [#'name] *)
Definition parseHashQuote : P AstNode :=
  advance ;;
  If (checkIdent "efun" &&& peekText 1 "::") Then
    (advance ;; advance ;;
     nameTok <- expect TIdent "closure literal function name after #'efun::" ;;
     mret (ClosureLiteralExpr (text nameTok) [] true))
  Else
    (nameTok <- expect TIdent "closure literal function name after #'" ;;
     mret (ClosureLiteralExpr (text nameTok) [] false)).

(** [e1, e2, ...], at least one *)
Definition exprRound (es : list AstNode) : P (list AstNode + list AstNode) :=
  e <- parseExpr ;; If accept "," Then again (es ++ [e]) Else done (es ++ [e]).
Definition parseExprs : P (list AstNode) := rounds maxRounds exprRound [].

(** [(: name :)] and [(: name, args :)] *)
Definition isBareName : P bool :=
  t <- peekAt 2 ;;
  if bool_decide (ttype t = TIdent) && negb (String.eqb (text t) "")
     && negb (Ascii.eqb (char_at (text t) 0) "$")
  then (peekType 3 TSymbol &&& (peekText 3 "," ||| peekText 3 ":"))
  else mret false.
Definition parseBareNameClosure : P AstNode :=
  advance ;; advance ;;
  nameTok <- expect TIdent "closure literal function name" ;;
  boundArgs <- (If accept "," Then parseExprs Else mret []) ;;
  expectText ":" "closure literal" ;;
  expectText ")" "closure literal" ;;
  mret (ClosureLiteralExpr (text nameTok) boundArgs false).

(** [(: expressions :)] *)
Definition parseLambda : P AstNode :=
  advance ;; advance ;;
  mmodify (fun s => s <| lambdaParamMaxStack_ ::= cons 0 |> <| lambdaBoundValuesStack_ ::= cons [] |>) ;;
  bodyExprs <- parseExprs ;;
  maxes <- mgets lambdaParamMaxStack_ ;;
  bounds <- mgets lambdaBoundValuesStack_ ;;
  match maxes, bounds with
  | paramCount :: maxes', boundValueExprs :: bounds' =>
      mmodify (fun s => s <| lambdaParamMaxStack_ := maxes' |> <| lambdaBoundValuesStack_ := bounds' |>) ;;
      expectText ":" "closure literal" ;;
      expectText ")" "closure literal" ;;
      mret (InlineLambdaExpr bodyExprs paramCount boundValueExprs)
  | _, _ => mundef "back() of an empty vector"
  end.

(** ** Blocks *)
Definition blockRound (ss : list AstNode) : P (list AstNode + list AstNode) :=
  If checkText "}" Then done ss
  Else If atEnd Then parseError "parse error: unterminated block"
  Else (s <- parseStatement ;; again (ss ++ [s])).
Definition parseBlock : P Block :=
  expectText "{" "function body" ;;
  ss <- rounds maxRounds blockRound [] ;;
  expectText "}" "function body" ;;
  mret (mkBlock ss true).
Definition parseBranch : P Block :=
  If checkText "{" Then parseBlock Else (s <- parseStatement ;; mret (mkBlock [s] false)).

Definition parseAnonFunction : P AstNode :=
  advance ;; advance ;;
  params <- parseParamList ;;
  expectText ")" "anonymous function parameters" ;;
  body <- parseBlock ;;
  mret (AnonFunctionExpr (fst params) (snd params) body).

(** [ ( *expr)(args) ] *)
Definition parsePointerCall : P AstNode :=
  advance ;; advance ;;
  fpExpr <- parseExpr ;;
  expectText ")" "function pointer call" ;;
  expectText "(" "function pointer call" ;;
  fpArgs <- parseArgList ;;
  expectText ")" "function pointer call" ;;
  mret (CallExpr "evaluate" (fpExpr :: fst fpArgs)
          (match snd fpArgs with [] => [] | flags => false :: flags end) true false "").

Definition parseArrayLiteral : P AstNode :=
  advance ;; advance ;;
  r <- parseSpreadList "}" ;;
  expectText "}" "array literal" ;;
  expectText ")" "array literal" ;;
  mret (ArrayLiteralExpr (fst r) (snd r)).

Definition parseParenthesized : P AstNode :=
  advance ;; e <- parseCommaExpr ;; expectText ")" "parenthesized expression" ;; mret e.

Definition parseParentCall : P AstNode :=
  advance ;;
  fnNameTok <- expect TIdent "::name function name" ;;
  r <- parseCallArgs "::name call arguments" ;;
  mret (CallExpr (text fnNameTok) (fst r) (snd r) false true "").

(** ** Names and calls *)

(** [$N] *)
Definition parseLambdaParam (name : string) : P AstNode :=
  stack <- mgets lambdaParamMaxStack_ ;;
  match stack with
  | [] => parseError ("$var illegal outside of function pointer (" +:+ quote name
            +:+ " used outside a " +:+ quote "(: ... :)" +:+ " lambda body)")
  | top :: rest =>
      oneIndexed <- number "stoi" (stoi (sdrop 1 name)) ;;
      if oneIndexed <? 1 then parseError ("In function parameter " +:+ name +:+ ", num must be >= 1")
      else
        mmodify (fun s => s <| lambdaParamMaxStack_ := Z.max top oneIndexed :: rest |>) ;;
        mret (LambdaParamExpr (oneIndexed - 1) false)
  end.

(** [new(class name, field : value, ...)] *)
Definition fieldRound (fields : list (string * AstNode))
    : P (list (string * AstNode) + list (string * AstNode)) :=
  fieldName <- expect TIdent "class field initializer name" ;;
  expectText ":" "class field initializer" ;;
  value <- parseExpr ;;
  let fields := fields ++ [(text fieldName, value)] in
  If accept "," Then again fields Else done fields.
Definition parseNewClass : P AstNode :=
  advance ;; advance ;;
  className <- expect TIdent "new(class ...) class name" ;;
  fields <- (If checkText ")" Then mret [] Else rounds maxRounds fieldRound []) ;;
  expectText ")" "new(class ...) construction" ;;
  mret (NewClassExpr (text className) fields).

Definition parseEfunCall : P AstNode :=
  advance ;;
  fnNameTok <- expect TIdent "efun:: function name" ;;
  r <- parseCallArgs "efun:: call arguments" ;;
  mret (CallExpr (text fnNameTok) (fst r) (snd r) true false "").

Definition parseCatch : P AstNode :=
  advance ;; guarded <- parseCommaExpr ;; expectText ")" "catch expression" ;; mret (CatchExpr guarded).

(** The output arguments of sscanf, the first of which is argument [i]. *)
Fixpoint sscanfOutputs (i : Z) (args : list AstNode) : P (list string * list (option AstNode)) :=
  match args with
  | [] => mret ([], [])
  | VarRefExpr name :: args' =>
      r <- sscanfOutputs (i + 1) args' ;; mret (name :: fst r, None :: snd r)
  | (IndexExpr _ _ rangeEnd _ _ _ as arg) :: args' =>
      match rangeEnd with
      | Some _ => parseError ("sscanf: output argument " +:+ to_string (i - 1) +:+ " cannot be a range expression")
      | None => r <- sscanfOutputs (i + 1) args' ;; mret ("" :: fst r, Some arg :: snd r)
      end
  | _ => parseError ("sscanf: output argument " +:+ to_string (i - 1)
           +:+ " must be a plain variable name or an indexed lvalue like arr[i] "
           +:+ "(sscanf's output arguments are implicit lvalues in real LPC, there "
           +:+ "is no " +:+ quote "&var" +:+ " reference syntax)")
  end.
Definition makeSscanf (args : list AstNode) (isSpread : list bool) : P AstNode :=
  match args with
  | target :: format :: outputs =>
      if existsb (fun b => b) isSpread
      then parseError ("sscanf: argument spread (" +:+ quote "..." +:+ ") is not valid on an lvalue output list")
      else r <- sscanfOutputs 2 outputs ;; mret (SscanfExpr target format (fst r) (snd r))
  | _ => parseError "sscanf requires at least (string, format) arguments"
  end.
Definition makeCallOther (args : list AstNode) (isSpread : list bool) : P AstNode :=
  match args with
  | target :: function :: rest =>
      match isSpread with
      | a :: b :: flags =>
          if a || b
          then parseError ("call_other: the target/function argument cannot be spread (" +:+ quote "..." +:+ ")")
          else mret (CallOtherExpr target function rest flags)
      | _ => mret (CallOtherExpr target function rest [])
      end
  | _ => parseError "call_other requires at least (target, function) arguments"
  end.

Definition parseCall (name : string) : P AstNode :=
  advance ;;
  parsed <- parseArgList ;;
  expectText ")" "call arguments" ;;
  if String.eqb name "sscanf" then makeSscanf (fst parsed) (snd parsed)
  else if String.eqb name "call_other" then makeCallOther (fst parsed) (snd parsed)
  else mret (CallExpr name (fst parsed) (snd parsed) false false "").

Definition parseName : P AstNode :=
  t <- advance ;;
  let name := text t in
  if Ascii.eqb (char_at name 0) "$" then parseLambdaParam name
  else If (mret (String.eqb name "new") &&& dialectIs FluffOS &&& checkText "(" &&& peekText 1 "class")
         Then parseNewClass
  Else If (mret (String.eqb name "efun") &&& checkText "::") Then parseEfunCall
  Else If (mret (negb (String.eqb name "efun")) &&& checkText "::") Then parseQualifiedParentCall name
  Else If (mret (String.eqb name "catch") &&& checkText "(") Then parseCatch
  Else If (mret (String.eqb name "time_expression") &&& checkText "{") Then
         (b <- parseBlock ;; mret (TimeExpressionExpr b))
  Else If checkText "(" Then parseCall name
  Else mret (VarRefExpr name).

Definition parsePrimary : P AstNode :=
  If check TString Then parseStringLiteral
  Else If check TNumber Then parseNumberLiteral
  Else If (check TKeyword &&& peekText 0 "nil" &&& dialectIs DGD) Then (advance ;; mret NilLiteral)
  Else If check TQuotedSymbol Then (t <- advance ;; mret (SymbolLiteralExpr (text t)))
  Else If (checkText "$" &&& peekText 1 "(") Then parseBoundValue
  Else If (checkText "(" &&& peekText 1 "[") Then parseMappingLiteral
  Else If (checkText "#'" &&& dialectIs LdMud) Then parseHashQuote
  Else If (checkText "(" &&& peekText 1 ":") Then (If isBareName Then parseBareNameClosure Else parseLambda)
  Else If (check TKeyword &&& peekText 0 "function" &&& peekText 1 "(") Then parseAnonFunction
  Else If (atTypeKeyword &&& peekText 1 "::") Then (t <- advance ;; parseQualifiedParentCall (text t))
  Else If (checkText "(" &&& peekText 1 "*") Then parsePointerCall
  Else If (checkText "(" &&& peekText 1 "{") Then parseArrayLiteral
  Else If checkText "(" Then parseParenthesized
  Else If checkText "::" Then parseParentCall
  Else If check TIdent Then parseName
  Else
    (t <- peek ;;
     parseError ("parse error: expected expression at line " +:+ to_string (tline t)
                 +:+ " (got " +:+ quote (text t) +:+ ")")).

(** ** Postfix operators *)
Definition parseArrow (expr : AstNode) : P AstNode :=
  advance ;;
  nameTok <- expect TIdent "call_other operator function name" ;;
  If (dialectIs FluffOS &&& (b <- checkText "(" ;; mret (negb b))) Then
    mret (IndexExpr expr (MemberNameMarker (text nameTok)) None false false None)
  Else
    (r <- parseCallArgs "call_other operator arguments" ;;
     mret (CallOtherExpr expr (StringLiteral (text nameTok)) (fst r) (snd r))).

(** The second index: a column, or the end of a range and whether it counts
    from the end. *)
Definition parseIndexRest : P (option AstNode * option AstNode * bool) :=
  If (checkText "," &&& dialectIs LdMud) Then
    (advance ;; c <- parseExpr ;; mret (None, Some c, false))
  Else If accept ".." Then
    (If checkText "]" Then mret (Some (IntLiteral 2000000000), None, false)
     Else (endFromEnd <- accept "<" ;; e <- parseExpr ;; mret (Some e, None, endFromEnd)))
  Else mret (None, None, false).
Definition parseIndex (expr : AstNode) : P AstNode :=
  advance ;;
  startFromEnd <- accept "<" ;;
  startExpr <- (If dialectIs LdMud Then parseExpr Else parseCommaExpr) ;;
  r <- parseIndexRest ;;
  expectText "]" "index expression" ;;
  let '(endExpr, mapColumn, endFromEnd) := r in
  mret (IndexExpr expr startExpr endExpr startFromEnd endFromEnd mapColumn).

Definition postfixRound (expr : AstNode) : P (AstNode + AstNode) :=
  If checkText "->" Then (e <- parseArrow expr ;; again e)
  Else If checkText "[" Then (e <- parseIndex expr ;; again e)
  Else done expr.

(** The operand of ++ or --: a variable or one element. *)
Definition incDecOf (op : IncDecOp.t) (prefix : bool) (operand : AstNode) : option AstNode :=
  match operand with
  | VarRefExpr name => Some (IncDecExpr op prefix name None None None)
  | IndexExpr target index None _ _ mapColumn =>
      Some (IncDecExpr op prefix "" (Some target) (Some index) mapColumn)
  | _ => None
  end.
Definition incDecOp : P (option IncDecOp.t) :=
  If checkText "++" Then mret (Some IncDecOp.Inc)
  Else If checkText "--" Then mret (Some IncDecOp.Dec)
  Else mret None.

Definition parsePostfix : P AstNode :=
  expr <- parsePrimary ;;
  expr <- rounds maxRounds postfixRound expr ;;
  o <- incDecOp ;;
  match o with
  | None => mret expr
  | Some op =>
      match incDecOf op false expr with
      | Some e => advance ;; mret e
      | None =>
          t <- peek ;;
          parseError ("parse error: postfix " +:+ text t
            +:+ " target must be a simple variable name or indexed target at line " +:+ to_string (tline t))
      end
  end.

(** ** Unary operators, casts and assignment *)

(** [(type)] and [(type * )] are skipped; [None] when it is not a cast. *)
Definition parseTypeCast : P (option AstNode) :=
  If (checkText "(" &&& (t <- peekAt 1 ;; mret (isTypeKeyword t))) Then
    (save <- mgets pos_ ;;
     advance ;; advance ;; accept "*" ;;
     If accept ")" Then (e <- parseUnary ;; mret (Some e)) Else (setPos save ;; mret None))
  Else mret None.
(** [(class name)]; [(class name * )] is skipped. *)
Definition parseClassCast : P (option AstNode) :=
  If (dialectIs FluffOS &&& checkText "(" &&& peekType 1 TIdent &&& peekText 1 "class" &&& peekType 2 TIdent) Then
    (save <- mgets pos_ ;;
     advance ;; advance ;; className <- advance ;;
     star <- accept "*" ;;
     If accept ")" Then
       (inner <- parseUnary ;; mret (Some (if star : bool then inner else TypeCastExpr (text className) inner)))
     Else (setPos save ;; mret None))
  Else mret None.

Definition incDecText (op : IncDecOp.t) : string :=
  match op with IncDecOp.Inc => "++" | IncDecOp.Dec => "--" end.
Definition parsePrefixIncDec (op : IncDecOp.t) : P AstNode :=
  advance ;;
  operand <- parseUnary ;;
  match incDecOf op true operand with
  | Some e => mret e
  | None =>
      t <- peek ;;
      parseError ("parse error: prefix " +:+ incDecText op
        +:+ " target must be a simple variable name or indexed target at line " +:+ to_string (tline t))
  end.

(** An operand, and the assignment it may be the target of. *)
Definition parseAssignment : P AstNode :=
  operand <- parsePostfix ;;
  o <- assignOp ;;
  match o with
  | None => mret operand
  | Some (isCompound, compoundOp) =>
      match operand with
      | VarRefExpr name =>
          advance ;; value <- parseExpr ;; mret (AssignExpr name value isCompound compoundOp)
      | IndexExpr target index None _ _ mapColumn =>
          advance ;; value <- parseExpr ;;
          mret (IndexAssignExpr target index value isCompound compoundOp mapColumn)
      | _ =>
          t <- peek ;;
          parseError ("parse error: assignment target must be a simple variable name or indexed target at line "
                      +:+ to_string (tline t))
      end
  end.

Definition unaryRule : P AstNode :=
  cast <- parseTypeCast ;;
  match cast with Some e => mret e | None =>
  cast <- parseClassCast ;;
  match cast with Some e => mret e | None =>
  If accept "!" Then (e <- parseUnary ;; mret (UnaryExpr UnaryOp.Not e))
  Else If accept "-" Then (e <- parseUnary ;; mret (UnaryExpr UnaryOp.Neg e))
  Else If accept "~" Then (e <- parseUnary ;; mret (UnaryExpr UnaryOp.BitNot e))
  Else
    (o <- incDecOp ;;
     match o with
     | Some op => parsePrefixIncDec op
     | None => parseAssignment
     end)
  end end.

(** ** Precedence *)
Definition parseMultiplicative : P AstNode :=
  leftAssoc [("*", BinOp.Mul); ("/", BinOp.Div); ("%", BinOp.Mod)] parseUnary.
Definition parseAdditive : P AstNode :=
  leftAssoc [("+", BinOp.Add); ("-", BinOp.Sub)] parseMultiplicative.
Definition parseShift : P AstNode :=
  leftAssoc [("<<", BinOp.Shl); (">>", BinOp.Shr)] parseAdditive.
Definition parseComparison : P AstNode :=
  leftAssoc [("<", BinOp.Lt); ("<=", BinOp.Lte); (">", BinOp.Gt); (">=", BinOp.Gte)] parseShift.
Definition parseEquality : P AstNode :=
  leftAssoc [("==", BinOp.Eq); ("!=", BinOp.Neq)] parseComparison.
Definition parseBitAnd : P AstNode := leftAssoc [("&", BinOp.BitAnd)] parseEquality.
Definition parseBitXor : P AstNode := leftAssoc [("^", BinOp.BitXor)] parseBitAnd.
Definition parseBitOr : P AstNode := leftAssoc [("|", BinOp.BitOr)] parseBitXor.
Definition parseLogicalAnd : P AstNode := leftAssoc [("&&", BinOp.And)] parseBitOr.
Definition parseLogicalOr : P AstNode := leftAssoc [("||", BinOp.Or)] parseLogicalAnd.

Definition ternaryRule : P AstNode :=
  condition <- parseLogicalOr ;;
  If accept "?" Then
    (thenBranch <- parseTernary ;;
     expectText ":" "ternary expression" ;;
     elseBranch <- parseTernary ;;
     mret (TernaryExpr condition thenBranch elseBranch))
  Else mret condition.

(** ** Statements *)

(** [e] or [{ e1; e2; ... }] for a comma chain *)
Definition chainRound (ss : list AstNode) : P (list AstNode + list AstNode) :=
  If accept "," Then (e <- parseExpr ;; again (ss ++ [ExprStmt e])) Else done ss.
Definition parseCommaExprChain : P AstNode :=
  first <- parseExpr ;;
  If checkText "," Then
    (ss <- rounds maxRounds chainRound [ExprStmt first] ;; mret (BlockStmt (mkBlock ss false)))
  Else mret first.
Definition continueStatementCommaChain (firstStmt : AstNode) : P AstNode :=
  If checkText "," Then
    (ss <- rounds maxRounds chainRound [firstStmt] ;; mret (BlockStmt (mkBlock ss false)))
  Else mret firstStmt.

Definition parseReturnStatement : P AstNode :=
  expectText "return" "return statement" ;;
  expr <- (If checkText ";" Then mret None Else (e <- parseCommaExpr ;; mret (Some e))) ;;
  expectText ";" "return statement" ;;
  mret (ReturnStmt expr).

(** [= expr], if any *)
Definition parseInitializer : P (option AstNode) :=
  If accept "=" Then (e <- parseExpr ;; mret (Some e)) Else mret None.
Definition parseSingleVarDecl (typeText : string) (isArray : bool) : P AstNode :=
  nameTok <- expect TIdent "variable declaration name" ;;
  initializer <- parseInitializer ;;
  mret (VarDeclStmt typeText isArray (text nameTok) initializer).
Definition varDeclRound (type : string) (ss : list AstNode) : P (list AstNode + list AstNode) :=
  If accept "," Then (isArray <- consumeArrayMarker ;; d <- parseSingleVarDecl type isArray ;; again (ss ++ [d]))
  Else done ss.
Definition parseVarDeclStatement : P AstNode :=
  typeTok <- parseTypeToken "variable declaration type" ;;
  first <- parseSingleVarDecl (fst typeTok) (snd typeTok) ;;
  If checkText "," Then
    (ss <- rounds maxRounds (varDeclRound (fst typeTok)) [first] ;;
     expectText ";" "variable declaration" ;;
     mret (BlockStmt (mkBlock ss false)))
  Else (expectText ";" "variable declaration" ;; mret first).

Definition parseAssignStatement : P AstNode :=
  nameTok <- expect TIdent "assignment target" ;;
  expectText "=" "assignment" ;;
  value <- parseExpr ;;
  result <- continueStatementCommaChain (AssignStmt (text nameTok) value) ;;
  expectText ";" "assignment statement" ;;
  mret result.

(** [(condition)] *)
Definition parseCondition (context : string) : P AstNode :=
  expectText "(" context ;; e <- parseCommaExpr ;; expectText ")" context ;; mret e.

Definition parseIfStatement : P AstNode :=
  expectText "if" "if statement" ;;
  condition <- parseCondition "if condition" ;;
  thenBranch <- parseBranch ;;
  elseBranch <- (If accept "else" Then (b <- parseBranch ;; mret (Some b)) Else mret None) ;;
  mret (IfStmt condition thenBranch elseBranch).
Definition parseWhileStatement : P AstNode :=
  expectText "while" "while statement" ;;
  condition <- parseCondition "while condition" ;;
  body <- parseBranch ;;
  mret (WhileStmt condition body).
Definition parseDoWhileStatement : P AstNode :=
  expectText "do" "do-while statement" ;;
  body <- parseBranch ;;
  expectText "while" "do-while statement" ;;
  condition <- parseCondition "do-while condition" ;;
  expectText ";" "do-while statement" ;;
  mret (DoWhileStmt condition body).

Definition parseForInit : P (option AstNode) :=
  If checkText ";" Then mret None
  Else If startsType Then
    (typeTok <- parseTypeToken "for statement init clause" ;;
     d <- parseSingleVarDecl (fst typeTok) (snd typeTok) ;; mret (Some d))
  Else (e <- parseCommaExprChain ;; mret (Some e)).
Definition parseForStatement : P AstNode :=
  expectText "for" "for statement" ;;
  expectText "(" "for statement" ;;
  init <- parseForInit ;;
  expectText ";" "for statement init clause" ;;
  condition <- (If checkText ";" Then mret None Else (e <- parseCommaExpr ;; mret (Some e))) ;;
  expectText ";" "for statement condition clause" ;;
  update <- (If checkText ")" Then mret None Else (e <- parseCommaExprChain ;; mret (Some e))) ;;
  expectText ")" "for statement update clause" ;;
  body <- parseBranch ;;
  mret (ForStmt init condition update body).

Definition parseBreakStatement : P AstNode :=
  expectText "break" "break statement" ;; expectText ";" "break statement" ;; mret BreakStmt.
Definition parseContinueStatement : P AstNode :=
  expectText "continue" "continue statement" ;; expectText ";" "continue statement" ;; mret ContinueStmt.

Record ForeachVarSpec := mkForeachVar { fv_name : string; fv_isNewDecl : bool; fv_classType : string }.
Definition parseForeachVar : P ForeachVarSpec :=
  If startsType Then
    (typeTok <- parseTypeToken "foreach variable type" ;;
     nameTok <- expect TIdent "foreach variable name" ;;
     mret (mkForeachVar (text nameTok) true
             (if sprefix "class:" (fst typeTok) then sdrop 6 (fst typeTok) else "")))
  Else (nameTok <- expect TIdent "foreach variable name" ;; mret (mkForeachVar (text nameTok) false "")).
Definition parseForeachStatement : P AstNode :=
  expectText "foreach" "foreach statement" ;;
  expectText "(" "foreach statement" ;;
  first <- parseForeachVar ;;
  second <- (If accept "," Then (v <- parseForeachVar ;; mret (Some v)) Else mret None) ;;
  expectText "in" "foreach statement" ;;
  collection <- parseExpr ;;
  expectText ")" "foreach statement" ;;
  body <- parseBranch ;;
  mret match second with
       | Some v => ForeachStmt (fv_name first) (fv_isNewDecl first) true (fv_name v) (fv_isNewDecl v)
                     collection body (fv_classType first) (fv_classType v)
       | None => ForeachStmt (fv_name first) (fv_isNewDecl first) false "" false
                     collection body (fv_classType first) ""
       end.

Definition parseCase : P AstNode :=
  advance ;;
  value <- parseExpr ;;
  rangeEnd <- (If accept ".." Then (e <- parseExpr ;; mret (Some e)) Else mret None) ;;
  expectText ":" "case label" ;;
  mret (CaseLabel (Some value) rangeEnd).
Definition switchRound (body : list AstNode) : P (list AstNode + list AstNode) :=
  If checkText "}" Then done body
  Else If atEnd Then parseError "parse error: unterminated switch statement"
  Else If checkText "case" Then (l <- parseCase ;; again (body ++ [l]))
  Else If checkText "default" Then
    (advance ;; expectText ":" "default label" ;; again (body ++ [CaseLabel None None]))
  Else (s <- parseStatement ;; again (body ++ [s])).
Definition parseSwitchStatement : P AstNode :=
  expectText "switch" "switch statement" ;;
  subject <- parseCondition "switch statement subject" ;;
  expectText "{" "switch statement body" ;;
  body <- rounds maxRounds switchRound [] ;;
  expectText "}" "switch statement body" ;;
  mret (SwitchStmt subject body).

(** [a[i] = e] and the like as a statement; [None] when it is not one, with the
    position put back. *)
Definition parseIndexAssignStatement : P (option AstNode) :=
  save <- mgets pos_ ;;
  target <- parsePostfix ;;
  o <- match target with IndexExpr _ _ _ _ _ _ => assignOp | _ => mret None end ;;
  match target, o with
  | IndexExpr t index _ _ _ mapColumn, Some (isCompound, compoundOp) =>
      advance ;;
      value <- parseExpr ;;
      result <- continueStatementCommaChain (IndexAssignStmt t index value isCompound compoundOp mapColumn) ;;
      expectText ";" "indexed assignment statement" ;;
      mret (Some result)
  | _, _ => setPos save ;; mret None
  end.

Definition parseExprStatement : P AstNode :=
  e <- parseExpr ;;
  result <- continueStatementCommaChain (ExprStmt e) ;;
  expectText ";" "expression statement" ;;
  mret result.

Definition statementRule : P AstNode :=
  If accept ";" Then mret (BlockStmt (mkBlock [] true))
  Else If checkText "{" Then (b <- parseBlock ;; mret (BlockStmt b))
  Else If checkText "if" Then parseIfStatement
  Else If checkText "while" Then parseWhileStatement
  Else If checkText "do" Then parseDoWhileStatement
  Else If checkText "for" Then parseForStatement
  Else If checkText "foreach" Then parseForeachStatement
  Else If checkText "switch" Then parseSwitchStatement
  Else If checkText "return" Then parseReturnStatement
  Else If checkText "break" Then parseBreakStatement
  Else If checkText "continue" Then parseContinueStatement
  Else If startsType Then parseVarDeclStatement
  Else If (check TIdent &&& peekType 1 TSymbol &&& peekText 1 "=") Then parseAssignStatement
  Else If (check TIdent &&& peekType 1 TSymbol &&& (peekText 1 "[" ||| peekText 1 "->")) Then
    (r <- parseIndexAssignStatement ;;
     match r with Some s => mret s | None => parseExprStatement end)
  Else parseExprStatement.
End Rules.

(** ** The recursion *)
Inductive rule := Unary | Ternary | Statement.
Fixpoint parse (fuel : nat) (r : rule) (s : ParseState) {struct fuel} : outcome exn AstNode * ParseState :=
  match fuel with
  | O => (OutOfFuel, s)
  | S f =>
      match r with
      | Unary => unaryRule (parse f Unary) (parse f Ternary) (parse f Statement) s
      | Ternary => ternaryRule (parse f Unary) (parse f Ternary) s
      | Statement => statementRule (parse f Ternary) (parse f Statement) s
      end
  end.

(** ** Declarations *)
Section Program.
Context (fuel : nat).

Record DeclPrefix := mkDeclPrefix {
  dp_type : string;
  dp_isArray : bool;
  dp_name : string;
  dp_isPrivate : bool
}.
Definition modifierRound (isPrivate : bool) : P (bool + bool) :=
  If (check TKeyword &&& (t <- peek ;; mret (isModifierKeyword t))) Then
    (t <- advance ;; again (isPrivate || String.eqb (text t) "private"))
  Else done isPrivate.
Definition parseDeclType : P (string * bool) :=
  If startsClassType Then
    (advance ;; t <- advance ;; isArray <- consumeArrayMarker ;; mret ("class:" +:+ text t, isArray))
  Else If checkIdent "array" Then (advance ;; mret ("mixed", true))
  Else If check TKeyword Then (t <- advance ;; isArray <- consumeArrayMarker ;; mret (text t, isArray))
  Else mret ("mixed", false).
Definition parseDeclPrefix (context : string) : P DeclPrefix :=
  isPrivate <- rounds maxRounds modifierRound false ;;
  typeTok <- parseDeclType ;;
  nameTok <- expect TIdent (context +:+ " name") ;;
  mret (mkDeclPrefix (fst typeTok) (snd typeTok) (text nameTok) isPrivate).

Definition parseFunctionRest (prefix : DeclPrefix) : P FunctionDecl :=
  expectText "(" "function declaration parameters" ;;
  params <- parseParamList ;;
  expectText ")" "function declaration parameters" ;;
  body <- (If accept ";" Then mret None
           Else (b <- parseBlock (parse fuel Statement) ;; mret (Some b))) ;;
  mret (mkFunctionDecl (dp_type prefix) (dp_isArray prefix) (dp_name prefix) (fst params) (snd params) body).

Definition objectVarRound (prefix : DeclPrefix) (decls : list ObjectVarDecl)
    : P (list ObjectVarDecl + list ObjectVarDecl) :=
  If accept "," Then
    (isArray <- consumeArrayMarker ;;
     nameTok <- expect TIdent "object variable declaration name" ;;
     init <- parseInitializer (parse fuel Ternary) ;;
     again (decls ++ [mkObjectVarDecl (dp_type prefix) isArray (text nameTok) (dp_isPrivate prefix) init]))
  Else done decls.
Definition parseObjectVarDeclRest (prefix : DeclPrefix) : P (list ObjectVarDecl) :=
  firstInit <- parseInitializer (parse fuel Ternary) ;;
  decls <- rounds maxRounds (objectVarRound prefix)
    [mkObjectVarDecl (dp_type prefix) (dp_isArray prefix) (dp_name prefix) (dp_isPrivate prefix) firstInit] ;;
  expectText ";" "object variable declaration" ;;
  mret decls.

Definition inheritRound (result : string) : P (string + string) :=
  If check TString Then (t <- advance ;; again (result +:+ text t))
  Else If accept "+" Then
    (t <- expect TString "inherit statement path (string concatenation)" ;; again (result +:+ text t))
  Else done result.
Definition parseInheritPathString : P string :=
  t <- expect TString "inherit statement path" ;; rounds maxRounds inheritRound (text t).
Definition parseInheritStatement (program : Program) : P Program :=
  expectText "inherit" "inherit statement" ;;
  path <- parseInheritPathString ;;
  expectText ";" "inherit statement" ;;
  mret (mkProgramAst (pg_functions program) (pg_objectVars program) (pg_inherits program ++ [path])
          (pg_classes program)).

Definition memberRound (names : list string) : P (list string + list string) :=
  consumeArrayMarker ;;
  memberName <- expect TIdent "class member name" ;;
  let names := names ++ [text memberName] in
  If accept "," Then again names Else done names.
Definition classRound (names : list string) : P (list string + list string) :=
  If checkText "}" Then done names
  Else If atEnd Then parseError "parse error: unterminated class declaration"
  Else
    (parseTypeToken "class member type" ;;
     names <- rounds maxRounds memberRound names ;;
     expectText ";" "class member declaration" ;;
     again names).
Definition parseClassDecl : P ClassDeclStmt :=
  nameTok <- expect TIdent "class declaration name" ;;
  expectText "{" "class declaration body" ;;
  names <- rounds maxRounds classRound [] ;;
  expectText "}" "class declaration body" ;;
  mret (mkClassDecl (text nameTok) names).

(** How many modifiers follow: [while (peekAt(lookahead) is one) ++lookahead;] *)
Definition countModifiers : P nat :=
  rounds maxRounds (fun lookahead =>
    t <- peekAt lookahead ;; if isModifierKeyword t then again (S lookahead) else done lookahead) O.
Fixpoint advanceBy (n : nat) : P unit :=
  match n with O => mret tt | S n' => advance ;; advanceBy n' end.

Definition programRound (program : Program) : P (Program + Program) :=
  If atEnd Then done program
  Else If checkText "inherit" Then (p <- parseInheritStatement program ;; again p)
  Else
    (lookahead <- countModifiers ;;
     If (mret (0 <? lookahead)%nat &&& peekText lookahead "inherit") Then
       (advanceBy lookahead ;; p <- parseInheritStatement program ;; again p)
     Else If (dialectIs FluffOS &&& peekType lookahead TIdent &&& peekText lookahead "class"
              &&& peekType (lookahead + 1) TIdent &&& peekText (lookahead + 2) "{") Then
       (advanceBy lookahead ;; advance ;;
        c <- parseClassDecl ;;
        again (mkProgramAst (pg_functions program) (pg_objectVars program) (pg_inherits program)
                 (pg_classes program ++ [c])))
     Else
       (prefix <- parseDeclPrefix "top-level declaration" ;;
        If checkText "(" Then
          (f <- parseFunctionRest prefix ;;
           again (mkProgramAst (pg_functions program ++ [f]) (pg_objectVars program) (pg_inherits program)
                    (pg_classes program)))
        Else
          (vs <- parseObjectVarDeclRest prefix ;;
           again (mkProgramAst (pg_functions program) (pg_objectVars program ++ vs) (pg_inherits program)
                    (pg_classes program))))).
Definition parseProgram : P Program := rounds maxRounds programRound (mkProgramAst [] [] [] []).
End Program.
End Parser.

(** A fresh parser over the tokens. *)
Definition newParser : ParseState := mkParse 0 [] [].
Definition parseTokens (fuel : nat) (dialect : LpcDialect) (tokens : list Token) : outcome exn Program :=
  fst (parseProgram tokens dialect fuel newParser).
