(* ===== verification/ObjectManager.v ===== *)
(** * ObjectManager: src/object/ObjectManager.cpp, src/security/UidModel.cpp

    Compiling files, loading, cloning, destructing and reloading objects.

    Parameters: cpp (Preprocess.v), the efuns that exist ([efunExistsChecker_]),
    the fuel [genFuel] for the code generator, which [compile_terminates] says
    exists, and the jitter of reset times.  Programs and objects get fresh
    names and are never freed: what the last [shared_ptr] to an object frees
    stays in [objects] here. *)
From S2P Require Import Prelude CLib Double Value Bytecode Lookup Network Machine Calls VM Registries Ast Lexer Parser CodeGen Preprocess.
Local Open Scope Z_scope.

(** ** UidModel *)
Definition uidActive (m : UidModel) : bool := is_some (rootUid m).

(** The uid and euid of a new object. *)
Definition resolveObjectUids (model : UidModel) (creatorName : string) (loaderUid loaderEuid : option string)
    : string * option string :=
  if bool_decide (loaderUid = Some creatorName) then (creatorName, loaderEuid)
  else if autoTrustBackbone model && bool_decide (backboneUid model = Some creatorName) && is_some loaderEuid
  then (default "" loaderEuid, loaderEuid)
  else (creatorName, None).

(** ** Names *)
Definition normalizeFilename (filename : string) : string :=
  let n := String.length filename in
  let result := if (2 <=? n)%nat && String.eqb (sdrop (n - 2) filename) ".c" then stake (n - 2) filename else filename in
  if Ascii.eqb (char_at result 0) "/" then result else String "/" result.

Definition modOm (f : ObjMgr -> ObjMgr) (s : VMState) : VMState := s <| om ::= f |>.
Definition getOm {A} (f : ObjMgr -> A) : VM A := mgets (fun s => f (om s)).
Definition say (msg : string) : VM unit := mmodify (fun s => s <| stderrLog ::= cons msg |>).

(** The [InProgressGuard] of the two sets of names in progress. *)
Definition inProgress {A} (set_ : (gset string -> gset string) -> ObjMgr -> ObjMgr) (filename : string) (m : VM A) : VM A :=
  fun s => mfinally m (modOm (set_ (fun x => x ∖ {[ filename ]}))) (modOm (set_ (union {[ filename ]})) s).
Definition setCompiling (f : gset string -> gset string) (m : ObjMgr) : ObjMgr := m <| compiling ::= f |>.
Definition setVirtual (f : gset string -> gset string) (m : ObjMgr) : ObjMgr := m <| virtualCompiling ::= f |>.

Definition lookupLoadedObject (rawFilename : string) (m : ObjMgr) : option oid :=
  loaded m !! normalizeFilename rawFilename.

(** ** Compiling *)

(** What the parents of a file contribute to its program. *)
Record Inherited := mkInherited {
  parents : list (option pid);
  inheritedVarNames : list string;
  baseOffsets : gmap pid Z
}.
Definition addParent (q : pid) (pr : CompiledProgram) (i : Inherited) : Inherited :=
  let base := int_of (length (inheritedVarNames i)) in
  {| parents := parents i ++ [Some q];
     inheritedVarNames := inheritedVarNames i ++ objectVarNames pr;
     baseOffsets := (Z.add base <$> ancestorBaseOffsets pr) ∪ <[q := base]> (baseOffsets i) |}.

(** A cached program is used while the source is the one it was compiled from,
    or when there is no source any more. *)
Definition cacheHit (source known : option string) : bool :=
  match source with
  | None => true
  | Some t => bool_decide (known = Some t)
  end.

Section Compile.
Context (cpp : string -> string -> bool * string * string) (efunExists : string -> bool).
Context (genFuel : Program -> list string -> nat).

Definition parseFuel (tokens : list Token) : nat := 3 * length tokens + 3.

(** From the text cpp gave to a syntax tree. *)
Definition parseSource (dialectName_ text : string) : outcome exn Program :=
  let! dialect := dialectFromString dialectName_ in
  let! tokens := tokenize dialect text in
  parseTokens (parseFuel tokens) dialect tokens.

Definition newProgram (p : CompiledProgram) : VM pid :=
  q <- mgets (fun s => fresh (dom (programStore s))) ;;
  mmodify (fun s => s <| programStore ::= insert q p |>) ;;
  mret q.

(** The parents are compiled first; one that fails fails the file. *)
Fixpoint compileInherits (rec : string -> VM (option pid)) (path : string) (ps : list string) (i : Inherited)
    : VM (option Inherited) :=
  match ps with
  | [] => mret (Some i)
  | p :: rest =>
      r <- rec p ;;
      match r with
      | None => say ("[object] " +:+ path +:+ ": failed to compile inherited file " +:+ p) ;; mret None
      | Some q =>
          pr <- mgets (fun s => prog (programStore s) q) ;;
          compileInherits rec path rest (addParent q pr i)
      end
  end.

(** The body of the [try] block. *)
Definition compileText (rec : string -> VM (option pid)) (filename path text currentSource : string) : VM (option pid) :=
  c <- mgets config ;;
  ast <- mlift (parseSource (cfg_dialect c) text) ;;
  inh <- compileInherits rec path (pg_inherits ast) (mkInherited [] [] ∅) ;;
  match inh with
  | None => mret None
  | Some i =>
      code_ <- mlift (CodeGen.compile (genFuel ast (inheritedVarNames i)) ast (inheritedVarNames i)) ;;
      p <- newProgram (code_ <| inheritedPrograms := parents i |> <| ancestorBaseOffsets := baseOffsets i |>) ;;
      mmodify (modOm (fun m => m <| programCache ::= insert filename p |> <| programSource ::= insert filename currentSource |>)) ;;
      mret (Some p)
  end.

Definition preprocess (c : Config) (fs : gmap string FileEntry) (path filename : string)
    : outcome exn (string + string) :=
  let includeDirs := splitIncludeDirs (includeDir c) (mudlibRoot c) in
  let! staged := stageSourceForPreprocessing fs c efunExists path includeDirs in
  match staged with
  | None => Ok (inr ("source file not found: " +:+ path))
  | Some t => Ok (runPreprocessor c cpp t includeDirs (dirOf path) filename)
  end.

Definition compileSource (rec : string -> VM (option pid)) (filename path : string) (source : option string)
    : VM (option pid) :=
  match source with
  | None => say ("[object] source file not found: " +:+ path) ;; mret None
  | Some currentSource =>
      c <- mgets config ;;
      fs <- getOm disk ;;
      text <- mlift (preprocess c fs path filename) ;;
      match text with
      | inr err => say ("[object] preprocessing failed for " +:+ path +:+ ": " +:+ err) ;; mret None
      | inl t =>
          mcatch (compileText rec filename path t currentSource)
            (fun e => say ("[object] compile error in " +:+ path +:+ ": " +:+ what e) ;; mret None)
      end
  end.

Definition sourcePath (c : Config) (filename : string) : string := mudlibRoot c +:+ filename +:+ ".c".

(** [ObjectManager::compile]; null is [None]. *)
Fixpoint compileFile (fuel : nat) (rawFilename : string) : VM (option pid) :=
  match fuel with
  | O => mlift OutOfFuel
  | S f =>
      let filename := normalizeFilename rawFilename in
      path <- mgets (fun s => sourcePath (config s) filename) ;;
      source <- getOm (fun m => openFile (disk m) path) ;;
      cached <- getOm (fun m => programCache m !! filename) ;;
      known <- getOm (fun m => programSource m !! filename) ;;
      match (if cacheHit source known then cached else None) with
      | Some p => mret (Some p)
      | None =>
          busy <- getOm (fun m => bool_decide (filename ∈ compiling m)) ;;
          if busy : bool then say ("[object] inherit cycle detected involving " +:+ filename) ;; mret None else
          inProgress setCompiling filename (compileSource (compileFile f) filename path source)
      end
  end.

(** A chain of files in progress names each file once. *)
Definition compileFuel (s : VMState) : nat := S (S (size (disk (om s)))).
Definition compile (filename : string) : VM (option pid) := fun s => compileFile (compileFuel s) filename s.

(** ** Objects *)
Section Objects.
Context (run : RunFn) (ticks : nat -> Z) (jitter : oid -> Z).

Definition callDriver (o : option oid) (name : string) (args : list Value) : VM Value :=
  callFunction run ticks o name args Driver.

Definition sourceFileExists (rawFilename : string) (s : VMState) : bool :=
  match disk (om s) !! sourcePath (config s) (normalizeFilename rawFilename) with
  | Some (RegularFile _) => true
  | _ => false
  end.

Definition armResetAndCleanup (o : oid) : VM unit :=
  d <- mgets (fun s => isDestructed s o) ;;
  if d : bool then mret tt else
  now <- (fun s => (Ok (ticks (clockReads s)), s <| clockReads ::= S |>)) ;;
  mmodify (setOb o (armReset now 1800 (jitter o))) ;;
  mmodify (setOb o (fun ob => ob <| willCleanUp := true |>)).

(** Parents first, by the programs, not by lookup.  The inherit graph is
    acyclic and parents are older programs. *)
Fixpoint runInitializers (fuel : nat) (o : oid) (p : pid) : VM unit :=
  match fuel with
  | O => mlift OutOfFuel
  | S f =>
      ps <- mgets (fun s => inheritedPrograms (prog (programStore s) p)) ;;
      (fix each (qs : list (option pid)) : VM unit :=
         match qs with
         | [] => mret tt
         | Some q :: rest => runInitializers f o q ;; each rest
         | None :: rest => each rest
         end) ps ;;
      callFunctionInProgram run (Some o) p "$objvarinit" [] ;; mret tt
  end.
Definition runObjectVarInitializers (o : oid) (p : pid) : VM unit := fun s =>
  runInitializers (lookupFuel (programStore s)) o p s.

(** [apply_master_ob(APPLY_PRIVS_FILE)]; an error leaves the privs unset. *)
Definition initPrivsForObject (o : oid) (filename : string) : VM unit :=
  master <- mgets masterOb ;;
  match master with
  | None => mret tt
  | Some _ =>
      result <- mcatch (applyMaster run ticks "privs_file" [V (Str filename)]) (fun _ => mret Void) ;;
      match data result with
      | Str p => mmodify (setOb o (fun ob => ob <| privs := Some p |>))
      | _ => mret tt
      end
  end.

(** The name [creator_file] gives, if it gives one. *)
Definition creatorFile (master : oid) (slashPath : string) : VM (option string) :=
  ex <- functionExists (Some master) "creator_file" ;;
  if negb ex then mret None else
  mcatch (v <- callDriver (Some master) "creator_file" [V (Str slashPath)] ;;
          mret match data v with Str n => Some n | _ => None end)
    (fun _ => mret None).

Definition assignObjectUid (o : oid) (filename : string) : VM unit :=
  master <- mgets masterOb ;;
  model <- getOm uidModel ;;
  match master, rootUid model with
  | Some m, Some root =>
      let slashPath := if String.eqb filename "" || Ascii.eqb (char_at filename 0) "/" then filename else String "/" filename in
      creator <- creatorFile m slashPath ;;
      match creator with
      | None => mmodify (setOb o (fun ob => ob <| uid := Some root |>))
      | Some creatorName =>
          caller <- mgets currentObject ;;
          model' <- getOm uidModel ;;
          ids <- mgets (fun s => match caller with
                                 | Some cl => (getOb s uid None cl, getOb s euid None cl)
                                 | None => (rootUid model', rootUid model') end) ;;
          let '(u, e) := resolveObjectUids model' creatorName (fst ids) (snd ids) in
          mmodify (setOb o (fun ob => ob <| uid := Some u |> <| euid := e |>))
      end
  | _, _ => mret tt
  end.

(** A new object of a program, known to the registry of live objects. *)
Definition createObject (filename : string) (p : pid) : VM oid :=
  now <- (fun s => (Ok (ticks (clockReads s)), s <| clockReads ::= S |>)) ;;
  o <- mgets (fun s => fresh (dom (objects s))) ;;
  mmodify (fun s => s <| objects ::= insert o (newObject filename p (prog (programStore s) p)
                          (String.eqb (cfg_dialect (config s)) "fluffos") now) |>) ;;
  mret o.
Definition registerLive (o : oid) : VM unit := mmodify (modOm (fun m => m <| liveObjects ::= LiveObjects.add (Some o) |>)).

(** Initializers and [create]; whether they ended without an error. *)
Definition initialize (o : oid) (p : pid) (filename : string) : VM bool :=
  mcatch (runObjectVarInitializers o p ;; callDriver (Some o) "create" [] ;; mret true)
    (fun e => say ("[object] create() failed for " +:+ filename +:+ ": " +:+ what e) ;; mret false).

(** [compile_object] of the master provides an object for the path. *)
Definition loadVirtualObject (filename : string) : VM (option oid) :=
  master <- mgets masterOb ;;
  match master with
  | None => mret None
  | Some _ =>
      busy <- getOm (fun m => bool_decide (filename ∈ virtualCompiling m)) ;;
      if busy : bool then say ("[object] compile_object() recursion detected for " +:+ filename) ;; mret None else
      inProgress setVirtual filename (
        result <- mcatch (applyMaster run ticks "compile_object" [V (Str filename); VInt 0])
          (fun e => say ("[object] compile_object(" +:+ filename +:+ ") failed: " +:+ what e) ;; mret Void) ;;
        match data result with
        | Obj (Some ob) =>
            mmodify (setOb ob (fun x => x <| Machine.filename := filename |>)) ;;
            mmodify (modOm (fun m => m <| loaded ::= insert filename ob |>)) ;;
            mmodify (setOb ob (fun x => x <| isVirtual := true |>)) ;;
            mret (Some ob)
        | _ => mret None
        end)
  end.

(** An object from a compiled program, by [loadObject]. *)
Definition loadProgram (filename : string) (p : pid) : VM (option oid) :=
  o <- createObject filename p ;;
  mmodify (modOm (fun m => m <| loaded ::= insert filename o |>)) ;;
  registerLive o ;;
  initPrivsForObject o filename ;;
  assignObjectUid o filename ;;
  ok <- initialize o p filename ;;
  if negb ok then mmodify (modOm (fun m => m <| loaded ::= delete filename |>)) ;; mret None else
  armResetAndCleanup o ;;
  mret (Some o).

Definition loadObject (rawFilename : string) : VM (option oid) :=
  let filename := normalizeFilename rawFilename in
  existing <- getOm (fun m => loaded m !! filename) ;;
  match existing with
  | Some o => mret (Some o)
  | None =>
      have <- mgets (sourceFileExists filename) ;;
      if negb have then
        v <- loadVirtualObject filename ;;
        match v with
        | Some o => mret (Some o)
        | None => say ("[object] source file not found: " +:+ filename) ;; mret None
        end
      else
        p <- compile filename ;;
        match p with
        | None => mret None
        | Some p => loadProgram filename p
        end
  end.

Definition cloneObject (rawFilename : string) : VM (option oid) :=
  active <- getOm (fun m => uidActive (uidModel m)) ;;
  noEuid <- mgets (fun s => match currentObject s with Some c => negb (is_some (getOb s euid None c)) | None => false end) ;;
  if active && noEuid then
    throwRuntime ("Object must call seteuid() prior to calling clone_object()." +:+ str1 NL)
  else
  let filename := normalizeFilename rawFilename in
  p <- compile filename ;;
  match p with
  | None => mret None
  | Some p =>
      o <- createObject filename p ;;
      registerLive o ;;
      initPrivsForObject o filename ;;
      assignObjectUid o filename ;;
      mmodify (setOb o (fun ob => ob <| isClone := true |>)) ;;
      ok <- initialize o p filename ;;
      if negb ok then mret None else
      armResetAndCleanup o ;;
      mret (Some o)
  end.

(** The master's uids, read once it is loaded. *)
Definition stringApply (master : oid) (name : string) : VM (option string) :=
  v <- callDriver (Some master) name [] ;;
  mret match data v with Str t => if String.eqb t "" then None else Some t | _ => None end.

Definition rootApply (master : oid) : VM (option string) :=
  v <- callDriver (Some master) "get_root_uid" [] ;;
  v <- (if isVoid v then callDriver (Some master) "get_master_uid" [] else mret v) ;;
  mret match data v with Str t => if String.eqb t "" then None else Some t | _ => None end.

Definition captureBootUids : VM unit :=
  master <- mgets masterOb ;;
  match master with
  | None => mret tt
  | Some m =>
      root <- mcatch (rootApply m) (fun _ => mret None) ;;
      match root with
      | None => mret tt
      | Some r =>
          mmodify (modOm (fun x => x <| uidModel ::= fun u => u <| rootUid := Some r |> |>)) ;;
          bb <- mcatch (stringApply m "get_bb_uid") (fun _ => mret None) ;;
          match bb with
          | Some b => mmodify (modOm (fun x => x <| uidModel ::= fun u => u <| backboneUid := Some b |> |>))
          | None => mret tt
          end ;;
          c <- mgets config ;;
          mmodify (modOm (fun x => x <| uidModel ::= fun u => u <| autoTrustBackbone := autoTrustBackboneKey c |> |>)) ;;
          mmodify (setOb m (fun ob => ob <| uid := Some r |> <| euid := Some r |>))
      end
  end.

Definition loadMasterObject : VM bool :=
  f <- mgets (fun s => masterFile (config s)) ;;
  m <- loadObject f ;;
  mmodify (fun s => s <| masterOb := m |>) ;;
  (if is_some m then captureBootUids else mret tt) ;;
  mret (is_some m).

Definition loadSimulEfunObject : VM bool :=
  f <- mgets (fun s => simulEfunFile (config s)) ;;
  if String.eqb f "" then mret false else
  o <- loadObject f ;;
  mmodify (fun s => s <| simulEfunOb := o |>) ;;
  mret (is_some o).

(** ** Destruction *)
Context (onDestructed : oid -> VM unit).

(** Splice the object out of its shadow chain; [above] is its live shadow. *)
Definition spliceOut (o : oid) (above : option oid) : VM unit :=
  below <- mgets (fun s => lock s (getOb s shadowing None o)) ;;
  match below with
  | Some b => mmodify (setOb b (fun ob => ob <| shadowedBy := above |>))
  | None => mret tt
  end ;;
  match above with
  | Some a => mmodify (fun s => setOb a (fun ob => ob <| shadowing := getOb s shadowing None o |>) s)
  | None => mret tt
  end.
Definition clearShadowLinks (o : oid) : VM unit :=
  mmodify (setOb o (fun ob => ob <| shadowing := None |> <| shadowedBy := None |>)).

(** Leave the environment's inventory. *)
Definition leaveEnvironment (o : oid) : VM unit :=
  env <- mgets (fun s => lock s (getOb s environment None o)) ;;
  match env with
  | Some e => mmodify (setOb e (fun ob => ob <| inventory ::= List.filter (fun x => negb (Pos.eqb x o)) |>))
  | None => mret tt
  end ;;
  mmodify (setOb o (fun ob => ob <| environment := None |>)).

(** Everything after the shadow chain. *)
Definition finishDestruct (o : oid) : VM unit :=
  onDestructed o ;;
  victim <- mgets (fun s => lock s (getOb s snooping None o)) ;;
  match victim with
  | Some v => mmodify (setOb v (fun ob => ob <| snoopedBy := None |>))
  | None => mret tt
  end ;;
  mmodify (setOb o (fun ob => ob <| snooping := None |> <| destructed := true |> <| replacedProgramName := None |>)) ;;
  mmodify (fun s => modOm (fun m => m <| livingNames ::= LivingNames.remove s (Some o) |>
                                      <| liveObjects ::= LiveObjects.remove s (Some o) |>) s) ;;
  leaveEnvironment o ;;
  mmodify (fun s => modOm (fun m => m <| loaded ::= delete (fileOf s o) |>
                                      <| restoredObjects ::= List.filter (fun x => negb (Pos.eqb x o)) |>) s).

(** The outermost shadow above an object. *)
Fixpoint topShadow (fuel : nat) (o : oid) (s : VMState) : outcome exn oid :=
  match fuel with
  | O => OutOfFuel
  | S f =>
      match lock s (getOb s shadowedBy None o) with
      | Some next => topShadow f next s
      | None => Ok o
      end
  end.

(** From the outermost shadow down to the object: unlink it, then destruct it. *)
Fixpoint destructChain (fuel : nat) (rec : oid -> VM unit) (top : oid) : VM unit :=
  match fuel with
  | O => mlift OutOfFuel
  | S f =>
      below <- mgets (fun s => lock s (getOb s shadowing None top)) ;;
      match below with
      | Some b => mmodify (setOb b (fun ob => ob <| shadowedBy := None |>))
      | None => mret tt
      end ;;
      mmodify (setOb top (fun ob => ob <| shadowing := None |>)) ;;
      rec top ;;
      match below with
      | Some b => destructChain f rec b
      | None => mret tt
      end
  end.

Fixpoint destructObject (fuel : nat) (o : oid) : VM unit :=
  match fuel with
  | O => mlift OutOfFuel
  | S f =>
      d <- mgets (fun s => isDestructed s o) ;;
      if d : bool then mret tt else
      above <- mgets (fun s => lock s (getOb s shadowedBy None o)) ;;
      below <- mgets (fun s => lock s (getOb s shadowing None o)) ;;
      match above, below with
      | Some a, None =>
          n <- mgets shadowFuel ;;
          top <- liftS (topShadow n a) ;;
          destructChain n (destructObject f) top
      | _, _ =>
          spliceOut o above ;;
          clearShadowLinks o ;;
          finishDestruct o
      end
  end.

(** ** Reloading *)

(** The shadows above a reloaded object, innermost first. *)
Fixpoint destructShadows (fuel : nat) (dfuel : nat) (cur : option oid) : VM unit :=
  match cur with
  | None => mret tt
  | Some c =>
      match fuel with
      | O => mlift OutOfFuel
      | S f =>
          next <- mgets (fun s => lock s (getOb s shadowedBy None c)) ;;
          clearShadowLinks c ;;
          destructObject dfuel c ;;
          destructShadows f dfuel next
      end
  end.

Definition reloadObject (o : oid) : VM unit :=
  mmodify (setOb o (fun ob => ob <| variables ::= map (fun _ => VInt 0) |>)) ;;
  above <- mgets (fun s => lock s (getOb s shadowedBy None o)) ;;
  below <- mgets (fun s => lock s (getOb s shadowing None o)) ;;
  n <- mgets shadowFuel ;;
  (match above, below with
   | Some a, None => destructShadows n n (Some a)
   | _, _ => spliceOut o above
   end) ;;
  clearShadowLinks o ;;
  mmodify (fun s => modOm (fun m => m <| livingNames ::= LivingNames.remove s (Some o) |>) s) ;;
  mcatch (
    p <- mgets (fun s => programOf s o) ;;
    runObjectVarInitializers o p ;;
    d <- mgets (fun s => isDestructed s o) ;;
    (if d : bool then mret tt else callDriver (Some o) "create" [] ;; mret tt))
    (fun e => say ("[object] reload_object: create() failed: " +:+ what e)) ;;
  armResetAndCleanup o.
End Objects.
End Compile.

Definition retainRestoredObjects (obs : list oid) (m : ObjMgr) : ObjMgr := m <| restoredObjects ::= fun l => l ++ obs |>.

(** The destructor; [liveManagers] is [g_liveManagerCount] before it. *)
Definition destroyManager (liveManagers : Z) (s : VMState) : VMState :=
  let s1 := modOm (fun m => m <| loaded := ∅ |> <| restoredObjects := [] |> <| programCache := ∅ |>
                              <| programSource := ∅ |> <| compiling := ∅ |> <| virtualCompiling := ∅ |>)
              (s <| masterOb := None |> <| simulEfunOb := None |>) in
  if liveManagers - 1 =? 0 then
    let '(s2, reg) := LiveObjects.releaseAll s1 (liveObjects (om s1)) in
    modOm (fun m => m <| liveObjects := reg |>) s2
  else s1.
