(* ===== verification/ParserFacts.v ===== *)
(** * ParserFacts: the parser ends, and what it accepts

    [prog]: an action of the parser moves forward, keeps the two stacks of
    lambda contexts balanced, and neither gets stuck nor has undefined
    behaviour.  The rules of the grammar consume a token before they recurse,
    except from [parseTernary] to [parseUnary] and from [parseStatement] to
    [parseTernary], so three units of fuel per token are enough. *)
From S2P Require Import Prelude CLib Double Value Bytecode Lexer Ast Parser.
Local Open Scope string_scope.
Local Open Scope list_scope.

Section Progress.
Context (tokens_ : list Token) (dialect_ : LpcDialect).
Local Abbreviation n := (length tokens_) (only parsing).

Record moved (strict : bool) (s s' : ParseState) : Prop := {
  mv_pos : (pos_ s <= pos_ s' <= n)%nat;
  mv_strict : strict = true -> (pos_ s < pos_ s')%nat;
  mv_maxes : length (lambdaParamMaxStack_ s') = length (lambdaParamMaxStack_ s);
  mv_bounds : length (lambdaBoundValuesStack_ s') = length (lambdaBoundValuesStack_ s)
}.

(** From a state with at most [r] tokens left (not at the end when [ne]), [m]
    moves forward, and consumes a token when its result satisfies [q]. *)
Definition prog {A} (ne : bool) (q : A -> bool) (r : nat) (m : P A) : Prop :=
  forall s, (pos_ s <= n)%nat -> (n - pos_ s <= r)%nat -> (ne = true -> endAt tokens_ (pos_ s) = false) ->
  match m s with
  | (Ok a, s') => moved (q a) s s'
  | (Throw _, _) => True
  | _ => False
  end.
Definition yes {A} (_ : A) : bool := true.
Definition no {A} (_ : A) : bool := false.
Local Abbreviation strict ne r m := (prog ne yes r m) (only parsing).
Local Abbreviation weak ne r m := (prog ne no r m) (only parsing).

Lemma moved_refl s : (pos_ s <= n)%nat -> moved false s s.
Proof. intros H. split; try done; lia. Qed.
Lemma moved_trans b1 b2 b s1 s2 s3 :
  moved b1 s1 s2 -> moved b2 s2 s3 -> (b = true -> b1 = true \/ b2 = true) -> moved b s1 s3.
Proof.
  intros [H1 H2 H3 H4] [H5 H6 H7 H8] Hb. split; [lia| |congruence|congruence].
  intros E. destruct (Hb E) as [E'|E']; [specialize (H2 E')|specialize (H6 E')]; lia.
Qed.
Lemma moved_weaken b b' s s' : moved b s s' -> (b' = true -> b = true) -> moved b' s s'.
Proof. intros [] Hb. split; auto. Qed.

Lemma prog_mono {A} ne ne' (q q' : A -> bool) r r' m :
  prog ne q r m -> (ne = true -> ne' = true) -> (forall a, q' a = true -> q a = true) -> (r' <= r)%nat ->
  prog ne' q' r' m.
Proof.
  intros H Hne Hq Hr s Hs Hrem He. specialize (H s Hs ltac:(lia)).
  destruct (m s) as [[a|e|w|] s'].
  - eapply moved_weaken; [|apply Hq]. apply H. intros E. apply He, Hne, E.
  - done.
  - apply H. intros E. apply He, Hne, E.
  - apply H. intros E. apply He, Hne, E.
Qed.
Lemma prog_ret {A} ne (q : A -> bool) r a : q a = false -> prog ne q r (mret a).
Proof. intros Hq s Hs _ _. simpl. rewrite Hq. by apply moved_refl. Qed.
Lemma prog_throw {A} ne (q : A -> bool) r e : prog ne q r (mthrow e).
Proof. by intros s _ _ _. Qed.

(** After a step that consumes, fewer tokens are left. *)
Lemma prog_bind_strict {A B} ne (q : B -> bool) r (m : P A) (k : A -> P B) :
  strict ne r m -> (forall a, (0 < r)%nat -> weak false (pred r) (k a)) -> prog ne q r (mbind m k).
Proof.
  intros Hm Hk s Hs Hrem Hne. specialize (Hm s Hs Hrem Hne). unfold mbind.
  destruct (m s) as [[a|e|w|] s']; try done.
  assert (pos_ s < pos_ s' <= n)%nat as Hlt by (destruct Hm as [H1 H2 _ _]; specialize (H2 eq_refl); lia).
  specialize (Hk a ltac:(lia) s' ltac:(lia) ltac:(lia) ltac:(done)).
  destruct (k a s') as [[b|e|w|] s'']; try done. eapply moved_trans; [exact Hm|exact Hk|]. by left.
Qed.
Lemma prog_bind_weak {A B} ne (q : B -> bool) r (m : P A) (k : A -> P B) :
  weak ne r m -> (forall a, prog false q r (k a)) -> prog ne q r (mbind m k).
Proof.
  intros Hm Hk s Hs Hrem Hne. specialize (Hm s Hs Hrem Hne). unfold mbind.
  destruct (m s) as [[a|e|w|] s']; try done. pose proof (mv_pos _ _ _ Hm) as Hp.
  specialize (Hk a s' ltac:(lia) ltac:(lia) ltac:(done)).
  destruct (k a s') as [[b|e|w|] s'']; try done. eapply moved_trans; [exact Hm|exact Hk|]. by right.
Qed.
Lemma prog_assoc {A B C} ne (q : C -> bool) r (m : P A) (k : A -> P B) (l : B -> P C) :
  prog ne q r (mbind m (fun a => mbind (k a) l)) -> prog ne q r (mbind (mbind m k) l).
Proof.
  intros H s Hs Hr Hne. specialize (H s Hs Hr Hne). unfold mbind in *. by destruct (m s) as [[]].
Qed.

(** ** Tests *)
Definition pureP {A} (c : P A) : Prop := forall s, exists a, c s = (Ok a, s).
Definition guard (c : P bool) : Prop := forall s s', c s = (Ok true, s') -> endAt tokens_ (pos_ s) = false.

Lemma pure_ret {A} (a : A) : pureP (mret a).
Proof. intros s. by eexists. Qed.
Lemma pure_gets {A} (f : ParseState -> A) : pureP (mgets f).
Proof. intros s. by eexists. Qed.
Lemma pure_bind {A B} (m : P A) (k : A -> P B) : pureP m -> (forall a, pureP (k a)) -> pureP (mbind m k).
Proof.
  intros Hm Hk s. destruct (Hm s) as [a E]. destruct (Hk a s) as [b E']. exists b. unfold mbind. by rewrite E.
Qed.
Lemma pure_if {A} (c : P bool) (a b : P A) : pureP c -> pureP a -> pureP b -> pureP (If c Then a Else b).
Proof. intros Hc Ha Hb. apply pure_bind; [done|]. by intros []. Qed.
Lemma pure_and c d : pureP c -> pureP d -> pureP (andP c d).
Proof. intros Hc Hd. apply pure_if; [done|done|apply pure_ret]. Qed.
Lemma pure_or c d : pureP c -> pureP d -> pureP (orP c d).
Proof. intros Hc Hd. apply pure_if; [done|apply pure_ret|done]. Qed.
Lemma guard_and_l c d : pureP c -> guard c -> guard (andP c d).
Proof.
  intros Hp Hc s s' H. unfold andP, mbind in H. destruct (Hp s) as [[] E]; rewrite E in H; [|done].
  by apply (Hc s s).
Qed.
Lemma guard_and_r c d : pureP c -> guard d -> guard (andP c d).
Proof.
  intros Hp Hd s s' H. unfold andP, mbind in H. destruct (Hp s) as [[] E]; rewrite E in H; [|done].
  by apply (Hd s s').
Qed.
Lemma guard_checkText x : guard (checkText tokens_ x).
Proof.
  intros s s' H. unfold checkText, mgets, hasText in H. injection H as H _.
  rewrite !andb_true_iff, negb_true_iff in H. tauto.
Qed.
Lemma guard_check t : guard (check tokens_ t).
Proof.
  intros s s' H. unfold check, mgets, hasType in H. injection H as H _.
  rewrite andb_true_iff, negb_true_iff in H. tauto.
Qed.

(** Either branch, knowing in the first that a token is there. *)
Lemma prog_if_guard {A} ne (q : A -> bool) r c (a b : P A) :
  pureP c -> guard c -> prog true q r a -> prog ne q r b -> prog ne q r (If c Then a Else b).
Proof.
  intros Hc Hg Ha Hb s Hs Hr Hne. unfold mbind. destruct (Hc s) as [[] E]; rewrite E.
  - apply Ha; [done|done|]. intros _. by apply (Hg s s).
  - by apply Hb.
Qed.
Lemma prog_if {A} ne (q : A -> bool) r c (a b : P A) :
  pureP c -> prog ne q r a -> prog ne q r b -> prog ne q r (If c Then a Else b).
Proof.
  intros Hc Ha Hb s Hs Hr Hne. unfold mbind. destruct (Hc s) as [[] E]; rewrite E; [by apply Ha|by apply Hb].
Qed.
Lemma prog_if_bind {A B} ne (q : B -> bool) r c (a b : P A) (k : A -> P B) :
  prog ne q r (If c Then (mbind a k) Else (mbind b k)) -> prog ne q r (mbind (If c Then a Else b) k).
Proof.
  intros H s Hs Hr Hne. specialize (H s Hs Hr Hne). unfold mbind at 1 2. unfold mbind at 1 in H.
  destruct (c s) as [[[]|e|w|] s']; exact H.
Qed.
Lemma prog_pure {A B} ne (q : B -> bool) r (m : P A) (k : A -> P B) :
  pureP m -> (forall a, prog ne q r (k a)) -> prog ne q r (mbind m k).
Proof.
  intros Hm Hk s Hs Hr Hne. unfold mbind. destruct (Hm s) as [a E]. rewrite E. by apply Hk.
Qed.

(** ** Steps *)
Lemma advance_spec s : (pos_ s <= n)%nat -> exists t,
  advance tokens_ s = (Ok t, if endAt tokens_ (pos_ s) then s else s <| pos_ ::= S |>) /\
  (endAt tokens_ (pos_ s) = false -> (pos_ s < n)%nat).
Proof.
  intros Hs. unfold advance, peek, peekAt, atEnd, mbind, mgets, mmodify, mret. simpl.
  destruct (endAt tokens_ (pos_ s)) eqn:E; eexists; (split; [reflexivity|]); [done|].
  intros _. unfold endAt in E. apply orb_false_iff in E as [E _]. apply Nat.leb_gt in E. lia.
Qed.
Lemma strict_advance r : strict true r (advance tokens_).
Proof.
  intros s Hs Hr Hne. destruct (advance_spec s Hs) as (t & -> & Hlt). rewrite Hne in * by done.
  specialize (Hlt eq_refl). split; simpl; try done; lia.
Qed.
Lemma weak_advance ne r : weak ne r (advance tokens_).
Proof.
  intros s Hs Hr Hne. destruct (advance_spec s Hs) as (t & -> & Hlt).
  destruct (endAt tokens_ (pos_ s)); [by apply moved_refl|]. specialize (Hlt eq_refl).
  split; simpl; try done; lia.
Qed.

Lemma prog_accept_if {A} ne (q : A -> bool) r x (a b : P A) :
  ((0 < r)%nat -> weak false (pred r) a) -> prog ne q r b ->
  prog ne q r (If accept tokens_ x Then a Else b).
Proof.
  intros Ha Hb. unfold accept. apply prog_if_bind, prog_if_guard;
    [apply pure_gets|apply guard_checkText| |exact Hb].
  apply prog_assoc, prog_bind_strict; [apply strict_advance|]. intros _. exact Ha.
Qed.

Lemma strict_expect ne r type context : strict ne r (expect tokens_ type context).
Proof.
  unfold expect. apply prog_if_guard; [apply pure_gets|apply guard_check|apply strict_advance|].
  apply prog_pure; [|intros; apply prog_throw]. unfold unexpected, peek. 
  apply pure_bind; [apply pure_gets|intros; apply pure_ret].
Qed.
Lemma strict_expectText ne r txt context : strict ne r (expectText tokens_ txt context).
Proof.
  unfold expectText. apply prog_if_guard; [apply pure_gets|apply guard_checkText| |].
  - apply prog_bind_strict; [apply strict_advance|]. intros. by apply prog_ret.
  - apply prog_pure; [|intros; apply prog_throw]. unfold unexpected, peek. 
    apply pure_bind; [apply pure_gets|intros; apply pure_ret].
Qed.
Lemma weak_accept ne r x : weak ne r (accept tokens_ x).
Proof.
  unfold accept. apply prog_if_guard; [apply pure_gets|apply guard_checkText| |by apply prog_ret].
  apply prog_bind_strict; [apply strict_advance|]. intros. by apply prog_ret.
Qed.

(** ** Loops *)
Definition goesOn {A} (q : A -> bool) (r : A + A) : bool :=
  match r with inl _ => true | inr a => q a end.
Lemma prog_rounds_fuel {A} (q : A -> bool) r body : (forall a, prog false (goesOn q) r (body a)) ->
  forall fuel ne a, (r < fuel)%nat -> prog ne q r (rounds fuel body a).
Proof.
  intros Hb fuel. revert r Hb. induction fuel as [|fuel IH]; intros r Hb ne a Hr; [lia|]. simpl.
  intros s Hs Hrem Hne. specialize (Hb a) as Ha. specialize (Ha s Hs Hrem ltac:(done)). unfold mbind.
  destruct (body a s) as [[[a'|a']|e|w|] s']; try done. simpl in Ha.
  assert (pos_ s < pos_ s' <= n)%nat as Hlt by (destruct Ha as [H1 H2 _ _]; specialize (H2 eq_refl); lia).
  specialize (IH (pred r) ltac:(intros; eapply prog_mono; [apply Hb|done|done|lia]) false a' ltac:(lia)).
  specialize (IH s' ltac:(lia) ltac:(lia) ltac:(done)).
  destruct (rounds fuel body a' s') as [[b|e|w|] s'']; try done.
  eapply moved_trans; [exact Ha|exact IH|]. by left.
Qed.
Lemma prog_rounds {A} ne (q : A -> bool) r body a :
  (forall a, prog false (goesOn q) r (body a)) -> prog ne q r (rounds (maxRounds tokens_) body a).
Proof.
  intros Hb s Hs Hr Hne.
  refine (prog_rounds_fuel q (min r n) body _ (maxRounds tokens_) ne a _ s Hs _ Hne); [|unfold maxRounds; lia|lia].
  intros a'. eapply prog_mono; [apply Hb|done|done|lia].
Qed.
End Progress.

Create HintDb parse.
#[export] Hint Resolve pure_ret pure_gets pure_bind pure_if pure_and pure_or strict_advance strict_expect strict_expectText weak_advance weak_accept
  prog_throw : parse.
#[export] Hint Extern 5 (pureP (if ?b then _ else _)) => destruct b : parse.

Section Tests.
Context (tokens_ : list Token) (dialect_ : LpcDialect).
Lemma pure_check t : pureP (check tokens_ t).
Proof. apply pure_gets. Qed.
Lemma pure_checkText x : pureP (checkText tokens_ x).
Proof. apply pure_gets. Qed.
Lemma pure_atEnd : pureP (atEnd tokens_).
Proof. apply pure_gets. Qed.
Lemma pure_peekAt k : pureP (peekAt tokens_ k).
Proof. apply pure_gets. Qed.
Lemma pure_peek : pureP (peek tokens_).
Proof. apply pure_gets. Qed.
Lemma pure_dialectIs d : pureP (dialectIs dialect_ d).
Proof. apply pure_ret. Qed.
Local Hint Resolve pure_check pure_checkText pure_peekAt pure_peek pure_dialectIs : parse.
Lemma pure_peekText k x : pureP (peekText tokens_ k x).
Proof. unfold peekText. auto with parse. Qed.
Lemma pure_peekType k t : pureP (peekType tokens_ k t).
Proof. unfold peekType. auto with parse. Qed.
Local Hint Resolve pure_peekText pure_peekType : parse.
Lemma pure_checkIdent x : pureP (checkIdent tokens_ x).
Proof. unfold checkIdent. auto with parse. Qed.
Lemma pure_atTypeKeyword : pureP (atTypeKeyword tokens_).
Proof. unfold atTypeKeyword. auto with parse. Qed.
Local Hint Resolve pure_checkIdent pure_atTypeKeyword : parse.
Lemma pure_startsClassType : pureP (startsClassType tokens_ dialect_).
Proof. unfold startsClassType. auto with parse. Qed.
Local Hint Resolve pure_startsClassType : parse.
Lemma pure_startsType : pureP (startsType tokens_ dialect_).
Proof. unfold startsType. auto 7 with parse. Qed.
Lemma pure_isBareName : pureP (isBareName tokens_).
Proof. unfold isBareName. auto 7 with parse. Qed.
Lemma pure_unexpected w c : pureP (unexpected tokens_ w c).
Proof. unfold unexpected. auto 7 with parse. Qed.
Lemma pure_matchOp ops : pureP (matchOp tokens_ ops).
Proof. induction ops as [|[] ops IH]; simpl; auto with parse. Qed.
Local Hint Resolve pure_matchOp : parse.
Lemma pure_assignOp : pureP (assignOp tokens_).
Proof. unfold assignOp. auto 7 with parse. Qed.
Lemma pure_incDecOp : pureP (incDecOp tokens_).
Proof. unfold incDecOp. auto 7 with parse. Qed.

Lemma guard_checkIdent x : guard tokens_ (checkIdent tokens_ x).
Proof. apply guard_and_l; [auto with parse|apply guard_check]. Qed.
Lemma guard_atTypeKeyword : guard tokens_ (atTypeKeyword tokens_).
Proof. apply guard_and_l; [auto with parse|apply guard_check]. Qed.
Lemma guard_startsClassType : guard tokens_ (startsClassType tokens_ dialect_).
Proof. apply guard_and_l; [auto with parse|]. apply guard_and_r; [auto with parse|apply guard_checkIdent]. Qed.
End Tests.
#[export] Hint Resolve pure_check pure_checkText pure_atEnd pure_peekAt pure_peek pure_dialectIs pure_peekText
  pure_peekType pure_checkIdent pure_atTypeKeyword pure_startsClassType pure_startsType pure_isBareName
  pure_unexpected pure_matchOp pure_assignOp pure_incDecOp : parse.

Ltac pure_tac := solve [repeat apply pure_and; auto 8 with parse].
Ltac guard_tac :=
  first [ apply guard_checkText | apply guard_check | apply guard_checkIdent | apply guard_atTypeKeyword
        | apply guard_startsClassType
        | apply guard_and_l; [pure_tac|guard_tac] | apply guard_and_r; [pure_tac|guard_tac] ].
(** One step of an action: tests, then what consumes, then the rest. *)
Ltac prog_step :=
  lazymatch goal with
  | |- prog _ _ _ _ (mbind (mbind _ (fun x : bool => if x then _ else _)) _) => apply prog_if_bind
  | |- prog _ _ _ _ (mbind (mbind _ _) _) => apply prog_assoc
  | |- prog _ _ _ _ (mbind (accept _ _) (fun x : bool => if x then _ else _)) =>
      apply prog_accept_if; [intros ?|]
  | |- prog _ _ _ _ (mbind _ (fun x : bool => if x then _ else _)) =>
      first [apply prog_if_guard; [pure_tac|guard_tac| |] | apply prog_if; [pure_tac| |]]
  | |- prog _ _ _ _ (mbind (rounds _ _ _) _) =>
      first [ apply prog_bind_strict; [solve [apply prog_rounds; intros ?; prog_tac]|intros ? ?]
            | apply prog_bind_weak; [apply prog_rounds; intros ?|intros ?] ]
  | |- prog _ _ _ _ (rounds _ _ _) => apply prog_rounds; intros ?
  | |- prog _ _ _ _ (mbind (if ?b then _ else _) _) => destruct b
  | |- prog _ _ _ _ (mbind _ _) =>
      first [ apply prog_pure; [pure_tac|intros ?]
            | apply prog_bind_strict; [solve [eauto 4 with parse]|intros ? ?]
            | apply prog_bind_weak; [solve [eauto 4 with parse]|intros ?] ]
  | |- prog _ _ _ _ (mret _) => apply prog_ret; reflexivity
  | |- prog _ _ _ _ (again _) => apply prog_ret; reflexivity
  | |- prog _ _ _ _ (done _) => apply prog_ret; reflexivity
  | |- prog _ _ _ _ (if ?b then _ else _) => destruct b
  | |- prog _ _ _ _ (match ?b with _ => _ end) => destruct b
  | |- prog _ _ _ _ _ => solve [eauto 4 with parse]
  end; cbv beta
with prog_tac := repeat prog_step.
Lemma prog_any {A} tokens_ ne (q : A -> bool) r m : prog tokens_ ne yes r m -> prog tokens_ ne q r m.
Proof. intros H. by eapply prog_mono; [exact H|..]. Qed.
#[export] Hint Resolve prog_any | 5 : parse.
#[export] Hint Extern 2 (_ < _) => lia : parse.
#[export] Hint Extern 2 (_ <= _) => lia : parse.

Section Rules.
Context (tokens_ : list Token) (dialect_ : LpcDialect) (parseUnary parseTernary parseStatement : P AstNode).
Context (R : nat).
Context (HU : forall ne r, r < R -> prog tokens_ ne yes r parseUnary).
Context (HT : forall ne r, r < R -> prog tokens_ ne yes r parseTernary).
Context (HS : forall ne r, r < R -> prog tokens_ ne yes r parseStatement).
Local Abbreviation strict ne r m := (prog tokens_ ne yes r m) (only parsing).
Local Abbreviation weak ne r m := (prog tokens_ ne no r m) (only parsing).
Local Hint Resolve HU HT HS : parse.

Lemma strict_expr ne r : r < R -> strict ne r (parseExpr parseTernary).
Proof. apply HT. Qed.
Local Hint Resolve strict_expr : parse.
Lemma weak_arrayMarker ne r : weak ne r (consumeArrayMarker tokens_).
Proof. unfold consumeArrayMarker. prog_tac. Qed.
Local Hint Resolve weak_arrayMarker : parse.
Lemma strict_typeToken ne r c : strict ne r (parseTypeToken tokens_ dialect_ c).
Proof. unfold parseTypeToken. prog_tac. Qed.
Local Hint Resolve strict_typeToken : parse.
Lemma weak_paramList ne r : weak ne r (parseParamList tokens_ dialect_).
Proof. unfold parseParamList, paramRound. prog_tac. Qed.
Local Hint Resolve weak_paramList : parse.
Lemma strict_leftAssoc ne r ops (m : P AstNode) :
  (forall ne' r', r' <= r -> strict ne' r' m) -> strict ne r (leftAssoc tokens_ ops m).
Proof.
  intros Hm. unfold leftAssoc, binaryRound. apply prog_bind_strict; [by apply Hm|]. intros e Hr.
  prog_tac.
Qed.
Local Hint Resolve strict_leftAssoc : parse.

Lemma strict_commaExpr ne r : r < R -> strict ne r (parseCommaExpr tokens_ parseTernary).
Proof. intros Hr. unfold parseCommaExpr. prog_tac. Qed.
Local Hint Resolve strict_commaExpr : parse.
Lemma strict_spreadable ne r : r < R -> strict ne r (parseSpreadable tokens_ parseTernary).
Proof. intros Hr. unfold parseSpreadable. prog_tac. Qed.
Local Hint Resolve strict_spreadable : parse.
Lemma weak_spreadList ne r close : r < R -> weak ne r (parseSpreadList tokens_ parseTernary close).
Proof. intros Hr. unfold parseSpreadList, spreadRound. prog_tac. Qed.
Local Hint Resolve weak_spreadList : parse.
Lemma weak_argList ne r : r < R -> weak ne r (parseArgList tokens_ parseTernary).
Proof. apply weak_spreadList. Qed.
Local Hint Resolve weak_argList : parse.
Lemma strict_callArgs ne r c : r <= R -> strict ne r (parseCallArgs tokens_ parseTernary c).
Proof. intros Hr. unfold parseCallArgs. prog_tac. Qed.
Local Hint Resolve strict_callArgs : parse.
Lemma strict_qualified ne r q : r <= R -> strict ne r (parseQualifiedParentCall tokens_ parseTernary q).
Proof. intros Hr. unfold parseQualifiedParentCall. prog_tac. Qed.
Local Hint Resolve strict_qualified : parse.
Lemma strict_stringLiteral r : strict true r (parseStringLiteral tokens_).
Proof. unfold parseStringLiteral. prog_tac. Qed.
Lemma prog_number {A} ne (q : A -> bool) r w (v : A + num_error) : 
  (forall a, q a = false) -> prog tokens_ ne q r (number w v).
Proof. intros Hq. unfold number. destruct v; [by apply prog_ret|apply prog_throw]. Qed.
Local Hint Resolve prog_number : parse.
Lemma strict_numberLiteral r : strict true r (parseNumberLiteral tokens_).
Proof. unfold parseNumberLiteral. prog_tac. Qed.
Lemma strict_entryValues ne r : r < R -> strict ne r (parseEntryValues tokens_ dialect_ parseTernary).
Proof. intros Hr. unfold parseEntryValues. prog_tac. Qed.
Local Hint Resolve strict_stringLiteral strict_numberLiteral strict_entryValues : parse.
Lemma strict_mapping r : r <= R -> strict true r (parseMappingLiteral tokens_ dialect_ parseTernary).
Proof. intros Hr. unfold parseMappingLiteral, entryRound. prog_tac. Qed.
Lemma strict_hashQuote r : strict true r (parseHashQuote tokens_).
Proof. unfold parseHashQuote. prog_tac. Qed.
Lemma strict_exprs ne r : r < R -> strict ne r (parseExprs tokens_ parseTernary).
Proof. intros Hr. unfold parseExprs, exprRound. prog_tac. Qed.
Local Hint Resolve strict_mapping strict_hashQuote strict_exprs : parse.
Lemma strict_bareName r : r <= R -> strict true r (parseBareNameClosure tokens_ parseTernary).
Proof. intros Hr. unfold parseBareNameClosure. prog_tac. Qed.
Local Hint Resolve strict_bareName : parse.

(** The two rules that use the stacks. *)
Lemma strict_lambda r : r <= R -> strict true r (parseLambda tokens_ parseTernary).
Proof.
  intros Hr. unfold parseLambda. apply prog_bind_strict; [auto with parse|]. intros _ H0.
  apply prog_bind_weak; [auto with parse|]. intros _ s Hs Hrem _. unfold mbind at 1, mmodify at 1.
  set (s0 := s <| lambdaParamMaxStack_ ::= cons 0%Z |> <| lambdaBoundValuesStack_ ::= cons [] |>).
  assert (strict false (pred r) (parseExprs tokens_ parseTernary)) as He by (apply strict_exprs; lia).
  specialize (He s0 Hs Hrem ltac:(done)). unfold mbind at 1.
  destruct (parseExprs tokens_ parseTernary s0) as [[es|e|w|] s1]; try done.
  destruct He as [Hp Hst Hm Hb]. simpl in Hm, Hb. unfold mbind at 1 2, mgets.
  destruct (lambdaParamMaxStack_ s1) as [|p maxes] eqn:Em; [done|].
  destruct (lambdaBoundValuesStack_ s1) as [|vs bounds] eqn:Eb; [done|].
  unfold mbind at 1, mmodify.
  set (s2 := s1 <| lambdaParamMaxStack_ := maxes |> <| lambdaBoundValuesStack_ := bounds |>).
  assert (moved tokens_ false s s2) as H02 by (split; simpl in *; lia || done).
  assert (weak false (pred r) (expectText tokens_ ":" "closure literal" ;;
    expectText tokens_ ")" "closure literal" ;; mret (InlineLambdaExpr es p vs))) as Hk by prog_tac.
  pose proof (mv_pos _ _ _ _ H02) as Hp2.
  specialize (Hk s2 ltac:(lia) ltac:(lia) ltac:(done)).
  destruct ((expectText _ _ _ ;; _) s2) as [[a|e|w|] s3]; try done.
  eapply moved_trans; [exact H02|exact Hk|done].
Qed.
Lemma strict_boundValue r : r <= R -> strict true r (parseBoundValue tokens_ parseTernary).
Proof.
  intros Hr s Hs Hrem Hne. unfold parseBoundValue, mbind at 1, mgets at 1.
  destruct (lambdaBoundValuesStack_ s) as [|vs0 rest0] eqn:E0; [done|].
  set (m := advance tokens_ ;; advance tokens_ ;; valueExpr <- parseCommaExpr tokens_ parseTernary ;;
            expectText tokens_ ")" "$(...) bound value" ;; mret valueExpr).
  assert (strict true r m) as Hm by (subst m; prog_tac). specialize (Hm s Hs Hrem Hne).
  assert (forall (k : AstNode -> P AstNode), (advance tokens_ ;; advance tokens_ ;;
    valueExpr <- parseCommaExpr tokens_ parseTernary ;; expectText tokens_ ")" "$(...) bound value" ;; k valueExpr) s
    = mbind m k s) as ->.
  { intros k. subst m. unfold mbind. destruct (advance tokens_ s) as [[] ?]; try done.
    destruct (advance tokens_ _) as [[] ?]; try done. destruct (parseCommaExpr _ _ _) as [[] ?]; try done.
    by destruct (expectText _ _ _ _) as [[] ?]. }
  unfold mbind at 1. destruct (m s) as [[v|e|w|] s1]; try done. destruct Hm as [Hp Hst Hmx Hb].
  unfold mbind at 1, mgets. destruct (lambdaBoundValuesStack_ s1) as [|vs rest] eqn:E1.
  { rewrite E0 in Hb. done. }
  unfold mbind, mmodify, mret. split; simpl; auto.
Qed.
Local Hint Resolve strict_lambda strict_boundValue : parse.

(** ** Blocks and names *)
Lemma strict_block ne r : r <= R -> strict ne r (parseBlock tokens_ parseStatement).
Proof. intros Hr. unfold parseBlock, blockRound. prog_tac. Qed.
Local Hint Resolve strict_block : parse.
Lemma strict_branch ne r : r < R -> strict ne r (parseBranch tokens_ parseStatement).
Proof. intros Hr. unfold parseBranch. prog_tac. Qed.
Local Hint Resolve strict_branch : parse.
Lemma strict_anonFunction r : r <= R -> strict true r (parseAnonFunction tokens_ dialect_ parseStatement).
Proof. intros Hr. unfold parseAnonFunction. prog_tac. Qed.
Lemma strict_pointerCall r : r <= R -> strict true r (parsePointerCall tokens_ parseTernary).
Proof. intros Hr. unfold parsePointerCall. prog_tac. Qed.
Lemma strict_arrayLiteral r : r <= R -> strict true r (parseArrayLiteral tokens_ parseTernary).
Proof. intros Hr. unfold parseArrayLiteral. prog_tac. Qed.
Lemma strict_parenthesized r : r <= R -> strict true r (parseParenthesized tokens_ parseTernary).
Proof. intros Hr. unfold parseParenthesized. prog_tac. Qed.
Lemma strict_parentCall r : r <= R -> strict true r (parseParentCall tokens_ parseTernary).
Proof. intros Hr. unfold parseParentCall. prog_tac. Qed.
Local Hint Resolve strict_anonFunction strict_pointerCall strict_arrayLiteral strict_parenthesized
  strict_parentCall : parse.

Lemma weak_lambdaParam ne r name : weak ne r (parseLambdaParam name).
Proof.
  intros s Hs Hr Hne. unfold parseLambdaParam, mbind, mgets.
  destruct (lambdaParamMaxStack_ s) as [|top rest] eqn:E; [done|].
  unfold number. destruct (stoi (sdrop 1 name)) as [i|]; simpl; [|done].
  destruct (i <? 1)%Z; [done|]. simpl. split; simpl; try done; try lia; try by rewrite E.
Qed.
Lemma weak_newClass ne r : r < R -> weak ne r (parseNewClass tokens_ parseTernary).
Proof. intros Hr. unfold parseNewClass, fieldRound. prog_tac. Qed.
Lemma weak_efunCall ne r : r < R -> weak ne r (parseEfunCall tokens_ parseTernary).
Proof. intros Hr. unfold parseEfunCall. prog_tac. Qed.
Lemma weak_catch ne r : r < R -> weak ne r (parseCatch tokens_ parseTernary).
Proof. intros Hr. unfold parseCatch. prog_tac. Qed.
Lemma weak_sscanfOutputs ne r i args : weak ne r (sscanfOutputs i args).
Proof.
  revert i. induction args as [|a args IH]; intros i; simpl; [by apply prog_ret|].
  destruct a; try apply prog_throw.
  - apply prog_bind_weak; [apply IH|]. intros. by apply prog_ret.
  - case_match; [apply prog_throw|]. apply prog_bind_weak; [apply IH|]. intros. by apply prog_ret.
Qed.
Local Hint Resolve weak_sscanfOutputs : parse.
Lemma weak_makeSscanf ne r args sp : weak ne r (makeSscanf args sp).
Proof.
  unfold makeSscanf. destruct args as [|a [|b args]]; try apply prog_throw.
  destruct (existsb _ sp); [apply prog_throw|]. prog_tac.
Qed.
Lemma weak_makeCallOther ne r args sp : weak ne r (makeCallOther args sp).
Proof.
  unfold makeCallOther. destruct args as [|a [|b args]]; try apply prog_throw.
  destruct sp as [|x [|y sp]]; try by apply prog_ret. destruct (x || y); [apply prog_throw|by apply prog_ret].
Qed.
Local Hint Resolve weak_lambdaParam weak_newClass weak_efunCall weak_catch weak_makeSscanf weak_makeCallOther : parse.
Lemma weak_call ne r name : r < R -> weak ne r (parseCall tokens_ parseTernary name).
Proof. intros Hr. unfold parseCall. prog_tac. Qed.
Local Hint Resolve weak_call : parse.
Lemma strict_name r : r <= R -> strict true r (parseName tokens_ dialect_ parseTernary parseStatement).
Proof. intros Hr. unfold parseName. prog_tac. Qed.
Local Hint Resolve strict_name : parse.
Lemma strict_primary ne r : r <= R -> strict ne r (parsePrimary tokens_ dialect_ parseTernary parseStatement).
Proof. intros Hr. unfold parsePrimary. prog_tac. Qed.
Local Hint Resolve strict_primary : parse.

(** ** Operators *)
Lemma strict_arrow r e : r <= R -> strict true r (parseArrow tokens_ dialect_ parseTernary e).
Proof. intros Hr. unfold parseArrow. prog_tac. Qed.
Lemma weak_indexRest ne r : r < R -> weak ne r (parseIndexRest tokens_ dialect_ parseTernary).
Proof. intros Hr. unfold parseIndexRest. prog_tac. Qed.
Local Hint Resolve strict_arrow weak_indexRest : parse.
Lemma strict_index r e : r <= R -> strict true r (parseIndex tokens_ dialect_ parseTernary e).
Proof. intros Hr. unfold parseIndex. prog_tac. Qed.
Local Hint Resolve strict_index : parse.
Lemma prog_postfixRound r e : r <= R ->
  prog tokens_ false (goesOn no) r (postfixRound tokens_ dialect_ parseTernary e).
Proof. intros Hr. unfold postfixRound. prog_tac. Qed.
Local Hint Resolve prog_postfixRound : parse.
Lemma strict_postfix ne r : r <= R -> strict ne r (parsePostfix tokens_ dialect_ parseTernary parseStatement).
Proof. intros Hr. unfold parsePostfix. prog_tac. Qed.
Local Hint Resolve strict_postfix : parse.
Lemma strict_assignment ne r :
  r <= R -> strict ne r (parseAssignment tokens_ dialect_ parseTernary parseStatement).
Proof. intros Hr. unfold parseAssignment. prog_tac. Qed.
Lemma strict_prefixIncDec r op : r <= R -> strict true r (parsePrefixIncDec tokens_ parseUnary op).
Proof. intros Hr. unfold parsePrefixIncDec. prog_tac. Qed.
Local Hint Resolve strict_assignment strict_prefixIncDec : parse.

(** A cast, or the position put back. *)
Definition isSome {A} (o : option A) : bool := match o with Some _ => true | None => false end.
Lemma prog_attempt {A} ne r (m : P A) (t : A -> P AstNode) :
  strict ne r m -> (forall a, 0 < r -> weak false (pred r) (t a)) ->
  prog tokens_ ne isSome r
    (save <- mgets pos_ ;; a <- m ;;
     If accept tokens_ ")" Then (e <- t a ;; mret (Some e)) Else (setPos save ;; mret None)).
Proof.
  intros Hm Ht s Hs Hrem Hne. unfold mbind at 1, mgets at 1. specialize (Hm s Hs Hrem Hne).
  unfold mbind at 1. destruct (m s) as [[a|e|w|] s1]; try done.
  assert (pos_ s < pos_ s1 <= length tokens_) as Hlt by (destruct Hm as [H1 H2 _ _]; specialize (H2 eq_refl); lia).
  unfold accept, checkText, mbind at 1 2, mgets. destruct (hasText tokens_ ")" (pos_ s1)).
  - destruct (advance_spec tokens_ s1 ltac:(lia)) as (tok & Ea & _). unfold mbind at 1. rewrite Ea.
    assert (weak false (pred r) (advance tokens_)) as Hw by auto with parse.
    specialize (Hw s1 ltac:(lia) ltac:(lia) ltac:(done)). rewrite Ea in Hw.
    set (s2 := if endAt _ _ then s1 else _) in *. cbn beta iota delta [mret]. unfold mbind at 1.
    pose proof (mv_pos _ _ _ _ Hw) as Hp2. specialize (Ht a ltac:(lia) s2 ltac:(lia) ltac:(lia) ltac:(done)).
    destruct (t a s2) as [[e|e|w|] s3]; try done. simpl.
    eapply (moved_trans _ true false true); [exact Hm| |by left]. by eapply (moved_trans _ false false false).
  - simpl. destruct Hm as [_ _ H3 H4]. split; simpl; try done.
Qed.
Lemma prog_ext {A} ne (q : A -> bool) r (m m' : P A) :
  (forall s, m' s = m s) -> prog tokens_ ne q r m -> prog tokens_ ne q r m'.
Proof. intros E H s Hs Hr Hne. rewrite E. by apply H. Qed.

Lemma prog_typeCast ne r : r <= R -> prog tokens_ ne isSome r (parseTypeCast tokens_ parseUnary).
Proof.
  intros Hr. unfold parseTypeCast. apply prog_if_guard; [pure_tac|guard_tac| |by apply prog_ret].
  eapply prog_ext; [|apply (prog_attempt true r (advance tokens_ ;; advance tokens_ ;; accept tokens_ "*") (fun _ => parseUnary));
    [prog_tac|intros; eauto with parse]].
  intros s. unfold mbind, mgets. simpl.
  destruct (advance tokens_ s) as [[] s1]; try done. destruct (advance tokens_ s1) as [[] s2]; try done.
Qed.
Lemma prog_classCast ne r : r <= R -> prog tokens_ ne isSome r (parseClassCast tokens_ dialect_ parseUnary).
Proof.
  intros Hr. unfold parseClassCast.
  apply prog_if_guard; [pure_tac|guard_tac| |by apply prog_ret].
  eapply prog_ext; [|apply (prog_attempt true r (advance tokens_ ;; advance tokens_ ;; c <- advance tokens_ ;;
      star <- accept tokens_ "*" ;; mret (c, star))
    (fun p => inner <- parseUnary ;; mret (if snd p : bool then inner else TypeCastExpr (text (fst p)) inner)));
    [prog_tac|intros; prog_tac]].
  intros s. unfold mbind, mgets. simpl.
  destruct (advance tokens_ s) as [[] s1]; try done. destruct (advance tokens_ s1) as [[] s2]; try done.
  destruct (advance tokens_ s2) as [[c| | |] s3]; try done.
  destruct (accept tokens_ "*" s3) as [[star| | |] s4]; try done. simpl.
  destruct (accept tokens_ ")" s4) as [[[]| | |] s5]; try done.
  by destruct (parseUnary s5) as [[]].
Qed.
Lemma prog_option {A} ne r (m : P (option AstNode)) (f : option AstNode -> P A) :
  prog tokens_ ne isSome r m -> (forall e, 0 < r -> weak false (pred r) (f (Some e))) ->
  strict false r (f None) -> strict ne r (mbind m f).
Proof.
  intros Hm Hs Hn s H1 H2 H3. specialize (Hm s H1 H2 H3). unfold mbind. destruct (m s) as [[[e|]|e|w|] s1]; try done.
  - assert (pos_ s < pos_ s1 <= length tokens_) as Hlt by (destruct Hm as [? H _ _]; specialize (H eq_refl); lia).
    specialize (Hs e ltac:(lia) s1 ltac:(lia) ltac:(lia) ltac:(done)). destruct (f (Some e) s1) as [[]]; try done.
    eapply moved_trans; [exact Hm|exact Hs|by left].
  - pose proof (mv_pos _ _ _ _ Hm). specialize (Hn s1 ltac:(lia) ltac:(lia) ltac:(done)).
    destruct (f None s1) as [[]]; try done. eapply moved_trans; [exact Hm|exact Hn|by right].
Qed.
Lemma guard_incDecOp : forall s s' op, incDecOp tokens_ s = (Ok (Some op), s') -> s' = s /\ endAt tokens_ (pos_ s) = false.
Proof.
  intros s s' op. unfold incDecOp, checkText, mbind, mgets, mret.
  destruct (hasText tokens_ "++" (pos_ s)) eqn:E1; [|destruct (hasText tokens_ "--" (pos_ s)) eqn:E2; [|done]];
    intros [= _ <-]; (split; [done|]); unfold hasText in *; rewrite !andb_true_iff, negb_true_iff in *; tauto.
Qed.
Lemma strict_unary ne r : r <= R -> strict ne r (unaryRule tokens_ dialect_ parseUnary parseTernary parseStatement).
Proof.
  intros Hr. unfold unaryRule. apply prog_option; [by apply prog_typeCast|intros; by apply prog_ret|].
  apply prog_option; [by apply prog_classCast|intros; by apply prog_ret|].
  do 3 (apply prog_accept_if; [intros; prog_tac|]).
  intros s H1 H2 H3. unfold mbind at 1. destruct (incDecOp tokens_ s) as [[[op|]|e|w|] s1] eqn:E.
  - destruct (guard_incDecOp _ _ _ E) as [-> He]. by apply (strict_prefixIncDec r op Hr).
  - destruct (pure_incDecOp tokens_ s) as [a Ea]. assert (s1 = s) as -> by congruence.
    by apply (strict_assignment false r Hr).
  - by destruct (pure_incDecOp tokens_ s) as [a Ea]; rewrite Ea in E.
  - by destruct (pure_incDecOp tokens_ s) as [a Ea]; rewrite Ea in E.
  - by destruct (pure_incDecOp tokens_ s) as [a Ea]; rewrite Ea in E.
Qed.
End Rules.

Section Ternary.
Context (tokens_ : list Token) (parseUnary parseTernary : P AstNode) (r : nat).
Context (HU : forall ne r', r' <= r -> prog tokens_ ne yes r' parseUnary).
Context (HT : forall ne r', r' < r -> prog tokens_ ne yes r' parseTernary).
Lemma strict_logicalOr ne : prog tokens_ ne yes r (parseLogicalOr tokens_ parseUnary).
Proof. do 10 (apply strict_leftAssoc; intros). apply HU. lia. Qed.
Local Hint Resolve strict_logicalOr HT : parse.
Lemma strict_ternary ne : prog tokens_ ne yes r (ternaryRule tokens_ parseUnary parseTernary).
Proof. unfold ternaryRule. prog_tac. Qed.
End Ternary.

Section Statements.
Context (tokens_ : list Token) (dialect_ : LpcDialect) (parseTernary parseStatement : P AstNode) (R : nat).
Context (HT : forall ne r, r <= R -> prog tokens_ ne yes r parseTernary).
Context (HS : forall ne r, r < R -> prog tokens_ ne yes r parseStatement).
Local Abbreviation strict ne r m := (prog tokens_ ne yes r m) (only parsing).
Local Abbreviation weak ne r m := (prog tokens_ ne no r m) (only parsing).

Lemma strict_expr_s ne r : r <= R -> strict ne r (parseExpr parseTernary).
Proof. apply HT. Qed.
Lemma strict_comma_s ne r : r <= R -> strict ne r (parseCommaExpr tokens_ parseTernary).
Proof. intros Hr. apply (strict_commaExpr tokens_ parseTernary (S R)); [intros; apply HT; lia|lia]. Qed.
Lemma strict_block_s ne r : r <= R -> strict ne r (parseBlock tokens_ parseStatement).
Proof. intros Hr. by apply (strict_block tokens_ parseStatement R). Qed.
Lemma strict_branch_s ne r : r < R -> strict ne r (parseBranch tokens_ parseStatement).
Proof. intros Hr. by apply (strict_branch tokens_ parseStatement R). Qed.
Lemma strict_postfix_s ne r : r <= R -> strict ne r (parsePostfix tokens_ dialect_ parseTernary parseStatement).
Proof. intros Hr. apply (strict_postfix tokens_ dialect_ parseTernary parseStatement R); [|done|done]. intros. apply HT. lia. Qed.
Lemma strict_type_s ne r c : strict ne r (parseTypeToken tokens_ dialect_ c).
Proof. apply strict_typeToken. Qed.
Lemma weak_array_s ne r : weak ne r (consumeArrayMarker tokens_).
Proof. apply weak_arrayMarker. Qed.
Local Hint Resolve strict_expr_s strict_comma_s strict_block_s strict_branch_s strict_postfix_s strict_type_s
  weak_array_s HS : parse.

Lemma strict_chain ne r : r <= R -> strict ne r (parseCommaExprChain tokens_ parseTernary).
Proof. intros Hr. unfold parseCommaExprChain, chainRound. prog_tac. Qed.
Lemma weak_continueChain ne r s : r <= R -> weak ne r (continueStatementCommaChain tokens_ parseTernary s).
Proof. intros Hr. unfold continueStatementCommaChain, chainRound. prog_tac. Qed.
Lemma strict_return ne r : r <= R -> strict ne r (parseReturnStatement tokens_ parseTernary).
Proof. intros Hr. unfold parseReturnStatement. prog_tac. Qed.
Lemma weak_initializer ne r : r <= R -> weak ne r (parseInitializer tokens_ parseTernary).
Proof. intros Hr. unfold parseInitializer. prog_tac. Qed.
Local Hint Resolve strict_chain weak_continueChain weak_initializer strict_return : parse.
Lemma strict_singleVarDecl ne r t a : r <= R -> strict ne r (parseSingleVarDecl tokens_ parseTernary t a).
Proof. intros Hr. unfold parseSingleVarDecl. prog_tac. Qed.
Local Hint Resolve strict_singleVarDecl : parse.
Lemma strict_varDeclStatement ne r : r <= R -> strict ne r (parseVarDeclStatement tokens_ dialect_ parseTernary).
Proof. intros Hr. unfold parseVarDeclStatement, varDeclRound. prog_tac. Qed.
Lemma strict_assignStatement ne r : r <= R -> strict ne r (parseAssignStatement tokens_ parseTernary).
Proof. intros Hr. unfold parseAssignStatement. prog_tac. Qed.
Lemma strict_condition ne r c : r <= R -> strict ne r (parseCondition tokens_ parseTernary c).
Proof. intros Hr. unfold parseCondition. prog_tac. Qed.
Local Hint Resolve strict_varDeclStatement strict_assignStatement strict_condition : parse.
Lemma strict_if ne r : r <= R -> strict ne r (parseIfStatement tokens_ parseTernary parseStatement).
Proof. intros Hr. unfold parseIfStatement. prog_tac. Qed.
Lemma strict_while ne r : r <= R -> strict ne r (parseWhileStatement tokens_ parseTernary parseStatement).
Proof. intros Hr. unfold parseWhileStatement. prog_tac. Qed.
Lemma strict_doWhile ne r : r <= R -> strict ne r (parseDoWhileStatement tokens_ parseTernary parseStatement).
Proof. intros Hr. unfold parseDoWhileStatement. prog_tac. Qed.
Lemma weak_forInit ne r : r <= R -> weak ne r (parseForInit tokens_ dialect_ parseTernary).
Proof. intros Hr. unfold parseForInit. prog_tac. Qed.
Local Hint Resolve strict_if strict_while strict_doWhile weak_forInit : parse.
Lemma strict_for ne r : r <= R -> strict ne r (parseForStatement tokens_ dialect_ parseTernary parseStatement).
Proof. intros Hr. unfold parseForStatement. prog_tac. Qed.
Lemma strict_break ne r : strict ne r (parseBreakStatement tokens_).
Proof. unfold parseBreakStatement. prog_tac. Qed.
Lemma strict_continue ne r : strict ne r (parseContinueStatement tokens_).
Proof. unfold parseContinueStatement. prog_tac. Qed.
Lemma strict_foreachVar ne r : strict ne r (parseForeachVar tokens_ dialect_).
Proof. unfold parseForeachVar. prog_tac. Qed.
Local Hint Resolve strict_for strict_break strict_continue strict_foreachVar : parse.
Lemma strict_foreach ne r : r <= R -> strict ne r (parseForeachStatement tokens_ dialect_ parseTernary parseStatement).
Proof. intros Hr. unfold parseForeachStatement. prog_tac. Qed.
Lemma strict_case r : r <= R -> strict true r (parseCase tokens_ parseTernary).
Proof. intros Hr. unfold parseCase. prog_tac. Qed.
Local Hint Resolve strict_foreach strict_case : parse.
Lemma strict_switch ne r : r <= R -> strict ne r (parseSwitchStatement tokens_ parseTernary parseStatement).
Proof. intros Hr. unfold parseSwitchStatement, switchRound. prog_tac. Qed.
Lemma strict_exprStatement ne r : r <= R -> strict ne r (parseExprStatement tokens_ parseTernary).
Proof. intros Hr. unfold parseExprStatement. prog_tac. Qed.
Local Hint Resolve strict_switch strict_exprStatement : parse.

(** The end of an indexed assignment, once its target is read. *)
Lemma prog_indexAssign ne r : r <= R ->
  prog tokens_ ne isSome r (parseIndexAssignStatement tokens_ dialect_ parseTernary parseStatement).
Proof.
  intros Hr s Hs Hrem Hne. unfold parseIndexAssignStatement. unfold mbind at 1, mgets at 1.
  pose proof (strict_postfix_s ne r Hr s Hs Hrem Hne) as Hp. unfold mbind at 1.
  destruct (parsePostfix _ _ _ _ s) as [[target|e|w|] s1]; try done.
  assert (pos_ s < pos_ s1 <= length tokens_) as Hlt by (destruct Hp as [H1 H2 _ _]; specialize (H2 eq_refl); lia).
  assert (moved tokens_ false s (s1 <| pos_ := pos_ s |>)) as Hback by (destruct Hp; split; simpl; try done; lia).
  set (op := match target with IndexExpr _ _ _ _ _ _ => assignOp tokens_ | _ => mret None end).
  assert (pureP op) as Hop by (subst op; destruct target; auto with parse).
  unfold mbind at 1. destruct (Hop s1) as [o ->].
  destruct target; try exact Hback. destruct o as [[c op']|]; [|exact Hback].
  match goal with |- match ?m s1 with _ => _ end => assert (weak false r m) as Hm by prog_tac end.
  specialize (Hm s1 ltac:(lia) ltac:(lia) ltac:(done)).
  destruct (mbind _ _ s1) as [[a|e|w|] s2]; try done.
  eapply (moved_trans _ true false); [exact Hp|exact Hm|by left].
Qed.
Lemma strict_statement ne r :
  r <= R -> strict ne r (statementRule tokens_ dialect_ parseTernary parseStatement).
Proof.
  intros Hr. unfold statementRule. prog_step; [intros; by apply prog_ret|].
  do 12 (prog_step; [prog_tac|]).
  prog_step; [|prog_tac]. apply prog_option; [by apply prog_indexAssign|intros; by apply prog_ret|prog_tac].
Qed.
End Statements.

(** ** The recursion *)
Definition enough (tokens : list Token) (r : rule) (k : nat) : nat :=
  3 * k + match r with Unary => 1 | Ternary => 2 | Statement => 3 end.
Lemma strict_parse tokens_ dialect_ fuel r ne k : enough tokens_ r k <= fuel ->
  prog tokens_ ne yes k (parse tokens_ dialect_ fuel r).
Proof.
  revert r ne k. induction fuel as [|fuel IH]; intros r ne k Hk; unfold enough in *; [destruct r; lia|].
  intros s. destruct r; simpl; revert s.
  - apply (strict_unary _ _ _ _ _ k); [..|lia]; intros; apply IH; simpl; lia.
  - apply strict_ternary; intros; apply IH; simpl; lia.
  - apply (strict_statement _ _ _ _ k); [..|lia]; intros; apply IH; simpl; lia.
Qed.

(** ** Declarations *)
Section Declarations.
Context (tokens_ : list Token) (dialect_ : LpcDialect) (fuel : nat).
Context (Hfuel : enough tokens_ Statement (length tokens_) <= fuel).
(** As the lexer guarantees. *)
Context (Hend : exists ts t, tokens_ = ts ++ [t] /\ ttype t = TEnd).
Local Abbreviation n := (length tokens_) (only parsing).
Local Abbreviation strict ne r m := (prog tokens_ ne yes r m) (only parsing).
Local Abbreviation weak ne r m := (prog tokens_ ne no r m) (only parsing).

Lemma strict_ternary_p ne r : r <= n -> strict ne r (parse tokens_ dialect_ fuel Ternary).
Proof. intros Hr. apply strict_parse. unfold enough in *. lia. Qed.
Lemma strict_statement_p ne r : r <= n -> strict ne r (parse tokens_ dialect_ fuel Statement).
Proof. intros Hr. apply strict_parse. unfold enough in *. lia. Qed.
Lemma strict_block_p ne r : r <= n -> strict ne r (parseBlock tokens_ (parse tokens_ dialect_ fuel Statement)).
Proof. intros Hr. apply (strict_block _ _ n); [intros; apply strict_statement_p; lia|done]. Qed.
Lemma weak_initializer_p ne r : r <= n -> weak ne r (parseInitializer tokens_ (parse tokens_ dialect_ fuel Ternary)).
Proof. intros Hr. apply (weak_initializer _ _ n); [intros; apply strict_ternary_p; lia|done]. Qed.
Local Hint Resolve strict_ternary_p strict_statement_p strict_block_p weak_initializer_p strict_typeToken
  weak_arrayMarker weak_paramList : parse.

Lemma weak_declType ne r : weak ne r (parseDeclType tokens_ dialect_).
Proof. unfold parseDeclType. prog_tac. Qed.
Local Hint Resolve weak_declType : parse.
Lemma strict_declPrefix ne r c : strict ne r (parseDeclPrefix tokens_ dialect_ c).
Proof. unfold parseDeclPrefix, modifierRound. prog_tac. Qed.
Lemma strict_functionRest ne r p : r <= n -> strict ne r (parseFunctionRest tokens_ dialect_ fuel p).
Proof. intros Hr. unfold parseFunctionRest. prog_tac. Qed.
Lemma strict_objectVarRest ne r p : r <= n -> strict ne r (parseObjectVarDeclRest tokens_ dialect_ fuel p).
Proof. intros Hr. unfold parseObjectVarDeclRest, objectVarRound. prog_tac. Qed.
Lemma strict_inheritPath ne r : strict ne r (parseInheritPathString tokens_).
Proof. unfold parseInheritPathString, inheritRound. prog_tac. Qed.
Local Hint Resolve strict_declPrefix strict_functionRest strict_objectVarRest strict_inheritPath : parse.
Lemma strict_inherit ne r p : strict ne r (parseInheritStatement tokens_ p).
Proof. unfold parseInheritStatement. prog_tac. Qed.
Lemma strict_members ne r names : strict ne r (rounds (maxRounds tokens_) (memberRound tokens_) names).
Proof. apply prog_rounds. intros. unfold memberRound. prog_tac. Qed.
Local Hint Resolve strict_inherit strict_members : parse.
Lemma strict_classDecl ne r : strict ne r (parseClassDecl tokens_ dialect_).
Proof. unfold parseClassDecl, classRound, memberRound. prog_tac. Qed.
Lemma weak_advanceBy ne r k : weak ne r (advanceBy tokens_ k).
Proof. revert ne r. induction k as [|k IH]; intros ne r; simpl; [by apply prog_ret|]. prog_tac. Qed.
Local Hint Resolve strict_classDecl weak_advanceBy : parse.

Lemma tokenAt_end i : n <= S i -> isModifierKeyword dialect_ (tokenAt tokens_ i) = false.
Proof.
  intros Hi. destruct Hend as (ts & t & E & Ht).
  assert (tokenAt tokens_ i = t) as ->; [|unfold isModifierKeyword; by rewrite Ht].
  unfold tokenAt. rewrite E in *. rewrite length_app in *. simpl in *.
  replace (if (i <? _)%nat then i else _) with (length ts); [by rewrite list_lookup_middle|].
  destruct (Nat.ltb_spec i (length ts + 1)); lia.
Qed.
Lemma pure_countModifiers : pureP (countModifiers tokens_ dialect_).
Proof.
  intros s. unfold countModifiers.
  assert (forall f k, n <= k + f -> exists k', rounds (S f) (fun lookahead =>
    t <- peekAt tokens_ lookahead ;;
    if isModifierKeyword dialect_ t then again (S lookahead) else done lookahead) k s = (Ok k', s)) as H.
  { induction f as [|f IH]; intros k Hk.
    - exists k. simpl. unfold mbind, peekAt, mgets. rewrite tokenAt_end by lia. done.
    - destruct (isModifierKeyword dialect_ (tokenAt tokens_ (pos_ s + k))) eqn:E.
      + destruct (IH (S k)) as [k' Hk']; [lia|]. exists k'. rewrite <- Hk'.
        change (rounds (S (S f)) ?b k s) with (mbind (b k) (fun r => match r with inl a => rounds (S f) b a | inr a => mret a end) s).
        unfold mbind at 1 2, peekAt at 1, mgets. by rewrite E.
      + exists k. simpl. unfold mbind, peekAt, mgets. by rewrite E. }
  apply H. lia.
Qed.
Local Hint Resolve pure_countModifiers : parse.

Lemma prog_programRound p : prog tokens_ false (goesOn no) n (programRound tokens_ dialect_ fuel p).
Proof. unfold programRound. prog_tac. Qed.
Lemma weak_program : weak false n (parseProgram tokens_ dialect_ fuel).
Proof. unfold parseProgram. apply prog_rounds. intros p. apply prog_programRound. Qed.
End Declarations.

Lemma weak_tokens dialect tokens t fuel : ttype t = TEnd -> 3 * length (tokens ++ [t]) + 3 <= fuel ->
  match parseTokens fuel dialect (tokens ++ [t]) with
  | Ok _ | Throw _ => True
  | Undefined _ | OutOfFuel => False
  end.
Proof.
  intros Ht Hf. unfold parseTokens.
  assert (prog (tokens ++ [t]) false no (length (tokens ++ [t])) (parseProgram (tokens ++ [t]) dialect fuel)) as H.
  { apply weak_program; [unfold enough; lia|]. by exists tokens, t. }
  specialize (H newParser ltac:(simpl; lia) ltac:(simpl; lia) ltac:(done)).
  by destruct (parseProgram _ _ _ newParser) as [[]].
Qed.

(** C18: The parser returns on every token list the lexer can make: three units of
    fuel per token are enough, and no step is undefined behaviour. *)
Theorem parse_total dialect tokens t fuel :
  ttype t = TEnd -> 3 * length (tokens ++ [t]) + 3 <= fuel ->
  match parseTokens fuel dialect (tokens ++ [t]) with
  | Ok _ | Throw _ => True
  | Undefined _ | OutOfFuel => False
  end.
Proof. apply weak_tokens. Qed.

(** A source whose parse goes through a lambda, a cast and an assignment. *)
Definition sample : list Token :=
  [mkToken TKeyword "int" 1; mkToken TIdent "f" 1; mkToken TSymbol "(" 1; mkToken TSymbol ")" 1;
   mkToken TSymbol "{" 1; mkToken TIdent "a" 2; mkToken TSymbol "[" 2; mkToken TNumber "1" 2;
   mkToken TSymbol "]" 2; mkToken TSymbol "=" 2; mkToken TSymbol "(" 2; mkToken TSymbol ":" 2;
   mkToken TIdent "$1" 2; mkToken TSymbol "+" 2; mkToken TSymbol "$" 2; mkToken TSymbol "(" 2;
   mkToken TIdent "b" 2; mkToken TSymbol ")" 2; mkToken TSymbol ":" 2; mkToken TSymbol ")" 2;
   mkToken TSymbol ";" 2; mkToken TSymbol "}" 3].
Lemma parse_total_witness :
  match parseTokens 100 FluffOS (sample ++ [mkToken TEnd "" 3]) with
  | Ok _ | Throw _ => True
  | Undefined _ | OutOfFuel => False
  end.
Proof. apply (parse_total FluffOS sample (mkToken TEnd "" 3) 100); [reflexivity|simpl; lia]. Defined.
Example sample_parses : exists fs, parseTokens 100 FluffOS (sample ++ [mkToken TEnd "" 3]) =
  Ok (mkProgramAst fs [] [] []) /\ length fs = 1.
Proof. vm_compute. eexists. split; reflexivity. Qed.
