(* ===== verification/CompileFacts.v ===== *)
(** * CompileFacts: properties of ObjectManager::compile

    Compiling a file and what it inherits ends, throws nothing and changes
    nothing but the store of programs and its cache; the store stays acyclic
    and every program keeps the variables of its ancestors where its table of
    offsets says; and the cache gives back what it was given. *)
From S2P Require Import Prelude ParserFacts CLib Value Bytecode Lookup Lexer LexerFacts Config Network Machine Ast CodeGen CodeGenProgram Parser Preprocess PreprocessFacts ObjectManager.
From Stdlib Require Import ConstructiveEpsilon.
Local Open Scope Z_scope.

(** ** Where the variables of an ancestor are *)
Definition segment (b : Z) (part names : list string) : Prop :=
  exists pre post, names = pre ++ part ++ post /\ Z.of_nat (length pre) = b.
Lemma segment_trans b c l m n : segment b l m -> segment c m n -> segment (c + b) l n.
Proof.
  intros (p1 & q1 & -> & <-) (p2 & q2 & -> & <-). exists (p2 ++ p1), (q1 ++ q2).
  rewrite length_app, <- !app_assoc. split; [done|lia].
Qed.
Lemma segment_prefix b l m n : segment b l m -> m `prefix_of` n -> segment b l n.
Proof. intros (p & q & -> & Hb) [k ->]. exists p, (q ++ k). by rewrite <- !app_assoc. Qed.
Lemma segment_fits b l m : segment b l m -> fits_int m -> fits_int l.
Proof. intros (p & q & -> & _). unfold fits_int. rewrite !length_app. lia. Qed.

(** [q] is an ancestor of [p], by the table of [p]. *)
Definition ancestor (P : programs) (p q : pid) : Prop := is_Some (ancestorBaseOffsets (prog P p) !! q).
Abbreviation names P p := (objectVarNames (prog P p)).

Record store_ok (P : programs) : Prop := {
  store_acyclic : acyclic P;
  store_parents : forall p q, In (Some q) (inheritedPrograms (prog P p)) -> ancestor P p q;
  store_known : forall p q, ancestor P p q -> q ∈ dom P;
  store_trans : forall p q r, ancestor P p q -> ancestor P q r -> ancestor P p r;
  store_layout : forall p q b, ancestorBaseOffsets (prog P p) !! q = Some b -> fits_int (names P p) ->
    segment b (names P q) (names P p)
}.

Lemma prog_stays (P P' : programs) p : P ⊆ P' -> p ∈ dom P -> prog P' p = prog P p.
Proof.
  intros Hs [pr Hp]%elem_of_dom. unfold prog. by rewrite Hp, (lookup_weaken _ _ _ _ Hp Hs).
Qed.
Lemma prog_new (P : programs) q pr : prog (<[q := pr]> P) q = pr.
Proof. unfold prog. by rewrite lookup_insert_eq. Qed.
Lemma prog_old (P : programs) q pr p : p <> q -> prog (<[q := pr]> P) p = prog P p.
Proof. intros. unfold prog. by rewrite lookup_insert_ne. Qed.

(** What is gathered from the parents. *)
Record gathered (P : programs) (i : Inherited) : Prop := {
  gathered_parents : forall q, In (Some q) (parents i) -> is_Some (baseOffsets i !! q);
  gathered_known : forall q, is_Some (baseOffsets i !! q) -> q ∈ dom P;
  gathered_trans : forall q r, is_Some (baseOffsets i !! q) -> ancestor P q r -> is_Some (baseOffsets i !! r);
  gathered_layout : forall q b, baseOffsets i !! q = Some b -> fits_int (inheritedVarNames i) ->
    segment b (names P q) (inheritedVarNames i)
}.
Lemma gathered_nil P : gathered P (mkInherited [] [] ∅).
Proof. split; simpl; try done; intros q; rewrite lookup_empty; by try intros [? ?]. Qed.
Lemma gathered_mono P P' i : P ⊆ P' -> gathered P i -> gathered P' i.
Proof.
  intros Hs [H1 H2 H3 H4]. split; [done| | |].
  - intros q Hq. apply (subseteq_dom P P' Hs). auto.
  - intros q r Hq. unfold ancestor. rewrite (prog_stays P P') by auto. apply H3, Hq.
  - intros q b Hq. rewrite (prog_stays P P') by eauto. by apply H4.
Qed.

Lemma base_lookup (q : pid) base (anc old : gmap pid Z) r :
  ((Z.add base <$> anc) ∪ <[q := base]> old) !! r =
  match anc !! r with Some b => Some (base + b) | None => if decide (q = r) then Some base else old !! r end.
Proof.
  rewrite lookup_union, lookup_fmap. destruct (anc !! r) as [b|]; simpl.
  - by destruct (<[q := base]> old !! r).
  - rewrite (left_id_L None _). case_decide as E; [subst; apply lookup_insert_eq|by apply lookup_insert_ne].
Qed.

Lemma gathered_add P q i : store_ok P -> q ∈ dom P -> gathered P i ->
  gathered P (addParent q (prog P q) i).
Proof.
  intros Hp Hq [H1 H2 H3 H4]. unfold addParent. split; cbn [parents baseOffsets inheritedVarNames].
  - intros r Hr. rewrite base_lookup. destruct (ancestorBaseOffsets (prog P q) !! r); [by eexists|].
    case_decide as E; [by eexists|]. apply H1. apply in_app_or in Hr as [Hr|[[= ?]|[]]]; [done|by destruct E].
  - intros r. rewrite base_lookup. destruct (ancestorBaseOffsets (prog P q) !! r) as [b|] eqn:E.
    + intros _. apply (store_known P Hp q). unfold ancestor. by rewrite E.
    + case_decide; [by subst|]. apply H2.
  - intros r t. rewrite !base_lookup. intros Hr Ht.
    destruct (ancestorBaseOffsets (prog P q) !! t) eqn:E; [by eexists|]. destruct (decide (q = t)); [by eexists|].
    destruct (ancestorBaseOffsets (prog P q) !! r) eqn:Er.
    + destruct (store_trans P Hp q r t) as [b E2]; [by eexists|done|congruence].
    + destruct (decide (q = r)) as [<-|]; [|by apply (H3 r)]. destruct Ht as [b E3]. congruence.
  - intros r b. rewrite base_lookup. intros Hb Hf.
    assert (int_of (length (inheritedVarNames i)) = Z.of_nat (length (inheritedVarNames i))) as Ei.
    { unfold fits_int in Hf. rewrite length_app in Hf. apply wrap_id; lia. }
    rewrite Ei in Hb. assert (segment (Z.of_nat (length (inheritedVarNames i))) (names P q) (inheritedVarNames i ++ names P q)) as Hs.
    { exists (inheritedVarNames i), []. by rewrite app_nil_r. }
    destruct (ancestorBaseOffsets (prog P q) !! r) as [b'|] eqn:E.
    + injection Hb as <-. eapply segment_trans; [|exact Hs]. by apply (store_layout P Hp); [|eapply segment_fits].
    + case_decide as E2; [injection Hb as <-; by subst|]. eapply segment_prefix; [|by eexists].
      apply H4; [done|]. unfold fits_int in *. rewrite length_app in Hf. lia.
Qed.

(** A new program over its parents. *)
Lemma store_insert P i p pr : store_ok P -> gathered P i -> p ∉ dom P ->
  inheritedPrograms pr = parents i -> ancestorBaseOffsets pr = baseOffsets i ->
  inheritedVarNames i `prefix_of` objectVarNames pr -> store_ok (<[p := pr]> P).
Proof.
  intros [[rank Ha] Hpar Hk Ht Hl] [G1 G2 G3 G4] Hnew E1 E2 Hpre.
  assert (forall q, q ∈ dom P -> q <> p) as Hne by (intros q Hq ->; done).
  assert (forall q x, q <> p -> ancestor P q x -> x <> p) as Hx by (intros q x _ Hq; by apply Hne, (Hk q)).
  split.
  - set (top := S (list_max (map rank (elements (dom P))))).
    exists (fun x => if decide (x = p) then top else rank x). intros x q. destruct (decide (x = p)) as [->|N].
    + rewrite prog_new, E1. intros Hq. assert (q ∈ dom P) as Hd by auto. rewrite decide_False by auto.
      pose proof (proj1 (list_max_le (map rank (elements (dom P))) _) (le_n _)) as Hm.
      rewrite List.Forall_forall in Hm. apply Nat.lt_succ_r, Hm. by apply in_map, list_elem_of_In, elem_of_elements.
    + rewrite prog_old by done. intros Hq. rewrite decide_False by (eapply Hx; [exact N|by apply Hpar]). by apply Ha.
  - intros x q. unfold ancestor. destruct (decide (x = p)) as [->|N].
    + rewrite prog_new, E1, E2. apply G1.
    + rewrite prog_old by done. apply Hpar.
  - intros x q. rewrite dom_insert_L, elem_of_union. right. revert H. unfold ancestor. destruct (decide (x = p)) as [->|N].
    + rewrite prog_new, E2. apply G2.
    + rewrite prog_old by done. apply Hk.
  - intros x q r. unfold ancestor. destruct (decide (x = p)) as [->|N].
    + rewrite prog_new, E2. intros Hq. rewrite prog_old by auto. by apply G3.
    + rewrite (prog_old _ _ _ x) by done. intros Hq. rewrite prog_old by (by eapply Hx). by apply Ht.
  - intros x q b. destruct (decide (x = p)) as [->|N].
    + rewrite prog_new, E2. intros Hq Hf. rewrite prog_old by eauto. eapply segment_prefix; [|done]. apply G4; [done|].
      unfold fits_int in *. apply prefix_length in Hpre. lia.
    + rewrite (prog_old _ _ _ x) by done. intros Hq. rewrite prog_old by (eapply Hx; [exact N|by eexists]). by apply Hl.
Qed.

(** ** What compiling may change *)

(** All but the programs, their cache and the log. *)
Definition world (s : VMState) : VMState :=
  s <| programStore := ∅ |> <| stderrLog := [] |>
    <| om ::= fun m => m <| programCache := ∅ |> <| programSource := ∅ |> |>.
Record Inv (s : VMState) : Prop := {
  inv_store : store_ok (programStore s);
  inv_cached : forall f p, programCache (om s) !! f = Some p -> p ∈ dom (programStore s)
}.
Record Kept (s s' : VMState) : Prop := {
  kept_world : world s' = world s;
  kept_store : programStore s ⊆ programStore s';
  kept_inv : Inv s'
}.
Lemma world_om {A} (f : ObjMgr -> A) s s' : (forall m, f (m <| programCache := ∅ |> <| programSource := ∅ |>) = f m) ->
  world s' = world s -> f (om s') = f (om s).
Proof. intros Hf H. rewrite <- (Hf (om s')), <- (Hf (om s)). exact (f_equal (fun x => f (om x)) H). Qed.
Lemma world_config s s' : world s' = world s -> config s' = config s.
Proof. intros H. exact (f_equal config H). Qed.

Lemma Kept_refl s : Inv s -> Kept s s.
Proof. by split. Qed.
Lemma Kept_trans a b c : Kept a b -> Kept b c -> Kept a c.
Proof. intros [] []. split; [congruence|by etrans|done]. Qed.

(** [ends thr s r Q]: [r] is how a computation that started in [s] ended: it
    did not run out of fuel, threw only if [thr], and [Q] holds if it
    returned. *)
Definition ends {A} (thr : bool) (s : VMState) (r : outcome exn A * VMState) (Q : A -> VMState -> Prop) : Prop :=
  Kept s (snd r) /\
  match fst r with Ok a => Q a (snd r) | Throw _ => thr = true | Undefined _ => True | OutOfFuel => False end.

Lemma ends_ret {A} thr s (a : A) Q : Inv s -> Q a s -> ends thr s (mret a s) Q.
Proof. intros Hs HQ. split; [by apply Kept_refl|done]. Qed.
Lemma ends_bind {A B} thr s (m : VM A) (k : A -> VM B) Q R :
  ends thr s (m s) Q -> (forall a s1, Kept s s1 -> Q a s1 -> ends thr s1 (k a s1) R) ->
  ends thr s (mbind m k s) R.
Proof.
  intros [H1 H2] Hk. unfold mbind. destruct (m s) as [[a|e|w|] s1]; try done.
  destruct (Hk a s1 H1 H2) as [K HR]. split; [by eapply Kept_trans|done].
Qed.
Lemma ends_gets {A B} thr s (f : VMState -> A) (k : A -> VM B) R :
  ends thr s (k (f s) s) R -> ends thr s (mbind (mgets f) k s) R.
Proof. done. Qed.
Lemma ends_getOm {A B} thr s (f : ObjMgr -> A) (k : A -> VM B) R :
  ends thr s (k (f (om s)) s) R -> ends thr s (mbind (getOm f) k s) R.
Proof. done. Qed.
Lemma ends_lift {A B} s (o : outcome exn A) (k : A -> VM B) R : Inv s -> o <> OutOfFuel ->
  (forall a, o = Ok a -> ends true s (k a s) R) -> ends true s (mbind (mlift o) k s) R.
Proof.
  intros Hs Ho Hk. unfold mbind, mlift. destruct o as [a|e|w|]; [by apply Hk|..|done]; (split; [by apply Kept_refl|done]).
Qed.
Lemma ends_catch {A} thr s (m : VM A) h Q :
  ends true s (m s) Q -> (forall e s1, Kept s s1 -> ends thr s1 (h e s1) Q) -> ends thr s (mcatch m h s) Q.
Proof.
  intros [H1 H2] Hh. unfold mcatch. destruct (m s) as [[a|e|w|] s1]; try done.
  destruct (Hh e s1 H1) as [K HQ]. split; [by eapply Kept_trans|done].
Qed.
Lemma ends_weaken {A} thr s (r : outcome exn A * VMState) Q Q' :
  ends thr s r Q -> (forall a s', Kept s s' -> Q a s' -> Q' a s') -> ends thr s r Q'.
Proof. intros [H1 H2] HQ. split; [done|]. destruct (fst r); auto. Qed.
Lemma ends_say {A} thr s msg (a : A) Q : Inv s -> (forall s', Kept s s' -> Q a s') ->
  ends thr s ((say msg ;; mret a) s) Q.
Proof.
  intros [Hs Hc] HQ. assert (Kept s (s <| stderrLog ::= cons msg |>)) as K by (split; [done|done|by split]).
  split; [exact K|]. by apply HQ.
Qed.

(** The names in progress are put back. *)
Definition busy (f : string) (s : VMState) : VMState := modOm (setCompiling (union {[ f ]})) s.
Lemma Inv_busy f s : Inv s -> Inv (busy f s).
Proof. by intros []. Qed.
Lemma busy_done f s : f ∉ compiling (om s) -> modOm (setCompiling (fun x => x ∖ {[ f ]})) (busy f s) = s.
Proof.
  intros Hf. assert (({[ f ]} ∪ compiling (om s)) ∖ {[ f ]} = compiling (om s)) as E by set_solver.
  destruct s as [? ? ? ? ? ? ? ? ? ? ? ? ? ? ? ? ? ? ? ? ? []]. cbn in E.
  unfold busy, modOm, setCompiling, set_field; cbn. by rewrite E.
Qed.
Lemma world_progress g s : world (modOm (setCompiling g) s) = modOm (setCompiling g) (world s).
Proof. reflexivity. Qed.
Lemma ends_progress {A} thr s f (m : VM A) Q : f ∉ compiling (om s) ->
  (forall a g s', Q a s' -> Q a (modOm (setCompiling g) s')) ->
  ends thr (busy f s) (m (busy f s)) Q -> ends thr s (inProgress setCompiling f m s) Q.
Proof.
  intros Hf HQ [[Hw Hs [Hi1 Hi2]] H]. unfold inProgress, mfinally. fold (busy f s) in *.
  destruct (m (busy f s)) as [o s']. cbn [fst snd] in *. split.
  - split; cbn [snd]; [|done|by split].
    rewrite world_progress, Hw, <- world_progress. by rewrite busy_done.
  - cbn [fst snd]. destruct o; auto.
Qed.

(** ** Compiling ends *)
Lemma parseSource_ends d t : parseSource d t <> OutOfFuel.
Proof.
  unfold parseSource. destruct (dialectFromString d) as [x|e|w|] eqn:Ed; cbn [obind]; try done.
  2: { unfold dialectFromString in Ed. by repeat case_match. }
  pose proof (tokenize_ends x t) as H. destruct (tokenize x t) as [ts|e|w|]; cbn [obind]; try done.
  destruct H as (body & e & -> & He).
  pose proof (weak_tokens x body e (parseFuel (body ++ [e])) He (le_n _)) as H. intros E. by rewrite E in H.
Qed.

Section Stage.
Context (cpp : string -> string -> bool * string * string) (efunExists : string -> bool).

Lemma preprocess_ends c fs path f : exists r, preprocess cpp efunExists c fs path f = Ok r.
Proof.
  unfold preprocess, stageSourceForPreprocessing. destruct (openFile fs path) as [t|]; [|by eexists].
  set (ds := splitIncludeDirs _ _).
  match goal with |- context [fst (?m (mkPP ∅ ∅))] => assert (settles m) as Hm end.
  { apply settles_bind.
    - unfold stagePrefix. destruct (String.eqb _ _); [apply settles_ret|].
      destruct (globalHeader _ _ _); apply rewriteIncludes_settles.
    - intros p. apply settles_bind; [apply rewriteIncludes_settles|]. intros b. apply settles_ret. }
  destruct (Hm (mkPP ∅ ∅)) as (t1 & s1 & -> & _). cbn [fst obind].
  destruct (rewriteEfunDefined_total efunExists t1) as (t2 & -> & _). cbn [obind]. by eexists.
Qed.

Context (genFuel : Program -> list string -> nat).
Context (genFuel_ok : forall p l, CodeGen.compile (genFuel p l) p l <> OutOfFuel).

(** A file was compiled: the cache has the program and its source. *)
Definition cachedNow (f : string) (p : pid) (s : VMState) : Prop :=
  programCache (om s) !! f = Some p /\
  cacheHit (openFile (disk (om s)) (sourcePath (config s) f)) (programSource (om s) !! f) = true.

Lemma ends_inherits s0 rec path ps i : forall s, Inv s -> world s = world s0 -> gathered (programStore s) i ->
  (forall p s, Inv s -> world s = world s0 -> ends false s (rec p s) (fun r s' => forall q, r = Some q -> q ∈ dom (programStore s'))) ->
  ends true s (compileInherits rec path ps i s) (fun r s' => forall i', r = Some i' -> gathered (programStore s') i').
Proof.
  revert i. induction ps as [|p ps IH]; intros i s Hs Hw Hi Hrec; cbn [compileInherits].
  { apply ends_ret; [done|]. by intros i' [= <-]. }
  eapply ends_bind with (Q := fun r s' => forall q, r = Some q -> q ∈ dom (programStore s')).
  { destruct (Hrec p s Hs Hw) as [K H]. split; [done|]. by destruct (rec p s) as [[] ?]. }
  intros [q|] s1 [Kw Ks Ki] Hq.
  - apply ends_gets. apply IH; [done|congruence| |done].
    apply gathered_add; [apply Ki|by apply Hq|]. by eapply gathered_mono.
  - by apply ends_say.
Qed.

(** A program that is registered under its file. *)
Lemma register_ends s f i pr t : Inv s -> gathered (programStore s) i ->
  inheritedPrograms pr = parents i -> ancestorBaseOffsets pr = baseOffsets i ->
  inheritedVarNames i `prefix_of` objectVarNames pr ->
  cacheHit (openFile (disk (om s)) (sourcePath (config s) f)) (Some t) = true ->
  ends true s ((p <- newProgram pr ;;
    mmodify (modOm (fun m => m <| programCache ::= insert f p |> <| programSource ::= insert f t |>)) ;;
    mret (Some p)) s)
    (fun r s' => forall p, r = Some p -> cachedNow f p s' /\ p ∉ dom (programStore s)).
Proof.
  intros [Hs Hc] Hi E1 E2 Hp Ht. set (q := fresh (dom (programStore s))).
  assert (q ∉ dom (programStore s)) as Hq by apply is_fresh.
  assert (programStore s ⊆ <[q := pr]> (programStore s)) as Hsub.
  { apply insert_subseteq. by apply not_elem_of_dom. }
  split; cbn; fold q.
  - split; [done|exact Hsub|]. split; [by eapply store_insert|]. intros g p. cbn. rewrite dom_insert_L.
    rewrite lookup_insert_Some. intros [[_ <-]|[_ H]]; [set_solver|]. specialize (Hc g p H). set_solver.
  - intros p [= <-]. split; [|done]. unfold cachedNow; cbn. by rewrite !lookup_insert_eq.
Qed.

Lemma cacheHit_same o t : o = Some t -> cacheHit o (Some t) = true.
Proof. intros ->. unfold cacheHit. by rewrite bool_decide_eq_true_2. Qed.

Lemma ends_text s0 rec f path text t s : Inv s -> world s = world s0 ->
  openFile (disk (om s0)) (sourcePath (config s0) f) = Some t ->
  (forall p s, Inv s -> world s = world s0 -> ends false s (rec p s) (fun r s' => forall q, r = Some q -> q ∈ dom (programStore s'))) ->
  ends true s (compileText genFuel rec f path text t s) (fun r s' => forall p, r = Some p -> cachedNow f p s' /\ p ∉ dom (programStore s)).
Proof.
  intros Hs Hw Ht Hrec. unfold compileText. apply ends_gets. apply ends_lift; [done|apply parseSource_ends|].
  intros ast _. eapply ends_bind; [apply (ends_inherits s0); [done|done|apply gathered_nil|done]|].
  intros [i|] s1 [Kw Ks Ki] Hg; cbv beta in Hg; [|by apply ends_ret].
  apply ends_lift; [done|apply genFuel_ok|]. intros code_ Hc. apply compile_names in Hc.
  eapply ends_weaken; [apply (register_ends s1 f i); auto|].
  - apply cacheHit_same. rewrite <- Ht, (world_config s0 s1) by congruence. f_equal. apply world_om; [done|congruence].
  - intros r s2 K H p E. destruct (H p E) as [H1 H2]. split; [done|]. intros Hp. apply H2. by apply (subseteq_dom _ _ Ks).
Qed.

Lemma ends_source s rec f : Inv s ->
  (openFile (disk (om s)) (sourcePath (config s) f) <> None ->
   forall p s1, Inv s1 -> world s1 = world s -> ends false s1 (rec p s1) (fun r s' => forall q, r = Some q -> q ∈ dom (programStore s'))) ->
  ends false s (compileSource cpp efunExists genFuel rec f (sourcePath (config s) f) (openFile (disk (om s)) (sourcePath (config s) f)) s)
    (fun r s' => forall p, r = Some p -> cachedNow f p s' /\ p ∉ dom (programStore s)).
Proof.
  intros Hs Hrec. unfold compileSource. destruct (openFile _ _) as [t|] eqn:Et; [|by apply ends_say].
  apply ends_gets, ends_getOm. destruct (preprocess_ends (config s) (disk (om s)) (sourcePath (config s) f) f) as [[text|err] ->].
  - change (mbind (mlift (Ok ?x)) ?k s) with (k x s). cbv beta iota. apply ends_catch.
    + by apply (ends_text s); auto.
    + intros e s1 K. by apply ends_say; [apply K|].
  - change (mbind (mlift (Ok ?x)) ?k s) with (k x s). by apply ends_say.
Qed.
End Stage.

Lemma sapp_inj_r a b c : a +:+ c = b +:+ c -> a = b.
Proof.
  revert b. induction a as [|x a IH]; intros [|y b] H; try done; rewrite ?sapp_nil_l, ?sapp_cons in H.
  - apply (f_equal String.length) in H. cbn in H. rewrite slength_app in H. lia.
  - apply (f_equal String.length) in H. cbn in H. rewrite slength_app in H. lia.
  - injection H as -> H. f_equal. by apply IH.
Qed.
#[export] Instance sourcePath_inj c : Inj (=) (=) (sourcePath c).
Proof. intros f g H. unfold sourcePath in H. apply (inj _) in H. by apply sapp_inj_r in H. Qed.

(** The files of the disk that are not being compiled. *)
Definition todo (s : VMState) : nat :=
  size (dom (disk (om s)) ∖ set_map (sourcePath (config s)) (compiling (om s)) : gset string).
Lemma todo_world s s' : world s' = world s -> todo s' = todo s.
Proof.
  intros H. unfold todo. rewrite (world_config _ _ H), (world_om disk _ _ (fun _ => eq_refl) H).
  by rewrite (world_om compiling _ _ (fun _ => eq_refl) H).
Qed.
Lemma todo_busy s f : openFile (disk (om s)) (sourcePath (config s) f) <> None -> f ∉ compiling (om s) ->
  (todo (busy f s) < todo s)%nat.
Proof.
  intros Ho Hf. unfold todo. cbn. apply subset_size.
  assert (sourcePath (config s) f ∈ dom (disk (om s))) as Hd.
  { unfold openFile in Ho. apply elem_of_dom. destruct (disk (om s) !! _); [by eexists|done]. }
  split.
  - intros x. rewrite !elem_of_difference, !elem_of_map. intros [Hx Hn]. split; [done|]. intros (g & -> & Hg).
    apply Hn. exists g. set_solver.
  - intros H. specialize (H (sourcePath (config s) f)). rewrite !elem_of_difference, !elem_of_map in H. destruct H as [_ H].
    + split; [done|]. intros (g & E%(inj _) & Hg). by subst g.
    + apply H. exists f. set_solver.
Qed.

(** ** ObjectManager::compile *)
Section Compile.
Context (cpp : string -> string -> bool * string * string) (efunExists : string -> bool).
Context (genFuel : Program -> list string -> nat).
Context (genFuel_ok : forall p l, CodeGen.compile (genFuel p l) p l <> OutOfFuel).

(** What a call answers: from the cache, or a program that is new. *)
Definition answer (s : VMState) (f : string) (r : option pid) (s' : VMState) : Prop :=
  forall p, r = Some p -> cachedNow f p s' /\ (cachedNow f p s /\ s' = s \/ p ∉ dom (programStore s)).

Lemma compileFile_ends fuel : forall s rawFilename, Inv s -> (todo s < fuel)%nat ->
  ends false s (compileFile cpp efunExists genFuel fuel rawFilename s) (answer s (normalizeFilename rawFilename)).
Proof.
  induction fuel as [|fuel IH]; intros s raw Hs Hf; [lia|]. cbn [compileFile].
  set (f := normalizeFilename raw). apply ends_gets. do 3 apply ends_getOm.
  assert (ends false s (mbind (getOm (fun m => bool_decide (f ∈ compiling m))) (fun busy_ =>
    if busy_ : bool then say ("[object] inherit cycle detected involving " +:+ f) ;; mret None
    else inProgress setCompiling f (compileSource cpp efunExists genFuel (compileFile cpp efunExists genFuel fuel) f
      (sourcePath (config s) f) (openFile (disk (om s)) (sourcePath (config s) f)))) s)
    (fun r s' => forall p, r = Some p -> cachedNow f p s' /\ p ∉ dom (programStore s))) as Hmiss.
  { apply ends_getOm. case_bool_decide as Hb; [by apply ends_say|]. apply ends_progress; [done|done|].
    apply (ends_source _ _ _ genFuel_ok (busy f s)); [by apply Inv_busy|]. intros Ho p s1 Hs1 Hw.
    eapply ends_weaken; [apply IH; [done|]|].
    - rewrite (todo_world _ _ Hw). pose proof (todo_busy s f Ho Hb). lia.
    - intros r s2 [_ _ [_ Hc]] Ha q E. destruct (Ha q E) as [[H _] _]. by eapply Hc. }
  destruct (cacheHit _ _) eqn:Eh; [|by eapply ends_weaken; [exact Hmiss|]; intros r s' K H p E; destruct (H p E); auto].
  destruct (programCache (om s) !! f) as [p|] eqn:Ep.
  - apply ends_ret; [done|]. intros q [= <-]. split; [by split|]. left. split; [by split|done].
  - eapply ends_weaken; [exact Hmiss|]; intros r s' K H p E; destruct (H p E); auto.
Qed.

Lemma compile_ends s f : Inv s -> ends false s (compile cpp efunExists genFuel f s) (answer s (normalizeFilename f)).
Proof.
  intros Hs. apply compileFile_ends; [done|]. unfold todo, compileFuel.
  assert (size (dom (disk (om s)) ∖ set_map (sourcePath (config s)) (compiling (om s)) : gset string) <= size (dom (disk (om s)) : gset string))%nat as H.
  { apply subseteq_size. set_solver. }
  rewrite size_dom in H. lia.
Qed.
End Compile.

(** ** Theorems *)
Section Theorems.
Context (cpp : string -> string -> bool * string * string) (efunExists : string -> bool).
Context (genFuel : Program -> list string -> nat).
Context (genFuel_ok : forall p l, CodeGen.compile (genFuel p l) p l <> OutOfFuel).
Notation compile_ := (ObjectManager.compile cpp efunExists genFuel).

(** C7: compiling a file with all it inherits ends: inherit cycles are cut, no
    exception leaves [compile], no program in use is replaced, and nothing
    but the programs, their cache and the log is touched; the set of files in
    progress is as before. *)
Theorem compile_file_ends s f : Inv s ->
  let '(r, s') := compile_ f s in
  (match r with Ok _ | Undefined _ => True | Throw _ | OutOfFuel => False end) /\
  world s' = world s /\ programStore s ⊆ programStore s'.
Proof using genFuel_ok.
  intros Hs. destruct (compile_ends cpp efunExists genFuel genFuel_ok s f Hs) as [[Hw Hp _] H].
  destruct (compile_ f s) as [[r|e|w|] s']; by try split_and!.
Qed.

(** C8: a program [compile] gives inherits from older programs only, and the
    variable [k] of an ancestor is the variable [b + k] of the program, where
    [b] is the offset its table has for the ancestor: functions of the
    ancestor that run in an object of the program read their own variables. *)
Theorem compile_layout s f : Inv s ->
  let '(r, s') := compile_ f s in
  Inv s' /\ acyclic (programStore s') /\
  forall p, r = Ok (Some p) -> p ∈ dom (programStore s') /\
    (forall q, In (Some q) (inheritedPrograms (prog (programStore s') p)) ->
       is_Some (ancestorBaseOffsets (prog (programStore s') p) !! q)) /\
    forall q b k x, ancestorBaseOffsets (prog (programStore s') p) !! q = Some b ->
      fits_int (names (programStore s') p) ->
      names (programStore s') q !! k = Some x -> names (programStore s') p !! (Z.to_nat b + k)%nat = Some x.
Proof using genFuel_ok.
  intros Hs. destruct (compile_ends cpp efunExists genFuel genFuel_ok s f Hs) as [[_ _ Hi] H].
  destruct (compile_ f s) as [r s']. cbn [fst snd] in *. pose proof (inv_store _ Hi) as Ho.
  split; [done|]. split; [apply Ho|]. intros p ->. destruct (H p eq_refl) as [[Hc _] _].
  split; [by apply (inv_cached _ Hi (normalizeFilename f))|]. split; [intros q; apply (store_parents _ Ho)|].
  intros q b k x Hb Hf Hx. destruct (store_layout _ Ho p q b Hb Hf) as (pre & post & -> & <-).
  rewrite Nat2Z.id, lookup_app_r, Nat.add_comm, Nat.add_sub by lia. by apply lookup_app_l_Some.
Qed.

(** The cache: a file that compiled compiles again to the same program, at no
    cost, until its source changes; and a program that was not in the cache
    is a new one, so objects of the old program keep it. *)
Theorem compile_cached s f : Inv s ->
  let '(r, s') := compile_ f s in
  forall p, r = Ok (Some p) ->
    compile_ f s' = (Ok (Some p), s') /\
    (programCache (om s) !! normalizeFilename f = Some p /\ s' = s \/ programStore s !! p = None).
Proof using genFuel_ok.
  intros Hs. destruct (compile_ends cpp efunExists genFuel genFuel_ok s f Hs) as [_ H].
  destruct (compile_ f s) as [r s']. cbn [fst snd] in H. intros p ->.
  destruct (H p eq_refl) as [[Hc Hh] Hn]. split.
  - unfold ObjectManager.compile, compileFuel. cbn [compileFile]. unfold mbind, getOm, mgets.
    by rewrite Hh, Hc.
  - destruct Hn as [[[? _] ?]|Hn]; [by left|right]. by apply not_elem_of_dom.
Qed.
End Theorems.

(** *** Witnesses *)

(** A fuel that is always enough for the generator. *)
Lemma enoughFuel_exists p l : exists n, CodeGen.compile n p l <> OutOfFuel.
Proof.
  destruct (generate_converges p l) as (F & [o g] & Hr & H). exists F. unfold CodeGen.compile.
  destruct (H F) as [->|[HF _]]; [by destruct o|lia].
Qed.
Lemma enough_dec p l n : {CodeGen.compile n p l <> OutOfFuel} + {~ CodeGen.compile n p l <> OutOfFuel}.
Proof. destruct (CodeGen.compile n p l); [by left..|by right; intros H]. Qed.
Definition enoughFuel (p : Program) (l : list string) : nat :=
  proj1_sig (constructive_indefinite_ground_description_nat _ (enough_dec p l) (enoughFuel_exists p l)).
Lemma enoughFuel_ok p l : CodeGen.compile (enoughFuel p l) p l <> OutOfFuel.
Proof. unfold enoughFuel. by destruct (constructive_indefinite_ground_description_nat _ _ _). Qed.

(** A mudlib of three files, and a cpp that changes nothing. *)
Definition plainCpp (options text : string) : bool * string * string := (true, text, "").
Definition noEfuns (name : string) : bool := false.
Definition lines (l : list string) : FileEntry := RegularFile (unlines l).
Definition exampleDisk : gmap string FileEntry :=
  <["lib/a.c" := lines ["int hp = 3;"; "int query() { return hp; }"]]>
  (<["lib/b.c" := lines ["int weight;"]]>
  {[ "lib/c.c" := lines ["inherit " +:+ quoted "b" +:+ ";"; "inherit " +:+ quoted "a" +:+ ";"; "int level;"] ]}).
Definition mudlib (d : gmap string FileEntry) : VMState :=
  (newVM (defaultConfig <| mudlibRoot := "lib" |>) ∅ ∅) <| om ::= fun m => m <| disk := d |> |>.

Lemma store_ok_empty : store_ok ∅.
Proof.
  assert (forall p, prog ∅ p = emptyProgram) as E by (intros p; unfold prog; by rewrite lookup_empty).
  split; unfold ancestor.
  - exists (fun _ => O). intros p q. by rewrite E.
  - intros p q. by rewrite E.
  - intros p q. rewrite E. by intros [b Hb].
  - intros p q r. rewrite E. by intros [b Hb].
  - intros p q b. by rewrite E.
Qed.
Lemma Inv_mudlib d : Inv (mudlib d).
Proof. split; [apply store_ok_empty|]. intros f p. cbn. by rewrite lookup_empty. Qed.

(** [/c] has the variable of [/b], then that of [/a], then its own. *)
Definition exampleFuel (p : Program) (l : list string) : nat := 10.
Example compile_example :
  let '(r, s) := ObjectManager.compile plainCpp noEfuns exampleFuel "c.c" (mudlib exampleDisk) in
  match r with
  | Ok (Some p) =>
      objectVarNames (prog (programStore s) p) = ["weight"; "hp"; "level"] /\
      map_to_list (ancestorBaseOffsets (prog (programStore s) p)) = [(2%positive, 1); (1%positive, 0)] /\
      elements (dom (programCache (om s))) = ["/c"; "/a"; "/b"]
  | _ => False
  end.
Proof. vm_compute. split_and!; reflexivity. Qed.

(** A file that inherits itself. *)
Example compile_cycle :
  let d := {[ "lib/d.c" := lines ["inherit " +:+ quoted "d" +:+ ";"] ]} in
  let '(r, s) := ObjectManager.compile plainCpp noEfuns exampleFuel "d" (mudlib d) in
  r = Ok None /\ stderrLog s =
    ["[object] lib/d.c: failed to compile inherited file d"; "[object] inherit cycle detected involving /d"]
  /\ compiling (om s) = ∅.
Proof. vm_compute. split_and!; reflexivity. Qed.

(** Two parents with a common ancestor: its variable is there twice, and the
    table has the offset of the second copy only: code of [/a] that [/l] calls
    reads the copy of [/r], and code of [/l] reads its own. *)
Definition diamondDisk : gmap string FileEntry :=
  <["lib/a.c" := lines ["int hp;"]]>
  (<["lib/l.c" := lines ["inherit " +:+ quoted "a" +:+ ";"]]>
  (<["lib/r.c" := lines ["inherit " +:+ quoted "a" +:+ ";"]]>
  {[ "lib/d.c" := lines ["inherit " +:+ quoted "l" +:+ ";"; "inherit " +:+ quoted "r" +:+ ";"] ]})).
Example compile_diamond :
  let '(r, s) := ObjectManager.compile plainCpp noEfuns exampleFuel "d" (mudlib diamondDisk) in
  match r with
  | Ok (Some p) => objectVarNames (prog (programStore s) p) = ["hp"; "hp"] /\
      (fun q => ancestorBaseOffsets (prog (programStore s) p) !! q) <$> [1; 2; 3]%positive = [Some 1; Some 0; Some 1]
  | _ => False
  end.
Proof. vm_compute. split_and!; reflexivity. Qed.

Lemma compile_file_ends_witness : Inv (mudlib exampleDisk) /\
  let '(r, s') := ObjectManager.compile plainCpp noEfuns enoughFuel "c.c" (mudlib exampleDisk) in
  (match r with Ok _ | Undefined _ => True | Throw _ | OutOfFuel => False end) /\
  world s' = world (mudlib exampleDisk) /\ programStore (mudlib exampleDisk) ⊆ programStore s'.
Proof.
  split; [apply Inv_mudlib|]. exact (compile_file_ends plainCpp noEfuns enoughFuel enoughFuel_ok _ _ (Inv_mudlib _)).
Defined.

Lemma compile_layout_witness : Inv (mudlib exampleDisk) /\
  let '(r, s') := ObjectManager.compile plainCpp noEfuns enoughFuel "c.c" (mudlib exampleDisk) in
  Inv s' /\ acyclic (programStore s').
Proof.
  split; [apply Inv_mudlib|].
  pose proof (compile_layout plainCpp noEfuns enoughFuel enoughFuel_ok _ "c.c" (Inv_mudlib exampleDisk)) as H.
  destruct (ObjectManager.compile _ _ _ _ _) as [r s']. by destruct H as (H1 & H2 & _).
Defined.

Lemma compile_cached_witness : Inv (mudlib exampleDisk) /\
  let '(r, s') := ObjectManager.compile plainCpp noEfuns enoughFuel "c.c" (mudlib exampleDisk) in
  forall p, r = Ok (Some p) -> ObjectManager.compile plainCpp noEfuns enoughFuel "c.c" s' = (Ok (Some p), s').
Proof.
  split; [apply Inv_mudlib|].
  pose proof (compile_cached plainCpp noEfuns enoughFuel enoughFuel_ok _ "c.c" (Inv_mudlib exampleDisk)) as H.
  destruct (ObjectManager.compile _ _ _ _ _) as [r s']. intros p E. by destruct (H p E) as [H1 _].
Defined.
