(* ===== verification/DestructFacts.v ===== *)
(** * DestructFacts: properties of ObjectManager::destructObject

    Destructing an object takes it out of its shadow chain, its environment,
    its snoop link and every registry, and leaves every other field of every
    object alone ([Gone]); the base of a shadow chain takes the whole chain with
    it.  A chain is described by the list of the objects above its base, as
    list segments are. *)
From S2P Require Import Prelude CLib Double Value Bytecode Lookup Network Machine Calls CallsFacts VM Registries Sockets ObjectManager.
Local Open Scope Z_scope.

Lemma mbind_assoc {S E A B C} (m : M S E A) (k : A -> M S E B) (h : B -> M S E C) s :
  mbind m (fun a => mbind (k a) h) s = mbind (mbind m k) h s.
Proof. unfold mbind. by destruct (m s) as [[] ?]. Qed.

Lemma mbind_assoc2 {S E A B C D} (a : M S E A) (b : M S E B) (c : M S E C) (h : C -> M S E D) s :
  (a ;; b ;; x <- c ;; h x) s = (x <- (a ;; b ;; c) ;; h x) s.
Proof. unfold mbind. destruct (a s) as [[] s1]; try done. by destruct (b s1) as [[] ?]. Qed.

Definition alive (s : VMState) (x : oid) : Prop := is_Some (objects s !! x).
Definition above (s : VMState) (x : oid) : option oid := lock s (getOb s shadowedBy None x).
Definition below (s : VMState) (x : oid) : option oid := lock s (getOb s shadowing None x).

(** An object but for its place in the world: its links, whether it is
    destructed, and the name it was replaced under. *)
Definition hide (ob : LpcObject) : LpcObject :=
  ob <| environment := None |> <| inventory := [] |> <| destructed := false |> <| replacedProgramName := None |>
     <| shadowedBy := None |> <| shadowing := None |> <| snoopedBy := None |> <| snooping := None |>.
(** The manager but for the tables objects are in. *)
Definition hideOm (m : ObjMgr) : ObjMgr :=
  m <| liveObjects := [] |> <| livingNames := [] |> <| restoredObjects := [] |> <| loaded := ∅ |>.
(** The machine but for objects, the manager and the network. *)
Definition rest (s : VMState) : VMState := s <| objects := ∅ |> <| om := emptyObjMgr |> <| net := emptyNet |>.

Definition inPlace (s : VMState) (e x : oid) : Prop := lock s (getOb s environment None x) = Some e.
Definition watchedBy (s : VMState) (x v : oid) : Prop := lock s (getOb s snooping None v) = Some x.

#[export] Instance inPlace_dec s e x : Decision (inPlace s e x).
Proof. unfold inPlace. apply _. Defined.
#[export] Instance watchedBy_dec s x v : Decision (watchedBy s x v).
Proof. unfold watchedBy. apply _. Defined.

(** [s'] is [s] without [vs], shadow links aside. *)
Record Gone (vs : list oid) (s s' : VMState) : Prop := {
  gone_alive x : alive s' x <-> alive s x;
  gone_hide x : hide <$> objects s' !! x = hide <$> objects s !! x;
  gone_destructed x : isDestructed s' x = bool_decide (x ∈ vs) || isDestructed s x;
  gone_replaced x : getOb s' replacedProgramName None x =
    if decide (x ∈ vs) then None else getOb s replacedProgramName None x;
  gone_env x : getOb s' environment None x = if decide (x ∈ vs) then None else getOb s environment None x;
  gone_contents e : getOb s' inventory [] e = filter (fun x => ~ (x ∈ vs /\ inPlace s e x)) (getOb s inventory [] e);
  gone_snooping x : getOb s' snooping None x = if decide (x ∈ vs) then None else getOb s snooping None x;
  gone_snoopedBy x : getOb s' snoopedBy None x =
    if decide (Exists (watchedBy s x) vs) then None else getOb s snoopedBy None x;
  gone_live x : alive s x -> x ∈ liveObjects (om s') <-> x ∈ liveObjects (om s) /\ x ∉ vs;
  gone_names e : alive s (eobj e) -> e ∈ livingNames (om s') <-> e ∈ livingNames (om s) /\ eobj e ∉ vs;
  gone_restored x : x ∈ restoredObjects (om s') <-> x ∈ restoredObjects (om s) /\ x ∉ vs;
  gone_loaded f : loaded (om s') !! f = if decide (f ∈ map (fileOf s) vs) then None else loaded (om s) !! f;
  gone_om : hideOm (om s') = hideOm (om s);
  gone_rest : rest s' = rest s
}.

Lemma hide_file s s' x : hide <$> objects s' !! x = hide <$> objects s !! x -> fileOf s' x = fileOf s x.
Proof.
  unfold fileOf, getOb. destruct (objects s' !! x), (objects s !! x); cbn; intros [=]; done.
Qed.
Lemma gone_file vs s s' x : Gone vs s s' -> fileOf s' x = fileOf s x.
Proof. intros G. apply hide_file, G. Qed.
Lemma gone_inventory vs s s' e x : Gone vs s s' ->
  x ∈ getOb s' inventory [] e <-> x ∈ getOb s inventory [] e /\ ~ (x ∈ vs /\ inPlace s e x).
Proof. intros G. rewrite (gone_contents _ _ _ G), list_elem_of_filter. tauto. Qed.

Lemma lock_ext s s' w : (forall x, alive s' x <-> alive s x) -> lock s' w = lock s w.
Proof.
  intros H. unfold lock. destruct w as [x|]; [|done]. specialize (H x). unfold alive in H.
  destruct (objects s' !! x), (objects s !! x); try done; exfalso.
  - destruct (proj1 H ltac:(by eexists)). done.
  - destruct (proj2 H ltac:(by eexists)). done.
Qed.
Lemma lock_idem s w : lock s (lock s w) = lock s w.
Proof. unfold lock. destruct w as [x|]; [|done]. destruct (objects s !! x) eqn:E; [by rewrite E|done]. Qed.
Lemma stale_ext s s' o w : (forall x, alive s' x <-> alive s x) -> stale s' o w = stale s o w.
Proof. intros H. unfold stale. by rewrite (lock_ext s s'). Qed.
Lemma stale_alive s o w : alive s w -> stale s o w = bool_decide (w = o).
Proof. intros [ob H]. unfold stale, lock. by rewrite H. Qed.

Lemma filter_all {A} (P : A -> Prop) `{forall x, Decision (P x)} (l : list A) :
  (forall x, P x) -> filter P l = l.
Proof. intros HP. induction l as [|x l IH]; [done|]. by rewrite filter_cons_True, IH. Qed.

Lemma filter_List {A} (f : A -> bool) (l : list A) : List.filter f l = filter (fun x => f x = true) l.
Proof. induction l as [|x l IH]; [done|]. cbn [List.filter]. destruct (f x) eqn:E; [rewrite filter_cons_True|rewrite filter_cons_False]; congruence. Qed.

Lemma Gone_nil s s' : objects s' = objects s -> om s' = om s -> rest s' = rest s -> Gone [] s s'.
Proof.
  intros H1 H2 H3. split; unfold alive, isDestructed, getOb; rewrite ?H1, ?H2; intros; try done.
  all: try (rewrite filter_all; [done|intros ? [[]%elem_of_nil _]]).
  all: try (rewrite decide_False; [done|intros []%Exists_nil]).
  all: rewrite ?elem_of_nil; tauto.
Qed.
Lemma Gone_app vs ws s s1 s2 : Gone vs s s1 -> Gone ws s1 s2 -> Gone (vs ++ ws) s s2.
Proof.
  intros G G'. pose proof (lock_ext s s1) as El. destruct G as [A0 H0 D0 R0 E0 I0 S0 SB0 L0 N0 RO0 LD0 OM0 RS0].
  destruct G' as [A1 H1 D1 R1 E1 I1 S1 SB1 L1 N1 RO1 LD1 OM1 RS1]. specialize (El).
  assert (forall w, lock s1 w = lock s w) as El' by (intros w; by apply El). split.
  - intros x. by rewrite A1.
  - intros x. by rewrite H1.
  - intros x. rewrite D1, D0, orb_assoc. f_equal.
    rewrite <- bool_decide_or. apply bool_decide_ext. rewrite elem_of_app. tauto.
  - intros x. rewrite R1, R0.
    destruct (decide (x ∈ ws)), (decide (x ∈ vs)), (decide (x ∈ vs ++ ws)) as [H|H]; rewrite elem_of_app in H; tauto.
  - intros x. rewrite E1, E0.
    destruct (decide (x ∈ ws)), (decide (x ∈ vs)), (decide (x ∈ vs ++ ws)) as [H|H]; rewrite elem_of_app in H; tauto.
  - intros e. rewrite I1, I0, list_filter_filter. apply list_filter_iff. intros x. unfold inPlace.
    rewrite E0, El', elem_of_app. destruct (decide (x ∈ vs)); [|tauto]. cbn [lock].
    destruct (decide (lock s (getOb s environment None x) = Some e)); [tauto|]. split; [tauto|]. intros _. split; [|tauto]. by intros [_ ?].
  - intros x. rewrite S1, S0.
    destruct (decide (x ∈ ws)), (decide (x ∈ vs)), (decide (x ∈ vs ++ ws)) as [H|H]; rewrite elem_of_app in H; tauto.
  - intros x. rewrite SB1, SB0. destruct (decide (Exists (watchedBy s x) vs)) as [Hv|Hv].
    { rewrite (decide_True (P := Exists (watchedBy s x) (vs ++ ws))) by (apply Exists_app; by left). by destruct (decide _). }
    apply decide_ext. rewrite Exists_app, !list.Exists_exists. unfold watchedBy.
    assert (forall v, v ∈ vs -> ~ watchedBy s x v) as Hn by (intros v H2 H3; apply Hv, list.Exists_exists; eauto).
    split.
    + intros (w & Hw & Hs). rewrite S0, El' in Hs. destruct (decide (w ∈ vs)); [done|]. right. eauto.
    + intros [(w & Hw & Hs)|(w & Hw & Hs)]; [by destruct (Hn w Hw)|]. exists w. split; [done|].
      rewrite S0, El', decide_False; [done|]. intros Hw'. by apply (Hn w Hw').
  - intros x Hx. rewrite L1, L0, elem_of_app by by rewrite ?A0. tauto.
  - intros e He. rewrite N1, N0, elem_of_app by by rewrite ?A0. tauto.
  - intros x. rewrite RO1, RO0, elem_of_app. tauto.
  - intros f. rewrite LD1, LD0, map_app.
    rewrite (map_ext (fileOf s1) (fileOf s)) by (intros x; by apply hide_file).
    destruct (decide (f ∈ map (fileOf s) ws)), (decide (f ∈ map (fileOf s) vs)), (decide (f ∈ map (fileOf s) vs ++ map (fileOf s) ws)) as [H|H];
      rewrite elem_of_app in H; tauto.
  - by rewrite OM1.
  - by rewrite RS1.
Qed.

(** A setter of other fields. *)
Lemma getOb_setOb_other {A} (p : LpcObject -> A) d o f s x :
  (forall ob, p (f ob) = p ob) -> getOb (setOb o f s) p d x = getOb s p d x.
Proof.
  intros H. unfold getOb. rewrite setOb_lookup. case_decide; [|done].
  destruct (objects s !! x); simpl; by rewrite ?H.
Qed.
Lemma getOb_setOb_ne {A} (p : LpcObject -> A) d o f s x : x <> o -> getOb (setOb o f s) p d x = getOb s p d x.
Proof. intros H. unfold getOb. by rewrite setOb_lookup, decide_False. Qed.
Lemma getOb_setOb_eq {A} (p : LpcObject -> A) d o f s v :
  alive s o -> (forall ob, p (f ob) = v) -> getOb (setOb o f s) p d o = v.
Proof. intros [ob Ho] H. unfold getOb. rewrite setOb_lookup, decide_True by done. by rewrite Ho; simpl. Qed.
Lemma alive_setOb o f s x : alive (setOb o f s) x <-> alive s x.
Proof. unfold alive. rewrite setOb_lookup. case_decide; [|done]. by rewrite fmap_is_Some. Qed.

Lemma hide_setOb o f s x : (forall ob, hide (f ob) = hide ob) ->
  hide <$> objects (setOb o f s) !! x = hide <$> objects s !! x.
Proof. intros H. rewrite setOb_lookup. case_decide; [|done]. destruct (objects s !! x); cbn; by rewrite ?H. Qed.

(** Updates that touch nothing of the records of [Gone]. *)
Definition harmless (f : LpcObject -> LpcObject) : Prop := forall ob,
  hide (f ob) = hide ob /\ destructed (f ob) = destructed ob /\ replacedProgramName (f ob) = replacedProgramName ob /\
  environment (f ob) = environment ob /\ inventory (f ob) = inventory ob /\
  snooping (f ob) = snooping ob /\ snoopedBy (f ob) = snoopedBy ob.
Lemma Gone_setOb o f s : harmless f -> Gone [] s (setOb o f s).
Proof.
  intros H. split; unfold isDestructed; intros; rewrite ?(getOb_setOb_other _ _ _ f) by apply H; try done.
  - apply alive_setOb.
  - apply hide_setOb, H.
  - rewrite filter_all; [done|intros ? [[]%elem_of_nil _]].
  - rewrite elem_of_nil. tauto.
  - rewrite elem_of_nil. tauto.
  - rewrite elem_of_nil. tauto.
Qed.

(** ** One object *)
Definition sameLinks (s s' : VMState) : Prop := forall x,
  getOb s' shadowedBy None x = getOb s shadowedBy None x /\ getOb s' shadowing None x = getOb s shadowing None x.
Lemma sameLinks_setOb o f s : (forall ob, shadowedBy (f ob) = shadowedBy ob /\ shadowing (f ob) = shadowing ob) ->
  sameLinks s (setOb o f s).
Proof. intros H x. by rewrite !getOb_setOb_other by apply H. Qed.

(** What the callback may do: it changes the network only. *)
Definition discreet (onDestructed : oid -> VM unit) : Prop := forall o s,
  exists s', onDestructed o s = (Ok tt, s') /\ objects s' = objects s /\ om s' = om s /\ rest s' = rest s.

(** The object leaves the tables. *)
Section Leave.
Context (o : oid) (s2 : VMState) (Ho : alive s2 o).
Let s3 := setOb o (fun ob => ob <| snooping := None |> <| destructed := true |> <| replacedProgramName := None |>) s2.
Let s4 := modOm (fun m => m <| livingNames ::= LivingNames.remove s3 (Some o) |>
                            <| liveObjects ::= LiveObjects.remove s3 (Some o) |>) s3.
Let env := lock s2 (getOb s2 environment None o).
Let s4' := match env with
           | Some e => setOb e (fun ob => ob <| inventory ::= List.filter (fun x => negb (Pos.eqb x o)) |>) s4
           | None => s4
           end.
Let s5 := setOb o (fun ob => ob <| environment := None |>) s4'.

Lemma leave_alive x : alive s4 x <-> alive s2 x.
Proof. apply alive_setOb. Qed.
Lemma leave_runs : leaveEnvironment o s4 = (Ok tt, s5).
Proof.
  unfold leaveEnvironment, mbind, mgets, mmodify.
  assert (getOb s4 environment None o = getOb s2 environment None o) as ->.
  { change (getOb s3 environment None o = getOb s2 environment None o). by apply getOb_setOb_other. }
  rewrite (lock_ext s2 s4) by apply leave_alive. subst s5 s4' env. by destruct (lock s2 _).
Qed.
Lemma leave_other {A} (p : LpcObject -> A) d x : (forall ob g, p (ob <| inventory ::= g |>) = p ob) ->
  (forall ob v, p (ob <| environment := v |>) = p ob) -> getOb s5 p d x = getOb s3 p d x.
Proof.
  intros Hp Hq. change (getOb s3 p d x) with (getOb s4 p d x).
  subst s5 s4'. rewrite getOb_setOb_other by by intros ob; apply Hq. destruct env; [|done].
  apply getOb_setOb_other. intros ob. apply Hp.
Qed.
Lemma leave_env x : getOb s5 environment None x = if decide (x ∈ [o]) then None else getOb s2 environment None x.
Proof using Ho.
  destruct (decide (x ∈ [o])) as [E|E]; rewrite list_elem_of_singleton in E.
  - subst x. apply getOb_setOb_eq; [|done]. subst s4'. destruct env; [by apply alive_setOb, leave_alive|by apply leave_alive].
  - subst s5 s4'. rewrite getOb_setOb_ne by done. destruct env; [rewrite getOb_setOb_other by done|]; by apply getOb_setOb_other.
Qed.
Lemma leave_contents e :
  getOb s5 inventory [] e = filter (fun x => ~ (x ∈ [o] /\ inPlace s2 e x)) (getOb s2 inventory [] e).
Proof.
  assert (getOb s4 inventory [] e = getOb s2 inventory [] e) as E4 by by apply (getOb_setOb_other inventory).
  assert (getOb s5 inventory [] e = getOb s4' inventory [] e) as -> by by apply getOb_setOb_other.
  assert (forall x, x ∈ [o] /\ inPlace s2 e x <-> x = o /\ env = Some e) as Ein.
  { intros x. rewrite list_elem_of_singleton. unfold inPlace. fold env. split; intros [-> H]; by split. }
  subst s4'. destruct (decide (env = Some e)) as [E|N].
  - rewrite E. unfold getOb at 1. rewrite setOb_lookup, decide_True by done. unfold getOb in E4 at 1. rewrite <- E4.
    destruct (objects s4 !! e) as [ob|]; [|done]. cbn [fmap option_fmap option_map inventory set_field].
    rewrite filter_List. apply list_filter_iff. intros x. rewrite Ein, negb_true_iff, Pos.eqb_neq. tauto.
  - rewrite filter_all; [|intros x; rewrite Ein; tauto].
    destruct env as [e0|]; [|exact E4]. by rewrite getOb_setOb_ne, E4 by congruence.
Qed.
Lemma leave_om : om s5 = om s4.
Proof. subst s5 s4'. by destruct env. Qed.
Lemma stale_leave y : alive s2 y -> negb (stale s3 o y) = true <-> y ∉ [o].
Proof.
  intros Hy. rewrite stale_alive by by apply leave_alive.
  by rewrite negb_true_iff, bool_decide_eq_false, list_elem_of_singleton.
Qed.

Lemma leave_hide x : hide <$> objects s5 !! x = hide <$> objects s2 !! x.
Proof.
  subst s5 s4'. rewrite hide_setOb by done.
  assert (hide <$> objects s4 !! x = hide <$> objects s2 !! x) as E4 by by apply (hide_setOb _ _ s2).
  destruct env; [by rewrite hide_setOb|exact E4].
Qed.
Lemma leave_field {A} (p : LpcObject -> A) v x : (forall ob g, p (ob <| inventory ::= g |>) = p ob) ->
  (forall ob w, p (ob <| environment := w |>) = p ob) ->
  (forall ob, p (ob <| snooping := None |> <| destructed := true |> <| replacedProgramName := None |>) = v) ->
  getOb s5 p v x = if decide (x ∈ [o]) then v else getOb s2 p v x.
Proof using Ho.
  intros H1 H2 H3. rewrite leave_other by done.
  destruct (decide (x ∈ [o])) as [E|E]; rewrite list_elem_of_singleton in E; [subst x; by apply getOb_setOb_eq|by apply getOb_setOb_ne].
Qed.
Lemma leave_rest : rest s5 = rest s2 /\ hideOm (om s5) = hideOm (om s2).
Proof. subst s5 s4'. by destruct env. Qed.

Lemma leave_gone : (forall v, watchedBy s2 v o -> getOb s2 snoopedBy None v = None) -> sameLinks s2 s5 /\
  Gone [o] s2 (modOm (fun m => m <| loaded ::= delete (fileOf s5 o) |>
                                 <| restoredObjects ::= List.filter (fun x => negb (Pos.eqb x o)) |>) s5).
Proof using Ho.
  intros Hsn.
  assert (forall x, getOb s5 filename "" x = getOb s2 filename "" x) as Hfile.
  { intros x. rewrite leave_other by done. by apply getOb_setOb_other. }
  split; [intros x; rewrite !leave_other by done; by apply sameLinks_setOb|]. split.
  - intros x. change (alive s5 x <-> alive s2 x). subst s5 s4'. rewrite alive_setOb. destruct env; [rewrite alive_setOb|]; apply leave_alive.
  - exact leave_hide.
  - intros x. change (getOb s5 destructed true x = bool_decide (x ∈ [o]) || getOb s2 destructed true x). rewrite leave_other by done.
    case_bool_decide as E; rewrite list_elem_of_singleton in E; [subst x; by apply getOb_setOb_eq|by apply getOb_setOb_ne].
  - intros x. by apply (leave_field replacedProgramName).
  - exact leave_env.
  - exact leave_contents.
  - intros x. by apply (leave_field snooping).
  - intros x. change (getOb s5 snoopedBy None x = if decide (Exists (watchedBy s2 x) [o]) then None else getOb s2 snoopedBy None x).
    assert (getOb s5 snoopedBy None x = getOb s2 snoopedBy None x) as ->.
    { rewrite leave_other by done. by apply getOb_setOb_other. }
    destruct (decide _) as [H%Exists_cons|]; [|done]. destruct H as [H|[]%Exists_nil]. by apply Hsn.
  - intros x Hx. change (x ∈ liveObjects (om s5) <-> x ∈ liveObjects (om s2) /\ x ∉ [o]). rewrite leave_om, <- (stale_leave x Hx).
    change (liveObjects (om s4)) with (List.filter (fun w => negb (stale s3 o w)) (liveObjects (om s2))).
    by rewrite !list_elem_of_In, filter_In.
  - intros x Hx. change (x ∈ livingNames (om s5) <-> x ∈ livingNames (om s2) /\ eobj x ∉ [o]). rewrite leave_om, <- (stale_leave _ Hx).
    change (livingNames (om s4)) with (List.filter (fun e => negb (stale s3 o (eobj e))) (livingNames (om s2))).
    by rewrite !list_elem_of_In, filter_In.
  - intros x. change (x ∈ List.filter (fun x => negb (Pos.eqb x o)) (restoredObjects (om s5)) <-> x ∈ restoredObjects (om s2) /\ x ∉ [o]).
    rewrite leave_om. by rewrite list_elem_of_singleton, !list_elem_of_In, filter_In, negb_true_iff, Pos.eqb_neq.
  - intros f. change (delete (getOb s5 filename "" o) (loaded (om s5)) !! f = if decide (f ∈ [fileOf s2 o]) then None else loaded (om s2) !! f).
    rewrite leave_om, Hfile. change (loaded (om s4)) with (loaded (om s2)). unfold fileOf.
    destruct (decide (f = getOb s2 filename "" o)) as [->|N].
    + rewrite lookup_delete_eq, decide_True; [done|by left].
    + rewrite lookup_delete_ne, decide_False by (rewrite ?list_elem_of_singleton; congruence). done.
  - exact (proj2 leave_rest).
  - exact (proj1 leave_rest).
Qed.
End Leave.

Lemma sameLinks_trans s s1 s2 : sameLinks s s1 -> sameLinks s1 s2 -> sameLinks s s2.
Proof. intros H1 H2 x. destruct (H1 x), (H2 x). split; congruence. Qed.

(** The chain without [o]. *)
Definition spliced (o : oid) (s : VMState) : VMState :=
  let s1 := match below s o with Some b => setOb b (fun ob => ob <| shadowedBy := above s o |>) s | None => s end in
  let s2 := match above s o with Some a => setOb a (fun ob => ob <| shadowing := getOb s1 shadowing None o |>) s1 | None => s1 end in
  setOb o (fun ob => ob <| shadowing := None |> <| shadowedBy := None |>) s2.
Lemma spliced_runs o s : (spliceOut o (above s o) ;; clearShadowLinks o) s = (Ok tt, spliced o s).
Proof.
  unfold spliceOut, clearShadowLinks, spliced, mbind, mgets, mmodify. fold (below s o).
  by destruct (below s o), (above s o).
Qed.
Lemma spliced_gone o s : Gone [] s (spliced o s).
Proof.
  unfold spliced. set (s1 := match below s o with Some b => _ | None => s end).
  assert (Gone [] s s1) as G1 by (subst s1; destruct (below s o); [by apply Gone_setOb|by apply Gone_nil]).
  destruct (above s o); [eapply (Gone_app [] [] s); [|by apply Gone_setOb]|].
  - by apply (Gone_app [] [] s s1); [|apply Gone_setOb].
  - by apply (Gone_app [] [] s s1); [|apply Gone_setOb].
Qed.
Lemma spliced_above o s x : alive s o -> alive s x -> getOb (spliced o s) shadowedBy None x =
  if decide (x = o) then None else if decide (below s o = Some x) then above s o else getOb s shadowedBy None x.
Proof.
  intros Ho Hx. unfold spliced. destruct (decide (x = o)) as [->|N].
  { apply getOb_setOb_eq; [|done]. destruct (above s o), (below s o); by rewrite ?alive_setOb. }
  rewrite getOb_setOb_ne by done.
  assert (forall s1 : VMState, getOb match above s o with
    | Some a => setOb a (fun ob => ob <| shadowing := getOb s1 shadowing None o |>) s1 | None => s1 end shadowedBy None x
    = getOb s1 shadowedBy None x) as -> by (intros s1; destruct (above s o); [by apply getOb_setOb_other|done]).
  destruct (below s o) as [b|]; [|by rewrite decide_False by done].
  destruct (decide (Some b = Some x)) as [[= ->]|Nb]; [by apply getOb_setOb_eq|by rewrite getOb_setOb_ne by congruence].
Qed.
Lemma spliced_below o s x : alive s o -> alive s x -> getOb (spliced o s) shadowing None x =
  if decide (x = o) then None else if decide (above s o = Some x) then getOb s shadowing None o else getOb s shadowing None x.
Proof.
  intros Ho Hx. unfold spliced. destruct (decide (x = o)) as [->|N].
  { apply getOb_setOb_eq; [|done]. destruct (above s o), (below s o); by rewrite ?alive_setOb. }
  rewrite getOb_setOb_ne by done. set (s1 := match below s o with Some b => _ | None => s end).
  assert (forall y, getOb s1 shadowing None y = getOb s shadowing None y) as E1.
  { intros y. subst s1. destruct (below s o); [by apply getOb_setOb_other|done]. }
  assert (forall y, alive s1 y <-> alive s y) as A1 by (intros y; subst s1; destruct (below s o); by rewrite ?alive_setOb).
  destruct (above s o) as [a|]; [|by rewrite E1, decide_False by done].
  destruct (decide (Some a = Some x)) as [[= ->]|Nb]; [|by rewrite getOb_setOb_ne, E1 by congruence].
  rewrite (getOb_setOb_eq shadowing _ _ _ _ (getOb s1 shadowing None o)); [by rewrite E1|by apply A1|done].
Qed.

Section Destruct.
Context (onDestructed : oid -> VM unit) (quietly : discreet onDestructed).

(** The object a victim snooped forgets it first. *)
Lemma unsnooped_gone o s s' : let v := lock s (getOb s snooping None o) in
  let s2 := match v with Some x => setOb x (fun ob => ob <| snoopedBy := None |>) s | None => s end in
  Gone [o] s2 s' -> Gone [o] s s'.
Proof using.
  intros v s2 [A0 H0 D0 R0 E0 I0 S0 SB0 L0 N0 RO0 LD0 OM0 RS0].
  assert (forall x, alive s2 x <-> alive s x) as A2 by (intros x; subst s2; destruct v; by rewrite ?alive_setOb).
  assert (forall w, lock s2 w = lock s w) as El by (intros w; by apply lock_ext).
  assert (forall {A} (p : LpcObject -> A) d x, (forall ob, p (ob <| snoopedBy := None |>) = p ob) -> getOb s2 p d x = getOb s p d x) as Eo.
  { intros A p d x Hp. subst s2. destruct v; [|done]. by apply getOb_setOb_other. }
  assert (om s2 = om s) as Em by (subst s2; by destruct v).
  split; intros; rewrite <- ?A2, <- ?Em.
  - apply A0.
  - rewrite H0. subst s2. destruct v; [|done]. by apply hide_setOb.
  - rewrite D0. unfold isDestructed. by rewrite Eo.
  - by rewrite R0, Eo.
  - by rewrite E0, Eo.
  - rewrite I0, (Eo _ inventory) by done. apply list_filter_iff. intros x. unfold inPlace. by rewrite El, Eo.
  - by rewrite S0, Eo.
  - rewrite SB0. rewrite (decide_ext (Exists (watchedBy s2 x) [o]) (Exists (watchedBy s x) [o])).
    2: { rewrite !Exists_cons, !Exists_nil. unfold watchedBy. by rewrite El, Eo. }
    destruct (decide _) as [|N]; [done|]. subst s2. destruct (v) as [y|] eqn:Ev; [|done].
    rewrite getOb_setOb_ne; [done|]. intros ->. apply N, Exists_cons. by left.
  - apply L0. by apply A2.
  - apply N0. by apply A2.
  - apply RO0.
  - rewrite LD0. rewrite (map_ext (fileOf s2) (fileOf s)); [done|]. intros x. unfold fileOf. by apply Eo.
  - apply OM0.
  - rewrite RS0. subst s2. by destruct v.
Qed.

Lemma finish_gone o s : alive s o ->
  exists s', finishDestruct onDestructed o s = (Ok tt, s') /\ sameLinks s s' /\ Gone [o] s s'.
Proof using quietly.
  intros Ho. destruct (quietly o s) as (s1 & E1 & Eo & Em & Er1). unfold finishDestruct.
  erewrite mbind_run by exact E1. unfold mbind at 1, mgets at 1.
  set (victim := lock s1 (getOb s1 snooping None o)).
  set (s2 := match victim with Some v => setOb v (fun ob => ob <| snoopedBy := None |>) s1 | None => s1 end).
  assert (sameLinks s s2) as L2.
  { assert (sameLinks s s1) as L1 by (intros x; unfold getOb; by rewrite Eo).
    subst s2. destruct victim as [v|]; [|done]. by apply (sameLinks_trans _ s1); [|apply sameLinks_setOb]. }
  assert (forall x, alive s2 x <-> alive s1 x) as A2 by (intros x; subst s2; destruct victim; by rewrite ?alive_setOb).
  assert (alive s2 o) as Ho2 by (apply A2; unfold alive; by rewrite Eo).
  assert (forall v, watchedBy s2 v o -> getOb s2 snoopedBy None v = None) as Hsn.
  { intros v. unfold watchedBy. rewrite (lock_ext s1 s2) by done.
    assert (getOb s2 snooping None o = getOb s1 snooping None o) as -> by (subst s2; destruct victim; [by apply getOb_setOb_other|done]).
    fold victim. intros Hv. subst s2. rewrite Hv. apply lock_some in Hv as [_ Hv]. by apply getOb_setOb_eq. }
  destruct (leave_gone o s2 Ho2 Hsn) as [L3 G3]. pose proof (leave_runs o s2) as Er.
  assert ((match victim with Some v => mmodify (setOb v (fun ob => ob <| snoopedBy := None |>)) | None => mret tt end : VM unit) s1 = (Ok tt, s2)) as Ev
    by (subst s2; by destruct victim).
  erewrite mbind_run by exact Ev. do 2 (erewrite mbind_run by reflexivity). erewrite mbind_run by exact Er.
  eexists. split; [reflexivity|]. split.
  - apply (sameLinks_trans _ s2); [done|]. exact L3.
  - apply (Gone_app [] [o] s s1); [by apply Gone_nil|]. by apply unsnooped_gone.
Qed.

(** An object that is not the base of a chain is spliced out of its own. *)
Lemma destruct_one f o s : alive s o -> isDestructed s o = false ->
  ~ (is_Some (above s o) /\ below s o = None) ->
  exists s', destructObject onDestructed (S f) o s = (Ok tt, s') /\ Gone [o] s s' /\ sameLinks (spliced o s) s'.
Proof using quietly.
  intros Ho Hd Hbase. cbn [destructObject]. unfold mbind at 1 2 3, mgets. rewrite Hd. fold (above s o) (below s o).
  pose proof (spliced_gone o s) as G0.
  destruct (finish_gone o (spliced o s) (proj2 (gone_alive _ _ _ G0 o) Ho)) as (s' & Ef & L & G).
  exists s'. split; [|split; [exact (Gone_app [] [o] s _ s' G0 G)|done]].
  assert ((spliceOut o (above s o) ;; clearShadowLinks o ;; finishDestruct onDestructed o) s = (Ok tt, s')) as E.
  { rewrite mbind_assoc. by erewrite mbind_run by apply spliced_runs. }
  destruct (above s o), (below s o); try exact E. destruct Hbase. by split.
Qed.

(** ** A chain *)

(** [l] is the rest of a chain, outwards from [o] and inwards from [x]. *)
Fixpoint chain (s : VMState) (o : oid) (l : list oid) : Prop :=
  match l with
  | [] => above s o = None
  | a :: l' => above s o = Some a /\ below s a = Some o /\ chain s a l'
  end.
Fixpoint down (s : VMState) (x : oid) (l : list oid) : Prop :=
  match l with
  | [] => below s x = None
  | y :: l' => below s x = Some y /\ down s y l'
  end.
Lemma chain_down s l : forall o acc x vs, chain s o l -> down s o acc -> rev l ++ o :: acc = x :: vs ->
  down s x vs /\ above s x = None /\ x = default o (list.last l).
Proof.
  induction l as [|a l IH]; intros o acc x vs Hc Hd E; cbn in *; [by injection E as -> ->|].
  destruct Hc as (Ha & Hb & Hc). rewrite <- app_assoc in E. cbn in E.
  destruct (IH a (o :: acc) x vs Hc (conj Hb Hd) E) as (H1 & H2 & ->). split_and!; [done|done|].
  rewrite last_cons. by destruct (list.last l).
Qed.
Lemma topShadow_chain s l : forall o n, chain s o l -> (length l < n)%nat -> topShadow n o s = Ok (default o (list.last l)).
Proof.
  induction l as [|a l IH]; intros o n Hc Hn; (destruct n as [|n]; [cbn in Hn; lia|]); cbn [topShadow]; cbn [chain] in Hc.
  - fold (above s o). by rewrite Hc.
  - fold (above s o). destruct Hc as (-> & _ & Hc). cbn in Hn. rewrite IH by (done || lia).
    rewrite last_cons. by destruct (list.last l).
Qed.

(** No links left on [vs]; those of others are as they were. *)
Definition linksOff (vs : list oid) (s s' : VMState) : Prop := forall y, alive s y ->
  getOb s' shadowedBy None y = (if decide (y ∈ vs) then None else getOb s shadowedBy None y) /\
  getOb s' shadowing None y = (if decide (y ∈ vs) then None else getOb s shadowing None y).

(** One round of the loop. *)
Lemma destruct_round f x s : alive s x -> isDestructed s x = false -> above s x = None ->
  exists s', (match below s x with Some b => mmodify (setOb b (fun ob => ob <| shadowedBy := None |>)) | None => mret tt end ;;
     mmodify (setOb x (fun ob => ob <| shadowing := None |>)) ;;
     destructObject onDestructed (S f) x) s = (Ok tt, s') /\ Gone [x] s s' /\
    forall y, alive s y ->
      getOb s' shadowedBy None y = (if decide (y = x \/ below s x = Some y) then None else getOb s shadowedBy None y) /\
      getOb s' shadowing None y = (if decide (y = x) then None else getOb s shadowing None y).
Proof using quietly.
  intros Hx Hd Ha. set (s1 := match below s x with Some b => setOb b (fun ob => ob <| shadowedBy := None |>) s | None => s end).
  set (s2 := setOb x (fun ob => ob <| shadowing := None |>) s1).
  assert (Gone [] s s2) as G2.
  { apply (Gone_app [] [] s s1); [|by apply Gone_setOb]. subst s1. destruct (below s x); [by apply Gone_setOb|by apply Gone_nil]. }
  assert (forall y, alive s1 y <-> alive s y) as A1 by (intros y; subst s1; destruct (below s x); by rewrite ?alive_setOb).
  assert (forall y, alive s y -> getOb s2 shadowedBy None y = (if decide (below s x = Some y) then None else getOb s shadowedBy None y) /\
    getOb s2 shadowing None y = (if decide (y = x) then None else getOb s shadowing None y)) as L2.
  { intros y Hy. split.
    - subst s2. rewrite getOb_setOb_other by done. subst s1. destruct (below s x) as [b|]; [|by rewrite decide_False by done].
      destruct (decide (Some b = Some y)) as [[= ->]|N]; [by apply getOb_setOb_eq|by rewrite getOb_setOb_ne by congruence].
    - subst s2. destruct (decide (y = x)) as [->|N]; [apply getOb_setOb_eq; [by apply A1|done]|].
      rewrite getOb_setOb_ne by done. subst s1. destruct (below s x); [by apply getOb_setOb_other|done]. }
  assert (forall w, lock s2 w = lock s w) as El by (intros w; apply lock_ext, (gone_alive _ _ _ G2)).
  assert (above s2 x = None) as Ha2.
  { unfold above. rewrite El, (proj1 (L2 x Hx)). by destruct (decide _). }
  assert (below s2 x = None) as Hb2 by (unfold below; by rewrite El, (proj2 (L2 x Hx)), decide_True).
  destruct (destruct_one f x s2) as (s' & E & G & L).
  { by apply (gone_alive _ _ _ G2). } { rewrite (gone_destructed _ _ _ G2), Hd. done. } { rewrite Ha2. by intros [[? ?] _]. }
  exists s'. split; [|split; [exact (Gone_app [] [x] s s2 s' G2 G)|]].
  { erewrite (mbind_run _ _ _ _ s1); [by erewrite mbind_run by reflexivity|]. subst s1. by destruct (below s x). }
  intros y Hy. assert (alive s2 y) as Hy2 by by apply (gone_alive _ _ _ G2). assert (alive s2 x) as Hx2 by by apply (gone_alive _ _ _ G2).
  destruct (L y) as [-> ->]. rewrite spliced_above, spliced_below, Ha2, Hb2 by done. destruct (L2 y Hy) as [-> ->].
  rewrite !(decide_False (P := None = Some y)) by done.
  destruct (decide (y = x)) as [->|N]; [by rewrite decide_True by by left|].
  split; [|done]. destruct (decide (below s x = Some y)); [by rewrite decide_True by by right|by rewrite decide_False by tauto].
Qed.

Lemma down_same s s' x l : (forall y, y ∈ x :: l -> below s' y = below s y) -> down s x l -> down s' x l.
Proof.
  revert x. induction l as [|y l IH]; intros x H Hd; cbn in *; rewrite (H x) by (by left); try done.
  destruct Hd as [-> Hd]. split; [done|]. apply IH; [|done]. intros z Hz. apply H. by right.
Qed.
Lemma linksOff_below vs s s' : Gone vs s s' ->
  (forall y, alive s y -> getOb s' shadowing None y = if decide (y ∈ vs) then None else getOb s shadowing None y) ->
  forall y, alive s y -> y ∉ vs -> below s' y = below s y.
Proof.
  intros G L y Hy Hn. unfold below. rewrite (L y Hy), decide_False by done. apply lock_ext, (gone_alive _ _ _ G).
Qed.

Lemma destructChain_spec f l : forall x s n, NoDup (x :: l) ->
  (forall y, y ∈ x :: l -> alive s y /\ isDestructed s y = false) ->
  down s x l -> above s x = None -> (length l < n)%nat ->
  exists s', destructChain n (destructObject onDestructed (S f)) x s = (Ok tt, s') /\ Gone (x :: l) s s' /\ linksOff (x :: l) s s'.
Proof using quietly.
  induction l as [|b l IH]; intros x s n ND Hall Hd Ha Hn; (destruct n as [|n]; [cbn in Hn; lia|]); cbn [destructChain];
    destruct (Hall x ltac:(by left)) as [Hx Hxd];
    destruct (destruct_round f x s Hx Hxd Ha) as (s1 & E & G & L);
    unfold mbind at 1, mgets at 1; fold (below s x); rewrite mbind_assoc2; erewrite mbind_run by exact E.
  - cbn in Hd. rewrite Hd. exists s1. split; [done|]. split; [done|]. intros y Hy. destruct (L y Hy) as [-> ->].
    rewrite Hd. split; apply decide_ext; rewrite list_elem_of_singleton; naive_solver.
  - destruct Hd as [Hb Hd]. rewrite Hb. apply list.NoDup_cons in ND as [Hxl ND].
    assert (forall y, y ∈ b :: l -> alive s y /\ isDestructed s y = false /\ y <> x) as Hrest.
    { intros y Hy. destruct (Hall y) as [? ?]; [by right|]. split_and!; [done|done|]. by intros ->. }
    destruct (IH b s1 n ND) as (s' & E' & G' & L').
    + intros y Hy. destruct (Hrest y Hy) as (H1 & H2 & H3). split; [by apply (gone_alive _ _ _ G)|].
      rewrite (gone_destructed _ _ _ G), H2, bool_decide_eq_false_2; [done|]. by rewrite list_elem_of_singleton.
    + apply (down_same s); [|done]. intros y Hy. destruct (Hrest y Hy) as (H1 & H2 & H3).
      unfold below. rewrite (proj2 (L y H1)), decide_False by done. apply lock_ext, (gone_alive _ _ _ G).
    + destruct (Hrest b) as (H1 & _); [by left|]. unfold above. rewrite (proj1 (L b H1)), decide_True by by right. done.
    + cbn in Hn. lia.
    + exists s'. split; [done|]. split; [exact (Gone_app [x] (b :: l) s s1 s' G G')|]. intros y Hy.
      destruct (L' y) as [-> ->]; [by apply (gone_alive _ _ _ G)|]. destruct (L y Hy) as [-> ->]. rewrite Hb.
      destruct (decide (y ∈ b :: l)) as [Hin|Hin].
      * rewrite !decide_True by by right. done.
      * assert (y <> b) by (intros ->; apply Hin; by left).
        split; apply decide_ext; rewrite elem_of_cons; naive_solver.
Qed.

(** What goes with [o]: the base of a chain takes the chain with it. *)
Definition victims (s : VMState) (o : oid) (l : list oid) : list oid :=
  match below s o with Some _ => [o] | None => o :: l end.

Lemma chain_short s l : NoDup l -> (forall y, y ∈ l -> alive s y) -> (length l <= size (objects s))%nat.
Proof.
  intros ND Hl. rewrite <- size_dom, <- (size_list_to_set (C := gset oid) l) by done.
  apply subseteq_size. intros y. rewrite elem_of_list_to_set. intros Hy. apply elem_of_dom. by apply Hl.
Qed.

(** The whole chain goes, outermost object first. *)
Lemma destruct_base f o a l s : chain s o (a :: l) -> NoDup (o :: a :: l) ->
  (forall y, y ∈ o :: a :: l -> alive s y /\ isDestructed s y = false) -> below s o = None ->
  exists s' vs, destructObject onDestructed (S (S f)) o s = (Ok tt, s') /\ vs ≡ₚ o :: a :: l /\ Gone vs s s' /\ linksOff vs s s'.
Proof using quietly.
  intros Hc ND Hall Hb. destruct (rev (a :: l) ++ [o]) as [|x vs] eqn:Er; [by destruct (rev (a :: l))|].
  destruct (chain_down s (a :: l) o [] x vs Hc Hb Er) as (Hd & Hx & E).
  assert (x :: vs ≡ₚ o :: a :: l) as Hp.
  { rewrite <- Er, Permutation_app_comm. cbn [app]. by rewrite <- (Permutation_rev (a :: l)). }
  assert (length (a :: l) <= size (objects s))%nat as Hlen.
  { apply chain_short; [by inversion ND|]. intros y Hy. apply Hall. by right. }
  destruct (destructChain_spec f vs x s (shadowFuel s)) as (s' & Es & G & L); [by rewrite Hp| |done|done| |].
  - intros y. rewrite Hp. apply Hall.
  - apply Permutation_length in Hp. unfold shadowFuel. cbn in *. lia.
  - exists s', (x :: vs). split_and!; [|done..]. destruct Hc as (Ha & _ & Hc). rewrite <- Es.
    destruct (Hall o) as [_ Ho]; [by left|]. remember (S f) as g. cbn [destructObject]. unfold mbind at 1 2 3, mgets.
    rewrite Ho. fold (above s o) (below s o). rewrite Ha, Hb. unfold mbind, liftS.
    rewrite (topShadow_chain s l a) by (done || (unfold shadowFuel; cbn in Hlen; lia)).
    rewrite last_cons in E. cbn [from_option]. by destruct (list.last l); subst x.
Qed.

Lemma Gone_perm vs ws s s' : vs ≡ₚ ws -> Gone vs s s' -> Gone ws s s'.
Proof.
  intros Hp [A0 H0 D0 R0 E0 I0 S0 SB0 L0 N0 RO0 LD0 OM0 RS0]. split; intros; rewrite <- ?Hp; auto.
  - rewrite D0. f_equal. apply bool_decide_ext. by rewrite Hp.
  - rewrite R0. apply decide_ext. by rewrite Hp.
  - rewrite E0. apply decide_ext. by rewrite Hp.
  - rewrite I0. apply list_filter_iff. intros x. by rewrite Hp.
  - rewrite S0. apply decide_ext. by rewrite Hp.
  - rewrite SB0. apply decide_ext. by rewrite Hp.
  - rewrite LD0. apply decide_ext. by rewrite Hp.
Qed.

(** No shadow link is left to or from the victims, and the neighbours of one
    that was spliced out are linked. *)
Definition relinked (vs : list oid) (o : oid) (s s' : VMState) : Prop := forall y, alive s y ->
  above s' y = (if decide (y ∈ vs) then None else if decide (below s o = Some y) then above s o else above s y) /\
  below s' y = (if decide (y ∈ vs) then None else if decide (above s o = Some y) then below s o else below s y).

Lemma relinked_chain o a l s s' vs : chain s o (a :: l) -> below s o = None -> vs ≡ₚ o :: a :: l ->
  Gone vs s s' -> linksOff vs s s' -> relinked (o :: a :: l) o s s'.
Proof.
  intros Hc Hb Hp G L y Hy. change (above s' y) with (lock s' (getOb s' shadowedBy None y)).
  change (below s' y) with (lock s' (getOb s' shadowing None y)). destruct (L y Hy) as [-> ->].
  rewrite (decide_False (P := below s o = Some y)) by congruence.
  destruct (decide (y ∈ vs)) as [Hin|Hin]; rewrite Hp in Hin.
  - by rewrite !decide_True.
  - rewrite !(decide_False (P := y ∈ _)) by done. destruct Hc as [Ha _].
    rewrite (decide_False (P := above s o = Some y)).
    + split; apply lock_ext, (gone_alive _ _ _ G).
    + rewrite Ha. intros [= ->]. apply Hin. right. by left.
Qed.
Lemma relinked_one o s s' : alive s o -> ~ (is_Some (above s o) /\ below s o = None) ->
  Gone [o] s s' -> sameLinks (spliced o s) s' -> relinked [o] o s s'.
Proof.
  intros Ho Hbase G L y Hy. change (above s' y) with (lock s' (getOb s' shadowedBy None y)).
  change (below s' y) with (lock s' (getOb s' shadowing None y)). destruct (L y) as [-> ->].
  rewrite spliced_above, spliced_below by done.
  assert (forall w, lock s' w = lock s w) as El by (intros w; apply lock_ext, (gone_alive _ _ _ G)).
  rewrite !El, !(decide_ext (y ∈ [o]) (y = o)) by apply list_elem_of_singleton.
  destruct (decide (y = o)); [done|]. split.
  - destruct (decide (below s o = Some y)); [apply lock_idem|done].
  - by destruct (decide (above s o = Some y)).
Qed.
Lemma victims_one s o l : chain s o l -> victims s o l = [o] -> ~ (is_Some (above s o) /\ below s o = None).
Proof. unfold victims. intros Hc Hv [[a Ha] Hb]. rewrite Hb in Hv. injection Hv as ->. cbn in Hc. congruence. Qed.

End Destruct.

(** The callback the efun destruct passes, without the parser package. *)
Definition closeSockets (o : oid) : VM unit := closeAllOwnedBy (Some o).
Lemma closeSockets_discreet : discreet closeSockets.
Proof. intros o s. by eexists. Qed.


(** A clone has the file name of its blueprint: destructing it makes the
    manager forget the blueprint, which is still alive. *)
Definition cloneWorld : VMState :=
  (newVM (configFor "fluffos" 1000)
    {[ 1%positive := newObject "/obj" 1 emptyProgram true 0;
       2%positive := (newObject "/obj" 1 emptyProgram true 0) <| isClone := true |> ]} ∅)
    <| om ::= fun m => m <| loaded := {[ "/obj" := 1%positive ]} |> |>.
Example destruct_clone_forgets :
  lookupLoadedObject "/obj" (om cloneWorld) = Some 1%positive /\
  let s' := snd (destructObject closeSockets 1 2 cloneWorld) in
  lookupLoadedObject "/obj" (om s') = None /\ isDestructed s' 1 = false /\ isDestructed s' 2 = true.
Proof. vm_compute. by split_and!. Qed.
