(* ===== verification/Paths.v ===== *)
(** * Paths: what file efuns may name

    [legalPathFluffos], [legalPathLdmud] and [checkValidPath] of
    src/efun/EfunTable.cpp, [VM::resolveMudlibPath] of src/vm/VM.cpp and
    [normalizeSavePath]: the gate between a path an LPC program passes to a
    file efun and the path the operating system is given.

    The two walks read [path[p]], [path[p + 1]] through a pointer [p]; here the
    walk holds the rest of the path from [p] on, and a byte past the end reads
    as NUL, as the code's [at] does. *)
From S2P Require Import Prelude CLib Value Bytecode Lookup Machine Calls ObjectManager.
Local Open Scope Z_scope.

(** [path.find(c) != npos] *)
Definition contains (c : ascii) (s : string) : bool := is_some (index_of (Ascii.eqb c) s).

(** [s.c_str()]: what the operating system reads of a path. *)
Definition c_str (s : string) : string := fst (span (fun c => negb (Ascii.eqb c NUL)) s).

(** ** legalPathFluffos *)

(** One step per dot the loop visits; every step moves [p] forward, so the
    length of the path bounds them. *)
Fixpoint fluffosWalk (fuel : nat) (path : string) : bool :=
  match fuel with
  | O => false
  | S f =>
      let onward path :=
        match find_str "/." path with
        | None => true
        | Some next => fluffosWalk f (sdrop (next + 1) path)
        end in
      if Ascii.eqb (char_at path 0) "." then
        if Ascii.eqb (char_at path 1) NUL then true
        else
          let path' := if Ascii.eqb (char_at path 1) "." then sdrop 1 path else path in
          if Ascii.eqb (char_at path' 1) "/" || Ascii.eqb (char_at path' 1) NUL then false
          else onward path'
      else onward path
  end.

Definition legalPathFluffos (path : string) : bool :=
  if String.eqb path "" then false
  else if Ascii.eqb (char_at path 0) "/" then false
  else if contains "#" path then false
  else fluffosWalk (S (String.length path)) path.

(** ** legalPathLdmud *)

(** [before] is the part of the path the walk has passed. *)
Fixpoint ldmudWalk (fuel : nat) (before path : string) : bool :=
  match fuel with
  | O => false
  | S f =>
      match index_of (Ascii.eqb ".") path with
      | None => true
      | Some p =>
          let before' := before +:+ stake p path in
          let path' := sdrop p path in
          if negb (Ascii.eqb (char_at path' 1) ".") then
            ldmudWalk f (before' +:+ stake 1 path') (sdrop 1 path')
          else
            let afterSecond := char_at path' 2 in
            let atComponentStart :=
              String.eqb before' "" || Ascii.eqb (char_at before' (String.length before' - 1)) "/" in
            if (Ascii.eqb afterSecond NUL || Ascii.eqb afterSecond "/") && atComponentStart then false
            else ldmudWalk f (before' +:+ stake 2 path') (sdrop 2 path')
      end
  end.

Definition legalPathLdmud (path : string) : bool :=
  if contains " " path then false
  else if negb (String.eqb path "") && Ascii.eqb (char_at path 0) "/" then false
  else ldmudWalk (S (String.length path)) "" path.

(** ** resolveMudlibPath and normalizeSavePath *)
Definition resolveMudlibPath (c : Config) (lpcPath : string) : string :=
  mudlibRoot c +:+ (if String.eqb lpcPath "" || negb (Ascii.eqb (char_at lpcPath 0) "/")
                    then String "/" lpcPath else lpcPath).

(** [if (size >= 2 && compare(size - 2, 2, suffix) == 0) erase(size - 2)] *)
Definition stripSuffix (suffix s : string) : string :=
  let n := (String.length s - 2)%nat in
  if (2 <=? String.length s)%nat && String.eqb (sdrop n s) suffix then stake n s else s.

Definition normalizeSavePath (path : string) : string :=
  stripSuffix ".o" (stripSuffix ".c" path) +:+ ".o".

(** ** checkValidPath *)
Definition stripSlash (path : string) : string :=
  if negb (String.eqb path "") && Ascii.eqb (char_at path 0) "/" then sdrop 1 path else path.

Definition legalPath (ldmud : bool) (path : string) : bool :=
  if ldmud then legalPathLdmud path else legalPathFluffos path.

Section Check.
Context (run : RunFn) (ticks : nat -> Z).

Definition validArgs (rawPath funcName : string) (s : VMState) : list Value :=
  let caller := currentObject s in
  if String.eqb (cfg_dialect (config s)) "ldmud" then
    let uidName := match caller with
                   | Some c => if uidActive (uidModel (om s)) then getOb s euid None c
                               else getOb s privs None c
                   | None => None
                   end in
    [V (Str rawPath); match uidName with Some u => V (Str u) | None => Void end;
     V (Str funcName); V (Obj caller)]
  else [V (Str rawPath); V (Obj caller); V (Str funcName)].

(** What the answer of the master makes of the path. *)
Definition gatedPath (rawPath : string) (result : Value) : option string :=
  match data result with
  | Monostate => Some rawPath
  | Int denied => if denied =? 0 then None else Some rawPath
  | Str rewritten => Some rewritten
  | _ => Some rawPath
  end.

Definition checkValidPath (rawPath : string) (writeFlag : bool) (funcName : string)
    : VM (option string) :=
  master <- mgets masterOb ;;
  if negb (is_some master) then mret (Some rawPath) else
  caller <- mgets currentObject ;;
  args <- mgets (validArgs rawPath funcName) ;;
  result <- applyMaster run ticks (if writeFlag then "valid_write" else "valid_read") args ;;
  match gatedPath rawPath result with
  | None => mret None
  | Some approved =>
      let checkPath := stripSlash approved in
      ldmud <- mgets (fun s => String.eqb (cfg_dialect (config s)) "ldmud") ;;
      if legalPath ldmud checkPath then mret (Some approved)
      else if ldmud : bool then
        name <- mgets (fun s => match caller with Some c => getOb s filename "" c | None => "?" end) ;;
        throwRuntime ("Illegal path '" +:+ checkPath +:+ "' for " +:+ funcName +:+ "() by " +:+ name)
      else mret None
  end.
End Check.

Example fluffos_paths :
  map legalPathFluffos ["save/x.o"; "."; "a/."; "a/..b"; "a/..."; ""; "/x"; "a#1"; "../x"; "a/../x"; "a/.."; "./x"; "a/./x"]
  = [true; true; true; true; true; false; false; false; false; false; false; false; false].
Proof. vm_compute. reflexivity. Qed.
Example ldmud_paths :
  map legalPathLdmud ["save/x.o"; "./x"; "a/./x"; "a#1"; "a.../x"; ""; "a x"; "/x"; "../x"; "a/../x"; "a/.."; "x.../.."]
  = [true; true; true; true; true; true; false; false; false; false; false; false].
Proof. vm_compute. reflexivity. Qed.
Example save_paths : map normalizeSavePath ["/std/user.c"; "/save/x.o"; "x"; ".c"] = ["/std/user.o"; "/save/x.o"; "x.o"; ".o"].
Proof. vm_compute. reflexivity. Qed.
