(* ===== verification/PathsFacts.v ===== *)
(** * PathsFacts: the path gate keeps file efuns inside the mudlib

    The two walks of Paths.v are the same as a test of every component of the
    path, and a path they accept, resolved below the mudlib root and read the
    way the operating system reads it, names something below that root. *)
From S2P Require Import Prelude CLib Value Bytecode Lookup Machine Calls ObjectManager Paths.
Local Open Scope Z_scope.

(** ** Strings as the walks read them *)
Definition isEnd (c : ascii) : bool := Ascii.eqb c "/" || Ascii.eqb c NUL.
Definition noNul : string -> bool := sforall (fun c => negb (Ascii.eqb c NUL)).

(** The components of a path. *)
Fixpoint components (s : string) : list string :=
  match s with
  | EmptyString => [""]
  | String c r =>
      if Ascii.eqb c "/" then "" :: components r
      else match components r with
           | [] => [str1 c]
           | w :: ws => String c w :: ws
           end
  end.

(** The walks, without pointers: [start] says a component begins here. *)
Fixpoint fluffosScan (start : bool) (s : string) : bool :=
  match s with
  | EmptyString => true
  | String c r =>
      if start && Ascii.eqb c "." then
        if Ascii.eqb (char_at r 0) NUL then true
        else if Ascii.eqb (char_at r 0) "." then
          if isEnd (char_at r 1) then false else fluffosScan false r
        else if isEnd (char_at r 0) then false
        else fluffosScan false r
      else fluffosScan (Ascii.eqb c "/") r
  end.

Fixpoint ldmudScan (start : bool) (s : string) : bool :=
  match s with
  | EmptyString => true
  | String c r =>
      if start && Ascii.eqb c "." && Ascii.eqb (char_at r 0) "." && isEnd (char_at r 1) then false
      else ldmudScan (Ascii.eqb c "/") r
  end.

Lemma sdrop_sdrop n m s : sdrop n (sdrop m s) = sdrop (m + n) s.
Proof. revert s. induction m as [|m IH]; intros [|c s]; simpl; try done. by destruct n. Qed.

(** Between two components nothing happens. *)
Lemma fluffosScan_onward s :
  fluffosScan false s = match find_str "/." s with
                        | None => true
                        | Some n => fluffosScan true (sdrop (n + 1) s)
                        end.
Proof.
  induction s as [|c r IH]; [done|]. cbn [fluffosScan find_str andb].
  destruct (Ascii.eqb c "/") eqn:Ec.
  - apply Ascii.eqb_eq in Ec as ->. destruct r as [|d r]; [done|]. cbn [sprefix].
    rewrite Ascii.eqb_refl, (Ascii.eqb_sym "." d). cbn [andb].
    destruct (Ascii.eqb d ".") eqn:Ed; [done|].
    transitivity (fluffosScan false (String d r)); [cbn [fluffosScan]; by rewrite Ed|].
    rewrite IH. by destruct (find_str "/." (String d r)).
  - cbn [sprefix]. rewrite Ascii.eqb_sym, Ec. cbn [andb]. rewrite IH. by destruct (find_str "/." r).
Qed.

Lemma fluffosWalk_scan fuel s :
  (String.length s < fuel)%nat -> fluffosWalk fuel s = fluffosScan true s.
Proof.
  revert s. induction fuel as [|f IH]; intros s Hf; [lia|]. cbn [fluffosWalk].
  assert (forall t, (String.length t <= String.length s)%nat ->
    match find_str "/." t with None => true | Some n => fluffosWalk f (sdrop (n + 1) t) end
    = fluffosScan false t) as Onward.
  { intros t Ht. rewrite fluffosScan_onward. destruct (find_str "/." t) as [n|] eqn:E; [|done].
    apply IH. rewrite sdrop_length. destruct t; [done|]. simpl in *. lia. }
  destruct s as [|c r]; [done|].
  change (char_at (String c r) 0) with c. change (char_at (String c r) 1) with (char_at r 0).
  cbn [fluffosScan andb]. destruct (Ascii.eqb c ".") eqn:Ec.
  - destruct (Ascii.eqb (char_at r 0) NUL) eqn:E0; [done|].
    destruct (Ascii.eqb (char_at r 0) ".") eqn:E1.
    + cbn [sdrop]. fold (isEnd (char_at r 1)). destruct (isEnd _); [done|]. apply Onward. simpl. lia.
    + change (char_at (String c r) 1) with (char_at r 0). fold (isEnd (char_at r 0)).
      destruct (isEnd _) eqn:E2; [done|]. rewrite Onward by done.
      cbn [fluffosScan andb]. apply Ascii.eqb_eq in Ec as ->. done.
  - rewrite Onward by done. cbn [fluffosScan andb].
    (* the first component does not begin with a dot *) done.
Qed.

(** ** Components *)
Definition isDots (w : string) : bool := String.eqb w "." || String.eqb w "..".

(** No component is [..], and only the last may be [.]. *)
Fixpoint fluffosComponents (ws : list string) : bool :=
  match ws with
  | [] => true
  | w :: ws' => negb (String.eqb w "..") && (negb (String.eqb w ".") || bool_decide (ws' = [])) && fluffosComponents ws'
  end.

Lemma components_cons s : exists w ws, components s = w :: ws.
Proof.
  destruct s as [|c r]; simpl; [eauto|]. destruct (Ascii.eqb c "/"); [eauto|].
  destruct (components r); eauto.
Qed.

Lemma components_char c r w ws :
  Ascii.eqb c "/" = false -> components r = w :: ws -> components (String c r) = String c w :: ws.
Proof. intros Hc E. simpl. by rewrite Hc, E. Qed.

Lemma components_end r w ws :
  noNul r = true -> components r = w :: ws -> isEnd (char_at r 0) = String.eqb w "".
Proof.
  intros Hn E. destruct r as [|c r]; [by injection E as <- <-|].
  cbn [noNul sforall] in Hn. apply andb_true_iff in Hn as [Hc _]. apply negb_true_iff in Hc.
  unfold isEnd. change (char_at (String c r) 0) with c. rewrite Hc, orb_false_r.
  simpl in E. destruct (Ascii.eqb c "/"); [by injection E as <- <-|].
  destruct (components r); by injection E as <- <-.
Qed.

Lemma noNul_cons c r : noNul (String c r) = true -> Ascii.eqb c NUL = false /\ noNul r = true.
Proof. cbn. rewrite andb_true_iff, negb_true_iff. done. Qed.

Lemma fluffosComponents_plain w ws : isDots w = false -> fluffosComponents (w :: ws) = fluffosComponents ws.
Proof. intros H. apply orb_false_iff in H as [H1 H2]. cbn. by rewrite H1, H2. Qed.

Lemma eqb_cons c s d t : String.eqb (String c s) (String d t) = Ascii.eqb c d && String.eqb s t.
Proof. simpl. by destruct (Ascii.eqb c d). Qed.

Lemma fluffosScan_components s :
  noNul s = true ->
  fluffosScan true s = fluffosComponents (components s) /\
  fluffosScan false s = fluffosComponents (tail (components s)).
Proof.
  induction s as [|c r IH]; intros Hn; [done|]. apply noNul_cons in Hn as [Hc Hn].
  destruct (IH Hn) as [IHt IHf]. clear IH. destruct (components_cons r) as (w & ws & E).
  pose proof (components_end r w ws Hn E) as Hw. rewrite E in *. cbn [tail] in IHf.
  destruct (Ascii.eqb c "/") eqn:Es.
  { apply Ascii.eqb_eq in Es as ->. change (components (String "/" r)) with ("" :: components r).
    change (fluffosScan true (String "/" r)) with (fluffosScan true r).
    change (fluffosScan false (String "/" r)) with (fluffosScan true r).
    rewrite E. cbn [tail]. rewrite fluffosComponents_plain by done. by rewrite IHt. }
  rewrite (components_char c r w ws Es E). cbn [tail].
  assert (fluffosScan false (String c r) = fluffosComponents ws) as Hf by (cbn [fluffosScan andb]; by rewrite Es).
  split; [|done]. destruct (Ascii.eqb c ".") eqn:Ed.
  2:{ rewrite fluffosComponents_plain by (unfold isDots; by rewrite !eqb_cons, Ed).
      rewrite <- Hf. cbn [fluffosScan]. by rewrite Ed. }
  apply Ascii.eqb_eq in Ed as ->. cbn [fluffosScan andb]. change (Ascii.eqb "." ".") with true. cbn iota.
  destruct r as [|d r]; [by injection E as <- <-|]. apply noNul_cons in Hn as [Hd Hn].
  change (char_at (String d r) 0) with d in *. change (char_at (String d r) 1) with (char_at r 0). rewrite Hd.
  destruct (components_cons r) as (w' & ws' & E'). pose proof (components_end r w' ws' Hn E') as Hw'.
  destruct (Ascii.eqb d ".") eqn:Edd.
  - apply Ascii.eqb_eq in Edd as ->. rewrite (components_char "." r w' ws' eq_refl E') in E. injection E as <- <-.
    rewrite Hw', IHf. destruct (String.eqb w' "") eqn:Ew.
    + apply String.eqb_eq in Ew as ->. done.
    + rewrite fluffosComponents_plain; [done|]. unfold isDots. rewrite !eqb_cons. cbn. by rewrite Ew.
  - rewrite Hw, IHf. destruct (String.eqb w "") eqn:Ew.
    + apply String.eqb_eq in Ew as ->. cbn. destruct ws; [|done]. exfalso.
      simpl in E. destruct (Ascii.eqb d "/"); [|by destruct (components r)]. injection E as E. congruence.
    + rewrite fluffosComponents_plain; [done|]. unfold isDots. rewrite !eqb_cons. cbn. rewrite Ew.
      simpl in E. destruct (Ascii.eqb d "/"); [injection E as <- _; done|].
      destruct (components r); injection E as <- _; simpl; by rewrite Edd.
Qed.

(** ** The LDMud walk *)
Lemma ldmudScan_index s start :
  ldmudScan start s =
  match index_of (Ascii.eqb ".") s with
  | None => true
  | Some n => ldmudScan (if decide (n = O) then start else Ascii.eqb (char_at s (n - 1)) "/") (sdrop n s)
  end.
Proof.
  revert start. induction s as [|c r IH]; intros start; [done|]. cbn [index_of].
  destruct (Ascii.eqb "." c) eqn:Ec; [done|]. cbn [ldmudScan]. rewrite (Ascii.eqb_sym c "."), Ec, andb_false_r. cbn [andb].
  rewrite IH. destruct (index_of _ r) as [[|n]|]; [done| |done]. cbn. by rewrite Nat.sub_0_r.
Qed.

Definition startsComponent (before : string) : bool :=
  String.eqb before "" || Ascii.eqb (char_at before (String.length before - 1)) "/".

Lemma startsComponent_snoc b c : startsComponent (b +:+ str1 c) = Ascii.eqb c "/".
Proof.
  unfold startsComponent. assert (String.eqb (b +:+ str1 c) "" = false) as -> by (by destruct b).
  rewrite slength_app. change (String.length (str1 c)) with 1%nat. rewrite Nat.add_sub. cbn [orb]. f_equal.
  unfold char_at. induction b as [|d b IH]; [done|]. rewrite sapp_cons. cbn. exact IH.
Qed.

Lemma startsComponent_app b s n :
  (n <= String.length s)%nat ->
  startsComponent (b +:+ stake n s) =
  if decide (n = O) then startsComponent b else Ascii.eqb (char_at s (n - 1)) "/".
Proof.
  intros Hn. destruct n as [|n].
  - rewrite decide_True by done. destruct s; by rewrite sapp_nil_r.
  - rewrite decide_False by done. rewrite Nat.sub_succ, Nat.sub_0_r.
    assert (exists t, stake (S n) s = t +:+ str1 (char_at s n)) as [t ->].
    { clear b. revert s Hn. induction n as [|n IH]; intros [|c s] Hn; simpl in Hn; try lia.
      - exists "". by destruct s.
      - destruct (IH s ltac:(lia)) as [t Et]. exists (String c t). rewrite sapp_cons. cbn [stake] in *. by rewrite Et. }
    by rewrite <- sapp_assoc, startsComponent_snoc.
Qed.

Lemma index_of_drop p s n :
  index_of p s = Some n -> (n < String.length s)%nat /\ exists c r, sdrop n s = String c r /\ p c = true.
Proof.
  revert n. induction s as [|c s IH]; intros n; [done|]. cbn [index_of].
  destruct (p c) eqn:E; [intros [= <-]; cbn; split; [lia|eauto]|].
  destruct (index_of p s) as [m|]; [|done]. intros [= <-]. destruct (IH m eq_refl) as (H & c' & r & Ed & Hc).
  cbn. split; [lia|eauto].
Qed.

Lemma ldmudWalk_scan fuel before path :
  (String.length path < fuel)%nat -> ldmudWalk fuel before path = ldmudScan (startsComponent before) path.
Proof.
  revert before path. induction fuel as [|f IH]; intros before path Hf; [lia|]. cbn [ldmudWalk].
  rewrite ldmudScan_index. destruct (index_of _ path) as [p|] eqn:E; [|done].
  destruct (index_of_drop _ _ _ E) as (Hp & c & r & Ed & Hc). apply Ascii.eqb_eq in Hc as <-.
  rewrite <- startsComponent_app by lia. fold (startsComponent (before +:+ stake p path)).
  pose proof (sdrop_length p path) as Hl. rewrite Ed in *. set (b := before +:+ stake p path).
  change (char_at (String "." r) 1) with (char_at r 0). change (char_at (String "." r) 2) with (char_at r 1).
  cbn [ldmudScan sdrop stake]. cbn in Hl. destruct (Ascii.eqb (char_at r 0) ".") eqn:E0; cbn [negb].
  - destruct r as [|d r2]; [done|]. change (char_at (String d r2) 0) with d in E0. apply Ascii.eqb_eq in E0 as ->.
    change (char_at (String "." r2) 1) with (char_at r2 0). change (char_at r2 0) with (char_at r2 0).
    fold (isEnd (char_at r2 0)). rewrite (orb_comm (Ascii.eqb _ NUL)). fold (isEnd (char_at r2 0)).
    change (Ascii.eqb "." ".") with true. rewrite !andb_true_r, (andb_comm (startsComponent b)).
    change (ldmudScan (Ascii.eqb "." "/") (String "." r2)) with (ldmudScan false r2).
    destruct (isEnd (char_at r2 0) && startsComponent b)%bool; [done|].
    cbn in Hl. rewrite IH by (cbn; lia). f_equal.
    change (b +:+ _) with (b +:+ (str1 "." +:+ str1 ".")). by rewrite <- sapp_assoc, startsComponent_snoc.
  - rewrite andb_false_r. cbn [andb]. rewrite IH by (cbn; lia).
    exact (f_equal (fun st => ldmudScan st r) (startsComponent_snoc b ".")).
Qed.

(** No component is [..]. *)
Definition ldmudComponents (ws : list string) : bool := forallb (fun w => negb (String.eqb w "..")) ws.

Lemma ldmudScan_components s :
  noNul s = true ->
  ldmudScan true s = ldmudComponents (components s) /\
  ldmudScan false s = ldmudComponents (tail (components s)).
Proof.
  induction s as [|c r IH]; intros Hn; [done|]. apply noNul_cons in Hn as [Hc Hn].
  destruct (IH Hn) as [IHt IHf]. clear IH. destruct (components_cons r) as (w & ws & E). rewrite E in *. cbn [tail] in IHf.
  destruct (Ascii.eqb c "/") eqn:Es.
  { apply Ascii.eqb_eq in Es as ->. change (components (String "/" r)) with ("" :: components r).
    change (ldmudScan true (String "/" r)) with (ldmudScan true r).
    change (ldmudScan false (String "/" r)) with (ldmudScan true r). by rewrite IHt, E. }
  rewrite (components_char c r w ws Es E). cbn [ldmudScan andb tail]. rewrite Es. split; [|done].
  cbn [ldmudComponents forallb]. fold (ldmudComponents ws). rewrite IHf.
  assert (Ascii.eqb c "." && Ascii.eqb (char_at r 0) "." && isEnd (char_at r 1) = String.eqb (String c w) "..") as ->.
  2:{ by destruct (String.eqb (String c w) ".."). }
  rewrite eqb_cons. destruct (Ascii.eqb c "."); [|done]. cbn [andb].
  destruct r as [|d r]; [by injection E as <- <-|]. change (char_at (String d r) 0) with d.
  change (char_at (String d r) 1) with (char_at r 0). apply noNul_cons in Hn as [Hd Hn].
  destruct (components_cons r) as (w' & ws' & E'). rewrite (components_end r w' ws' Hn E').
  cbn [components] in E. destruct (Ascii.eqb d "/") eqn:Ed.
  - injection E as <- <-. apply Ascii.eqb_eq in Ed as ->. done.
  - rewrite E' in E. injection E as <- <-. by rewrite eqb_cons.
Qed.

(** ** The gate, component by component *)

(** What [checkValidPath] hands to the legality check is accepted exactly
    when its components are harmless (paths without NUL bytes). *)
Theorem legal_paths (ldmud : bool) path :
  noNul path = true ->
  legalPath ldmud path =
  if ldmud then negb (contains " " path) && negb (Ascii.eqb (char_at path 0) "/") && ldmudComponents (components path)
  else negb (String.eqb path "") && negb (Ascii.eqb (char_at path 0) "/") && negb (contains "#" path)
       && fluffosComponents (components path).
Proof.
  intros Hn. destruct ldmud; cbn [legalPath].
  - unfold legalPathLdmud. destruct (contains " " path); [done|]. cbn [negb andb].
    rewrite ldmudWalk_scan by lia. destruct (ldmudScan_components path Hn) as [<- _].
    destruct path; [done|]. change (String.eqb (String a path) "") with false. cbn [negb andb].
    by destruct (Ascii.eqb _ "/").
  - unfold legalPathFluffos. rewrite fluffosWalk_scan by lia. destruct (fluffosScan_components path Hn) as [<- _].
    destruct (String.eqb path ""), (Ascii.eqb _ "/"), (contains "#" path); done.
Qed.

(** ** Paths with NUL bytes

    The walks stop where the operating system stops reading. *)
Lemma c_str_cons c r : Ascii.eqb c NUL = false -> c_str (String c r) = String c (c_str r).
Proof. intros H. unfold c_str. cbn [span]. rewrite H. cbn [negb]. by destruct (span _ r). Qed.
Lemma c_str_nul c r : Ascii.eqb c NUL = true -> c_str (String c r) = "".
Proof. intros H. unfold c_str. cbn [span]. by rewrite H. Qed.

Lemma c_str_noNul s : noNul (c_str s) = true.
Proof.
  induction s as [|c r IH]; [done|]. destruct (Ascii.eqb c NUL) eqn:E; [by rewrite c_str_nul|].
  rewrite c_str_cons by done. cbn. by rewrite E.
Qed.

Lemma c_str_id s : noNul s = true -> c_str s = s.
Proof.
  induction s as [|c r IH]; [done|]. intros [Hc Hr]%noNul_cons. rewrite c_str_cons by done. by rewrite IH.
Qed.

Lemma c_str_app a b : noNul a = true -> c_str (a +:+ b) = a +:+ c_str b.
Proof.
  induction a as [|c a IH]; [done|]. intros [Hc Ha]%noNul_cons. rewrite !sapp_cons, c_str_cons by done. by rewrite IH.
Qed.

Lemma c_str_char s : char_at (c_str s) 0 = char_at s 0.
Proof.
  destruct s as [|c r]; [done|]. destruct (Ascii.eqb c NUL) eqn:E; [|by rewrite c_str_cons].
  rewrite c_str_nul by done. apply Ascii.eqb_eq in E as ->. done.
Qed.
Lemma c_str_char1 s : Ascii.eqb (char_at s 0) NUL = false -> char_at (c_str s) 1 = char_at s 1.
Proof. destruct s as [|c r]; [done|]. intros E. rewrite c_str_cons by done. apply c_str_char. Qed.

Lemma fluffosScan_c_str s start : fluffosScan start s = true -> fluffosScan start (c_str s) = true.
Proof.
  revert start. induction s as [|c r IH]; intros start; [done|].
  destruct (Ascii.eqb c NUL) eqn:E; [by rewrite c_str_nul|]. rewrite c_str_cons by done. cbn [fluffosScan].
  rewrite c_str_char. destruct (start && Ascii.eqb c ".")%bool; [|apply IH].
  destruct (Ascii.eqb (char_at r 0) NUL) eqn:E0; [done|].
  rewrite c_str_char1 by done. destruct (Ascii.eqb (char_at r 0) "."); [destruct (isEnd (char_at r 1))|destruct (isEnd (char_at r 0))]; auto.
Qed.

Lemma ldmudScan_c_str s start : ldmudScan start s = true -> ldmudScan start (c_str s) = true.
Proof.
  revert start. induction s as [|c r IH]; intros start; [done|].
  destruct (Ascii.eqb c NUL) eqn:E; [by rewrite c_str_nul|]. rewrite c_str_cons by done. cbn [ldmudScan].
  rewrite c_str_char. destruct (Ascii.eqb (char_at r 0) ".") eqn:E0.
  - rewrite c_str_char1 by (apply Ascii.eqb_eq in E0 as ->; done).
    destruct (start && Ascii.eqb c "." && true && isEnd (char_at r 1))%bool; [done|apply IH].
  - rewrite andb_false_r. cbn [andb]. apply IH.
Qed.

Lemma fluffosComponents_parent ws : fluffosComponents ws = true -> ldmudComponents ws = true.
Proof.
  induction ws as [|w ws IH]; [done|]. cbn. rewrite !andb_true_iff. intros [[H1 _] H2]. auto.
Qed.

(** What the gate accepts names no parent directory. *)
Lemma legalPath_parent ldmud path : legalPath ldmud path = true -> ".." ∉ components (c_str path).
Proof.
  intros H. assert (ldmudComponents (components (c_str path)) = true) as F.
  { destruct ldmud; cbn [legalPath] in H.
    - unfold legalPathLdmud in H. destruct (contains " " path); [done|].
      destruct (negb (String.eqb path "") && Ascii.eqb (char_at path 0) "/")%bool; [done|].
      rewrite ldmudWalk_scan in H by lia. apply ldmudScan_c_str in H. change (startsComponent "") with true in H.
      by rewrite (proj1 (ldmudScan_components _ (c_str_noNul path))) in H.
    - unfold legalPathFluffos in H.
      destruct (String.eqb path ""), (Ascii.eqb (char_at path 0) "/"), (contains "#" path); try done.
      rewrite fluffosWalk_scan in H by lia. apply fluffosScan_c_str in H.
      rewrite (proj1 (fluffosScan_components _ (c_str_noNul path))) in H. by apply fluffosComponents_parent. }
  intros Hin. apply list_elem_of_In in Hin. unfold ldmudComponents in F. rewrite forallb_forall in F.
  by specialize (F _ Hin).
Qed.

(** ** What a path names

    The operating system walks the components: an empty one and [.] stay, [..]
    goes back, any other descends.  [enter] keeps the directories from the
    innermost on. *)
Definition enter (dir : list string) (w : string) : list string :=
  if String.eqb w "" || String.eqb w "." then dir
  else if String.eqb w ".." then tail dir else w :: dir.
Definition names (path : string) : list string := foldl enter [] (components (c_str path)).

Lemma components_join a b : components (a +:+ String "/" b) = components a ++ components b.
Proof.
  induction a as [|c a IH]; [done|]. rewrite sapp_cons. simpl. destruct (Ascii.eqb c "/"); [by rewrite IH|].
  rewrite IH. by destruct (components_cons a) as (w & ws & ->).
Qed.

Lemma enter_below ws dir : ".." ∉ ws -> exists below, foldl enter dir ws = below ++ dir.
Proof.
  revert dir. induction ws as [|w ws IH]; intros dir Hw; [by exists []|]. apply not_elem_of_cons in Hw as [Hw Hws].
  cbn [foldl]. unfold enter at 2. destruct (_ || _); [auto|].
  destruct (String.eqb_spec w ".."); [congruence|]. destruct (IH (w :: dir) Hws) as [below ->].
  exists (below ++ [w]). by rewrite <- app_assoc.
Qed.

Lemma resolveMudlibPath_strip c q : resolveMudlibPath c q = mudlibRoot c +:+ String "/" (stripSlash q).
Proof.
  unfold resolveMudlibPath, stripSlash. destruct q as [|d q]; [done|].
  change (String.eqb (String d q) "") with false. cbn [orb negb andb]. change (char_at (String d q) 0) with d.
  destruct (Ascii.eqb d "/") eqn:E; [|done]. apply Ascii.eqb_eq in E as ->. done.
Qed.

Lemma legal_below ldmud c q :
  noNul (mudlibRoot c) = true -> legalPath ldmud (stripSlash q) = true ->
  exists below, names (resolveMudlibPath c q) = below ++ names (mudlibRoot c).
Proof.
  intros Hr Hl. unfold names. rewrite resolveMudlibPath_strip, c_str_app by done.
  rewrite c_str_cons by done. rewrite components_join, foldl_app, (c_str_id (mudlibRoot c)) by done.
  apply enter_below. by eapply legalPath_parent.
Qed.

(** An approved path is legal in one dialect or the other; so it is below the root. *)
Lemma checkValidPath_legal run ticks raw (writeFlag : bool) funcName s q s' :
  is_some (masterOb s) = true -> checkValidPath run ticks raw writeFlag funcName s = (Ok (Some q), s') ->
  exists ldmud, legalPath ldmud (stripSlash q) = true.
Proof.
  intros Hm H. unfold checkValidPath in H. unfold mbind at 1, mgets at 1 in H. cbn iota beta in H. rewrite Hm in H.
  cbn [negb] in H. unfold mbind at 1, mgets at 1 in H. cbn iota beta in H. unfold mbind at 1, mgets at 1 in H. cbn iota beta in H.
  apply mbind_ok in H as (answer & s1 & _ & H). destruct (gatedPath raw answer) as [p|]; [|done].
  apply mbind_ok in H as (ldmud & s2 & El & H). injection El as _ <-.
  destruct (legalPath ldmud (stripSlash p)) eqn:Ep; [injection H as <- <-; by exists ldmud|].
  destruct ldmud; [|done]. apply mbind_ok in H as (nm & s3 & _ & H). done.
Qed.
Lemma checkValidPath_below run ticks raw (writeFlag : bool) funcName s q s' :
  is_some (masterOb s) = true -> noNul (mudlibRoot (config s)) = true ->
  checkValidPath run ticks raw writeFlag funcName s = (Ok (Some q), s') ->
  exists below, names (resolveMudlibPath (config s) q) = below ++ names (mudlibRoot (config s)).
Proof. intros Hm Hr [ldmud Hl]%checkValidPath_legal; [by eapply legal_below|done]. Qed.

(** C31: the gate of the file efuns confines them: when [checkValidPath]
    approves a path, the master was asked and its answer approved that very
    path, and resolved against the mudlib root, and read by the operating
    system, the path names the root or something below it.  In particular no
    answer of the master and no path of the caller leads above the root. *)
Theorem checkValidPath_confined run ticks raw (writeFlag : bool) funcName s q s' :
  is_some (masterOb s) = true -> noNul (mudlibRoot (config s)) = true ->
  checkValidPath run ticks raw writeFlag funcName s = (Ok (Some q), s') ->
  (exists answer,
     applyMaster run ticks (if writeFlag then "valid_write" else "valid_read") (validArgs raw funcName s) s = (Ok answer, s') /\
     gatedPath raw answer = Some q) /\
  exists below, names (resolveMudlibPath (config s) q) = below ++ names (mudlibRoot (config s)).
Proof.
  intros Hm Hr H. split; [|by eapply checkValidPath_below].
  unfold checkValidPath in H. unfold mbind at 1, mgets at 1 in H. cbn iota beta in H. rewrite Hm in H.
  cbn [negb] in H. unfold mbind at 1, mgets at 1 in H. cbn iota beta in H. unfold mbind at 1, mgets at 1 in H. cbn iota beta in H.
  apply mbind_ok in H as (answer & s1 & Ea & H). destruct (gatedPath raw answer) as [p|] eqn:Eg; [|done].
  apply mbind_ok in H as (ldmud & s2 & El & H). injection El as _ <-.
  destruct (legalPath ldmud (stripSlash p)) eqn:Ep; [injection H as <- <-; eauto|].
  destruct ldmud; [|done]. apply mbind_ok in H as (nm & s3 & _ & H). done.
Qed.

(** A master that rewrites every path it is asked about. *)
Definition rewritingMaster : VMState :=
  let pr := emptyProgram <| functions := [mkFunction "valid_write" 0 0 0 false false] |> in
  (newVM ((configFor "fluffos" 1000) <| mudlibRoot := "/srv/lib" |>)
    {[ 1%positive := newObject "/master" 1%positive pr false 0 ]} {[ 1%positive := pr ]})
    <| masterOb := Some 1%positive |>.
Definition rewrite_to (path : string) : RunFn := fun _ _ _ _ => mret (V (Str path)).

Lemma checkValidPath_confined_witness :
  fst (checkValidPath (rewrite_to "/save/x") (fun _ => 0) "../x" true "write_file" rewritingMaster) = Ok (Some "/save/x") /\
  exists below, names (resolveMudlibPath (config rewritingMaster) "/save/x") = below ++ names (mudlibRoot (config rewritingMaster)).
Proof.
  split; [reflexivity|].
  apply (checkValidPath_confined (rewrite_to "/save/x") (fun _ => 0) "../x" true "write_file" rewritingMaster "/save/x"
    (snd (checkValidPath (rewrite_to "/save/x") (fun _ => 0) "../x" true "write_file" rewritingMaster))); [reflexivity|reflexivity|vm_compute; reflexivity].
Defined.
