(* ===== verification/Files.v ===== *)
(** * Files: the file efuns of src/efun/EfunTable.cpp

    [read_file], [write_file], [read_bytes], [write_bytes], [file_size],
    [file_length], [cp], [link], [rm], [mkdir], [rmdir] and [rename] over the
    files of [disk].  An efun is a function of the interpreter and the argument
    list, as the [EfunTable] of Calls.v has it.

    [FileSystem] is the operating system: for each call that changes files,
    what it makes of them, or a failure.  A stream that was opened for writing
    takes all that is written; a directory opened for reading reads as empty. *)
From S2P Require Import Prelude CLib Value Bytecode Lookup Machine Calls Preprocess ObjectManager Paths.
Local Open Scope Z_scope.

Abbreviation Disk := (gmap string FileEntry) (only parsing).

Class FileSystem := {
  (** open for writing (created when missing), and the content it gets *)
  writeFile : string -> string -> Disk -> option Disk;
  removeFile : string -> Disk -> option Disk;
  makeDirectory : string -> Disk -> option Disk;
  removeDirectory : string -> Disk -> option Disk;
  renameFile : string -> string -> Disk -> option Disk;
  linkFile : string -> string -> Disk -> option Disk
}.

(** ** Arguments *)
Definition argStr (i : nat) (args : list Value) : option string :=
  match args !! i with Some v => match data v with Str s => Some s | _ => None end | None => None end.
Definition argInt (i : nat) (args : list Value) : option Z :=
  match args !! i with Some v => match data v with Int n => Some n | _ => None end | None => None end.

Definition getDisk {A} (f : Disk -> A) : VM A := getOm (fun m => f (disk m)).

(** A system call on the disk: whether it succeeded. *)
Definition onDisk (call : Disk -> option Disk) : VM bool := fun s =>
  match call (disk (om s)) with
  | Some d => (Ok true, modOm (fun m => m <| disk := d |>) s)
  | None => (Ok false, s)
  end.

Definition resolve (path : string) : VM string :=
  mgets (fun s => c_str (resolveMudlibPath (config s) path)).

Section Efuns.
Context `{FileSystem} (ops : VMOps).

(** [auto gated = checkValidPath(...); if (!gated) return denied;] and the
    resolved path. *)
Definition gated (raw : string) (writeFlag : bool) (name : string) (denied : Value)
    (k : string -> VM Value) : VM Value :=
  g <- checkValidPath (op_run ops) (op_ticks ops) raw writeFlag name ;;
  match g with
  | None => mret denied
  | Some p => path <- resolve p ;; k path
  end.

(** ** read_file and write_file *)
Fixpoint readLines (start numLines lineNo linesTaken : Z) (ls : list string) : string :=
  match ls with
  | [] => ""
  | line :: ls' =>
      let lineNo := lineNo + 1 in
      if lineNo <? start then readLines start numLines lineNo linesTaken ls'
      else if (0 <? numLines) && (numLines <=? linesTaken) then ""
      else line +:+ str1 NL +:+ readLines start numLines lineNo (linesTaken + 1) ls'
  end.

Definition read_file (args : list Value) : VM Value :=
  match argStr 0 args with
  | None => throwRuntime "read_file: expected a string filename argument"
  | Some file =>
      let start := Z.max 1 (default 1 (argInt 1 args)) in
      let numLines := default 0 (argInt 2 args) in
      if numLines <? 0 then mret (VInt 0) else
      gated file false "read_file" (VInt 0) (fun path =>
        f <- getDisk (fun d => d !! path) ;;
        match f with
        | None | Some Directory => mret (VInt 0)
        | Some (RegularFile t) =>
            if (length args <=? 1)%nat then mret (V (Str t))
            else mret (V (Str (readLines start numLines 0 0 (getlines t))))
        end)
  end.

Definition write_file (args : list Value) : VM Value :=
  match argStr 0 args, argStr 1 args with
  | Some file, Some content =>
      let truncate := bool_decide (argInt 2 args = Some 1) in
      gated file true "write_file" (VInt 0) (fun path =>
        ok <- onDisk (fun d => writeFile path
                ((if truncate then "" else default "" (openFile d path)) +:+ content) d) ;;
        mret (VBool ok))
  | _, _ => throwRuntime "write_file: expected (string file, string content) arguments"
  end.

(** ** file_size and file_length: the path is not checked *)
Fixpoint countNewlines (s : string) : Z :=
  match s with
  | EmptyString => 0
  | String c r => (if Ascii.eqb c NL then 1 else 0) + countNewlines r
  end.

Definition statPath (f : string -> Z) (file : string) : VM Value :=
  path <- resolve file ;;
  e <- getDisk (fun d => d !! path) ;;
  mret (VInt (match e with None => -1 | Some Directory => -2 | Some (RegularFile t) => f t end)).

Definition file_size (args : list Value) : VM Value :=
  match argStr 0 args with
  | None => throwRuntime "file_size: expected a string path argument"
  | Some file => statPath (fun t => Z.of_nat (String.length t)) file
  end.

Definition file_length (args : list Value) : VM Value :=
  match argStr 0 args with
  | None => throwRuntime "file_length: expected a string path argument"
  | Some file => statPath countNewlines file
  end.

(** ** read_bytes and write_bytes *)

(** The slice of [read_bytes]; [start + len] is 64-bit arithmetic. *)
Definition bytesOf (start len : Z) (t : string) : outcome exn Value :=
  let size := Z.of_nat (String.length t) in
  let start := if start <? 0 then size + start else start in
  if (start <? 0) || (size <=? start) then Ok (VInt 0) else
  let len := if len =? 0 then size else len in
  let! stop := checked64 (start + len) in
  let len := if size <? stop then size - start else len in
  Ok (V (Str (stake (Z.to_nat len) (sdrop (Z.to_nat start) t)))).

Definition read_bytes (args : list Value) : VM Value :=
  match argStr 0 args with
  | None => throwRuntime "read_bytes: expected a string filename argument"
  | Some file =>
      gated file false "read_bytes" (VInt 0) (fun path =>
        let start := default 0 (argInt 1 args) in
        let len := default 0 (argInt 2 args) in
        if len <? 0 then mret (VInt 0) else
        f <- getDisk (fun d => openFile d path) ;;
        match f with
        | None => mret (VInt 0)
        | Some t => mlift (bytesOf start len t)
        end)
  end.

(** [data] written over [t] from [start] on. *)
Definition overwrite (start : nat) (data t : string) : string :=
  stake start t +:+ data +:+ sdrop (start + String.length data) t.

Definition write_bytes (args : list Value) : VM Value :=
  match argStr 0 args, argInt 1 args, argStr 2 args with
  | Some file, Some start, Some data =>
      gated file true "write_bytes" (VInt 0) (fun path =>
        old <- getDisk (fun d => default "" (openFile d path)) ;;
        opened <- onDisk (writeFile path old) ;;
        if negb opened then mret (VInt 0) else
        let size := Z.of_nat (String.length old) in
        let start := if start <? 0 then size + start else start in
        if (start <? 0) || (size <? start) then mret (VInt 0) else
        ok <- onDisk (writeFile path (overwrite (Z.to_nat start) data old)) ;;
        mret (VBool ok))
  | _, _, _ => throwRuntime "write_bytes: expected (string, int, string)"
  end.

(** ** cp and link: the paths are not checked

    The target is truncated before the source is read, and inserting a stream
    that holds nothing sets the fail bit. *)
Definition cp (args : list Value) : VM Value :=
  match argStr 0 args, argStr 1 args with
  | Some fromArg, Some toArg =>
      from <- resolve fromArg ;;
      to <- resolve toArg ;;
      readable <- getDisk (fun d => is_some (openFile d from)) ;;
      if negb readable then mret (VInt 0) else
      opened <- onDisk (writeFile to "") ;;
      if negb opened then mret (VInt 0) else
      content <- getDisk (fun d => default "" (openFile d from)) ;;
      if String.eqb content "" then mret (VInt 0) else
      ok <- onDisk (writeFile to content) ;;
      mret (VBool ok)
  | _, _ => throwRuntime "cp: expected (string from, string to) arguments"
  end.

(** 0 is success. *)
Definition link (args : list Value) : VM Value :=
  match argStr 0 args, argStr 1 args with
  | Some fromArg, Some toArg =>
      from <- resolve fromArg ;;
      to <- resolve toArg ;;
      ok <- onDisk (linkFile from to) ;;
      mret (VBool (negb ok))
  | _, _ => throwRuntime "link: expected two string arguments"
  end.

(** ** rm, mkdir, rmdir and rename *)
Definition rm (args : list Value) : VM Value :=
  match argStr 0 args with
  | None => throwRuntime "rm: expected a string path argument"
  | Some file => gated file true "rm" (VInt 0) (fun path => ok <- onDisk (removeFile path) ;; mret (VBool ok))
  end.

Definition mkdir (args : list Value) : VM Value :=
  match argStr 0 args with
  | None => throwRuntime "mkdir: expected a string path argument"
  | Some dir => gated dir true "mkdir" (VInt 0) (fun path => ok <- onDisk (makeDirectory path) ;; mret (VBool ok))
  end.

Definition rmdir (args : list Value) : VM Value :=
  match argStr 0 args with
  | None => throwRuntime "rmdir: expected a string path argument"
  | Some dir => gated dir true "rmdir" (VInt 0) (fun path => ok <- onDisk (removeDirectory path) ;; mret (VBool ok))
  end.

(** 0 is success; both paths are checked, and then both are resolved. *)
Definition rename (args : list Value) : VM Value :=
  match argStr 0 args, argStr 1 args with
  | Some fromArg, Some toArg =>
      gatedFrom <- checkValidPath (op_run ops) (op_ticks ops) fromArg true "rename_from" ;;
      match gatedFrom with
      | None => mret (VInt 1)
      | Some f =>
          gated toArg true "rename_to" (VInt 1) (fun to =>
            from <- resolve f ;;
            ok <- onDisk (renameFile from to) ;;
            mret (VBool (negb ok)))
      end
  | _, _ => throwRuntime "rename: expected two string arguments"
  end.
End Efuns.
