(* ===== verification/FilesFacts.v ===== *)
(** * FilesFacts: the file efuns stay inside the mudlib

    A gated efun of Files.v runs no LPC code but the questions it asks the
    master, and after the last of them it changes the disk through system calls
    on names below the mudlib root only ([gated_confined]); [cp] does not
    ([cp_escapes]).  [read_file] returns lines of the file, and [write_bytes]
    writes what [read_bytes] reads back. *)
From S2P Require Import Prelude CLib Value Bytecode Lookup Machine Calls Preprocess ObjectManager Paths PathsFacts Files.
Local Open Scope Z_scope.

(** ** Confinement *)
Definition below (root path : string) : Prop := exists sub, names path = sub ++ names root.

Section Confined.
Context `{FileSystem}.

(** The system calls a gated efun makes. *)
Inductive touches (root : string) : Disk -> Disk -> Prop :=
  | t_write path t d d' : below root path -> writeFile path t d = Some d' -> touches root d d'
  | t_remove path d d' : below root path -> removeFile path d = Some d' -> touches root d d'
  | t_mkdir path d d' : below root path -> makeDirectory path d = Some d' -> touches root d d'
  | t_rmdir path d d' : below root path -> removeDirectory path d = Some d' -> touches root d d'
  | t_rename from to d d' :
      below root from -> below root to -> renameFile from to d = Some d' -> touches root d d'.

(** From [s] to [s'] nothing but the files below the root changes. *)
Record stays (root : string) (s s' : VMState) : Prop := {
  st_disk : rtc (touches root) (disk (om s)) (disk (om s'));
  st_rest : s' <| om ::= fun m => m <| disk := ∅ |> |> = s <| om ::= fun m => m <| disk := ∅ |> |>
}.
#[export] Instance stays_preorder root : PreOrder (stays root).
Proof. split; [by constructor|]. intros a b c [] []. constructor; [by etrans|congruence]. Qed.

Lemma moves_onDisk root (call : Disk -> option Disk) :
  (forall d d', call d = Some d' -> touches root d d') -> moves (stays root) (onDisk call).
Proof.
  intros Hc s. unfold onDisk. destruct (call _) as [d|] eqn:E; [|done].
  constructor; [|done]. apply rtc_once, Hc. exact E.
Qed.
Lemma stays_bind {A B} root (m : VM A) (k : A -> VM B) :
  moves (stays root) m -> (forall a, moves (stays root) (k a)) -> moves (stays root) (mbind m k).
Proof. apply moves_bind. intros a b c ? ?. by etrans. Qed.
Lemma stays_still {A} root (f : VMState -> outcome exn A) : moves (stays root) (fun s => (f s, s)).
Proof. by intros s. Qed.

(** ** The questions to the master *)
Context (ops : VMOps).

(** What becomes of a state when the master, while there is one, is asked. *)
Inductive asked (s : VMState) : VMState -> Prop :=
  | asked_nothing : asked s s
  | asked_more raw (w : bool) name s0 r s1 :
      asked s s0 -> is_some (masterOb s0) = true ->
      checkValidPath (op_run ops) (op_ticks ops) raw w name s0 = (r, s1) -> asked s s1.

(** After some questions, nothing but files below the root changes; or the answer
    to a question was that there is no master any more. *)
Definition confinedAfter (s s' : VMState) : Prop :=
  exists s1, asked s s1 /\
    (masterOb s1 = None \/
     (noNul (mudlibRoot (config s1)) = true -> stays (mudlibRoot (config s1)) s1 s')).

(** What a question lets through. *)
Lemma approved_below raw (w : bool) name s0 p s1 s :
  is_some (masterOb s0) = true ->
  checkValidPath (op_run ops) (op_ticks ops) raw w name s0 = (Ok (Some p), s1) ->
  noNul (mudlibRoot (config s)) = true -> below (mudlibRoot (config s)) (c_str (resolveMudlibPath (config s) p)).
Proof using.
  intros Hm [ldmud Hl]%checkValidPath_legal Hr; [|done].
  unfold below, names. rewrite (c_str_id (c_str _)) by apply c_str_noNul. by eapply legal_below.
Qed.

Lemma confined_gated s s0 raw (w : bool) name denied k :
  asked s s0 -> is_some (masterOb s0) = true ->
  (forall root path s1, noNul root = true -> mudlibRoot (config s1) = root -> below root path -> stays root s1 (snd (k path s1))) ->
  confinedAfter s (snd (gated ops raw w name denied k s0)).
Proof using.
  intros Ha Hm Hk. unfold gated, mbind at 1.
  destruct (checkValidPath _ _ _ _ _ s0) as [r s1] eqn:E. exists s1. split; [exact (asked_more s raw w name s0 r s1 Ha Hm E)|]. right. intros Hr.
  destruct r as [[p|]| | |]; try done. unfold mbind, resolve, mgets. apply Hk; [done|done|]. by eapply (approved_below raw w name s0 p s1).
Qed.
End Confined.

(** ** Every gated efun *)
Definition gatedEfun `{FileSystem} (name : string) : option (VMOps -> list Value -> VM Value) :=
  findEfun name
    [("read_file", read_file); ("write_file", write_file); ("read_bytes", read_bytes); ("write_bytes", write_bytes);
     ("rm", rm); ("mkdir", mkdir); ("rmdir", rmdir); ("rename", rename)].

Section Each.
Context `{FileSystem} (ops : VMOps) (s : VMState) (Hm : is_some (masterOb s) = true).

Lemma confined_none r : confinedAfter ops s (snd (r : outcome exn Value, s)).
Proof using. exists s. split; [constructor|]. by right. Qed.

(** The call after the gate: a chain of reads and system calls on its path. *)
Ltac stays_tac :=
  repeat match goal with
  | |- stays ?root ?s (snd (?m ?s)) => cut (moves (stays root) m); [by auto|]
  | |- moves _ (match ?x with _ => _ end) => destruct x
  | |- moves _ (mbind _ _) => apply stays_bind; [|intros ?]
  | |- moves _ (onDisk _) => apply moves_onDisk; intros ? ? ?
  | |- touches _ _ _ => first
      [ eapply t_write; [|eassumption] | eapply t_remove; [|eassumption] | eapply t_mkdir; [|eassumption]
      | eapply t_rmdir; [|eassumption] ]; assumption
  | |- moves _ _ => apply stays_still
  end.
Ltac gated_tac :=
  cbv zeta;
  repeat match goal with |- context [match argStr ?i ?a with _ => _ end] => destruct (argStr i a) end;
  repeat match goal with |- context [match argInt ?i ?a with _ => _ end] => destruct (argInt i a) end;
  try apply confined_none;
  repeat match goal with |- context [if ?b then mret _ else gated _ _ _ _ _ _] => destruct b; [apply confined_none|] end;
  apply confined_gated; [apply asked_nothing|exact Hm|]; intros root path ? _ _ Hb; unfold getDisk, getOm; stays_tac.

Lemma confined_one f args :
  f ∈ [read_file; write_file; read_bytes; write_bytes; rm; mkdir; rmdir] -> confinedAfter ops s (snd (f ops args s)).
Proof using Hm.
  rewrite !elem_of_cons. intros Hf. destruct_or! Hf; try (by apply elem_of_nil in Hf); subst f.
  - unfold read_file. gated_tac.
  - unfold write_file. gated_tac.
  - unfold read_bytes. gated_tac.
  - unfold write_bytes. gated_tac.
  - unfold rm. gated_tac.
  - unfold mkdir. gated_tac.
  - unfold rmdir. gated_tac.
Qed.

Lemma confined_rename args : confinedAfter ops s (snd (rename ops args s)).
Proof using Hm.
  unfold rename. destruct (argStr 0 args) as [f|], (argStr 1 args) as [t|]; try apply confined_none.
  unfold mbind at 1. destruct (checkValidPath _ _ _ _ _ s) as [r s1] eqn:E.
  assert (asked ops s s1) as Ha by (eapply asked_more; [constructor|done|exact E]).
  assert (confinedAfter ops s s1) as Hs1 by (exists s1; split; [done|by right]).
  destruct r as [[p|]| | |]; try exact Hs1. destruct (masterOb s1) as [m|] eqn:Em.
  2: { exists s1. split; [done|]. by left. }
  apply confined_gated; [done|by rewrite Em|]. intros root to s2 Hr <- Hto.
  unfold mbind at 1, resolve, mgets.
  assert (below (mudlibRoot (config s2)) (c_str (resolveMudlibPath (config s2) p))) as Hfrom by by eapply approved_below.
  match goal with |- stays ?root ?s (snd (?m ?s)) => cut (moves (stays root) m); [by auto|] end.
  apply stays_bind; [|intros ?; apply stays_still]. apply moves_onDisk. intros d d' Ed. exact (t_rename _ _ _ _ _ Hfrom Hto Ed).
Qed.
End Each.

(** C32: what a gated file efun does to the files of the machine, in a world with a
    master.  The only LPC code it runs is the master's answers to the questions
    of the gate, one, or two for [rename]; whatever that code does, once it has
    been asked the efun changes nothing but the disk, and that by system calls
    on names below the mudlib root only, on any arguments and however it ends.
    (The one exception is a master that is gone after the first question of
    [rename]: then the second is not asked.) *)
Theorem gated_confined `{FileSystem} ops name f args s :
  gatedEfun name = Some f -> is_some (masterOb s) = true -> confinedAfter ops s (snd (f ops args s)).
Proof.
  intros Hf Hm. unfold gatedEfun in Hf. cbn [findEfun] in Hf.
  repeat (case_match; [injection Hf as <-; first [by apply confined_rename|apply confined_one; [done|rewrite !elem_of_cons; tauto]]|]). done.
Qed.

(** ** A concrete file system: every path can be written *)
#[local] Instance exampleFs : FileSystem := {
  writeFile p t d := match d !! p with Some Directory => None | _ => Some (<[p := RegularFile t]> d) end;
  removeFile p d := if is_some (d !! p) then Some (delete p d) else None;
  makeDirectory p d := if is_some (d !! p) then None else Some (<[p := Directory]> d);
  removeDirectory p d := match d !! p with Some Directory => Some (delete p d) | _ => None end;
  renameFile p q d := match d !! p with Some e => Some (<[q := e]> (delete p d)) | None => None end;
  linkFile p q d := match d !! p with Some (RegularFile t) => Some (<[q := RegularFile t]> d) | _ => None end
}.

(** A master whose every function answers [answer]. *)
Definition exampleOps (answer : Value) : VMOps := mkOps (fun _ _ _ _ => mret answer) 10 (fun _ => 0).
Definition exampleVM (d : gmap string FileEntry) : VMState :=
  (newVM ((configFor "fluffos" 1000) <| mudlibRoot := "/srv/lib" |>)
    {[ 1%positive := newObject "/master" 1 emptyProgram false 0 ]} ∅)
    <| masterOb := Some 1%positive |> <| om ::= fun m => m <| disk := d |> |>.

(** A master whose [valid_write] writes a file outside the mudlib, and approves. *)
Definition nosyMaster : VMState :=
  let pr := emptyProgram <| functions := [mkFunction "valid_write" 0 0 0 false false] |> in
  (exampleVM {["/srv/lib/a" := RegularFile "old"]})
    <| objects := {[ 1%positive := newObject "/master" 1 pr false 0 ]} |> <| programStore := {[ 1%positive := pr ]} |>.
Definition nosyOps : VMOps :=
  mkOps (fun _ _ _ _ => onDisk (writeFile "/etc/x" "spied") ;; mret (VInt 1)) 10 (fun _ => 0).

Lemma gated_confined_witness :
  let s' := snd (write_file nosyOps [V (Str "a"); V (Str "new"); VInt 1] nosyMaster) in
  disk (om s') !! "/etc/x" = Some (RegularFile "spied") /\ disk (om s') !! "/srv/lib/a" = Some (RegularFile "new") /\
  confinedAfter nosyOps nosyMaster s'.
Proof.
  intros s'. split; [vm_compute; reflexivity|]. split; [vm_compute; reflexivity|].
  apply (gated_confined nosyOps "write_file" write_file [V (Str "a"); V (Str "new"); VInt 1] nosyMaster); reflexivity.
Defined.

(** ** What is not gated

    [cp] copies a file from outside the mudlib into it and [file_size] measures
    it; neither asks the master. *)
Example cp_escapes :
  let s := exampleVM {["/srv/lib/../key" := RegularFile "secret"]} in
  disk (om (snd (cp [V (Str "../key"); V (Str "copy")] s))) !! "/srv/lib/copy" = Some (RegularFile "secret") /\
  fst (file_size [V (Str "../key")] s) = Ok (VInt 6).
Proof. split; vm_compute; reflexivity. Qed.

(** Copied onto itself, a file is emptied and the copy reported as failed;
    so is the copy of an empty file, which is made. *)
Example cp_itself :
  let s := exampleVM {["/srv/lib/a" := RegularFile "text"; "/srv/lib/e" := RegularFile ""]} in
  let run args := cp (map (fun t => V (Str t)) args) s in
  fst (run ["a"; "a"]) = Ok (VInt 0) /\
  disk (om (snd (run ["a"; "a"]))) !! "/srv/lib/a" = Some (RegularFile "") /\
  fst (run ["e"; "f"]) = Ok (VInt 0) /\
  disk (om (snd (run ["e"; "f"]))) !! "/srv/lib/f" = Some (RegularFile "").
Proof. vm_compute. repeat split; reflexivity. Qed.

(** ** read_file by lines *)
Lemma readLines_started start n lineNo taken ls :
  start <= lineNo + 1 -> 0 <= taken ->
  readLines start n lineNo taken ls = unlines (if 0 <? n then take (Z.to_nat (n - taken)) ls else ls).
Proof.
  revert lineNo taken. induction ls as [|l ls IH]; intros lineNo taken Hs Ht.
  { cbn. by rewrite take_nil; destruct (0 <? n). }
  cbn [readLines]. cbv zeta. rewrite (proj2 (Z.ltb_ge _ _)) by lia. destruct (Z.ltb_spec 0 n) as [Hn|Hn]; cbn [andb].
  - destruct (Z.leb_spec n taken).
    + by replace (Z.to_nat (n - taken)) with 0%nat by lia.
    + rewrite IH by lia. replace (Z.to_nat (n - taken)) with (S (Z.to_nat (n - (taken + 1)))) by lia. done.
  - by rewrite IH by lia.
Qed.

Lemma readLines_skip start n lineNo ls :
  lineNo + 1 <= start ->
  readLines start n lineNo 0 ls = readLines start n (start - 1) 0 (drop (Z.to_nat (start - 1 - lineNo)) ls).
Proof.
  revert lineNo. induction ls as [|l ls IH]; intros lineNo Hl; [by rewrite drop_nil|].
  destruct (Z.eqb_spec (lineNo + 1) start) as [E|E].
  { replace (start - 1) with lineNo by lia. by replace (Z.to_nat (lineNo - lineNo)) with 0%nat by lia. }
  cbn [readLines]. cbv zeta. rewrite (proj2 (Z.ltb_lt _ _)) by lia. rewrite IH by lia.
  by replace (Z.to_nat (start - 1 - lineNo)) with (S (Z.to_nat (start - 1 - (lineNo + 1)))) by lia.
Qed.

(** [read_file(file, start, n)] is the lines from [start] on, [n] of them or
    all the rest, each ended with a newline. *)
Lemma readLines_spec start n t :
  1 <= start -> 0 <= n ->
  readLines start n 0 0 (getlines t) =
  unlines (let ls := drop (Z.to_nat (start - 1)) (getlines t) in if 0 <? n then take (Z.to_nat n) ls else ls).
Proof.
  intros Hs Hn. rewrite readLines_skip, readLines_started by lia. rewrite !Z.sub_0_r. done.
Qed.

(** ** read_bytes after write_bytes *)
Lemma stake_add a b n : (n <= String.length a)%nat -> stake n (a +:+ b) = stake n a.
Proof.
  revert a. induction n as [|n IH]; intros [|c a] Hn; simpl in Hn; try lia; [by destruct b|done|].
  rewrite sapp_cons. cbn [stake]. f_equal. apply IH. lia.
Qed.

(** [write_bytes] and [read_bytes] agree: whatever bytes are written into a
    text at an offset from its start or from its end, reading as many bytes at
    that offset gives them back, provided the end fits 64 bits. *)
Theorem bytes_roundtrip start data t :
  let size := Z.of_nat (String.length t) in
  let at_ := if start <? 0 then size + start else start in
  0 <= at_ <= size -> data <> ""%string -> at_ + Z.of_nat (String.length data) <= INT64_MAX ->
  bytesOf at_ (Z.of_nat (String.length data)) (overwrite (Z.to_nat at_) data t) = Ok (V (Str data)).
Proof.
  intros size at_ Ha Hd Hm. clearbody at_. unfold bytesOf, overwrite.
  set (i := Z.to_nat at_). set (n := String.length data).
  assert (0 < n)%nat by (subst n; destruct data; [done|cbn; lia]).
  assert (Hi : String.length (stake i t) = i) by (rewrite stake_length; lia).
  rewrite !slength_app, sdrop_length, Hi. fold n.
  rewrite (proj2 (Z.ltb_ge at_ 0)) by lia. rewrite (proj2 (Z.ltb_ge at_ 0)) by lia.
  destruct (Z.leb_spec (Z.of_nat (i + (n + (String.length t - (i + n))))) at_); [lia|]. cbn [orb].
  rewrite (proj2 (Z.eqb_neq _ _)) by lia. unfold checked64.
  rewrite (proj2 (in_int64_spec _)) by (unfold INT64_MIN; lia). cbn [obind].
  rewrite (proj2 (Z.ltb_ge _ _)) by lia. do 3 f_equal. rewrite Nat2Z.id.
  pose proof (sdrop_app (stake i t) (data +:+ sdrop (i + n) t)) as E. rewrite Hi in E. subst i n.
  rewrite E, stake_add by lia. apply stake_all.
Qed.

Lemma bytes_roundtrip_witness :
  bytesOf 2 3 (overwrite 2 "XYZ" "hello") = Ok (V (Str "XYZ")).
Proof. apply (bytes_roundtrip (-3) "XYZ" "hello"); [cbn; lia|done|vm_compute; discriminate]. Defined.

(** A length near the largest integer overflows the end of the slice. *)
Example bytesOf_overflow :
  bytesOf 1 INT64_MAX "ab" = Undefined "signed 64-bit overflow".
Proof. vm_compute. reflexivity. Qed.
