(* ===== verification/SaveText.v ===== *)
(** * SaveText: the save formats of src/efun/EfunTable.cpp

    [save_object] writes one line per variable, its value in this driver's own
    format ([serializeValue]); [restore_object] reads lines of that format and of
    FluffOS's ([parseRealSaveValue]).  [save_variable] and [restore_variable]
    use the FluffOS format both ways.

    The first reader works on the line with an absolute [size_t] position, as
    the reader of world dumps does (Serializer.v).  The second only moves
    forward and looks at [s[pos]], so its state is the text from [pos] on. *)
From S2P Require Import Prelude CLib Double Value Bytecode Lookup Machine Calls Serializer Preprocess ObjectManager Paths Files.
Local Open Scope Z_scope.

(** ** The driver's own format *)
Section Write.
Context (h : heap).

Fixpoint serializeValue (fuel : nat) (v : Value) : Out unit :=
  match fuel with
  | O => mlift OutOfFuel
  | S f =>
      match data v with
      | Int i => emit ("I" +:+ to_string i +:+ ";")
      | Dbl d => emit ("F" +:+ Dbl.ostream_g d +:+ ";")
      | Str s => emit ("S" +:+ sized s)
      | Arr l =>
          let its := match l with Some p => items h p | None => [] end in
          emit ("A" +:+ count_text its +:+ ":") ;;
          emitAll (serializeValue f) its
      | Map None => emit ("M" +:+ count_text (@nil Value) +:+ ":")
      | Map (Some p) =>
          let m := mapping h p in
          if 1 <? width m then
            throwOut "save_object: cannot save a mapping with width > 1 (real LDMud N-column mapping) -- this driver's save_object()/restore_object() only serialize column 0 today, so saving one would silently discard every other column instead of raising this error; see ROADMAP.md row 1.9's own note"
          else
          emit ("M" +:+ count_text (entries m) +:+ ":") ;;
          emitAll (fun e => serializeValue f (fst e) ;; serializeValue f (snd e)) (entries m)
      | Buf _ => emit "N"
      | Obj _ | Fun _ | NilV | Sym _ | Monostate => emit "N"
      end
  end.

(** The lines [save_object] writes, as many as there are names and values. *)
Definition saveLines (fuel : nat) (names : list string) (vars : list Value) : Out unit :=
  emitAll (fun '(name, v) => emit (name +:+ str1 TAB) ;; serializeValue fuel v ;; emit (str1 NL))
    (zip names vars).
End Write.

Section Read.
Context (reserveLimit : Z) (s : string).

Definition readSaved (des : Rd Value) (kind : ascii) : Rd Value :=
  if Ascii.eqb kind "N" then mret (VInt 0)
  else if Ascii.eqb kind "I" then v <- intField s ";" ;; mret (VInt v)
  else if Ascii.eqb kind "F" then
    d <- (f <- field s ";" ;; d <- number "stod" (Dbl.stod (fst f)) ;; setPos (snd f) ;; mret d) ;;
    mret (V (Dbl d))
  else if Ascii.eqb kind "S" then
    t <- (len <- sizeField s ":" ;; bytes s len) ;; mret (V (Str t))
  else if Ascii.eqb kind "A" then
    count <- sizeField s ":" ;;
    reserve reserveLimit count ;;
    xs <- repeatM (Z.to_nat count) des ;;
    allocRd (newArray xs) (fun p => V (Arr (Some p)))
  else if Ascii.eqb kind "M" then
    count <- sizeField s ":" ;;
    reserve reserveLimit count ;;
    es <- repeatM (Z.to_nat count) (k <- des ;; v <- des ;; mret (k, v)) ;;
    allocRd (newMapping (emptyMapping <| entries := es |>)) (fun p => V (Map (Some p)))
  else throwRd "restore_object: corrupt save data (unknown value kind)".

Fixpoint deserializeValue (fuel : nat) : Rd Value :=
  match fuel with
  | O => mlift OutOfFuel
  | S f =>
      pos <- getPos ;;
      if slen s <=? pos then mret Void else
      setPos (pos + 1) ;;
      readSaved (deserializeValue f) (char_at s (Z.to_nat pos))
  end.
End Read.

(** ** The FluffOS format: writing *)
Fixpoint escaped (s : string) : string :=
  match s with
  | EmptyString => EmptyString
  | String c r =>
      if Ascii.eqb c DQUOTE || Ascii.eqb c BSLASH then String BSLASH (String c (escaped r))
      else if Ascii.eqb c NL then String CR (escaped r)
      else String c (escaped r)
  end.

Fixpoint writeRealSaveValue (h : heap) (fuel : nat) (v : Value) : Out unit :=
  match fuel with
  | O => mlift OutOfFuel
  | S f =>
      match data v with
      | Monostate => emit "0"
      | Int i => emit (to_string i)
      | Dbl d => emit (stake 63 (Dbl.printf_f d)) (* [char buf[64]] *)
      | Str s => emit (str1 DQUOTE +:+ escaped s +:+ str1 DQUOTE)
      | Arr l =>
          emit "({" ;;
          emitAll (fun x => writeRealSaveValue h f x ;; emit ",")
            (match l with Some p => items h p | None => [] end) ;;
          emit "})"
      | Map l =>
          emit "([" ;;
          emitAll (fun e => writeRealSaveValue h f (fst e) ;; emit ":" ;;
                            writeRealSaveValue h f (snd e) ;; emit ",")
            (match l with Some p => entries (mapping h p) | None => [] end) ;;
          emit "])"
      | Obj _ | Fun _ | Buf _ | NilV | Sym _ =>
          throwOut "save_variable: cannot save an object, function-pointer, or buffer value"
      end
  end.

(** ** The FluffOS format: reading *)
Record PState := mkP { unread : string; ph : heap }.
#[export] Instance eta_PState : Eta PState := fun p => {| unread := unread p; ph := ph p |}.
Abbreviation Ps := (M PState exn) (only parsing).

(** [pos < s.size() && s[pos] == c] *)
Definition at_char (c : ascii) : Ps bool :=
  mgets (fun p => match unread p with String d _ => Ascii.eqb c d | EmptyString => false end).
Definition advance : Ps unit := mmodify (fun p => p <| unread ::= sdrop 1 |>).
Definition skip (c : ascii) : Ps unit := b <- at_char c ;; if b : bool then advance else mret tt.
Definition allocPs {A} (alloc : heap -> loc * heap) (k : loc -> A) : Ps A := fun p =>
  let '(l, h) := alloc (ph p) in (Ok (k l), p <| ph := h |>).
Definition numberPs {A} (fn : string) (r : A + num_error) : Ps A :=
  match r with inl v => mret v | inr _ => mthrow (StdException fn) end.

(** A backslash takes the next byte literally, whatever it is. *)
Fixpoint parseRealSaveString (s : string) : string * string :=
  match s with
  | EmptyString => ("", "")
  | String c r =>
      if Ascii.eqb c DQUOTE then ("", r)
      else
        let plain :=
          let '(a, b) := parseRealSaveString r in
          (String (if Ascii.eqb c CR then NL else c) a, b) in
        if Ascii.eqb c BSLASH then
          match r with
          | String d r' => let '(a, b) := parseRealSaveString r' in (String d a, b)
          | EmptyString => plain
          end
        else plain
  end.

(** Sign, digits and fraction of a number; the rest; whether it has a point. *)
Definition numberToken (s : string) : string * string * bool :=
  let '(sign, s1) := match s with
                     | String c r => if Ascii.eqb c "-" then ("-"%string, r) else (""%string, s)
                     | EmptyString => (""%string, s)
                     end in
  let '(ip, s2) := span isdigit s1 in
  match s2 with
  | String "." s3 => let '(fp, s4) := span isdigit s3 in (sign +:+ ip +:+ "." +:+ fp, s4, true)
  | _ => (sign +:+ ip, s2, false)
  end.

Definition tokenValue (token : string) (isFloat : bool) : Ps Value :=
  if isFloat then d <- numberPs "stod" (Dbl.stod token) ;; mret (V (Dbl d))
  else v <- numberPs "stoll" (stoll token) ;; mret (VInt v).

Definition parseRealSaveNumber : Ps Value :=
  s <- mgets unread ;;
  let '(token, rest, isFloat) := numberToken s in
  mmodify (fun p => p <| unread := rest |>) ;;
  tokenValue token isFloat.

(** [parse] reads one value; the loops end at [stop] or the end of the text. *)
Fixpoint realItems (parse : Ps Value) (fuel : nat) : Ps (list Value) :=
  match fuel with
  | O => mlift OutOfFuel
  | S f =>
      s <- mgets unread ;;
      match s with
      | EmptyString => mret []
      | String c _ =>
          if Ascii.eqb c "}" then mret []
          else if Ascii.eqb c "," then advance ;; xs <- realItems parse f ;; mret (VInt 0 :: xs)
          else x <- parse ;; skip "," ;; xs <- realItems parse f ;; mret (x :: xs)
      end
  end.

Fixpoint realEntries (parse : Ps Value) (fuel : nat) : Ps (list (Value * Value)) :=
  match fuel with
  | O => mlift OutOfFuel
  | S f =>
      s <- mgets unread ;;
      match s with
      | EmptyString => mret []
      | String c _ =>
          if Ascii.eqb c "]" then mret []
          else key <- parse ;; skip ":" ;; val <- parse ;; skip "," ;;
               es <- realEntries parse f ;; mret ((key, val) :: es)
      end
  end.

Fixpoint parseRealSaveValue (fuel : nat) : Ps Value :=
  match fuel with
  | O => mlift OutOfFuel
  | S f =>
      s <- mgets unread ;;
      match s with
      | EmptyString => mret (VInt 0)
      | String c r =>
          if Ascii.eqb c DQUOTE then
            let '(t, r') := parseRealSaveString r in
            mmodify (fun p => p <| unread := r' |>) ;; mret (V (Str t))
          else if Ascii.eqb c "(" then
            advance ;;
            isArray <- at_char "{" ;;
            isMapping <- at_char "[" ;;
            if isArray : bool then
              advance ;;
              xs <- realItems (parseRealSaveValue f) f ;;
              advance ;; skip ")" ;;
              allocPs (newArray xs) (fun p => V (Arr (Some p)))
            else if isMapping : bool then
              advance ;;
              es <- realEntries (parseRealSaveValue f) f ;;
              advance ;; skip ")" ;;
              allocPs (newMapping (emptyMapping <| entries := es |>)) (fun p => V (Map (Some p)))
            else mthrow (LpcRuntimeError "restore_object: class-typed save data is not supported")
          else if Ascii.eqb c "-" || isdigit c then parseRealSaveNumber
          else mret (VInt 0)
      end
  end.

(** ** restore_variable: the top level is stricter *)
Definition illegalString : string := "restore_variable(): Illegal string format.".

(** The text up to the closing quote, which must be the last byte. *)
Fixpoint parseRestoreVariableString (s : string) : outcome exn string :=
  match s with
  | EmptyString => Throw (LpcRuntimeError illegalString)
  | String c r =>
      if Ascii.eqb c DQUOTE then
        if String.eqb r "" then Ok "" else Throw (LpcRuntimeError illegalString)
      else if Ascii.eqb c BSLASH then
        match r with
        | EmptyString => Throw (LpcRuntimeError illegalString)
        | String d r' =>
            let! t := parseRestoreVariableString r' in Ok (String (if Ascii.eqb d CR then NL else d) t)
        end
      else let! t := parseRestoreVariableString r in Ok (String (if Ascii.eqb c CR then NL else c) t)
  end.

Definition parseRestoreVariableNumber : Ps Value :=
  s <- mgets unread ;;
  if Ascii.eqb (char_at s 0) "-" && negb (isdigit (char_at s 1)) then
    mthrow (LpcRuntimeError "restore_variable(): Illegal numeric format.")
  else parseRealSaveNumber.

Definition parseRestoreVariableTopLevel (fuel : nat) : Ps Value :=
  s <- mgets unread ;;
  match s with
  | EmptyString => mret (VInt 0)
  | String c r =>
      if Ascii.eqb c DQUOTE then t <- mlift (parseRestoreVariableString r) ;; mret (V (Str t))
      else if Ascii.eqb c "-" || isdigit c then parseRestoreVariableNumber
      else parseRealSaveValue fuel
  end.

(** ** The efuns *)
Definition onText {A} (m : Ps A) (text : string) : VM A := fun s =>
  let '(r, p) := m (mkP text (hp s)) in (r, s <| hp := ph p |>).

(** An efun that only writes a text; [op_fuel] bounds the depth of the value. *)
Definition save_variable (ops : VMOps) (args : list Value) : VM Value :=
  match args with
  | [] => throwRuntime "save_variable: expected one argument"
  | v :: _ => fun s =>
      match writeRealSaveValue (hp s) (op_fuel ops) v "" with
      | (Ok _, out) => (Ok (V (Str out)), s)
      | (Throw e, _) => (Throw e, s)
      | (Undefined w, _) => (Undefined w, s)
      | (OutOfFuel, _) => (OutOfFuel, s)
      end
  end.

Definition restore_variable (ops : VMOps) (args : list Value) : VM Value :=
  match argStr 0 args with
  | None => throwRuntime "restore_variable: expected a string argument"
  | Some t => onText (parseRestoreVariableTopLevel (op_fuel ops)) t
  end.

(** What an error leaves in the file was written before it. *)
Definition save_object `{FileSystem} (ops : VMOps) (args : list Value) : VM Value :=
  match argStr 0 args with
  | None => throwRuntime "save_object: expected a string path argument"
  | Some file =>
      obj <- mgets currentObject ;;
      match obj with
      | None => throwRuntime "save_object: no current object to save"
      | Some o =>
          gated ops (normalizeSavePath file) true "save_object" (VInt 0) (fun path =>
            opened <- onDisk (writeFile path "") ;;
            if negb opened then mret (VInt 0) else
            out <- mgets (fun s => saveLines (hp s) (op_fuel ops) (objectVarNames (prog (programStore s) (programOf s o)))
                                     (getOb s variables [] o) "") ;;
            onDisk (writeFile path (snd out)) ;;
            mlift (fst out) ;;
            mret (VInt 1))
      end
  end.

(** The position of the first variable of that name. *)
Fixpoint slotOf (name : string) (names : list string) : option nat :=
  match names with
  | [] => None
  | n :: ns => if String.eqb n name then Some O else S <$> slotOf name ns
  end.

Definition restoreLine (reserveLimit : Z) (fuel : nat) (names : list string) (o : oid) (line : string) : VM unit :=
  if String.eqb line "" || Ascii.eqb (char_at line 0) "#" then mret tt else
  let split := match find_str (str1 TAB) line with
               | Some tab => Some (tab, false)
               | None => (fun space => (space, true)) <$> find_str " " line
               end in
  match split with
  | None => mret tt
  | Some (i, realFormat) =>
      vars <- mgets (fun s => length (getOb s variables [] o)) ;;
      match slotOf (stake i line) names with
      | Some slot =>
          if (vars <=? slot)%nat then mret tt else
          v <- (if realFormat : bool then onText (parseRealSaveValue fuel) (sdrop (i + 1) line)
                else fun s => let '(r, p) := deserializeValue reserveLimit line fuel (mkRead s (Z.of_nat i + 1)) in
                              (r, rvm p)) ;;
          mmodify (setOb o (fun ob => ob <| variables ::= <[slot := v]> |>))
      | None => mret tt
      end
  end.

Fixpoint restoreLines (reserveLimit : Z) (fuel : nat) (names : list string) (o : oid) (ls : list string) : VM unit :=
  match ls with
  | [] => mret tt
  | l :: ls' => restoreLine reserveLimit fuel names o l ;; restoreLines reserveLimit fuel names o ls'
  end.

Definition restore_object `{FileSystem} (reserveLimit : Z) (ops : VMOps) (args : list Value) : VM Value :=
  match argStr 0 args with
  | None => throwRuntime "restore_object: expected a string path argument"
  | Some file =>
      obj <- mgets currentObject ;;
      match obj with
      | None => throwRuntime "restore_object: no current object to restore into"
      | Some o =>
          gated ops (normalizeSavePath file) false "restore_object" (VInt 0) (fun path =>
            f <- getDisk (fun d => openFile d path) ;;
            match f with
            | None => mret (VInt 0)
            | Some t =>
                names <- mgets (fun s => objectVarNames (prog (programStore s) (programOf s o))) ;;
                restoreLines reserveLimit (op_fuel ops) names o (getlines t) ;;
                mret (VInt 1)
            end)
      end
  end.
