(* ===== verification/SaveTextFacts.v ===== *)
(** * SaveTextFacts: what is saved can be restored

    [restore_variable] reads back what [save_variable] writes
    ([restore_save_variable]), and [restore_object] what [save_object] left on
    the disk ([restore_save_object]), for the values each format holds
    ([savable], [holdable]).  A string with a line break is not among them: the
    rest of it is read as more variables ([save_injects]). *)
From S2P Require Import Prelude CLib Double Value Bytecode Lookup Machine Calls CallsFacts Serializer SerializerFacts Preprocess PreprocessFacts ObjectManager Paths Files FilesFacts SaveText.
From Stdlib Require Import Floats.SpecFloat.
Local Open Scope Z_scope.

(** ** Strings and numbers of the FluffOS format *)
Definition noCr : string -> bool := sforall (fun c => negb (Ascii.eqb c CR)).

Lemma sforall_cons p c s : sforall p (String c s) = true <-> p c = true /\ sforall p s = true.
Proof. cbn. apply andb_true_iff. Qed.

Lemma parse_escaped t rest :
  noCr t = true -> parseRealSaveString (escaped t +:+ String DQUOTE rest) = (t, rest).
Proof.
  induction t as [|c t IH]; [done|]. intros [Hc Ht]%sforall_cons. specialize (IH Ht). cbn [escaped].
  apply negb_true_iff in Hc. destruct (Ascii.eqb c DQUOTE || Ascii.eqb c BSLASH)%bool eqn:Eq.
  - rewrite !sapp_cons. cbn [parseRealSaveString]. by rewrite IH.
  - apply orb_false_iff in Eq as [E1 E2]. destruct (Ascii.eqb c NL) eqn:En.
    + rewrite sapp_cons. cbn [parseRealSaveString]. rewrite IH. by apply Ascii.eqb_eq in En as ->.
    + rewrite sapp_cons. cbn [parseRealSaveString]. by rewrite E1, E2, Hc, IH.
Qed.

Lemma restore_escaped t :
  noCr t = true -> parseRestoreVariableString (escaped t +:+ str1 DQUOTE) = Ok t.
Proof.
  induction t as [|c t IH]; [done|]. intros [Hc Ht]%sforall_cons. specialize (IH Ht). cbn [escaped].
  apply negb_true_iff in Hc. destruct (Ascii.eqb c DQUOTE || Ascii.eqb c BSLASH)%bool eqn:Eq.
  - rewrite !sapp_cons. cbn [parseRestoreVariableString]. rewrite IH. cbn. by rewrite Hc.
  - apply orb_false_iff in Eq as [E1 E2]. destruct (Ascii.eqb c NL) eqn:En.
    + rewrite sapp_cons. cbn [parseRestoreVariableString]. rewrite IH. by apply Ascii.eqb_eq in En as ->.
    + rewrite sapp_cons. cbn [parseRestoreVariableString]. by rewrite E1, E2, Hc, IH.
Qed.

(** What may follow a number. *)
Definition stops (rest : string) : Prop :=
  match rest with EmptyString => True | String c _ => isdigit c = false /\ c <> "."%char end.

Lemma stops_digit rest c s : stops rest -> rest = String c s -> isdigit c = false.
Proof. intros H ->. apply H. Qed.

Lemma digits_nonempty n : digits n <> ""%string.
Proof. pose proof (digits_length_pos n). destruct (digits n); [cbn in *; lia|done]. Qed.

Definition signText (neg : bool) : string := if neg then "-" else "".

Lemma numberToken_sign (neg : bool) ds rest :
  sforall isdigit ds = true -> ds <> ""%string ->
  numberToken (signText neg +:+ ds +:+ rest) =
  match span isdigit (ds +:+ rest) with
  | (ip, String "." s3) =>
      let '(fp, s4) := span isdigit s3 in (signText neg +:+ ip +:+ "." +:+ fp, s4, true)
  | (ip, s2) => (signText neg +:+ ip, s2, false)
  end.
Proof.
  intros Hd Hn. unfold numberToken. destruct neg; [done|]. destruct ds as [|c ds]; [done|].
  apply sforall_cons in Hd as [Hc _]. rewrite sapp_nil_l, sapp_cons.
  destruct (Ascii.eqb c "-") eqn:E; [by apply Ascii.eqb_eq in E as ->|]. done.
Qed.

Lemma numberToken_int z rest :
  stops rest -> numberToken (to_string z +:+ rest) = (to_string z, rest, false).
Proof.
  intros Hr. assert (to_string z = signText (z <? 0) +:+ digits (Z.abs z)) as ->.
  { unfold to_string. destruct (Z.ltb_spec z 0); [by rewrite Z.abs_neq by lia|by rewrite Z.abs_eq by lia]. }
  pose proof (digits_nonempty (Z.abs z)) as Hn.
  rewrite sapp_assoc, numberToken_sign by (done || apply digits_isdigit; lia).
  rewrite span_all by (eauto using stops_digit, digits_isdigit with lia || apply digits_isdigit; lia).
  destruct rest as [|c r]; [done|]. destruct Hr as [_ Hc].
  destruct c as [[] [] [] [] [] [] [] []]; try done; by destruct Hc.
Qed.

Definition finite (d : double) : bool :=
  match d with S754_zero _ | S754_finite _ _ _ => true | _ => false end.

(** [%f] of a finite number: sign, digits, a point, six digits. *)
Lemma printf_f_shape d :
  finite d = true ->
  exists neg ip fp, Dbl.printf_f d = signText neg +:+ ip +:+ "." +:+ fp /\ ip <> ""%string /\
    sforall isdigit ip = true /\ sforall isdigit fp = true.
Proof.
  destruct d as [b| | |b m e]; [|done|done|]; intros _.
  - exists b, "0"%string, "000000"%string. by destruct b.
  - cbn [Dbl.printf_f]. set (q := Dbl.scaled_round _ _ _).
    assert (0 <= q) by (apply scaled_round_nonneg; lia).
    exists b, (digits (q / 10 ^ 6)), (Dbl.left_pad 6 (digits (q mod 10 ^ 6))). split; [done|].
    split; [apply digits_nonempty|].
    split; [apply digits_isdigit, Z.div_pos; lia|].
    apply left_pad_chars; [done|]. apply digits_isdigit, Z.mod_pos_bound. lia.
Qed.

Lemma numberToken_float d rest :
  finite d = true -> stops rest -> numberToken (Dbl.printf_f d +:+ rest) = (Dbl.printf_f d, rest, true).
Proof.
  intros Hd Hr. destruct (printf_f_shape d Hd) as (neg & ip & fp & -> & Hn & Hi & Hf).
  rewrite !sapp_assoc, numberToken_sign by done.
  rewrite sapp_cons, sapp_nil_l, (span_all isdigit ip) by (done || by intros ? ? [= <- _]).
  by rewrite span_all by eauto using stops_digit.
Qed.

(** ** Reading what was written *)

(** In front of [rest], [m] reads exactly [t]; the heap only grows. *)
Definition parsed {A} (P : heap -> Prop) (m : Ps A) (t rest : string) (Q : heap -> A -> Prop) : Prop :=
  forall h0, heap_wf h0 -> P h0 -> exists a h1,
    m (mkP (t +:+ rest) h0) = (Ok a, mkP rest h1) /\ heap_le h0 h1 /\ heap_wf h1 /\ Q h1 a.

Lemma parsed_bind {A B} P (m : Ps A) (k : A -> Ps B) t1 t2 rest Q1 Q2 :
  parsed P m t1 (t2 +:+ rest) Q1 -> (forall a, parsed (fun h => Q1 h a) (k a) t2 rest Q2) ->
  parsed P (mbind m k) (t1 +:+ t2) rest Q2.
Proof.
  intros Hm Hk h0 W HP. destruct (Hm h0 W HP) as (a & h1 & E1 & L1 & W1 & H1).
  destruct (Hk a h1 W1 H1) as (b & h2 & E2 & L2 & W2 & H2). exists b, h2.
  unfold mbind. rewrite sapp_assoc, E1. split; [done|]. split; [by etrans|done].
Qed.

Lemma parsed_ret {A} (P : heap -> Prop) (a : A) rest (Q : heap -> A -> Prop) :
  (forall h, P h -> Q h a) -> parsed P (mret a) "" rest Q.
Proof. intros HQ h0 W HP. exists a, h0. split; [done|]. split; [reflexivity|auto]. Qed.

Lemma parsed_map {A B} P (m : Ps A) (f : A -> B) t rest (Q : heap -> A -> Prop) (Q' : heap -> B -> Prop) :
  parsed P m t rest Q -> (forall h a, Q h a -> Q' h (f a)) -> parsed P (a <- m ;; mret (f a)) t rest Q'.
Proof.
  intros Hm HQ h0 W HP. destruct (Hm h0 W HP) as (a & h1 & E1 & L1 & W1 & H1).
  exists (f a), h1. unfold mbind. rewrite E1. eauto.
Qed.

Lemma parsed_skip P c rest : parsed P (skip c) (str1 c) rest (fun h _ => P h).
Proof.
  intros h0 W HP. exists tt, h0. unfold skip, mbind, at_char, mgets. change (str1 c +:+ rest) with (String c rest). cbn [unread].
  rewrite Ascii.eqb_refl. split; [done|]. split; [reflexivity|auto].
Qed.

Lemma parsed_advance P c rest : parsed P advance (str1 c) rest (fun h _ => P h).
Proof. intros h0 W HP. exists tt, h0. split; [done|]. split; [reflexivity|auto]. Qed.

Lemma parsed_alloc {B} (P : heap -> Prop) (mk : heap -> loc * heap) (k : loc -> B) rest (Q : heap -> B -> Prop) :
  (forall h, heap_wf h -> heap_wf (snd (mk h)) /\ heap_le h (snd (mk h))) ->
  (forall h, heap_wf h -> P h -> Q (snd (mk h)) (k (fst (mk h)))) ->
  parsed P (allocPs mk k) "" rest Q.
Proof.
  intros Hm HQ h0 W HP. unfold allocPs. rewrite sapp_nil_l. destruct (Hm _ W). specialize (HQ _ W HP). cbn [ph].
  destruct (mk h0) as [p h]. exists (k p), h. auto.
Qed.

Lemma stake_short n s : (String.length s <= n)%nat -> stake n s = s.
Proof.
  revert s. induction n as [|n IH]; intros [|c s]; cbn; intros Hs; try done; [lia|]. f_equal. apply IH. lia.
Qed.

Section Real.
Context (h : heap).

(** What the format holds exactly, to depth [n]: 64-bit integers, finite numbers
    that fit the buffer of the writer and that six places give back, strings
    without carriage returns (a newline is written as one), and arrays and
    mappings of one column of such values. *)
Fixpoint savable (n : nat) (v : Value) : Prop :=
  match n with
  | O => True
  | S n' =>
      bare v /\
      match data v with
      | Int i => in_int64 i = true
      | Dbl d => finite d = true /\ (String.length (Dbl.printf_f d) <= 63)%nat /\ Dbl.stod (Dbl.printf_f d) = inl d
      | Str t => noCr t = true
      | Arr (Some p) => Forall (savable n') (items h p)
      | Map (Some p) => one_column (mapping h p) /\
          Forall (fun e => savable n' (fst e) /\ savable n' (snd e)) (entries (mapping h p))
      | _ => False
      end
  end.

(** Numbers and strings are read back as themselves. *)
Definition textLeaf (v : Value) : option Value :=
  match data v with Arr (Some _) | Map (Some _) => None | _ => Some v end.
Abbreviation resaved := (copied textLeaf h) (only parsing).

(** The first byte of a value ends no container and separates nothing. *)
Definition opens (t : string) : Prop :=
  exists c r, t = String c r /\ c <> "}"%char /\ c <> "]"%char /\ c <> ","%char.

Definition parses (n f : nat) (v : Value) (t : string) : Prop :=
  forall rest, stops rest -> parsed any (parseRealSaveValue f) t rest (fun h1 v' => resaved n h1 v v').

(** The first byte of a number. *)
Lemma number_opens c r : (Ascii.eqb c "-" || isdigit c)%bool = true -> opens (String c r).
Proof.
  intros H. exists c, r. split; [done|]. by destruct c as [[] [] [] [] [] [] [] []].
Qed.

Lemma to_string_head z : exists c r, to_string z = String c r /\ (Ascii.eqb c "-" || isdigit c)%bool = true.
Proof.
  unfold to_string. destruct (Z.ltb_spec z 0); [by eexists _, _|].
  destruct (digits_head z) as (c & r & -> & Hc); [lia|]. exists c, r. by rewrite Hc, orb_true_r.
Qed.

Lemma printf_f_head d : finite d = true ->
  exists c r, Dbl.printf_f d = String c r /\ (Ascii.eqb c "-" || isdigit c)%bool = true.
Proof.
  intros Hd. destruct (printf_f_shape d Hd) as (neg & ip & fp & -> & Hn & Hi & _).
  destruct neg; [by eexists _, _|]. destruct ip as [|c ip]; [done|]. apply sforall_cons in Hi as [Hc _].
  exists c. eexists. split; [by rewrite sapp_nil_l, sapp_cons|]. by rewrite Hc, orb_true_r.
Qed.

(** The text of a value. *)
Definition textOf (v : Value) (t : string) : Prop :=
  match data v with
  | Int i => t = to_string i
  | Dbl d => t = Dbl.printf_f d
  | Str s => t = str1 DQUOTE +:+ escaped s +:+ str1 DQUOTE
  | _ => exists r, t = String "(" r
  end.

Lemma textOf_opens n v t : savable (S n) v -> textOf v t -> opens t.
Proof.
  cbn [savable]. unfold textOf. destruct (data v) as [| |i|d|s| | |[q|]|[q|]| |]; intros [_ Hv]; try done; try by intros [r ->]; exists "("%char, r.
  - intros ->. destruct (to_string_head i) as (c & r & -> & Hc). by apply number_opens.
  - intros ->. destruct (printf_f_head d (proj1 Hv)) as (c & r & -> & Hc). by apply number_opens.
  - intros ->. by exists DQUOTE, (escaped s +:+ str1 DQUOTE).
Qed.

(** [m] writes a text that reads back as [v], with as much fuel as bytes. *)
Definition value_saved (n : nat) (v : Value) : Prop :=
  savable n v -> forall out out', writeRealSaveValue h n v out = (Ok tt, out') ->
  exists t, out' = out +:+ t /\ textOf v t /\ forall f, (String.length t < f)%nat -> parses n f v t.
Lemma saved_opens n v t out out' : savable n v -> writeRealSaveValue h n v out = (Ok tt, out') -> textOf v t -> opens t.
Proof. destruct n; [done|]. intros Hv _. by eapply textOf_opens. Qed.

Lemma opens_length t : opens t -> (0 < String.length t)%nat.
Proof. intros (c & r & -> & _). cbn. lia. Qed.

(** ** The three kinds of text *)
Lemma scalar_saved n v t :
  writeRealSaveValue h (S n) v = emit t -> textOf v t ->
  (forall f, parses (S n) (S f) v t) ->
  forall out out', writeRealSaveValue h (S n) v out = (Ok tt, out') ->
  exists t, out' = out +:+ t /\ textOf v t /\ forall f, (String.length t < f)%nat -> parses (S n) f v t.
Proof.
  intros -> Ho Hp out out' [= <-]. exists t. split; [done|]. split; [done|].
  intros [|f] Hf; [lia|]. apply Hp.
Qed.

Lemma parses_number n f v t isFloat :
  (forall rest, stops rest -> numberToken (t +:+ rest) = (t, rest, isFloat)) ->
  (exists c r, t = String c r /\ (Ascii.eqb c "-" || isdigit c)%bool = true) ->
  (exists v', (forall p, tokenValue t isFloat p = (Ok v', p)) /\ forall h1, resaved n h1 v v') ->
  parses n (S f) v t.
Proof.
  intros Ht (c & r & -> & Hc) (v' & Hv & R) rest Hr h0 W _. exists v', h0.
  split; [|split; [reflexivity|eauto]]. cbn [parseRealSaveValue]. unfold mbind at 1, mgets. cbn [unread].
  rewrite sapp_cons.
  assert (Ascii.eqb c DQUOTE = false) as -> by (destruct c as [[] [] [] [] [] [] [] []]; done).
  assert (Ascii.eqb c "(" = false) as -> by (destruct c as [[] [] [] [] [] [] [] []]; done).
  rewrite Hc. unfold parseRealSaveNumber, mbind, mgets, mmodify. cbn [unread].
  rewrite <- sapp_cons, Ht by done. by rewrite Hv.
Qed.

Lemma realItems_step parse g t r h0 :
  opens t ->
  realItems parse (S g) (mkP (t +:+ r) h0) =
  (x <- parse ;; skip "," ;; xs <- realItems parse g ;; mret (x :: xs)) (mkP (t +:+ r) h0).
Proof.
  intros (c & s & -> & H1 & _ & H2). cbn [realItems]. unfold mbind at 1, mgets. cbn [unread]. rewrite sapp_cons.
  destruct (Ascii.eqb_spec c "}"); [done|]. by destruct (Ascii.eqb_spec c ",").
Qed.

Lemma realEntries_step parse g t r h0 :
  opens t ->
  realEntries parse (S g) (mkP (t +:+ r) h0) =
  (key <- parse ;; skip ":" ;; val <- parse ;; skip "," ;; es <- realEntries parse g ;; mret ((key, val) :: es))
    (mkP (t +:+ r) h0).
Proof.
  intros (c & s & -> & _ & H1 & _). cbn [realEntries]. unfold mbind at 1, mgets. cbn [unread]. rewrite sapp_cons.
  by destruct (Ascii.eqb_spec c "]").
Qed.

(** One value and the separator after it. *)
Lemma parsed_item {B} n f v t c s rest (k : Value -> Ps B) Q :
  parses n f v t -> isdigit c = false -> c <> "."%char ->
  (forall v', parsed (fun h1 => resaved n h1 v v') (k v') s rest Q) ->
  parsed any (x <- parseRealSaveValue f ;; skip c ;; k x) (t +:+ str1 c +:+ s) rest Q.
Proof.
  intros Hp Hc Hd Hk. eapply parsed_bind; [apply Hp; by split|]. intros x.
  eapply parsed_bind; [apply parsed_skip|]. intros ?. apply Hk.
Qed.

Lemma parsed_pre {A} (P P' : heap -> Prop) (m : Ps A) t rest Q :
  (forall h1, P' h1 -> P h1) -> parsed P m t rest Q -> parsed P' m t rest Q.
Proof. intros HP Hm h0 W H'. apply Hm; auto. Qed.

(** What was known of the heap stays known while more is read. *)
Lemma parsed_frame {A} (P : heap -> Prop) (m : Ps A) t rest Q :
  (forall h1 h2, heap_le h1 h2 -> P h1 -> P h2) -> parsed any m t rest Q ->
  parsed P m t rest (fun h1 a => P h1 /\ Q h1 a).
Proof.
  intros HP Hm h0 W H0. destruct (Hm h0 W Logic.I) as (a & h1 & E & L & W1 & H1).
  exists a, h1. split; [done|]. split; [done|]. split; [done|]. split; [by eapply HP|done].
Qed.

Lemma parsed_eq {A} P (m m' : Ps A) t rest Q :
  (forall h0, m (mkP (t +:+ rest) h0) = m' (mkP (t +:+ rest) h0)) -> parsed P m' t rest Q -> parsed P m t rest Q.
Proof. intros E Hm h0 W HP. rewrite E. by apply Hm. Qed.

Lemma items_saved n l :
  (forall v, value_saved n v) -> Forall (savable n) l -> forall out out',
  emitAll (fun x => writeRealSaveValue h n x ;; emit ",") l out = (Ok tt, out') ->
  exists t, out' = out +:+ t /\ forall f g rest, (String.length t < f)%nat -> (String.length t < g)%nat ->
    parsed any (realItems (parseRealSaveValue f) g) t (String "}" rest) (fun h1 xs => Forall2 (resaved n h1) l xs).
Proof.
  intros IH. induction 1 as [|v l Hv Hl IHl]; intros out out'.
  - intros [= <-]. exists "". rewrite sapp_nil_r. split; [done|]. intros f [|g] rest _ Hg; [lia|].
    by apply parsed_ret.
  - intros (u & o1 & E1 & E2)%mbind_ok. destruct u. apply mbind_ok in E1 as (u & o2 & E1 & E3). destruct u.
    destruct (IH v Hv _ _ E1) as (t1 & -> & Ho & P1). apply (saved_opens n v t1 out _ Hv E1) in Ho. injection E3 as <-.
    destruct (IHl _ _ E2) as (t2 & -> & P2). exists (t1 +:+ str1 "," +:+ t2). rewrite !sapp_assoc.
    split; [done|]. intros f [|g] rest Hf Hg; [lia|]. pose proof (opens_length _ Ho).
    rewrite !slength_app in Hf, Hg. cbn in Hf, Hg.
    eapply parsed_eq; [intros h0; rewrite sapp_assoc; by apply realItems_step|].
    apply (parsed_item n f v); [apply P1; lia|done|done|]. intros v'.
    eapply parsed_map; [apply parsed_frame; [|apply P2; lia]|].
    + intros h1 h2 L. by apply copied_mono.
    + intros h1 xs [Hx Hxs]. by constructor.
Qed.

Definition entrySaved (n : nat) (h1 : heap) (e e' : Value * Value) : Prop :=
  resaved n h1 (fst e) (fst e') /\ resaved n h1 (snd e) (snd e').

Lemma entries_saved n l :
  (forall v, value_saved n v) -> Forall (fun e => savable n (fst e) /\ savable n (snd e)) l -> forall out out',
  emitAll (fun e => writeRealSaveValue h n (fst e) ;; emit ":" ;; writeRealSaveValue h n (snd e) ;; emit ",") l out = (Ok tt, out') ->
  exists t, out' = out +:+ t /\ forall f g rest, (String.length t < f)%nat -> (String.length t < g)%nat ->
    parsed any (realEntries (parseRealSaveValue f) g) t (String "]" rest) (fun h1 xs => Forall2 (entrySaved n h1) l xs).
Proof.
  intros IH. induction 1 as [|[k v] l [Hk Hv] Hl IHl]; intros out out'.
  - intros [= <-]. exists "". rewrite sapp_nil_r. split; [done|]. intros f [|g] rest _ Hg; [lia|].
    by apply parsed_ret.
  - cbn [fst snd] in *. intros (u & o1 & E1 & E2)%mbind_ok. destruct u.
    apply mbind_ok in E1 as (u & o2 & Ek & E1). destruct u. apply mbind_ok in E1 as (u & o3 & Ec & E1). destruct u.
    apply mbind_ok in E1 as (u & o4 & Ev & E1). destruct u.
    destruct (IH k Hk _ _ Ek) as (t1 & -> & Ho & P1). apply (saved_opens n k t1 out _ Hk Ek) in Ho. injection Ec as <-.
    destruct (IH v Hv _ _ Ev) as (t2 & -> & _ & P2). injection E1 as <-.
    destruct (IHl _ _ E2) as (t3 & -> & P3). exists (t1 +:+ str1 ":" +:+ t2 +:+ str1 "," +:+ t3). rewrite !sapp_assoc.
    split; [done|]. intros f [|g] rest Hf Hg; [lia|]. pose proof (opens_length _ Ho).
    rewrite !slength_app in Hf, Hg. cbn in Hf, Hg.
    eapply parsed_eq; [intros h0; rewrite sapp_assoc; by apply realEntries_step|].
    apply (parsed_item n f k); [apply P1; lia|done|done|]. intros k'.
    eapply parsed_bind.
    { apply parsed_frame; [intros h1 h2 L; by apply copied_mono|]. apply P2; [lia|]. by split. }
    intros v'. eapply parsed_bind; [apply parsed_skip|]. intros ?.
    eapply parsed_map; [apply parsed_frame; [|apply P3; lia]|].
    + intros h1 h2 L []. split; by eapply copied_mono.
    + intros h1 xs [[] Hxs]. by constructor.
Qed.

(** The bracketed text of a container. *)
Lemma container_parse {B} (f : nat) (open close : ascii) t rest (loop : Ps B) (k : B -> Ps Value) Q1 Q2 :
  (forall h0, parseRealSaveValue (S f) (mkP (("(" +:+ str1 open) +:+ t +:+ String close (String ")" rest)) h0) =
     (xs <- loop ;; advance ;; skip ")" ;; k xs) (mkP (t +:+ String close (String ")" rest)) h0)) ->
  parsed any loop t (String close (String ")" rest)) Q1 ->
  (forall xs, parsed (fun h1 => Q1 h1 xs) (k xs) "" rest Q2) ->
  parsed any (parseRealSaveValue (S f)) (("(" +:+ str1 open) +:+ t +:+ str1 close +:+ ")") rest Q2.
Proof.
  intros E Hl Hk h0 W HP.
  assert (parsed any (xs <- loop ;; advance ;; skip ")" ;; k xs) (t +:+ str1 close +:+ str1 ")" +:+ "") rest Q2) as H.
  { eapply parsed_bind; [exact Hl|]. intros xs. eapply parsed_bind; [apply parsed_advance|]. intros ?.
    eapply parsed_bind; [apply parsed_skip|]. intros ?. apply Hk. }
  destruct (H h0 W HP) as (a & h1 & R & H'). exists a, h1. split; [|exact H'].
  rewrite <- R. rewrite !sapp_assoc. rewrite sapp_assoc in E. apply E.
Qed.

Lemma array_saved n v q :
  (forall v, value_saved n v) -> data v = Arr (Some q) -> value_saved (S n) v.
Proof.
  intros IH Ed [_ Hits] out out' E. cbn [writeRealSaveValue] in E. rewrite Ed in E, Hits.
  apply mbind_ok in E as (u & o1 & E1 & E). injection E1 as _ <-.
  apply mbind_ok in E as (u' & o2 & E2 & E). destruct u'. injection E as <-.
  destruct (items_saved n (items h q) IH Hits _ _ E2) as (t & -> & P).
  exists (("(" +:+ str1 "{") +:+ t +:+ str1 "}" +:+ ")"). split; [by rewrite !sapp_assoc|].
  split; [by unfold textOf; rewrite Ed; eexists|].
  intros [|f] Hf rest Hr; [lia|]. rewrite !slength_app in Hf. cbn in Hf.
  eapply container_parse; [intros h0; reflexivity|apply P; lia|].
  intros xs. apply parsed_alloc; [auto with amlp|]. intros h1 W F.
  apply (copied_array textLeaf h n v q); [by unfold textLeaf; rewrite Ed|done..].
Qed.

Lemma mapping_saved n v q :
  (forall v, value_saved n v) -> data v = Map (Some q) -> value_saved (S n) v.
Proof.
  intros IH Ed [_ Hm] out out' E. cbn [writeRealSaveValue] in E. rewrite Ed in E, Hm. destruct Hm as [H1 Hes].
  apply mbind_ok in E as (u & o1 & E1 & E). injection E1 as _ <-.
  apply mbind_ok in E as (u' & o2 & E2 & E). destruct u'. injection E as <-.
  destruct (entries_saved n _ IH Hes _ _ E2) as (t & -> & P).
  exists (("(" +:+ str1 "[") +:+ t +:+ str1 "]" +:+ ")"). split; [by rewrite !sapp_assoc|].
  split; [by unfold textOf; rewrite Ed; eexists|].
  intros [|f] Hf rest Hr; [lia|]. rewrite !slength_app in Hf. cbn in Hf.
  eapply container_parse; [intros h0; reflexivity|apply P; lia|].
  intros xs. apply parsed_alloc; [auto with amlp|]. intros h1 W F.
  apply (copied_mapping textLeaf h n v q h1 xs); [by unfold textLeaf; rewrite Ed|done..].
Qed.

Lemma value_saved_all n v : value_saved n v.
Proof.
  revert v. induction n as [|n IH]; intros v; [by intros _ out out'|].
  destruct (data v) as [| |i|d|t|y|o|[q|]|[q|]|l|b] eqn:Ed;
    try (eapply array_saved; by eauto); try (eapply mapping_saved; by eauto);
    unfold value_saved; cbn [savable]; rewrite Ed; intros [Eb Hv]; try done.
  all: assert (forall h1, resaved (S n) h1 v (V (data v))) as Hleaf
         by (intros h1; simpl; unfold textLeaf; unfold bare in Eb; rewrite Ed in *; done).
  all: rewrite Ed in Hleaf.
  - destruct (to_string_head i) as (c & r & Et & Hc).
    apply (scalar_saved n v (to_string i)); [cbn; by rewrite Ed|by unfold textOf; rewrite Ed|].
    intros f. apply (parses_number (S n) f v (to_string i) false); [apply numberToken_int|eauto|].
    exists (VInt i). split; [|exact Hleaf].
    intros p. unfold tokenValue, numberPs. by rewrite stoll_to_string.
  - destruct Hv as (Hf & Hlen & Hd). destruct (printf_f_head d Hf) as (c & r & Et & Hc).
    apply (scalar_saved n v (Dbl.printf_f d)); [cbn [writeRealSaveValue]; by rewrite Ed, stake_short|by unfold textOf; rewrite Ed|].
    intros f. apply (parses_number (S n) f v (Dbl.printf_f d) true); [by intros; apply numberToken_float|eauto|].
    exists (V (Dbl d)). split; [|exact Hleaf].
    intros p. unfold tokenValue, numberPs. by rewrite Hd.
  - apply (scalar_saved n v (str1 DQUOTE +:+ escaped t +:+ str1 DQUOTE)); [cbn; by rewrite Ed|by unfold textOf; rewrite Ed|].
    intros f rest Hr h0 W _. exists (V (Str t)), h0. split; [|split; [reflexivity|split; [done|apply Hleaf]]].
    cbn [parseRealSaveValue]. unfold mbind at 1, mgets. cbn [unread]. rewrite !sapp_assoc.
    change (str1 DQUOTE +:+ ?x) with (String DQUOTE x). cbn iota.
    rewrite Ascii.eqb_refl. change (str1 DQUOTE +:+ rest) with (String DQUOTE rest). by rewrite parse_escaped.
Qed.
End Real.


(** ** restore_variable after save_variable *)
Lemma top_number f t isFloat h0 v' :
  (exists c r, t = String c r /\ (Ascii.eqb c "-" || isdigit c)%bool = true) ->
  (Ascii.eqb (char_at t 0) "-" && negb (isdigit (char_at t 1)))%bool = false ->
  numberToken t = (t, ""%string, isFloat) -> (forall p, tokenValue t isFloat p = (Ok v', p)) ->
  parseRestoreVariableTopLevel f (mkP t h0) = (Ok v', mkP "" h0).
Proof.
  intros (c & r & -> & Hc) Hm Ht Hv. unfold parseRestoreVariableTopLevel, mbind at 1, mgets. cbn [unread].
  assert (Ascii.eqb c DQUOTE = false) as -> by (destruct c as [[] [] [] [] [] [] [] []]; done).
  rewrite Hc. unfold parseRestoreVariableNumber, mbind at 1, mgets. cbn [unread]. rewrite Hm.
  unfold parseRealSaveNumber, mbind, mgets, mmodify. cbn [unread]. rewrite Ht. by rewrite Hv.
Qed.

Lemma minus_digit z : (Ascii.eqb (char_at (to_string z) 0) "-" && negb (isdigit (char_at (to_string z) 1)))%bool = false.
Proof.
  unfold to_string. destruct (Z.ltb_spec z 0).
  - destruct (digits_head (- z)) as (c & r & -> & Hc); [lia|]. change (char_at (String "-" (String c r)) 1) with c. by rewrite Hc.
  - destruct (digits_head z) as (c & r & -> & Hc); [lia|]. change (char_at (String c r) 0) with c.
    destruct (Ascii.eqb_spec c "-") as [->|]; done.
Qed.

Lemma minus_digit_float d : finite d = true ->
  (Ascii.eqb (char_at (Dbl.printf_f d) 0) "-" && negb (isdigit (char_at (Dbl.printf_f d) 1)))%bool = false.
Proof.
  intros Hd. destruct (printf_f_shape d Hd) as (neg & ip & fp & -> & Hn & Hi & _).
  destruct ip as [|c ip]; [done|]. apply sforall_cons in Hi as [Hc _]. destruct neg.
  - change (char_at (signText true +:+ String c ip +:+ ?x) 1) with c. by rewrite Hc.
  - change (char_at (signText false +:+ String c ip +:+ ?x) 0) with c. destruct (Ascii.eqb_spec c "-") as [->|]; done.
Qed.

Lemma top_saved h n v t f :
  savable h n v -> writeRealSaveValue h n v "" = (Ok tt, t) -> (String.length t < f)%nat ->
  forall h0, heap_wf h0 -> exists v' p,
    parseRestoreVariableTopLevel f (mkP t h0) = (Ok v', p) /\ heap_le h0 (ph p) /\ heap_wf (ph p) /\
    copied textLeaf h n (ph p) v v'.
Proof.
  intros Hv E Hf h0 W. destruct n as [|n]; [done|].
  destruct (value_saved_all h (S n) v Hv _ _ E) as (t' & -> & T & P). rewrite sapp_nil_l in *. clear E.
  specialize (P f Hf "" Logic.I h0 W Logic.I) as (v' & h1 & R & L & W1 & F). rewrite sapp_nil_r in R.
  unfold textOf in T. cbn [savable] in Hv. destruct Hv as [Eb Hv]. unfold bare in Eb.
  assert (forall w, textLeaf v = Some w -> w = v -> copied textLeaf h (S n) h0 v w) as Hleaf
    by (intros w E ->; cbn [copied]; by rewrite E).
  destruct (data v) as [| |i|d|s|y|o|[q|]|[q|]|l|b] eqn:Ed; try done.
  - exists (VInt i), (mkP "" h0). split; [|split; [reflexivity|split; [done|apply Hleaf; [unfold textLeaf; rewrite Ed; by f_equal|done]]]]. subst t'.
    apply (top_number f _ false); [apply to_string_head|apply minus_digit| |].
    + rewrite <- (sapp_nil_r (to_string i)). rewrite numberToken_int by done. by rewrite sapp_nil_r.
    + intros p. unfold tokenValue, numberPs. by rewrite stoll_to_string.
  - destruct Hv as (Hd & _ & Hs). exists (V (Dbl d)), (mkP "" h0).
    split; [|split; [reflexivity|split; [done|apply Hleaf; [unfold textLeaf; rewrite Ed; by f_equal|done]]]].
    subst t'. apply (top_number f _ true); [by apply printf_f_head|by apply minus_digit_float| |].
    + rewrite <- (sapp_nil_r (Dbl.printf_f d)). rewrite numberToken_float by done. by rewrite sapp_nil_r.
    + intros p. unfold tokenValue, numberPs. by rewrite Hs.
  - exists (V (Str s)), (mkP t' h0).
    split; [|split; [reflexivity|split; [done|apply Hleaf; [unfold textLeaf; rewrite Ed; by f_equal|done]]]]. subst t'.
    change (str1 DQUOTE +:+ ?x) with (String DQUOTE x). unfold parseRestoreVariableTopLevel, mbind at 1, mgets.
    cbn [unread]. rewrite Ascii.eqb_refl. unfold mbind, mlift. by rewrite restore_escaped.
  - destruct T as [r ->]. exists v', (mkP "" h1). split; [exact R|]. by split; [|split].
  - destruct T as [r ->]. exists v', (mkP "" h1). split; [exact R|]. by split; [|split].
Qed.

(** C34: [restore_variable] inverts [save_variable]: whenever a value that the
    format holds ([savable]: strings without carriage return, floats that fit the
    buffer and that six places determine, mappings of one column, no object,
    function, buffer or void) is written, the text is read back by the same driver as the
    same value, arrays and mappings as fresh containers of the same content;
    nothing else changes. *)
Theorem restore_save_variable ops v s out :
  savable (hp s) (op_fuel ops) v -> heap_wf (hp s) ->
  fst (save_variable ops [v] s) = Ok (V (Str out)) -> (String.length out < op_fuel ops)%nat ->
  exists v' s', restore_variable ops [V (Str out)] s = (Ok v', s') /\
    s' = s <| hp := hp s' |> /\ heap_le (hp s) (hp s') /\ copied textLeaf (hp s) (op_fuel ops) (hp s') v v'.
Proof.
  intros Hv W E Hf. unfold save_variable in E.
  destruct (writeRealSaveValue (hp s) (op_fuel ops) v "") as [[[]| | |] t] eqn:Ew; try done. injection E as ->.
  destruct (top_saved _ _ _ _ _ Hv Ew Hf (hp s) W) as (v' & p & R & L & _ & F).
  exists v', (s <| hp := ph p |>). unfold restore_variable. cbn [argStr lookup list_lookup data V].
  unfold onText. by rewrite R.
Qed.

(** On the text of an array that holds something no value begins with,
    [restore_variable] never returns: the loop over the elements reads nothing
    and appends zeros for ever, whatever the fuel. *)
Theorem restore_variable_loops ops rest s c :
  c <> "}"%char -> c <> ","%char -> c <> DQUOTE -> c <> "("%char -> c <> "-"%char -> isdigit c = false ->
  fst (restore_variable ops [V (Str ("({" +:+ String c rest))] s) = OutOfFuel.
Proof.
  intros H1 H2 H3 H4 H5 H6. unfold restore_variable. cbn [argStr lookup list_lookup data V]. unfold onText.
  assert (forall f g h0, exists p, realItems (parseRealSaveValue f) g (mkP (String c rest) h0) = (OutOfFuel, p)) as Loop.
  { intros f g. induction g as [|g IH]; intros h0; [by eexists|]. cbn [realItems]. unfold mbind at 1, mgets. cbn [unread].
    destruct (Ascii.eqb_spec c "}"); [done|]. destruct (Ascii.eqb_spec c ","); [done|].
    destruct f as [|f]; [by eexists|].
    assert (parseRealSaveValue (S f) (mkP (String c rest) h0) = (Ok (VInt 0), mkP (String c rest) h0)) as E.
    { cbn [parseRealSaveValue]. unfold mbind at 1, mgets. cbn [unread].
      destruct (Ascii.eqb_spec c DQUOTE); [done|]. destruct (Ascii.eqb_spec c "("); [done|].
      destruct (Ascii.eqb_spec c "-"); [done|]. by rewrite H6. }
    destruct (IH h0) as [p Ep]. exists p. unfold mbind. rewrite E. unfold skip, at_char, mbind, mgets. cbn [unread].
    rewrite Ascii.eqb_sym. destruct (Ascii.eqb_spec c ","); [done|]. cbn [mret]. by rewrite Ep. }
  destruct (op_fuel ops) as [|f]; [done|]. destruct (Loop f f (hp s)) as [p Ep].
  match goal with |- context [parseRestoreVariableTopLevel ?a ?b] =>
    change (parseRestoreVariableTopLevel a b) with
      ((xs <- realItems (parseRealSaveValue f) f ;; advance ;; skip ")" ;;
        allocPs (newArray xs) (fun p => V (Arr (Some p)))) (mkP (String c rest) (hp s))) end.
  unfold mbind at 1. by rewrite Ep.
Qed.

(** ** The driver's own format *)
Section Own.
Context (h : heap) (limit : Z).

(** What the format holds, to depth [n]: 64-bit integers, floats that six digits
    determine, strings without line breaks, arrays and mappings of one column of
    such values; and references, closures, buffers and void, which it writes as 0. *)
Fixpoint holdable (n : nat) (v : Value) : Prop :=
  match n with
  | O => True
  | S n' =>
      match data v with
      | Int i => bare v /\ in_int64 i = true
      | Dbl d => bare v /\ Dbl.stod (Dbl.ostream_g d) = inl d
      | Str t => bare v /\ no_nl t
      | Arr (Some p) => bare v /\ Forall (holdable n') (items h p)
      | Map (Some p) => bare v /\ one_column (mapping h p) /\
          Forall (fun e => holdable n' (fst e) /\ holdable n' (snd e)) (entries (mapping h p))
      | Obj _ | Fun _ | Buf _ | Monostate => True
      | _ => False
      end
  end.

Definition saveLeaf (v : Value) : option Value :=
  match data v with
  | Arr (Some _) | Map (Some _) => None
  | Obj _ | Fun _ | Buf _ | Monostate => Some (VInt 0)
  | _ => Some v
  end.
Abbreviation kept := (copied saveLeaf h) (only parsing).

Abbreviation des n := (fun s => deserializeValue limit s n) (only parsing).

Definition value_kept (n : nat) (v : Value) : Prop :=
  holdable n v -> writes limit (serializeValue h n v) (des n) 1 (fun h1 => kept n h1 v).

Lemma readable_kind n k t Q :
  readable limit (fun s => readSaved limit s (des n s) k) t Q -> readable limit (des (S n)) (String k t) Q.
Proof. intros H s Hs Hl. apply (reads_tagged s (readSaved limit s (deserializeValue limit s n))); auto. Qed.

Lemma scalar_read_back n v k t :
  serializeValue h (S n) v = emit (String k t) ->
  readable limit (fun s => readSaved limit s (des n s) k) t (fun h1 => kept (S n) h1 v) -> value_kept (S n) v.
Proof. intros E Hr _. rewrite E. apply emit_writes; [cbn; lia|]. by apply readable_kind. Qed.

Lemma pair_kept n (k v : Value) :
  value_kept n k -> value_kept n v -> holdable n k -> holdable n v ->
  writes limit (serializeValue h n k ;; serializeValue h n v)
    (fun s => k' <- des n s ;; v' <- des n s ;; mret (k', v')) 1
    (fun h1 e' => kept n h1 k (fst e') /\ kept n h1 v (snd e')).
Proof.
  intros Wk Wv Hk Hv out out' E. apply mbind_ok in E as (u & out1 & E1 & E2). destruct u.
  destruct (Wk Hk _ _ E1) as (t1 & -> & L1 & R1). destruct (Wv Hv _ _ E2) as (t2 & -> & L2 & R2).
  exists (t1 +:+ t2). rewrite sapp_assoc, slength_app. split; [done|]. split; [lia|].
  intros s Hs Hl. eapply reads_bind; [by apply R1|]. intros k'. intros pre rest r P1 P2 W Hk'.
  destruct (R2 s Hs Hl pre rest r P1 P2 W Logic.I) as (v' & r' & RR & PP & G & F).
  exists (k', v'), r'. unfold mbind. rewrite RR. split; [done|]. split; [done|].
  split; [done|]. split; [|done]. cbn. eapply copied_mono; [apply G|done].
Qed.

Lemma array_kept n v q : (forall v, value_kept n v) -> data v = Arr (Some q) -> value_kept (S n) v.
Proof.
  intros IH Ed Hv out out' E. cbn [serializeValue holdable] in *. rewrite Ed in E, Hv. destruct Hv as [_ Hits].
  set (its := items h q) in *.
  destruct (container_readable limit "A" (serializeValue h n) its (des n)
    (fun xs => allocRd (newArray xs) (fun p => V (Arr (Some p))))
    (fun h1 ys => Forall2 (kept n h1) its ys) (fun h1 v' => kept (S n) h1 v v') out out') as (t & -> & R).
  - apply emitAll_readable; [intros h1 h2 x y; apply copied_mono|].
    intros x Hx. apply (IH x). by apply (proj1 (list.Forall_forall _ _) Hits).
  - intros s xs Hs Hl. apply reads_alloc; [auto with amlp|]. intros h1 W F.
    apply (copied_array saveLeaf h n v q); [by unfold saveLeaf; rewrite Ed|done..].
  - exact E.
  - exists (String "A" t). split; [done|]. split; [cbn; lia|]. by apply readable_kind.
Qed.

Lemma mapping_kept n v q : (forall v, value_kept n v) -> data v = Map (Some q) -> value_kept (S n) v.
Proof.
  intros IH Ed Hv out out' E. cbn [serializeValue holdable] in *. rewrite Ed in E, Hv. destruct Hv as (_ & H1 & Hes).
  set (es := entries (mapping h q)) in *.
  destruct (container_readable limit "M" (fun e => serializeValue h n (fst e) ;; serializeValue h n (snd e)) es
    (fun s => k' <- des n s ;; v' <- des n s ;; mret (k', v'))
    (fun xs => allocRd (newMapping (emptyMapping <| entries := xs |>)) (fun p => V (Map (Some p))))
    (fun h1 ys => Forall2 (fun e e' => kept n h1 (fst e) (fst e') /\ kept n h1 (snd e) (snd e')) es ys)
    (fun h1 v' => kept (S n) h1 v v') out out') as (t & -> & R).
  - apply (emitAll_readable limit _ _ (fun h1 e e' => kept n h1 (fst e) (fst e') /\ kept n h1 (snd e) (snd e'))).
    + intros h1 h2 x y L []. split; by eapply copied_mono.
    + intros [k x] Hx. destruct (proj1 (list.Forall_forall _ _) Hes _ Hx). by apply pair_kept.
  - intros s xs Hs Hl. apply reads_alloc; [auto with amlp|]. intros h1 W F.
    apply (copied_mapping saveLeaf h n v q h1 xs); [by unfold saveLeaf; rewrite Ed|done..].
  - by destruct (1 <? width (mapping h q)).
  - exists (String "M" t). split; [done|]. split; [cbn; lia|]. by apply readable_kind.
Qed.

Lemma value_kept_all n v : value_kept n v.
Proof.
  revert v. induction n as [|n IH]; intros v; [by intros _ out out'|].
  assert (forall w h1, saveLeaf v = Some w -> kept (S n) h1 v w) as Hleaf by (intros w h1 E; cbn [copied]; by rewrite E).
  unfold saveLeaf in Hleaf.
  destruct (data v) as [| |i|d|t|y|o|[q|]|[q|]|l|b] eqn:Ed;
    try (eapply array_kept; by eauto); try (eapply mapping_kept; by eauto);
    try (intros Hv; refine (scalar_read_back n v "N" "" _ _ Hv); [cbn; by rewrite Ed|]; intros s Hs Hl;
         apply reads_ret; intros h1 _; by apply Hleaf);
    try (intros Hv; cbn [holdable] in Hv; rewrite Ed in Hv; done);
    intros Hv; assert (Hv' := Hv); cbn [holdable] in Hv; rewrite Ed in Hv; destruct Hv as [Eb Hv];
    unfold bare in Eb; rewrite Ed in Eb.
  - refine (scalar_read_back n v "I" _ _ _ Hv'); [cbn; by rewrite Ed|].
    intros s Hs Hl. eapply reads_map; [by apply (reads_intField s Hs any)|]. intros h1 a [_ ->]. apply Hleaf. by f_equal.
  - refine (scalar_read_back n v "F" _ _ _ Hv'); [cbn; by rewrite Ed|]. intros s Hs Hl.
    eapply reads_map; [apply (reads_number s Hs any ";" "stod" Dbl.stod); [apply ostream_g_not_semicolon|done]|].
    intros h1 a [_ ->]. apply Hleaf. by f_equal.
  - refine (scalar_read_back n v "S" _ _ _ Hv'); [cbn; by rewrite Ed|].
    intros s Hs Hl. apply reads_inside. intros Hin. assert (slen t < UINT64) as Hlen.
    { apply (inside_bound s Hs) in Hin. unfold sized in Hin. rewrite !slen_app in Hin. unfold slen in *. lia. }
    eapply reads_map; [by apply (reads_sized s Hs any)|]. intros h1 a [_ ->]. apply Hleaf. by f_equal.
Qed.
End Own.

(** ** Files: lines *)

Lemma no_nl_app a b : no_nl (a +:+ b) <-> no_nl a /\ no_nl b.
Proof. unfold no_nl. rewrite sforall_app. apply andb_true_iff. Qed.
Lemma no_nl_string z : no_nl (to_string z).
Proof. by apply (to_string_not_char NL). Qed.

Definition quietly (m : Out unit) : Prop := forall out out', m out = (Ok tt, out') -> exists t, out' = out +:+ t /\ no_nl t.
Lemma quietly_emit t : no_nl t -> quietly (emit t).
Proof. intros Ht out out' [= <-]. eauto. Qed.
Lemma quietly_bind m k : quietly m -> quietly k -> quietly (m ;; k).
Proof.
  intros Hm Hk out out' (u & o1 & E1 & E2)%mbind_ok. destruct u. destruct (Hm _ _ E1) as (t1 & -> & H1).
  destruct (Hk _ _ E2) as (t2 & -> & H2). exists (t1 +:+ t2). rewrite sapp_assoc, no_nl_app. done.
Qed.
Lemma quietly_emitAll {A} (f : A -> Out unit) l : (forall x, x ∈ l -> quietly (f x)) -> quietly (emitAll f l).
Proof.
  induction l as [|x l IH]; intros Hf; cbn [emitAll].
  - intros out out' [= <-]. exists "". by rewrite sapp_nil_r.
  - apply quietly_bind; [apply Hf; by left|]. apply IH. intros y Hy. apply Hf. by right.
Qed.

Lemma serializeValue_quiet h n v : holdable h n v -> quietly (serializeValue h n v).
Proof.
  revert v. induction n as [|n IH]; intros v; [by intros _ out out'|]. cbn [holdable serializeValue].
  destruct (data v) as [| |i|d|t|y|o|[p|]|[p|]|l|b]; intros Hu; try done; try (by apply quietly_emit); destruct Hu as [_ Hu].
  - apply quietly_emit. rewrite !no_nl_app. split; [done|]. split; [apply no_nl_string|done].
  - apply quietly_emit. rewrite !no_nl_app. split; [done|]. split; [|done]. apply (ostream_g_not_char NL). by right.
  - apply quietly_emit. unfold sized. rewrite !no_nl_app. split; [done|]. split; [apply no_nl_string|done].
  - apply quietly_bind; [apply quietly_emit; unfold count_text; rewrite !no_nl_app; split; [done|]; split; [apply no_nl_string|done]|].
    apply quietly_emitAll. intros x Hx. apply IH. rewrite list.Forall_forall in Hu. auto.
  - cbv zeta. destruct (1 <? width (mapping h p)); [by intros out out'|].
    apply quietly_bind; [apply quietly_emit; unfold count_text; rewrite !no_nl_app; split; [done|]; split; [apply no_nl_string|done]|].
    destruct Hu as [_ Hu]. apply quietly_emitAll. intros x Hx. rewrite list.Forall_forall in Hu. destruct (Hu x Hx). apply quietly_bind; auto.
Qed.

(** A variable's name, as the compiler admits it. *)
Definition okName (name : string) : Prop :=
  no_nl name /\ sforall (not_char TAB) name = true /\ Ascii.eqb (char_at name 0) "#" = false.

Lemma slotOf_app pre name ns : name ∉ pre -> slotOf name (pre ++ name :: ns) = Some (length pre).
Proof.
  induction pre as [|p pre IH]; cbn; [by rewrite String.eqb_refl|]. intros [N1 N2]%not_elem_of_cons.
  destruct (String.eqb_spec p name); [congruence|]. by rewrite IH.
Qed.

Section Lines.
Context (h : heap) (limit : Z) (fuel : nat) (o : oid).
Abbreviation kept := (copied saveLeaf) (only parsing).

(** One line restores one variable. *)
Lemma restoreLine_saved names pre ns name t v xs y ys s ob :
  names = pre ++ name :: ns -> name ∉ pre -> okName name ->
  readable limit (fun s => deserializeValue limit s fuel) t (fun h1 => kept h fuel h1 v) ->
  let line := name +:+ str1 TAB +:+ t in
  slen line < npos -> slen line <= limit ->
  objects s !! o = Some ob -> variables ob = xs ++ y :: ys -> length xs = length pre -> heap_wf (hp s) ->
  exists v' s' ob', restoreLine limit fuel names o line s = (Ok tt, s') /\
    objects s' !! o = Some ob' /\ variables ob' = xs ++ v' :: ys /\
    heap_wf (hp s') /\ heap_le (hp s) (hp s') /\ kept h fuel (hp s') v v'.
Proof using.
  intros -> Hn (_ & Htab & Hhash) Hr line Hl1 Hl2 Ho Hv Hx W. unfold restoreLine.
  assert (Hc : char_at line 0 = char_at (name +:+ str1 TAB) 0) by (subst line; by destruct name).
  assert (String.eqb line "" || Ascii.eqb (char_at line 0) "#" = false) as ->.
  { rewrite Hc. subst line. destruct name as [|c n]; [done|]. exact Hhash. }
  assert (Hf : find_str (str1 TAB) line = Some (String.length name)).
  { subst line. change (str1 TAB +:+ t) with (String TAB t). by apply find_delim. }
  rewrite Hf. cbn iota. assert (stake (String.length name) line = name) as -> by apply stake_app.
  unfold mbind at 1, mgets. rewrite slotOf_app by done. unfold getOb. rewrite Ho, Hv, length_app. cbn [length].
  destruct (Nat.leb_spec (length xs + S (length ys)) (length pre)); [lia|].
  destruct (Hr line Hl1 Hl2 (name +:+ str1 TAB) "" (mkRead s (Z.of_nat (String.length name) + 1))) as (v' & r' & R & _ & G & K).
  - subst line. by rewrite !sapp_assoc, sapp_nil_r.
  - cbn. rewrite slen_app. unfold slen. cbn. lia.
  - exact W.
  - exact Logic.I.
  - destruct G as (G1 & G2 & G3). cbn in G1, G2. exists v', (setOb o (fun ob => ob <| variables ::= <[length pre := v']> |>) (rvm r')).
    exists (ob <| variables ::= <[length pre := v']> |>). unfold mbind. rewrite R. split; [done|].
    split; [rewrite setOb_lookup, decide_True by done; rewrite G1; cbn; by rewrite Ho|].
    split; [unfold set_field; cbn; rewrite Hv, <- Hx; by rewrite insert_app_r_alt, Nat.sub_diag by lia|].
    done.
Qed.

(** The lines of the text, and what each of them reads back as. *)
Lemma saveLines_lines ns vs out out' :
  length vs = length ns -> Forall okName ns -> Forall (holdable h fuel) vs ->
  saveLines h fuel ns vs out = (Ok tt, out') ->
  exists ts, out' = out +:+ unlines (zip_with (fun n t => n +:+ str1 TAB +:+ t) ns ts) /\
    Forall no_nl (zip_with (fun n t => n +:+ str1 TAB +:+ t) ns ts) /\
    Forall2 (fun v t => readable limit (fun s => deserializeValue limit s fuel) t (fun h1 => kept h fuel h1 v)) vs ts.
Proof using.
  revert vs out. induction ns as [|n ns IH]; intros [|v vs] out Hl Hn Hu; try done.
  { intros [= <-]. exists []. by rewrite sapp_nil_r. }
  inversion Hn as [|? ? Hn1 Hn2]; subst. inversion Hu as [|? ? Hu1 Hu2]; subst.
  unfold saveLines. cbn [zip zip_with emitAll]. intros (u & o1 & E1 & E2)%mbind_ok. destruct u.
  apply mbind_ok in E1 as (u & o2 & E3 & E1). injection E3 as _ <-.
  apply mbind_ok in E1 as (u' & o3 & E3 & E1). destruct u'.
  destruct (value_kept_all h limit fuel v Hu1 _ _ E3) as (t & -> & _ & R).
  destruct (serializeValue_quiet h fuel v Hu1 _ _ E3) as (t' & Et & Hq). apply (inj _) in Et as <-.
  injection E1 as <-. destruct (IH vs _ ltac:(by injection Hl) Hn2 Hu2 E2) as (ts & -> & Hts & F).
  exists (t :: ts). split; [|split; [|by constructor]].
  - cbn [zip_with unlines fold_right]. by rewrite !sapp_assoc.
  - cbn [zip_with]. constructor; [|done]. rewrite !no_nl_app. split; [apply Hn1|]. by split.
Qed.

Lemma restoreLines_saved names pre ns vs ts xs ys s ob :
  names = pre ++ ns -> NoDup names -> Forall okName ns ->
  Forall2 (fun v t => readable limit (fun s => deserializeValue limit s fuel) t (fun h1 => kept h fuel h1 v)) vs ts ->
  length vs = length ns ->
  Forall (fun l => slen l < npos /\ slen l <= limit) (zip_with (fun n t => n +:+ str1 TAB +:+ t) ns ts) ->
  objects s !! o = Some ob -> variables ob = xs ++ ys -> length xs = length pre -> length ys = length ns ->
  heap_wf (hp s) ->
  exists s' ob' zs, restoreLines limit fuel names o (zip_with (fun n t => n +:+ str1 TAB +:+ t) ns ts) s = (Ok tt, s') /\
    objects s' !! o = Some ob' /\ variables ob' = xs ++ zs /\ heap_le (hp s) (hp s') /\
    Forall2 (kept h fuel (hp s')) vs zs.
Proof using.
  intros Enames Hnd Hok F. revert pre ns xs ys s ob Enames Hok.
  induction F as [|v t vs ts Hr F IH]; intros pre [|n ns] xs [|y ys] s ob Enames Hok Hl Hb Ho Hv Hx Hy W; try done.
  { exists s, ob, []. split; [done|]. split; [done|]. split; [done|]. split; [reflexivity|constructor]. }
  inversion Hok as [|? ? Hok1 Hok2]; subst. cbn [zip_with] in *. inversion Hb as [|? ? [Hb1 Hb1'] Hb2]; subst.
  apply list.NoDup_app in Hnd as Hnd'. destruct Hnd' as (_ & Hd & _).
  destruct (restoreLine_saved _ pre ns n t v xs y ys s ob eq_refl) as (v' & s1 & ob1 & R & Ho1 & Hv1 & W1 & L1 & K);
    [intros Hin; by apply (Hd n Hin); left|done|exact Hr|done|done|done|done|done|done|].
  destruct (IH (pre ++ [n]) ns (xs ++ [v']) ys s1 ob1) as (s2 & ob2 & zs & R2 & Ho2 & Hv2 & L2 & F2);
    [by rewrite <- app_assoc|done|by injection Hl|done|done|by rewrite <- app_assoc|rewrite !length_app; cbn; lia|by injection Hy|done|].
  exists s2, ob2, (v' :: zs). cbn [restoreLines]. unfold mbind. rewrite R. split; [exact R2|]. split; [done|].
  split; [by rewrite Hv2, <- app_assoc|]. split; [by etrans|]. constructor; [by eapply copied_mono|done].
Qed.
End Lines.

Lemma unlines_bound ls l : l ∈ ls -> slen l <= slen (unlines ls).
Proof.
  induction 1 as [l ls|l l' ls _ IH]; cbn [unlines fold_right]; fold (unlines ls); rewrite !slen_app;
    [|pose proof (slen_nonneg l')]; pose proof (slen_nonneg (unlines ls)); pose proof (slen_nonneg (str1 NL)); lia.
Qed.

(** The lines written for the variables of an object, read into an object with
    variables of the same names. *)
Lemma restoreLines_saveLines h limit fuel names vars out o s ob :
  Forall (holdable h fuel) vars ->
  NoDup names -> Forall okName names -> length vars = length names ->
  saveLines h fuel names vars "" = (Ok tt, out) -> slen out < npos -> slen out <= limit ->
  objects s !! o = Some ob -> length (variables ob) = length names -> heap_wf (hp s) ->
  exists s' ob', restoreLines limit fuel names o (getlines out) s = (Ok tt, s') /\
    objects s' !! o = Some ob' /\ heap_le (hp s) (hp s') /\ Forall2 (copied saveLeaf h fuel (hp s')) vars (variables ob').
Proof.
  intros Hu Hnd Hok Hl E Hn Hlim Ho Hv W.
  destruct (saveLines_lines h limit fuel names vars "" out Hl Hok Hu E) as (ts & Eo & Hq & F).
  rewrite sapp_nil_l in Eo. rewrite Eo, getlines_unlines by done. rewrite Eo in Hn, Hlim.
  destruct (restoreLines_saved h limit fuel o names [] names vars ts [] (variables ob) s ob) as (s' & ob' & zs & R & Ho' & Hv' & L & K);
    try done.
  { apply list.Forall_forall. intros l Hin%unlines_bound. lia. }
  exists s', ob'. rewrite Hv'. done.
Qed.

(** ** restore_object after save_object *)

(** A file that was opened for writing takes what is written, and has it then. *)
Definition writes_back `{FileSystem} : Prop :=
  forall path t d d', writeFile path t d = Some d' ->
    d' !! path = Some (RegularFile t) /\ forall t', is_Some (writeFile path t' d').

Section SaveObject.
Context `{FileSystem} (ops : VMOps).

Definition varNames (s : VMState) (o : oid) : list string := objectVarNames (prog (programStore s) (programOf s o)).
Definition savePath (s : VMState) (p : string) : string := c_str (resolveMudlibPath (config s) p).

(** [save_object] by [o], whose variables are [vars] when the gate has let it
    through in the state [sg], to the path [p]. *)
Record saving (file p : string) (o : oid) (vars : list Value) (s sg s1 : VMState) : Prop := {
  sv_object : currentObject s = Some o;
  sv_gate : checkValidPath (op_run ops) (op_ticks ops) (normalizeSavePath file) true "save_object" s = (Ok (Some p), sg);
  sv_vars : getOb sg variables [] o = vars;
  sv_holdable : Forall (holdable (hp sg) (op_fuel ops)) vars;
  sv_unique : NoDup (varNames sg o);
  sv_names : Forall okName (varNames sg o);
  sv_length : length vars = length (varNames sg o);
  sv_saved : save_object ops [V (Str file)] s = (Ok (VInt 1), s1)
}.

(** What a successful [save_object] leaves on the disk. *)
Lemma saving_disk file p o vars s sg s1 :
  writes_back -> saving file p o vars s sg s1 ->
  exists out, saveLines (hp sg) (op_fuel ops) (varNames sg o) vars "" = (Ok tt, out) /\
    disk (om s1) !! savePath sg p = Some (RegularFile out).
Proof.
  intros Hw []. unfold save_object in sv_saved0. cbn [argStr lookup list_lookup data V] in sv_saved0.
  rewrite (mbind_run _ _ _ _ _ (eq_refl : mgets currentObject s = (Ok _, s))), sv_object0 in sv_saved0.
  unfold gated in sv_saved0. erewrite mbind_run in sv_saved0 by exact sv_gate0.
  unfold mbind at 1, resolve, mgets in sv_saved0. fold (savePath sg p) in sv_saved0.
  unfold mbind at 1, onDisk in sv_saved0.
  destruct (writeFile (savePath sg p) "" (disk (om sg))) as [d|] eqn:Ed; [|done]. cbn [negb] in sv_saved0.
  unfold mbind at 1 in sv_saved0.
  change (getOb (modOm _ sg) variables [] o) with (getOb sg variables [] o) in sv_saved0. rewrite sv_vars0 in sv_saved0.
  change (saveLines _ _ _ vars "") with (saveLines (hp sg) (op_fuel ops) (varNames sg o) vars "") in sv_saved0.
  destruct (saveLines _ _ _ vars "") as [r out]. cbn [fst snd] in sv_saved0. unfold mbind at 1 in sv_saved0.
  match type of sv_saved0 with context [match writeFile ?a ?b ?c with _ => _ end] =>
    destruct (writeFile a b c) as [d'|] eqn:Ew end; cbn in Ew.
  - unfold mbind, mlift in sv_saved0. destruct r as [[]| | |]; try done. exists out. split; [done|].
    injection sv_saved0 as <-. cbn. by apply Hw in Ew as [Ew _].
  - exfalso. destruct (Hw _ _ _ _ Ed) as [_ Hok]. destruct (Hok out) as [x Hx]. by rewrite Ew in Hx.
Qed.

End SaveObject.

(** ** Witnesses and counterexamples *)
Definition plainOps : VMOps := mkOps (fun _ _ _ _ => mret Void) 100 (fun _ => 0).

(** The heap holds the mapping ["k" : 7] at 1 and an array of it, a string with
    a quote and a line break, and -2.5 at 2. *)
Definition exampleFloat : double := S754_finite true 5629499534213120 (-51).
Definition exampleHeap : heap :=
  let '(p, h) := newMapping (emptyMapping <| entries := [(V (Str "k"), VInt 7)] |>) emptyHeap in
  snd (newArray [V (Map (Some p)); V (Str ("a" +:+ str1 DQUOTE +:+ str1 NL)); V (Dbl exampleFloat)] h).
Definition saverVM : VMState :=
  (newVM (configFor "fluffos" 1000)
     {[ 1%positive := (newObject "/bob" 1 emptyProgram true 0) <| variables := [VInt 0; VInt 0] |> ]} ∅)
  <| hp := exampleHeap |>.
Definition exampleValue : Value := V (Arr (Some 2%positive)).

Lemma exampleHeap_wf : heap_wf exampleHeap.
Proof. apply (newArray_wf _ (snd (newMapping _ _))), newMapping_wf, heap_wf_empty. Defined.

Definition exampleText : string :=
  match fst (save_variable plainOps [exampleValue] saverVM) with
  | Ok v => match data v with Str t => t | _ => "" end
  | _ => ""
  end.

Lemma exampleFloat_read : Dbl.stod (Dbl.printf_f exampleFloat) = inl exampleFloat.
Proof. vm_compute. reflexivity. Qed.
Lemma exampleFloat_length : Nat.leb (String.length (Dbl.printf_f exampleFloat)) 63 = true.
Proof. vm_compute. reflexivity. Qed.
Lemma savable_float h n : savable h (S n) (V (Dbl exampleFloat)).
Proof. exact (conj eq_refl (conj eq_refl (conj (proj1 (Nat.leb_le _ _) exampleFloat_length) exampleFloat_read))). Qed.
Lemma savable_text h n t : noCr t = true -> savable h (S n) (V (Str t)).
Proof. by split. Qed.
Lemma savable_array h n p l : items h p = l -> Forall (savable h n) l -> savable h (S n) (V (Arr (Some p))).
Proof. intros <- F. by split. Qed.
Lemma savable_mapping h n p es :
  one_column (mapping h p) -> entries (mapping h p) = es ->
  Forall (fun e => savable h n (fst e) /\ savable h n (snd e)) es -> savable h (S n) (V (Map (Some p))).
Proof. intros O <- F. by split. Qed.
Lemma savable_int h n i : in_int64 i = true -> savable h (S n) (VInt i).
Proof. by split. Qed.

Lemma exampleValue_savable : savable exampleHeap 100 exampleValue.
Proof.
  eapply savable_array; [vm_compute; reflexivity|]. constructor; [|constructor; [|constructor; [|constructor]]].
  - eapply savable_mapping; [split; vm_compute; reflexivity|vm_compute; reflexivity|].
    constructor; [|constructor]. split; [apply savable_text|apply savable_int]; reflexivity.
  - apply savable_text. reflexivity.
  - apply savable_float.
Qed.

Lemma restore_save_variable_witness :
  exists v' s', restore_variable plainOps [V (Str exampleText)] saverVM = (Ok v', s') /\
    copied textLeaf exampleHeap 100 (hp s') exampleValue v'.
Proof.
  destruct (restore_save_variable plainOps exampleValue saverVM exampleText exampleValue_savable exampleHeap_wf)
    as (v' & s' & R & _ & _ & F); [vm_compute; reflexivity|vm_compute; lia|].
  exists v', s'. split; [exact R|exact F].
Defined.

Lemma restore_variable_loops_witness :
  fst (restore_variable plainOps [V (Str "({x})")] saverVM) = OutOfFuel.
Proof. apply (restore_variable_loops plainOps "})" saverVM "x"); vm_compute; congruence. Defined.

(** An array of an infinite number is saved as such a text. *)
Example infinite_saved :
  let s := saverVM <| hp := snd (newArray [V (Dbl (S754_infinity false))] emptyHeap) |> in
  fst (save_variable plainOps [V (Arr (Some 1%positive))] s) = Ok (V (Str "({inf,})")).
Proof. vm_compute. reflexivity. Qed.

(** A large number is cut to the size of the buffer: the text has no point any
    more, and reading it back overflows [std::stoll]. *)
Example huge_saved :
  let text := "172543658669764094685868896556925636311277724304259663879063105" in
  fst (save_variable plainOps [V (Dbl (Dbl.of_scaled 1 230))] saverVM) = Ok (V (Str text)) /\
  forall v, fst (restore_variable plainOps [V (Str text)] saverVM) <> Ok v.
Proof. vm_compute. split; [reflexivity|discriminate]. Qed.

Definition restored_vars (names : list string) (text : string) : outcome exn unit * list Value :=
  let '(r, s) := restoreLines 1000 4 names 1%positive (getlines text) saverVM in (r, getOb s variables [] 1%positive).
Definition saved_text (names : list string) (vars : list Value) : string :=
  snd (saveLines exampleHeap 4 names vars "").

(** Bob (2), whose program has two variables, in a mudlib with a master (1). *)
Definition bobProgram : CompiledProgram := emptyProgram <| objectVarNames := ["name"; "bag"] |>.
Definition bobVM : VMState :=
  (newVM ((configFor "fluffos" 1000) <| mudlibRoot := "/srv/lib" |>)
    {[ 1%positive := newObject "/master" 1 emptyProgram false 0;
       2%positive := (newObject "/bob" 2 bobProgram true 0) <| variables := [V (Str "bob"); V (Map (Some 1%positive))] |> ]}
    {[ 1%positive := emptyProgram; 2%positive := bobProgram ]})
  <| masterOb := Some 1%positive |> <| callStack := [Some 2%positive] |> <| hp := exampleHeap |>.

Lemma holdable_text h n t : no_nl t -> holdable h (S n) (V (Str t)).
Proof. by split. Qed.
Lemma holdable_int h n i : in_int64 i = true -> holdable h (S n) (VInt i).
Proof. by split. Qed.
Lemma holdable_mapping h n p es :
  one_column (mapping h p) -> entries (mapping h p) = es ->
  Forall (fun e => holdable h n (fst e) /\ holdable h n (snd e)) es -> holdable h (S n) (V (Map (Some p))).
Proof. intros O <- F. by split. Qed.
Lemma bobVars_holdable : Forall (holdable exampleHeap (op_fuel plainOps)) [V (Str "bob"); V (Map (Some 1%positive))].
Proof.
  constructor; [by apply holdable_text|]. constructor; [|constructor].
  eapply holdable_mapping; [split; vm_compute; reflexivity|vm_compute; reflexivity|].
  constructor; [|constructor]. split; [by apply holdable_text|by apply holdable_int].
Qed.

Lemma exampleFs_writes_back : writes_back (H := exampleFs).
Proof.
  intros path t d d'. cbn [writeFile exampleFs]. intros E.
  assert (d' = <[path := RegularFile t]> d) as -> by (destruct (d !! path) as [[]|]; congruence).
  rewrite lookup_insert_eq. split; [done|]. intros t'. by eexists.
Defined.


(** A line break in a string ends the line: the string is cut, and what
    follows it is read as another variable. *)
Example save_injects :
  let text := saved_text ["title"; "level"] [V (Str ("Sir" +:+ str1 NL +:+ "level" +:+ str1 TAB +:+ "I99;")); VInt 1] in
  restored_vars ["title"; "level"] text = (Ok tt, [V (Str "Sir"); VInt 1]) /\
  restored_vars ["level"; "title"] (saved_text ["level"; "title"] [VInt 1; V (Str ("Sir" +:+ str1 NL +:+ "level" +:+ str1 TAB +:+ "I99;"))])
  = (Ok tt, [VInt 99; V (Str "Sir")]).
Proof. split; vm_compute; reflexivity. Qed.

(** A carriage return comes back as a line break. *)
Example carriage_return :
  fst (save_variable plainOps [V (Str (str1 CR))] saverVM) = Ok (V (Str (str1 DQUOTE +:+ str1 CR +:+ str1 DQUOTE))) /\
  fst (restore_variable plainOps [V (Str (str1 DQUOTE +:+ str1 CR +:+ str1 DQUOTE))] saverVM) = Ok (V (Str (str1 NL))).
Proof. split; vm_compute; reflexivity. Qed.

(** [save_object] refuses a mapping of two columns, [save_variable] keeps the
    first and forgets the other. *)
Example wide_mapping :
  let m := emptyMapping <| entries := [(VInt 1, VInt 2)] |> <| width := 2 |> <| extraColumns := [[VInt 3]] |> in
  let s := saverVM <| hp := snd (newMapping m emptyHeap) |> in
  fst (save_variable plainOps [V (Map (Some 1%positive))] s) = Ok (V (Str "([1:2,])")) /\
  exists msg, fst (serializeValue (hp s) 5 (V (Map (Some 1%positive))) "") = Throw (LpcRuntimeError msg).
Proof. split; [vm_compute; reflexivity|]. eexists. vm_compute. reflexivity. Qed.
