(* ===== verification/Efuns.v ===== *)
(** * Efuns: strings, bit fields, containers and variables

    Efuns of src/efun/EfunTable.cpp that compute on their arguments, on the heap
    or on the variables of the calling object: [explode], [explode_reversible],
    [implode], the case and trim functions, [replace_string], [strsrch],
    [string_difference], the bit fields, [keys], [values], [m_indices],
    [m_values], [map_delete], [copy], [sizeof], [member_array], [map], [filter],
    [unique_array], [fetch_variable] and [store_variable].

    A position in a string is a [nat]; a loop that moves a position forward
    works on what is left of the string. *)
From S2P Require Import Prelude CLib Double Value Bytecode Lookup Machine Calls Preprocess ObjectManager Paths Files.
Local Open Scope Z_scope.

Definition badArgs {A} (msg : string) : outcome exn A := Throw (LpcRuntimeError msg).

(** [substr(start)] of the pieces between separators, left to right; [fuel] is
    more than the length of the string, and the separator is not empty. *)
Fixpoint splitAll (fuel : nat) (sep s : string) : list string :=
  match fuel with
  | O => []
  | S f =>
      match find_str sep s with
      | None => [s]
      | Some pos => stake pos s :: splitAll f sep (sdrop (pos + String.length sep) s)
      end
  end.

Definition strFuel (s : string) : nat := S (String.length s).

(** ** explode and implode *)

(** The leading separators are skipped; [None] when nothing else is there. *)
Fixpoint skipSeparators (fuel : nat) (sep s : string) : option string :=
  match fuel with
  | O => None
  | S f =>
      if sprefix sep s then
        let s' := sdrop (String.length sep) s in
        if String.eqb s' "" then None else skipSeparators f sep s'
      else Some s
  end.

(** The pieces; a last one that is empty is left out. *)
Fixpoint explodePieces (fuel : nat) (sep s : string) : list string :=
  match fuel with
  | O => []
  | S f =>
      match find_str sep s with
      | None => if String.eqb s "" then [] else [s]
      | Some pos => stake pos s :: explodePieces f sep (sdrop (pos + String.length sep) s)
      end
  end.

Definition explodeStrings (str sep : string) : list string :=
  if String.eqb sep "" then [str] else
  match skipSeparators (strFuel str) sep str with
  | None => []
  | Some s => explodePieces (strFuel s) sep s
  end.

Definition strings (l : list string) : list Value := map (fun s => V (Str s)) l.

Definition allocH {A} (alloc : heap -> loc * heap) (k : loc -> A) : VM A := fun s =>
  let '(p, h) := alloc (hp s) in (Ok (k p), s <| hp := h |>).
Definition arrayOf (xs : list Value) : VM Value := allocH (newArray xs) (fun p => V (Arr (Some p))).

Definition explode (args : list Value) : VM Value :=
  match argStr 0 args, argStr 1 args with
  | Some str, Some sep => arrayOf (strings (explodeStrings str sep))
  | _, _ => throwRuntime "explode: expected (string, string) arguments"
  end.

Definition explode_reversible (args : list Value) : VM Value :=
  match argStr 0 args, argStr 1 args with
  | Some str, Some sep =>
      if String.eqb sep "" then throwRuntime "explode_reversible: delimiter must be non-empty"
      else arrayOf (strings (splitAll (strFuel str) sep str))
  | _, _ => throwRuntime "explode_reversible: expected (string, string) arguments"
  end.

(** The strings of a list, joined; what is not a string is skipped. *)
Fixpoint implodeStrings (sep : string) (any : bool) (l : list Value) : string :=
  match l with
  | [] => ""
  | v :: l' =>
      match data v with
      | Str s => (if any then sep else "") +:+ s +:+ implodeStrings sep true l'
      | _ => implodeStrings sep any l'
      end
  end.

Section Callbacks.
Context `{EfunTable} (ops : VMOps).

Definition closureCall (c : option loc) (args : list Value) : VM Value :=
  callClosure (op_run ops) ops (op_fuel ops) c args.

Definition itemsOf (a : option loc) : VM (list Value) :=
  mgets (fun s => match a with Some p => items (hp s) p | None => [] end).

(** [acc = f(acc, arr->items[i])] for [i] from [from] on; the element is read
    when its turn comes. *)
Fixpoint foldItems (n : nat) (i : nat) (a : option loc) (c : option loc) (acc : Value) : VM Value :=
  match n with
  | O => mret acc
  | S n' =>
      its <- itemsOf a ;;
      match c with
      | None => mret (VInt 0)
      | Some _ =>
          acc' <- closureCall c [acc; nthV i its] ;;
          foldItems n' (S i) a c acc'
      end
  end.

Definition implode (args : list Value) : VM Value :=
  let err := throwRuntime "implode: expected (array, string | function[, start]) arguments" in
  if (length args <? 2)%nat || (3 <? length args)%nat then err else
  match data (nthV 0 args) with
  | Arr a =>
      its <- itemsOf a ;;
      match data (nthV 1 args) with
      | Str sep =>
          if (length args =? 3)%nat
          then throwRuntime "implode: third argument is illegal with implode(array, string)"
          else mret (V (Str (implodeStrings sep false its)))
      | Fun c =>
          let n := length its in
          if (length args =? 3)%nat then foldItems n 0 a c (nthV 2 args)
          else match its with
               | [] => mret (VInt 0)
               | x :: _ => foldItems (n - 1) 1 a c x
               end
      | _ => throwRuntime "implode: second argument must be a string or a function"
      end
  | _ => err
  end.

(** ** map and filter

    A closure, or a function of an object; [extra] follows the element. *)
Definition callback (who : string) (args : list Value) : outcome exn (option (list Value -> VM Value)) :=
  match data (nthV 1 args) with
  | Fun None => Ok None
  | Fun c => Ok (Some (fun vs => closureCall c (vs ++ drop 2 args)))
  | Str f =>
      match args !! 2%nat with
      | Some v =>
          match data v with
          | Obj o => Ok (Some (fun vs => callFunction (op_run ops) (op_ticks ops) o f (vs ++ drop 3 args) Efun))
          | _ => badArgs (who +:+ ": string function name requires an object third argument")
          end
      | None => badArgs (who +:+ ": string function name requires an object third argument")
      end
  | _ => badArgs (who +:+ ": expected a string or function second argument")
  end.

Fixpoint mapItems (n i : nat) (a : option loc) (f : list Value -> VM Value) : VM (list Value) :=
  match n with
  | O => mret []
  | S n' =>
      its <- itemsOf a ;;
      y <- f [nthV i its] ;;
      ys <- mapItems n' (S i) a f ;;
      mret (y :: ys)
  end.

(** The element that is kept is read again after the call. *)
Fixpoint filterItems (n i : nat) (a : option loc) (f : list Value -> VM Value) : VM (list Value) :=
  match n with
  | O => mret []
  | S n' =>
      its <- itemsOf a ;;
      b <- f [nthV i its] ;;
      its' <- itemsOf a ;;
      ys <- filterItems n' (S i) a f ;;
      mret (if isTruthy b then nthV i its' :: ys else ys)
  end.

Definition overArray (who : string) (loop : nat -> nat -> option loc -> (list Value -> VM Value) -> VM (list Value))
    (args : list Value) : VM Value :=
  let err := throwRuntime (who +:+ ": expected an array first argument") in
  if (length args <? 2)%nat then err else
  match data (nthV 0 args) with
  | Arr None => arrayOf []
  | Arr a =>
      f <- mlift (callback who args) ;;
      match f with
      | None => arrayOf []
      | Some f =>
          its <- itemsOf a ;;
          ys <- loop (length its) 0%nat a f ;;
          arrayOf ys
      end
  | _ => err
  end.
Definition mapArrayImpl : list Value -> VM Value := overArray "map_array" mapItems.
Definition filterArrayImpl : list Value -> VM Value := overArray "filter_array" filterItems.
End Callbacks.

(** ** unique_array

    The groups in the order of their first element; [keys] holds the
    classification of each. *)
Fixpoint findGroup (key : Value) (keys : list Value) : nat :=
  match keys with
  | [] => O
  | k :: ks => if valuesEqual k key then O else S (findGroup key ks)
  end.

Definition addToGroup (key item : Value) (keys : list Value) (groups : list (list Value))
    : list Value * list (list Value) :=
  let i := findGroup key keys in
  if (i <? length keys)%nat then (keys, alter (fun g => g ++ [item]) i groups)
  else (keys ++ [key], groups ++ [[item]]).

Section Unique.
Context `{EfunTable} (ops : VMOps).

(** The classification of an element; [None] leaves it out. *)
Definition classify (classifier item : Value) : VM (option Value) :=
  match data classifier with
  | Fun None => mret None
  | Fun c => k <- closureCall ops c [item] ;; mret (Some k)
  | Str f =>
      match data item with
      | Obj (Some o) => k <- callFunction (op_run ops) (op_ticks ops) (Some o) f [] Efun ;; mret (Some k)
      | _ => mret None
      end
  | _ => mret None
  end.

Fixpoint groupItems (n i : nat) (a : option loc) (classifier skip : Value) (keys : list Value)
    (groups : list (list Value)) : VM (list (list Value)) :=
  match n with
  | O => mret groups
  | S n' =>
      its <- itemsOf a ;;
      key <- classify classifier (nthV i its) ;;
      its' <- itemsOf a ;;
      match key with
      | Some k =>
          if valuesEqual k skip then groupItems n' (S i) a classifier skip keys groups
          else
            let '(keys', groups') := addToGroup k (nthV i its') keys groups in
            groupItems n' (S i) a classifier skip keys' groups'
      | None => groupItems n' (S i) a classifier skip keys groups
      end
  end.

Fixpoint arraysOf (groups : list (list Value)) : VM (list Value) :=
  match groups with
  | [] => mret []
  | g :: gs => v <- arrayOf g ;; vs <- arraysOf gs ;; mret (v :: vs)
  end.

Definition unique_array (args : list Value) : VM Value :=
  let err := throwRuntime "unique_array: expected an array first argument" in
  if (length args <? 2)%nat then err else
  match data (nthV 0 args) with
  | Arr a =>
      let skip := default (VInt 0) (args !! 2%nat) in
      its <- itemsOf a ;;
      if (length its =? 0)%nat then arrayOf [] else
      match data (nthV 1 args) with
      | Fun _ | Str _ =>
          groups <- groupItems (length its) 0 a (nthV 1 args) skip [] [] ;;
          vs <- arraysOf groups ;;
          arrayOf vs
      | _ => throwRuntime "unique_array: expected a string or function second argument"
      end
  | _ => err
  end.
End Unique.

(** ** Case *)
Fixpoint smap (f : ascii -> ascii) (s : string) : string :=
  match s with EmptyString => EmptyString | String c r => String (f c) (smap f r) end.

Definition toupper (c : ascii) : ascii := if islower c then chr (ord c - 32) else c.

Definition onString (who : string) (f : string -> string) (args : list Value) : outcome exn Value :=
  match argStr 0 args with
  | Some s => Ok (V (Str (f s)))
  | None => badArgs (who +:+ ": expected a string argument")
  end.

Definition capitalize : list Value -> outcome exn Value :=
  onString "capitalize" (fun s => match s with String c r => String (toupper c) r | EmptyString => "" end).
Definition lower_case : list Value -> outcome exn Value := onString "lower_case" (smap tolower).
Definition upper_case : list Value -> outcome exn Value := onString "upper_case" (smap toupper).

(** ** trim *)
Fixpoint trimStart (p : ascii -> bool) (s : string) : string :=
  match s with
  | String c r => if p c then trimStart p r else s
  | EmptyString => ""
  end.
(** From the end, a byte at a time. *)
Fixpoint trimEnd (p : ascii -> bool) (s : string) : string :=
  match s with
  | EmptyString => ""
  | String c r =>
      match trimEnd p r with
      | EmptyString => if p c then "" else str1 c
      | t => String c t
      end
  end.

Definition stripSet (s charset : string) (fromStart fromEnd : bool) : string :=
  let p c := contains c charset in
  let s := if fromStart then trimStart p s else s in
  if fromEnd then trimEnd p s else s.

(** Tab, newline, vertical tab, form feed, carriage return, space. *)
Definition whitespace : string :=
  String TAB (String NL (String "011" (String "012" (String CR " ")))).

Definition trimWith (fromStart fromEnd : bool) (args : list Value) : outcome exn Value :=
  match argStr 0 args with
  | None => badArgs "trim: expected a string argument"
  | Some str =>
      let charset := default "" (argStr 1 args) in
      Ok (V (Str (stripSet str (if String.eqb charset "" then whitespace else charset) fromStart fromEnd)))
  end.
Definition trim : list Value -> outcome exn Value := trimWith true true.
Definition ltrim : list Value -> outcome exn Value := trimWith true false.
Definition rtrim : list Value -> outcome exn Value := trimWith false true.

(** ** replace_string

    [cur] counts the occurrences so far; the [last]-th is the last one looked
    at, unless [last] is 0. *)
Fixpoint replaceFrom (fuel : nat) (pattern replacement : string) (first last cur : Z) (s : string) : string :=
  match fuel with
  | O => ""
  | S f =>
      match find_str pattern s with
      | None => s
      | Some pos =>
          let cur := cur + 1 in
          let rest := sdrop (pos + String.length pattern) s in
          stake pos s +:+
          (if (first <=? cur) && ((last =? 0) || (cur <=? last)) then replacement else pattern) +:+
          (if negb (last =? 0) && (cur =? last) then rest
           else replaceFrom f pattern replacement first last cur rest)
      end
  end.

Definition replaceRange (str pattern replacement : string) (first last : Z) : string :=
  if negb (last =? 0) && (last <? first) then str
  else if String.eqb pattern "" then str
  else replaceFrom (strFuel str) pattern replacement first last 0 str.

Definition replace_string (args : list Value) : outcome exn Value :=
  let err := badArgs "replace_string: expected (string str, string pattern, string replacement [, int first [, int last]])" in
  if (length args <? 3)%nat || (5 <? length args)%nat then err else
  match argStr 0 args, argStr 1 args, argStr 2 args with
  | Some str, Some pattern, Some replacement =>
      let! range :=
        (if (length args =? 3)%nat then Ok (0, 0) else
         match argInt 3 args with
         | None => badArgs "Bad argument 4 to replace_string() (expected int)"
         | Some n =>
             if (length args =? 4)%nat then Ok (0, n) else
             match argInt 4 args with
             | None => badArgs "Bad argument 5 to replace_string() (expected int)"
             | Some m => Ok (n, m)
             end
         end) in
      Ok (V (Str (replaceRange str pattern replacement (fst range) (snd range))))
  | _, _, _ => err
  end.

(** ** strsrch *)

(** [rfind]: the last place where the pattern begins. *)
Fixpoint rfind_str (pat s : string) : option nat :=
  match s with
  | EmptyString => if sprefix pat s then Some O else None
  | String _ r =>
      match rfind_str pat r with
      | Some n => Some (S n)
      | None => if sprefix pat s then Some O else None
      end
  end.

Definition strsrch (args : list Value) : outcome exn Value :=
  let err := badArgs "strsrch: expected (string str, string|int pat, int flag)" in
  if (length args <? 2)%nat || (3 <? length args)%nat then err else
  match argStr 0 args with
  | None => err
  | Some str =>
      let big := c_str str in
      let! needle :=
        match data (nthV 1 args) with
        | Str s => Ok (c_str s)
        | Int n => Ok (let c := chr (Z.land n 255) in if Ascii.eqb c NUL then "" else str1 c)
        | _ => badArgs "strsrch: second argument must be a string or an int char code"
        end in
      let! fromRight :=
        if (length args =? 3)%nat then
          match argInt 2 args with
          | Some n => Ok (negb (n =? 0))
          | None => badArgs "strsrch: third argument (direction flag) must be an int"
          end
        else Ok false in
      if String.eqb needle "" || (String.length big <? String.length needle)%nat then Ok (VInt (-1))
      else Ok (VInt (match (if fromRight : bool then rfind_str needle big else find_str needle big) with
                     | Some pos => Z.of_nat pos
                     | None => -1
                     end))
  end.

(** ** string_difference: one row of edit costs

    [row] is the row before, [left] the cost to the left in the new one and
    [diag] the cost above it. *)
Fixpoint nextRow (c : ascii) (y : string) (row : list nat) (left diag : nat) : list nat :=
  match y, row with
  | String d y', up :: row' =>
      let sub := (diag + if Ascii.eqb c d then 0 else 1)%nat in
      let cell := Nat.min (Nat.min (left + 1) (up + 1)) sub in
      cell :: nextRow c y' row' cell up
  | _, _ => []
  end.

(** [row[0]] is [i]; the row after byte [i] of [x]. *)
Fixpoint editRows (i : nat) (x y : string) (row : list nat) : list nat :=
  match x with
  | EmptyString => row
  | String c x' =>
      editRows (S i) x' y (S i :: nextRow c y (tail row) (S i) (hd O row))
  end.

Definition levenshtein (a b : string) : nat :=
  if String.eqb a b then O else
  let x := if (String.length a <=? String.length b)%nat then a else b in
  let y := if (String.length a <=? String.length b)%nat then b else a in
  List.last (editRows 0 x y (seq 0 (S (String.length y)))) O.

Definition string_difference (args : list Value) : outcome exn Value :=
  match argStr 0 args, argStr 1 args with
  | Some a, Some b => Ok (VInt (Z.of_nat (levenshtein (c_str a) (c_str b))))
  | _, _ => badArgs "string_difference: expected (string, string)"
  end.

(** ** Bit fields: six bits to a byte, from a space on *)
Definition kMaxBits : Z := 1000000.
Definition byteAt (s : string) (i : nat) : Z := ord (char_at s i).

Fixpoint setByte (i : nat) (c : ascii) (s : string) : string :=
  match s, i with
  | String _ r, O => String c r
  | String d r, S i' => String d (setByte i' c r)
  | EmptyString, _ => ""
  end.

(** [resize(n, ' ')] to a larger size. *)
Fixpoint spaces (n : nat) : string := match n with O => "" | S n' => String " " (spaces n') end.
Definition growTo (n : nat) (s : string) : string := s +:+ spaces (n - String.length s).

Definition legalBits (ch : Z) : bool := (32 <=? ch) && (ch <=? 95).

Definition bitArgs (who : string) (args : list Value) (k : string -> Z -> outcome exn Value) : outcome exn Value :=
  match argStr 0 args, argInt 1 args with
  | Some s, Some n => k s n
  | _, _ => badArgs (who +:+ ": expected (string, int) arguments")
  end.

Definition setBit (str : string) (bitNum : Z) : outcome exn string :=
  if kMaxBits <? bitNum then badArgs "set_bit() bit requested exceeds maximum bits"
  else if bitNum <? 0 then badArgs "Bad argument 2 (negative) to set_bit()."
  else
  let ind := Z.to_nat (bitNum / 6) in
  let bit := bitNum mod 6 in
  let str := if (String.length str <=? ind)%nat then growTo (ind + 1) str else str in
  let ch := byteAt str ind in
  if negb (legalBits ch) then badArgs ("Illegal bit pattern in set_bit character " +:+ to_string (Z.of_nat ind))
  else Ok (setByte ind (chr (Z.lor (ch - 32) (Z.shiftl 1 bit) + 32)) str).

Definition clearBit (str : string) (bitNum : Z) : outcome exn string :=
  if kMaxBits <? bitNum then badArgs "clear_bit() bit requested exceeds maximum bits"
  else if bitNum <? 0 then badArgs "Bad argument 2 (negative) to clear_bit()."
  else
  let ind := Z.to_nat (bitNum / 6) in
  let bit := bitNum mod 6 in
  if (String.length str <=? ind)%nat then Ok str else
  let ch := byteAt str ind in
  if negb (legalBits ch) then badArgs ("Illegal bit pattern in clear_bit character " +:+ to_string (Z.of_nat ind))
  else Ok (setByte ind (chr (Z.land (ch - 32) (Z.lnot (Z.shiftl 1 bit)) + 32)) str).

(** The test of one bit of a byte. *)
Definition bitOf (ch bit : Z) : bool := negb (Z.land (ch - 32) (Z.shiftl 1 bit) =? 0).

Definition testBit (str : string) (bitNum : Z) : outcome exn bool :=
  if Z.of_nat (String.length str) <=? Z.quot bitNum 6 then Ok false
  else if bitNum <? 0 then badArgs "Bad argument 2 (negative) to test_bit()."
  else Ok (bitOf (byteAt str (Z.to_nat (bitNum / 6))) (bitNum mod 6)).

(** The first set bit from [bit] on, of the [n] that are left. *)
Fixpoint scanBits (n : nat) (str : string) (bit : Z) : Z :=
  match n with
  | O => -1
  | S n' =>
      if bitOf (byteAt str (Z.to_nat (bit / 6))) (bit mod 6) then bit else scanBits n' str (bit + 1)
  end.

Definition nextBit (str : string) (start : Z) : Z :=
  let len := Z.of_nat (String.length str) in
  if (len =? 0) || (len <=? Z.quot start 6) then -1
  else
    let begin := if 0 <? start then start + 1 else 0 in
    scanBits (Z.to_nat (len * 6 - begin)) str begin.

Definition set_bit (args : list Value) : outcome exn Value :=
  bitArgs "set_bit" args (fun s n => let! t := setBit s n in Ok (V (Str t))).
Definition clear_bit (args : list Value) : outcome exn Value :=
  bitArgs "clear_bit" args (fun s n => let! t := clearBit s n in Ok (V (Str t))).
Definition test_bit (args : list Value) : outcome exn Value :=
  bitArgs "test_bit" args (fun s n => let! b := testBit s n in Ok (VBool b)).
Definition next_bit (args : list Value) : outcome exn Value :=
  bitArgs "next_bit" args (fun s n => Ok (VInt (nextBit s n))).

(** ** Mappings *)
Definition argMap (args : list Value) : option (option loc) :=
  match args with v :: _ => match data v with Map l => Some l | _ => None end | [] => None end.
Definition mappingAt (l : option loc) : VM Mapping :=
  mgets (fun s => match l with Some p => mapping (hp s) p | None => emptyMapping end).

Definition keysImpl (who : string) (args : list Value) : VM Value :=
  match argMap args with
  | None => throwRuntime (who +:+ ": expected a mapping argument")
  | Some l => m <- mappingAt l ;; arrayOf (map fst (entries m))
  end.
Definition keys : list Value -> VM Value := keysImpl "keys".
Definition m_indices : list Value -> VM Value := keysImpl "m_indices".

Definition values (args : list Value) : VM Value :=
  match argMap args with
  | None => throwRuntime "values: expected a mapping argument"
  | Some l => m <- mappingAt l ;; arrayOf (map snd (entries m))
  end.

Definition m_values (args : list Value) : VM Value :=
  match argMap args with
  | None => throwRuntime "m_values: expected a mapping argument"
  | Some l =>
      match args !! 1%nat, argInt 1 args with
      | Some _, None => throwRuntime "m_values: width column argument must be an int"
      | _, c =>
          let col := default 0 c in
          m <- mappingAt l ;;
          if (col <? 0) || (width m <=? col) then
            throwRuntime ("Illegal index " +:+ to_string col +:+ " to m_values(): should be in 0.."
                          +:+ to_string (width m - 1) +:+ ".")
          else arrayOf (map (fun i => getColumn m i col) (seq 0 (length (entries m))))
      end
  end.

(** The loop of [map_delete]: an index does not move on when its entry goes. *)
Fixpoint eraseKey (n i : nat) (key : Value) (m : Mapping) : Mapping :=
  match n with
  | O => m
  | S n' =>
      match entries m !! i with
      | Some (k, _) => if valuesEqual k key then eraseKey n' i key (eraseAt m i) else eraseKey n' (S i) key m
      | None => m
      end
  end.

Definition map_delete (args : list Value) : VM Value :=
  match argMap args with
  | None => throwRuntime "map_delete: expected a mapping argument"
  | Some l =>
      match args !! 1%nat with
      | None => throwRuntime "map_delete: expected a key argument"
      | Some key =>
          match l with
          | None => mret Void
          | Some p =>
              mmodify (fun s => s <| hp ::= fun h => h <| mappings ::=
                alter (fun m => eraseKey (length (entries m)) 0 key m) p |> |>) ;;
              mret Void
          end
      end
  end.

(** ** copy, sizeof, member_array *)
Definition newBuffer (b : list Z) (h : heap) : loc * heap :=
  (nextLoc h, h <| buffers ::= <[nextLoc h := b]> |> <| nextLoc := Pos.succ (nextLoc h) |>).
Definition buffer (h : heap) (l : option loc) : list Z :=
  match l with Some p => default [] (buffers h !! p) | None => [] end.

Definition copy (args : list Value) : VM Value :=
  match args with
  | [] => mret Void
  | v :: _ =>
      match data v with
      | Arr a => its <- itemsOf a ;; arrayOf its
      | Map l =>
          m <- mappingAt l ;;
          allocH (newMapping m) (fun p => V (Map (Some p)))
      | Buf b =>
          bs <- mgets (fun s => buffer (hp s) b) ;;
          allocH (newBuffer bs) (fun p => V (Buf (Some p)))
      | _ => mret v
      end
  end.

Definition sizeofImpl (args : list Value) : VM Value :=
  match args with
  | [] => mret (VInt 0)
  | v :: _ => mgets (fun s => VInt
      match data v with
      | Arr (Some p) => Z.of_nat (length (items (hp s) p))
      | Map (Some p) => Z.of_nat (length (entries (mapping (hp s) p)))
      | Str t => Z.of_nat (String.length t)
      | Buf b => Z.of_nat (length (buffer (hp s) b))
      | _ => 0
      end)
  end.

(** The first index from [start] on that [p] holds at, or -1. *)
Definition firstIndex {A} (p : A -> bool) (start : Z) (l : list A) : Z :=
  match list_find (fun x => p x = true) (drop (Z.to_nat start) l) with
  | Some (i, _) => start + Z.of_nat i
  | None => -1
  end.

Definition member_array (args : list Value) : VM Value :=
  match args with
  | needle :: hay :: _ =>
      let start := default 0 (argInt 2 args) in
      if start <? 0 then throwRuntime "member_array: start index must be non-negative" else
      match data hay with
      | Str s =>
          match data needle with
          | Int code => mret (VInt (firstIndex (fun c => ord c =? code) start (String.list_ascii_of_string s)))
          | _ => throwRuntime "member_array: needle must be an int char code when searching a string"
          end
      | Arr a =>
          its <- itemsOf a ;;
          mret (VInt (firstIndex (fun x => valuesEqual x needle) start its))
      | _ => throwRuntime "member_array: haystack must be a string or an array"
      end
  | _ => throwRuntime "member_array: expected (needle, haystack, void|int start) arguments"
  end.

(** ** Variables of the calling object *)
Fixpoint nameIndex (name : string) (names : list string) : option nat :=
  match names with
  | [] => None
  | n :: ns => if String.eqb n name then Some O else S <$> nameIndex name ns
  end.

Definition onVariable (noObject name : string) (k : oid -> nat -> VM Value) : VM Value :=
  ob <- mgets currentObject ;;
  match ob with
  | None => throwRuntime noObject
  | Some o =>
      names <- mgets (fun s => objectVarNames (prog (programStore s) (programOf s o))) ;;
      match nameIndex name names with
      | Some i => k o i
      | None => throwRuntime ("No variable named '" +:+ name +:+ "'!")
      end
  end.

Definition fetch_variable (args : list Value) : VM Value :=
  match argStr 0 args with
  | None => throwRuntime "fetch_variable: expected a string variable name"
  | Some name =>
      onVariable "fetch_variable: no current object" name (fun o i =>
        mgets (fun s => nthV i (getOb s variables [] o)))
  end.

Definition store_variable (args : list Value) : VM Value :=
  match argStr 0 args, args !! 1%nat with
  | Some name, Some v =>
      onVariable "store_variable: no current object" name (fun o i =>
        mmodify (setOb o (fun ob => ob <| variables ::= <[i := v]> |>)) ;; mret Void)
  | _, _ => throwRuntime "store_variable: expected (string name, mixed value) arguments"
  end.

(** ** The table

    What [registerCoreEfuns] registers of the efuns above; any other name is
    left to [rest]. *)
Definition pure (f : list Value -> outcome exn Value) : VMOps -> list Value -> VM Value := fun _ args => mlift (f args).
Definition onState (f : list Value -> VM Value) : VMOps -> list Value -> VM Value := fun _ => f.

Definition valueEfuns : list (string * (VMOps -> list Value -> VM Value)) :=
  [("explode", onState explode); ("explode_reversible", onState explode_reversible);
   ("capitalize", pure capitalize); ("lower_case", pure lower_case); ("upper_case", pure upper_case);
   ("trim", pure trim); ("ltrim", pure ltrim); ("rtrim", pure rtrim);
   ("replace_string", pure replace_string); ("strsrch", pure strsrch); ("strstr", pure strsrch);
   ("string_difference", pure string_difference);
   ("set_bit", pure set_bit); ("clear_bit", pure clear_bit); ("test_bit", pure test_bit); ("next_bit", pure next_bit);
   ("keys", onState keys); ("values", onState values); ("m_indices", onState m_indices); ("m_values", onState m_values);
   ("map_delete", onState map_delete); ("m_delete", onState map_delete);
   ("copy", onState copy); ("sizeof", onState sizeofImpl); ("strlen", onState sizeofImpl); ("strwidth", onState sizeofImpl);
   ("member_array", onState member_array);
   ("fetch_variable", onState fetch_variable); ("store_variable", onState store_variable)].

Definition callbackEfuns (T : EfunTable) : list (string * (VMOps -> list Value -> VM Value)) :=
  [("implode", @implode T); ("map_array", @mapArrayImpl T); ("map", @mapArrayImpl T);
   ("filter_array", @filterArrayImpl T); ("filter", @filterArrayImpl T); ("unique_array", @unique_array T)].
