(* ===== verification/EfunsFacts.v ===== *)
(** * EfunsFacts: what the efuns of Efuns.v compute *)
From S2P Require Import Prelude CLib Double Value Bytecode Lookup LexerFacts Machine Calls Preprocess ObjectManager ConnectionFacts Paths Files Efuns.
Local Open Scope Z_scope.

(** ** Searching *)
Lemma sprefix_spec p s : sprefix p s = true <-> exists t, s = p +:+ t.
Proof.
  revert s. induction p as [|c p IH]; intros s; [split; eauto|]. destruct s as [|d s].
  - split; [done|]. by intros [t E].
  - cbn. rewrite andb_true_iff, IH. split.
    + intros [->%Ascii.eqb_eq [t ->]]. by exists t.
    + intros [t E]. rewrite sapp_cons in E. injection E as -> ->. rewrite Ascii.eqb_refl. eauto.
Qed.

(** [find_str] stops at the first occurrence. *)
Lemma find_str_some pat s n :
  find_str pat s = Some n ->
  s = stake n s +:+ pat +:+ sdrop (n + String.length pat) s /\ (n + String.length pat <= String.length s)%nat.
Proof.
  revert n. induction s as [|c s IH]; intros n.
  - cbn [find_str]. destruct (sprefix pat "") eqn:E; [|done]. intros [= <-].
    apply sprefix_spec in E as [t E]. destruct pat; [done|]. by rewrite sapp_cons in E.
  - cbn [find_str]. destruct (sprefix pat (String c s)) eqn:E.
    + intros [= <-]. apply sprefix_spec in E as [t ->]. cbn [Nat.add stake]. rewrite sdrop_app, slength_app.
      split; [by destruct (pat +:+ t)|lia].
    + destruct (find_str pat s) as [m|]; [|done]. intros [= <-]. destruct (IH m eq_refl) as [E1 E2]. cbn. split; [|lia].
      rewrite sapp_cons. f_equal. exact E1.
Qed.

Lemma find_str_none pat s : find_str pat s = None -> forall a b, s <> a +:+ pat +:+ b.
Proof.
  induction s as [|c s IH]; cbn [find_str].
  - destruct (sprefix pat "") eqn:E; [done|]. intros _ a b Hs. destruct a; [|by rewrite sapp_cons in Hs].
    rewrite sapp_nil_l in Hs. assert (sprefix pat "" = true) by (apply sprefix_spec; eauto). congruence.
  - destruct (sprefix pat (String c s)) eqn:E; [done|]. destruct (find_str pat s); [done|]. intros _ a b Hs.
    destruct a as [|d a].
    + rewrite sapp_nil_l in Hs. assert (sprefix pat (String c s) = true) by (apply sprefix_spec; eauto). congruence.
    + rewrite sapp_cons in Hs. injection Hs as -> Hs. by eapply IH.
Qed.

(** ** Splitting and joining *)
Fixpoint join (sep : string) (l : list string) : string :=
  match l with
  | [] => ""
  | [s] => s
  | s :: l' => s +:+ sep +:+ join sep l'
  end.

Lemma join_cons sep s l : l <> [] -> join sep (s :: l) = s +:+ sep +:+ join sep l.
Proof. by destruct l. Qed.

Lemma splitAll_nonempty fuel sep s : splitAll (S fuel) sep s <> [].
Proof. cbn. by destruct (find_str sep s). Qed.

Section Split.
Context (sep : string) (Hsep : sep <> ""%string).

Lemma sep_length : (0 < String.length sep)%nat.
Proof using Hsep. destruct sep; [done|cbn; lia]. Qed.

Lemma rest_shorter s n fuel :
  find_str sep s = Some n -> (String.length s < S fuel)%nat ->
  (String.length (sdrop (n + String.length sep) s) < fuel)%nat.
Proof using Hsep. intros E Hf. destruct (find_str_some _ _ _ E) as [_ L]. rewrite sdrop_length. pose proof sep_length. lia. Qed.

Lemma join_split fuel s : (String.length s < fuel)%nat -> join sep (splitAll fuel sep s) = s.
Proof using Hsep.
  revert s. induction fuel as [|f IH]; intros s Hf; [lia|]. cbn [splitAll].
  destruct (find_str sep s) as [n|] eqn:E; [|done]. pose proof (rest_shorter _ _ _ E Hf) as Hr.
  destruct f as [|f]; [lia|]. rewrite join_cons by apply splitAll_nonempty. rewrite IH by done.
  symmetry. apply (find_str_some _ _ _ E).
Qed.

(** No piece holds the separator across its end: a piece followed by the
    separator holds it only there. *)
Lemma split_pieces fuel s : (String.length s < fuel)%nat ->
  Forall (fun p => forall a b, p <> a +:+ sep +:+ b) (splitAll fuel sep s).
Proof using Hsep.
  revert s. induction fuel as [|f IH]; intros s Hf; [lia|]. cbn [splitAll].
  destruct (find_str sep s) as [n|] eqn:E.
  - constructor; [|by apply IH, rest_shorter].
    clear IH Hf. revert n E. induction s as [|c s IHs]; intros n E a b Hp.
    { cbn in Hp. destruct n; destruct a, sep; by try rewrite sapp_cons in Hp. }
    cbn [find_str] in E. destruct (sprefix sep (String c s)) eqn:Es.
    { injection E as <-. cbn in Hp. destruct a, sep; by try rewrite sapp_cons in Hp. }
    destruct (find_str sep s) as [m|] eqn:Em; [|done]. injection E as <-. cbn [stake] in Hp.
    destruct a as [|d a].
    + rewrite sapp_nil_l in Hp. assert (sprefix sep (String c s) = true); [|congruence].
      apply sprefix_spec. exists (b +:+ sdrop m s). rewrite <- sapp_assoc, <- Hp, sapp_cons. f_equal.
      clear. revert m. induction s as [|x s IH]; intros [|m]; try done. cbn. rewrite sapp_cons. f_equal. apply IH.
    + rewrite sapp_cons in Hp. injection Hp as -> Hp. by eapply IHs.
  - constructor; [|constructor]. by apply find_str_none.
Qed.

(** [explode] is the split without its leading empty pieces and without an
    empty last one. *)
Fixpoint dropEmpty (l : list string) : list string :=
  match l with s :: l' => if String.eqb s "" then dropEmpty l' else l | [] => [] end.
Definition dropLastEmpty (l : list string) : list string :=
  match List.last l "x" with EmptyString => removelast l | _ => l end.

Lemma explodePieces_split fuel s :
  (String.length s < fuel)%nat -> explodePieces fuel sep s = dropLastEmpty (splitAll fuel sep s).
Proof using Hsep.
  revert s. induction fuel as [|f IH]; intros s Hf; [lia|]. cbn [explodePieces splitAll].
  destruct (find_str sep s) as [n|] eqn:E.
  - pose proof (rest_shorter _ _ _ E Hf) as Hr. rewrite IH by done. destruct f as [|f]; [lia|].
    pose proof (splitAll_nonempty f sep (sdrop (n + String.length sep) s)) as N.
    unfold dropLastEmpty. cbn [List.last removelast]. destruct (splitAll (S f) sep _) as [|p ps]; [done|].
    by destruct (List.last (p :: ps) "x").
  - unfold dropLastEmpty. cbn. destruct (String.eqb_spec s ""); [by subst|by destruct s].
Qed.

Lemma split_fuel f1 f2 s :
  (String.length s < f1)%nat -> (String.length s < f2)%nat -> splitAll f1 sep s = splitAll f2 sep s.
Proof using Hsep.
  revert f2 s. induction f1 as [|f1 IH]; intros [|f2] s H1 H2; try lia. cbn [splitAll].
  destruct (find_str sep s) as [n|] eqn:E; [|done]. f_equal. apply IH; by eapply rest_shorter.
Qed.

Lemma split_prefix f s : (String.length (sep +:+ s) < S f)%nat -> splitAll (S f) sep (sep +:+ s) = "" :: splitAll f sep s.
Proof using Hsep.
  intros Hf. cbn [splitAll].
  assert (find_str sep (sep +:+ s) = Some O) as ->.
  { assert (sprefix sep (sep +:+ s) = true) by (apply sprefix_spec; eauto). destruct (sep +:+ s); cbn [find_str]; by rewrite H. }
  cbn [Nat.add]. rewrite sdrop_app. by destruct (sep +:+ s).
Qed.

Lemma dropEmpty_split f s : s <> ""%string -> sprefix sep s = false -> dropEmpty (splitAll (S f) sep s) = splitAll (S f) sep s.
Proof using.
  intros Hs Hp. cbn [splitAll]. destruct (find_str sep s) as [n|] eqn:E.
  - cbn [dropEmpty]. destruct s as [|c s]; [done|]. cbn [find_str] in E. rewrite Hp in E.
    destruct (find_str sep s); [|done]. injection E as <-. done.
  - cbn [dropEmpty]. by destruct (String.eqb_spec s "").
Qed.

Lemma skip_split fuel f s :
  (String.length s < fuel)%nat -> (String.length s < f)%nat ->
  dropEmpty (splitAll f sep s) =
  match skipSeparators fuel sep s with Some t => dropEmpty (splitAll (strFuel t) sep t) | None => [] end /\
  (forall t, skipSeparators fuel sep s = Some t -> sprefix sep t = false).
Proof using Hsep.
  revert f s. induction fuel as [|fuel IH]; intros [|f] s Hf1 Hf2; try lia. cbn [skipSeparators].
  destruct (sprefix sep s) eqn:E.
  - apply sprefix_spec in E as [t ->]. rewrite sdrop_app. rewrite split_prefix by done. cbn [dropEmpty String.eqb].
    pose proof sep_length. rewrite slength_app in Hf1, Hf2.
    destruct (String.eqb_spec t "") as [->|Ht].
    + split; [|done]. destruct f as [|f]; [cbn in Hf2; lia|]. cbn [splitAll find_str]. by destruct sep.
    + apply IH; lia.
  - split; [|by intros t [= <-]]. f_equal. apply split_fuel; [done|unfold strFuel; lia].
Qed.
End Split.

Lemma explode_split str sep :
  sep <> ""%string ->
  explodeStrings str sep = dropLastEmpty (dropEmpty (splitAll (strFuel str) sep str)).
Proof.
  intros Hsep. unfold explodeStrings. destruct (String.eqb_spec sep ""); [done|].
  destruct (skip_split sep Hsep (strFuel str) (strFuel str) str) as [E H]; [unfold strFuel; lia..|]. rewrite E. clear E.
  destruct (skipSeparators (strFuel str) sep str) as [t|]; [|done]. specialize (H t eq_refl).
  rewrite explodePieces_split by (done || unfold strFuel; lia). destruct (decide (t = ""%string)) as [->|Ht].
  - cbn. by destruct sep.
  - unfold strFuel. by rewrite dropEmpty_split.
Qed.

Lemma implode_join sep l :
  implodeStrings sep false (strings l) = join sep l.
Proof.
  assert (forall l, implodeStrings sep true (strings l) = match l with [] => "" | _ => sep +:+ join sep l end) as H.
  { clear l. induction l as [|s l IH]; [done|]. cbn [strings map implodeStrings data V]. fold (strings l). rewrite IH.
    destruct l; [by rewrite sapp_nil_r|]. done. }
  destruct l as [|s l]; [done|]. cbn [strings map implodeStrings data V]. fold (strings l). rewrite sapp_nil_l, H.
  destruct l; [by rewrite sapp_nil_r|]. done.
Qed.

(** C36: splitting and joining strings: for any string and any separator but the
    empty one, [implode] of what [explode_reversible] returns is the string again,
    no piece holds the separator, and [explode] returns the same pieces but for
    the empty ones in front and an empty last one. *)
Theorem explode_implode str sep :
  sep <> ""%string ->
  let pieces := splitAll (strFuel str) sep str in
  implodeStrings sep false (strings pieces) = str /\
  Forall (fun p => forall a b, p <> a +:+ sep +:+ b) pieces /\
  explodeStrings str sep = dropLastEmpty (dropEmpty pieces).
Proof.
  intros Hsep pieces. split; [|split].
  - rewrite implode_join. apply join_split; [done|unfold strFuel; lia].
  - apply split_pieces; [done|unfold strFuel; lia].
  - by apply explode_split.
Qed.

Lemma explode_implode_witness :
  implodeStrings "/" false (strings (splitAll 7 "/" "/a//b/")) = "/a//b/" /\ explodeStrings "/a//b/" "/" = ["a"; ""; "b"].
Proof. split; [apply (explode_implode "/a//b/" "/"); discriminate|vm_compute; reflexivity]. Defined.

(** ** replace_string *)

(** The pieces with the [k]-th gap filled by the replacement when the range
    holds [k], and by the pattern otherwise. *)
Fixpoint weave (pattern replacement : string) (first last cur : Z) (l : list string) : string :=
  match l with
  | [] => ""
  | [p] => p
  | p :: l' =>
      p +:+ (if (first <=? cur + 1) && ((last =? 0) || (cur + 1 <=? last)) then replacement else pattern)
        +:+ weave pattern replacement first last (cur + 1) l'
  end.

Lemma weave_past pattern replacement first last cur l :
  last <> 0 -> last <= cur -> weave pattern replacement first last cur l = join pattern l.
Proof.
  intros Hl. revert cur. induction l as [|p l IH]; intros cur Hc; [done|].
  destruct l as [|q l]; [done|]. change (p +:+ (if (first <=? cur + 1) && ((last =? 0) || (cur + 1 <=? last)) then replacement else pattern)
        +:+ weave pattern replacement first last (cur + 1) (q :: l) = p +:+ pattern +:+ join pattern (q :: l)).
  rewrite IH by lia. destruct (Z.eqb_spec last 0); [done|]. destruct (Z.leb_spec (cur + 1) last); [lia|]. by rewrite andb_false_r.
Qed.

Lemma weave_all pattern replacement cur l :
  0 <= cur -> weave pattern replacement 0 0 cur l = join replacement l.
Proof.
  revert cur. induction l as [|p l IH]; intros cur Hc; [done|]. destruct l as [|q l]; [done|].
  change (weave pattern replacement 0 0 cur (p :: q :: l)) with
    (p +:+ (if (0 <=? cur + 1) && true then replacement else pattern) +:+ weave pattern replacement 0 0 (cur + 1) (q :: l)).
  rewrite IH by lia. by destruct (Z.leb_spec 0 (cur + 1)); [|lia].
Qed.

Lemma replaceFrom_weave pattern replacement first last fuel cur s :
  pattern <> ""%string -> (String.length s < fuel)%nat ->
  replaceFrom fuel pattern replacement first last cur s =
  weave pattern replacement first last cur (splitAll fuel pattern s).
Proof.
  intros Hp. revert cur s. induction fuel as [|f IH]; intros cur s Hf; [lia|]. cbn [replaceFrom splitAll].
  destruct (find_str pattern s) as [n|] eqn:E; [|done]. pose proof (rest_shorter _ Hp _ _ _ E Hf) as Hr. cbv zeta.
  set (rest := sdrop (n + String.length pattern) s) in *. destruct f as [|f]; [lia|].
  pose proof (splitAll_nonempty f pattern rest) as N.
  assert (weave pattern replacement first last cur (stake n s :: splitAll (S f) pattern rest) =
    stake n s +:+ (if (first <=? cur + 1) && ((last =? 0) || (cur + 1 <=? last)) then replacement else pattern)
      +:+ weave pattern replacement first last (cur + 1) (splitAll (S f) pattern rest)) as ->
    by (by destruct (splitAll (S f) pattern rest)).
  do 2 f_equal. destruct (Z.eqb_spec last 0) as [->|Hl]; cbn [negb andb]; [by apply IH|].
  destruct (Z.eqb_spec (cur + 1) last) as [El|]; [|by apply IH].
  rewrite weave_past by lia. symmetry. by apply join_split.
Qed.

(** C37: [replace_string] with a range replaces exactly the occurrences the range
    numbers: the string is cut at the occurrences of the pattern, left to right
    and without overlap, and glued again with the replacement at occurrence [k]
    when [first <= k <= last] (any [k >= first] when [last] is 0) and the pattern
    at the others; so without a range it is the pieces joined with the
    replacement. *)
Theorem replace_string_spec str pattern replacement first last :
  pattern <> ""%string ->
  replaceRange str pattern replacement first last =
    (if negb (last =? 0) && (last <? first) then str
     else weave pattern replacement first last 0 (splitAll (strFuel str) pattern str)) /\
  replaceRange str pattern replacement 0 0 = join replacement (splitAll (strFuel str) pattern str).
Proof.
  intros Hp. assert (forall a b, (if negb (b =? 0) && (b <? a) then False else True) ->
    replaceRange str pattern replacement a b = weave pattern replacement a b 0 (splitAll (strFuel str) pattern str)) as H.
  { intros a b Hr. unfold replaceRange. destruct (negb (b =? 0) && (b <? a)); [done|].
    destruct (String.eqb_spec pattern ""); [done|]. apply replaceFrom_weave; [done|unfold strFuel; lia]. }
  split.
  - destruct (negb (last =? 0) && (last <? first)) eqn:E; [unfold replaceRange; by rewrite E|]. apply H. by rewrite E.
  - rewrite H by done. by apply weave_all.
Qed.

Lemma replace_string_spec_witness :
  replaceRange "xyxxy" "x" "z" 2 3 = "xyzzy" /\ replaceRange "xyxxy" "x" "z" 0 0 = "zyzzy".
Proof.
  split; [|etransitivity; [apply (replace_string_spec "xyxxy" "x" "z" 2 3); discriminate|vm_compute; reflexivity]].
  etransitivity; [apply (replace_string_spec "xyxxy" "x" "z" 2 3); discriminate|vm_compute; reflexivity].
Defined.

(** ** string_difference *)

(** [n] edits turn the first list into the second. *)
Inductive edits : list ascii -> list ascii -> nat -> Prop :=
  | e_nil : edits [] [] 0
  | e_keep c x y n : edits x y n -> edits (c :: x) (c :: y) n
  | e_change c d x y n : edits x y n -> edits (c :: x) (d :: y) (S n)
  | e_delete c x y n : edits x y n -> edits (c :: x) y (S n)
  | e_insert d x y n : edits x y n -> edits x (d :: y) (S n).

Fixpoint lev (x : list ascii) : list ascii -> nat :=
  match x with
  | [] => fun y => length y
  | c :: x' =>
      fix levc (y : list ascii) : nat :=
        match y with
        | [] => S (length x')
        | d :: y' =>
            Nat.min (Nat.min (levc y' + 1) (lev x' (d :: y') + 1)) (lev x' y' + if Ascii.eqb c d then 0 else 1)
        end
  end.

Lemma lev_nil_r x : lev x [] = length x.
Proof. by destruct x. Qed.
Lemma lev_cons c x d y :
  lev (c :: x) (d :: y) = Nat.min (Nat.min (lev (c :: x) y + 1) (lev x (d :: y) + 1)) (lev x y + if Ascii.eqb c d then 0 else 1).
Proof. done. Qed.

Lemma edits_delete_all x : edits x [] (length x).
Proof. induction x; cbn; by constructor. Qed.
Lemma edits_insert_all y : edits [] y (length y).
Proof. induction y; cbn; by constructor. Qed.

Lemma lev_edits x y : edits x y (lev x y).
Proof.
  revert y. induction x as [|c x IHx]; intros y; [apply edits_insert_all|].
  induction y as [|d y IHy]; [rewrite lev_nil_r; apply edits_delete_all|]. rewrite lev_cons.
  destruct (Nat.min_dec (Nat.min (lev (c :: x) y + 1) (lev x (d :: y) + 1)) (lev x y + if Ascii.eqb c d then 0 else 1)) as [->| ->].
  - destruct (Nat.min_dec (lev (c :: x) y + 1) (lev x (d :: y) + 1)) as [->| ->]; rewrite Nat.add_1_r; by constructor.
  - destruct (Ascii.eqb_spec c d) as [->|]; [rewrite Nat.add_0_r|rewrite Nat.add_1_r]; by constructor.
Qed.

Lemma lev_head x y c : (lev (c :: x) y <= lev x y + 1)%nat.
Proof. destruct y as [|d y]; [rewrite !lev_nil_r; cbn; lia|rewrite lev_cons; lia]. Qed.

Lemma edits_lev x y n : edits x y n -> (lev x y <= n)%nat.
Proof.
  induction 1 as [|c x y n _ IH|c d x y n _ IH|c x y n _ IH|d x y n _ IH]; [done|..].
  - rewrite lev_cons, Ascii.eqb_refl. lia.
  - rewrite lev_cons. destruct (Ascii.eqb c d); lia.
  - pose proof (lev_head x y c). lia.
  - destruct x as [|c x]; [cbn in *; lia|rewrite lev_cons; lia].
Qed.

Lemma edits_app x y n x' y' n' : edits x y n -> edits x' y' n' -> edits (x ++ x') (y ++ y') (n + n').
Proof. induction 1; intros; cbn; try constructor; auto. Qed.
Lemma edits_rev x y n : edits x y n -> edits (rev x) (rev y) n.
Proof.
  induction 1 as [|c x y n _ IH|c d x y n _ IH|c x y n _ IH|d x y n _ IH]; cbn; [constructor|..];
    [rewrite <- (Nat.add_0_r n)|rewrite <- Nat.add_1_r..].
  - apply edits_app; [done|]. repeat constructor.
  - apply edits_app; [done|]. repeat constructor.
  - rewrite <- (app_nil_r (rev y)). apply edits_app; [done|]. repeat constructor.
  - rewrite <- (app_nil_r (rev x)). apply edits_app; [done|]. repeat constructor.
Qed.
Lemma edits_sym x y n : edits x y n -> edits y x n.
Proof. induction 1; by constructor. Qed.
Lemma edits_refl x : edits x x 0.
Proof. induction x; by constructor. Qed.

Abbreviation chars := String.list_ascii_of_string (only parsing).

(** The costs the row holds: [rx] and [ry] are the bytes passed, reversed. *)
Fixpoint rowOf (rx ry : list ascii) (y : string) : list nat :=
  match y with
  | EmptyString => []
  | String d y' => lev rx (d :: ry) :: rowOf rx (d :: ry) y'
  end.

Lemma nextRow_spec c y rx ry :
  nextRow c y (rowOf rx ry y) (lev (c :: rx) ry) (lev rx ry) = rowOf (c :: rx) ry y.
Proof.
  revert ry. induction y as [|d y IH]; intros ry; [done|]. cbn [rowOf nextRow].
  rewrite <- lev_cons. f_equal. apply IH.
Qed.

Lemma editRows_spec x y rx :
  editRows (length rx) x y (lev rx [] :: rowOf rx [] y) =
  lev (rev (chars x) ++ rx) [] :: rowOf (rev (chars x) ++ rx) [] y.
Proof.
  revert rx. induction x as [|c x IH]; intros rx; [done|].
  cbn [editRows tail hd String.list_ascii_of_string rev].
  change (S (length rx)) with (lev (c :: rx) []). rewrite nextRow_spec. rewrite <- app_assoc. apply (IH (c :: rx)).
Qed.

Lemma firstRow n y ry : length ry = n -> seq n (S (String.length y)) = lev [] ry :: rowOf [] ry y.
Proof.
  revert n ry. induction y as [|d y IH]; intros n ry <-; [done|].
  change (seq (length ry) (S (String.length (String d y)))) with (length ry :: seq (S (length ry)) (S (String.length y))).
  by rewrite (IH (S (length ry)) (d :: ry)).
Qed.

Lemma last_row rx ry y : List.last (lev rx ry :: rowOf rx ry y) O = lev rx (rev (chars y) ++ ry).
Proof.
  revert ry. induction y as [|d y IH]; intros ry; [done|].
  change (List.last (lev rx ry :: rowOf rx ry (String d y)) O) with (List.last (lev rx (d :: ry) :: rowOf rx (d :: ry) y) O).
  rewrite IH. cbn [String.list_ascii_of_string rev]. by rewrite <- app_assoc.
Qed.

(** C35: [string_difference] is the edit distance: the one row of costs the loop
    keeps ends in a number of insertions, deletions and changes of a byte that
    turn one string into the other, and no smaller number does. *)
Theorem string_difference_minimal a b :
  edits (chars a) (chars b) (levenshtein a b) /\
  forall n, edits (chars a) (chars b) n -> (levenshtein a b <= n)%nat.
Proof.
  unfold levenshtein. destruct (String.eqb_spec a b) as [->|Hab]; [split; [apply edits_refl|lia]|].
  assert (forall x y, List.last (editRows 0 x y (seq 0 (S (String.length y)))) O = lev (rev (chars x)) (rev (chars y))) as E.
  { intros x y. rewrite (firstRow 0 y []) by done. change 0%nat with (length (@nil ascii)) at 1. rewrite (editRows_spec x y []), last_row. by rewrite !app_nil_r. }
  assert (forall x y, edits (chars x) (chars y) (lev (rev (chars x)) (rev (chars y))) /\
    forall n, edits (chars x) (chars y) n -> (lev (rev (chars x)) (rev (chars y)) <= n)%nat) as H.
  { intros x y. split.
    - rewrite <- (rev_involutive (chars x)) at 1. rewrite <- (rev_involutive (chars y)) at 1. apply edits_rev, lev_edits.
    - intros n Hn. apply edits_lev. by apply edits_rev. }
  rewrite E. destruct (String.length a <=? String.length b)%nat; [apply H|].
  destruct (H b a) as [H1 H2]. split; [by apply edits_sym|]. intros n Hn. apply H2. by apply edits_sym.
Qed.

Example difference_example :
  map (fun p => levenshtein (fst p) (snd p)) [("abc", "abc"); ("abc", "abd"); ("kitten", "sitting"); ("", "abc")] = [0; 1; 3; 3]%nat.
Proof. vm_compute. reflexivity. Qed.

(** ** Bit fields *)

(** A string of bytes that each hold six bits. *)
Definition legalField (s : string) : Prop :=
  forall i, (i < String.length s)%nat -> legalBits (byteAt s i) = true.

Lemma byteAt_setByte i j c s :
  (i < String.length s)%nat -> byteAt (setByte i c s) j = if (i =? j)%nat then ord c else byteAt s j.
Proof.
  unfold byteAt, char_at. revert i j. induction s as [|d s IH]; intros i j Hi; cbn in Hi; [lia|].
  destruct i, j; cbn; try done. apply IH. lia.
Qed.
Lemma setByte_length i c s : String.length (setByte i c s) = String.length s.
Proof. revert i. induction s as [|d s IH]; intros [|i]; cbn; [done..|]. by rewrite IH. Qed.

Lemma spaces_length n : String.length (spaces n) = n.
Proof. induction n; cbn; congruence. Qed.
Lemma byteAt_spaces n i : (i < n)%nat -> byteAt (spaces n) i = 32.
Proof. unfold byteAt, char_at. revert i. induction n; intros [|i] Hi; cbn; try lia; [done|]. apply IHn. lia. Qed.
Lemma byteAt_app s t i :
  byteAt (s +:+ t) i = if (i <? String.length s)%nat then byteAt s i else byteAt t (i - String.length s).
Proof.
  unfold byteAt, char_at. revert i. induction s as [|c s IH]; intros i.
  - rewrite sapp_nil_l. cbn. by rewrite Nat.sub_0_r.
  - rewrite sapp_cons. destruct i; cbn; [done|]. apply IH.
Qed.

Lemma growTo_length n s : (String.length s <= n)%nat -> String.length (growTo n s) = n.
Proof. intros. unfold growTo. rewrite slength_app, spaces_length. lia. Qed.
Lemma byteAt_growTo n s i :
  (i < n)%nat -> byteAt (growTo n s) i = if (i <? String.length s)%nat then byteAt s i else 32.
Proof.
  intros Hi. unfold growTo. rewrite byteAt_app. destruct (Nat.ltb_spec i (String.length s)); [done|].
  apply byteAt_spaces. lia.
Qed.

Lemma shiftl1_bit b i : 0 <= b -> 0 <= i -> Z.testbit (Z.shiftl 1 b) i = (i =? b).
Proof.
  intros. rewrite Z.shiftl_1_l. destruct (Z.eqb_spec i b) as [->|]; [by rewrite Z.pow2_bits_true|by rewrite Z.pow2_bits_false].
Qed.

Lemma bitOf_testbit ch b : 0 <= b -> bitOf ch b = Z.testbit (ch - 32) b.
Proof.
  intros Hb. unfold bitOf. destruct (Z.eqb_spec (Z.land (ch - 32) (Z.shiftl 1 b)) 0) as [E|E]; cbn.
  - assert (Z.testbit (Z.land (ch - 32) (Z.shiftl 1 b)) b = false) as T by (by rewrite E, Z.bits_0).
    rewrite Z.land_spec, Z.shiftl_spec, Z.sub_diag, andb_true_r in T by done. by rewrite T.
  - destruct (Z.testbit (ch - 32) b) eqn:T; [done|]. destruct E. apply Z.bits_inj'. intros i Hi.
    rewrite Z.bits_0, Z.land_spec, shiftl1_bit by done. destruct (Z.eqb_spec i b) as [->|]; [by rewrite T|].
    by rewrite andb_false_r.
Qed.

Lemma six_bits x : 0 <= x < 64 <-> Z.land x (Z.ones 6) = x.
Proof. rewrite Z.land_ones by lia. change (2 ^ 6) with 64. pose proof (Z.mod_pos_bound x 64 eq_refl). split; intros; [by apply Z.mod_small|lia]. Qed.

Lemma lor_six x b : 0 <= x < 64 -> 0 <= b < 6 -> 0 <= Z.lor x (Z.shiftl 1 b) < 64.
Proof.
  intros Hx Hb. assert (0 <= Z.shiftl 1 b < 64) as Hs.
  { rewrite Z.shiftl_1_l. split; [by apply Z.pow_nonneg|]. apply (Z.pow_lt_mono_r 2 b 6); lia. }
  apply six_bits in Hx, Hs. apply six_bits. by rewrite Z.land_lor_distr_l, Hx, Hs.
Qed.
Lemma land_six x y : 0 <= x < 64 -> 0 <= Z.land x y < 64.
Proof. intros Hx%six_bits. apply six_bits. by rewrite <- Z.land_assoc, (Z.land_comm y), Z.land_assoc, Hx. Qed.

(** The bit that [test_bit] finds; past the end of the string it is unset. *)
Definition fieldBit (s : string) (m : Z) : bool :=
  (Z.to_nat (m / 6) <? String.length s)%nat && bitOf (byteAt s (Z.to_nat (m / 6))) (m mod 6).

Lemma testBit_nonneg s m : 0 <= m -> testBit s m = Ok (fieldBit s m).
Proof.
  intros Hm. unfold testBit, fieldBit. rewrite Z.quot_div_nonneg by lia.
  assert (0 <= m / 6) by (apply Z.div_pos; lia).
  destruct (Z.leb_spec (Z.of_nat (String.length s)) (m / 6)).
  - by destruct (Nat.ltb_spec (Z.to_nat (m / 6)) (String.length s)); [lia|].
  - destruct (Z.ltb_spec m 0); [lia|]. by destruct (Nat.ltb_spec (Z.to_nat (m / 6)) (String.length s)); [|lia].
Qed.

(** A byte of a legal field rewritten at one place. *)
Lemma fieldBit_setByte s n x m :
  0 <= n -> 0 <= m -> (Z.to_nat (n / 6) < String.length s)%nat -> 0 <= x < 64 ->
  fieldBit (setByte (Z.to_nat (n / 6)) (chr (x + 32)) s) m =
  if m / 6 =? n / 6 then Z.testbit x (m mod 6) else fieldBit s m.
Proof.
  intros Hn Hm Hi Hx. unfold fieldBit. rewrite setByte_length, byteAt_setByte by done.
  assert (0 <= n / 6 /\ 0 <= m / 6) as [] by (split; apply Z.div_pos; lia).
  destruct (Z.eqb_spec (m / 6) (n / 6)) as [E|E].
  - rewrite E, Nat.eqb_refl. destruct (Nat.ltb_spec (Z.to_nat (n / 6)) (String.length s)); [|lia]. cbn [andb].
    rewrite bitOf_testbit by (apply Z.mod_pos_bound; lia).
    rewrite ord_chr by lia. f_equal. lia.
  - destruct (Nat.eqb_spec (Z.to_nat (n / 6)) (Z.to_nat (m / 6))); [lia|done].
Qed.

Lemma legal_setByte s i x :
  legalField s -> (i < String.length s)%nat -> 0 <= x < 64 -> legalField (setByte i (chr (x + 32)) s).
Proof.
  intros Hs Hi Hx j. rewrite setByte_length, byteAt_setByte by done. intros Hj.
  destruct (i =? j)%nat; [|by apply Hs]. rewrite ord_chr by lia. unfold legalBits.
  apply andb_true_iff. split; lia.
Qed.

Lemma legal_growTo s n : legalField s -> (String.length s <= n)%nat -> legalField (growTo n s).
Proof.
  intros Hs Hn i. rewrite growTo_length by done. intros Hi. rewrite byteAt_growTo by done.
  destruct (Nat.ltb_spec i (String.length s)); [by apply Hs|done].
Qed.
Lemma fieldBit_growTo s n m : (String.length s <= n)%nat -> 0 <= m -> fieldBit (growTo n s) m = fieldBit s m.
Proof.
  intros Hn Hm. unfold fieldBit. rewrite growTo_length by done.
  destruct (Nat.ltb_spec (Z.to_nat (m / 6)) n) as [Hi|]; cbn [andb].
  - rewrite byteAt_growTo by done. destruct (Nat.ltb_spec (Z.to_nat (m / 6)) (String.length s)); cbn [andb]; [done|].
    rewrite bitOf_testbit by (apply Z.mod_pos_bound; lia). by rewrite Z.bits_0.
  - by destruct (Nat.ltb_spec (Z.to_nat (m / 6)) (String.length s)); [lia|].
Qed.

Lemma legal_byte s i : legalField s -> (i < String.length s)%nat -> 0 <= byteAt s i - 32 < 64.
Proof. intros Hs Hi. specialize (Hs i Hi). unfold legalBits in Hs. apply andb_true_iff in Hs as []. lia. Qed.

Lemma same_place n m : 0 <= n -> 0 <= m -> (m / 6 =? n / 6) = true -> (m mod 6 =? n mod 6) = (m =? n).
Proof.
  intros Hn Hm E. apply Z.eqb_eq in E. pose proof (Z.div_mod m 6). pose proof (Z.div_mod n 6).
  destruct (Z.eqb_spec (m mod 6) (n mod 6)), (Z.eqb_spec m n); try done; subst; lia.
Qed.
Lemma other_place n m : (m / 6 =? n / 6) = false -> (m =? n) = false.
Proof. intros E. destruct (Z.eqb_spec m n) as [->|]; [by rewrite Z.eqb_refl in E|done]. Qed.

Lemma setBit_spec s n :
  legalField s -> 0 <= n <= kMaxBits ->
  exists t, setBit s n = Ok t /\ legalField t /\ forall m, 0 <= m -> fieldBit t m = (m =? n) || fieldBit s m.
Proof.
  intros Hs Hn. unfold setBit. destruct (Z.ltb_spec kMaxBits n); [lia|]. destruct (Z.ltb_spec n 0); [lia|].
  set (ind := Z.to_nat (n / 6)). set (u := if (String.length s <=? ind)%nat then growTo (ind + 1) s else s).
  assert (legalField u /\ (ind < String.length u)%nat /\ forall m, 0 <= m -> fieldBit u m = fieldBit s m) as (Hu & Hi & Hb).
  { unfold u. destruct (Nat.leb_spec (String.length s) ind); [|done].
    split; [apply legal_growTo; [done|lia]|]. split; [rewrite growTo_length; lia|]. intros. apply fieldBit_growTo; lia. }
  rewrite (Hu ind Hi). cbn [negb]. pose proof (legal_byte u ind Hu Hi) as Hx. pose proof (Z.mod_pos_bound n 6 eq_refl).
  assert (0 <= Z.lor (byteAt u ind - 32) (Z.shiftl 1 (n mod 6)) < 64) by (apply lor_six; lia).
  eexists. split; [done|]. split; [by apply legal_setByte|]. intros m Hm.
  unfold ind. rewrite fieldBit_setByte by (done || lia). rewrite <- Hb by done.
  destruct (m / 6 =? n / 6) eqn:E; [|by rewrite (other_place n m E)].
  pose proof (Z.mod_pos_bound m 6 eq_refl). rewrite Z.lor_spec, shiftl1_bit by lia. rewrite (same_place n m) by (done || lia).
  rewrite orb_comm. f_equal. unfold fieldBit. apply Z.eqb_eq in E. rewrite E. fold ind.
  destruct (Nat.ltb_spec ind (String.length u)); [|lia]. by rewrite bitOf_testbit by lia.
Qed.

Lemma clearBit_spec s n :
  legalField s -> 0 <= n <= kMaxBits ->
  exists t, clearBit s n = Ok t /\ legalField t /\ forall m, 0 <= m -> fieldBit t m = negb (m =? n) && fieldBit s m.
Proof.
  intros Hs Hn. unfold clearBit. destruct (Z.ltb_spec kMaxBits n); [lia|]. destruct (Z.ltb_spec n 0); [lia|].
  set (ind := Z.to_nat (n / 6)). destruct (Nat.leb_spec (String.length s) ind) as [|Hi].
  { eexists. split; [done|]. split; [done|]. intros m Hm. destruct (Z.eqb_spec m n) as [->|]; [|done].
    unfold fieldBit. fold ind. by destruct (Nat.ltb_spec ind (String.length s)); [lia|]. }
  rewrite (Hs ind Hi). cbn [negb]. pose proof (legal_byte s ind Hs Hi) as Hx. pose proof (Z.mod_pos_bound n 6 eq_refl).
  pose proof (land_six _ (Z.lnot (Z.shiftl 1 (n mod 6))) Hx).
  eexists. split; [done|]. split; [by apply legal_setByte|]. intros m Hm.
  unfold ind. rewrite fieldBit_setByte by (done || lia).
  destruct (m / 6 =? n / 6) eqn:E; [|by rewrite (other_place n m E)].
  pose proof (Z.mod_pos_bound m 6 eq_refl). rewrite Z.land_spec, Z.lnot_spec, shiftl1_bit by lia.
  rewrite (same_place n m) by (done || lia).
  rewrite andb_comm. f_equal. unfold fieldBit. apply Z.eqb_eq in E. rewrite E. fold ind.
  destruct (Nat.ltb_spec ind (String.length s)); [|lia]. by rewrite bitOf_testbit by lia.
Qed.

(** C40: [set_bit] and [clear_bit] keep a string of six-bit bytes legal, and
    [test_bit] of what they return answers for the bit that was written and, for
    every other bit, what it answered before; the string grows as far as the bit. *)
Theorem bit_field_spec s n :
  legalField s -> 0 <= n <= kMaxBits ->
  (exists t, setBit s n = Ok t /\ legalField t /\
     forall m, 0 <= m -> testBit t m = if m =? n then Ok true else testBit s m) /\
  (exists t, clearBit s n = Ok t /\ legalField t /\
     forall m, 0 <= m -> testBit t m = if m =? n then Ok false else testBit s m).
Proof.
  intros Hs Hn. split.
  - destruct (setBit_spec s n Hs Hn) as (t & Ht & Hl & Hb). exists t. split; [done|]. split; [done|].
    intros m Hm. rewrite !testBit_nonneg, Hb by done. by destruct (m =? n).
  - destruct (clearBit_spec s n Hs Hn) as (t & Ht & Hl & Hb). exists t. split; [done|]. split; [done|].
    intros m Hm. rewrite !testBit_nonneg, Hb by done. by destruct (m =? n).
Qed.

Lemma bit_field_spec_witness :
  legalField "" /\
  (exists t, setBit "" 13 = Ok t /\ legalField t /\
     forall m, 0 <= m -> testBit t m = if m =? 13 then Ok true else testBit "" m) /\
  (exists t, clearBit "" 13 = Ok t /\ legalField t /\
     forall m, 0 <= m -> testBit t m = if m =? 13 then Ok false else testBit "" m).
Proof.
  assert (legalField "") as L by (intros i Hi; cbn in Hi; lia).
  split; [exact L|]. apply (bit_field_spec "" 13 L). unfold kMaxBits. lia.
Defined.

(** ** Mappings *)

(** What [map_delete] leaves: no entry whose key equals [key], the others in order. *)
Lemma eraseKey_entries key m : forall n i,
  n = (length (entries m) - i)%nat ->
  entries (eraseKey n i key m) =
  take i (entries m) ++ List.filter (fun e => negb (valuesEqual (fst e) key)) (drop i (entries m)).
Proof.
  intros n. revert m. induction n as [|n IH]; intros m i Hn; cbn [eraseKey].
  { rewrite take_ge, drop_ge by lia. by rewrite app_nil_r. }
  destruct (lookup_lt_is_Some_2 (entries m) i ltac:(lia)) as [[k v] E]. rewrite E.
  assert (entries (eraseAt m i) = delete i (entries m)) as Ed by (unfold eraseAt; by destruct (extraColumns m)).
  rewrite (drop_S _ _ _ E). cbn [List.filter fst]. destruct (valuesEqual k key); cbn [negb].
  - rewrite IH, Ed.
    + rewrite delete_take_drop, take_app_le, take_take, Nat.min_id by (rewrite length_take; lia).
      rewrite drop_app_ge, length_take, Nat.min_l, Nat.sub_diag by (rewrite ?length_take; lia). done.
    + rewrite Ed, length_delete by (by eexists). lia.
  - rewrite IH by lia. rewrite (take_S_r _ _ _ E), <- app_assoc. done.
Qed.

Lemma map_delete_entries key m :
  entries (eraseKey (length (entries m)) 0 key m) =
  List.filter (fun e => negb (valuesEqual (fst e) key)) (entries m).
Proof. rewrite eraseKey_entries by lia. done. Qed.

(** [copy] makes a new array of the same elements: an array inside it is the
    array inside the original. *)
Example copy_shares :
  let h := emptyHeap <| arrays := {[1%positive := [VInt 1]; 2%positive := [V (Arr (Some 1%positive))]]} |>
             <| nextLoc := 3%positive |> in
  let s := (newVM (configFor "fluffos" 100) ∅ ∅) <| hp := h |> in
  let '(r, s') := copy [V (Arr (Some 2%positive))] s in
  r = Ok (V (Arr (Some 3%positive))) /\ items (hp s') 3%positive = [V (Arr (Some 1%positive))].
Proof. vm_compute. done. Qed.
