(* ===== verification/EfunContracts.v ===== *)
(** * EfunContracts: the efuns of Efuns.v keep the contracts of the interpreter

    Discipline.v and Safety.v prove what they prove of [VM::run] against
    contracts on the efun table, [efuns_calm] and [efuns_typed].  Here the
    efuns that do not call back satisfy both; those over the evaluation budget
    (EvalLimit.v) and those that call closures ([implode], [map], [filter],
    [unique_array]) satisfy the second one: the call of a closure or of a
    function is type safe when the interpreter and the table are.  The table of
    the first two kinds is an instance of [run_terminates]. *)
From S2P Require Import Prelude CLib Double Value Bytecode Lookup Machine Sscanf Exec ExecIndex Calls VM EvalLimit Discipline Typing Safety Files Efuns.
Local Open Scope Z_scope.

(** ** No efun of [valueEfuns] calls back *)
Section Calm.
Context (k : nat).

Lemma calm_modify f : (forall s, quiet s (f s)) -> calm k (mmodify f).
Proof. intros Hf s _. split; [done|]. apply quiet_restores, Hf. Qed.
Lemma calm_outcome {A} (o : outcome exn A) : o <> OutOfFuel -> calm k (mlift o).
Proof. intros Ho s _. split; [done|]. by apply quiet_restores. Qed.
Lemma calm_allocH {A} alloc (f : loc -> A) : calm k (allocH alloc f).
Proof.
  intros s _. unfold allocH. destruct (alloc (hp s)) as [p h]. split; [done|]. by apply quiet_restores.
Qed.
Lemma calm_arrayOf l : calm k (arrayOf l).
Proof. apply calm_allocH. Qed.
Lemma calm_throwRuntime {A} m : calm k (throwRuntime (A := A) m).
Proof. apply calm_throw. Qed.
End Calm.
#[export] Hint Resolve calm_modify calm_outcome calm_allocH calm_arrayOf calm_throwRuntime : calm.

(** ** The pure efuns return numbers and strings, or raise an error *)
Definition yields {A} (P : A -> Prop) (o : outcome exn A) : Prop :=
  match o with Ok a => P a | Throw (LpcRuntimeError _) => True | _ => False end.
Definition scalar (v : Value) : Prop := forall h, value_ok h v.

Lemma yields_bind {A B} (P : B -> Prop) (o : outcome exn A) (f : A -> outcome exn B) :
  yields (fun _ => True) o -> (forall a, yields P (f a)) -> yields P (obind o f).
Proof. destruct o as [a|[]| |]; cbn; auto; done. Qed.

Ltac yields_tac := repeat first [ exact Logic.I | progress intros | apply yields_bind | case_match ]; try done.

Lemma yields_onString who f args : yields scalar (onString who f args).
Proof. unfold onString. yields_tac. Qed.
Lemma yields_trimWith a b args : yields scalar (trimWith a b args).
Proof. unfold trimWith. yields_tac. Qed.
Lemma yields_replace_string args : yields scalar (replace_string args).
Proof. unfold replace_string. cbn zeta. yields_tac. Qed.
Lemma yields_strsrch args : yields scalar (strsrch args).
Proof. unfold strsrch. cbn zeta. yields_tac. Qed.
Lemma yields_string_difference args : yields scalar (string_difference args).
Proof. unfold string_difference. yields_tac. Qed.
Lemma yields_bits args :
  yields scalar (set_bit args) /\ yields scalar (clear_bit args) /\ yields scalar (test_bit args) /\
  yields scalar (next_bit args).
Proof.
  unfold set_bit, clear_bit, test_bit, next_bit, bitArgs, setBit, clearBit, testBit.
  split_and!; cbn zeta; yields_tac.
Qed.

(** [P] holds of every efun of [valueEfuns] when it holds of the pure ones and of
    those that read or change the state. *)
Lemma valueEfuns_cases (P : (VMOps -> list Value -> VM Value) -> Prop) :
  (forall f, (forall args, yields scalar (f args)) -> P (pure f)) ->
  Forall (fun f => P (onState f))
    [explode; explode_reversible; keys; values; m_indices; m_values; map_delete; copy; sizeofImpl;
     member_array; fetch_variable; store_variable] ->
  Forall (fun x => P (snd x)) valueEfuns.
Proof.
  intros Hp Hs. rewrite !list.Forall_cons in Hs. destruct_and! Hs.
  assert (forall args, yields scalar (set_bit args)) by apply yields_bits.
  assert (forall args, yields scalar (clear_bit args)) by apply yields_bits.
  assert (forall args, yields scalar (test_bit args)) by apply yields_bits.
  assert (forall args, yields scalar (next_bit args)) by apply yields_bits.
  unfold valueEfuns. rewrite !list.Forall_cons. cbn [snd]. split_and!; try done;
    try (apply Hp); auto using list.Forall_nil_2, yields_replace_string, yields_strsrch, yields_string_difference;
    intros args; apply yields_onString || apply yields_trimWith.
Qed.

(** ** Calm *)
Lemma calm_pure k f ops args : (forall args, yields scalar (f args)) -> calm k (pure f ops args).
Proof.
  intros Hf. apply calm_outcome. specialize (Hf args). by destruct (f args).
Qed.

Lemma calm_onVariable k msg name f : (forall o i, calm k (f o i)) -> calm k (onVariable msg name f).
Proof. intros Hf. unfold onVariable. calm_tac. Qed.

Lemma calm_containers k args :
  calm k (keys args) /\ calm k (values args) /\ calm k (m_indices args) /\ calm k (m_values args) /\
  calm k (map_delete args) /\ calm k (copy args) /\ calm k (sizeofImpl args) /\ calm k (member_array args).
Proof.
  unfold keys, m_indices, keysImpl, values, m_values, map_delete, copy, sizeofImpl, member_array, mappingAt, itemsOf.
  split_and!; cbn zeta; calm_tac.
Qed.

Lemma calm_strings k args : calm k (explode args) /\ calm k (explode_reversible args).
Proof. unfold explode, explode_reversible. split; calm_tac. Qed.

Lemma calm_variables k args : calm k (fetch_variable args) /\ calm k (store_variable args).
Proof. unfold fetch_variable, store_variable. split; calm_tac; apply calm_onVariable; calm_tac. Qed.

Lemma valueEfuns_calm : efuns_calm (H := tableOf valueEfuns).
Proof.
  unfold efuns_calm. apply (tableOf_all calmEfun valueEfuns), valueEfuns_cases.
  - intros f Hf ops k args _ _. by apply calm_pure.
  - assert (forall f, (forall k args, calm k (f args)) -> calmEfun (onState f)) as Hc by (intros f Hf ops k args _ _; apply Hf).
    rewrite !list.Forall_cons. split_and!; [..|done]; apply Hc; intros k args;
      apply calm_strings || apply calm_variables || apply calm_containers.
Qed.

(** They do not look at the interpreter at all. *)
Lemma valueEfuns_uniform name f : efunTable (EfunTable := tableOf valueEfuns) name = Some f -> uniformEfun f.
Proof.
  apply (tableOf_all uniformEfun valueEfuns), valueEfuns_cases.
  - intros g _ ops' ops args _. apply follows_refl.
  - repeat constructor; intros ops' ops args _; apply follows_refl.
Qed.

(** ** Typed *)
Lemma delete_lengths {A B} i (l : list A) (m : list B) :
  length l = length m -> length (delete i l) = length (delete i m).
Proof.
  intros E. rewrite !delete_take_drop, !length_app, !length_take, !length_drop. lia.
Qed.

Lemma eraseAt_ok h m i : mapping_ok h m -> mapping_ok h (eraseAt m i).
Proof.
  intros [[W1 W2 W3] He Hx]. unfold eraseAt. destruct (extraColumns m) as [|x xs] eqn:Ex.
  - split; cbn [entries width extraColumns set_field]; [split; cbn [entries width extraColumns set_field]|by apply Forall_delete|]; try (by rewrite ?Ex).
    intros Hw. destruct (W3 Hw) as [L _]. rewrite Ex. destruct (entries m); [|done]. split; [done|constructor].
  - split; [split|by apply Forall_delete|by apply Forall_delete]; cbn [entries width extraColumns set_field]; [done| |].
    + intros Hw. by specialize (W2 Hw).
    + intros Hw. destruct (W3 Hw) as [L F]. split; [by apply delete_lengths|by apply Forall_delete].
Qed.

Lemma eraseKey_ok h n key m i : mapping_ok h m -> mapping_ok h (eraseKey n i key m).
Proof.
  revert i m. induction n as [|n IH]; intros i m Hm; [done|]. cbn [eraseKey].
  destruct (entries m !! i) as [[k v]|]; [|done]. destruct (valuesEqual k key); auto using eraseAt_ok.
Qed.

Section TypedRules.
Context (h0 : heap).

Lemma tv_modify f :
  (forall s, state_ok s -> ext h0 (hp s) -> state_ok (f s) /\ ext (hp s) (hp (f s))) -> typedV h0 (mmodify f) nothing.
Proof. apply typed_modify. Qed.
Lemma tv_read {A} (f : VMState -> A) (Q : heap -> A -> Prop) :
  (forall s, state_ok s -> ext h0 (hp s) -> Q (hp s) (f s)) -> typedV h0 (mgets f) Q.
Proof. apply typed_gets. Qed.

Lemma tv_arrayOf l : values_ok h0 l -> typedV h0 (arrayOf l) value_ok.
Proof.
  intros Hl s Hs E. unfold arrayOf, allocH.
  pose proof (newArray_ok l (hp s) (state_heap _ Hs) (values_ok_ext E _ Hl)) as P.
  destruct (newArray l (hp s)) as [p h]. destruct P as (P1 & P2 & P3).
  split; [by apply state_ok_heap|done].
Qed.
Lemma tv_newMapping m : mapping_ok h0 m -> typedV h0 (allocH (newMapping m) (fun p => V (Map (Some p)))) value_ok.
Proof.
  intros Hl s Hs E. unfold allocH.
  pose proof (newMapping_ok m (hp s) (state_heap _ Hs) (mapping_ok_ext E _ Hl)) as P.
  destruct (newMapping m (hp s)) as [p h]. destruct P as (P1 & P2 & P3).
  split; [by apply state_ok_heap|done].
Qed.
Lemma tv_items a : data_ok h0 (Arr a) -> typedV h0 (Efuns.itemsOf a) values_ok.
Proof. intros Ha. apply tv_read. intros s Hs E. apply items_ok; [apply Hs|]. by eapply data_ok_ext. Qed.
Lemma tv_mappingAt l : data_ok h0 (Map l) -> typedV h0 (mappingAt l) mapping_ok.
Proof.
  intros Ha. apply tv_read. intros s Hs E. destruct l; [|by apply (empty_ok (hp s) 1)].
  apply mapping_at_ok; [apply Hs|]. by eapply data_ok_ext.
Qed.
End TypedRules.

Lemma newBuffer_ok b h : heap_ok h ->
  let '(p, h') := newBuffer b h in heap_ok h' /\ ext h h' /\ is_Some (buffers h' !! p).
Proof.
  intros [[B1 B2 B3 B4] W2 W3 W4]. cbn [newBuffer].
  assert (ext h (snd (newBuffer b h))) as E.
  { constructor; cbn; try done. intros q Hq. by apply is_Some_insert. }
  split; [|split; [exact E|cbn; rewrite lookup_insert_eq; by eexists]]. split.
  - split; cbn; intros q x Hx; try (eapply Pos.lt_trans; [eauto|lia]).
    apply lookup_insert_Some in Hx as [[<- _]|[_ Hx]]; [lia|]. eapply Pos.lt_trans; [eauto|lia].
  - intros q xs Hq. apply (values_ok_ext E). by eapply W2.
  - intros q m Hq. apply (mapping_ok_ext E). by eapply W3.
  - intros q c Hq. apply (closure_ok_ext E). by eapply W4.
Qed.

Section TypedEfuns.
Context (h0 : heap).
Local Hint Resolve tv_arrayOf tv_newMapping tv_items tv_mappingAt : typed.

Lemma strings_ok h l : values_ok h (strings l).
Proof. unfold strings. apply List.Forall_map, list.Forall_forall. done. Qed.

Lemma args_ok h args i v : values_ok h args -> args !! i = Some v -> value_ok h v.
Proof. intros H E. eapply values_ok_in; [exact H|]. by eapply list_elem_of_lookup_2. Qed.

Lemma argMap_ok h args l : values_ok h args -> argMap args = Some l -> data_ok h (Map l).
Proof.
  intros H E. destruct H as [|v args Hv _]; [done|]. cbn in E. unfold value_ok in Hv. destruct (data v); try done.
  by injection E as ->.
Qed.

Lemma tv_strings args : typedV h0 (explode args) value_ok /\ typedV h0 (explode_reversible args) value_ok.
Proof. unfold explode, explode_reversible. split; repeat case_match; auto using tv_arrayOf, strings_ok, tv_throw. Qed.

Lemma snd_values_ok h m : mapping_ok h m -> values_ok h (map snd (entries m)).
Proof. intros [_ He _]. apply List.Forall_map. eapply list.Forall_impl; [exact He|]. by intros ? []. Qed.

Lemma tv_keysImpl who args : values_ok h0 args -> typedV h0 (keysImpl who args) value_ok.
Proof.
  intros Ha. unfold keysImpl. destruct (argMap args) eqn:E; [|apply tv_throw].
  eapply tv_bind; [by eapply tv_mappingAt, argMap_ok|]. intros h m _ Hm. by apply tv_arrayOf, keys_values_ok.
Qed.
Lemma tv_values args : values_ok h0 args -> typedV h0 (values args) value_ok.
Proof.
  intros Ha. unfold values. destruct (argMap args) eqn:E; [|apply tv_throw].
  eapply tv_bind; [by eapply tv_mappingAt, argMap_ok|]. intros h m _ Hm. by apply tv_arrayOf, snd_values_ok.
Qed.
Lemma tv_m_values args : values_ok h0 args -> typedV h0 (m_values args) value_ok.
Proof.
  intros Ha. unfold m_values. cbn zeta. destruct (argMap args) eqn:E; [|apply tv_throw].
  repeat case_match; try apply tv_throw;
    (eapply tv_bind; [by eapply tv_mappingAt, argMap_ok|]; intros h m' _ Hm; case_match; [apply tv_throw|];
     apply tv_arrayOf, List.Forall_map, list.Forall_forall; intros; by apply getColumn_ok).
Qed.

Lemma tv_map_delete args : values_ok h0 args -> typedV h0 (map_delete args) value_ok.
Proof.
  intros Ha. unfold map_delete. destruct (argMap args) as [l|] eqn:E; [|apply tv_throw].
  destruct (args !! 1%nat) as [key|]; [|apply tv_throw]. apply (argMap_ok h0) in E; [|done].
  destruct l as [p|]; [|by apply tv_ret]. eapply tv_bind; [|by intros; apply tv_ret].
  apply tv_modify. intros s Hs Ex. apply (data_ok_ext Ex) in E. destruct E as [m Hm].
  assert (mapping_ok (hp s) m) as Hok by (eapply mappings_ok; [apply Hs|done]).
  destruct (setMapping_ok (hp s) p (eraseKey (length (entries m)) 0 key m) (state_heap _ Hs)) as [P1 P2];
    [by apply eraseKey_ok|by eexists|].
  set (f := fun m => eraseKey (length (entries m)) 0 key m).
  assert ((hp s) <| mappings ::= alter f p |> = (hp s) <| mappings ::= <[p := f m]> |>) as Ea.
  { assert (alter f p (mappings (hp s)) = <[p := f m]> (mappings (hp s))) as Em.
    { apply map_eq. intros q. rewrite lookup_alter, lookup_insert. case_decide; [subst q; by rewrite Hm|done]. }
    unfold set_field. cbn. by rewrite Em. }
  change (state_ok (s <| hp := (hp s) <| mappings ::= alter f p |> |>) /\ ext (hp s) ((hp s) <| mappings ::= alter f p |>)).
  rewrite Ea. split; [by apply state_ok_heap|done].
Qed.

Lemma tv_newBuffer b : typedV h0 (allocH (newBuffer b) (fun p => V (Buf (Some p)))) value_ok.
Proof.
  intros s Hs E. unfold allocH. pose proof (newBuffer_ok b (hp s) (state_heap _ Hs)) as P.
  destruct (newBuffer b (hp s)) as [p h]. destruct P as (P1 & P2 & P3). split; [by apply state_ok_heap|done].
Qed.

Lemma tv_copy args : values_ok h0 args -> typedV h0 (copy args) value_ok.
Proof.
  intros Ha. unfold copy. destruct Ha as [|v args Hv _]; [by apply tv_ret|].
  assert (typedV h0 (mret v) value_ok) as Hret by (apply tv_ret; intros; by eapply value_ok_ext).
  unfold value_ok in Hv. destruct (data v); try exact Hret.
  - eapply tv_bind; [by apply tv_items|]. intros. by apply tv_arrayOf.
  - eapply tv_bind; [by apply tv_mappingAt|]. intros. by apply tv_newMapping.
  - eapply tv_bind; [apply tv_gets|]. intros h b E _ s Hs E'. apply tv_newBuffer; [done|by etrans].
Qed.

Lemma tv_sizeofImpl args : typedV h0 (sizeofImpl args) value_ok.
Proof. unfold sizeofImpl. destruct args; [by apply tv_ret|]. by apply tv_read. Qed.

Lemma tv_member_array args : values_ok h0 args -> typedV h0 (member_array args) value_ok.
Proof.
  intros Ha. unfold member_array. cbn zeta. destruct Ha as [|needle args Hn Ha]; [apply tv_throw|].
  destruct Ha as [|hay args Hh _]; [apply tv_throw|]. unfold value_ok in Hh.
  case_match; [apply tv_throw|].
  destruct (data hay); try apply tv_throw; [destruct (data needle); try apply tv_throw; by apply tv_ret|].
  eapply tv_bind; [by apply tv_items|]. intros. by apply tv_ret.
Qed.

Lemma tv_onVariable msg name f :
  (forall h o i, ext h0 h -> typedV h (f o i) value_ok) -> typedV h0 (onVariable msg name f) value_ok.
Proof.
  intros Hf. unfold onVariable. eapply tv_bind; [apply tv_gets|]. intros h [o|] E _; [|apply tv_throw].
  eapply tv_bind; [apply tv_gets|]. intros h' names E' _. case_match; [|apply tv_throw]. apply Hf. by etrans.
Qed.

Lemma tv_variables args :
  values_ok h0 args -> typedV h0 (fetch_variable args) value_ok /\ typedV h0 (store_variable args) value_ok.
Proof.
  intros Ha. unfold fetch_variable, store_variable. split; [|destruct (argStr 0 args), (args !! 1%nat) as [v|] eqn:Ev; try apply tv_throw].
  - destruct (argStr 0 args); [|apply tv_throw]. apply tv_onVariable. intros h o i E.
    apply tv_read. intros s' Hs _. apply nthV_ok. unfold getOb. destruct (objects s' !! o) eqn:Eo; [|constructor].
    by eapply state_objects.
  - apply tv_onVariable. intros h o i E. apply (args_ok h0) in Ev; [|done]. apply (value_ok_ext E) in Ev.
    eapply tv_bind; [|by intros; apply tv_ret]. apply tv_modify. intros s' Hs E'. split; [|done].
    destruct Hs as [H1 H2 H3 H4]. split; try done. simpl. intros x ob.
    rewrite lookup_alter_Some. intros [(-> & y & Hy & ->)|[_ Hx]]; [|by eapply H2].
    simpl. apply insert_ok; [by eapply H2|]. by eapply value_ok_ext.
Qed.

Lemma tv_pure f ops args : (forall args, yields scalar (f args)) -> typedV h0 (pure f ops args) value_ok.
Proof.
  intros Hf. apply typed_lift. intros h E. specialize (Hf args). by destruct (f args) as [v|[]| |].
Qed.
End TypedEfuns.

Lemma valueEfuns_typed_all ops h args :
  values_ok h args -> Forall (fun x => typedV h (snd x ops args) value_ok) valueEfuns.
Proof.
  intros Ha. apply (valueEfuns_cases (fun f => typedV h (f ops args) value_ok)).
  - intros f Hf. by apply tv_pure.
  - rewrite !list.Forall_cons. unfold onState, keys, m_indices.
    destruct (tv_strings h args), (tv_variables h args Ha).
    split_and!; auto using tv_keysImpl, tv_values, tv_m_values, tv_map_delete, tv_copy, tv_sizeofImpl, tv_member_array.
Qed.

(** ** What an efun calls *)
Section TypedCalls.
Context (ops : VMOps) (Hrun : run_typed (op_run ops)).

Lemma tv_liftS {A} h0 (f : VMState -> outcome exn A) :
  (forall s, throws_closed (f s)) -> typedV h0 (liftS f) nothing.
Proof. intros Hf s Hs E. unfold liftS. specialize (Hf s). destruct (f s); by try split. Qed.

Lemma outermostShadow_throws fuel c t s : throws_closed (outermostShadow fuel c t s).
Proof. revert t. induction fuel as [|fuel IH]; intros t; [done|]. cbn. by repeat case_match. Qed.

Lemma tv_setOb h0 o f :
  (forall ob, variables (f ob) = variables ob) -> typedV h0 (mmodify (setOb o f)) nothing.
Proof.
  intros Hf. apply tv_modify. intros s Hs E. split; [|done]. destruct Hs as [H1 H2 H3 H4]. split; try done.
  simpl. intros x ob. rewrite lookup_alter_Some. intros [(-> & y & Hy & ->)|[_ Hx]]; [|by eapply H2].
  rewrite Hf. by eapply H2.
Qed.

Lemma tv_searchShadowed fuel name : forall h0 t, typedV h0 (searchShadowed fuel name t) nothing.
Proof.
  induction fuel as [|fuel IH]; intros h0 t; [by apply typed_lift|]. cbn.
  eapply tv_bind; [apply tv_gets|]. intros h p E _. eapply tv_bind; [apply tv_lookupFunction|]. intros h' [r|] E' _; [by apply tv_ret|].
  eapply tv_bind; [apply tv_gets|]. intros h2 [t'|] E2 _; [apply IH|by apply tv_ret].
Qed.

Lemma tv_touch h0 ticks o : typedV h0 (touchTimeOfRef ticks o) nothing.
Proof.
  intros s Hs E. unfold touchTimeOfRef. split; [|done]. destruct Hs as [H1 H2 H3 H4]. split; try done.
  simpl. intros x ob. rewrite lookup_alter_Some. intros [(-> & y & Hy & ->)|[_ Hx]]; [by eapply (H2 _ y)|by eapply H2].
Qed.

Lemma tv_callFunction h0 ticks o name args origin :
  values_ok h0 args -> typedV h0 (callFunction (op_run ops) ticks o name args origin) value_ok.
Proof using Hrun.
  intros Ha. unfold callFunction. destruct o as [o|]; [|by apply tv_ret].
  eapply tv_bind; [apply tv_gets|]. intros h [] E _; [by apply tv_ret|].
  eapply tv_bind; [by apply tv_setOb|]. intros h1 _ E1 _.
  eapply tv_bind; [apply tv_touch|]. intros h2 _ E2 _.
  eapply tv_bind; [apply tv_liftS; intros; apply outermostShadow_throws|]. intros h3 t E3 _.
  eapply tv_bind; [apply tv_gets|]. intros h4 n E4 _.
  eapply tv_bind; [apply tv_searchShadowed|]. intros h5 [[t' [p fn]]|] E5 _; [|by apply tv_ret].
  apply tv_withOrigin, Hrun. by rebase.
Qed.
End TypedCalls.


Lemma tv_evalArgs eval xs : forall h0,
  values_ok h0 xs -> (forall h x, ext h0 h -> value_ok h x -> typedV h (eval x) value_ok) ->
  typedV h0 (evalArgs eval xs) values_ok.
Proof.
  induction xs as [|x xs IH]; intros h0 Hx He; [apply tv_ret; constructor|]. inversion_clear Hx. cbn.
  eapply tv_bind; [by apply He|]. intros h v E Hv.
  eapply tv_bind; [apply IH; [by eapply values_ok_ext|]|].
  - intros h' y E' Hy. apply He; [by etrans|done].
  - intros h' vs E' Hvs. apply tv_ret. intros h2 E2. rebase. by constructor.
Qed.

Lemma paramValue_ok h params vals name v : values_ok h vals -> paramValue params vals name = Some v -> value_ok h v.
Proof.
  revert params. induction vals as [|x vals IH]; intros [|p params] Hv; cbn; try done. inversion_clear Hv.
  destruct (String.eqb p name); [by intros [= <-]|by apply IH].
Qed.

Section TypedClosures.
Context `{EfunTable} (ops : VMOps) (Hrun : run_typed (op_run ops)) (Hefuns : efuns_typed).

Definition call_typed (call : loc -> list Value -> VM Value) : Prop :=
  forall h p args, data_ok h (Fun (Some p)) -> values_ok h args -> typedV h (call p args) value_ok.

Lemma tv_evalNode call fuel params : call_typed call -> forall h0 node vals,
  value_ok h0 node -> values_ok h0 vals -> typedV h0 (evalQuotedLambdaNode call fuel node params vals) value_ok.
Proof using.
  intros Hcall. induction fuel as [|fuel IH]; intros h0 node vals Hn Hv; [by apply typed_lift|]. cbn [evalQuotedLambdaNode].
  assert (typedV h0 (mret node) value_ok) as Hret by (apply tv_ret; intros; by eapply value_ok_ext).
  assert (Hn' := Hn). unfold value_ok in Hn'. destruct (data node) as [| | | | |name| |a| | |]; try exact Hret.
  - destruct (paramValue params vals name) as [v|] eqn:Ep; [|apply tv_throw].
    apply (paramValue_ok h0) in Ep; [|done]. apply tv_ret. intros h E. by eapply value_ok_ext.
  - eapply tv_bind; [by apply (tv_items h0 a)|]. intros h its E Hits. destruct Hits as [|hd rest Hhd Hrest]; [apply tv_throw|].
    assert (Hhd' := Hhd). unfold value_ok in Hhd'. destruct (data hd) as [| | | | | | | | |[c|]|]; try apply tv_throw.
    rebase. eapply tv_bind; [apply (tv_evalArgs _ rest h Hrest)|].
    + intros h1 x E1 Hx. apply IH; [done|]. by eapply values_ok_ext.
    + intros h1 xs E1 Hxs. rebase. by apply Hcall.
Qed.

Lemma tv_efunCall h0 name args : values_ok h0 args -> typedV h0 (efun_call ops name args) value_ok.
Proof using Hrun Hefuns.
  intros Ha. unfold efun_call. destruct (efunTable name) eqn:E; [by eapply Hefuns|apply tv_throw].
Qed.

Lemma tv_closure h0 p : data_ok h0 (Fun (Some p)) -> typedV h0 (mgets (fun s => closure (hp s) p)) closure_ok.
Proof using. intros Hp. apply tv_read. intros s Hs E. apply closure_at_ok; [apply Hs|]. by eapply data_ok_ext. Qed.

Lemma resizeArgs_ok h n l : values_ok h l -> values_ok h (resizeArgs n l).
Proof using. intros Hl. apply app_ok; [by apply Forall_take|by apply Forall_replicate]. Qed.

(** A named closure: a function of the owner, a simul efun, then an efun. *)
Lemma tv_named h0 o name args :
  values_ok h0 args ->
  typedV h0 (pr <- mgets (fun s => programOf s o) ;;
             found <- lookupFunction pr name ;;
             match found with
             | Some (p, fn) =>
                 withOrigin (if isSynthesizedLambdaName (fname fn) then Functional else Local) (op_run ops p fn args o)
             | None =>
                 simul <- mgets simulEfunOb ;;
                 simulFound <- match simul with
                               | None => mret None
                               | Some so =>
                                   sp <- mgets (fun s => programOf s so) ;;
                                   r <- lookupFunction sp name ;;
                                   mret ((fun x => (so, x)) <$> r)
                               end ;;
                 match simulFound with
                 | Some (so, (p, fn)) => withOrigin SimulEfun (op_run ops p fn args so)
                 | None =>
                     if efun_exists name then withObjectFrame (Some o) (efun_call ops name args)
                     else throwRuntime ("evaluate(): undefined function or efun: " +:+ name)
                 end
             end) value_ok.
Proof using Hrun Hefuns.
  intros Ha. eapply tv_bind; [apply tv_gets|]. intros h pr E _.
  eapply tv_bind; [apply tv_lookupFunction|]. intros h1 [[p fn]|] E1 _; [apply tv_withOrigin, Hrun; by rebase|].
  eapply tv_bind; [apply tv_gets|]. intros h2 simul E2 _. eapply tv_bind; [|intros h3 [[so [p fn]]|] E3 _].
  - instantiate (1 := nothing). destruct simul as [so|]; [|by apply tv_ret].
    eapply tv_bind; [apply tv_gets|]. intros h3 sp E3 _. eapply tv_bind; [apply tv_lookupFunction|]. intros. by apply tv_ret.
  - apply tv_withOrigin, Hrun. by rebase.
  - case_match; [|apply tv_throw]. apply tv_withObjectFrame, tv_efunCall. by rebase.
Qed.

Lemma tv_callClosure fuel : forall h0 l args,
  data_ok h0 (Fun l) -> values_ok h0 args -> typedV h0 (callClosure (op_run ops) ops fuel l args) value_ok.
Proof using Hrun Hefuns.
  induction fuel as [|fuel IH]; intros h0 l args Hl Ha; [by apply typed_lift|]. cbn [callClosure].
  destruct l as [p|]; [|apply tv_throw]. eapply tv_bind; [by apply tv_closure|]. intros h c E [Hb Hbody].
  apply (values_ok_ext E) in Ha. clear E Hl. case_match; [apply tv_throw|].
  eapply tv_bind; [apply tv_gets|]. intros h1 [o|] E1 _; [|apply tv_throw]. cbn zeta.
  assert (values_ok h1 (boundArgs c ++ args)) as Hargs by (rebase; by apply app_ok).
  apply (value_ok_ext E1) in Hbody. case_match.
  - apply tv_evalNode; [|done|by apply resizeArgs_ok]. intros h2 q args' Hq Hargs'. by apply IH.
  - case_match; [case_match; [apply tv_throw|by apply tv_withObjectFrame, tv_efunCall]|]. by apply tv_named.
Qed.

Lemma tv_foldItems n c a : forall h0 i acc,
  data_ok h0 (Arr a) -> data_ok h0 (Fun c) -> value_ok h0 acc -> typedV h0 (foldItems ops n i a c acc) value_ok.
Proof using Hrun Hefuns.
  induction n as [|n IH]; intros h0 i acc Ha Hc Hacc; cbn [foldItems].
  - apply tv_ret. intros h E. by eapply value_ok_ext.
  - eapply tv_bind; [by apply tv_items|]. intros h its E Hits. destruct c as [c|]; [|by apply tv_ret]. rebase.
    eapply tv_bind; [apply tv_callClosure; [done|]|].
    + repeat constructor; [done|by apply nthV_ok].
    + intros h1 v E1 Hv. rebase. by apply IH.
Qed.

Lemma nth_arg_ok h args i d : values_ok h args -> data (nthV i args) = d -> data_ok h d.
Proof using. intros Ha <-. by apply (nthV_ok h args i). Qed.

Lemma tv_implode h0 args : values_ok h0 args -> typedV h0 (implode ops args) value_ok.
Proof using Hrun Hefuns.
  intros Ha. unfold implode. cbn zeta. case_match; [apply tv_throw|].
  destruct (data (nthV 0 args)) as [| | | | | | |a| | |] eqn:E0; try apply tv_throw. apply (nth_arg_ok h0) in E0; [|done].
  eapply tv_bind; [by apply (tv_items h0 a)|]. intros h its E Hits.
  destruct (data (nthV 1 args)) as [| | | |sep| | | | |c|] eqn:E1; try apply tv_throw.
  - case_match; [apply tv_throw|by apply tv_ret].
  - apply (nth_arg_ok h0) in E1; [|done]. rebase. case_match; [apply tv_foldItems; [done|done|by apply nthV_ok]|].
    destruct Hits as [|x its Hx Hits]; [by apply tv_ret|by apply tv_foldItems].
Qed.

(** A callback, called on elements of the array. *)
Definition fun_typed (h0 : heap) (f : list Value -> VM Value) : Prop :=
  forall h vs, ext h0 h -> values_ok h vs -> typedV h (f vs) value_ok.

Lemma callback_ok h0 who args : values_ok h0 args ->
  match callback ops who args with
  | Ok (Some f) => fun_typed h0 f
  | Ok None => True
  | Throw e => forall h, exn_ok h e
  | _ => True
  end.
Proof using Hrun Hefuns.
  intros Ha. unfold callback. destruct (data (nthV 1 args)) as [| | | |f| | | | |c|] eqn:E1; try done.
  - destruct (args !! 2%nat) as [v|] eqn:E2; [|done]. destruct (data v) as [| | | | | |o| | | |]; try done.
    intros h vs E Hvs. apply tv_callFunction; [done|]. apply app_ok; [done|]. by apply Forall_drop, (values_ok_ext E).
  - destruct c as [c|]; [|done]. intros h vs E Hvs. apply tv_callClosure.
    + apply (data_ok_ext E). by apply (nth_arg_ok h0 args 1).
    + apply app_ok; [done|]. by apply Forall_drop, (values_ok_ext E).
Qed.

Lemma fun_typed_ext h h' f : ext h h' -> fun_typed h f -> fun_typed h' f.
Proof using. intros E Hf h2 vs E2. apply Hf. by etrans. Qed.

Lemma tv_mapItems n a f : forall h0 i,
  data_ok h0 (Arr a) -> fun_typed h0 f -> typedV h0 (mapItems n i a f) values_ok.
Proof using.
  induction n as [|n IH]; intros h0 i Ha Hf; cbn [mapItems]; [apply tv_ret; constructor|].
  eapply tv_bind; [by apply tv_items|]. intros h its E Hits. apply (data_ok_ext E) in Ha. apply (fun_typed_ext _ _ _ E) in Hf.
  eapply tv_bind; [apply Hf; [done|by repeat constructor; apply nthV_ok]|]. intros h1 y E1 Hy.
  apply (data_ok_ext E1) in Ha. apply (fun_typed_ext _ _ _ E1) in Hf.
  eapply tv_bind; [by apply IH|]. intros h2 ys E2 Hys. apply tv_ret. intros h3 E3. rebase. by constructor.
Qed.

Lemma tv_filterItems n a f : forall h0 i,
  data_ok h0 (Arr a) -> fun_typed h0 f -> typedV h0 (filterItems n i a f) values_ok.
Proof using.
  induction n as [|n IH]; intros h0 i Ha Hf; cbn [filterItems]; [apply tv_ret; constructor|].
  eapply tv_bind; [by apply tv_items|]. intros h its E Hits. apply (data_ok_ext E) in Ha. apply (fun_typed_ext _ _ _ E) in Hf.
  eapply tv_bind; [apply Hf; [done|by repeat constructor; apply nthV_ok]|]. intros h1 y E1 Hy.
  apply (data_ok_ext E1) in Ha. apply (fun_typed_ext _ _ _ E1) in Hf.
  eapply tv_bind; [by apply tv_items|]. intros h2 its' E2 Hits'. apply (data_ok_ext E2) in Ha. apply (fun_typed_ext _ _ _ E2) in Hf.
  eapply tv_bind; [by apply IH|]. intros h3 ys E3 Hys. apply tv_ret. intros h4 E4. rebase.
  destruct (isTruthy y); [|done]. constructor; [by apply nthV_ok|done].
Qed.

Lemma tv_overArray h0 who loop args :
  (forall h n i a f, data_ok h (Arr a) -> fun_typed h f -> typedV h (loop n i a f) values_ok) ->
  values_ok h0 args -> typedV h0 (overArray ops who loop args) value_ok.
Proof using Hrun Hefuns.
  intros Hloop Ha. unfold overArray. cbn zeta. case_match; [apply tv_throw|].
  destruct (data (nthV 0 args)) as [| | | | | | |a| | |] eqn:E0; try apply tv_throw. apply (nth_arg_ok h0) in E0; [|done].
  destruct a as [a|]; [|apply tv_arrayOf; constructor].
  eapply tv_bind.
  - apply (typed_lift _ _ _ _ (fun h o => match o with Some f => fun_typed h f | None => True end)). intros h E.
    pose proof (callback_ok h0 who args Ha) as C. destruct (callback ops who args) as [[f|]|e| |]; try done.
    by eapply fun_typed_ext.
  - intros h [f|] E Hf; [|apply tv_arrayOf; constructor]. apply (data_ok_ext E) in E0.
    eapply tv_bind; [by apply tv_items|]. intros h1 its E1 _. apply (data_ok_ext E1) in E0. apply (fun_typed_ext _ _ _ E1) in Hf.
    eapply tv_bind; [by apply Hloop|]. intros h2 ys E2 Hys. by apply tv_arrayOf.
Qed.

Lemma tv_classify h0 classifier item :
  value_ok h0 classifier -> value_ok h0 item ->
  typedV h0 (classify ops classifier item) (fun h o => match o with Some k => value_ok h k | None => True end).
Proof using Hrun Hefuns.
  intros Hc Hi. unfold classify. unfold value_ok in Hc.
  destruct (data classifier) as [| | | |f| | | | |c|]; try by apply tv_ret.
  - destruct (data item) as [| | | | | |[o|]| | | |]; try by apply tv_ret.
    eapply tv_bind; [apply tv_callFunction; [done|constructor]|]. intros h k E Hk. apply tv_ret. intros h1 E1. by eapply value_ok_ext.
  - destruct c as [c|]; [|by apply tv_ret]. eapply tv_bind; [apply tv_callClosure; [done|by repeat constructor]|].
    intros h k E Hk. apply tv_ret. intros h1 E1. by eapply value_ok_ext.
Qed.

Definition groups_ok (h : heap) (groups : list (list Value)) : Prop := Forall (values_ok h) groups.
Lemma groups_ok_ext h h' g : ext h h' -> groups_ok h g -> groups_ok h' g.
Proof using. intros E Hg. eapply list.Forall_impl; [exact Hg|]. intros. by eapply values_ok_ext. Qed.

Lemma addToGroup_ok h key item keys groups :
  value_ok h item -> groups_ok h groups -> groups_ok h (snd (addToGroup key item keys groups)).
Proof using.
  intros Hi Hg. unfold addToGroup. case_match; cbn.
  - apply Forall_alter; [done|]. intros g _ Hgi. apply app_ok; [done|by repeat constructor].
  - apply Forall_app. split; [done|by repeat constructor].
Qed.

Lemma tv_groupItems n a classifier skip : forall h0 i keys groups,
  data_ok h0 (Arr a) -> value_ok h0 classifier -> groups_ok h0 groups ->
  typedV h0 (groupItems ops n i a classifier skip keys groups) groups_ok.
Proof using Hrun Hefuns.
  induction n as [|n IH]; intros h0 i keys groups Ha Hc Hg; cbn [groupItems].
  { apply tv_ret. intros h E. by eapply groups_ok_ext. }
  eapply tv_bind; [by apply tv_items|]. intros h its E Hits. apply (groups_ok_ext _ _ _ E) in Hg. rebase.
  eapply tv_bind; [apply tv_classify; [done|by apply nthV_ok]|]. intros h1 key E1 Hk. apply (groups_ok_ext _ _ _ E1) in Hg. rebase.
  eapply tv_bind; [by apply tv_items|]. intros h2 its' E2 Hits'. apply (groups_ok_ext _ _ _ E2) in Hg. rebase.
  destruct key as [k|]; [|by apply IH]. destruct (valuesEqual k skip); [by apply IH|].
  pose proof (addToGroup_ok h2 k (nthV i its') keys groups (nthV_ok _ _ _ Hits') Hg) as G.
  destruct (addToGroup k (nthV i its') keys groups) as [ks gs]. by apply IH.
Qed.

Lemma tv_arraysOf groups : forall h0, groups_ok h0 groups -> typedV h0 (arraysOf groups) values_ok.
Proof using.
  induction groups as [|g gs IH]; intros h0 Hg; [apply tv_ret; constructor|]. inversion_clear Hg. cbn [arraysOf].
  eapply tv_bind; [by apply tv_arrayOf|]. intros h v E Hv. eapply tv_bind; [by apply IH, (groups_ok_ext _ _ _ E)|].
  intros h1 vs E1 Hvs. apply tv_ret. intros h2 E2. rebase. by constructor.
Qed.

Lemma tv_unique_array h0 args : values_ok h0 args -> typedV h0 (unique_array ops args) value_ok.
Proof using Hrun Hefuns.
  intros Ha. unfold unique_array. cbn zeta. case_match; [apply tv_throw|].
  destruct (data (nthV 0 args)) as [| | | | | | |a| | |] eqn:E0; try apply tv_throw. apply (nth_arg_ok h0) in E0; [|done].
  eapply tv_bind; [by apply (tv_items h0 a)|]. intros h its E _. rebase. case_match; [apply tv_arrayOf; constructor|].
  assert (forall skip, typedV h (groups <- groupItems ops (length its) 0 a (nthV 1 args) skip [] [] ;;
                                 vs <- arraysOf groups ;; arrayOf vs) value_ok) as G.
  { intros skip. eapply tv_bind; [apply tv_groupItems; [done|by apply nthV_ok|constructor]|]. intros h1 g E1 Hg.
    eapply tv_bind; [by apply tv_arraysOf|]. intros h2 vs E2 Hvs. by apply tv_arrayOf. }
  destruct (data (nthV 1 args)); try apply tv_throw; apply G.
Qed.

Lemma callbackEfuns_typed_all h args :
  values_ok h args -> Forall (fun x => typedV h (snd x ops args) value_ok) (callbackEfuns _).
Proof using Hrun Hefuns.
  intros Ha. unfold callbackEfuns. rewrite !list.Forall_cons. unfold mapArrayImpl, filterArrayImpl.
  assert (typedV h (overArray ops "map_array" mapItems args) value_ok).
  { apply tv_overArray; [|done]. intros. by apply tv_mapItems. }
  assert (typedV h (overArray ops "filter_array" filterItems args) value_ok).
  { apply tv_overArray; [|done]. intros. by apply tv_filterItems. }
  split_and!; try done; by (apply tv_implode || apply tv_unique_array).
Qed.
End TypedClosures.

(** The table of these efuns.  A closure over an efun that an efun calls finds
    it in the same table; here it finds it in the table one level down. *)
Fixpoint nestedTable (n : nat) : EfunTable :=
  match n with
  | O => tableOf (limitEfuns ++ valueEfuns)
  | S n' => tableOf (limitEfuns ++ valueEfuns ++ callbackEfuns (nestedTable n'))
  end.

Lemma tv_evalLimit h x : typedV h (evalLimitDispatch x) value_ok.
Proof.
  intros s Hs E. pose proof (evalLimitDispatch_state x s) as Es.
  assert (yields scalar (fst (evalLimitDispatch x s)) \/ exists w, fst (evalLimitDispatch x s) = Undefined w) as Ey.
  { unfold evalLimitDispatch. destruct (x =? 0); [by left|]. destruct (x =? -1); [|by destruct (x =? 1); left].
    unfold mbind, mlift, mgets, checked64. destruct (in_int64 _); [by left|right; by eexists]. }
  destruct (evalLimitDispatch x s) as [r s']. cbn [fst snd] in *. subst s'.
  assert (state_ok (limited x s)) as Ho by by destruct Hs.
  destruct Ey as [Ey|[w ->]]; [|done]. by destruct r as [v|[]| |].
Qed.

Lemma limitEfuns_typed_all h ops args : Forall (fun x => typedV h (snd x ops args) value_ok) limitEfuns.
Proof.
  unfold limitEfuns, set_eval_limit. rewrite !list.Forall_cons. cbn [snd]. split_and!; try apply tv_evalLimit; [|done].
  destruct (limitArg args); [apply tv_evalLimit|apply tv_throw].
Qed.

(** C30: the efuns of Efuns.v and EvalLimit.v keep what [VM::run] asks of its efun
    table.  Those over strings, containers, bit fields and object variables end,
    with the call stacks as they were and no evaluation budget given back,
    whatever they are passed.  They, the efuns over the budget, and those that
    call closures ([implode], [map], [filter], [unique_array]), however deep one
    inside the other, leave every array, mapping and variable well typed, error
    or not, and return a well-typed value when the interpreter they call does.
    (Of the efuns that call closures, and of those that save, restore and open
    files, the first part is not claimed: a closure may loop, and so may
    [restore_variable].) *)
Theorem efuns_contract :
  efuns_calm (H := tableOf valueEfuns) /\ forall n, efuns_typed (H := nestedTable n).
Proof.
  split; [exact valueEfuns_calm|]. induction n as [|n IH]; intros name f ops h args Hf Hrun Ha; revert name f Hf;
    apply (tableOf_all (fun f => typedV h (f ops args) value_ok)); rewrite !Forall_app;
    split_and?; auto using limitEfuns_typed_all, valueEfuns_typed_all, callbackEfuns_typed_all.
Qed.

(** ** When runs of this table end *)

(** The efuns over the budget; all four take the number that clears the cost. *)
Definition overBudget (name : string) : bool := is_some (findEfun name limitEfuns).
Definition budgetTable : EfunTable := tableOf (limitEfuns ++ valueEfuns).

Lemma findEfun_app name l1 l2 :
  findEfun name (l1 ++ l2) = match findEfun name l1 with Some f => Some f | None => findEfun name l2 end.
Proof. induction l1 as [|[n f] l1 IH]; [done|]. cbn. by destruct (String.eqb n name). Qed.

Lemma budgetTable_disciplined name f :
  overBudget name = false -> efunTable (EfunTable := budgetTable) name = Some f -> calmEfun f /\ uniformEfun f.
Proof.
  unfold overBudget, budgetTable, tableOf, efunTable. rewrite findEfun_app. destruct (findEfun name limitEfuns); [done|].
  intros _ E. split; [by apply (valueEfuns_calm name)|by apply (valueEfuns_uniform name)].
Qed.

(** With fuel above the budget, the program that resets its cost is still running
    when the fuel is spent, and it is cut short at the efun that resets it; the
    program that does not ends. *)
Lemma run_terminates_witness :
  let go T pr := run (H := T) noTicks 20 1%positive mainFn [] 1%positive (worldOf pr 5) in
  let cut := stopAt overBudget budgetTable in
  fst (go cut resetProgram) = Undefined stopMark /\ fst (go budgetTable resetProgram) = OutOfFuel /\
  fst (go budgetTable spinProgram) <> OutOfFuel /\ fst (go cut spinProgram) <> Undefined stopMark.
Proof.
  intros go cut. split; [vm_compute; reflexivity|]. split; [vm_compute; reflexivity|].
  assert (fst (go cut spinProgram) <> Undefined stopMark) as N by (vm_compute; discriminate).
  split; [|exact N].
  destruct (run_terminates (H := budgetTable) noTicks overBudget 20 1%positive mainFn [] 1%positive (worldOf spinProgram 5))
    as [H1 [H2|H2]].
  - exact budgetTable_disciplined.
  - apply worldOf_acyclic. reflexivity.
  - vm_compute. lia.
  - exact (False_ind _ (N H2)).
  - unfold go. rewrite H2. exact H1.
Defined.
