(* ===== verification/Sprintf.v ===== *)
(** * Sprintf: formatted text

    [sprintf] of src/efun/EfunTable.cpp and [valueToDebugString], its "%O".  The
    position in the format is what is left of it, and the arguments not yet used
    are a list.  Field sizes are 32-bit integers; the length of a string is
    taken to fit one.  [query_num] spells a number in words. *)
From S2P Require Import Prelude CLib Double Value Bytecode Lookup Machine Calls Preprocess ObjectManager Paths Files Efuns.
From Stdlib Require Import Floats.SpecFloat.
Local Open Scope Z_scope.

Definition slenZ (s : string) : Z := Z.of_nat (String.length s).
Definition spacesZ (n : Z) : string := spaces (Z.to_nat n).

(** ** valueToDebugString

    The indent goes up with the nesting of arrays and mappings, and 20 is the
    end of it; [fuel] bounds the nesting of bound arguments of closures. *)
Section Debug.
Context (s : VMState).

(** Each item with its separator; [sep] is told whether it is the last. *)
Fixpoint debugItems (text : Value -> outcome exn string) (pad : string) (l : list Value) : outcome exn string :=
  match l with
  | [] => Ok ""
  | v :: l' =>
      let! t := text v in
      let! r := debugItems text pad l' in
      Ok (pad +:+ "  " +:+ t +:+ (match l' with [] => "" | _ => "," end) +:+ str1 NL +:+ r)
  end.

Fixpoint debugEntries (key value : Value -> outcome exn string) (pad : string) (l : list (Value * Value))
    : outcome exn string :=
  match l with
  | [] => Ok ""
  | (k, v) :: l' =>
      let! tk := key k in
      let! tv := value v in
      let! r := debugEntries key value pad l' in
      Ok (pad +:+ "  " +:+ tk +:+ " : " +:+ tv +:+ "," +:+ str1 NL +:+ r)
  end.

Fixpoint debugBound (text : Value -> outcome exn string) (l : list Value) : outcome exn string :=
  match l with
  | [] => Ok ""
  | v :: l' => let! t := text v in let! r := debugBound text l' in Ok (", " +:+ t +:+ r)
  end.

Definition sizeofComment (n : nat) : string := " /* sizeof() == " +:+ to_string (Z.of_nat n) +:+ " */" +:+ str1 NL.

Fixpoint valueToDebugString (fuel : nat) (v : Value) (indent : Z) : outcome exn string :=
  match fuel with
  | O => OutOfFuel
  | S f =>
      if 20 <? indent then Ok "..." else
      let pad := spacesZ indent in
      match data v with
      | Monostate => Ok "0"
      | Int i => Ok (to_string i)
      | Dbl d => Ok (stake 63 (Dbl.printf_f d))
      | Str t => Ok (str1 DQUOTE +:+ t +:+ str1 DQUOTE)
      | Obj o =>
          match o with
          | Some ob => if isDestructed s ob then Ok "0" else Ok ("/" +:+ fileOf s ob)
          | None => Ok "0"
          end
      | Arr a =>
          match (match a with Some p => items (hp s) p | None => [] end) with
          | [] => Ok "({ })"
          | its =>
              let! body := debugItems (fun x => valueToDebugString f x (indent + 2)) pad its in
              Ok ("({" +:+ sizeofComment (length its) +:+ body +:+ pad +:+ "})")
          end
      | Map m =>
          match (match m with Some p => entries (mapping (hp s) p) | None => [] end) with
          | [] => Ok "([ ])"
          | es =>
              let! body := debugEntries (fun x => valueToDebugString f x (indent + 2))
                             (fun x => valueToDebugString f x (indent + 4)) pad es in
              Ok ("([" +:+ sizeofComment (length es) +:+ body +:+ pad +:+ "])")
          end
      | Fun c =>
          match c with
          | None => Ok "(: :)"
          | Some p =>
              let cl := closure (hp s) p in
              let! body := debugBound (fun x => valueToDebugString f x indent) (boundArgs cl) in
              Ok ("(: " +:+ functionName cl +:+ body +:+ " :)")
          end
      | Buf _ => Ok "<buffer>"
      | NilV | Sym _ => Ok "!ERROR: GARBAGE SVALUE!"
      end
  end.
End Debug.

(** ** The modifiers of a field *)
Record Flags := mkFlags {
  leftJustify : bool;
  centreJustify : bool;
  colonMode : bool;
  colMode : bool;
  plusFlag : bool;
  spaceFlag : bool
}.
#[export] Instance eta_Flags : Eta Flags := fun f =>
  {| leftJustify := leftJustify f; centreJustify := centreJustify f; colonMode := colonMode f;
     colMode := colMode f; plusFlag := plusFlag f; spaceFlag := spaceFlag f |}.
Definition noFlags : Flags := mkFlags false false false false false false.

Definition setFlag (c : ascii) (f : Flags) : option Flags :=
  if Ascii.eqb c "-" then Some (f <| leftJustify := true |>)
  else if Ascii.eqb c "|" then Some (f <| centreJustify := true |>)
  else if Ascii.eqb c "=" then Some (f <| colMode := true |>)
  else if Ascii.eqb c "+" then Some (f <| plusFlag := true |>)
  else if Ascii.eqb c " " then Some (f <| spaceFlag := true |>)
  else if Ascii.eqb c ":" then Some (f <| colonMode := true |>)
  else None.

Fixpoint modifiers (s : string) (f : Flags) : Flags * string :=
  match s with
  | String c r => match setFlag c f with Some f' => modifiers r f' | None => (f, s) end
  | EmptyString => (f, s)
  end.

(** [n = n * 10 + digit] over the digits ahead, in an [int]. *)
Fixpoint digitsOf (s : string) (n : Z) : outcome exn (Z * string) :=
  match s with
  | String c r =>
      if isdigit c then let! n' := checked32 (n * 10 + (ord c - 48)) in digitsOf r n' else Ok (n, s)
  | EmptyString => Ok (n, s)
  end.

(** The field is parsed to its flags, zero padding, field size and precision. *)
Record Field := mkField {
  flags : Flags;
  zeroPad : bool;
  fieldWidth : option Z;
  precision : option Z
}.

(** [Some n] when a size is given by digits: [haveWidth]. *)
Definition numberAt (s : string) : outcome exn (option Z * string) :=
  if isdigit (char_at s 0) then let! r := digitsOf s 0 in Ok (Some (fst r), snd r) else Ok (None, s).

Definition starArg (msg : string) (args : list Value) : outcome exn (Z * list Value) :=
  match args with
  | v :: args' =>
      match data v with Int n => Ok (Z.max 0 (wrap32 n), args') | _ => badArgs msg end
  | [] => badArgs msg
  end.

Definition fieldSize (s : string) (args : list Value) : outcome exn (bool * option Z * string * list Value) :=
  if Ascii.eqb (char_at s 0) "*" then
    let! r := starArg "sprintf: '*' field width argument is not an int" args in
    Ok (false, Some (fst r), sdrop 1 s, snd r)
  else
    let zero := Ascii.eqb (char_at s 0) "0" in
    if zero && Ascii.eqb (char_at s 1) "*" then
      badArgs "sprintf: zero-padded dynamic field width ('%0*') is not implemented"
    else
      let! r := numberAt s in
      Ok (zero, fst r, snd r, args).

Definition precisionOf (s : string) (args : list Value) : outcome exn (option Z * string * list Value) :=
  if negb (Ascii.eqb (char_at s 0) ".") then Ok (None, s, args) else
  let s := sdrop 1 s in
  if Ascii.eqb (char_at s 0) "*" then
    let! r := starArg "sprintf: '.*' precision argument is not an int" args in
    Ok (Some (fst r), sdrop 1 s, snd r)
  else
    let! r := numberAt s in
    match fst r with
    | Some _ => Ok (fst r, snd r, args)
    | None => badArgs "sprintf: expected precision digits after '.'"
    end.

(** What follows the '%', up to the specifier. *)
Definition parseField (s : string) (args : list Value) : outcome exn (Field * string * list Value) :=
  let '(f, s1) := modifiers s noFlags in
  let! r := fieldSize s1 args in
  let '(zero, width, s2, args2) := r in
  let! q := precisionOf s2 args2 in
  let '(prec, s3, args3) := q in
  Ok (mkField f zero width prec, s3, args3).

(** ** The text of an argument *)
Definition sprintfNumericArg (v : Value) : option Z :=
  match data v with Int n => Some n | Monostate => Some 0 | _ => None end.

Fixpoint baseDigits (fuel : nat) (base n : Z) (acc : string) : string :=
  match fuel with
  | O => acc
  | S f =>
      let d := n mod base in
      let acc' := String (chr (if d <? 10 then 48 + d else 87 + d)) acc in
      if n <? base then acc' else baseDigits f base (n / base) acc'
  end.
(** [snprintf("%llo")] and [snprintf("%llx")]: 64 bits, unsigned. *)
Definition printUnsigned (base n : Z) : string := baseDigits 22 base (n mod 2 ^ 64) "".

(** [snprintf("%+lld")] and [snprintf("% lld")] *)
Definition signed (f : Flags) (n : Z) : string :=
  if n <? 0 then to_string n
  else if plusFlag f then String "+" (to_string n)
  else if spaceFlag f then String " " (to_string n)
  else to_string n.

(** [printf("%.{p}f", d)] of a number without its sign. *)
Definition unsignedFloat (p : Z) (d : double) : string :=
  match d with
  | S754_nan => "nan"
  | S754_infinity _ => "inf"
  | S754_zero _ => "0." +:+ Dbl.left_pad (Z.to_nat p) ""
  | S754_finite _ m e =>
      let q := Dbl.scaled_round (Zpos m) e p in
      digits (q / 10 ^ p) +:+ "." +:+ Dbl.left_pad (Z.to_nat p) (digits (q mod 10 ^ p))
  end.
Definition negative (d : double) : bool :=
  match d with S754_zero b | S754_infinity b | S754_finite b _ _ => b | S754_nan => false end.
Definition printFloat (f : Flags) (prec : option Z) (d : double) : string :=
  let p := match prec with Some p => if 0 <? p then Z.min p 128 else 6 | None => 6 end in
  (if negative d then "-" else if plusFlag f then "+" else if spaceFlag f then " " else "")
  +:+ unsignedFloat p d.

Section Sprintf.
Context (s : VMState) (debugFuel : nat).

Definition withNumber (spec : string) (v : Value) (k : Z -> string) : outcome exn string :=
  match sprintfNumericArg v with
  | Some n => Ok (k n)
  | None => badArgs ("sprintf: %" +:+ spec +:+ " argument is not an int")
  end.

Definition pieceOf (f : Field) (spec : ascii) (v : Value) : outcome exn string :=
  if Ascii.eqb spec "s" then
    match data v with Str t => Ok t | _ => badArgs "sprintf: %s argument is not a string" end
  else if Ascii.eqb spec "d" || Ascii.eqb spec "i" then withNumber "d" v (signed (flags f))
  else if Ascii.eqb spec "o" then withNumber "o" v (printUnsigned 8)
  else if Ascii.eqb spec "x" then withNumber "x" v (printUnsigned 16)
  else if Ascii.eqb spec "c" then withNumber "c" v (fun n => str1 (chr (n mod 256)))
  else if Ascii.eqb spec "O" then valueToDebugString s debugFuel v 0
  else if Ascii.eqb spec "f" then
    match data v with
    | Dbl d => Ok (printFloat (flags f) (precision f) d)
    | _ => badArgs "sprintf: %f argument is not a float"
    end
  else badArgs ("sprintf: unsupported format specifier '%" +:+ str1 spec
                +:+ "' (only %s, %d, %i, %f, %c, %o, %x, and %O are implemented)").

(** ** Field size, precision and justification *)
Definition stringish (spec : ascii) : bool := Ascii.eqb spec "s" || Ascii.eqb spec "O".

(** [haveWidth] and [fieldWidth] at the end. *)
Definition widthOf (f : Field) (spec : ascii) : option Z := if Ascii.eqb spec "c" then None else fieldWidth f.

Definition truncateTo (n : Z) (t : string) : string := if n <? slenZ t then stake (Z.to_nat n) t else t.

(** The text cut by ':' and by the precision, and the size of the field. *)
Definition limited (f : Field) (spec : ascii) (piece : string) : string * option Z :=
  let width := widthOf f spec in
  let piece := match width with
               | Some w => if colonMode (flags f) && stringish spec then truncateTo w piece else piece
               | None => piece
               end in
  match precision f with
  | Some p =>
      if stringish spec then (truncateTo p piece, (fun w => if w <? p then p else w) <$> width)
      else (piece, width)
  | None => (piece, width)
  end.

Fixpoint copies (n : nat) (c : ascii) : string := match n with O => "" | S n' => String c (copies n' c) end.
Definition padding (n : Z) (c : ascii) : string := copies (Z.to_nat n) c.

Definition justified (f : Field) (piece : string) (width : Z) : string :=
  if width <=? slenZ piece then piece else
  let padLen := width - slenZ piece in
  let padChar := if zeroPad f && negb (leftJustify (flags f)) && negb (centreJustify (flags f)) then "0"%char else " "%char in
  if centreJustify (flags f) then
    let lead := Z.quot padLen 2 + Z.rem padLen 2 in
    padding lead padChar +:+ piece +:+ padding (padLen - lead) padChar
  else if leftJustify (flags f) then piece +:+ padding padLen padChar
  else padding padLen padChar +:+ piece.

Definition rendered (f : Field) (spec : ascii) (piece : string) : string :=
  let '(piece, width) := limited f spec piece in
  match width with Some w => justified f piece w | None => piece end.

(** ** Columns *)

(** The bytes that change a field in [countColStringSpecs]. *)
Definition countModifier (c : ascii) : bool := contains c "-:|=.*" || isdigit c.

Fixpoint countColStringSpecs (fuel : nat) (f : string) : nat :=
  match fuel with
  | O => O
  | S n =>
      match f with
      | String c r =>
          if negb (Ascii.eqb c "%") then countColStringSpecs n r
          else match r with
               | EmptyString => O
               | String d r' =>
                   if Ascii.eqb d "%" then countColStringSpecs n r'
                   else
                     let '(mods, rest) := span countModifier r in
                     match rest with
                     | EmptyString => O
                     | String spec rest' =>
                         ((if contains "=" mods && stringish spec then 1 else 0)
                          + countColStringSpecs n rest')%nat
                     end
               end
      | EmptyString => O
      end
  end.

Fixpoint dropSpaces (t : string) : string :=
  match t with
  | String c r => if Ascii.eqb c " " then dropSpaces r else t
  | EmptyString => EmptyString
  end.

(** One line of at most [width] bytes, and what is left after the line break or
    the spaces it ends at.  [window] is what the inner loop runs over. *)
Definition nextLine (width : Z) (text : string) : string * string :=
  let window := stake (Z.to_nat width) (fst (span (fun c => negb (Ascii.eqb c NL)) text)) in
  let done := String.length window in
  let next := char_at text done in
  let done := match find_last " " window with
              | Some lastSpace =>
                  if (Z.of_nat done =? width) && (done <? String.length text)%nat
                     && negb (Ascii.eqb next NL) && negb (Ascii.eqb next " ")
                  then lastSpace else done
              | None => done
              end in
  let rest := sdrop done text in
  (stake done text, if Ascii.eqb (char_at rest 0) NL && negb (String.eqb rest "") then sdrop 1 rest else dropSpaces rest).

Fixpoint wrapLines (fuel : nat) (width : Z) (text : string) : list string :=
  match fuel with
  | O => []
  | S f =>
      if String.eqb text "" then [] else
      let '(line, rest) := nextLine width text in
      line :: wrapLines f width rest
  end.
Definition wrapForColumn (text : string) (width : Z) : list string :=
  match wrapLines (strFuel text) width text with [] => [""] | segs => segs end.

Definition justifyColLine (f : Field) (width : Z) (seg : string) (trailing : bool) : string :=
  let extra := width - slenZ seg in
  if extra <=? 0 then seg
  else if centreJustify (flags f) then
    let lead := Z.quot extra 2 + Z.rem extra 2 in
    padding lead " " +:+ seg +:+ (if trailing then padding (extra - lead) " " else "")
  else if leftJustify (flags f) then seg +:+ (if trailing then padding extra " " else "")
  else padding extra " " +:+ seg.

(** The column of the output where the field begins. *)
Definition startCol (result : string) : Z :=
  match find_last NL result with
  | Some n => slenZ result - Z.of_nat n - 1
  | None => slenZ result
  end.

Definition columnText (f : Field) (width : Z) (result piece : string) (trailing : bool) : string :=
  let wrapWidth := match precision f with
                   | Some p => let w := if p <? width then p else width in if w <=? 0 then width else w
                   | None => width
                   end in
  match wrapForColumn piece wrapWidth with
  | [] => ""
  | seg :: segs =>
      justifyColLine f width seg trailing +:+
      String.concat "" (map (fun t => str1 NL +:+ padding (startCol result) " " +:+ justifyColLine f width t false) segs)
  end.

(** ** The loop over the format *)

(** What a field adds to [result]; [rest] is the format after the specifier. *)
Definition fieldText (columns : nat) (f : Field) (spec : ascii) (v : Value) (result rest : string)
    : outcome exn string :=
  let! piece := pieceOf f spec v in
  if colMode (flags f) && stringish spec then
    if (1 <? columns)%nat then
      badArgs "sprintf: multi-column '%=' layout is not implemented (only a single '%=' word-wrap column per format string)"
    else
      match fieldWidth f with
      | Some w =>
          if w <=? 0 then badArgs "sprintf: '%=' column mode requires a positive field width"
          else Ok (columnText f w result piece (negb (String.eqb rest "") && negb (Ascii.eqb (char_at rest 0) NL)))
      | None => badArgs "sprintf: '%=' column mode requires a positive field width"
      end
  else Ok (rendered f spec piece).

Fixpoint format (fuel : nat) (columns : nat) (fmt : string) (args : list Value) (result : string)
    : outcome exn string :=
  match fuel with
  | O => OutOfFuel
  | S n =>
      match fmt with
      | EmptyString => Ok result
      | String c rest =>
          if negb (Ascii.eqb c "%") then format n columns rest args (result +:+ str1 c)
          else match rest with
               | EmptyString => badArgs "sprintf: trailing '%' with no specifier"
               | String d rest' =>
                   if Ascii.eqb d "%" then format n columns rest' args (result +:+ "%")
                   else
                     let! r := parseField rest args in
                     let '(f, s1, args1) := r in
                     let spec := char_at s1 0 in
                     let s2 := sdrop 1 s1 in
                     match args1 with
                     | [] => badArgs "sprintf: too few arguments for format string"
                     | v :: args2 =>
                         let! t := fieldText columns f spec v result s2 in
                         format n columns s2 args2 (result +:+ t)
                     end
               end
      end
  end.

Definition sprintfImpl (args : list Value) : outcome exn Value :=
  match args with
  | v :: args' =>
      match data v with
      | Str fmt =>
          let! t := format (strFuel fmt) (countColStringSpecs (strFuel fmt) fmt) fmt args' "" in
          Ok (V (Str t))
      | _ => badArgs "sprintf: expected a string format argument"
      end
  | [] => badArgs "sprintf: expected a string format argument"
  end.
End Sprintf.

Definition sprintf (ops : VMOps) (args : list Value) : VM Value := fun s => (sprintfImpl s (op_fuel ops) args, s).

(** ** query_num *)
Definition appendNumberWord (buf : string) (n : Z) : string :=
  let low := ["ten"; "eleven"; "twelve"; "thirteen"; "fourteen"; "fifteen"; "sixteen"; "seventeen"; "eighteen"; "nineteen"] in
  let hi := [""; ""; "twenty"; "thirty"; "forty"; "fifty"; "sixty"; "seventy"; "eighty"; "ninety"] in
  let single := [""; "one"; "two"; "three"; "four"; "five"; "six"; "seven"; "eight"; "nine"] in
  let at_ (l : list string) (i : Z) := nth (Z.to_nat i) l "" in
  if n =? 0 then buf +:+ "zero"
  else if (n <? 20) && (9 <? n) then buf +:+ at_ low (n - 10)
  else
    let buf := buf +:+ at_ hi (n / 10) in
    let buf := if (20 <? n) && negb (n mod 10 =? 0) then buf +:+ "-" else buf in
    buf +:+ at_ single (n mod 10).

Definition queryNumWord (n limit : Z) : string :=
  if (negb (limit =? 0) && (limit <? n)) || (n <? 0) || (99999 <? n) then "many" else
  let thousands := n / 1000 in
  let ret := if thousands =? 0 then "" else appendNumberWord "" thousands +:+ " thousand" in
  let changed := negb (thousands =? 0) in
  let n := if changed then n mod 1000 else n in
  if changed && (n =? 0) then ret else
  let hundreds := n / 100 in
  let units (changed : bool) (ret : string) (n : Z) := appendNumberWord (if changed then ret +:+ " and " else ret) n in
  if hundreds =? 0 then units changed ret n
  else
    let n := n mod 100 in
    if changed then
      if n =? 0 then appendNumberWord (ret +:+ " and ") hundreds +:+ " hundred"
      else units true (appendNumberWord (ret +:+ ", ") hundreds +:+ " hundred") n
    else
      let ret := appendNumberWord ret hundreds +:+ " hundred" in
      if n =? 0 then ret else units true ret n.

Definition query_num (args : list Value) : outcome exn Value :=
  match argInt 0 args with
  | None => badArgs "query_num: expected an int argument"
  | Some n =>
      match args !! 1%nat, argInt 1 args with
      | Some _, None => badArgs "query_num: expected an int second argument"
      | _, limit => Ok (V (Str (queryNumWord n (default 0 limit))))
      end
  end.

Example query_num_words :
  map (fun n => queryNumWord n 0) [0; 13; 21; 100; 1001; 21999; 100000] =
  ["zero"; "thirteen"; "twenty-one"; "one hundred"; "one thousand and one";
   "twenty-one thousand, nine hundred and ninety-nine"; "many"].
Proof. vm_compute. reflexivity. Qed.
