(* ===== verification/SprintfFacts.v ===== *)
(** * SprintfFacts: what sprintf writes

    A format printed from its parts is read back as those parts
    ([sprintf_reads]); a field is as wide as asked, padded on the sides the
    flags name ([field_rendered]); and the lines of a column are the words of the
    text, each line within the width ([wrap_spec]). *)
From S2P Require Import Prelude CLib Double Value Bytecode Lookup LexerFacts Machine Calls Preprocess ObjectManager Paths Files Efuns Sprintf.
Local Open Scope Z_scope.

(** ** Formats as lists of their parts *)
Inductive Size :=
  | NoSize
  | Digits (ds : string)
  | Star.
Inductive Item :=
  | Literal (c : ascii)
  | Percent
  | Conversion (mods : string) (size prec : Size) (spec : ascii).

Definition printSize (z : Size) : string := match z with NoSize => "" | Digits ds => ds | Star => "*" end.
Definition printPrec (z : Size) : string := match z with NoSize => "" | _ => String "." (printSize z) end.
Definition printItem (i : Item) : string :=
  match i with
  | Literal c => str1 c
  | Percent => "%%"
  | Conversion mods size prec spec => String "%" (mods +:+ printSize size +:+ printPrec prec +:+ str1 spec)
  end.
Definition printItems (l : list Item) : string := foldr (fun i t => printItem i +:+ t) "" l.

Definition isModifier (c : ascii) : bool := contains c "-|=+ :".
Definition isSpec (c : ascii) : bool :=
  negb (isModifier c) && negb (isdigit c) && negb (contains "." (str1 c)) && negb (contains "*" (str1 c))
  && negb (Ascii.eqb c "%") && negb (Ascii.eqb c NUL).

Definition sizeOk (z : Size) : Prop := match z with Digits ds => ds <> ""%string /\ sforall isdigit ds = true | _ => True end.
Definition itemOk (i : Item) : Prop :=
  match i with
  | Literal c => c <> "%"%char
  | Percent => True
  | Conversion mods size prec spec =>
      sforall isModifier mods = true /\ sizeOk size /\ sizeOk prec /\ isSpec spec = true /\
      (contains "=" mods = true -> contains "+" mods || contains " " mods = false)
  end.

(** ** What the parts mean *)
Definition flagsOf (mods : string) : Flags := {|
  leftJustify := contains "-" mods;
  centreJustify := contains "|" mods;
  colonMode := contains ":" mods;
  colMode := contains "=" mods;
  plusFlag := contains "+" mods;
  spaceFlag := contains " " mods
|}.

(** The value of digits, unless it overflows an [int] on the way. *)
Fixpoint intOf (ds : string) (n : Z) : outcome exn Z :=
  match ds with
  | String c r => let! n' := checked32 (n * 10 + (ord c - 48)) in intOf r n'
  | EmptyString => Ok n
  end.

Definition sizeValue (msg : string) (z : Size) (args : list Value) : outcome exn (option Z * list Value) :=
  match z with
  | NoSize => Ok (None, args)
  | Digits ds => let! n := intOf ds 0 in Ok (Some n, args)
  | Star => let! r := starArg msg args in Ok (Some (fst r), snd r)
  end.

Definition startsZero (z : Size) : bool := match z with Digits ds => Ascii.eqb (char_at ds 0) "0" | _ => false end.

Definition fieldOf (mods : string) (size prec : Size) (args : list Value) : outcome exn (Field * list Value) :=
  let! w := sizeValue "sprintf: '*' field width argument is not an int" size args in
  let! p := sizeValue "sprintf: '.*' precision argument is not an int" prec (snd w) in
  Ok (mkField (flagsOf mods) (startsZero size) (fst w) (fst p), snd p).

(** The word-wrapped columns of a format. *)
Definition isColumn (i : Item) : bool :=
  match i with
  | Conversion mods _ _ spec => contains "=" mods && stringish spec
  | _ => false
  end.
Definition columnsOf (l : list Item) : nat := length (List.filter isColumn l).

Section Meaning.
Context (s : VMState) (debugFuel columns : nat).

Fixpoint meaning (l : list Item) (args : list Value) (result : string) : outcome exn string :=
  match l with
  | [] => Ok result
  | Literal c :: l' => meaning l' args (result +:+ str1 c)
  | Percent :: l' => meaning l' args (result +:+ "%")
  | Conversion mods size prec spec :: l' =>
      let! r := fieldOf mods size prec args in
      match snd r with
      | [] => badArgs "sprintf: too few arguments for format string"
      | v :: args' =>
          let! t := fieldText s debugFuel columns (fst r) spec v result (printItems l') in
          meaning l' args' (result +:+ t)
      end
  end.
End Meaning.

(** ** Reading the parts back *)
Definition flagsUnion (f g : Flags) : Flags := {|
  leftJustify := leftJustify f || leftJustify g;
  centreJustify := centreJustify f || centreJustify g;
  colonMode := colonMode f || colonMode g;
  colMode := colMode f || colMode g;
  plusFlag := plusFlag f || plusFlag g;
  spaceFlag := spaceFlag f || spaceFlag g
|}.

Lemma contains_app c a b : contains c (a +:+ b) = contains c a || contains c b.
Proof.
  unfold contains. induction a as [|d a IH]; [done|]. rewrite sapp_cons. cbn [index_of].
  destruct (Ascii.eqb c d); [done|]. destruct (index_of _ (a +:+ b)), (index_of _ a); cbn in *; done.
Qed.

Lemma flagsOf_cons c mods : flagsOf (String c mods) = flagsUnion (flagsOf (str1 c)) (flagsOf mods).
Proof. change (String c mods) with (str1 c +:+ mods). unfold flagsOf, flagsUnion. by rewrite !contains_app. Qed.

Lemma flagsUnion_assoc f g h : flagsUnion f (flagsUnion g h) = flagsUnion (flagsUnion f g) h.
Proof. unfold flagsUnion. cbn. by rewrite !orb_assoc. Qed.

Lemma setFlag_modifier c f :
  setFlag c f = if isModifier c then Some (flagsUnion f (flagsOf (str1 c))) else None.
Proof.
  destruct f as [b1 b2 b3 b4 b5 b6]. unfold setFlag, flagsUnion, flagsOf. cbn [leftJustify centreJustify colonMode colMode plusFlag spaceFlag set_field].
  destruct c as [[] [] [] [] [] [] [] []]; vm_compute; try done; by destruct b1, b2, b3, b4, b5, b6.
Qed.

Lemma modifiers_union mods c rest f :
  sforall isModifier mods = true -> isModifier c = false ->
  modifiers (mods +:+ String c rest) f = (flagsUnion f (flagsOf mods), String c rest).
Proof.
  revert f. induction mods as [|d mods IH]; intros f Hm Hc.
  - rewrite sapp_nil_l. cbn [modifiers]. rewrite setFlag_modifier, Hc. f_equal.
    destruct f. unfold flagsUnion, flagsOf. cbn. by rewrite !orb_false_r.
  - cbn [sforall] in Hm. apply andb_true_iff in Hm as [Hd Hm]. rewrite sapp_cons. cbn [modifiers].
    rewrite setFlag_modifier, Hd, IH by done. by rewrite flagsOf_cons, flagsUnion_assoc.
Qed.
Lemma modifiers_read mods c rest :
  sforall isModifier mods = true -> isModifier c = false ->
  modifiers (mods +:+ String c rest) noFlags = (flagsOf mods, String c rest).
Proof. intros Hm Hc. by rewrite modifiers_union. Qed.

Lemma digits_read ds c rest n :
  sforall isdigit ds = true -> isdigit c = false ->
  digitsOf (ds +:+ String c rest) n = let! z := intOf ds n in Ok (z, String c rest).
Proof.
  revert n. induction ds as [|d ds IH]; intros n Hd Hc.
  - rewrite sapp_nil_l. cbn [digitsOf]. by rewrite Hc.
  - cbn in Hd. apply andb_true_iff in Hd as [Hd Hds]. rewrite sapp_cons. cbn [digitsOf intOf]. rewrite Hd.
    destruct (checked32 _); cbn [obind]; [|done..]. by apply IH.
Qed.

Lemma digit_facts c : isdigit c = true -> isModifier c = false /\ Ascii.eqb c "*" = false /\ Ascii.eqb c "%" = false.
Proof. destruct c as [[] [] [] [] [] [] [] []]; vm_compute; intros H; done. Qed.

Definition stopsSize (c : ascii) : bool := negb (isdigit c) && negb (Ascii.eqb c "*").

Lemma numberAt_read z c rest args msg :
  sizeOk z -> z <> Star -> stopsSize c = true ->
  numberAt (printSize z +:+ String c rest) =
  let! w := sizeValue msg z args in Ok (fst w, String c rest).
Proof.
  intros Hz Hs Hc. apply andb_true_iff in Hc as [Hc%negb_true_iff _]. unfold numberAt.
  destruct z as [|ds|]; [| |done]; cbn [printSize sizeValue obind fst].
  - rewrite sapp_nil_l. change (char_at (String c rest) 0) with c. by rewrite Hc.
  - destruct Hz as [Hne Hd]. assert (Hd' := Hd). destruct ds as [|d ds]; [done|]. cbn [sforall] in Hd'.
    apply andb_true_iff in Hd' as [Hd1 _]. rewrite digits_read by done.
    change (char_at (String d ds +:+ String c rest) 0) with d. rewrite Hd1.
    by destruct (intOf (String d ds) 0).
Qed.

Lemma fieldSize_read z c rest args :
  sizeOk z -> stopsSize c = true -> isdigit c = false ->
  fieldSize (printSize z +:+ String c rest) args =
  let! w := sizeValue "sprintf: '*' field width argument is not an int" z args in
  Ok (startsZero z, fst w, String c rest, snd w).
Proof.
  intros Hz Hs Hc. unfold fieldSize. destruct z as [|ds|].
  - rewrite (numberAt_read NoSize c rest args "") by done. cbn [printSize]. rewrite sapp_nil_l.
    change (char_at (String c rest) 0) with c. unfold stopsSize in Hs. rewrite Hc in Hs. cbn in Hs. apply negb_true_iff in Hs.
    rewrite Hs. assert (Ascii.eqb c "0" = false) as -> by (destruct (Ascii.eqb_spec c "0") as [->|]; done). done.
  - rewrite (numberAt_read (Digits ds) c rest args "") by done. destruct Hz as [Hne Hd]. cbn [printSize sizeValue startsZero].
    destruct ds as [|d ds]; [done|]. cbn [sforall] in Hd. apply andb_true_iff in Hd as [Hd Hds].
    change (char_at (String d ds +:+ String c rest) 0) with d. change (char_at (String d ds) 0) with d.
    destruct (digit_facts d Hd) as (_ & -> & _).
    assert (Ascii.eqb (char_at (String d ds +:+ String c rest) 1) "*" = false) as ->.
    { destruct ds as [|e ds].
      - change (char_at (String d "" +:+ String c rest) 1) with c. unfold stopsSize in Hs.
        apply andb_true_iff in Hs as [_ Hs]. by apply negb_true_iff.
      - cbn [sforall] in Hds. apply andb_true_iff in Hds as [He _].
        change (char_at (String d (String e ds) +:+ String c rest) 1) with e. by destruct (digit_facts e He) as (_ & -> & _). }
    rewrite andb_false_r. by destruct (intOf (String d ds) 0).
  - cbn [printSize]. change ("*" +:+ String c rest) with (String "*" (String c rest)).
    change (char_at (String "*" (String c rest)) 0) with "*"%char. cbn [Ascii.eqb Bool.eqb andb].
    cbn [sizeValue]. by destruct (starArg _ args).
Qed.

Lemma isSpec_facts c : isSpec c = true ->
  isModifier c = false /\ isdigit c = false /\ stopsSize c = true /\ Ascii.eqb c "." = false /\ Ascii.eqb c "%" = false /\ c <> NUL.
Proof. destruct c as [[] [] [] [] [] [] [] []]; vm_compute; intros H; done. Qed.

Lemma precisionOf_read z c rest args :
  sizeOk z -> isSpec c = true ->
  precisionOf (printPrec z +:+ String c rest) args =
  let! w := sizeValue "sprintf: '.*' precision argument is not an int" z args in
  Ok (fst w, String c rest, snd w).
Proof.
  intros Hz Hc. destruct (isSpec_facts c Hc) as (_ & Hd & Hs & Hp & _). unfold precisionOf.
  destruct z as [|ds|]; cbn [printPrec].
  - rewrite sapp_nil_l. change (char_at (String c rest) 0) with c. by rewrite Hp.
  - rewrite sapp_cons. change (char_at (String "." ?x) 0) with "."%char. cbn [Ascii.eqb Bool.eqb andb negb]. cbn [sdrop].
    rewrite (numberAt_read (Digits ds) c rest args "") by done. destruct Hz as [Hne Hds]. cbn [printSize sizeValue].
    destruct ds as [|d ds]; [done|]. cbn [sforall] in Hds. apply andb_true_iff in Hds as [Hd1 _].
    change (char_at (String d ds +:+ String c rest) 0) with d. destruct (digit_facts d Hd1) as (_ & -> & _).
    by destruct (intOf (String d ds) 0).
  - change (String "." (printSize Star) +:+ String c rest) with (String "." (String "*" (String c rest))).
    cbn. by destruct (starArg _ args).
Qed.

Lemma parseField_read mods size prec spec rest args :
  itemOk (Conversion mods size prec spec) ->
  parseField (mods +:+ printSize size +:+ printPrec prec +:+ String spec rest) args =
  let! r := fieldOf mods size prec args in Ok (fst r, String spec rest, snd r).
Proof.
  intros (Hm & Hz & Hp & Hs & _). destruct (isSpec_facts spec Hs) as (S1 & S2 & S3 & _). unfold parseField, fieldOf.
  assert (exists c t, printPrec prec +:+ String spec rest = String c t /\ stopsSize c = true /\ isdigit c = false /\ isModifier c = false)
    as (c & t & Et & T1 & T2 & T3).
  { destruct prec; [by exists spec, rest|by eexists "."%char, _|by eexists "."%char, _]. }
  assert (exists c' t', printSize size +:+ String c t = String c' t' /\ isModifier c' = false) as (c' & t' & Et' & T').
  { destruct size as [|ds|]; [by exists c, t| |by eexists "*"%char, _]. destruct Hz as [Hne Hd]. destruct ds as [|d ds]; [done|].
    cbn [sforall] in Hd. apply andb_true_iff in Hd as [Hd _]. exists d, (ds +:+ String c t). split; [done|]. apply (digit_facts d Hd). }
  rewrite Et, Et', modifiers_read by done. rewrite <- Et', fieldSize_read by done.
  destruct (sizeValue _ size args) as [[w args1]| | |]; cbn [obind fst snd]; [|done..].
  rewrite <- Et, precisionOf_read by done. by destruct (sizeValue _ prec args1) as [[p args2]| | |].
Qed.

(** ** Counting columns *)
Lemma count_fuel n : forall m f, (String.length f < n)%nat -> (String.length f < m)%nat ->
  countColStringSpecs n f = countColStringSpecs m f.
Proof.
  induction n as [|n IH]; intros m f Hn Hm; [lia|]. destruct m as [|m]; [lia|]. cbn [countColStringSpecs].
  destruct f as [|c r]; [done|]. cbn in Hn, Hm. destruct (negb (Ascii.eqb c "%")); [apply IH; lia|].
  destruct r as [|d r']; [done|]. cbn in Hn, Hm. destruct (Ascii.eqb d "%"); [apply IH; lia|].
  destruct (span countModifier (String d r')) as [mods rest] eqn:E. apply span_length in E.
  destruct rest as [|spec rest']; [done|]. f_equal.
  assert (String.length (String d r') = String.length mods + S (String.length rest'))%nat as L by (by rewrite E, slength_app).
  cbn in L. apply IH; lia.
Qed.

Definition columnCount (f : string) : nat := countColStringSpecs (strFuel f) f.

Lemma count_literal c r : c <> "%"%char -> columnCount (String c r) = columnCount r.
Proof.
  intros Hc. unfold columnCount, strFuel. change (String.length (String c r)) with (S (String.length r)).
  remember (S (String.length r)) as n. cbn [countColStringSpecs]. by destruct (Ascii.eqb_spec c "%").
Qed.
Lemma count_percent r : columnCount (String "%" (String "%" r)) = columnCount r.
Proof.
  unfold columnCount, strFuel. change (String.length (String "%" (String "%" r))) with (S (S (String.length r))).
  rewrite (count_fuel (S (String.length r)) (S (S (String.length r)))) by lia.
  remember (S (S (String.length r))) as n. cbn [countColStringSpecs]. by cbn [Ascii.eqb Bool.eqb andb negb].
Qed.
Lemma count_field r mods spec rest :
  span countModifier r = (mods, String spec rest) -> Ascii.eqb (char_at r 0) "%" = false ->
  columnCount (String "%" r) = ((if contains "=" mods && stringish spec then 1 else 0) + columnCount rest)%nat.
Proof.
  intros E Hc. assert (Er := E). apply span_length in Er. unfold columnCount, strFuel.
  change (String.length (String "%" r)) with (S (String.length r)).
  remember (S (String.length r)) as n eqn:Heqn. remember (S (String.length rest)) as m eqn:Heqm. cbn [countColStringSpecs]. cbn [Ascii.eqb Bool.eqb andb negb].
  destruct r as [|d r']; [by destruct mods|]. change (char_at (String d r') 0) with d in Hc. rewrite Hc, E. f_equal.
  apply count_fuel; [|lia]. rewrite Heqn, Er, slength_app. cbn. lia.
Qed.

Lemma count_skip w r : sforall (fun c => negb (Ascii.eqb c "%")) w = true -> columnCount (w +:+ r) = columnCount r.
Proof.
  induction w as [|c w IH]; [done|]. cbn [sforall]. intros [Hc Hw]%andb_true_iff. rewrite sapp_cons, count_literal; [auto|].
  intros ->. done.
Qed.

(** The size and precision as the counting loop sees them. *)
Lemma sizes_counted size prec :
  sizeOk size -> sizeOk prec ->
  let t := printSize size +:+ printPrec prec in
  sforall countModifier t = true /\ contains "=" t = false /\ sforall (fun c => negb (Ascii.eqb c "%")) t = true.
Proof.
  assert (forall ds, sforall isdigit ds = true ->
    sforall countModifier ds = true /\ contains "=" ds = false /\ sforall (fun c => negb (Ascii.eqb c "%")) ds = true) as D.
  { intros ds. induction ds as [|d ds IH]; [done|]. cbn [sforall]. intros [Hd Hds]%andb_true_iff.
    destruct (IH Hds) as (I1 & I2 & I3). rewrite I1, I3. change (String d ds) with (str1 d +:+ ds). rewrite contains_app, I2.
    revert Hd. clear. destruct d as [[] [] [] [] [] [] [] []]; vm_compute; intros H; done. }
  intros Hz Hp t. subst t. rewrite !sforall_app, contains_app.
  assert (forall z, sizeOk z -> sforall countModifier (printSize z) = true /\ contains "=" (printSize z) = false /\
    sforall (fun c => negb (Ascii.eqb c "%")) (printSize z) = true) as Z.
  { intros [|ds|]; cbn [sizeOk printSize]; [done| |done]. intros [_ Hd]. by apply D. }
  destruct (Z size Hz) as (-> & -> & ->), (Z prec Hp) as (P1 & P2 & P3).
  destruct prec; cbn [printPrec]; [done| |done].
  cbn [sforall]. change (String "." ?x) with (str1 "." +:+ x). rewrite contains_app, P1, P2, P3. done.
Qed.

(** Modifiers other than '+' and the space are counted. *)
Lemma modifier_counted c : isModifier c = true -> negb (Ascii.eqb c "+") && negb (Ascii.eqb c " ") = true -> countModifier c = true.
Proof. destruct c as [[] [] [] [] [] [] [] []]; vm_compute; intros H; done. Qed.
Lemma modifier_percent c : isModifier c = true -> negb (Ascii.eqb c "%") = true.
Proof. destruct c as [[] [] [] [] [] [] [] []]; vm_compute; intros H; done. Qed.
Lemma sign_stops c : negb (Ascii.eqb c "+") && negb (Ascii.eqb c " ") = false -> countModifier c = false /\ stringish c = false.
Proof. destruct c as [[] [] [] [] [] [] [] []]; vm_compute; intros H; done. Qed.
Lemma spec_counted c : isSpec c = true -> countModifier c = false.
Proof. destruct c as [[] [] [] [] [] [] [] []]; vm_compute; intros H; done. Qed.

(** A list of modifiers up to its first sign. *)
Lemma signs_split mods :
  sforall isModifier mods = true ->
  (sforall countModifier mods = true /\ contains "+" mods = false /\ contains " " mods = false) \/
  exists a p b, mods = a +:+ String p b /\ sforall countModifier a = true /\ countModifier p = false /\
    stringish p = false /\ contains "+" mods || contains " " mods = true.
Proof.
  induction mods as [|c mods IH]; [by left|]. cbn [sforall]. intros [Hc Hm]%andb_true_iff.
  change (String c mods) with (str1 c +:+ mods). rewrite !contains_app.
  destruct (negb (Ascii.eqb c "+") && negb (Ascii.eqb c " ")) eqn:E.
  - assert (contains "+" (str1 c) = false /\ contains " " (str1 c) = false) as [-> ->].
    { revert E. clear. destruct c as [[] [] [] [] [] [] [] []]; vm_compute; intros H; done. }
    assert (countModifier c = true) as Hcm by (by apply modifier_counted).
    destruct (IH Hm) as [(I1 & I2 & I3)|(a & p & b & -> & A1 & A2 & A3 & A4)]; [left|right].
    + cbn [sforall str1]. change (sforall countModifier (String c mods) = true /\ contains "+" mods = false /\ contains " " mods = false).
      cbn [sforall]. by rewrite Hcm, I1.
    + exists (String c a), p, b. cbn [sforall]. rewrite Hcm, A1. by split_and!.
  - right. destruct (sign_stops c E). exists ""%string, c, mods. split_and!; try done.
    revert E. clear. intros E. assert (contains "+" (str1 c) || contains " " (str1 c) = true) as H.
    { revert E. destruct c as [[] [] [] [] [] [] [] []]; vm_compute; intros H; done. }
    destruct (contains "+" (str1 c)), (contains " " (str1 c)); try done. cbn. by rewrite orb_true_r.
Qed.

Lemma first_not_percent w c r :
  sforall (fun c => negb (Ascii.eqb c "%")) w = true -> Ascii.eqb c "%" = false ->
  Ascii.eqb (char_at (w +:+ String c r) 0) "%" = false.
Proof.
  intros Hw Hc. destruct w as [|d w]; [done|]. cbn [sforall] in Hw. apply andb_true_iff in Hw as [Hd _].
  change (char_at (String d w +:+ String c r) 0) with d. by apply negb_true_iff.
Qed.

Lemma printItem_conversion mods size prec spec rest :
  printItem (Conversion mods size prec spec) +:+ rest =
  String "%" (mods +:+ printSize size +:+ printPrec prec +:+ String spec rest).
Proof. cbn [printItem]. rewrite sapp_cons, !sapp_assoc. done. Qed.

Lemma count_conversion mods size prec spec rest :
  itemOk (Conversion mods size prec spec) ->
  columnCount (printItem (Conversion mods size prec spec) +:+ rest) =
  ((if isColumn (Conversion mods size prec spec) then 1 else 0) + columnCount rest)%nat.
Proof.
  intros (Hm & Hz & Hp & Hs & Hcol). rewrite printItem_conversion.
  destruct (isSpec_facts spec Hs) as (_ & _ & _ & _ & Hc & _). destruct (sizes_counted size prec Hz Hp) as (T1 & T2 & T3).
  rewrite <- (sapp_assoc (printSize size)). set (t := printSize size +:+ printPrec prec) in *.
  assert (sforall (fun c => negb (Ascii.eqb c "%")) mods = true) as Hmp by (by eapply sforall_impl, Hm; apply modifier_percent).
  destruct (signs_split mods Hm) as [(I1 & I2 & I3)|(a & p & b & Em & A1 & A2 & A3 & A4)].
  - rewrite (count_field _ (mods +:+ t) spec rest).
    + by rewrite contains_app, T2, orb_false_r.
    + rewrite <- sapp_assoc. apply span_all; [by rewrite sforall_app, I1, T1|]. intros c r [= -> ->]. by apply spec_counted.
    + rewrite <- sapp_assoc. apply first_not_percent; [by rewrite sforall_app, Hmp, T3|done].
  - assert (isColumn (Conversion mods size prec spec) = false) as ->.
    { cbn [isColumn]. destruct (contains "=" mods); [|done]. by rewrite Hcol in A4. }
    subst mods. rewrite sforall_app in Hmp. cbn [sforall] in Hmp. apply andb_true_iff in Hmp as [Ha [Hpc Hb]%andb_true_iff].
    rewrite (count_field _ a p (b +:+ t +:+ String spec rest)).
    + rewrite A3, andb_false_r. rewrite <- sapp_assoc, count_skip, count_literal; [done| |by rewrite sforall_app, Hb, T3].
      intros ->. done.
    + rewrite sapp_assoc, sapp_cons. apply span_all; [done|]. intros c r E; by injection E as <- _.
    + rewrite sapp_assoc, sapp_cons. apply first_not_percent; [done|by apply negb_true_iff].
Qed.

Lemma columns_counted l : Forall itemOk l -> columnCount (printItems l) = columnsOf l.
Proof.
  unfold columnsOf. induction 1 as [|i l Hi _ IH]; [done|]. change (printItems (i :: l)) with (printItem i +:+ printItems l).
  cbn [List.filter]. destruct i as [c| |mods size prec spec].
  - cbn [printItem isColumn]. change (str1 c +:+ printItems l) with (String c (printItems l)). by rewrite count_literal.
  - cbn [printItem isColumn]. change ("%%" +:+ printItems l) with (String "%" (String "%" (printItems l))). by rewrite count_percent.
  - rewrite count_conversion by done. destruct (isColumn _); [cbn [length]|]; by rewrite IH.
Qed.

(** ** The loop *)
Section Loop.
Context (s : VMState) (debugFuel columns : nat).

Lemma format_items l : Forall itemOk l -> forall fuel args result,
  (String.length (printItems l) < fuel)%nat ->
  format s debugFuel fuel columns (printItems l) args result = meaning s debugFuel columns l args result.
Proof.
  induction 1 as [|i l Hi _ IH]; intros fuel args result Hf; destruct fuel as [|fuel]; try lia; [done|].
  change (printItems (i :: l)) with (printItem i +:+ printItems l) in *. rewrite slength_app in Hf.
  destruct i as [c| |mods size prec spec].
  - cbn [printItem] in *. change (str1 c +:+ printItems l) with (String c (printItems l)). cbn [format meaning].
    destruct (Ascii.eqb_spec c "%"); [done|]. cbn [negb]. apply IH. cbn in Hf. lia.
  - cbn [printItem] in *. change ("%%" +:+ printItems l) with (String "%" (String "%" (printItems l))). cbn [format meaning].
    cbn [Ascii.eqb Bool.eqb andb negb]. apply IH. cbn in Hf. lia.
  - rewrite printItem_conversion. cbn [format meaning]. cbn [Ascii.eqb Bool.eqb andb negb].
    assert (Ascii.eqb (char_at (mods +:+ printSize size +:+ printPrec prec +:+ String spec (printItems l)) 0) "%" = false) as Hc.
    { destruct Hi as (Hm & Hz & Hp & Hs & _). destruct (isSpec_facts spec Hs) as (_ & _ & _ & _ & Hc & _).
      destruct (sizes_counted size prec Hz Hp) as (_ & _ & T3).
      rewrite <- (sapp_assoc (printSize size)), <- sapp_assoc. apply first_not_percent; [|done]. rewrite sforall_app, T3.
      rewrite andb_true_r. by eapply sforall_impl, Hm; apply modifier_percent. }
    destruct (mods +:+ _) as [|d r] eqn:Er; [apply (f_equal String.length) in Er; rewrite !slength_app in Er; cbn in Er; lia|]. change (char_at (String d r) 0) with d in Hc.
    rewrite Hc, <- Er. rewrite parseField_read by done.
    destruct (fieldOf mods size prec args) as [[f args1]| | |]; cbn [obind fst snd]; [|done..].
    change (char_at (String spec (printItems l)) 0) with spec. change (sdrop 1 (String spec (printItems l))) with (printItems l).
    destruct args1 as [|v args2]; [done|]. destruct (fieldText _ _ _ _ _ _ _ _); cbn [obind]; [|done..].
    apply IH. cbn [printItem String.length] in Hf. lia.
Qed.
End Loop.

(** A column is written only when it is the only one. *)
Lemma meaning_one_column s debugFuel columns l : forall args result t,
  meaning s debugFuel columns l args result = Ok t -> (1 < columns)%nat -> columnsOf l = 0%nat.
Proof.
  unfold columnsOf. induction l as [|i l IH]; intros args result t E Hc; [done|]. cbn [List.filter].
  destruct i as [c| |mods size prec spec]; cbn [meaning isColumn] in *; [by eapply IH..|].
  apply obind_ok in E as (r & Er & E). destruct (snd r) as [|v args']; [done|]. apply obind_ok in E as (u & Eu & E).
  destruct (contains "=" mods && stringish spec) eqn:Ec; [|by eapply IH].
  unfold fieldOf in Er. apply obind_ok in Er as (w & _ & Er). apply obind_ok in Er as (p & _ & [= <-]).
  unfold fieldText in Eu. apply obind_ok in Eu as (piece & _ & Eu). cbn [fst flags flagsOf colMode] in Eu. rewrite Ec in Eu.
  apply Nat.ltb_lt in Hc. by rewrite Hc in Eu.
Qed.

(** C38: [sprintf] reads a format as the list of its parts: printed from literal
    bytes, "%%" and conversions with any flags, size and precision (a "="
    conversion having no "+" or space among its flags), the format means the
    parts one after the other, each conversion taking its "*" sizes and its
    argument in order, digits as decimal numbers unless they overflow an [int];
    and with two or more "=" columns of strings nothing is ever laid out. *)
Theorem sprintf_reads s debugFuel l args :
  Forall itemOk l ->
  sprintfImpl s debugFuel (V (Str (printItems l)) :: args) =
    (let! t := meaning s debugFuel (columnsOf l) l args "" in Ok (V (Str t))) /\
  ((1 < columnsOf l)%nat -> forall v, sprintfImpl s debugFuel (V (Str (printItems l)) :: args) <> Ok v).
Proof.
  intros Hl.
  assert (sprintfImpl s debugFuel (V (Str (printItems l)) :: args) =
    (let! t := meaning s debugFuel (columnsOf l) l args "" in Ok (V (Str t)))) as E.
  { unfold sprintfImpl. cbn [data V]. rewrite format_items; [|done|unfold strFuel; lia].
    change (countColStringSpecs (strFuel (printItems l)) (printItems l)) with (columnCount (printItems l)).
    by rewrite columns_counted. }
  split; [exact E|]. intros Hc v Ev. rewrite E in Ev. apply obind_ok in Ev as (t & Et & _).
  apply meaning_one_column in Et; [lia|done].
Qed.

(** ** The width of a field *)
Lemma padding_length n c : slenZ (padding n c) = Z.max 0 n.
Proof.
  unfold slenZ, padding. assert (forall k, String.length (copies k c) = k) as -> by (induction k; cbn; congruence). lia.
Qed.

(** A field outside column mode is the text, cut by ':' and by the precision,
    with the same byte before and after it, as many as the size asks for and none
    when the text is as long: all in front, behind with '-', and with '|' on both
    sides, one more in front when they do not divide; zeros are put in front only. *)
Theorem field_rendered f spec piece :
  let '(cut, width) := limited f spec piece in
  exists lead trail c,
    rendered f spec piece = padding lead c +:+ cut +:+ padding trail c /\
    0 <= lead /\ 0 <= trail /\
    lead + slenZ cut + trail = Z.max (default 0 width) (slenZ cut) /\
    (if centreJustify (flags f) then lead = trail \/ lead = trail + 1
     else if leftJustify (flags f) then lead = 0 else trail = 0) /\
    (c = "0"%char -> zeroPad f = true /\ trail = 0).
Proof.
  unfold rendered. destruct (limited f spec piece) as [cut width].
  assert (0 <= slenZ cut) as Hl by (unfold slenZ; lia).
  assert (cut = padding 0 " " +:+ cut +:+ padding 0 " ") as E by (by rewrite sapp_nil_r).
  assert (forall w, default 0 width = w -> w <= slenZ cut -> exists lead trail c,
    cut = padding lead c +:+ cut +:+ padding trail c /\ 0 <= lead /\ 0 <= trail /\
    lead + slenZ cut + trail = Z.max w (slenZ cut) /\
    (if centreJustify (flags f) then lead = trail \/ lead = trail + 1
     else if leftJustify (flags f) then lead = 0 else trail = 0) /\
    (c = "0"%char -> zeroPad f = true /\ trail = 0)) as Short.
  { intros w _ Hw. exists 0, 0, " "%char. split; [exact E|]. split_and!; [lia..| |done].
    destruct (centreJustify _); [by left|]. by destruct (leftJustify _). }
  destruct width as [w|]; [|by apply Short].
  unfold justified. destruct (Z.leb_spec w (slenZ cut)); [by apply Short|]. clear Short.
  unfold default, id.
  set (pad := w - slenZ cut). assert (0 < pad) as Hpad by (subst pad; lia).
  destruct (centreJustify (flags f)); [|destruct (leftJustify (flags f))]; cbn [negb andb].
  - rewrite !andb_false_r. pose proof (Z.quot_rem' pad 2). pose proof (Z.rem_bound_pos pad 2).
    eexists (Z.quot pad 2 + Z.rem pad 2), (pad - (Z.quot pad 2 + Z.rem pad 2)), " "%char.
    split_and!; try lia; done.
  - rewrite andb_false_r. exists 0, pad, " "%char. split_and!; try lia; done.
  - exists pad, 0. destruct (zeroPad f); cbn [andb]; eexists; (split; [by rewrite sapp_nil_r|]); split_and!; try lia; done.
Qed.

(** ** Columns *)
Definition noNl : string -> bool := sforall (fun c => negb (Ascii.eqb c NL)).
Definition noSpace : string -> bool := sforall (fun c => negb (Ascii.eqb c " ")).

(** [lines] are the lines of a text: between two of them a line break or spaces
    are dropped, and a word is cut only when it fills a line alone. *)
Inductive Wrapped (width : Z) : string -> list string -> Prop :=
  | wrapped_nil : Wrapped width "" []
  | wrapped_line line gap rest lines :
      slenZ line <= width -> noNl line = true ->
      (gap = str1 NL \/ exists n, gap = spaces n) ->
      (gap = ""%string -> rest = ""%string \/ (slenZ line = width /\ noSpace line = true)) ->
      Wrapped width rest lines ->
      Wrapped width (line +:+ gap +:+ rest) (line :: lines).

Lemma find_last_some c s n : find_last c s = Some n -> exists a b, s = a +:+ String c b /\ String.length a = n.
Proof.
  revert n. induction s as [|d s IH]; intros n; [done|]. cbn [find_last]. destruct (find_last c s) as [m|].
  - intros [= <-]. destruct (IH m eq_refl) as (a & b & -> & <-). by exists (String d a), b.
  - destruct (Ascii.eqb_spec c d) as [<-|]; [|done]. intros [= <-]. by exists ""%string, s.
Qed.
Lemma find_last_none s : find_last " " s = None -> noSpace s = true.
Proof.
  induction s as [|d s IH]; [done|]. cbn [find_last]. destruct (find_last " " s); [done|].
  destruct (Ascii.eqb_spec " " d) as [|Hd]; [done|]. intros _. unfold noSpace in *. cbn [sforall]. rewrite IH by done.
  destruct (Ascii.eqb_spec d " "); [by subst|done].
Qed.

Lemma stake_sdrop n s : stake n s +:+ sdrop n s = s.
Proof. revert s. induction n; intros [|c s]; cbn; try done. rewrite sapp_cons. by f_equal. Qed.

Lemma dropSpaces_gap t : exists n, t = spaces n +:+ dropSpaces t /\ (n = O -> t = dropSpaces t) /\
  (Ascii.eqb (char_at t 0) " " = true -> n <> O).
Proof.
  induction t as [|c t (n & E & _)]; [by exists O|]. cbn [dropSpaces]. destruct (Ascii.eqb_spec c " ") as [->|Hc].
  - exists (S n). cbn [spaces]. rewrite sapp_cons. split; [by f_equal|]. by split.
  - exists O. split; [done|]. split; [done|]. change (char_at (String c t) 0) with c.
    by destruct (Ascii.eqb_spec c " ").
Qed.

Lemma noNl_stake n s : noNl s = true -> noNl (stake n s) = true.
Proof.
  revert s. induction n; intros [|c s]; unfold noNl; cbn; try done. intros [-> H]%andb_true_iff. by apply IHn.
Qed.

(** The window of a line, and the text as it goes on after it. *)
Lemma window_spec width text :
  let window := stake width (fst (span (fun c => negb (Ascii.eqb c NL)) text)) in
  exists rest, text = window +:+ rest /\ noNl window = true /\ (String.length window <= width)%nat /\
    ((String.length window < width)%nat -> rest = ""%string \/ char_at rest 0 = NL).
Proof.
  intros window. subst window. destruct (span _ text) as [a b] eqn:E. cbn [fst]. set (window := stake width a).
  assert (noNl a = true /\ (b = ""%string \/ char_at b 0 = NL)) as [Ha Hb].
  { clear window. revert a b E. induction text as [|c t IH]; intros a b; cbn [span]; [intros [= <- <-]; by auto|].
    destruct (Ascii.eqb_spec c NL) as [->|Hc]; cbn [negb]; [intros [= <- <-]; by auto|].
    destruct (span _ t) as [a' b'] eqn:E'. intros [= <- <-]. destruct (IH a' b' eq_refl) as [I1 I2].
    split; [|done]. unfold noNl in *. cbn [sforall]. rewrite I1. by destruct (Ascii.eqb_spec c NL). }
  apply span_length in E. exists (sdrop width a +:+ b). subst window.
  split; [by rewrite <- sapp_assoc, stake_sdrop|]. split; [by apply noNl_stake|]. rewrite stake_length. split; [lia|].
  intros Hw. assert (sdrop width a = ""%string) as ->; [|done].
  assert (String.length (sdrop width a) = 0)%nat as L by (rewrite sdrop_length; lia). by destruct (sdrop width a).
Qed.

(** What follows a line, once the line break or the spaces are gone. *)
Definition afterLine (rest : string) : string :=
  if Ascii.eqb (char_at rest 0) NL && negb (String.eqb rest "") then sdrop 1 rest else dropSpaces rest.

Lemma afterLine_gap rest : exists gap,
  rest = gap +:+ afterLine rest /\ (gap = str1 NL \/ exists n, gap = spaces n) /\
  (gap = ""%string -> rest = ""%string \/ (char_at rest 0 <> NL /\ char_at rest 0 <> " "%char)).
Proof.
  unfold afterLine. destruct rest as [|c rest]; [exists ""%string; split; [done|]; split; [right; by exists O|by left]|].
  change (char_at (String c rest) 0) with c. cbn [String.eqb negb]. rewrite andb_true_r.
  destruct (Ascii.eqb_spec c NL) as [->|Hc].
  - exists (str1 NL). split; [done|]. split; [by left|done].
  - destruct (dropSpaces_gap (String c rest)) as (n & E & H1 & H2). exists (spaces n). split; [exact E|]. split; [right; by exists n|].
    intros Hn. right. split; [done|]. intros ->. destruct n; [|done]. by apply H2.
Qed.

(** The two places a line may end at: the end of its window or a space in it. *)
Lemma line_cut width text window tl k :
  text = window +:+ tl -> text <> ""%string -> 0 < width -> noNl window = true ->
  (String.length window <= Z.to_nat width)%nat ->
  ((String.length window < Z.to_nat width)%nat -> tl = ""%string \/ char_at tl 0 = NL) ->
  (k = String.length window /\ (tl = ""%string \/ (String.length window < Z.to_nat width)%nat \/ char_at tl 0 = NL \/
      char_at tl 0 = " "%char \/ find_last " " window = None)) \/
  (exists a b, window = a +:+ String " " b /\ k = String.length a) ->
  exists gap, sdrop k text = gap +:+ afterLine (sdrop k text) /\ (gap = str1 NL \/ exists n, gap = spaces n) /\
    slenZ (stake k text) <= width /\ noNl (stake k text) = true /\
    (gap = ""%string -> sdrop k text = ""%string \/ (slenZ (stake k text) = width /\ noSpace (stake k text) = true)) /\
    (stake k text <> ""%string \/ gap <> ""%string).
Proof.
  intros -> Ht Hw Hn Hl Hshort [[-> Hk]|(a & b & -> & ->)].
  - rewrite stake_app, sdrop_app. destruct (afterLine_gap tl) as (gap & Eg & Hgap & Hempty).
    exists gap. split; [exact Eg|]. split; [exact Hgap|]. split; [unfold slenZ; lia|]. split; [done|]. split.
    + intros Hg. destruct (Hempty Hg) as [|[H1 H2]]; [by left|].
      destruct (decide (String.length window < Z.to_nat width)%nat) as [Hlt|Hge]; [destruct (Hshort Hlt); [by left|done]|].
      destruct Hk as [|[|[|[|Hk]]]]; [by left|lia|done|done|]. right. split; [unfold slenZ; lia|by apply find_last_none].
    + destruct window as [|c w]; [|by left]. right. intros Hg. destruct (Hshort ltac:(cbn; lia)) as [->|Hc]; [done|].
      destruct (Hempty Hg) as [->|[]]; done.
  - rewrite sapp_assoc, sapp_cons, stake_app, sdrop_app. rewrite slength_app in Hl. cbn in Hl.
    unfold noNl in *. rewrite sforall_app in Hn. apply andb_true_iff in Hn as [Hn _].
    destruct (afterLine_gap (String " " (b +:+ tl))) as (gap & Eg & Hgap & Hempty).
    exists gap. split; [exact Eg|]. split; [exact Hgap|]. split; [unfold slenZ; lia|]. split; [done|].
    assert (gap <> ""%string) as Hne by (intros Hg; destruct (Hempty Hg) as [|[_ H]]; done).
    split; [done|by right].
Qed.

Lemma nextLine_spec width text : 0 < width -> text <> ""%string ->
  exists line gap rest, nextLine width text = (line, rest) /\ text = line +:+ gap +:+ rest /\
    slenZ line <= width /\ noNl line = true /\ (gap = str1 NL \/ exists n, gap = spaces n) /\
    (gap = ""%string -> rest = ""%string \/ (slenZ line = width /\ noSpace line = true)) /\
    (String.length rest < String.length text)%nat.
Proof.
  intros Hw Ht. unfold nextLine. destruct (window_spec (Z.to_nat width) text) as (tl & E & Hn & Hl & Hshort).
  set (window := stake _ _) in *. cbn zeta.
  assert (char_at text (String.length window) = char_at tl 0) as Enext.
  { rewrite E. unfold char_at. clear. induction window as [|c w IH]; [done|]. rewrite sapp_cons. exact IH. }
  rewrite Enext.
  set (done_ := match find_last " " window with Some _ => _ | None => _ end).
  assert (Hdone : (done_ = String.length window /\ (tl = ""%string \/ (String.length window < Z.to_nat width)%nat \/ char_at tl 0 = NL \/
      char_at tl 0 = " "%char \/ find_last " " window = None)) \/
    exists a b, window = a +:+ String " " b /\ done_ = String.length a).
  { subst done_. destruct (find_last " " window) as [ls|] eqn:El; [|left; by auto 10].
    destruct ((Z.of_nat (String.length window) =? width) && _ && _ && _) eqn:C.
    - right. destruct (find_last_some _ _ _ El) as (a & b & -> & <-). by exists a, b.
    - left. split; [done|]. destruct (decide (tl = ""%string)) as [|Htl]; [by left|]. right.
      destruct (Z.eqb_spec (Z.of_nat (String.length window)) width); [right|left; lia].
      assert ((String.length window <? String.length text)%nat = true) as Hlt.
      { apply Nat.ltb_lt. rewrite E, slength_app. destruct tl; [done|cbn; lia]. }
      rewrite Hlt in C. cbn [andb] in C. destruct (Ascii.eqb_spec (char_at tl 0) NL); [by left|].
      destruct (Ascii.eqb_spec (char_at tl 0) " "); [right; by left|done]. }
  destruct (line_cut width text window tl done_ E Ht Hw Hn Hl Hshort Hdone) as (gap & Eg & Hgap & L1 & L2 & L3 & L4).
  assert (text = stake done_ text +:+ sdrop done_ text) as Et by (symmetry; apply stake_sdrop).
  set (line := stake done_ text) in *. set (after := sdrop done_ text) in *.
  exists line, gap, (afterLine after). split; [done|]. split; [by rewrite <- Eg|]. split_and!; try done.
  - intros Hg. destruct (L3 Hg) as [Ha|]; [|by right]. left. rewrite Ha. done.
  - apply (f_equal String.length) in Et, Eg. rewrite slength_app in Et, Eg.
    assert (forall x, x <> ""%string -> (0 < String.length x)%nat) as Pos by (intros [|c x]; cbn; [done|lia]).
    destruct L4 as [L4%Pos|L4%Pos]; lia.
Qed.

Lemma wrapLines_wrapped width : 0 < width -> forall fuel text, (String.length text < fuel)%nat ->
  Wrapped width text (wrapLines fuel width text).
Proof.
  intros Hw fuel. induction fuel as [|fuel IH]; intros text Hf; [lia|]. cbn [wrapLines].
  destruct (String.eqb_spec text "") as [->|Ht]; [constructor|].
  destruct (nextLine_spec width text Hw Ht) as (line & gap & rest & -> & Et & L1 & L2 & Hg & L3 & L4).
  rewrite Et. apply wrapped_line; try done. apply IH. lia.
Qed.

(** C39: the lines of a "=" column are the text wrapped: every line is within the
    width and has no line break, one line break or the spaces are dropped between
    two lines, and a word is cut only when it fills the line alone.  The wrapping
    ends, and an empty text is one empty line. *)
Theorem wrap_spec text width :
  0 < width ->
  (text = ""%string /\ wrapForColumn text width = [""%string]) \/ Wrapped width text (wrapForColumn text width).
Proof.
  intros Hw. unfold wrapForColumn. pose proof (wrapLines_wrapped width Hw (strFuel text) text) as H.
  unfold strFuel in *. specialize (H ltac:(lia)). destruct (wrapLines _ width text) as [|l ls] eqn:E; [|by right].
  left. inversion H. done.
Qed.

Lemma wrap_spec_witness :
  Wrapped 10 "the quick brown fox" (wrapForColumn "the quick brown fox" 10) /\
  wrapForColumn "the quick brown fox" 10 = ["the quick"; "brown fox"].
Proof.
  split; [|reflexivity]. destruct (wrap_spec "the quick brown fox" 10) as [[H _]|H]; [lia|discriminate H|exact H].
Defined.

(** "%5d %-*s%%" *)
Definition exampleItems : list Item :=
  [Conversion "" (Digits "5") NoSize "d"; Literal " "; Conversion "-" Star NoSize "s"; Percent].

Definition printer : VMState := newVM (configFor "fluffos" 100) ∅ ∅.

Lemma sprintf_reads_witness :
  sprintfImpl printer 10 [V (Str "%5d %-*s%%"); VInt 42; VInt 3; V (Str "x")] = Ok (V (Str "   42 x  %")).
Proof.
  change "%5d %-*s%%"%string with (printItems exampleItems).
  destruct (sprintf_reads printer 10 exampleItems [VInt 42; VInt 3; V (Str "x")]) as [E _]; [|rewrite E; reflexivity].
  unfold exampleItems. repeat constructor; done.
Defined.

(** Two columns, one of them hidden by a '+': the check for a single column is
    passed, and the second column begins where the lines of the first end. *)
Example hidden_column :
  sprintfImpl printer 10 [V (Str "%-=3s%-=+3s"); V (Str "aa bb"); V (Str "c")] = Ok (V (Str ("aa " +:+ str1 NL +:+ "bbc"))).
Proof. vm_compute. reflexivity. Qed.
