(* ===== verification/ParserPrint.v ===== *)
(** * ParserPrint: the parser reads back printed expressions

    [print] writes an expression with the parentheses its precedence needs, and
    none else; the parser reads the same tree back.  This fixes the precedence
    and the associativity of every operator. *)
From S2P Require Import Prelude CLib Double Value Bytecode Lexer Ast Parser ParserFacts.
Local Open Scope string_scope.
Local Open Scope list_scope.
Local Open Scope nat_scope.

(** ** The printer *)
Definition sym (s : string) : Token := mkToken TSymbol s 1.
Definition ident (s : string) : Token := mkToken TIdent s 1.

Definition opText (o : BinOp.t) : string :=
  match o with
  | BinOp.Eq => "==" | BinOp.Neq => "!=" | BinOp.Lt => "<" | BinOp.Lte => "<=" | BinOp.Gt => ">"
  | BinOp.Gte => ">=" | BinOp.Add => "+" | BinOp.Or => "||" | BinOp.And => "&&" | BinOp.Sub => "-"
  | BinOp.Mul => "*" | BinOp.Div => "/" | BinOp.Mod => "%" | BinOp.BitAnd => "&" | BinOp.BitOr => "|"
  | BinOp.BitXor => "^" | BinOp.Shl => "<<" | BinOp.Shr => ">>"
  end.
(** Levels: 0 comma, 1 ternary and assignment, 2 to 11 binary, 12 unary, 13
    postfix, 14 primary. *)
Definition opLevel (o : BinOp.t) : nat :=
  match o with
  | BinOp.Or => 2 | BinOp.And => 3 | BinOp.BitOr => 4 | BinOp.BitXor => 5 | BinOp.BitAnd => 6
  | BinOp.Eq | BinOp.Neq => 7 | BinOp.Lt | BinOp.Lte | BinOp.Gt | BinOp.Gte => 8
  | BinOp.Shl | BinOp.Shr => 9 | BinOp.Add | BinOp.Sub => 10 | BinOp.Mul | BinOp.Div | BinOp.Mod => 11
  end.
Definition unaryText (o : UnaryOp.t) : string :=
  match o with UnaryOp.Not => "!" | UnaryOp.Neg => "-" | UnaryOp.BitNot => "~" end.
Definition assignText (isCompound : bool) (o : BinOp.t) : string :=
  if isCompound then opText o +:+ "=" else "=".

Definition prec (e : AstNode) : nat :=
  match e with
  | CommaExpr _ _ => 0
  | TernaryExpr _ _ _ | AssignExpr _ _ _ _ | IndexAssignExpr _ _ _ _ _ _ => 1
  | BinaryExpr o _ _ => opLevel o
  | UnaryExpr _ _ => 12
  | CallOtherExpr _ _ _ _ | IndexExpr _ _ _ _ _ _ => 13
  | _ => 14
  end.

Fixpoint sepBy (l : list (list Token)) : list Token :=
  match l with
  | [] => []
  | [x] => x
  | x :: l' => x ++ sym "," :: sepBy l'
  end.
Definition parens (b : bool) (ts : list Token) : list Token :=
  if b then sym "(" :: ts ++ [sym ")"] else ts.

Fixpoint print (lvl : nat) (e : AstNode) : list Token :=
  parens (prec e <? lvl)
  match e with
  | VarRefExpr x => [ident x]
  | IntLiteral v => [mkToken TNumber (to_string v) 1]
  | StringLiteral s => [mkToken TString s 1]
  | UnaryExpr o x => sym (unaryText o) :: print 12 x
  | BinaryExpr o l r => print (opLevel o) l ++ sym (opText o) :: print (S (opLevel o)) r
  | TernaryExpr c t f => print 2 c ++ sym "?" :: print 1 t ++ sym ":" :: print 1 f
  | CommaExpr l r => print 0 l ++ sym "," :: print 1 r
  | AssignExpr x v c o => ident x :: sym (assignText c o) :: print 1 v
  | IndexAssignExpr t i v c o _ =>
      print 13 t ++ sym "[" :: print 1 i ++ sym "]" :: sym (assignText c o) :: print 1 v
  | CallExpr f args _ _ _ _ => ident f :: sym "(" :: sepBy (map (print 1) args) ++ [sym ")"]
  | CallOtherExpr t (StringLiteral f) args _ =>
      print 13 t ++ sym "->" :: ident f :: sym "(" :: sepBy (map (print 1) args) ++ [sym ")"]
  | IndexExpr t i _ _ _ _ => print 13 t ++ sym "[" :: print 1 i ++ [sym "]"]
  | ArrayLiteralExpr es _ => sym "(" :: sym "{" :: sepBy (map (print 1) es) ++ [sym "}"; sym ")"]
  | _ => []
  end.

(** The expressions it prints.  The texts excluded are those the parser takes
    for brackets when they come after a parenthesis, even in a string. *)
Definition bracket_texts : list string := ["["; ":"; "*"; "{"].
Definition plain_text (s : string) : bool := negb (mem_string s bracket_texts).
Definition plain_name (s : string) : bool :=
  plain_text s && negb (Ascii.eqb (char_at s 0) "$") && negb (String.eqb s "class").
Definition call_name (s : string) : bool :=
  plain_name s && negb (mem_string s ["sscanf"; "call_other"; "new"; "efun"; "catch"; "time_expression"]).
Definition compound_ok (isCompound : bool) (o : BinOp.t) : bool :=
  if isCompound
  then match o with
       | BinOp.Add | BinOp.Sub | BinOp.Mul | BinOp.Div | BinOp.Mod | BinOp.BitOr | BinOp.BitAnd
       | BinOp.BitXor | BinOp.Shl | BinOp.Shr => true
       | _ => false
       end
  else match o with BinOp.Add => true | _ => false end.

Fixpoint printable (e : AstNode) : bool :=
  match e with
  | VarRefExpr x => plain_name x
  | IntLiteral v => (0 <=? v)%Z && in_int64 v
  | StringLiteral s => plain_text s
  | UnaryExpr _ x => printable x
  | BinaryExpr _ l r | CommaExpr l r => printable l && printable r
  | TernaryExpr c t f => printable c && printable t && printable f
  | AssignExpr x v c o => plain_name x && printable v && compound_ok c o
  | IndexAssignExpr t i v c o None => printable t && printable i && printable v && compound_ok c o
  | CallExpr f args [] false false "" => call_name f && forallb printable args
  | CallOtherExpr t (StringLiteral _) args [] => printable t && forallb printable args
  | IndexExpr t i None false false None => printable t && printable i
  | ArrayLiteralExpr es [] => forallb printable es
  | _ => false
  end.

(** What may follow an expression read at a level. *)
Definition closers : list string := [")"; "]"; "}"; ":"; ";"].
Definition allOps : list (list (string * BinOp.t)) :=
  [[("||", BinOp.Or)]; [("&&", BinOp.And)]; [("|", BinOp.BitOr)]; [("^", BinOp.BitXor)];
   [("&", BinOp.BitAnd)]; [("==", BinOp.Eq); ("!=", BinOp.Neq)];
   [("<", BinOp.Lt); ("<=", BinOp.Lte); (">", BinOp.Gt); (">=", BinOp.Gte)];
   [("<<", BinOp.Shl); (">>", BinOp.Shr)]; [("+", BinOp.Add); ("-", BinOp.Sub)];
   [("*", BinOp.Mul); ("/", BinOp.Div); ("%", BinOp.Mod)]].
Definition opsOfLevel (k : nat) : list (string * BinOp.t) := nth (k - 2) allOps [].
Definition lowerOps (k : nat) : list string := map fst (concat (take (k - 2) allOps)).
Definition follow (lvl : nat) : list string :=
  closers ++ (if 1 <=? lvl then [","] else []) ++ (if 2 <=? lvl then ["?"] else []) ++ lowerOps lvl
  ++ (if 13 <=? lvl then "=" :: map fst kCompoundOps else []) ++ (if 14 <=? lvl then ["->"; "["] else []).
Definition stops (lvl : nat) (ts : list Token) : bool :=
  match ts with
  | t :: _ => bool_decide (ttype t = TSymbol) && mem_string (text t) (follow lvl)
  | [] => false
  end.

Arguments follow : simpl never.
(** ** Numbers *)
Lemma digits_no_dot s : sforall isdigit s = true -> find_str "." s = None.
Proof.
  induction s as [|c s IH]; [done|]. cbn [sforall]. rewrite andb_true_iff. intros [Hc Hs]. specialize (IH Hs).
  cbn [find_str]. rewrite IH. destruct (sprefix "." (String c s)) eqn:E; [|done].
  by destruct c as [[] [] [] [] [] [] [] []].
Qed.
Lemma digits_char s i : sforall isdigit s = true -> isdigit (char_at s i) = true \/ char_at s i = NUL.
Proof.
  revert i. induction s as [|c s IH]; intros [|i]; simpl; try (by right); rewrite andb_true_iff; intros [Hc Hs].
  - by left.
  - by apply IH.
Qed.
Lemma digits_not_hex s : sforall isdigit s = true -> isHex s = false.
Proof.
  intros Hs. unfold isHex. destruct (digits_char s 1 Hs) as [H|H].
  - destruct (Ascii.eqb_spec (char_at s 1) "x") as [E|]; [by rewrite E in H|].
    destruct (Ascii.eqb_spec (char_at s 1) "X") as [E|]; [by rewrite E in H|]. by rewrite andb_false_r.
  - rewrite H. by rewrite andb_false_r.
Qed.
Lemma to_string_isdigit v : (0 <= v)%Z -> sforall isdigit (to_string v) = true.
Proof.
  intros H. unfold to_string. destruct (Z.ltb_spec v 0); [lia|]. by apply digits_isdigit.
Qed.

(** The parser of a level. *)
Section Levels.
Context (tokens_ : list Token) (dialect_ : LpcDialect).
Definition chain (opss : list (list (string * BinOp.t))) (base : P AstNode) : P AstNode :=
  foldr (leftAssoc tokens_) base opss.
Definition parseLevel (lvl : nat) (fuel : nat) : P AstNode :=
  match lvl with
  | 0 => parseCommaExpr tokens_ (parse tokens_ dialect_ fuel Ternary)
  | 1 => parse tokens_ dialect_ fuel Ternary
  | 12 => parse tokens_ dialect_ fuel Unary
  | 13 => parsePostfix tokens_ dialect_ (parse tokens_ dialect_ fuel Ternary) (parse tokens_ dialect_ fuel Statement)
  | 14 => parsePrimary tokens_ dialect_ (parse tokens_ dialect_ fuel Ternary) (parse tokens_ dialect_ fuel Statement)
  | _ => chain (drop (lvl - 2) allOps) (parse tokens_ dialect_ fuel Unary)
  end.
Lemma parseLogicalOr_chain m : parseLogicalOr tokens_ m = chain allOps m.
Proof. reflexivity. Qed.
End Levels.

Section Reading.
Context (tokens_ : list Token) (dialect_ : LpcDialect).
Local Abbreviation n := (length tokens_) (only parsing).

Definition at_ (s : ParseState) (ts : list Token) : Prop := drop (pos_ s) tokens_ = ts.
Definition ahead (k : nat) (s : ParseState) : ParseState := s <| pos_ ::= fun p => p + k |>.

Lemma at_ahead s ts rest : at_ s (ts ++ rest) -> at_ (ahead (length ts) s) rest.
Proof. unfold at_, ahead. simpl. intros H. by rewrite <- drop_drop, H, drop_app_length. Qed.
Lemma ahead_0 s : ahead 0 s = s.
Proof. destruct s. unfold ahead, set_field. simpl. by rewrite Nat.add_0_r. Qed.
Lemma ahead_add j k s : ahead j (ahead k s) = ahead (k + j) s.
Proof. destruct s. unfold ahead, set_field. simpl. by rewrite Nat.add_assoc. Qed.
Lemma at_length s ts : at_ s ts -> ts <> [] -> n - pos_ s = length ts /\ pos_ s < n.
Proof.
  unfold at_. intros <- Hne. rewrite length_drop. split; [done|].
  destruct (decide (pos_ s < n)); [done|]. rewrite drop_ge in Hne by lia. done.
Qed.

(** ** Evaluation of the tests *)
Lemma tokenAt_at s ts k t : at_ s ts -> ts !! k = Some t -> tokenAt tokens_ (pos_ s + k) = t.
Proof.
  unfold at_, tokenAt. intros <- Hk. rewrite lookup_drop in Hk. pose proof (lookup_lt_Some _ _ _ Hk).
  destruct (Nat.ltb_spec (pos_ s + k) n); [|lia]. by rewrite Hk.
Qed.
Lemma tokenAt_at0 s t ts : at_ s (t :: ts) -> tokenAt tokens_ (pos_ s) = t.
Proof. intros H. pose proof (tokenAt_at s (t :: ts) 0 t H eq_refl) as E. by rewrite Nat.add_0_r in E. Qed.
Definition isEnd (t : Token) : bool := bool_decide (ttype t = TEnd).
Lemma endAt_at s t ts : at_ s (t :: ts) -> endAt tokens_ (pos_ s) = isEnd t.
Proof.
  intros H. unfold endAt. destruct (at_length _ _ H ltac:(done)) as [_ Hlt].
  by rewrite (tokenAt_at0 s t ts H), (proj2 (Nat.leb_gt _ _) Hlt).
Qed.
Definition isText (x : string) (t : Token) : bool :=
  negb (isEnd t) && (bool_decide (ttype t = TSymbol) || bool_decide (ttype t = TKeyword)) && String.eqb (text t) x.
Definition isType (ty : TokenType) (t : Token) : bool := negb (isEnd t) && bool_decide (ttype t = ty).

Lemma ev_checkText x s t ts : at_ s (t :: ts) -> checkText tokens_ x s = (Ok (isText x t), s).
Proof.
  intros H. unfold checkText, mgets, hasText, isText. rewrite (endAt_at s t ts H).
  by rewrite (tokenAt_at0 s t ts H).
Qed.
Lemma ev_check ty s t ts : at_ s (t :: ts) -> check tokens_ ty s = (Ok (isType ty t), s).
Proof.
  intros H. unfold check, mgets, hasType, isType. rewrite (endAt_at s t ts H).
  by rewrite (tokenAt_at0 s t ts H).
Qed.
Lemma ev_peekAt k s ts t : at_ s ts -> ts !! k = Some t -> peekAt tokens_ k s = (Ok t, s).
Proof. intros H Hk. unfold peekAt, mgets. by rewrite (tokenAt_at s ts k t H Hk). Qed.
Lemma ev_peek s t ts : at_ s (t :: ts) -> peek tokens_ s = (Ok t, s).
Proof. intros H. by apply (ev_peekAt 0 s (t :: ts)). Qed.
Lemma ev_peekText k x s ts t : at_ s ts -> ts !! k = Some t ->
  peekText tokens_ k x s = (Ok (String.eqb (text t) x), s).
Proof. intros H Hk. unfold peekText, mbind. by rewrite (ev_peekAt k s ts t H Hk). Qed.
Lemma ev_peekType k ty s ts t : at_ s ts -> ts !! k = Some t ->
  peekType tokens_ k ty s = (Ok (bool_decide (ttype t = ty)), s).
Proof. intros H Hk. unfold peekType, mbind. by rewrite (ev_peekAt k s ts t H Hk). Qed.
Lemma ev_and_false c d s : c s = (Ok false, s) -> andP c d s = (Ok false, s).
Proof. intros H. unfold andP, mbind. by rewrite H. Qed.
Lemma ev_and c d b s : c s = (Ok true, s) -> d s = (Ok b, s) -> andP c d s = (Ok b, s).
Proof. intros H Hd. unfold andP, mbind. by rewrite H. Qed.
Lemma ev_if {A} c b (x y : P A) s : c s = (Ok b, s) -> (If c Then x Else y) s = (if b then x else y) s.
Proof. intros H. unfold mbind. rewrite H. by destruct b. Qed.
Lemma ev_bind {A B} (m : P A) (k : A -> P B) a s s' : m s = (Ok a, s') -> mbind m k s = k a s'.
Proof. intros H. unfold mbind. by rewrite H. Qed.
Lemma ev_advance s t ts : at_ s (t :: ts) -> isEnd t = false -> advance tokens_ s = (Ok t, ahead 1 s).
Proof.
  intros H He. unfold advance, atEnd. rewrite (ev_bind _ _ t s s) by (by eapply ev_peek).
  unfold mbind, mgets, mmodify, mret. rewrite (endAt_at s t ts H), He. unfold ahead, set_field. simpl.
  by rewrite Nat.add_1_r.
Qed.
Lemma ev_accept x s t ts : at_ s (t :: ts) ->
  accept tokens_ x s = if isText x t then (Ok true, ahead 1 s) else (Ok false, s).
Proof.
  intros H. unfold accept. rewrite (ev_if _ _ _ _ _ (ev_checkText x s t ts H)).
  destruct (isText x t) eqn:E; [|done]. unfold isText in E. rewrite !andb_true_iff, negb_true_iff in E.
  by rewrite (ev_bind _ _ _ _ _ (ev_advance s t ts H (proj1 (proj1 E)))).
Qed.
Lemma ev_expectText x c s t ts : at_ s (t :: ts) -> isText x t = true ->
  expectText tokens_ x c s = (Ok tt, ahead 1 s).
Proof.
  intros H E. unfold expectText. rewrite (ev_if _ _ _ _ _ (ev_checkText x s t ts H)), E.
  unfold isText in E. rewrite !andb_true_iff, negb_true_iff in E.
  by rewrite (ev_bind _ _ _ _ _ (ev_advance s t ts H (proj1 (proj1 E)))).
Qed.
Lemma ev_expect ty c s t ts : at_ s (t :: ts) -> isType ty t = true ->
  expect tokens_ ty c s = (Ok t, ahead 1 s).
Proof.
  intros H E. unfold expect. rewrite (ev_if _ _ _ _ _ (ev_check ty s t ts H)), E.
  unfold isType in E. rewrite andb_true_iff, negb_true_iff in E. apply (ev_advance s t ts H), E.
Qed.

(** ** What stops a level *)
Lemma mem_string_In x l : mem_string x l = true <-> In x l.
Proof.
  unfold mem_string. rewrite existsb_exists. split.
  - intros (y & Hy & E). apply String.eqb_eq in E. by subst y.
  - intros H. exists x. split; [done|apply String.eqb_refl].
Qed.
Definition subset_string (l l' : list string) : bool := forallb (fun x => mem_string x l') l.
Lemma subset_mem l l' x : subset_string l l' = true -> mem_string x l = true -> mem_string x l' = true.
Proof. unfold subset_string. rewrite forallb_forall, !mem_string_In. intros H Hx. by apply mem_string_In, H. Qed.
Lemma follow_mono k : k < 14 -> subset_string (follow k) (follow (S k)) = true.
Proof. intros Hk. do 14 (destruct k as [|k]; [by vm_compute|]). lia. Qed.
Lemma stops_S k ts : k < 14 -> stops k ts = true -> stops (S k) ts = true.
Proof.
  intros Hk. destruct ts as [|t ts]; [done|]. unfold stops. rewrite !andb_true_iff. intros [H1 H2]. split; [done|].
  eapply subset_mem; [by apply follow_mono|done].
Qed.
Lemma stops_le k k' ts : k <= k' -> k' <= 14 -> stops k ts = true -> stops k' ts = true.
Proof. induction 1; intros H'; [done|]. intros Hs. apply stops_S; [lia|]. apply IHle; [lia|done]. Qed.
Lemma stops_head k t ts : stops k (t :: ts) = true ->
  ttype t = TSymbol /\ mem_string (text t) (follow k) = true.
Proof. unfold stops. by rewrite andb_true_iff, bool_decide_eq_true. Qed.
Lemma stops_sym k x ts : mem_string x (follow k) = true -> stops k (sym x :: ts) = true.
Proof. done. Qed.
(** A text that cannot follow. *)
Lemma stops_not k x t ts : stops k (t :: ts) = true -> mem_string x (follow k) = false -> isText x t = false.
Proof.
  intros [_ H]%stops_head Hx. unfold isText. destruct (String.eqb_spec (text t) x) as [E|]; [|by rewrite andb_false_r].
  subst x. congruence.
Qed.
Lemma stops_type k ty t ts : stops k (t :: ts) = true -> ty <> TSymbol -> isType ty t = false.
Proof.
  intros [H _]%stops_head Hty. unfold isType. rewrite H. rewrite bool_decide_false by done. by rewrite andb_false_r.
Qed.
Lemma stops_cons k ts : stops k ts = true -> exists t ts', ts = t :: ts'.
Proof. destruct ts as [|t ts]; [done|]. eauto. Qed.

Lemma matchOp_none ops s t ts : at_ s (t :: ts) -> (forall x, In x (map fst ops) -> isText x t = false) ->
  matchOp tokens_ ops s = (Ok None, s).
Proof.
  intros H Hx. induction ops as [|[x o] ops IH]; simpl; [done|].
  rewrite (ev_if _ _ _ _ _ (ev_checkText x s t ts H)), Hx by (by left). apply IH. intros y Hy. apply Hx. by right.
Qed.
Lemma ops_not_follow k : 2 <= k <= 11 -> forallb (fun x => negb (mem_string x (follow k))) (map fst (opsOfLevel k)) = true.
Proof. intros Hk. do 12 (destruct k as [|k]; [by (lia || vm_compute)|]). lia. Qed.
Lemma matchOp_stops k s ts : 2 <= k <= 11 -> at_ s ts -> stops k ts = true ->
  matchOp tokens_ (opsOfLevel k) s = (Ok None, s).
Proof.
  intros Hk H Hs. destruct (stops_cons _ _ Hs) as (t & ts' & ->). apply (matchOp_none _ _ t ts' H).
  intros x Hx. apply (stops_not k x t ts'); [done|]. pose proof (ops_not_follow k Hk) as Ho.
  rewrite forallb_forall in Ho. by apply negb_true_iff, Ho.
Qed.
Lemma matchOp_op o s ts : at_ s (sym (opText o) :: ts) ->
  matchOp tokens_ (opsOfLevel (opLevel o)) s = (Ok (Some o), s).
Proof.
  intros H. destruct o; simpl; unfold opsOfLevel; simpl;
    repeat (rewrite (ev_if _ _ _ _ _ (ev_checkText _ _ _ _ H)); simpl); reflexivity.
Qed.
Lemma assignOp_none k s ts : k <= 12 -> at_ s ts -> stops k ts = true -> assignOp tokens_ s = (Ok None, s).
Proof.
  intros Hk H Hs. apply (stops_le k 12) in Hs; [|lia|lia].
  destruct (stops_cons _ _ Hs) as (t & ts' & ->). unfold assignOp.
  rewrite (ev_if _ _ _ _ _ (ev_checkText "=" s t ts' H)), (stops_not 12 "=" t ts' Hs) by reflexivity.
  rewrite (ev_bind _ _ None s s); [done|]. apply (matchOp_none _ _ t ts' H).
  intros x Hx. apply (stops_not 12 x t ts' Hs). revert x Hx.
  assert (forallb (fun x => negb (mem_string x (follow 12))) (map fst kCompoundOps) = true) as E by by vm_compute.
  rewrite forallb_forall in E. intros x Hx. by apply negb_true_iff, E.
Qed.
Lemma incDecOp_none k s ts : k <= 14 -> at_ s ts -> stops k ts = true -> incDecOp tokens_ s = (Ok None, s).
Proof.
  intros Hk H Hs. apply (stops_le k 14) in Hs; [|lia|lia].
  destruct (stops_cons _ _ Hs) as (t & ts' & ->). unfold incDecOp.
  rewrite (ev_if _ _ _ _ _ (ev_checkText "++" s t ts' H)), (stops_not 14 "++" t ts' Hs) by reflexivity.
  by rewrite (ev_if _ _ _ _ _ (ev_checkText "--" s t ts' H)), (stops_not 14 "--" t ts' Hs) by reflexivity.
Qed.

(** ** What a printed expression begins with *)
Definition headOk (t : Token) : bool :=
  match ttype t with
  | TIdent => plain_text (text t) && negb (String.eqb (text t) "class")
  | TNumber | TString => plain_text (text t)
  | TSymbol => mem_string (text t) ["("; "!"; "-"; "~"]
  | _ => false
  end.
Definition operandOk (ts : list Token) : bool :=
  match ts with
  | t :: ts' =>
      headOk t
      && (negb (bool_decide (ttype t = TSymbol))
          || String.eqb (text t) "("
             && match ts' with
                | t' :: _ => headOk t' || bool_decide (t' = sym "{")
                | [] => false
                end)
  | [] => false
  end.
Definition startsOk (ts : list Token) : bool := match ts with t :: _ => headOk t | [] => false end.

Lemma plain_text_not x s : plain_text s = true -> mem_string x bracket_texts = true -> String.eqb s x = false.
Proof.
  unfold plain_text. rewrite negb_true_iff. intros H Hx. destruct (String.eqb_spec s x) as [->|]; [congruence|done].
Qed.
Lemma headOk_type t ty : headOk t = true -> ty = TEnd \/ ty = TKeyword \/ ty = TQuotedSymbol -> bool_decide (ttype t = ty) = false.
Proof. unfold headOk. intros H Hty. apply bool_decide_eq_false. intros E. rewrite E in H. by destruct Hty as [-> | [-> | ->]]. Qed.
Lemma headOk_plain t x : headOk t = true -> mem_string x bracket_texts = true -> String.eqb (text t) x = false.
Proof.
  intros H Hx. apply plain_text_not; [|done]. unfold headOk in H.
  destruct (ttype t); try discriminate H; try exact H; try (apply andb_true_iff in H; apply H).
  apply mem_string_In in H. simpl in H. by destruct H as [<- | [<- | [<- | [<- | []]]]].
Qed.
Lemma headOk_class t : headOk t = true -> bool_decide (ttype t = TIdent) && String.eqb (text t) "class" = false.
Proof.
  unfold headOk. intros H. case_bool_decide as E; [|done]. rewrite E in H. simpl.
  rewrite andb_true_iff, negb_true_iff in H. tauto.
Qed.

(** ** Reading at a level *)
Definition fuel_ok (lvl f : nat) (s : ParseState) : Prop :=
  3 * (n - pos_ s) + match lvl with 0 | 1 => 2 | 13 | 14 => 0 | _ => 1 end <= f.
Definition readsTo (lvl stop : nat) (ts : list Token) (e : AstNode) : Prop := forall f s rest,
  at_ s (ts ++ rest) -> stops stop rest = true -> fuel_ok lvl f s ->
  parseLevel tokens_ dialect_ lvl f s = (Ok e, ahead (length ts) s).
Definition reads (lvl : nat) : list Token -> AstNode -> Prop := readsTo lvl lvl.

(** A loop that starts with [first] and has read [ts]. *)
Definition loops (first : P AstNode) (round : AstNode -> P (AstNode + AstNode)) (good : ParseState -> Prop)
    (lvl : nat) (ts : list Token) (e : AstNode) : Prop := forall s rest K,
  at_ s (ts ++ rest) -> stops lvl rest = true -> good s -> length ts <= K ->
  exists K', K <= K' + length ts /\
    mbind first (rounds K round) s = rounds K' round e (ahead (length ts) s).

Lemma loops_extend first round good lvl lvl' ts suf t e :
  loops first round good lvl ts t -> suf <> [] ->
  (forall s rest, at_ s (suf ++ rest) -> stops lvl' rest = true -> good s -> round t s = (Ok (inl e), ahead (length suf) s)) ->
  (forall rest, stops lvl (suf ++ rest) = true) -> (forall s k, good s -> good (ahead k s)) ->
  loops first round good lvl' (ts ++ suf) e.
Proof.
  intros Ht Hsuf Hr Hstop Hgood s rest K H Hs Hg HK. rewrite length_app in *. rewrite <- app_assoc in H.
  destruct (Ht s (suf ++ rest) K H (Hstop rest) Hg ltac:(lia)) as (K1 & HK1 & E).
  destruct K1 as [|K1]; [destruct suf; [done|simpl in *; lia]|].
  exists K1. split; [destruct suf; [done|simpl in *; lia]|]. rewrite E. simpl.
  rewrite (ev_bind _ _ _ _ _ (Hr _ rest (at_ahead _ _ _ H) Hs (Hgood _ _ Hg))). simpl. by rewrite ahead_add.
Qed.

(** ** Primary expressions *)
Lemma skip_if {A} c (x y : P A) s : c s = (Ok false, s) -> (If c Then x Else y) s = y s.
Proof. apply ev_if. Qed.
Lemma take_if {A} c (x y : P A) s : c s = (Ok true, s) -> (If c Then x Else y) s = x s.
Proof. apply ev_if. Qed.
Lemma test_text b x s t ts : at_ s (t :: ts) -> isText x t = b -> checkText tokens_ x s = (Ok b, s).
Proof. intros H <-. by apply (ev_checkText _ _ t ts). Qed.
Lemma test_type b ty s t ts : at_ s (t :: ts) -> isType ty t = b -> check tokens_ ty s = (Ok b, s).
Proof. intros H <-. by apply (ev_check _ _ t ts). Qed.
Lemma test_peekText b k x s ts t : at_ s ts -> ts !! k = Some t -> String.eqb (text t) x = b ->
  peekText tokens_ k x s = (Ok b, s).
Proof. intros H Hk <-. by apply (ev_peekText _ _ _ ts). Qed.
Lemma test_peekType b k ty s ts t : at_ s ts -> ts !! k = Some t -> bool_decide (ttype t = ty) = b ->
  peekType tokens_ k ty s = (Ok b, s).
Proof. intros H Hk <-. by apply (ev_peekType _ _ _ ts). Qed.

(** Decides the tests of a rule, given the tokens ahead. *)
Ltac test H :=
  lazymatch goal with
  | |- andP _ _ _ = _ => first [apply ev_and_false; test H | eapply ev_and; [test H|test H]]
  | |- atTypeKeyword _ _ = _ => unfold atTypeKeyword; test H
  | |- checkText _ _ _ = _ => eapply test_text; [exact H|first [reflexivity|eassumption]]
  | |- check _ _ _ = _ => eapply test_type; [exact H|first [reflexivity|eassumption]]
  | |- peekText _ _ _ _ = _ => eapply test_peekText; [exact H|reflexivity|first [reflexivity|eassumption]]
  | |- peekType _ _ _ _ = _ => eapply test_peekType; [exact H|reflexivity|first [reflexivity|eassumption]]
  | |- mret _ _ = _ => reflexivity
  end.
Ltac choose_branch H := repeat first [rewrite skip_if by (test H) | rewrite take_if by (test H)].

Section Fuel.
Context (fuel : nat).
Local Abbreviation tern := (parse tokens_ dialect_ fuel Ternary) (only parsing).
Local Abbreviation stat := (parse tokens_ dialect_ fuel Statement) (only parsing).
Local Abbreviation primary := (parsePrimary tokens_ dialect_ tern stat) (only parsing).

Lemma primary_ident x s ts : at_ s (ident x :: ts) -> primary s = parseName tokens_ dialect_ tern stat s.
Proof. intros H. unfold parsePrimary. choose_branch H. reflexivity. Qed.
Lemma primary_string x s ts : at_ s (mkToken TString x 1 :: ts) -> primary s = parseStringLiteral tokens_ s.
Proof. intros H. unfold parsePrimary. choose_branch H. reflexivity. Qed.
Lemma primary_number x s ts : at_ s (mkToken TNumber x 1 :: ts) -> primary s = parseNumberLiteral tokens_ s.
Proof. intros H. unfold parsePrimary. choose_branch H. reflexivity. Qed.
Lemma primary_array s ts : at_ s (sym "(" :: sym "{" :: ts) -> primary s = parseArrayLiteral tokens_ tern s.
Proof. intros H. unfold parsePrimary. choose_branch H. reflexivity. Qed.
Lemma primary_paren t s ts : headOk t = true -> at_ s (sym "(" :: t :: ts) -> primary s = parseParenthesized tokens_ tern s.
Proof.
  intros Ht H. unfold parsePrimary.
  pose proof (headOk_plain t "[" Ht eq_refl). pose proof (headOk_plain t ":" Ht eq_refl).
  pose proof (headOk_plain t "*" Ht eq_refl). pose proof (headOk_plain t "{" Ht eq_refl).
  choose_branch H. reflexivity.
Qed.

Lemma at_next s t ts : at_ s (t :: ts) -> at_ (ahead 1 s) ts.
Proof. apply (at_ahead s [t] ts). Qed.
Lemma rounds_done {A} (body : A -> P (A + A)) a b s s' : body a s = (Ok (inr b), s') ->
  rounds (maxRounds tokens_) body a s = (Ok b, s').
Proof. intros H. unfold maxRounds. simpl. by rewrite (ev_bind _ _ _ _ _ H). Qed.

Lemma name_var x s t ts : plain_name x = true -> at_ s (ident x :: t :: ts) -> stops 14 (t :: ts) = true ->
  parseName tokens_ dialect_ tern stat s = (Ok (VarRefExpr x), ahead 1 s).
Proof.
  intros Hx H Hs. unfold parseName. rewrite (ev_bind _ _ _ _ _ (ev_advance s _ _ H eq_refl)).
  cbv zeta. change (text (ident x)) with x. unfold plain_name in Hx. rewrite !andb_true_iff, !negb_true_iff in Hx.
  destruct Hx as [[_ ->] _]. apply at_next in H.
  pose proof (stops_not _ "(" _ _ Hs eq_refl). pose proof (stops_not _ "::" _ _ Hs eq_refl).
  pose proof (stops_not _ "{" _ _ Hs eq_refl).
  unfold dialectIs.
  destruct (String.eqb x "new"), (String.eqb x "efun"), (String.eqb x "catch"), (String.eqb x "time_expression"),
    (bool_decide (dialect_ = FluffOS)); choose_branch H; reflexivity.
Qed.

Lemma read_string x s t ts : at_ s (mkToken TString x 1 :: t :: ts) -> stops 14 (t :: ts) = true ->
  parseStringLiteral tokens_ s = (Ok (StringLiteral x), ahead 1 s).
Proof.
  intros H Hs. unfold parseStringLiteral. rewrite (ev_bind _ _ _ _ _ (ev_advance s _ _ H eq_refl)).
  erewrite ev_bind; [reflexivity|]. apply rounds_done. apply at_next in H.
  pose proof (stops_type 14 TString _ _ Hs ltac:(done)). choose_branch H. reflexivity.
Qed.
Lemma read_number v s ts : at_ s (mkToken TNumber (to_string v) 1 :: ts) -> (0 <= v)%Z -> in_int64 v = true ->
  parseNumberLiteral tokens_ s = (Ok (IntLiteral v), ahead 1 s).
Proof.
  intros H Hv Hi. unfold parseNumberLiteral. rewrite (ev_bind _ _ _ _ _ (ev_advance s _ _ H eq_refl)).
  cbv zeta. cbn [text]. pose proof (to_string_isdigit v Hv) as Hd.
  by rewrite (digits_no_dot _ Hd), (digits_not_hex _ Hd), (stoll_to_string v Hi).
Qed.


(** ** Lists of arguments *)
Lemma fuel_ok_ahead lvl f k s : fuel_ok lvl f s -> fuel_ok lvl f (ahead k s).
Proof. unfold fuel_ok, ahead. simpl. lia. Qed.
Lemma fuel_ok_inside lvl lvl' f k s t ts : at_ s (t :: ts) -> fuel_ok lvl f s -> fuel_ok lvl' f (ahead (S k) s).
Proof.
  intros H. destruct (at_length _ _ H ltac:(done)) as [_ Hlt]. unfold fuel_ok.
  change (pos_ (ahead (S k) s)) with (pos_ s + S k).
  enough (match lvl' with 0 | 1 => 2 | 13 | 14 => 0 | _ => 1 end <= 2) by lia.
  do 15 (destruct lvl' as [|lvl']; [lia|]). lia.
Qed.
Lemma accept_no x s t ts : at_ s (t :: ts) -> isText x t = false -> accept tokens_ x s = (Ok false, s).
Proof. intros H E. by rewrite (ev_accept x s t ts H), E. Qed.
Lemma accept_yes x s t ts : at_ s (t :: ts) -> isText x t = true -> accept tokens_ x s = (Ok true, ahead 1 s).
Proof. intros H E. by rewrite (ev_accept x s t ts H), E. Qed.
Lemma headOk_text x t : headOk t = true -> mem_string x ["("; "!"; "-"; "~"] = false -> isText x t = false.
Proof.
  unfold headOk, isText, isEnd. intros H Hx. destruct (ttype t); try done.
  destruct (String.eqb_spec (text t) x) as [E|]; [|by rewrite andb_false_r]. subst x. congruence.
Qed.

Definition element (e : AstNode) : Prop := reads 1 (print 1 e) e /\ startsOk (print 1 e) = true.
Lemma read_spreadable e s t ts : element e -> fuel_ok 1 fuel s -> at_ s (print 1 e ++ t :: ts) ->
  stops 1 (t :: ts) = true ->
  parseSpreadable tokens_ tern s = (Ok (e, false), ahead (length (print 1 e)) s).
Proof.
  intros [He _] Hf H Hs. unfold parseSpreadable, parseExpr. rewrite (ev_bind _ _ _ _ _ (He fuel s _ H Hs Hf)).
  apply at_ahead in H. by rewrite (ev_bind _ _ _ _ _ (accept_no "..." _ _ _ H (stops_not _ "..." _ _ Hs eq_refl))).
Qed.
Lemma sepBy_cons e e' args : sepBy (map (print 1) (e :: e' :: args))
  = print 1 e ++ sym "," :: sepBy (map (print 1) (e' :: args)).
Proof. done. Qed.
Lemma sepBy_starts e args : startsOk (print 1 e) = true -> exists t ts,
  sepBy (map (print 1) (e :: args)) = t :: ts /\ headOk t = true.
Proof.
  intros H. destruct (print 1 e) as [|t ts] eqn:E; [done|].
  destruct args as [|e' args]; [|rewrite sepBy_cons]; [simpl|]; rewrite E; by eexists _, _.
Qed.
Lemma read_items close rest args : mem_string close [")"; "}"] = true -> Forall element args -> args <> [] ->
  forall s K acc, at_ s (sepBy (map (print 1) args) ++ sym close :: rest) -> length args <= K -> fuel_ok 1 fuel s ->
  rounds K (spreadRound tokens_ tern close) acc s
  = (Ok (acc ++ map (fun e => (e, false)) args), ahead (length (sepBy (map (print 1) args))) s).
Proof.
  intros Hc Hall. induction Hall as [|e args He Hall IH]; [done|]. intros _ s K acc H HK Hf.
  destruct K as [|K]; [simpl in HK; lia|]. simpl rounds.
  assert (stops 1 (sym close :: rest) = true) as Hstop.
  { apply stops_sym. by apply (subset_mem _ (follow 1)) in Hc. }
  destruct args as [|e' args].
  - erewrite ev_bind; [|unfold spreadRound; erewrite ev_bind; [|by eapply (read_spreadable e)]; cbv zeta].
    2:{ rewrite skip_if; [reflexivity|]. eapply accept_no; [by apply at_ahead in H|]. apply mem_string_In in Hc. by destruct Hc as [<- | [<- | []]]. }
    reflexivity.
  - rewrite sepBy_cons in H |- *. rewrite <- app_assoc, <- app_comm_cons in H.
    erewrite ev_bind; [|unfold spreadRound; erewrite ev_bind; [|by eapply (read_spreadable e)]; cbv zeta].
    2:{ apply at_ahead in H. erewrite ev_bind; [|by eapply accept_yes]. apply at_next in H. cbv iota.
        destruct (sepBy_starts e' args (proj2 (Forall_inv Hall))) as (t & ts & E & Ht). rewrite E in H.
        rewrite skip_if; [reflexivity|]. eapply test_text; [exact H|]. apply headOk_text; [done|].
        apply mem_string_In in Hc. by destruct Hc as [<- | [<- | []]]. }
    cbv iota. rewrite IH; [|done|..].
    + rewrite !ahead_add, length_app. simpl. rewrite <- app_assoc. repeat f_equal; lia.
    + apply at_ahead in H. by apply at_next in H.
    + simpl in *. lia.
    + by do 2 apply fuel_ok_ahead.
Qed.

Lemma spreadFlags_none (args : list AstNode) : spreadFlags (map (fun e => (e, false)) args) = [].
Proof. unfold spreadFlags. by replace (existsb snd _) with false by (induction args; done). Qed.
Lemma read_list close rest args s : mem_string close [")"; "}"] = true -> Forall element args ->
  at_ s (sepBy (map (print 1) args) ++ sym close :: rest) -> fuel_ok 1 fuel s ->
  parseSpreadList tokens_ tern close s = (Ok (args, []), ahead (length (sepBy (map (print 1) args))) s).
Proof.
  intros Hc Hall H Hf. unfold parseSpreadList. destruct args as [|e args].
  - rewrite take_if; [by rewrite ahead_0|]. eapply test_text; [exact H|].
    apply mem_string_In in Hc. by destruct Hc as [<- | [<- | []]].
  - destruct (sepBy_starts e args (proj2 (Forall_inv Hall))) as (t & ts & E & Ht).
    rewrite skip_if.
    2:{ rewrite E in H. eapply test_text; [exact H|]. apply headOk_text; [done|].
        apply mem_string_In in Hc. by destruct Hc as [<- | [<- | []]]. }
    erewrite ev_bind; [|eapply (read_items close rest); [done|done|done|exact H| |exact Hf]].
    + change ([] ++ ?l) with l. by rewrite spreadFlags_none, map_map, map_id.
    + destruct (at_length _ _ H ltac:(by rewrite E)) as [HL _]. rewrite length_app in HL. cbn [length] in HL.
      assert (forall l, Forall element l -> length l <= length (sepBy (map (print 1) l))) as Hlen.
      { clear. induction 1 as [|x l [_ Hx] Hl IHl]; [done|]. destruct l as [|y l].
        - simpl. by destruct (print 1 x); [done|simpl; lia].
        - rewrite sepBy_cons, length_app. cbn [length] in *. lia. }
      specialize (Hlen _ Hall). unfold maxRounds. lia.
Qed.
Lemma read_callArgs c rest args s : Forall element args -> fuel_ok 14 fuel s ->
  at_ s (sym "(" :: sepBy (map (print 1) args) ++ sym ")" :: rest) ->
  parseCallArgs tokens_ tern c s = (Ok (args, []), ahead (2 + length (sepBy (map (print 1) args))) s).
Proof.
  intros Hall Hf H. unfold parseCallArgs.
  rewrite (ev_bind _ _ _ _ _ (ev_expectText "(" c _ _ _ H eq_refl)).
  pose proof (fuel_ok_inside _ 1 _ 0 _ _ _ H Hf) as Hf'. apply at_next in H.
  erewrite ev_bind; [|by eapply (read_list ")")].
  apply at_ahead in H. rewrite (ev_bind _ _ _ _ _ (ev_expectText ")" c _ _ _ H eq_refl)).
  rewrite !ahead_add. cbv zeta. unfold mret. do 2 f_equal; lia.
Qed.
End Fuel.

Lemma reads_var x : plain_name x = true -> reads 14 [ident x] (VarRefExpr x).
Proof.
  intros Hx f s rest H Hs _. destruct (stops_cons _ _ Hs) as (t & ts & ->). simpl parseLevel.
  rewrite (primary_ident f _ _ _ H). exact (name_var f x s t ts Hx H Hs).
Qed.
Lemma reads_string x : reads 14 [mkToken TString x 1] (StringLiteral x).
Proof.
  intros f s rest H Hs _. destruct (stops_cons _ _ Hs) as (t & ts & ->). simpl parseLevel.
  rewrite (primary_string f _ _ _ H). exact (read_string x s t ts H Hs).
Qed.
Lemma reads_intLiteral v : (0 <= v)%Z -> in_int64 v = true -> reads 14 [mkToken TNumber (to_string v) 1] (IntLiteral v).
Proof.
  intros Hv Hi f s rest H Hs _. simpl parseLevel. rewrite (primary_number f _ _ _ H). by eapply read_number.
Qed.
Lemma reads_call g args : call_name g = true -> Forall element args ->
  reads 14 (ident g :: sym "(" :: sepBy (map (print 1) args) ++ [sym ")"]) (CallExpr g args [] false false "").
Proof.
  intros Hg Hall f s rest H Hs Hf. simpl parseLevel. rewrite (primary_ident f _ _ _ H). unfold parseName.
  rewrite (ev_bind _ _ _ _ _ (ev_advance s _ _ H eq_refl)). cbv zeta. change (text (ident g)) with g.
  unfold call_name, plain_name in Hg. rewrite !andb_true_iff, !negb_true_iff in Hg. destruct Hg as [[[_ ->] _] Hn].
  assert (forall x, mem_string x ["sscanf"; "call_other"; "new"; "efun"; "catch"; "time_expression"] = true ->
            String.eqb g x = false) as Hne.
  { intros x Hx. destruct (String.eqb_spec g x) as [<-|]; [congruence|done]. }
  pose proof (fuel_ok_inside _ 1 _ 1 _ _ _ H Hf) as Hf'. simpl app in H. rewrite <- app_assoc in H. apply at_next in H.
  rewrite !Hne by done. choose_branch H. unfold parseCall.
  rewrite (ev_bind _ _ _ _ _ (ev_advance _ _ _ H eq_refl)). apply at_next in H. rewrite ahead_add in *.
  erewrite ev_bind; [|by eapply (read_list f ")")]. apply at_ahead in H.
  rewrite (ev_bind _ _ _ _ _ (ev_expectText ")" _ _ _ _ H eq_refl)).
  rewrite !Hne by done. rewrite !ahead_add. unfold mret. do 2 f_equal. cbn [length]. rewrite length_app. simpl. lia.
Qed.
Lemma reads_array args : Forall element args ->
  reads 14 (sym "(" :: sym "{" :: sepBy (map (print 1) args) ++ [sym "}"; sym ")"]) (ArrayLiteralExpr args []).
Proof.
  intros Hall f s rest H Hs Hf. simpl parseLevel. rewrite (primary_array f _ _ H). unfold parseArrayLiteral.
  pose proof (fuel_ok_inside _ 1 _ 1 _ _ _ H Hf) as Hf'. simpl app in H. rewrite <- app_assoc in H.
  rewrite (ev_bind _ _ _ _ _ (ev_advance s _ _ H eq_refl)). apply at_next in H.
  rewrite (ev_bind _ _ _ _ _ (ev_advance _ _ _ H eq_refl)). apply at_next in H. rewrite ahead_add in *.
  erewrite ev_bind; [|by eapply (read_list f "}")]. apply at_ahead in H.
  rewrite (ev_bind _ _ _ _ _ (ev_expectText "}" _ _ _ _ H eq_refl)). apply at_next in H.
  rewrite (ev_bind _ _ _ _ _ (ev_expectText ")" _ _ _ _ H eq_refl)).
  rewrite !ahead_add. unfold mret. do 2 f_equal. cbn [length]. rewrite length_app. simpl. lia.
Qed.
Lemma reads_paren ts e : startsOk ts = true -> reads 0 ts e -> reads 14 (parens true ts) e.
Proof.
  intros Hts He f s rest H Hs Hf. simpl parseLevel. destruct ts as [|t ts]; [done|].
  rewrite (primary_paren f t _ _ Hts H). unfold parseParenthesized.
  pose proof (fuel_ok_inside _ 0 _ 0 _ _ _ H Hf) as Hf'.
  rewrite (ev_bind _ _ _ _ _ (ev_advance s _ _ H eq_refl)). apply at_next in H.
  change (at_ (ahead 1 s) (((t :: ts) ++ [sym ")"]) ++ rest)) in H. rewrite <- app_assoc in H.
  rewrite (ev_bind _ _ _ _ _ (He f _ _ H ltac:(done) Hf')). apply at_ahead in H.
  rewrite (ev_bind _ _ _ _ _ (ev_expectText ")" _ _ _ _ H eq_refl)).
  rewrite !ahead_add. unfold mret. do 2 f_equal. unfold parens. cbn [length]. rewrite length_app. simpl. lia.
Qed.

(** ** The levels that loop: comma, binary operators, suffixes *)
Definition roundOf (lvl f : nat) : AstNode -> P (AstNode + AstNode) :=
  match lvl with
  | 0 => fun left => If accept tokens_ "," Then (right <- parse tokens_ dialect_ f Ternary ;; again (CommaExpr left right))
                     Else done left
  | 13 => postfixRound tokens_ dialect_ (parse tokens_ dialect_ f Ternary)
  | _ => binaryRound tokens_ (opsOfLevel lvl) (parseLevel tokens_ dialect_ (S lvl) f)
  end.
Definition spine (lvl : nat) (ts : list Token) (e : AstNode) : Prop := forall f,
  loops (parseLevel tokens_ dialect_ (S lvl) f) (roundOf lvl f) (fuel_ok lvl f) (S lvl) ts e.
Definition looping (lvl : nat) : bool := negb (existsb (Nat.eqb lvl) [1; 12; 14]) && (lvl <=? 14).
Definition parsed (lvl : nat) (ts : list Token) (e : AstNode) : Prop :=
  if looping lvl then spine lvl ts e else reads lvl ts e.

Tactic Notation "each_level" ident(l) :=
  do 15 try (destruct l as [|l]); try discriminate; try lia.

Lemma spine_start lvl ts e : looping lvl = true -> reads (S lvl) ts e -> spine lvl ts e.
Proof.
  intros Hl He f s rest K H Hs Hf HK. exists K. split; [lia|].
  apply ev_bind. apply (He f s rest H Hs). revert Hf. unfold fuel_ok. each_level lvl; done.
Qed.
Lemma roundOf_stops lvl f e s ts : looping lvl = true -> at_ s ts -> stops lvl ts = true ->
  roundOf lvl f e s = (Ok (inr e), s).
Proof.
  intros Hl H Hs. destruct (stops_cons _ _ Hs) as (t & ts' & ->).
  assert (2 <= lvl <= 11 -> binaryRound tokens_ (opsOfLevel lvl) (parseLevel tokens_ dialect_ (S lvl) f) e s = (Ok (inr e), s)) as Hb.
  { intros Hk. unfold binaryRound. by rewrite (ev_bind _ _ _ _ _ (matchOp_stops lvl _ _ Hk H Hs)). }
  destruct (decide (lvl = 0)) as [->|]; [|destruct (decide (lvl = 13)) as [->|]].
  - unfold roundOf. rewrite skip_if; [done|]. eapply accept_no; [exact H|]. by apply (stops_not 0 _ _ ts').
  - unfold roundOf, postfixRound. pose proof (stops_not _ "->" _ _ Hs eq_refl). pose proof (stops_not _ "[" _ _ Hs eq_refl).
    choose_branch H. done.
  - revert Hb. each_level lvl; intros Hb; apply Hb; lia.
Qed.
Lemma ev_assoc {A B C} (m : P A) (r : A -> P B) (k : B -> P C) b s s' :
  mbind m r s = (Ok b, s') -> mbind m (fun a => mbind (r a) k) s = k b s'.
Proof. unfold mbind. destruct (m s) as [[a|e|w|] s1]; intros H; try discriminate H. by rewrite H. Qed.
Lemma spine_reads lvl ts e : looping lvl = true -> spine lvl ts e -> reads lvl ts e.
Proof.
  intros Hl He f s rest H Hs Hf.
  assert (stops (S lvl) rest = true) as Hs' by (apply stops_S; [each_level lvl|done]).
  assert (rest <> []) as Hne by by destruct rest.
  destruct (at_length _ _ H) as [HL _]; [by destruct ts|]. rewrite length_app in HL.
  destruct (He f s rest (maxRounds tokens_) H Hs' Hf ltac:(unfold maxRounds; lia)) as (K' & HK & E).
  destruct K' as [|K']; [unfold maxRounds in HK; lia|]. pose proof (at_ahead _ _ _ H) as H'.
  assert (mbind (parseLevel tokens_ dialect_ (S lvl) f) (rounds (maxRounds tokens_) (roundOf lvl f)) s
          = (Ok e, ahead (length ts) s)) as E'.
  { rewrite E. simpl. by rewrite (ev_bind _ _ _ _ _ (roundOf_stops lvl f e _ _ Hl H' Hs)). }
  destruct (decide (lvl = 13)) as [->|].
  - change (parseLevel tokens_ dialect_ 13 f s) with
      (parsePostfix tokens_ dialect_ (parse tokens_ dialect_ f Ternary) (parse tokens_ dialect_ f Statement) s).
    unfold parsePostfix. erewrite ev_assoc by exact E'.
    by rewrite (ev_bind _ _ _ _ _ (incDecOp_none 13 _ _ ltac:(lia) H' Hs)).
  - revert E'. each_level lvl; intros E'; exact E'.
Qed.
Lemma parsed_reads lvl ts e : parsed lvl ts e -> reads lvl ts e.
Proof. unfold parsed. destruct (looping lvl) eqn:Hl; [by apply spine_reads|done]. Qed.

(** ** From a level to the one below *)
Lemma operandOk_app ts rest : operandOk ts = true -> operandOk (ts ++ rest) = true.
Proof.
  destruct ts as [|t [|t' ts]]; simpl; [done| |done]. rewrite !andb_true_iff, !orb_true_iff.
  intros [H1 [H2|H2]]; [tauto|]. by rewrite andb_false_r in H2.
Qed.
(** No operator or cast is read where an operand is. *)
Lemma operand_text x t ts : operandOk (t :: ts) = true -> String.eqb "(" x = false -> isText x t = false.
Proof.
  unfold operandOk. rewrite !andb_true_iff, orb_true_iff, negb_true_iff, bool_decide_eq_false, andb_true_iff.
  intros [Ht [Hs|[Hs _]]] Hx; unfold isText, isEnd.
  - unfold headOk in Ht. by destruct (ttype t).
  - apply String.eqb_eq in Hs. by rewrite Hs, Hx, andb_false_r.
Qed.
Lemma operand_paren t ts : operandOk (t :: ts) = true -> isText "(" t = true -> exists t' ts', ts = t' :: ts' /\
  isTypeKeyword t' = false /\ bool_decide (ttype t' = TIdent) && String.eqb (text t') "class" = false.
Proof.
  unfold operandOk. rewrite !andb_true_iff, orb_true_iff, negb_true_iff, bool_decide_eq_false, andb_true_iff.
  intros [Ht [Hs|[_ Hn]]] H.
  - unfold headOk in Ht. unfold isText, isEnd in H. by destruct (ttype t).
  - destruct ts as [|t' ts]; [done|]. exists t', ts. split; [done|]. apply orb_true_iff in Hn as [Hn|Hn].
    + split; [|by apply headOk_class]. unfold isTypeKeyword. rewrite (headOk_type t' TKeyword Hn); [done|tauto].
    + apply bool_decide_eq_true in Hn. by rewrite Hn.
Qed.
Lemma no_typeCast u s t ts : at_ s (t :: ts) -> operandOk (t :: ts) = true ->
  parseTypeCast tokens_ u s = (Ok None, s).
Proof.
  intros H Hok. unfold parseTypeCast. apply skip_if. destruct (isText "(" t) eqn:E.
  - destruct (operand_paren t ts Hok E) as (t' & ts' & -> & Hk & _). eapply ev_and; [by eapply test_text|].
    by rewrite (ev_bind _ _ _ _ _ (ev_peekAt 1 s _ t' H eq_refl)), Hk.
  - apply ev_and_false. by eapply test_text.
Qed.
Lemma no_classCast u s t ts : at_ s (t :: ts) -> operandOk (t :: ts) = true ->
  parseClassCast tokens_ dialect_ u s = (Ok None, s).
Proof.
  intros H Hok. unfold parseClassCast, dialectIs. apply skip_if.
  destruct (bool_decide (dialect_ = FluffOS)); [|by test H].
  destruct (isText "(" t) eqn:E; [|by test H].
  destruct (operand_paren t ts Hok E) as (t' & ts' & -> & _ & Hc).
  destruct (bool_decide (ttype t' = TIdent)) eqn:Hi; simpl in Hc; by test H.
Qed.
Lemma unary_operand u tn st s ts : at_ s ts -> operandOk ts = true ->
  unaryRule tokens_ dialect_ u tn st s = parseAssignment tokens_ dialect_ tn st s.
Proof.
  intros H Hok. destruct ts as [|t ts]; [done|]. unfold unaryRule.
  rewrite (ev_bind _ _ _ _ _ (no_typeCast u _ _ _ H Hok)), (ev_bind _ _ _ _ _ (no_classCast u _ _ _ H Hok)).
  rewrite !skip_if by (eapply accept_no; [exact H|by eapply operand_text]).
  rewrite (ev_bind _ _ None s s); [done|]. unfold incDecOp.
  by rewrite !skip_if by (eapply test_text; [exact H|by eapply operand_text]).
Qed.
Lemma readsTo_weaken lvl j j' ts e : readsTo lvl j ts e -> j' <= j -> j <= 14 -> readsTo lvl j' ts e.
Proof. intros He Hj Hj' f s rest H Hs. apply (He f s rest H). by apply (stops_le j' j). Qed.
Lemma fuel_ok_S lvl f s : 1 <= lvl <= 12 -> fuel_ok lvl f s -> exists f', f = S f' /\ fuel_ok (if lvl =? 1 then 2 else 13) f' s.
Proof.
  intros Hl Hf. destruct f as [|f']; [unfold fuel_ok in Hf; each_level lvl|]. exists f'. split; [done|].
  unfold fuel_ok in *. each_level lvl; simpl; lia.
Qed.
Lemma down_unary ts e : reads 13 ts e -> operandOk ts = true -> reads 12 ts e.
Proof.
  intros He Hok f s rest H Hs Hf. destruct (fuel_ok_S 12 f s ltac:(lia) Hf) as (f' & -> & Hf').
  change (parseLevel tokens_ dialect_ 12 (S f') s) with
    (unaryRule tokens_ dialect_ (parse tokens_ dialect_ f' Unary) (parse tokens_ dialect_ f' Ternary)
       (parse tokens_ dialect_ f' Statement) s).
  rewrite (unary_operand _ _ _ s _ H) by by apply operandOk_app. unfold parseAssignment.
  rewrite (ev_bind _ _ _ _ _ (He f' s rest H (stops_S 12 rest ltac:(lia) Hs) Hf')).
  by rewrite (ev_bind _ _ _ _ _ (assignOp_none 12 _ _ ltac:(lia) (at_ahead _ _ _ H) Hs)).
Qed.
Lemma down_binary k j ts e : readsTo (S k) j ts e -> j <= k -> 2 <= k <= 11 -> readsTo k j ts e.
Proof.
  intros He Hj Hk f s rest H Hs Hf.
  assert (leftAssoc tokens_ (opsOfLevel k) (parseLevel tokens_ dialect_ (S k) f) s = (Ok e, ahead (length ts) s)) as E.
  { unfold leftAssoc. erewrite ev_bind; [|apply (He f s rest H Hs); revert Hf; clear -Hk; unfold fuel_ok; by each_level k].
    apply rounds_done. unfold binaryRound.
    rewrite (ev_bind _ _ _ _ _ (matchOp_stops k _ _ Hk (at_ahead _ _ _ H) (stops_le j k _ Hj ltac:(lia) Hs))). done. }
  revert E. clear -Hk. by each_level k.
Qed.
Lemma down_ternary j ts e : readsTo 2 j ts e -> j <= 1 -> readsTo 1 j ts e.
Proof.
  intros He Hj f s rest H Hs Hf. destruct (fuel_ok_S 1 f s ltac:(lia) Hf) as (f' & -> & Hf').
  change (parseLevel tokens_ dialect_ 1 (S f') s) with
    (ternaryRule tokens_ (parse tokens_ dialect_ f' Unary) (parse tokens_ dialect_ f' Ternary) s).
  unfold ternaryRule. rewrite (ev_bind _ _ _ _ _ (He f' s rest H Hs Hf')).
  apply (stops_le j 1) in Hs; [|done|lia]. destruct (stops_cons _ _ Hs) as (t & ts' & ->). apply at_ahead in H.
  by rewrite skip_if by (eapply accept_no; [exact H|by apply (stops_not 1 _ _ ts')]).
Qed.
Lemma parsed_down lvl ts e : lvl < 14 -> reads (S lvl) ts e -> (lvl = 12 -> operandOk ts = true) -> parsed lvl ts e.
Proof.
  intros Hl He Hok. unfold parsed. destruct (looping lvl) eqn:Hloop; [by apply spine_start|].
  destruct (decide (lvl = 12)) as [->|]; [apply down_unary; auto|].
  destruct (decide (lvl = 1)) as [->|]; [apply down_ternary; [|done]; by apply (readsTo_weaken _ 2); [|lia|lia]|].
  each_level lvl.
Qed.
Lemma parsed_le lvl k ts e : lvl <= k -> k <= 14 -> parsed k ts e -> (13 <= k -> operandOk ts = true) -> parsed lvl ts e.
Proof.
  intros Hl. induction Hl as [|k Hl IH]; [done|]. intros Hk He Hok. apply IH; [lia| |intros; apply Hok; lia].
  apply parsed_down; [lia|by apply parsed_reads|intros ->; apply Hok; lia].
Qed.

(** ** The expressions of each level *)
Lemma opLevel_range o : 2 <= opLevel o <= 11.
Proof. destruct o; simpl; lia. Qed.
Lemma opLevel_looping o : looping (opLevel o) = true.
Proof. by destruct o. Qed.
Lemma parsed_looping lvl ts e : looping lvl = true -> parsed lvl ts e = spine lvl ts e.
Proof. unfold parsed. by intros ->. Qed.
Lemma round_binary lvl f : 2 <= lvl <= 11 ->
  roundOf lvl f = binaryRound tokens_ (opsOfLevel lvl) (parseLevel tokens_ dialect_ (S lvl) f).
Proof. intros H. each_level lvl; reflexivity. Qed.
Lemma follow_op o : mem_string (opText o) (follow (S (opLevel o))) = true.
Proof. by destruct o. Qed.

Lemma parsed_binary o tl tr l r : parsed (opLevel o) tl l -> reads (S (opLevel o)) tr r ->
  parsed (opLevel o) (tl ++ sym (opText o) :: tr) (BinaryExpr o l r).
Proof.
  rewrite !parsed_looping by apply opLevel_looping. intros Hl Hr f.
  eapply loops_extend; [apply Hl|done| |intros rest; apply stops_sym, follow_op|by intros; apply fuel_ok_ahead].
  intros s rest H Hs Hf. rewrite round_binary by apply opLevel_range. unfold binaryRound.
  rewrite (ev_bind _ _ _ _ _ (matchOp_op o s _ H)), (ev_bind _ _ _ _ _ (ev_advance s _ _ H eq_refl)).
  rewrite (ev_bind _ _ _ _ _ (Hr f _ rest (at_next _ _ _ H) Hs (fuel_ok_inside _ _ _ 0 _ _ _ H Hf))).
  by rewrite ahead_add.
Qed.
Lemma parsed_comma tl tr l r : parsed 0 tl l -> reads 1 tr r -> parsed 0 (tl ++ sym "," :: tr) (CommaExpr l r).
Proof.
  rewrite !parsed_looping by done. intros Hl Hr f.
  eapply loops_extend; [apply Hl|done| |intros rest; by apply stops_sym|by intros; apply fuel_ok_ahead].
  intros s rest H Hs Hf. unfold roundOf.
  rewrite (ev_bind _ _ _ _ _ (accept_yes "," s _ _ H eq_refl)).
  rewrite (ev_bind _ _ _ _ _ (Hr f _ rest (at_next _ _ _ H) Hs (fuel_ok_inside _ _ _ 0 _ _ _ H Hf))).
  by rewrite ahead_add.
Qed.
Lemma parsed_arrow tt g args e : parsed 13 tt e -> Forall element args ->
  parsed 13 (tt ++ sym "->" :: ident g :: sym "(" :: sepBy (map (print 1) args) ++ [sym ")"])
    (CallOtherExpr e (StringLiteral g) args []).
Proof.
  rewrite !parsed_looping by done. intros Hl Hall f.
  eapply loops_extend; [apply Hl|done| |intros rest; by apply stops_sym|by intros; apply fuel_ok_ahead].
  intros s rest H Hs Hf. unfold roundOf, postfixRound. choose_branch H. unfold parseArrow, mbind at 1.
  pose proof (fuel_ok_inside _ 14 _ 1 _ _ _ H Hf) as Hf'.
  rewrite <- !app_comm_cons, <- app_assoc in H.
  rewrite (ev_bind _ _ _ _ _ (ev_advance s _ _ H eq_refl)). apply at_next in H.
  rewrite (ev_bind _ _ _ _ _ (ev_expect TIdent _ _ _ _ H eq_refl)). apply at_next in H. rewrite ahead_add in *.
  rewrite skip_if.
  2:{ unfold dialectIs. destruct (bool_decide (dialect_ = FluffOS)); [|by test H].
      eapply ev_and; [reflexivity|]. erewrite ev_bind by (eapply test_text; [exact H|reflexivity]). done. }
  rewrite (ev_bind _ _ _ _ _ (read_callArgs f _ rest args _ Hall Hf' H)).
  rewrite ahead_add. unfold again, mret. do 2 f_equal. cbn [length]. rewrite length_app. simpl. lia.
Qed.
Lemma parsed_index tt ti e i : parsed 13 tt e -> reads 1 ti i -> startsOk ti = true ->
  parsed 13 (tt ++ sym "[" :: ti ++ [sym "]"]) (IndexExpr e i None false false None).
Proof.
  rewrite !parsed_looping by done. intros Hl Hi Hti f.
  eapply loops_extend; [apply Hl|done| |intros rest; by apply stops_sym|by intros; apply fuel_ok_ahead].
  intros s rest H Hs Hf. unfold roundOf, postfixRound. choose_branch H. unfold parseIndex, mbind at 1.
  pose proof (fuel_ok_inside _ 1 _ 0 _ _ _ H Hf) as Hf'.
  rewrite <- !app_comm_cons, <- app_assoc in H.
  rewrite (ev_bind _ _ _ _ _ (ev_advance s _ _ H eq_refl)). apply at_next in H.
  assert (accept tokens_ "<" (ahead 1 s) = (Ok false, ahead 1 s)) as E.
  { destruct ti as [|t ti]; [done|]. eapply accept_no; [exact H|]. by apply headOk_text. }
  rewrite (ev_bind _ _ _ _ _ E).
  assert ((If dialectIs dialect_ LdMud Then parseExpr (parse tokens_ dialect_ f Ternary)
           Else parseCommaExpr tokens_ (parse tokens_ dialect_ f Ternary)) (ahead 1 s)
          = (Ok i, ahead (length ti) (ahead 1 s))) as E1.
  { unfold dialectIs. destruct (bool_decide (dialect_ = LdMud)); [by apply (Hi f _ _ H)|].
    apply (spine_reads 0 _ _ eq_refl (spine_start 0 _ _ eq_refl Hi) f _ _ H); done. }
  rewrite (ev_bind _ _ _ _ _ E1). apply at_ahead in H. rewrite ahead_add in *.
  assert (parseIndexRest tokens_ dialect_ (parse tokens_ dialect_ f Ternary) (ahead (1 + length ti) s)
          = (Ok (None, None, false), ahead (1 + length ti) s)) as E2.
  { unfold parseIndexRest. rewrite skip_if by by test H. rewrite skip_if; [done|]. by eapply accept_no. }
  rewrite (ev_bind _ _ _ _ _ E2), (ev_bind _ _ _ _ _ (ev_expectText "]" _ _ _ _ H eq_refl)).
  rewrite ahead_add. unfold again, mret. do 2 f_equal. cbn [length]. rewrite length_app. simpl. lia.
Qed.
Lemma reads_unary o ts e : reads 12 ts e -> reads 12 (sym (unaryText o) :: ts) (UnaryExpr o e).
Proof.
  intros He f s rest H Hs Hf. destruct (fuel_ok_S 12 f s ltac:(lia) Hf) as (f' & -> & Hf').
  change (parseLevel tokens_ dialect_ 12 (S f') s) with
    (unaryRule tokens_ dialect_ (parse tokens_ dialect_ f' Unary) (parse tokens_ dialect_ f' Ternary)
       (parse tokens_ dialect_ f' Statement) s).
  pose proof (fuel_ok_inside _ 12 _ 0 _ _ _ H Hf') as Hf2.
  pose proof (He f' _ _ (at_next _ _ _ H) Hs Hf2) as E. unfold unaryRule.
  rewrite (ev_bind _ _ None s s).
  2:{ unfold parseTypeCast. apply skip_if, ev_and_false. eapply test_text; [exact H|by destruct o]. }
  rewrite (ev_bind _ _ None s s).
  2:{ unfold parseClassCast, dialectIs. apply skip_if. destruct (bool_decide (dialect_ = FluffOS)); [|by test H].
      do 3 apply ev_and_false. eapply ev_and; [done|]. eapply test_text; [exact H|by destruct o]. }
  destruct o; simpl unaryText in *; repeat rewrite skip_if by (by eapply accept_no);
    (erewrite ev_bind by (eapply accept_yes; [exact H|reflexivity])); cbv iota;
    (erewrite ev_bind by exact E); by rewrite ahead_add.
Qed.
Lemma reads_ternary tc tt tf c x y : reads 2 tc c -> reads 1 tt x -> reads 1 tf y ->
  reads 1 (tc ++ sym "?" :: tt ++ sym ":" :: tf) (TernaryExpr c x y).
Proof.
  intros Hc Hx Hy f s rest H Hs Hf. destruct (fuel_ok_S 1 f s ltac:(lia) Hf) as (f' & -> & Hf').
  change (parseLevel tokens_ dialect_ 1 (S f') s) with
    (ternaryRule tokens_ (parse tokens_ dialect_ f' Unary) (parse tokens_ dialect_ f' Ternary) s).
  rewrite <- app_assoc, <- app_comm_cons, <- app_assoc, <- app_comm_cons in H. unfold ternaryRule.
  rewrite (ev_bind _ _ _ _ _ (Hc f' s _ H ltac:(by apply stops_sym) Hf')). apply at_ahead in H.
  apply (fuel_ok_ahead _ _ (length tc)) in Hf'.
  rewrite (ev_bind _ _ _ _ _ (accept_yes "?" _ _ _ H eq_refl)). cbv iota.
  pose proof (fuel_ok_inside _ 1 _ 0 _ _ _ H Hf') as Hf2. apply at_next in H.
  rewrite (ev_bind _ _ _ _ _ (Hx f' _ _ H ltac:(by apply stops_sym) Hf2)). apply at_ahead in H.
  rewrite (ev_bind _ _ _ _ _ (ev_expectText ":" _ _ _ _ H eq_refl)). apply at_next in H.
  rewrite !ahead_add in *.
  assert (fuel_ok 1 f' (ahead (length tc + (1 + (length tt + 1))) s)) as Hf3.
  { rewrite Nat.add_assoc, <- ahead_add. by apply fuel_ok_ahead. }
  rewrite (ev_bind _ _ _ _ _ (Hy f' _ _ H Hs Hf3)).
  rewrite ahead_add. unfold mret. do 2 f_equal. rewrite !length_app. simpl. rewrite !length_app. simpl. lia.
Qed.
Lemma matchOp_compound o s ts : compound_ok true o = true -> at_ s (sym (assignText true o) :: ts) ->
  matchOp tokens_ kCompoundOps s = (Ok (Some o), s).
Proof.
  intros Hc H. destruct o; try discriminate Hc; unfold assignText in H; simpl in H; unfold kCompoundOps;
    cbn [matchOp]; by choose_branch H.
Qed.
Lemma ev_assignOp c o s ts : compound_ok c o = true -> at_ s (sym (assignText c o) :: ts) ->
  assignOp tokens_ s = (Ok (Some (c, o)), s).
Proof.
  intros Hc H. unfold assignOp. destruct c.
  - rewrite skip_if by (eapply test_text; [exact H|by destruct o]).
    by rewrite (ev_bind _ _ _ _ _ (matchOp_compound o s ts Hc H)).
  - rewrite take_if by by test H. by destruct o.
Qed.
(** An assignment is read where a unary expression is. *)
Lemma unary_assign tl target c o tv v f s rest :
  reads 13 tl target -> operandOk tl = true -> compound_ok c o = true -> reads 1 tv v ->
  at_ s (tl ++ sym (assignText c o) :: tv ++ rest) -> stops 1 rest = true -> fuel_ok 12 f s ->
  parse tokens_ dialect_ f Unary s
  = match target with
    | VarRefExpr name => (Ok (AssignExpr name v c o), ahead (length tl + S (length tv)) s)
    | IndexExpr t i None _ _ col => (Ok (IndexAssignExpr t i v c o col), ahead (length tl + S (length tv)) s)
    | _ => parse tokens_ dialect_ f Unary s
    end.
Proof.
  intros Ht Hok Hc Hv H Hs Hf. destruct (fuel_ok_S 12 f s ltac:(lia) Hf) as (f' & -> & Hf').
  assert (parse tokens_ dialect_ (S f') Unary s = parseAssignment tokens_ dialect_ (parse tokens_ dialect_ f' Ternary)
            (parse tokens_ dialect_ f' Statement) s) as E.
  { simpl parse. apply (unary_operand _ _ _ s _ H). by apply operandOk_app. }
  unfold parseAssignment in E.
  assert (stops 13 (sym (assignText c o) :: tv ++ rest) = true) as Hs13 by (destruct c, o; try discriminate Hc; done).
  rewrite (ev_bind _ _ _ _ _ (Ht f' s _ H Hs13 Hf')) in E. apply at_ahead in H.
  rewrite (ev_bind _ _ _ _ _ (ev_assignOp c o _ _ Hc H)) in E. apply (fuel_ok_ahead _ _ (length tl)) in Hf'.
  pose proof (Hv f' _ _ (at_next _ _ _ H) Hs (fuel_ok_inside _ _ _ 0 _ _ _ H Hf')) as Ev.
  rewrite !ahead_add in Ev.
  destruct target; try reflexivity; [|destruct rangeEnd; [reflexivity|]];
    rewrite (ev_bind _ _ _ _ _ (ev_advance _ _ _ H eq_refl)), ahead_add in E;
    (erewrite ev_bind in E by exact Ev); rewrite E; unfold mret; do 2 f_equal; lia.
Qed.
Lemma reads_from_unary ts e : readsTo 12 1 ts e -> reads 1 ts e.
Proof.
  intros H. apply down_ternary; [|done]. do 10 (apply down_binary; [|lia|lia]). exact H.
Qed.
Lemma reads_assign x c o tv v : plain_name x = true -> compound_ok c o = true -> reads 1 tv v ->
  reads 1 (ident x :: sym (assignText c o) :: tv) (AssignExpr x v c o).
Proof.
  intros Hx Hc Hv. apply reads_from_unary. intros f s rest H Hs Hf.
  assert (reads 13 [ident x] (VarRefExpr x)) as Ht.
  { apply parsed_reads, (parsed_down 13); [lia|by apply reads_var|done]. }
  apply (unary_assign [ident x] (VarRefExpr x) c o tv v f s rest Ht); try done.
  unfold plain_name in Hx. rewrite !andb_true_iff in Hx. destruct Hx as [[H1 _] H2].
  unfold operandOk, headOk. simpl. by rewrite H1, H2.
Qed.
Lemma reads_indexAssign tt t i c o tv v : reads 13 tt (IndexExpr t i None false false None) -> operandOk tt = true ->
  compound_ok c o = true -> reads 1 tv v ->
  reads 1 (tt ++ sym (assignText c o) :: tv) (IndexAssignExpr t i v c o None).
Proof.
  intros Ht Hok Hc Hv. apply reads_from_unary. intros f s rest H Hs Hf. rewrite <- app_assoc in H.
  pose proof (unary_assign tt _ c o tv v f s rest Ht Hok Hc Hv H Hs Hf) as E. cbv beta iota in E.
  rewrite length_app. exact E.
Qed.

(** ** Every printed expression *)
Lemma prec_range e : prec e <= 14.
Proof. destruct e; simpl; try lia. pose proof (opLevel_range op). lia. Qed.
Lemma print_low lvl e : lvl <= prec e -> print lvl e = print 0 e.
Proof.
  intros H. assert ((prec e <? lvl) = false) as E by by apply Nat.ltb_ge.
  destruct e; simpl in *; by rewrite E.
Qed.
Lemma print_high lvl e : prec e < lvl -> print lvl e = parens true (print 0 e).
Proof.
  intros H. assert ((prec e <? lvl) = true) as E by by apply Nat.ltb_lt.
  destruct e; simpl in *; by rewrite E.
Qed.
Lemma startsOk_app ts rest : startsOk ts = true -> startsOk (ts ++ rest) = true.
Proof. by destruct ts. Qed.
Lemma print_startsOk lvl e : startsOk (print 0 e) = true -> startsOk (print lvl e) = true.
Proof.
  intros H. destruct (le_lt_dec lvl (prec e)); [by rewrite print_low|by rewrite print_high].
Qed.
Lemma number_plain v : (0 <= v)%Z -> plain_text (to_string v) = true.
Proof.
  intros H. pose proof (to_string_isdigit v H) as Hd. unfold plain_text. rewrite negb_true_iff.
  apply not_true_is_false. rewrite mem_string_In. by intros [E | [E | [E | [E | []]]]]; rewrite <- E in Hd.
Qed.
Lemma plain_name_head x : plain_name x = true -> headOk (ident x) = true.
Proof. unfold plain_name, headOk. simpl. rewrite !andb_true_iff. tauto. Qed.
Lemma call_name_head x : call_name x = true -> headOk (ident x) = true.
Proof. unfold call_name. rewrite andb_true_iff. intros [H _]. by apply plain_name_head. Qed.

Lemma print_starts e : printable e = true -> startsOk (print 0 e) = true.
Proof.
  induction e; simpl; rewrite ?andb_true_iff; intros H; try discriminate H; try done;
    try (apply startsOk_app, print_startsOk; tauto).
  - apply number_plain, Z.leb_le. tauto.
  - by apply plain_name_head.
  - by destruct op.
  - destruct argIsSpread, forceEfun, parentCall, parentQualifier; try discriminate H.
    apply call_name_head. rewrite andb_true_iff in H. tauto.
  - destruct e2, argIsSpread; try discriminate H. rewrite andb_true_iff in H.
    apply startsOk_app, print_startsOk. tauto.
  - apply plain_name_head. tauto.
  - destruct rangeEnd, indexFromEnd, rangeEndFromEnd, mapColumn; try discriminate H. rewrite andb_true_iff in H.
    apply startsOk_app, print_startsOk. tauto.
  - destruct mapColumn; try discriminate H. rewrite !andb_true_iff in H.
    apply startsOk_app, print_startsOk. tauto.
Qed.
Lemma operandOk_paren ts : startsOk ts = true -> operandOk (parens true ts) = true.
Proof. destruct ts as [|t ts]; [done|]. simpl. by intros ->. Qed.
Lemma operandOk_head t ts : headOk t = true -> ttype t <> TSymbol -> operandOk (t :: ts) = true.
Proof. intros H Ht. simpl. by rewrite H, bool_decide_false. Qed.
Lemma print_operand lvl e : 13 <= lvl -> printable e = true -> (13 <= prec e -> operandOk (print 0 e) = true) ->
  operandOk (print lvl e) = true.
Proof.
  intros Hl He H. destruct (le_lt_dec lvl (prec e)).
  - rewrite print_low by done. apply H. lia.
  - rewrite print_high by done. by apply operandOk_paren, print_starts.
Qed.
Lemma body_operand e : printable e = true -> 13 <= prec e -> operandOk (print 0 e) = true.
Proof.
  induction e; intros He Hp; pose proof (print_starts _ He) as Hs; simpl in He, Hp; try discriminate He; try lia;
    try (by apply operandOk_head).
  - pose proof (opLevel_range op). lia.
  - destruct e2, argIsSpread; try discriminate He. rewrite andb_true_iff in He.
    simpl. apply operandOk_app, print_operand; [lia|tauto|]. intros. apply IHe1; tauto.
  - destruct elementIsSpread; try discriminate He. done.
  - destruct rangeEnd, indexFromEnd, rangeEndFromEnd, mapColumn; try discriminate He. rewrite andb_true_iff in He.
    simpl. apply operandOk_app, print_operand; [lia|tauto|]. intros. apply IHe1; tauto.
Qed.
Definition good (e : AstNode) : Prop := forall lvl, lvl <= 14 -> parsed lvl (print lvl e) e.
Lemma good_body e : printable e = true -> parsed (prec e) (print 0 e) e -> good e.
Proof.
  intros He Hb lvl Hl. pose proof (print_starts e He) as Hs.
  assert (13 <= prec e -> operandOk (print 0 e) = true) as Hop.
  { intros H. by apply body_operand. }
  destruct (le_lt_dec lvl (prec e)) as [H|H].
  - rewrite print_low by done. apply (parsed_le lvl (prec e)); [done|apply prec_range|done|done].
  - rewrite print_high by done. apply (parsed_le lvl 14); [done|done| |].
    + apply reads_paren; [done|]. apply parsed_reads, (parsed_le 0 (prec e)); [lia|apply prec_range|done|done].
    + intros _. by apply operandOk_paren.
Qed.
Lemma good_reads lvl e : good e -> lvl <= 14 -> reads lvl (print lvl e) e.
Proof. intros H Hl. by apply parsed_reads, H. Qed.
Lemma good_element e : printable e = true -> good e -> element e.
Proof. intros He H. split; [apply good_reads; [done|lia]|by apply print_startsOk, print_starts]. Qed.
Lemma good_elements args : forallb printable args = true -> Forall (fun e => printable e = true -> good e) args ->
  Forall element args.
Proof.
  rewrite forallb_forall. intros Hp H. apply Forall_forall. intros e He. rewrite Forall_forall in H.
  apply good_element; [by apply Hp|]. apply H; [done|by apply Hp].
Qed.
Lemma good_binary o l r : good l -> good r -> parsed (opLevel o) (print 0 (BinaryExpr o l r)) (BinaryExpr o l r).
Proof.
  intros Hl Hr. pose proof (opLevel_range o). simpl. apply parsed_binary; [apply Hl; lia|].
  apply good_reads; [done|lia].
Qed.
Lemma parsed_flat lvl ts e : looping lvl = false -> reads lvl ts e -> parsed lvl ts e.
Proof. unfold parsed. by intros ->. Qed.
Lemma elements_good args : (forall x, In x args -> printable x = true -> good x) -> forallb printable args = true ->
  Forall element args.
Proof. intros H Hp. apply good_elements; [done|]. by apply Forall_forall. Qed.
(** An induction on what [printable] lets through. *)
Lemma printable_good : forall e, printable e = true -> good e.
Proof.
  fix IH 1. intros e He. apply good_body; [exact He|].
  destruct e; simpl in He; rewrite ?andb_true_iff in He; try discriminate He;
    try (apply parsed_flat; [reflexivity|]; simpl prec; simpl print).
  - apply reads_string.
  - apply reads_intLiteral; [apply Z.leb_le, He|apply He].
  - by apply reads_var.
  - apply good_binary; apply IH, He.
  - apply (parsed_comma _ _ e1 e2); [apply (IH e1 (proj1 He)); lia|apply good_reads; [apply IH, He|lia]].
  - apply reads_unary, good_reads; [by apply IH|lia].
  - destruct He as [[H1 H2] H3]. apply reads_ternary; (apply good_reads; [by apply IH|lia]).
  - destruct argIsSpread, forceEfun, parentCall, parentQualifier; try discriminate He.
    apply andb_true_iff in He as [Hn Ha]. apply reads_call; [done|]. apply elements_good; [|done].
    clear -IH. induction args as [|y ys IHy]; intros x; [done|]. intros [<-|Hin]; [apply IH|by apply IHy].
  - destruct e2, argIsSpread; try discriminate He. apply andb_true_iff in He as [Ht Ha].
    apply (parsed_arrow _ _ _ e1); [apply (IH e1 Ht); lia|]. apply elements_good; [|done].
    clear -IH. induction args as [|y ys IHy]; intros x; [done|]. intros [<-|Hin]; [apply IH|by apply IHy].
  - destruct He as [[Hn Hv] Hc]. apply reads_assign; [done|done|]. apply good_reads; [by apply IH|lia].
  - destruct elementIsSpread; try discriminate He. apply reads_array, elements_good; [|done].
    clear -IH. induction elements as [|y ys IHy]; intros x; [done|]. intros [<-|Hin]; [apply IH|by apply IHy].
  - destruct rangeEnd, indexFromEnd, rangeEndFromEnd, mapColumn; try discriminate He. apply andb_true_iff in He as [Ht Hi].
    apply (parsed_index _ _ e1 e2); [apply (IH e1 Ht); lia|apply good_reads; [by apply IH|lia]|].
    by apply print_startsOk, print_starts.
  - destruct mapColumn; try discriminate He. rewrite !andb_true_iff in He. destruct He as [[[Ht Hi] Hv] Hc].
    pose proof (parsed_index _ _ e1 e2 (IH e1 Ht 13 ltac:(lia)) (good_reads 1 e2 (IH e2 Hi) ltac:(lia))
                  (print_startsOk 1 e2 (print_starts e2 Hi))) as Hidx.
    pose proof (reads_indexAssign _ e1 e2 isCompound compoundOp (print 1 e3) e3 (parsed_reads 13 _ _ Hidx)) as H.
    rewrite <- app_assoc, <- app_comm_cons, <- app_assoc in H. apply H; [|done|].
    + apply operandOk_app, print_operand; [lia|done|]. by apply body_operand.
    + apply good_reads; [by apply IH|lia].
Qed.
End Reading.

(** C19: The parser reads back every printed expression, in every dialect: the
    printer puts parentheses only where the precedence levels and the left
    associativity of binary operators ask for them, so the parser implements
    exactly these.  Two units of fuel more than three per token are enough. *)
Theorem parse_print dialect e rest fuel :
  printable e = true -> stops 0 rest = true -> 3 * length (print 0 e ++ rest) + 2 <= fuel ->
  parseCommaExpr (print 0 e ++ rest) (parse (print 0 e ++ rest) dialect fuel Ternary) newParser
  = (Ok e, newParser <| pos_ := length (print 0 e) |>).
Proof.
  intros He Hs Hf.
  apply (good_reads _ dialect 0 e (printable_good _ dialect e He) ltac:(lia) fuel newParser rest); [done|done|].
  unfold fuel_ok. simpl. lia.
Qed.

(** [a = b ? -c[1] + f(x, y) * 2 - d : ({ d->g(1), (x, y), (a + b) * (c = 3) })] *)
Definition sampleExpr : AstNode :=
  AssignExpr "a"
    (TernaryExpr (VarRefExpr "b")
       (BinaryExpr BinOp.Sub
          (BinaryExpr BinOp.Add
             (UnaryExpr UnaryOp.Neg (IndexExpr (VarRefExpr "c") (IntLiteral 1) None false false None))
             (BinaryExpr BinOp.Mul (CallExpr "f" [VarRefExpr "x"; VarRefExpr "y"] [] false false "") (IntLiteral 2)))
          (VarRefExpr "d"))
       (ArrayLiteralExpr
          [CallOtherExpr (VarRefExpr "d") (StringLiteral "g") [IntLiteral 1] [];
           CommaExpr (VarRefExpr "x") (VarRefExpr "y");
           BinaryExpr BinOp.Mul (BinaryExpr BinOp.Add (VarRefExpr "a") (VarRefExpr "b"))
             (AssignExpr "c" (IntLiteral 3) false BinOp.Add)] []))
    false BinOp.Add.
Lemma parse_print_witness :
  parseCommaExpr (print 0 sampleExpr ++ [sym ";"]) (parse (print 0 sampleExpr ++ [sym ";"]) FluffOS 200 Ternary) newParser
  = (Ok sampleExpr, newParser <| pos_ := length (print 0 sampleExpr) |>).
Proof. apply (parse_print FluffOS sampleExpr [sym ";"] 200); [reflexivity|reflexivity|vm_compute; lia]. Defined.
Example sampleExpr_text : map text (print 0 sampleExpr) =
  ["a"; "="; "b"; "?"; "-"; "c"; "["; "1"; "]"; "+"; "f"; "("; "x"; ","; "y"; ")"; "*"; "2"; "-"; "d"; ":";
   "("; "{"; "d"; "->"; "g"; "("; "1"; ")"; ","; "("; "x"; ","; "y"; ")"; ",";
   "("; "a"; "+"; "b"; ")"; "*"; "("; "c"; "="; "3"; ")"; "}"; ")"].
Proof. reflexivity. Qed.
