(* ===== verification/Semantics.v ===== *)
(** * Semantics: what LPC source means, without bytecode

    A definitional interpreter over the syntax trees, for the part of the
    language whose values are scalars: variables of functions and of the
    object, all operators, assignments, control flow, and calls of functions
    of the same file, recursive ones included.  It is the specification that
    CodeShape.v and Refinement.v relate the code generator and the VM to.
    The operators are those of [VM::run] on scalars. *)
From S2P Require Import Prelude CLib Double Value Bytecode Machine Exec Ast.
Local Open Scope Z_scope.

(** A local variable that is declared but has no value the source determines
    ([int x = e] while [e] is evaluated) is bound to [None]. *)
Record Store := mkStore { lvars : gmap string (option Value); gvars : gmap string Value }.
#[export] Instance eta_Store : Eta Store := fun s => {| lvars := lvars s; gvars := gvars s |}.

(** How a statement ends. *)
Inductive flow := Normal | Broke | Continued | Ret (v : Value).

#[export] Instance flow_eq_dec : EqDecision flow.
Proof. solve_decision. Defined.

Abbreviation I := (M Store exn) (only parsing).

(** ** Operators *)
Definition err {A} (msg : string) : outcome exn A := Throw (LpcRuntimeError msg).

Definition isDiv (o : BinOp.t) : bool := bool_decide (o = BinOp.Div).
Definition isMod (o : BinOp.t) : bool := bool_decide (o = BinOp.Mod).

(** A number of C++ type [double] back to an LPC value: an integer unless an
    operand was a float. *)
Definition number (a b : Value) (d : double) : outcome exn Value :=
  if isDbl a || isDbl b then Ok (V (Dbl d)) else omap_ok VInt (Dbl.to_int64 d).

Definition arith (o : BinOp.t) (a b : Value) : outcome exn Value :=
  match asArithmeticOperand a with
  | None => err "arithmetic: left operand is not numeric"
  | Some x =>
      match asArithmeticOperand b with
      | None => err "arithmetic: right operand is not numeric"
      | Some y =>
          if isDiv o && Dbl.eqb y Dbl.zero then err "Div: division by zero"
          else if isMod o && Dbl.eqb y Dbl.zero then err "Mod: modulo by zero"
          else number a b match o with
                          | BinOp.Sub => Dbl.sub x y
                          | BinOp.Mul => Dbl.mul x y
                          | BinOp.Div => Dbl.div x y
                          | _ => Dbl.fmod x y
                          end
      end
  end.

Definition compare (o : BinOp.t) (a b : Value) : outcome exn Value :=
  match asArithmeticOperand a with
  | None => err "comparison: left operand is not numeric"
  | Some x =>
      match asArithmeticOperand b with
      | None => err "comparison: right operand is not numeric"
      | Some y => Ok (VBool match o with
                            | BinOp.Lt => Dbl.ltb x y
                            | BinOp.Lte => Dbl.leb x y
                            | BinOp.Gt => Dbl.ltb y x
                            | _ => Dbl.leb y x
                            end)
      end
  end.

(** [+] adds numbers and joins strings; a number next to a string is printed. *)
Definition add (a b : Value) : outcome exn Value :=
  match data a, data b with
  | Str x, Str y => Ok (V (Str (x +:+ y)))
  | Str x, _ => Ok (V (Str (x +:+ formatNumberForConcat b)))
  | _, Str y => Ok (V (Str (formatNumberForConcat a +:+ y)))
  | _, _ =>
      match asArithmeticOperand a, asArithmeticOperand b with
      | Some x, Some y => number a b (Dbl.add x y)
      | _, _ => Undefined "not a scalar"
      end
  end.

Definition bits (o : BinOp.t) (a b : Value) : outcome exn Value :=
  match data a, data b with
  | Int x, Int y =>
      match o with
      | BinOp.BitAnd => Ok (VInt (Z.land x y))
      | BinOp.BitOr => Ok (VInt (Z.lor x y))
      | BinOp.BitXor => Ok (VInt (Z.lxor x y))
      | _ =>
          if (y <? 0) || (64 <=? y) then Undefined "shift count out of range"
          else Ok (VInt (match o with BinOp.Shl => wrap64 (Z.shiftl x y) | _ => Z.shiftr x y end))
      end
  | _, _ =>
      err match o with
          | BinOp.BitAnd => "BitAnd: operands must both be ints or both be arrays"
          | BinOp.BitOr => "BitOr: operands must both be ints (array union is not implemented this slice)"
          | BinOp.BitXor => "BitXor: operands must both be ints (array union is not implemented this slice)"
          | BinOp.Shl => "Shl: operands must both be ints"
          | _ => "Shr: operands must both be ints"
          end
  end.

(** The binary operators that evaluate both operands. *)
Definition binop (o : BinOp.t) (a b : Value) : outcome exn Value :=
  match o with
  | BinOp.Eq => Ok (VBool (valuesEqual a b))
  | BinOp.Neq => Ok (VBool (negb (valuesEqual a b)))
  | BinOp.Lt | BinOp.Lte | BinOp.Gt | BinOp.Gte => compare o a b
  | BinOp.Add => add a b
  | BinOp.Sub | BinOp.Mul | BinOp.Div | BinOp.Mod => arith o a b
  | BinOp.BitAnd | BinOp.BitOr | BinOp.BitXor | BinOp.Shl | BinOp.Shr => bits o a b
  | BinOp.Or | BinOp.And => Undefined "short-circuit operator"
  end.
Definition complement (a : Value) : outcome exn Value :=
  match data a with Int x => Ok (VInt (Z.lnot x)) | _ => err "Bad argument to ~" end.

(** ** Variables *)
Definition readVar (x : string) : I Value := fun s =>
  match lvars s !! x with
  | Some (Some v) => (Ok v, s)
  | Some None => (Undefined "value not determined", s)
  | None => match gvars s !! x with
            | Some v => (Ok v, s)
            | None => (Undefined "undeclared variable", s)
            end
  end.
Definition writeVar (x : string) (v : Value) : I unit := fun s =>
  match lvars s !! x with
  | Some _ => (Ok tt, s <| lvars ::= <[x := Some v]> |>)
  | None => match gvars s !! x with
            | Some _ => (Ok tt, s <| gvars ::= <[x := v]> |>)
            | None => (Undefined "undeclared variable", s)
            end
  end.
Definition declare (x : string) (v : option Value) : I unit :=
  mmodify (fun s => s <| lvars ::= <[x := v]> |>).
(** The variables declared inside [m] end with it. *)
Definition scoped {A} (m : I A) : I A :=
  outer <- mgets lvars ;;
  a <- m ;;
  mmodify (fun s => s <| lvars ::= fun l => filter (fun p => is_Some (outer !! fst p)) l |>) ;;
  mret a.

(** ** The rules *)
Section Rules.
Context (program : Program) (defaultLocal : Value) (file : string).
Context (eval : AstNode -> I Value) (exec : AstNode -> I flow).

Fixpoint evalAll (es : list AstNode) : I (list Value) :=
  match es with
  | [] => mret []
  | e :: es' => v <- eval e ;; vs <- evalAll es' ;; mret (v :: vs)
  end.
Fixpoint execAll (ss : list AstNode) : I flow :=
  match ss with
  | [] => mret Normal
  | s :: ss' => fl <- exec s ;; match fl with Normal => execAll ss' | _ => mret fl end
  end.
Definition execBlock (b : Block) : I flow := scoped (execAll (statements b)).

(** *** Calls *)
Definition hasBody (name : string) (fd : FunctionDecl) : bool :=
  String.eqb (fd_name fd) name && is_some (fd_body fd).
Definition findDecl (name : string) : option FunctionDecl := List.find (hasBody name) (pg_functions program).
(** Missing arguments are the default value.  A call with more arguments than
    parameters has no meaning here: the VM copies them into other locals. *)
Fixpoint bindParams (params : list Param) (args : list Value) : gmap string (option Value) :=
  match params with
  | [] => ∅
  | p :: params' =>
      let rest := bindParams params' (tl args) in
      if String.eqb (pname p) "" then rest else <[pname p := Some (hd defaultLocal args)]> rest
  end.
(** An error is prefixed with the place it left. *)
Definition tagged {A} (name : string) (m : I A) : I A :=
  mcatch m (fun e => match e with
                     | LpcRuntimeError msg => mthrow (LpcRuntimeError (file +:+ "::" +:+ name +:+ "(): " +:+ msg))
                     | _ => mthrow e
                     end).
Definition runBody (name : string) (body : Block) : I Value :=
  tagged name
    (fl <- execBlock body ;;
     match fl with
     | Ret v => mret v
     | Normal => mret Void
     | _ => mundef "jump out of a function"
     end).
Definition call (name : string) (args : list Value) : I Value :=
  match findDecl name with
  | Some fd =>
      match fd_body fd with
      | Some body =>
          if (length (fd_params fd) <? length args)%nat then mundef "more arguments than parameters" else
          saved <- mgets lvars ;;
          mmodify (fun s => s <| lvars := bindParams (fd_params fd) args |>) ;;
          v <- runBody name body ;;
          mmodify (fun s => s <| lvars := saved |>) ;;
          mret v
      | None => mundef "no body"
      end
  | None => mundef "not a function of this file"
  end.

(** *** Expressions *)
Definition evalAssign (x : string) (value : AstNode) (isCompound : bool) (o : BinOp.t) : I Value :=
  v <- (if isCompound then old <- readVar x ;; w <- eval value ;; mlift (binop o old w) else eval value) ;;
  writeVar x v ;;
  mret v.
Definition evalIncDec (o : IncDecOp.t) (prefix : bool) (x : string) : I Value :=
  old <- readVar x ;;
  new <- mlift (binop (match o with IncDecOp.Inc => BinOp.Add | IncDecOp.Dec => BinOp.Sub end) old (VInt 1)) ;;
  writeVar x new ;;
  mret (if prefix then new else old).
Definition evalRule (e : AstNode) : I Value :=
  match e with
  | IntLiteral v => mret (VInt v)
  | StringLiteral s => mret (V (Str s))
  | VarRefExpr x => readVar x
  | BinaryExpr BinOp.Or l r => v <- eval l ;; if isTruthy v then mret v else eval r
  | BinaryExpr BinOp.And l r => v <- eval l ;; if isTruthy v then eval r else mret v
  | BinaryExpr o l r => a <- eval l ;; b <- eval r ;; mlift (binop o a b)
  | UnaryExpr UnaryOp.Not x => v <- eval x ;; mret (VBool (negb (isTruthy v)))
  | UnaryExpr UnaryOp.Neg x => v <- eval x ;; mlift (binop BinOp.Sub (VInt 0) v)
  | UnaryExpr UnaryOp.BitNot x => v <- eval x ;; mlift (complement v)
  | TernaryExpr c t f => v <- eval c ;; if isTruthy v then eval t else eval f
  | CommaExpr l r => eval l ;; eval r
  | AssignExpr x v c o => evalAssign x v c o
  | IncDecExpr o prefix x None _ _ => evalIncDec o prefix x
  | CallExpr f args [] false false _ => vs <- evalAll args ;; call f vs
  | _ => mundef "not a scalar expression"
  end.

(** *** Statements *)

(** After one round of a loop body: leave, return, or go on with [k]. *)
Definition afterRound (fl : flow) (k : I flow) : I flow :=
  match fl with
  | Broke => mret Normal
  | Ret v => mret (Ret v)
  | _ => k
  end.
(** The clauses of a [for] that only have an effect. *)
Definition execClause (clause : option AstNode) : I flow :=
  match clause with
  | None => mret Normal
  | Some (BlockStmt b) => execBlock b
  | Some e => eval e ;; mret Normal
  end.
Definition execForInit (init : option AstNode) : I flow :=
  match init with
  | Some (VarDeclStmt type isArray x value) => exec (VarDeclStmt type isArray x value)
  | _ => execClause init
  end.
(** A clause does not jump. *)
Definition noJump (m k : I flow) : I flow :=
  fl <- m ;; match fl with Normal => k | _ => mundef "jump out of a clause" end.
Definition execVarDecl (x : string) (value : option AstNode) : I flow :=
  match value with
  | None => declare x (Some defaultLocal) ;; mret Normal
  | Some e => declare x None ;; v <- eval e ;; declare x (Some v) ;; mret Normal
  end.
Definition execRule (s : AstNode) : I flow :=
  match s with
  | ExprStmt e => eval e ;; mret Normal
  | ReturnStmt None => mret (Ret Void)
  | ReturnStmt (Some e) => v <- eval e ;; mret (Ret v)
  | VarDeclStmt _ _ x value => execVarDecl x value
  | AssignStmt x e => v <- eval e ;; writeVar x v ;; mret Normal
  | BlockStmt (mkBlock ss isRealScope as b) => if isRealScope then execBlock b else execAll ss
  | IfStmt c t f =>
      v <- eval c ;;
      if isTruthy v then execBlock t
      else match f with Some b => execBlock b | None => mret Normal end
  | WhileStmt c body =>
      v <- eval c ;;
      if isTruthy v then fl <- execBlock body ;; afterRound fl (exec (WhileStmt c body)) else mret Normal
  | DoWhileStmt c body =>
      fl <- execBlock body ;;
      afterRound fl (v <- eval c ;; if isTruthy v then exec (DoWhileStmt c body) else mret Normal)
  | ForStmt init c update body =>
      scoped (
        noJump (execForInit init) (
        go <- match c with Some e => v <- eval e ;; mret (isTruthy v) | None => mret true end ;;
        if go : bool then
          fl <- execBlock body ;;
          afterRound fl (noJump (execClause update) (exec (ForStmt None c update body)))
        else mret Normal))
  | BreakStmt => mret Broke
  | ContinueStmt => mret Continued
  | _ => mundef "not a statement of this semantics"
  end.
End Rules.

Fixpoint eval (program : Program) (dflt : Value) (file : string) (fuel : nat) (e : AstNode) : I Value :=
  match fuel with
  | O => mlift OutOfFuel
  | S f => evalRule program dflt file (eval program dflt file f) (exec program dflt file f) e
  end
with exec (program : Program) (dflt : Value) (file : string) (fuel : nat) (s : AstNode) : I flow :=
  match fuel with
  | O => mlift OutOfFuel
  | S f => execRule dflt (eval program dflt file f) (exec program dflt file f) s
  end.

(** A call of a function of the file on given object variables. *)
Definition interpret (program : Program) (dflt : Value) (file : string) (fuel : nat)
    (name : string) (args : list Value) (globals : gmap string Value) : outcome exn Value * gmap string Value :=
  let '(r, s) := call program dflt file (exec program dflt file fuel) name args (mkStore ∅ globals) in
  (r, gvars s).
