(* ===== verification/CodeShape.v ===== *)
(** * CodeShape: the code of a tree, as a relation

    [code_expr], [code_stmt] and [code_block] say that the instructions from
    [pc] to [pc'] of a program are those of the tree, for the trees Semantics.v
    interprets.  The jumps of [break] and [continue] are the positions in [B]
    and [K], whose targets the enclosing loop fixes.  The generator is related
    to it in CodeShapeFacts.v, the machine in Refinement.v. *)
From S2P Require Import Prelude CLib Double Value Bytecode Ast CodeGen.
Local Open Scope nat_scope.

(** ** The part of the language *)
Fixpoint supported_expr (e : AstNode) : bool :=
  match e with
  | IntLiteral v => in_int32 v
  | StringLiteral _ | VarRefExpr _ => true
  | BinaryExpr _ l r | CommaExpr l r => supported_expr l && supported_expr r
  | UnaryExpr _ x | AssignExpr _ x _ _ => supported_expr x
  | TernaryExpr c t f => supported_expr c && supported_expr t && supported_expr f
  | IncDecExpr _ _ _ None _ _ => true
  | CallExpr _ args [] false false _ => forallb supported_expr args
  | _ => false
  end.

(** Clauses of a [for]: an expression, or a list of them. *)
Definition supported_clause (clause : option AstNode) : bool :=
  match clause with
  | None => true
  | Some (BlockStmt (mkBlock ss _)) =>
      forallb (fun s => match s with ExprStmt e => supported_expr e | _ => false end) ss
  | Some e => supported_expr e
  end.
Definition supported_opt (e : option AstNode) : bool :=
  match e with Some x => supported_expr x | None => true end.
(** In a loop every declaration has an initializer: without one the variable
    keeps the value of the round before. *)
Definition supported_decl (inLoop : bool) (value : option AstNode) : bool :=
  match value with Some e => supported_expr e | None => negb inLoop end.
Definition supported_init (inLoop : bool) (init : option AstNode) : bool :=
  match init with
  | Some (VarDeclStmt _ _ x value) => negb (String.eqb x "") && supported_decl inLoop value
  | _ => supported_clause init
  end.

Fixpoint supported_stmt (inLoop : bool) (s : AstNode) : bool :=
  match s with
  | ExprStmt e => supported_expr e
  | ReturnStmt e => supported_opt e
  | VarDeclStmt _ _ x value => negb (String.eqb x "") && supported_decl inLoop value
  | AssignStmt _ e => supported_expr e
  | BlockStmt (mkBlock ss _) => forallb (supported_stmt inLoop) ss
  | IfStmt c (mkBlock t _) f =>
      supported_expr c && forallb (supported_stmt inLoop) t
      && match f with Some (mkBlock b _) => forallb (supported_stmt inLoop) b | None => true end
  | WhileStmt c (mkBlock b _) | DoWhileStmt c (mkBlock b _) =>
      supported_expr c && forallb (supported_stmt true) b
  | ForStmt init c u (mkBlock b _) =>
      supported_init inLoop init && supported_opt c && supported_clause u && forallb (supported_stmt true) b
  | BreakStmt | ContinueStmt => inLoop
  | _ => false
  end.
Definition supported_function (fd : FunctionDecl) : bool :=
  negb (fd_isVarargs fd) && match fd_body fd with Some (mkBlock ss _) => forallb (supported_stmt false) ss | None => true end.
Definition supported_program (p : Program) : bool :=
  bool_decide (pg_inherits p = []) && forallb (fun v => negb (is_some (ov_initializer v))) (pg_objectVars p)
  && forallb supported_function (pg_functions p).
Definition supported_block (inLoop : bool) (b : Block) : bool := forallb (supported_stmt inLoop) (statements b).

(** The slots of a frame: one per declaration. *)
Fixpoint decls (s : AstNode) : nat :=
  match s with
  | VarDeclStmt _ _ _ _ => 1
  | BlockStmt (mkBlock ss _) => sum_list (map decls ss)
  | IfStmt _ (mkBlock t _) None => sum_list (map decls t)
  | IfStmt _ (mkBlock t _) (Some (mkBlock f _)) => sum_list (map decls t) + sum_list (map decls f)
  | WhileStmt _ (mkBlock b _) | DoWhileStmt _ (mkBlock b _) => sum_list (map decls b)
  | ForStmt init _ _ (mkBlock b _) =>
      match init with Some (VarDeclStmt _ _ _ _) => 1 | _ => 0 end + sum_list (map decls b)
  | _ => 0
  end.
Definition frame_size (fd : FunctionDecl) : nat :=
  match fd_body fd with
  | Some b => length (fd_params fd) + sum_list (map decls (statements b))
  | None => 0
  end.

(** ** Code *)
Abbreviation env := (gmap string Z) (only parsing).
Section Shape.
Context (C : list Instruction) (pool : list string) (objVars : gmap string Z).

Definition ins (pc : nat) (o : OpCode) (a : Z) : Prop := C !! pc = Some (mkInstr o a 0).

Definition resolves (E : gmap string Z) (x : string) (v : ResolvedVar) : Prop :=
  match E !! x with
  | Some s => v = mkResolved LocalVar s
  | None => match objVars !! x with Some s => v = mkResolved ObjectVar s | None => False end
  end.

(** The recursive calls are arguments, as in CodeGen.v. *)
Section Parts.
Context (ce : AstNode -> nat -> nat -> Prop).
Fixpoint code_all (es : list AstNode) (pc pc' : nat) : Prop :=
  match es with
  | [] => pc' = pc
  | e :: es' => exists p, ce e pc p /\ code_all es' p pc'
  end.
Definition code_binary (o : BinOp.t) (l r : AstNode) (pc pc' : nat) : Prop :=
  match o with
  | BinOp.Or => exists p,
      ce l pc p /\ ins p Dup 0 /\ ins (p + 1) JumpIfFalse (int_of (p + 3)) /\
      ins (p + 2) Jump (int_of pc') /\ ins (p + 3) Pop 0 /\ ce r (p + 4) pc'
  | BinOp.And => exists p,
      ce l pc p /\ ins p Dup 0 /\ ins (p + 1) JumpIfFalse (int_of pc') /\
      ins (p + 2) Pop 0 /\ ce r (p + 3) pc'
  | _ => exists p p' op,
      ce l pc p /\ ce r p p' /\ binaryOp o = Some op /\ ins p' op 0 /\ pc' = p' + 1
  end.
Definition code_unary (o : UnaryOp.t) (x : AstNode) (pc pc' : nat) : Prop :=
  match o with
  | UnaryOp.Not => exists p, ce x pc p /\ ins p Not 0 /\ pc' = p + 1
  | UnaryOp.BitNot => exists p, ce x pc p /\ ins p BitNot 0 /\ pc' = p + 1
  | UnaryOp.Neg => exists p, ins pc PushInt 0 /\ ce x (pc + 1) p /\ ins p Sub 0 /\ pc' = p + 1
  end.
Definition code_assign (v : ResolvedVar) (value : AstNode) (isCompound : bool) (o : BinOp.t) (pc pc' : nat) : Prop :=
  exists p,
    (if isCompound then
       exists q op, ins pc (pushOp v) (slot v) /\ ce value (pc + 1) q /\
         compoundOpcode o = Some op /\ ins q op 0 /\ p = q + 1
     else ce value pc p) /\
    ins p Dup 0 /\ ins (p + 1) (storeOp v) (slot v) /\ pc' = p + 2.
Definition code_incdec (v : ResolvedVar) (op : OpCode) (prefix : bool) (pc pc' : nat) : Prop :=
  ins pc (pushOp v) (slot v) /\
  (if prefix then
     ins (pc + 1) PushInt 1 /\ ins (pc + 2) op 0 /\ ins (pc + 3) Dup 0
   else ins (pc + 1) Dup 0 /\ ins (pc + 2) PushInt 1 /\ ins (pc + 3) op 0) /\
  ins (pc + 4) (storeOp v) (slot v) /\ pc' = pc + 5.
End Parts.

Fixpoint code_expr (E : gmap string Z) (e : AstNode) (pc pc' : nat) : Prop :=
  match e with
  | IntLiteral v => ins pc PushInt v /\ pc' = pc + 1
  | StringLiteral s => exists i, pool !! i = Some s /\ ins pc PushConst (int_of i) /\ pc' = pc + 1
  | VarRefExpr x => exists v, resolves E x v /\ ins pc (pushOp v) (slot v) /\ pc' = pc + 1
  | BinaryExpr o l r => code_binary (code_expr E) o l r pc pc'
  | UnaryExpr o x => code_unary (code_expr E) o x pc pc'
  | CommaExpr l r => exists p, code_expr E l pc p /\ ins p Pop 0 /\ code_expr E r (p + 1) pc'
  | TernaryExpr c t f => exists p q,
      code_expr E c pc p /\ ins p JumpIfFalse (int_of (q + 1)) /\ code_expr E t (p + 1) q /\
      ins q Jump (int_of pc') /\ code_expr E f (q + 1) pc'
  | AssignExpr x v c o => exists rv, resolves E x rv /\ code_assign (code_expr E) rv v c o pc pc'
  | IncDecExpr o prefix x _ _ _ => exists rv, resolves E x rv /\ code_incdec rv (deltaOpcode o) prefix pc pc'
  | CallExpr f args _ _ _ _ => exists p i,
      code_all (code_expr E) args pc p /\ pool !! i = Some f /\
      C !! p = Some (mkInstr Call (int_of i) (int_of (length args))) /\ pc' = p + 1
  | _ => False
  end.

(** ** Statements

    [E] and [n]: the slots of the variables in scope and the next free slot,
    before and after. *)
Section StmtParts.
Context (cs : AstNode -> env -> nat -> nat -> nat -> env -> nat -> list nat -> list nat -> Prop).
Fixpoint code_stmts (ss : list AstNode) (E : env) (n pc pc' : nat) (E' : env) (n' : nat) (B K : list nat) : Prop :=
  match ss with
  | [] => pc' = pc /\ E' = E /\ n' = n /\ B = [] /\ K = []
  | s :: ss' => exists p E1 n1 B1 K1 B2 K2,
      cs s E n pc p E1 n1 B1 K1 /\ code_stmts ss' E1 n1 p pc' E' n' B2 K2 /\ B = B1 ++ B2 /\ K = K1 ++ K2
  end.
Definition code_block (ss : list AstNode) (E : env) (n pc pc' n' : nat) (B K : list nat) : Prop :=
  exists E', code_stmts ss E n pc pc' E' n' B K.
Definition jumps_to (js : list nat) (target : nat) : Prop := forall j, j ∈ js -> ins j Jump (int_of target).

Definition code_vardecl (x : string) (value : option AstNode) (E : env) (n pc pc' : nat) (E' : env) (n' : nat) : Prop :=
  E !! x = None /\ E' = <[x := Z.of_nat n]> E /\ n' = n + 1 /\
  match value with
  | None => pc' = pc
  | Some e => exists p, code_expr E' e pc p /\ ins p StoreLocal (Z.of_nat n) /\ pc' = p + 1
  end.
Definition code_clause (clause : option AstNode) (E : env) (n pc pc' : nat) : Prop :=
  match clause with
  | None => pc' = pc
  | Some (BlockStmt (mkBlock ss _)) => code_block ss E n pc pc' n [] []
  | Some e => exists p, code_expr E e pc p /\ ins p Pop 0 /\ pc' = p + 1
  end.
Definition code_init (init : option AstNode) (E : env) (n pc pc' : nat) (E' : env) (n' : nat) : Prop :=
  match init with
  | Some (VarDeclStmt _ _ x value) => code_vardecl x value E n pc pc' E' n'
  | _ => code_clause init E n pc pc' /\ E' = E /\ n' = n
  end.
Definition code_condition (c : option AstNode) (E : env) (pc pc' out : nat) : Prop :=
  match c with
  | Some e => exists p, code_expr E e pc p /\ ins p JumpIfFalse (int_of out) /\ pc' = p + 1
  | None => pc' = pc
  end.
(** The loop of a [for], from its condition on. *)
Definition code_for (c u : option AstNode) (body : list AstNode) (E : env) (n pc pc' n' : nat) : Prop :=
  exists p q r B K,
    code_condition c E pc p pc' /\ code_block body E n p q n' B K /\
    code_clause u E n' q r /\ ins r Jump (int_of pc) /\ pc' = r + 1 /\
    jumps_to B pc' /\ jumps_to K q.
Definition code_while (c : AstNode) (body : list AstNode) (E : env) (n pc pc' n' : nat) : Prop :=
  exists p q B K,
    code_expr E c pc p /\ ins p JumpIfFalse (int_of pc') /\ code_block body E n (p + 1) q n' B K /\
    ins q Jump (int_of pc) /\ pc' = q + 1 /\ jumps_to B pc' /\ jumps_to K pc.
Definition code_dowhile (c : AstNode) (body : list AstNode) (E : env) (n pc pc' n' : nat) : Prop :=
  exists p q B K,
    code_block body E n pc p n' B K /\ code_expr E c p q /\ ins q JumpIfFalse (int_of pc') /\
    ins (q + 1) Jump (int_of pc) /\ pc' = q + 2 /\ jumps_to B pc' /\ jumps_to K p.
Definition code_if (c : AstNode) (t : list AstNode) (f : option (list AstNode)) (E : env)
    (n pc pc' n' : nat) (B K : list nat) : Prop :=
  exists p q n1 B1 K1,
    code_expr E c pc p /\ code_block t E n (p + 1) q n1 B1 K1 /\
    match f with
    | None => ins p JumpIfFalse (int_of q) /\ pc' = q /\ n' = n1 /\ B = B1 /\ K = K1
    | Some b => exists B2 K2,
        ins p JumpIfFalse (int_of (q + 1)) /\ ins q Jump (int_of pc') /\
        code_block b E n1 (q + 1) pc' n' B2 K2 /\ B = B1 ++ B2 /\ K = K1 ++ K2
    end.
End StmtParts.

Fixpoint code_stmt (s : AstNode) (E : env) (n pc pc' : nat) (E' : env) (n' : nat) (B K : list nat) : Prop :=
  match s with
  | ExprStmt e => exists p, code_expr E e pc p /\ ins p Pop 0 /\ pc' = p + 1 /\ E' = E /\ n' = n /\ B = [] /\ K = []
  | ReturnStmt e => exists p,
      match e with Some x => code_expr E x pc p | None => p = pc end /\
      ins p Return 0 /\ pc' = p + 1 /\ E' = E /\ n' = n /\ B = [] /\ K = []
  | VarDeclStmt _ _ x value => code_vardecl x value E n pc pc' E' n' /\ B = [] /\ K = []
  | AssignStmt x e => exists v p,
      resolves E x v /\ code_expr E e pc p /\ ins p (storeOp v) (slot v) /\ pc' = p + 1 /\
      E' = E /\ n' = n /\ B = [] /\ K = []
  | BlockStmt (mkBlock ss isRealScope) =>
      if isRealScope then code_block code_stmt ss E n pc pc' n' B K /\ E' = E
      else code_stmts code_stmt ss E n pc pc' E' n' B K
  | IfStmt c (mkBlock t _) None => code_if code_stmt c t None E n pc pc' n' B K /\ E' = E
  | IfStmt c (mkBlock t _) (Some (mkBlock f _)) => code_if code_stmt c t (Some f) E n pc pc' n' B K /\ E' = E
  | WhileStmt c (mkBlock b _) => code_while code_stmt c b E n pc pc' n' /\ E' = E /\ B = [] /\ K = []
  | DoWhileStmt c (mkBlock b _) => code_dowhile code_stmt c b E n pc pc' n' /\ E' = E /\ B = [] /\ K = []
  | ForStmt init c u (mkBlock b _) => exists p E1 n1,
      code_init code_stmt init E n pc p E1 n1 /\ code_for code_stmt c u b E1 n1 p pc' n' /\
      E' = E /\ B = [] /\ K = []
  | BreakStmt => (exists a, ins pc Jump a) /\ pc' = pc + 1 /\ E' = E /\ n' = n /\ B = [pc] /\ K = []
  | ContinueStmt => (exists a, ins pc Jump a) /\ pc' = pc + 1 /\ E' = E /\ n' = n /\ B = [] /\ K = [pc]
  | _ => False
  end.

(** ** Functions *)
Fixpoint param_env (params : list Param) (n : nat) : env :=
  match params with
  | [] => ∅
  | p :: params' =>
      let rest := param_env params' (S n) in
      if String.eqb (pname p) "" then rest else <[pname p := Z.of_nat n]> rest
  end.
Definition code_function (fd : FunctionDecl) (body : Block) (fn : FunctionEntry) : Prop :=
  exists pc n',
    code_block code_stmt (statements body) (param_env (fd_params fd) 0) (length (fd_params fd))
      (entryPoint fn) pc n' [] [] /\
    ins pc Return 0 /\ fname fn = fd_name fd /\ numArgs fn = uint8_of (Z.of_nat (length (fd_params fd))) /\
    numLocals fn = uint8_of (Z.of_nat n') /\ isAsync fn = false /\ isVarargs fn = false.
Fixpoint code_functions (fds : list FunctionDecl) (fns : list FunctionEntry) : Prop :=
  match fds with
  | [] => fns = []
  | fd :: fds' =>
      match fd_body fd with
      | None => code_functions fds' fns
      | Some body => exists fn fns', fns = fn :: fns' /\ code_function fd body fn /\ code_functions fds' fns'
      end
  end.
End Shape.

(** The slots of the object variables; a name declared twice has the later one. *)
Fixpoint object_env (vs : list ObjectVarDecl) (n : nat) (m : gmap string Z) : gmap string Z :=
  match vs with
  | [] => m
  | v :: vs' => object_env vs' (S n) (<[ov_name v := Z.of_nat n]> m)
  end.
Definition code_program (p : Program) (prg : CompiledProgram) : Prop :=
  code_functions (code prg) (stringPool prg) (object_env (pg_objectVars p) 0 ∅) (pg_functions p) (functions prg) /\
  inheritedPrograms prg = [] /\ length (objectVarNames prg) = length (pg_objectVars p).
