(* ===== verification/CodeShapeStatic.v ===== *)
(** * CodeShapeStatic: what the shape of code implies

    Facts about the relations of CodeShape.v alone: the slots and open jumps of
    a statement, the variables it leaves in scope, the extent of its code. *)
From S2P Require Import Prelude CLib Double Value Bytecode Ast CodeGen CodeShape.
Local Open Scope nat_scope.

(** The slots a statement takes; and the jumps outside of every loop. *)
Section Slots.
Context (C : list Instruction) (pool : list string) (objVars : gmap string Z).
Definition stmt_slots (s : AstNode) : Prop := forall E n pc pc' E' n' B K,
  code_stmt C pool objVars s E n pc pc' E' n' B K ->
  n' = n + decls s /\ (supported_stmt false s = true -> B = [] /\ K = []).
Lemma slots_stmts ss : Forall stmt_slots ss -> forall E n pc pc' E' n' B K,
  code_stmts (code_stmt C pool objVars) ss E n pc pc' E' n' B K ->
  n' = n + sum_list (map decls ss) /\ (forallb (supported_stmt false) ss = true -> B = [] /\ K = []).
Proof.
  induction 1 as [|s ss Hs Hss IH]; intros E n pc pc' E' n' B K; simpl.
  - intros (_ & _ & -> & -> & ->). split; [lia|done].
  - intros (p & E1 & n1 & B1 & K1 & B2 & K2 & H1 & H2 & -> & ->).
    apply Hs in H1 as [-> H1]. apply IH in H2 as [-> H2]. split; [lia|]. intros [Ha Hb]%andb_true_iff.
    destruct (H1 Ha) as [-> ->]. destruct (H2 Hb) as [-> ->]. done.
Qed.
Lemma slots_block ss : Forall stmt_slots ss -> forall E n pc pc' n' B K,
  code_block (code_stmt C pool objVars) ss E n pc pc' n' B K ->
  n' = n + sum_list (map decls ss) /\ (forallb (supported_stmt false) ss = true -> B = [] /\ K = []).
Proof. intros H E n pc pc' n' B K [E' Hb]. by eapply slots_stmts. Qed.
Lemma slots_init init : forall E n pc pc' E' n', code_init C pool objVars (code_stmt C pool objVars) init E n pc pc' E' n' ->
  n' = n + match init with Some (VarDeclStmt _ _ _ _) => 1 | _ => 0 end.
Proof.
  intros E n pc pc' E' n' H. unfold code_init in H.
  destruct init as [e|]; [destruct e|]; try (destruct H as (_ & _ & ->); lia). destruct H as (_ & _ & -> & _). lia.
Qed.
Lemma all_slots : forall s, stmt_slots s.
Proof.
  fix IH 1. intros s.
  assert (forall ss, Forall stmt_slots ss) as IHs by (fix IHs 1; intros [|x ss]; constructor; [apply IH|apply IHs]).
  intros E n pc pc' E' n' B K H.
  destruct s; try done; repeat match goal with b : Block |- _ => destruct b | o : option Block |- _ => destruct o end; simpl in H |- *.
  - destruct H as (p & _ & _ & _ & _ & -> & -> & ->). split; [lia|done].
  - destruct H as (p & _ & _ & _ & _ & -> & -> & ->). split; [lia|done].
  - destruct H as ((_ & _ & -> & _) & -> & ->). split; [lia|done].
  - destruct H as (v & p & _ & _ & _ & _ & _ & -> & -> & ->). split; [lia|done].
  - match goal with b : bool |- _ => destruct b end; [destruct H as [H _]; by apply slots_block in H|by apply slots_stmts in H].
  - destruct H as [(p & q & n1 & B1 & K1 & _ & H1 & B2 & K2 & _ & _ & H2 & -> & ->) _].
    apply slots_block in H1 as [-> H1]; [|done]. apply slots_block in H2 as [-> H2]; [|done].
    split; [lia|]. rewrite !andb_true_iff. intros [[_ Ha] Hb]. destruct (H1 Ha) as [-> ->]. destruct (H2 Hb) as [-> ->]. done.
  - destruct H as [(p & q & n1 & B1 & K1 & _ & H1 & _ & _ & -> & -> & ->) _].
    apply slots_block in H1 as [-> H1]; [|done]. split; [lia|]. rewrite !andb_true_iff. intros [[_ Ha] _]. by apply H1.
  - destruct H as [(p & q & B1 & K1 & _ & _ & H1 & _) (_ & -> & ->)]. apply slots_block in H1 as [-> H1]; [|done]. split; [lia|done].
  - destruct H as [(p & q & B1 & K1 & H1 & _) (_ & -> & ->)]. apply slots_block in H1 as [-> H1]; [|done]. split; [lia|done].
  - destruct H as (p & E1 & n1 & H0 & (p2 & q & r & B1 & K1 & _ & H1 & _) & _ & -> & ->).
    apply slots_init in H0 as ->. apply slots_block in H1 as [-> H1]; [|done]. split; [lia|done].
  - destruct H as (_ & _ & _ & -> & -> & ->). split; [lia|done].
  - destruct H as (_ & _ & _ & -> & -> & ->). split; [lia|done].
Qed.
Lemma forall_slots ss : Forall stmt_slots ss.
Proof. apply Forall_forall. intros s _. apply all_slots. Qed.
End Slots.

(** ** Extent *)
Section Extent.
Context (C : list Instruction) (pool : list string) (objVars : gmap string Z).
Lemma ins_lt pc o a : ins C pc o a -> pc < length C.
Proof. apply lookup_lt_Some. Qed.
Definition expr_extent (e : AstNode) : Prop := forall E pc pc',
  code_expr C pool objVars E e pc pc' -> pc < pc' <= length C.
Ltac extents :=
  repeat match goal with
  | H : _ /\ _ |- _ => destruct H
  | H : exists _, _ |- _ => destruct H
  | H : ins C _ _ _ |- _ => apply ins_lt in H
  | IH : expr_extent ?e, H : code_expr _ _ _ _ ?e _ _ |- _ => apply IH in H
  end.
Lemma extent_all es E : Forall expr_extent es -> forall pc pc', code_all (code_expr C pool objVars E) es pc pc' ->
  pc + length es <= pc'.
Proof.
  induction 1 as [|e es He Hes IH]; intros pc pc'; simpl; [lia|]. intros (p & H1 & H2). apply He in H1. apply IH in H2. lia.
Qed.
Lemma all_extent : forall e, expr_extent e.
Proof.
  fix IH 1. intros e.
  assert (forall es, Forall expr_extent es) as IHs by (fix IHs 1; intros [|x es]; constructor; [apply IH|apply IHs]).
  intros E pc pc' H. destruct e; try done; simpl in H;
    repeat match goal with x : AstNode |- _ => lazymatch goal with _ : expr_extent x |- _ => fail | _ => pose proof (IH x) end end;
    unfold code_binary, code_unary, code_assign, code_incdec in H;
    repeat match type of H with context [match ?x with _ => _ end] => destruct x end; extents; try lia.
  apply (extent_all _ _ (IHs args)) in H. apply lookup_lt_Some in H1. lia.
Qed.

(** Statements also keep the variables in scope. *)
Definition stmt_extent (s : AstNode) : Prop := forall E n pc pc' E' n' B K,
  code_stmt C pool objVars s E n pc pc' E' n' B K ->
  pc <= pc' /\ (pc <= length C -> pc' <= length C) /\ E ⊆ E' /\ n <= n'.
Lemma extent_stmts ss : Forall stmt_extent ss -> forall E n pc pc' E' n' B K,
  code_stmts (code_stmt C pool objVars) ss E n pc pc' E' n' B K ->
  pc <= pc' /\ (pc <= length C -> pc' <= length C) /\ E ⊆ E' /\ n <= n'.
Proof.
  induction 1 as [|s ss Hs Hss IH]; intros E n pc pc' E' n' B K; simpl.
  - intros (-> & -> & -> & _). split_and!; try lia. done.
  - intros (p & E1 & n1 & B1 & K1 & B2 & K2 & H1 & H2 & _). apply Hs in H1 as (? & ? & ? & ?).
    apply IH in H2 as (? & ? & ? & ?). split_and!; [lia|tauto|by etrans|lia].
Qed.
Lemma extent_block ss : Forall stmt_extent ss -> forall E n pc pc' n' B K,
  code_block (code_stmt C pool objVars) ss E n pc pc' n' B K -> pc <= pc' /\ (pc <= length C -> pc' <= length C) /\ n <= n'.
Proof. intros Hs E n pc pc' n' B K [E' H]. apply (extent_stmts _ Hs) in H. tauto. Qed.
Ltac expr_extents :=
  repeat match goal with
  | H : _ /\ _ |- _ => destruct H
  | H : exists _, _ |- _ => destruct H
  | H : ins C _ _ _ |- _ => apply ins_lt in H
  | H : code_expr _ _ _ _ _ _ _ |- _ => apply all_extent in H
  end.
Definition clause_extent (u : option AstNode) : Prop :=
  match u with Some (BlockStmt b) => Forall stmt_extent (statements b) | _ => True end.
Lemma extent_clause u E n pc pc' : clause_extent u ->
  code_clause C pool objVars (code_stmt C pool objVars) u E n pc pc' -> pc <= pc' /\ (pc <= length C -> pc' <= length C).
Proof.
  intros Hs H. destruct u as [e|]; simpl in H; [|subst; lia].
  assert ((exists p, code_expr C pool objVars E e pc p /\ ins C p Pop 0 /\ pc' = p + 1) \/
    exists ss, Forall stmt_extent ss /\ code_block (code_stmt C pool objVars) ss E n pc pc' n [] []) as [Hc|(ss & Hss & Hc)].
  { destruct e; try (left; exact H). match goal with b : Block |- _ => destruct b end. right. by eexists. }
  - expr_extents. lia.
  - apply extent_block in Hc; [tauto|done].
Qed.
Lemma extent_decl x value E n pc pc' E' n' : code_vardecl C pool objVars x value E n pc pc' E' n' ->
  pc <= pc' /\ (pc <= length C -> pc' <= length C) /\ E ⊆ E' /\ n <= n'.
Proof.
  intros (Hx & -> & -> & H). assert (E ⊆ <[x := Z.of_nat n]> E) by (by apply insert_subseteq).
  destruct value; expr_extents; split_and!; try done; lia.
Qed.
Lemma extent_init init E n pc pc' E' n' : clause_extent init ->
  code_init C pool objVars (code_stmt C pool objVars) init E n pc pc' E' n' ->
  pc <= pc' /\ (pc <= length C -> pc' <= length C) /\ E ⊆ E' /\ n <= n'.
Proof.
  intros Hs H.
  assert ((exists x v, code_vardecl C pool objVars x v E n pc pc' E' n') \/
    (code_clause C pool objVars (code_stmt C pool objVars) init E n pc pc' /\ E' = E /\ n' = n)) as [(x & v & Hc)|(Hc & -> & ->)].
  { destruct init as [e|]; [destruct e|]; try (right; exact H). left. by eexists _, _. }
  - by eapply extent_decl.
  - apply extent_clause in Hc; [|done]. split_and!; try tauto; done.
Qed.
Lemma all_stmt_extent : forall s, stmt_extent s.
Proof.
  fix IH 1. intros s.
  assert (forall ss, Forall stmt_extent ss) as IHs by (fix IHs 1; intros [|x ss]; constructor; [apply IH|apply IHs]).
  intros E n pc pc' E' n' B K H.
  destruct s; try done; repeat match goal with b : Block |- _ => destruct b | o : option Block |- _ => destruct o end; simpl in H.
  all: try (match goal with e : option AstNode |- _ => destruct e end; expr_extents; subst; split_and!; try done; lia).
  all: try (expr_extents; subst; split_and!; try done; lia).
  - destruct H as [H _]. by eapply extent_decl.
  - match goal with b : bool |- _ => destruct b end; [|by eapply extent_stmts].
    destruct H as [H ->]. apply extent_block in H; [|done]. split_and!; try tauto; done.
  - destruct H as [(p & q & n1 & B1 & K1 & H1 & H2 & B2 & K2 & H3 & H4 & H5 & _) ->].
    apply extent_block in H2; [|done]. apply extent_block in H5; [|done]. expr_extents. split_and!; try done; lia.
  - destruct H as [(p & q & n1 & B1 & K1 & H1 & H2 & H3 & -> & -> & _) ->].
    apply extent_block in H2; [|done]. expr_extents. split_and!; try done; lia.
  - destruct H as [(p & q & B1 & K1 & H1 & H2 & H3 & H4 & -> & _) (-> & _)].
    apply extent_block in H3; [|done]. expr_extents. split_and!; try done; lia.
  - destruct H as [(p & q & B1 & K1 & H1 & H2 & H3 & H4 & -> & _) (-> & _)].
    apply extent_block in H1; [|done]. expr_extents. split_and!; try done; lia.
  - destruct H as (p & E1 & n1 & H0 & (p2 & q & r & B1 & K1 & H1 & H2 & H3 & H4 & -> & _) & -> & _).
    apply extent_block in H2; [|done].
    apply extent_init in H0; [|destruct init as [[]|]; try exact I; match goal with b : Block |- _ => destruct b end; apply IHs].
    apply extent_clause in H3; [|destruct update as [[]|]; try exact I; match goal with b : Block |- _ => destruct b end; apply IHs].
    unfold code_condition in H1. destruct condition; expr_extents; split_and!; try done; lia.
Qed.
Lemma forall_extent ss : Forall stmt_extent ss.
Proof. apply Forall_forall. intros s _. apply all_stmt_extent. Qed.
Lemma any_clause u : clause_extent u.
Proof. destruct u as [e|]; [|done]. destruct e; try done. apply forall_extent. Qed.
End Extent.
