(* ===== verification/CodeShapeFacts.v ===== *)
(** * CodeShapeFacts: the generator emits code of the right shape

    Whenever [emitExpr], [emitStatement] or [compile] return on supported
    trees, the instructions they appended satisfy the relations of CodeShape.v,
    in any later program that keeps them. *)
From S2P Require Import Prelude CLib Double Value Bytecode Ast CodeGen CodeShape.
Local Open Scope nat_scope.

Abbreviation cd g := (code (out_ g)) (only parsing).
Abbreviation pl g := (stringPool (out_ g)) (only parsing).
Definition len (g : CodeGen) : nat := length (cd g).

(** ** Growth *)
Record cgrow (g g' : CodeGen) : Prop := {
  cg_out : out_ g' = (out_ g) <| code := cd g' |> <| stringPool := pl g' |>;
  cg_code : cd g `prefix_of` cd g';
  cg_pool : pl g `prefix_of` pl g';
  cg_objectVars : objectVars_ g' = objectVars_ g;
  cg_lambdas : pendingLambdas_ g' = pendingLambdas_ g;
  cg_anons : pendingAnonFuncs_ g' = pendingAnonFuncs_ g
}.
(** An expression changes nothing else. *)
Record egrow (g g' : CodeGen) : Prop := {
  eg_code : cgrow g g';
  eg_locals : locals_ g' = locals_ g;
  eg_next : nextLocalSlot_ g' = nextLocalSlot_ g;
  eg_scopes : localScopeStack_ g' = localScopeStack_ g;
  eg_loops : loopStack_ g' = loopStack_ g
}.
(** [g'] is [g] with the operands at [idxs] set. *)
Record patched (idxs : list nat) (target : nat) (g g' : CodeGen) : Prop := {
  pa_ne : forall i, i ∉ idxs -> cd g' !! i = cd g !! i;
  pa_eq : forall i o a n, i ∈ idxs -> cd g !! i = Some (mkInstr o a n) -> cd g' !! i = Some (mkInstr o (int_of target) n);
  pa_len : len g' = len g;
  pa_cgrow : forall g0, (forall i, i ∈ idxs -> len g0 <= i) -> cgrow g0 g -> cgrow g0 g';
  pa_pool : pl g' = pl g;
  pa_locals : locals_ g' = locals_ g;
  pa_next : nextLocalSlot_ g' = nextLocalSlot_ g;
  pa_scopes : localScopeStack_ g' = localScopeStack_ g;
  pa_loops : loopStack_ g' = loopStack_ g;
  pa_objectVars : objectVars_ g' = objectVars_ g
}.

Lemma cgrow_refl g : cgrow g g.
Proof. split; try done. by destruct (out_ g). Qed.
Lemma cgrow_trans g1 g2 g3 : cgrow g1 g2 -> cgrow g2 g3 -> cgrow g1 g3.
Proof.
  intros [H1 H2 H3 H4 H5 H6] [K1 K2 K3 K4 K5 K6]. split; try congruence; [|by etrans|by etrans].
  rewrite K1, H1. by destruct (out_ g1).
Qed.
Lemma cgrow_len g g' : cgrow g g' -> len g <= len g'.
Proof. intros H. apply prefix_length, H. Qed.
Lemma cgrow_at g g' i : cgrow g g' -> i < len g -> cd g' !! i = cd g !! i.
Proof. intros H Hi. destruct (cg_code _ _ H) as [k ->]. by apply lookup_app_l. Qed.
Lemma cgrow_pool g g' i s : cgrow g g' -> pl g !! i = Some s -> pl g' !! i = Some s.
Proof. intros H Hs. eapply prefix_lookup_Some; [exact Hs|apply H]. Qed.
Lemma egrow_refl g : egrow g g.
Proof. split; [apply cgrow_refl|done..]. Qed.
Lemma egrow_trans g1 g2 g3 : egrow g1 g2 -> egrow g2 g3 -> egrow g1 g3.
Proof.
  intros [H1 H2 H3 H4 H5] [K1 K2 K3 K4 K5]. split; try congruence. by eapply cgrow_trans.
Qed.

(** ** The primitive emitters *)
Lemma emit_grow o a n g r g' : emit o a n g = (Ok r, g') ->
  egrow g g' /\ len g' = len g + 1 /\ cd g' !! len g = Some (mkInstr o a n).
Proof.
  unfold emit, modOut, mmodify. intros [= _ <-].
  split; [|split].
  - split; [split|..]; simpl; try done; by eexists.
  - unfold len. simpl. by rewrite length_app.
  - unfold len. simpl. by rewrite lookup_app_r, Nat.sub_diag.
Qed.
Lemma placeholder_grow o g idx g' : emitJumpPlaceholder o g = (Ok idx, g') ->
  idx = len g /\ egrow g g' /\ len g' = len g + 1 /\ cd g' !! len g = Some (mkInstr o (-1) 0).
Proof.
  unfold emitJumpPlaceholder, codeSize. intros H. inv_ok. split; [done|]. by eapply emit_grow.
Qed.
Lemma indexIf_lookup s l i : indexIf (String.eqb s) l = Some i -> l !! i = Some s.
Proof.
  revert i. induction l as [|x l IH]; simpl; [done|]. intros i. destruct (String.eqb_spec s x) as [->|].
  - by intros [= <-].
  - destruct (indexIf _ l) as [j|]; [|done]. intros [= <-]. by apply IH.
Qed.
Lemma intern_grow s g z g' : internString s g = (Ok z, g') ->
  egrow g g' /\ len g' = len g /\ exists i, z = int_of i /\ pl g' !! i = Some s.
Proof.
  unfold internString. intros H. inv_ok. destruct (indexIf _ _) as [i|] eqn:E.
  - unfold mret in H. injection H as <- <-. split; [apply egrow_refl|]. split; [done|]. exists i. split; [done|].
    by apply indexIf_lookup.
  - unfold modOut in H. inv_ok. split; [|split; [done|]].
    + split; [split|..]; simpl; try done; by eexists.
    + eexists. split; [done|]. simpl. by rewrite lookup_app_r, Nat.sub_diag.
Qed.
Lemma resolve_ok x g v g' : resolveVariable x g = (Ok v, g') -> g' = g /\ resolves (objectVars_ g) (locals_ g) x v.
Proof.
  unfold resolveVariable, resolves. destruct (locals_ g !! x); [by intros [= <- <-]|].
  by destruct (objectVars_ g !! x); [intros [= <- <-]|].
Qed.
Lemma patched_nil target g : patched [] target g g.
Proof. split; try done. intros i o a n H. by apply not_elem_of_nil in H. Qed.
Lemma patch_ok idx target g r g' : patchJumpTo idx target g = (Ok r, g') -> patched [idx] target g g'.
Proof.
  unfold patchJumpTo, modOut, mmodify. intros [= _ <-]. split; try done.
  - intros i Hi. simpl. apply list_lookup_alter_ne. intros ->. apply Hi. by left.
  - intros i o a n Hi H. apply list_elem_of_singleton in Hi as ->. simpl. by rewrite list_lookup_alter_eq, H.
  - unfold len. simpl. apply length_alter.
  - intros g0 H0 [H1 H2 H3 H4 H5 H6]. split; simpl; try done.
    + rewrite H1 at 1. by destruct (out_ g0).
    + destruct H2 as [k E]. rewrite E, alter_app_r_alt by (apply H0; by left). by eexists.
Qed.
Lemma patched_cons idx idxs target g1 g2 g3 :
  patched [idx] target g1 g2 -> patched idxs target g2 g3 -> patched (idx :: idxs) target g1 g3.
Proof.
  intros [H1 H2 H3 H4 H5 H6 H7 H8 H9 H10] [K1 K2 K3 K4 K5 K6 K7 K8 K9 K10]. split; try congruence.
  - intros i Hi. rewrite not_elem_of_cons in Hi. rewrite K1, H1; [done| |tauto].
    intros ->%list_elem_of_singleton. tauto.
  - intros i o a n Hi E. destruct (decide (i = idx)) as [->|Hne].
    + pose proof (H2 idx o a n ltac:(by left) E) as E2. destruct (decide (idx ∈ idxs)); [by eapply K2|by rewrite K1].
    + apply elem_of_cons in Hi as [Hi|Hi]; [done|]. eapply K2; [done|]. rewrite H1; [done|].
      by intros ->%list_elem_of_singleton.
  - intros g0 Hg0 Hg. apply K4; [intros i Hi; apply Hg0; by right|]. apply H4; [|done].
    intros i ->%list_elem_of_singleton. apply Hg0. by left.
Qed.
Lemma patchAll_ok idxs target g r g' : patchAll idxs target g = (Ok r, g') -> patched idxs target g g'.
Proof.
  revert g. induction idxs as [|idx idxs IH]; intros g H; simpl in H.
  - unfold mret in H. injection H as _ <-. apply patched_nil.
  - inv_ok. eapply patched_cons; [by eapply patch_ok|by apply IH].
Qed.
Lemma patchHere_ok idx g r g' : patchJumpToHere idx g = (Ok r, g') -> patched [idx] (len g) g g'.
Proof. unfold patchJumpToHere, codeSize. intros H. inv_ok. by eapply patch_ok. Qed.
Lemma patchAllHere_ok idxs g r g' : patchAllToHere idxs g = (Ok r, g') -> patched idxs (len g) g g'.
Proof. unfold patchAllToHere, codeSize. intros H. inv_ok. by eapply patchAll_ok. Qed.
Lemma pa_rest idxs target g g' : patched idxs target g g' -> forall g0, (forall i, i ∈ idxs -> len g0 <= i) ->
  egrow g0 g -> egrow g0 g'.
Proof.
  intros [] g0 H0 [K1 K2 K3 K4 K5]. split; [auto|congruence..].
Qed.

(** ** Fitting a later program *)
Record fits (C : list Instruction) (pool : list string) (g g' : CodeGen) (holes : list nat) : Prop := {
  ft_code : forall i, len g <= i < len g' -> i ∉ holes -> C !! i = cd g' !! i;
  ft_hole : forall i, i ∈ holes -> exists a, C !! i = Some (mkInstr Jump a 0);
  ft_pool : forall i s, pl g' !! i = Some s -> pool !! i = Some s
}.
(** Part of a program, where it has not changed since. *)
Lemma fits_part C pool g g' holes ga gb :
  fits C pool g g' holes -> len g <= len ga -> len gb <= len g' ->
  (forall i, i ∈ holes -> ~ (len ga <= i < len gb)) ->
  (forall i, len ga <= i < len gb -> cd g' !! i = cd gb !! i) -> pl gb `prefix_of` pl g' ->
  fits C pool ga gb [].
Proof.
  intros H Ha Hb Hh Hc Hp. split.
  - intros i Hi _. rewrite <- Hc by done. apply H; [lia|]. intros Hin. by apply (Hh i).
  - intros i Hi. by apply not_elem_of_nil in Hi.
  - intros i s Hs. apply H. eapply prefix_lookup_Some; [exact Hs|done].
Qed.
Lemma fits_ins C pool g g' pc o a a' :
  fits C pool g g' [] -> len g <= pc -> cd g' !! pc = Some (mkInstr o a' 0) -> a' = a -> ins C pc o a.
Proof.
  intros H Hpc E <-. unfold ins. rewrite (ft_code _ _ _ _ _ H); [done| |by apply not_elem_of_nil].
  split; [done|]. by apply lookup_lt_Some in E.
Qed.

(** Facts about lengths for [lia]; and lookups through a chain of changes. *)
Ltac lens :=
  repeat match goal with
  | H : egrow ?a ?b |- _ =>
      lazymatch goal with
      | _ : len a <= len b |- _ => fail
      | _ => pose proof (cgrow_len _ _ (eg_code _ _ H))
      end
  | H : patched _ _ ?a ?b |- _ =>
      lazymatch goal with
      | _ : len b = len a |- _ => fail
      | _ => pose proof (pa_len _ _ _ _ H)
      end
  end.
Ltac notin :=
  repeat intros ?;
  repeat match goal with
  | H : _ ∈ [] |- _ => by apply not_elem_of_nil in H
  | H : _ ∈ [_] |- _ => apply list_elem_of_singleton in H
  | H : _ ∈ _ ++ _ |- _ => apply elem_of_app in H as [H|H]
  | H : ?i ∈ ?B, HB : forall j, j ∈ ?B -> ?lo <= j < ?hi |- _ => apply HB in H
  end; lia.
Ltac chase :=
  repeat match goal with
  | H : egrow ?a ?b |- context [code (out_ ?b) !! ?i] => rewrite (cgrow_at a b i (eg_code _ _ H)) by lia
  | H : patched _ _ ?a ?b |- context [code (out_ ?b) !! ?i] => rewrite (pa_ne _ _ _ _ H i) by notin
  end.
(** The instruction at a position: [eauto] with the step that wrote it. *)
Ltac written :=
  lens; chase;
  first [eassumption
        | match goal with H : patched [?i] _ _ ?b |- code (out_ ?b) !! ?i = _ => eapply (pa_eq _ _ _ _ H i); [by left|] end; written].
Ltac grows :=
  lens; first [eassumption
        | match goal with
          | H : egrow ?a ?b |- egrow ?g ?b => apply (egrow_trans g a b); [|exact H]
          | H : patched _ _ ?a ?b |- egrow ?g ?b => apply (pa_rest _ _ _ _ H); [notin|]
          end; grows
        | apply egrow_refl].

(** ** Expressions *)
Definition shape (e : AstNode) (g g' : CodeGen) : Prop := forall C pool, fits C pool g g' [] ->
  code_expr C pool (objectVars_ g) (locals_ g) e (len g) (len g').
Definition shaped (e : AstNode) : Prop := supported_expr e = true -> forall g r g', emitExpr e g = (Ok r, g') ->
  egrow g g' /\ shape e g g'.

Ltac pools :=
  first [reflexivity
        | match goal with
          | H : egrow ?a ?b |- prefix _ (stringPool (out_ ?b)) => etrans; [|apply (cg_pool _ _ (eg_code _ _ H))]
          | H : patched _ _ ?a ?b |- prefix _ (stringPool (out_ ?b)) => rewrite (pa_pool _ _ _ _ H)
          end; pools].
Lemma egrow_objectVars g g' : egrow g g' -> objectVars_ g' = objectVars_ g.
Proof. intros H. apply H. Qed.
Lemma use_shape C pool g ga gb e : shape e ga gb -> egrow g ga -> fits C pool ga gb [] ->
  code_expr C pool (objectVars_ g) (locals_ g) e (len ga) (len gb).
Proof. intros H Hg Hf. specialize (H C pool Hf). by rewrite (egrow_objectVars _ _ Hg), (eg_locals _ _ Hg) in H. Qed.
Lemma use_shape_at C pool g ga gb e p q : shape e ga gb -> egrow g ga -> fits C pool ga gb [] ->
  p = len ga -> q = len gb -> code_expr C pool (objectVars_ g) (locals_ g) e p q.
Proof. intros H Hg Hf -> ->. by apply use_shape. Qed.
(** A part of the code that fits, given that all of it does. *)
Ltac part F :=
  lens; eapply fits_part;
  [exact F|lia|lia
  |let i := fresh "i" in intros i; by intros ?%not_elem_of_nil
  |let i := fresh "i" in let Hi := fresh "Hi" in intros i Hi; chase; reflexivity
  |pools].
Ltac sub_at F ga gb :=
  lens; match goal with |- code_expr _ _ (objectVars_ ?g) _ _ _ _ =>
    apply (use_shape_at _ _ g ga gb); [assumption|grows|part F|lia|lia] end.
Ltac code_at F k :=
  lens; match goal with |- ins _ ?pc _ _ => replace pc with k by lia end;
  eapply fits_ins; [exact F|lia|written|first [reflexivity|f_equal; lia]].
Ltac emits :=
  repeat match goal with
  | H : emit _ _ _ _ = _ |- _ => apply emit_grow in H as (? & ? & ?)
  | H : emitJumpPlaceholder _ _ = _ |- _ => apply placeholder_grow in H as (-> & ? & ? & ?)
  | H : patchJumpToHere _ _ = _ |- _ => apply patchHere_ok in H
  | H : internString _ _ = _ |- _ => apply intern_grow in H as (? & ? & ? & -> & ?)
  | H : resolveVariable _ _ = _ |- _ => apply resolve_ok in H as (-> & ?)
  end.

Ltac run He Hs :=
  match type of He with shaped ?e =>
    match goal with H : emitExpr e _ = _ |- _ => destruct (He Hs _ _ _ H) as [? ?]; clear H end
  end.

Lemma shaped_all es C pool g r g' : Forall shaped es -> forallb supported_expr es = true ->
  emitAll emitExpr es g = (Ok r, g') ->
  egrow g g' /\ (fits C pool g g' [] ->
    code_all (code_expr C pool (objectVars_ g) (locals_ g)) es (len g) (len g')).
Proof.
  intros Hes. revert g. induction Hes as [|e es He Hes IH]; intros g Hs H; simpl in Hs, H.
  - inv_ok. split; [apply egrow_refl|done].
  - apply andb_true_iff in Hs as [Hs1 Hs2]. inv_ok.
    destruct (He Hs1 _ _ _ E) as [G1 S1]. destruct (IH _ Hs2 H) as [G2 S2]. split; [grows|]. intros F. simpl.
    exists (len s). split; [sub_at F g s|].
    rewrite <- (egrow_objectVars _ _ G1), <- (eg_locals _ _ G1). apply S2. part F.
Qed.
Lemma shaped_ternary c t f : shaped c -> shaped t -> shaped f -> shaped (TernaryExpr c t f).
Proof.
  intros Hc Ht Hf Hs g r g' H. simpl in Hs, H. rewrite !andb_true_iff in Hs. destruct Hs as [[Hs1 Hs2] Hs3].
  unfold emitTernaryExpr in H. inv_ok.
  run Hc Hs1. emits. run Ht Hs2.
  emits. run Hf Hs3. emits.
  split; [grows|]. intros C pool F. simpl. exists (len s), (len s1).
  split; [sub_at F g s|]. split; [code_at F (len s)|]. split; [sub_at F s0 s1|].
  split; [code_at F (len s1)|sub_at F s3 s4].
Qed.
Lemma shaped_logical o l r : shaped l -> shaped r -> o = BinOp.Or \/ o = BinOp.And -> shaped (BinaryExpr o l r).
Proof.
  intros Hl Hr Ho Hs g x g' H. simpl in Hs. rewrite andb_true_iff in Hs. destruct Hs as [Hs1 Hs2].
  assert (emitLogicalExpr emitExpr o l r g = (Ok x, g')) as H' by by destruct Ho as [-> | ->].
  unfold emitLogicalExpr in H'. inv_ok. run Hl Hs1. emits.
  destruct Ho as [-> | ->]; simpl in H'; inv_ok.
  - emits. run Hr Hs2. emits.
    split; [grows|]. intros C pool F. simpl. exists (len s).
    split; [sub_at F g s|]. split; [code_at F (len s)|]. split; [code_at F (len s0)|].
    split; [code_at F (len s1)|]. split; [code_at F (len s3)|sub_at F s4 s5].
  - emits. run Hr Hs2. emits.
    split; [grows|]. intros C pool F. simpl. exists (len s).
    split; [sub_at F g s|]. split; [code_at F (len s)|]. split; [code_at F (len s0)|].
    split; [code_at F (len s1)|sub_at F s2 s3].
Qed.
Lemma shaped_binary o l r : shaped l -> shaped r -> o <> BinOp.Or -> o <> BinOp.And -> shaped (BinaryExpr o l r).
Proof.
  intros Hl Hr Ho1 Ho2 Hs g x g' H. simpl in Hs. rewrite andb_true_iff in Hs. destruct Hs as [Hs1 Hs2].
  assert (emitBinaryExpr emitExpr o l r g = (Ok x, g')) as H' by by destruct o.
  unfold emitBinaryExpr, emitBinaryOp in H'. inv_ok. run Hl Hs1.
  run Hr Hs2. destruct (binaryOp o) as [op|] eqn:Eop; [|done]. emits.
  split; [grows|]. intros C pool F.
  assert (exists p p' op, code_expr C pool (objectVars_ g) (locals_ g) l (len g) p /\
            code_expr C pool (objectVars_ g) (locals_ g) r p p' /\ binaryOp o = Some op /\ ins C p' op 0 /\ len g' = p' + 1)
    as Hc; [|by destruct o].
  exists (len s), (len s0), op. split; [sub_at F g s|]. split; [sub_at F s s0|]. split; [done|].
  split; [code_at F (len s0)|lia].
Qed.
Lemma shaped_unary o x : shaped x -> shaped (UnaryExpr o x).
Proof.
  intros Hx Hs g y g' H. simpl in Hs, H. unfold emitUnaryExpr in H. destruct o; inv_ok.
  - run Hx Hs. emits. split; [grows|]. intros C pool F. exists (len s).
    split; [sub_at F g s|]. split; [code_at F (len s)|lia].
  - emits. run Hx Hs. emits. split; [grows|]. intros C pool F. exists (len s0).
    split; [code_at F (len g)|]. split; [sub_at F s s0|]. split; [code_at F (len s0)|lia].
  - run Hx Hs. emits. split; [grows|]. intros C pool F. exists (len s).
    split; [sub_at F g s|]. split; [code_at F (len s)|lia].
Qed.
Lemma shaped_comma l r : shaped l -> shaped r -> shaped (CommaExpr l r).
Proof.
  intros Hl Hr Hs g x g' H. simpl in Hs, H. apply andb_true_iff in Hs as [Hs1 Hs2]. inv_ok.
  run Hl Hs1. emits. run Hr Hs2. split; [grows|]. intros C pool F. exists (len s).
  split; [sub_at F g s|]. split; [code_at F (len s)|sub_at F s0 g'].
Qed.
Lemma shaped_assign x v c o : shaped v -> shaped (AssignExpr x v c o).
Proof.
  intros Hv Hs g y g' H. simpl in Hs, H. unfold emitAssignExpr in H. inv_ok. emits. destruct c.
  - unfold emitCompoundOp in E0. inv_ok. emits. run Hv Hs.
    destruct (compoundOpcode o) as [op|] eqn:Eop; [|done]. emits.
    split; [grows|]. intros C pool F. exists a. split; [done|]. exists (len s0).
    split; [exists (len s2), op|].
    { split; [code_at F (len g)|]. split; [sub_at F s s2|]. split; [done|]. split; [code_at F (len s2)|lia]. }
    split; [code_at F (len s0)|]. split; [code_at F (len s1)|lia].
  - run Hv Hs. emits. split; [grows|]. intros C pool F. exists a. split; [done|]. exists (len s0).
    split; [sub_at F g s0|]. split; [code_at F (len s0)|]. split; [code_at F (len s1)|lia].
Qed.
Lemma shaped_incdec o prefix x key col : shaped (IncDecExpr o prefix x None key col).
Proof.
  intros _ g y g' H. simpl in H. unfold emitIncDecVar in H. inv_ok. emits.
  destruct prefix; inv_ok; emits; (split; [grows|]); intros C pool F; exists a; (split; [done|]).
  - split; [code_at F (len g)|]. split; [|split; [code_at F (len s2)|lia]].
    split; [code_at F (len s0)|]. split; [code_at F (len s)|code_at F (len s1)].
  - split; [code_at F (len g)|]. split; [|split; [code_at F (len s2)|lia]].
    split; [code_at F (len s0)|]. split; [code_at F (len s)|code_at F (len s1)].
Qed.
Lemma shaped_call f args q : Forall shaped args -> shaped (CallExpr f args [] false false q).
Proof.
  intros Ha Hs g x g' H. simpl in Hs, H. unfold emitCallExpr in H. inv_ok.
  destruct (shaped_all args [] [] _ _ _ Ha Hs E) as [G1 _].
  assert (s0 = s) as -> by (simpl in E0; by injection E0).
  apply intern_grow in E1 as (G2 & L2 & i & -> & W2). emits.
  split; [grows|]. intros C pool F. exists (len s), i.
  split; [apply (shaped_all args C pool _ _ _ Ha Hs E); part F|].
  split; [apply (ft_pool _ _ _ _ _ F); eapply prefix_lookup_Some; [exact W2|pools]|].
  split; [|lens; lia].
  replace (len s) with (len s1) by lia. lens. rewrite (ft_code _ _ _ _ _ F); [done|lia|by apply not_elem_of_nil].
Qed.
Lemma shaped_leaf e : match e with IntLiteral _ | StringLiteral _ | VarRefExpr _ => True | _ => False end -> shaped e.
Proof.
  intros He Hs g x g' H. destruct e; try done; simpl in Hs, H; inv_ok.
  - apply intern_grow in E as (G1 & L1 & i & -> & W1). emits. split; [grows|]. intros C pool F. exists i.
    split; [apply (ft_pool _ _ _ _ _ F); eapply prefix_lookup_Some; [exact W1|pools]|].
    split; [code_at F (len s)|lens; lia].
  - emits. split; [grows|]. intros C pool F. split; [|lens; lia].
    lens. eapply fits_ins; [exact F|lia|written|]. apply wrap_id; [lia|].
    unfold in_int32 in Hs. lia.
  - unfold emitVarRef in H. inv_ok. emits. split; [grows|]. intros C pool F. exists a. split; [done|].
    split; [code_at F (len g)|lens; lia].
Qed.

Lemma all_shaped : forall e, shaped e.
Proof.
  fix IH 1. intros e. destruct e; try (intros Hs; discriminate Hs); try by apply shaped_leaf.
  - destruct op; first [apply shaped_logical; [apply IH|apply IH|tauto] | apply shaped_binary; [apply IH|apply IH|done|done]].
  - apply shaped_comma; apply IH.
  - apply shaped_unary, IH.
  - apply shaped_ternary; apply IH.
  - destruct argIsSpread, forceEfun, parentCall; try (intros Hs; discriminate Hs). apply shaped_call.
    induction args; constructor; [apply IH|done].
  - apply shaped_assign, IH.
  - destruct indexTarget; try (intros Hs; discriminate Hs). apply shaped_incdec.
Qed.
