(* ===== verification/CodeShapeProgram.v ===== *)
(** * CodeShapeProgram: the shape of statements, functions and programs

    CodeShapeFacts.v for everything above expressions.  The jumps of [break]
    and [continue] wait in the loop contexts of the generator until the loop
    patches them; until then they are holes of the shape. *)
From S2P Require Import Prelude CLib Double Value Bytecode Ast CodeGen CodeShape CodeShapeStatic CodeShapeFacts.
Local Open Scope nat_scope.

Abbreviation cd g := (code (out_ g)) (only parsing).
Abbreviation pl g := (stringPool (out_ g)) (only parsing).

Definition add_jumps (B K : list nat) (l : list LoopContext) : list LoopContext :=
  match l with
  | [] => []
  | t :: r => mkLoop (breakJumps t ++ B) (continueJumps t ++ K) (isSwitch t) :: r
  end.
Definition add_names (ns : list string) (l : list (list string)) : list (list string) :=
  match l with [] => [] | t :: r => (t ++ ns) :: r end.
Definition forget (ns : list string) (E : env) : env := foldr delete E ns.
Definition good_loops (g : CodeGen) : Prop := Forall (fun l => isSwitch l = false) (loopStack_ g).
Definition holes (g g' : CodeGen) (js : list nat) : Prop :=
  forall j, j ∈ js -> len g <= j < len g' /\ exists a, cd g' !! j = Some (mkInstr Jump a 0).

(** [n] slots are used before, [n'] after; [B] and [K] are the open jumps, [ns]
    the variables declared in the current scope. *)
Record sgrow (g g' : CodeGen) (n n' : nat) (B K : list nat) (ns : list string) : Prop := {
  sg_code : cgrow g g';
  sg_next : nextLocalSlot_ g = Z.of_nat n;
  sg_next' : nextLocalSlot_ g' = Z.of_nat n';
  sg_le : n <= n';
  sg_scopes : localScopeStack_ g' = add_names ns (localScopeStack_ g);
  sg_restore : forget ns (locals_ g') = locals_ g;
  sg_loops : loopStack_ g' = add_jumps B K (loopStack_ g);
  sg_holes : holes g g' (B ++ K);
  sg_apart : forall j, j ∈ B -> j ∈ K -> False
}.

Lemma add_jumps_nil l : add_jumps [] [] l = l.
Proof. destruct l as [|[b k s] l]; simpl; [done|]. by rewrite !app_nil_r. Qed.
Lemma add_jumps_app B1 K1 B2 K2 l : add_jumps B2 K2 (add_jumps B1 K1 l) = add_jumps (B1 ++ B2) (K1 ++ K2) l.
Proof. destruct l as [|t l]; simpl; [done|]. by rewrite !app_assoc. Qed.
Lemma add_names_nil l : add_names [] l = l.
Proof. destruct l; simpl; [done|]. by rewrite app_nil_r. Qed.
Lemma add_names_app a b l : add_names b (add_names a l) = add_names (a ++ b) l.
Proof. destruct l; simpl; [done|]. by rewrite app_assoc. Qed.
Lemma good_add B K l : Forall (fun l => isSwitch l = false) l -> Forall (fun l => isSwitch l = false) (add_jumps B K l).
Proof. destruct 1; simpl; by constructor. Qed.
Lemma holes_nil g g' : holes g g' [].
Proof. intros j Hj. by apply not_elem_of_nil in Hj. Qed.

Lemma egrow_sgrow g g' n : egrow g g' -> nextLocalSlot_ g = Z.of_nat n -> sgrow g g' n n [] [] [].
Proof.
  intros [H1 H2 H3 H4 H5] Hn. split; try done; try congruence.
  - by rewrite add_names_nil.
  - by rewrite add_jumps_nil.
  - apply holes_nil.
  - intros j Hj. by apply not_elem_of_nil in Hj.
Qed.
Lemma sgrow_trans g1 g2 g3 n1 n2 n3 B1 K1 ns1 B2 K2 ns2 :
  sgrow g1 g2 n1 n2 B1 K1 ns1 -> sgrow g2 g3 n2 n3 B2 K2 ns2 ->
  sgrow g1 g3 n1 n3 (B1 ++ B2) (K1 ++ K2) (ns1 ++ ns2).
Proof.
  intros [H1 H2 H3 H4 H5 H6 H7 H8 H9] [K1' K2' K3 K4 K5 K6 K7 K8 K9]. split; try done.
  - by eapply cgrow_trans.
  - lia.
  - by rewrite K5, H5, add_names_app.
  - unfold forget in *. rewrite foldr_app. by rewrite K6.
  - by rewrite K7, H7, add_jumps_app.
  - intros j Hj. pose proof (cgrow_len _ _ H1). pose proof (cgrow_len _ _ K1').
    assert (j ∈ B1 ++ K1 \/ j ∈ B2 ++ K2) as [Hj'|Hj'] by (rewrite !elem_of_app in *; tauto).
    + destruct (H8 j Hj') as [Hb [a Ha]]. split; [lia|]. exists a. by rewrite (cgrow_at _ _ j K1') by lia.
    + destruct (K8 j Hj') as [Hb [a Ha]]. split; [lia|]. by exists a.
  - intros j Hj Hk. apply elem_of_app in Hj as [Hj|Hj], Hk as [Hk|Hk].
    + by apply (H9 j).
    + destruct (H8 j) as [? _]; [set_solver|]. destruct (K8 j) as [? _]; [set_solver|lia].
    + destruct (H8 j) as [? _]; [set_solver|]. destruct (K8 j) as [? _]; [set_solver|lia].
    + by apply (K9 j).
Qed.
Lemma sgrow_patched idxs target g g1 g2 n n' B K ns : sgrow g g1 n n' B K ns -> patched idxs target g1 g2 ->
  (forall i, i ∈ idxs -> len g <= i) -> sgrow g g2 n n' B K ns.
Proof.
  intros [H1 H2 H3 H4 H5 H6 H7 H8 H9] Hp Hi. destruct Hp as [P1 P2 P3 P4 P5 P6 P7 P8 P9 P10].
  split; try congruence; [by apply P4| |done].
  intros j Hj. destruct (H8 j Hj) as [Hb [a Ha]]. split; [lia|].
  destruct (decide (j ∈ idxs)) as [Hin|Hin]; [by eexists; eapply P2|]. exists a. by rewrite P1.
Qed.

(** A part of the code that fits, with its own holes. *)
Lemma fits_sub C pool g g' hs ga gb hs' :
  fits C pool g g' hs -> len g <= len ga -> len gb <= len g' ->
  (forall i, i ∈ hs -> len ga <= i < len gb -> i ∈ hs') ->
  (forall i, len ga <= i < len gb -> i ∉ hs' -> cd g' !! i = cd gb !! i) ->
  (forall i, i ∈ hs' -> i ∈ hs \/ exists a, len g <= i < len g' /\ cd g' !! i = Some (mkInstr Jump a 0)) ->
  pl gb `prefix_of` pl g' -> fits C pool ga gb hs'.
Proof.
  intros [F1 F2 F3] Ha Hb Hh Hc Hh' Hp. split.
  - intros i Hi Hn. rewrite <- Hc by done. apply F1; [lia|]. intros Hin. apply Hn. by apply Hh.
  - intros i Hi. destruct (decide (i ∈ hs)); [by apply F2|]. destruct (Hh' i Hi) as [|(a & Hb' & E)]; [done|].
    exists a. rewrite <- E. by apply F1.
  - intros i s Hs. apply F3. eapply prefix_lookup_Some; [exact Hs|done].
Qed.
Lemma ins_sub C pool g g' hs pc o a a' : fits C pool g g' hs -> len g <= pc -> pc ∉ hs ->
  cd g' !! pc = Some (mkInstr o a' 0) -> a' = a -> ins C pc o a.
Proof.
  intros [F1 _ _] H1 H2 H3 <-. unfold ins. rewrite F1; [done| |done]. split; [done|]. by apply lookup_lt_Some in H3.
Qed.

(** Two parts in a row. *)
Lemma fits_seq C pool g1 g2 g3 hs h1 h2 : cgrow g1 g2 -> cgrow g2 g3 -> holes g1 g2 h1 -> holes g2 g3 h2 ->
  (forall i, i ∈ hs <-> i ∈ h1 \/ i ∈ h2) -> fits C pool g1 g3 hs -> fits C pool g1 g2 h1 /\ fits C pool g2 g3 h2.
Proof.
  intros G1 G2 H1 H2 Hh F. pose proof (cgrow_len _ _ G1). pose proof (cgrow_len _ _ G2). split.
  - apply (fits_sub _ _ _ _ _ _ _ _ F); try lia.
    + intros i Hi Hb. apply Hh in Hi as [Hi|Hi]; [done|]. apply H2 in Hi. lia.
    + intros i Hb _. by apply cgrow_at; [|lia].
    + intros i Hi. left. apply Hh. by left.
    + apply G2.
  - apply (fits_sub _ _ _ _ _ _ _ _ F); try lia; [|done| |done].
    + intros i Hi Hb. apply Hh in Hi as [Hi|Hi]; [|done]. apply H1 in Hi. lia.
    + intros i Hi. left. apply Hh. by right.
Qed.

(** ** Statements *)
Definition stmt_shape (s : AstNode) (g g' : CodeGen) (n n' : nat) (B K : list nat) : Prop :=
  forall C pool, fits C pool g g' (B ++ K) ->
    code_stmt C pool (objectVars_ g) s (locals_ g) n (len g) (len g') (locals_ g') n' B K.
Definition stmt_shaped (s : AstNode) : Prop := forall inLoop g r g' n,
  supported_stmt inLoop s = true -> emitStatement s g = (Ok r, g') -> good_loops g -> nextLocalSlot_ g = Z.of_nat n ->
  exists n' B K ns, sgrow g g' n n' B K ns /\ stmt_shape s g g' n n' B K.

Definition stmts_shape (ss : list AstNode) (g g' : CodeGen) (n n' : nat) (B K : list nat) : Prop :=
  forall C pool, fits C pool g g' (B ++ K) ->
    code_stmts (code_stmt C pool (objectVars_ g)) ss (locals_ g) n (len g) (len g') (locals_ g') n' B K.
Lemma shaped_stmts ss inLoop : Forall stmt_shaped ss -> forallb (supported_stmt inLoop) ss = true ->
  forall g r g' n, emitStatements emitStatement ss g = (Ok r, g') -> good_loops g -> nextLocalSlot_ g = Z.of_nat n ->
  exists n' B K ns, sgrow g g' n n' B K ns /\ stmts_shape ss g g' n n' B K.
Proof.
  intros Hss. induction Hss as [|s ss Hs Hss IH]; intros Hsup g r g' n H Hl Hn; simpl in Hsup, H.
  - unfold mret in H. injection H as _ <-. exists n, [], [], []. split; [by apply egrow_sgrow; [apply egrow_refl|]|].
    intros C pool F. simpl. done.
  - apply andb_true_iff in Hsup as [Hsup1 Hsup2]. inv_ok.
    destruct (Hs inLoop _ _ _ _ Hsup1 E Hl Hn) as (n1 & B1 & K1 & ns1 & G1 & S1).
    destruct (IH Hsup2 _ _ _ n1 H) as (n2 & B2 & K2 & ns2 & G2 & S2).
    { unfold good_loops. rewrite (sg_loops _ _ _ _ _ _ _ G1). by apply good_add. }
    { apply G1. }
    exists n2, (B1 ++ B2), (K1 ++ K2), (ns1 ++ ns2). split; [by eapply sgrow_trans|]. intros C pool F. simpl.
    destruct (fits_seq C pool g s0 g' ((B1 ++ B2) ++ K1 ++ K2) (B1 ++ K1) (B2 ++ K2)) as [F1 F2];
      [apply G1|apply G2|apply G1|apply G2|intros i; rewrite !elem_of_app; tauto|done|].
    exists (len s0), (locals_ s0), n1, B1, K1, B2, K2. split; [by apply S1|split; [|done]].
    replace (objectVars_ g) with (objectVars_ s0) by apply G1. by apply S2.
Qed.

(** *** Blocks and loops *)
Definition block_shape (ss : list AstNode) (g g' : CodeGen) (n n' : nat) (B K : list nat) : Prop :=
  forall C pool, fits C pool g g' (B ++ K) ->
    code_block (code_stmt C pool (objectVars_ g)) ss (locals_ g) n (len g) (len g') n' B K.

Lemma close_scope g g2 r g' n n' B K ns : sgrow (g <| localScopeStack_ ::= cons [] |>) g2 n n' B K ns ->
  closeScope g2 = (Ok r, g') -> sgrow g g' n n' B K [] /\ out_ g' = out_ g2.
Proof.
  intros [G1 G2 G3 G4 G5 G6 G7 G8 G9] H. unfold closeScope in H. simpl in G5. rewrite G5 in H.
  injection H as _ <-. split; [|done]. split; simpl; try done.
  - split; simpl; apply G1.
  - by rewrite add_names_nil.
Qed.

Lemma shaped_block ss real inLoop : Forall stmt_shaped ss -> forallb (supported_stmt inLoop) ss = true ->
  forall g r g' n, emitBlock (mkBlock ss real) g = (Ok r, g') -> good_loops g -> nextLocalSlot_ g = Z.of_nat n ->
  exists n' B K, sgrow g g' n n' B K [] /\ block_shape ss g g' n n' B K.
Proof.
  intros Hss Hsup g r g' n H Hl Hn. simpl in H. unfold openScope in H. inv_ok.
  set (g1 := g <| localScopeStack_ ::= cons [] |>) in *.
  destruct (shaped_stmts ss inLoop Hss Hsup g1 _ _ n E0 Hl Hn) as (n' & B & K & ns & G & S).
  destruct (close_scope _ _ _ _ _ _ _ _ _ G H) as [G' Ho]. exists n', B, K. split; [done|].
  intros C pool [F1 F2 F3]. unfold len in *. rewrite Ho in *. eexists. apply S. split; done.
Qed.
Lemma shaped_loopBody ss real : Forall stmt_shaped ss -> forallb (supported_stmt true) ss = true ->
  forall g ctx g' n, emitLoopBody emitBlock (mkBlock ss real) g = (Ok ctx, g') -> good_loops g ->
  nextLocalSlot_ g = Z.of_nat n ->
  exists n', sgrow g g' n n' [] [] [] /\ holes g g' (breakJumps ctx ++ continueJumps ctx) /\
    (forall j, j ∈ breakJumps ctx -> j ∈ continueJumps ctx -> False) /\
    block_shape ss g g' n n' (breakJumps ctx) (continueJumps ctx).
Proof.
  intros Hss Hsup g ctx g' n H Hl Hn. unfold emitLoopBody, pushLoop in H. inv_ok.
  set (g1 := g <| loopStack_ ::= cons newLoop |>) in *.
  destruct (shaped_block ss real true Hss Hsup g1 _ _ n E0) as (n' & B & K & G & S); [by constructor|done|].
  unfold popLoop in H. pose proof (sg_loops _ _ _ _ _ _ _ G) as Hlo. simpl in Hlo. rewrite Hlo in H.
  injection H as <- <-. exists n'. destruct G as [G1 G2 G3 G4 G5 G6 G7 G8 G9]. simpl. split; [|split; [|split]].
  - split; simpl; try done.
    + split; simpl; apply G1.
    + by rewrite add_jumps_nil.
    + apply holes_nil.
    + intros j Hj. by apply not_elem_of_nil in Hj.
  - exact G8.
  - exact G9.
  - intros C pool [F1 F2 F3]. apply S. by split.
Qed.

Lemma sgrow_env g g' n n' B K : sgrow g g' n n' B K [] -> locals_ g' = locals_ g.
Proof. intros G. exact (sg_restore _ _ _ _ _ _ _ G). Qed.
Lemma sgrow_cgrow g g' n n' B K ns : sgrow g g' n n' B K ns -> cgrow g g'.
Proof. apply sg_code. Qed.
Lemma good_loops_egrow g g' : egrow g g' -> good_loops g -> good_loops g'.
Proof. intros G. unfold good_loops. by rewrite (eg_loops _ _ G). Qed.
Lemma good_loops_sgrow g g' n n' B K ns : sgrow g g' n n' B K ns -> good_loops g -> good_loops g'.
Proof. intros G. unfold good_loops. rewrite (sg_loops _ _ _ _ _ _ _ G). apply good_add. Qed.
Lemma good_loops_patched idxs t g g' : patched idxs t g g' -> good_loops g -> good_loops g'.
Proof. intros G. unfold good_loops. by rewrite (pa_loops _ _ _ _ G). Qed.
Lemma next_egrow g g' n : egrow g g' -> nextLocalSlot_ g = Z.of_nat n -> nextLocalSlot_ g' = Z.of_nat n.
Proof. intros G <-. apply G. Qed.
Lemma next_patched idxs t g g' n : patched idxs t g g' -> nextLocalSlot_ g = Z.of_nat n -> nextLocalSlot_ g' = Z.of_nat n.
Proof. intros G <-. apply G. Qed.

(** [lens], [chase] and [pools] of CodeShapeFacts.v, with statements. *)
Ltac slens :=
  lens;
  repeat match goal with
  | H : sgrow ?a ?b _ _ _ _ _ |- _ =>
      lazymatch goal with
      | _ : len a <= len b |- _ => fail
      | _ => pose proof (cgrow_len _ _ (sg_code _ _ _ _ _ _ _ H))
      end
  end.
Ltac snotin :=
  repeat intros ?;
  repeat match goal with
  | H : _ ∈ [] |- _ => by apply not_elem_of_nil in H
  | H : _ ∈ [_] |- _ => apply list_elem_of_singleton in H
  | H : _ ∈ _ ++ _ |- _ => apply elem_of_app in H as [H|H]
  | H : ?i ∈ ?B, HA : forall j, j ∈ ?B -> j ∈ ?K -> False, H' : ?i ∈ ?K |- False => exact (HA i H H')
  | H : ?i ∉ ?l ++ ?m, H' : ?i ∈ ?l |- False => apply H, elem_of_app; left; exact H'
  | H : ?i ∉ ?l ++ ?m, H' : ?i ∈ ?m |- False => apply H, elem_of_app; right; exact H'
  | H : ?i ∈ ?B, HB : forall j, j ∈ ?B -> ?lo <= j < ?hi |- _ => apply HB in H
  end; lia.
Ltac schase :=
  repeat match goal with
  | H : egrow ?a ?b |- context [code (out_ ?b) !! ?i] => rewrite (cgrow_at a b i (eg_code _ _ H)) by lia
  | H : sgrow ?a ?b _ _ _ _ _ |- context [code (out_ ?b) !! ?i] => rewrite (cgrow_at a b i (sg_code _ _ _ _ _ _ _ H)) by lia
  | H : patched _ _ ?a ?b |- context [code (out_ ?b) !! ?i] => rewrite (pa_ne _ _ _ _ H i) by snotin
  end.
Ltac swritten :=
  slens; schase;
  first [eassumption
        | match goal with H : patched [?i] _ _ ?b |- code (out_ ?b) !! ?i = _ => eapply (pa_eq _ _ _ _ H i); [by left|] end; swritten].
Ltac spools :=
  first [reflexivity
        | match goal with
          | H : egrow ?a ?b |- prefix _ (stringPool (out_ ?b)) => etrans; [|apply (cg_pool _ _ (eg_code _ _ H))]
          | H : sgrow ?a ?b _ _ _ _ _ |- prefix _ (stringPool (out_ ?b)) => etrans; [|apply (cg_pool _ _ (sg_code _ _ _ _ _ _ _ H))]
          | H : patched _ _ ?a ?b |- prefix _ (stringPool (out_ ?b)) => rewrite (pa_pool _ _ _ _ H)
          end; spools].
(** [sgrow g b] with nothing left open, along a chain of steps. *)
Lemma sgrow_step_e g a b n n' B K ns : sgrow g a n n' B K ns -> egrow a b -> sgrow g b n n' B K ns.
Proof.
  intros G E. pose proof (sgrow_trans _ _ _ _ _ _ _ _ _ _ _ _ G (egrow_sgrow _ _ n' E (sg_next' _ _ _ _ _ _ _ G))) as H.
  by rewrite !app_nil_r in H.
Qed.
Lemma sgrow_step_s g a b n n1 n2 B K ns : sgrow g a n n1 [] [] [] -> sgrow a b n1 n2 B K ns -> sgrow g b n n2 B K ns.
Proof. intros G E. exact (sgrow_trans _ _ _ _ _ _ _ _ _ _ _ _ G E). Qed.

(** Positions and environments of the parts of a statement. *)
Lemma use_expr C pool g ga gb e p q E : shape e ga gb -> fits C pool ga gb [] ->
  objectVars_ ga = objectVars_ g -> locals_ ga = E -> p = len ga -> q = len gb ->
  code_expr C pool (objectVars_ g) E e p q.
Proof. intros H Hf Ho <- -> ->. rewrite <- Ho. by apply H. Qed.
Lemma use_block C pool g ga gb ss n n' B K p q E : block_shape ss ga gb n n' B K -> fits C pool ga gb (B ++ K) ->
  objectVars_ ga = objectVars_ g -> locals_ ga = E -> p = len ga -> q = len gb ->
  code_block (code_stmt C pool (objectVars_ g)) ss E n p q n' B K.
Proof. intros H Hf Ho <- -> ->. rewrite <- Ho. by apply H. Qed.
Lemma holes_split g g' B K : holes g g' (B ++ K) ->
  (forall j, j ∈ B -> len g <= j < len g') /\ (forall j, j ∈ K -> len g <= j < len g') /\
  (forall j, j ∈ B -> exists a, cd g' !! j = Some (mkInstr Jump a 0)) /\
  (forall j, j ∈ K -> exists a, cd g' !! j = Some (mkInstr Jump a 0)).
Proof.
  intros H. split_and!; intros j Hj; destruct (H j) as [? ?]; try done; apply elem_of_app; tauto.
Qed.

(** A jump stays a jump, whatever is patched. *)
Definition keeps (g g' : CodeGen) : Prop := len g <= len g' /\ forall j a, cd g !! j = Some (mkInstr Jump a 0) ->
  exists a', cd g' !! j = Some (mkInstr Jump a' 0).
Lemma keeps_refl g : keeps g g.
Proof. split; [done|]. intros j a H. by exists a. Qed.
Lemma keeps_cgrow g a b : keeps g a -> cgrow a b -> keeps g b.
Proof.
  intros [H0 H] G. pose proof (cgrow_len _ _ G). split; [lia|]. intros j x E. destruct (H j x E) as [y Hy]. exists y.
  rewrite (cgrow_at _ _ _ G); [done|]. by apply lookup_lt_Some in Hy.
Qed.
Lemma keeps_patched idxs t g a b : keeps g a -> patched idxs t a b -> keeps g b.
Proof.
  intros [H0 H] P. split; [rewrite (pa_len _ _ _ _ P); done|]. intros j x E. destruct (H j x E) as [y Hy].
  destruct (decide (j ∈ idxs)) as [Hj|Hj]; [eexists; by eapply (pa_eq _ _ _ _ P)|].
  exists y. by rewrite (pa_ne _ _ _ _ P).
Qed.
Ltac keepers :=
  match goal with
  | |- keeps ?g ?g => apply keeps_refl
  | H : egrow ?a ?b |- keeps ?g ?b => apply (keeps_cgrow g a b); [keepers|exact (eg_code _ _ H)]
  | H : sgrow ?a ?b _ _ _ _ _ |- keeps ?g ?b => apply (keeps_cgrow g a b); [keepers|exact (sg_code _ _ _ _ _ _ _ H)]
  | H : patched _ _ ?a ?b |- keeps ?g ?b => eapply (keeps_patched _ _ g a b); [keepers|exact H]
  end.

(** The body of a loop, and its open jumps once they are patched. *)
Lemma body_fits C pool g g' ga gb hs : fits C pool g g' [] -> len g <= len ga -> keeps gb g' -> holes ga gb hs ->
  (forall i, len ga <= i < len gb -> i ∉ hs -> cd g' !! i = cd gb !! i) -> pl gb `prefix_of` pl g' ->
  fits C pool ga gb hs.
Proof.
  intros F Ha [Hk0 Hk] Hh Hc Hp. apply (fits_sub _ _ _ _ _ _ _ _ F); try done.
  - intros i Hi. by apply not_elem_of_nil in Hi.
  - intros i Hi. right. destruct (Hh i Hi) as [Hb [a E]]. destruct (Hk i a E) as [a' E']. exists a'. split; [lia|done].
Qed.
Lemma patched_jumps C pool g g' ga gb gc t hs js : fits C pool g g' [] -> len g <= len ga -> holes ga gb hs ->
  (forall j, j ∈ js -> j ∈ hs) -> (exists g1, keeps gb g1 /\ patched js t g1 gc) ->
  (forall j, j ∈ js -> cd g' !! j = cd gc !! j) -> jumps_to C js t.
Proof.
  intros F Ha Hh Hjs (g1 & [Hk0 Hk] & Hp) Hc j Hj. destruct (Hh j (Hjs j Hj)) as [Hb [a E]].
  destruct (Hk j a E) as [a' E']. eapply (ins_sub _ _ _ _ _ _ _ _ _ F); [lia|apply not_elem_of_nil| |reflexivity].
  rewrite Hc by done. by eapply (pa_eq _ _ _ _ Hp).
Qed.

Ltac sgrows :=
  match goal with
  | |- sgrow ?g ?g _ _ _ _ _ => apply egrow_sgrow; [apply egrow_refl|assumption]
  | H : egrow ?a ?b |- sgrow ?g ?b _ _ _ _ _ => eapply (sgrow_step_e g a b); [sgrows|exact H]
  | H : sgrow ?a ?b _ _ _ _ _ |- sgrow ?g ?b _ _ _ _ _ => eapply (sgrow_step_s g a b); [sgrows|exact H]
  | H : patched _ _ ?a ?b |- sgrow ?g ?b _ _ _ _ _ => eapply (sgrow_patched _ _ g a b); [sgrows|exact H|snotin]
  end.
Ltac semits :=
  repeat match goal with
  | H : patchAll _ _ _ = _ |- _ => apply patchAll_ok in H
  | H : patchAllToHere _ _ = _ |- _ => apply patchAllHere_ok in H
  | H : codeSize _ = _ |- _ => unfold codeSize, mgets in H; injection H as <- <-
  | _ => progress emits
  end.
(** Part of the fitting program. *)
Ltac spart F :=
  slens; eapply (fits_sub _ _ _ _ _ _ _ _ F);
  [lia|lia
  |snotin
  |let i := fresh "i" in let Hi := fresh "Hi" in let Hn := fresh "Hn" in
   intros i Hi Hn; schase; reflexivity
  |snotin
  |spools].
Ltac code_there F k :=
  slens; match goal with |- ins _ ?pc _ _ => replace pc with k by lia end;
  eapply (ins_sub _ _ _ _ _ _ _ _ _ F); [lia|snotin|swritten|first [reflexivity|f_equal; lia]].
Ltac same_env :=
  repeat match goal with
  | H : egrow ?a ?b |- context [objectVars_ ?b] => rewrite (egrow_objectVars _ _ H)
  | H : sgrow ?a ?b _ _ _ _ _ |- context [objectVars_ ?b] => rewrite (cg_objectVars _ _ (sg_code _ _ _ _ _ _ _ H))
  | H : patched _ _ ?a ?b |- context [objectVars_ ?b] => rewrite (pa_objectVars _ _ _ _ H)
  | H : patched _ _ ?a ?b |- context [locals_ ?b] => rewrite (pa_locals _ _ _ _ H)
  | H : egrow ?a ?b |- context [locals_ ?b] => rewrite (eg_locals _ _ H)
  | H : sgrow ?a ?b _ _ _ _ [] |- context [locals_ ?b] => rewrite (sgrow_env _ _ _ _ _ _ H)
  end; first [reflexivity|assumption|idtac].
Ltac sub_expr F ga gb := apply (use_expr _ _ _ ga gb); [assumption|spart F|same_env|same_env|slens; lia|slens; lia].

Ltac sub_body F ga gb :=
  apply (use_block _ _ _ ga gb); [assumption| |same_env|same_env|slens; lia|slens; lia];
  slens; apply (body_fits _ _ _ _ _ _ _ F);
  [lia|keepers|assumption
  |let i := fresh "i" in let Hi := fresh "Hi" in let Hn := fresh "Hn" in
   intros i Hi Hn; schase; reflexivity
  |spools].
Ltac patched_to F ga gb :=
  slens;
  match goal with
  | H : patched ?js ?t ?g1 ?gc |- jumps_to _ ?js ?t' => replace t' with t by (unfold len in *; lia);
    eapply (patched_jumps _ _ _ _ ga gb gc _ _ _ F)
  end;
  [lia|eassumption
  |let j := fresh "j" in let Hj := fresh "Hj" in intros j Hj; apply elem_of_app; first [left; done|right; done]
  |eexists; split; [|eassumption]; keepers
  |let j := fresh "j" in let Hj := fresh "Hj" in intros j Hj;
   match goal with HB : forall j, j ∈ ?B -> ?lo <= j < ?hi, H : _ ∈ ?B |- _ => pose proof (HB j H) end;
   schase; reflexivity].

Ltac loop_body ss real Hss Hs n H ctx :=
  destruct (shaped_loopBody ss real Hss Hs _ _ _ n H) as (n' & G3 & HH & Hap & S3);
    [repeat (eapply good_loops_egrow; [eassumption|]); assumption
    |repeat (eapply next_egrow; [eassumption|]); assumption|];
  set (B := breakJumps ctx) in *; set (K := continueJumps ctx) in *;
  destruct (holes_split _ _ _ _ HH) as (HB & HK & JB & JK).

Lemma shaped_while c ss real : Forall stmt_shaped ss -> stmt_shaped (WhileStmt c (mkBlock ss real)).
Proof.
  intros Hss inLoop g r g' n Hsup H Hl Hn. simpl in Hsup, H. apply andb_true_iff in Hsup as [Hc Hs].
  unfold emitWhileStmt in H. inv_ok. semits.
  match goal with H : emitExpr _ _ = _ |- _ => destruct (all_shaped c Hc _ _ _ H) as [G1 S1]; clear H end.
  match goal with H : emitLoopBody _ _ ?g1 = (Ok ?ctx, ?g2) |- _ => loop_body ss real Hss Hs n H ctx end.
  assert (sgrow g g' n n' [] [] []) as G by (slens; sgrows).
  exists n', [], [], []. split; [done|]. intros C pool F. split_and!; [|by apply (sgrow_env _ _ _ _ _ _ G)|done|done].
  clear G. exists (len s0), (len s3), B, K.
  split; [sub_expr F g s0|].
  split; [code_there F (len s0)|].
  split; [sub_body F s1 s2|]. split; [code_there F (len s3)|]. split; [slens; lia|].
  split; [patched_to F s1 s2|patched_to F s1 s2].
Qed.
Lemma shaped_dowhile c ss real : Forall stmt_shaped ss -> stmt_shaped (DoWhileStmt c (mkBlock ss real)).
Proof.
  intros Hss inLoop g r g' n Hsup H Hl Hn. simpl in Hsup, H. apply andb_true_iff in Hsup as [Hc Hs].
  unfold emitDoWhileStmt in H. inv_ok. semits.
  match goal with H : emitExpr _ _ = _ |- _ => destruct (all_shaped c Hc _ _ _ H) as [G1 S1]; clear H end.
  match goal with H : emitLoopBody _ _ ?g1 = (Ok ?ctx, ?g2) |- _ => loop_body ss real Hss Hs n H ctx end.
  assert (sgrow g g' n n' [] [] []) as G by (slens; sgrows).
  exists n', [], [], []. split; [done|]. intros C pool F. split_and!; [|by apply (sgrow_env _ _ _ _ _ _ G)|done|done].
  clear G. exists (len s0), (len s3), B, K.
  split; [sub_body F g s0|]. split; [sub_expr F s2 s3|]. split; [code_there F (len s3)|].
  split; [code_there F (len s4)|]. split; [slens; lia|].
  split; [patched_to F g s0|patched_to F g s0].
Qed.

Lemma shaped_exprs ss : forallb (fun s => match s with ExprStmt e => supported_expr e | _ => false end) ss = true ->
  forall g r g', emitStatements emitStatement ss g = (Ok r, g') ->
  egrow g g' /\ forall C pool n, fits C pool g g' [] ->
    code_stmts (code_stmt C pool (objectVars_ g)) ss (locals_ g) n (len g) (len g') (locals_ g) n [] [].
Proof.
  induction ss as [|s ss IH]; intros Hs g r g' H; simpl in Hs, H.
  - unfold mret in H. injection H as _ <-. split; [apply egrow_refl|]. done.
  - apply andb_true_iff in Hs as [Hs1 Hs2]. destruct s; try done. simpl in H. inv_ok. semits.
    match goal with H : emitExpr _ _ = _ |- _ => destruct (all_shaped _ Hs1 _ _ _ H) as [G1 S1]; clear H end.
    match goal with H : emitStatements _ _ _ = _ |- _ => destruct (IH Hs2 _ _ _ H) as [G2 S2]; clear H end.
    split; [grows|]. intros C pool n F. simpl.
    exists (len s0), (locals_ g), n, [], [], [], []. split_and!; try done.
    + exists (len s1). split_and!; try done; [sub_expr F g s1|code_there F (len s1)].
    + specialize (S2 C pool n). rewrite <- (egrow_objectVars g s0), <- (eg_locals g s0) by grows.
      apply S2. spart F.
Qed.
Lemma shaped_pop e : supported_expr e = true -> forall g r g', (emitExpr e ;; emit Pop 0 0) g = (Ok r, g') ->
  egrow g g' /\ forall C pool, fits C pool g g' [] ->
    exists p, code_expr C pool (objectVars_ g) (locals_ g) e (len g) p /\ ins C p Pop 0 /\ len g' = p + 1.
Proof.
  intros He g r g' H. inv_ok. semits.
  match goal with H : emitExpr _ _ = _ |- _ => destruct (all_shaped _ He _ _ _ H) as [G1 S1]; clear H end.
  split; [grows|]. intros C pool F. exists (len s). split_and!; [sub_expr F g s|code_there F (len s)|slens; lia].
Qed.
Lemma shaped_clause clause : supported_clause clause = true ->
  forall g r g' , emitForClause emitExpr emitBlock clause g = (Ok r, g') -> 
  egrow g g' /\ forall C pool n, fits C pool g g' [] ->
    code_clause C pool (objectVars_ g) (code_stmt C pool (objectVars_ g)) clause (locals_ g) n (len g) (len g').
Proof.
  intros Hs g r g' H. destruct clause as [e|]; simpl in Hs, H.
  2: { unfold mret in H. injection H as _ <-. split; [apply egrow_refl|done]. }
  assert (match e with BlockStmt _ => False | _ => True end \/ exists ss real, e = BlockStmt (mkBlock ss real)) as [He|(ss & real & ->)].
  { destruct e; try (left; exact I). right. match goal with b : Block |- _ => destruct b as [ss real] end. by exists ss, real. }
  - destruct (shaped_pop e ltac:(by destruct e) g r g' ltac:(by destruct e)) as [G S].
    split; [done|]. intros C pool n F. simpl. specialize (S C pool F). by destruct e.
  - simpl in H. unfold openScope, mmodify in H. inv_ok. set (g1 := g <| localScopeStack_ ::= cons [] |>) in *.
    destruct (shaped_exprs ss Hs _ _ _ E0) as [G S]. unfold closeScope in H.
    rewrite (eg_scopes _ _ G) in H. simpl in H. injection H as _ <-. split.
    + destruct G as [[G1 G2 G3 G4 G5 G6] G7 G8 G9 G10]. split; [split|..]; done.
    + intros C pool n [F1 F2 F3]. eexists. apply S. by split.
Qed.

(** *** Declarations *)
Lemma declare_ok x type g s g' n : declareLocal x type g = (Ok s, g') -> x <> "" -> nextLocalSlot_ g = Z.of_nat n ->
  s = Z.of_nat n /\ locals_ g !! x = None /\ locals_ g' = <[x := Z.of_nat n]> (locals_ g) /\
  sgrow g g' n (n + 1) [] [] [x] /\ out_ g' = out_ g.
Proof.
  intros H Hx Hn. unfold declareLocal in H. apply String.eqb_neq in Hx. rewrite Hx in H.
  unfold mbind, mgets, mmodify, mret in H. simpl in H.
  destruct (locals_ g !! x) eqn:E; [discriminate|].
  assert (s = Z.of_nat n /\ locals_ g' = <[x := Z.of_nat n]> (locals_ g) /\ cgrow g g' /\ out_ g' = out_ g /\
    nextLocalSlot_ g' = Z.of_nat (n + 1) /\ localScopeStack_ g' = add_names [x] (localScopeStack_ g) /\
    loopStack_ g' = loopStack_ g) as (-> & E1 & E2 & E3 & E4 & E5 & E6).
  { rewrite Hn in H. destruct (classTypeOf type), (localScopeStack_ g) eqn:Es; simpl in H; rewrite ?Es in H; injection H as <- <-;
      (split_and!; simpl; rewrite ?Es; try done; [split; simpl; try done; by destruct (out_ g)|lia]). }
  split_and!; try done.
  split; try done; [lia| | | |].
  - unfold forget. simpl. by rewrite E1, delete_insert_id.
  - by rewrite E6, add_jumps_nil.
  - apply holes_nil.
  - intros j Hj. by apply not_elem_of_nil in Hj.
Qed.
Lemma shaped_decl x type value inLoop : x <> "" -> supported_decl inLoop value = true ->
  forall g r g' n, emitVarDeclStmt emitExpr type x value g = (Ok r, g') -> nextLocalSlot_ g = Z.of_nat n ->
  sgrow g g' n (n + 1) [] [] [x] /\ forall C pool, fits C pool g g' [] ->
    code_vardecl C pool (objectVars_ g) x value (locals_ g) n (len g) (len g') (locals_ g') (n + 1).
Proof.
  intros Hx Hv g r g' n H Hn. unfold emitVarDeclStmt in H. inv_ok.
  apply (declare_ok x type g a s n) in E as (-> & Hno & Hl & G & Ho); [|done|done].
  assert (len s = len g) as Hlen by (unfold len; by rewrite Ho).
  destruct value as [e|]; simpl in Hv; inv_ok.
  - semits. match goal with H : emitExpr _ _ = _ |- _ => destruct (all_shaped _ Hv _ _ _ H) as [G1 S1]; clear H end.
    split; [slens; sgrows|]. intros C pool F. unfold code_vardecl.
    assert (locals_ g' = <[x := Z.of_nat n]> (locals_ g)) as -> by (same_env; done).
    split_and!; try done. exists (len s0). split_and!; [sub_expr F s s0|code_there F (len s0)|slens; lia].
  - split; [done|]. intros C pool F. unfold code_vardecl. split_and!; done.
Qed.

(** *** The other statements *)
Lemma shaped_init init inLoop : supported_init inLoop init = true ->
  forall g r g' n, emitForInit emitExpr emitBlock init g = (Ok r, g') -> nextLocalSlot_ g = Z.of_nat n ->
  exists n' ns, sgrow g g' n n' [] [] ns /\ forall C pool, fits C pool g g' [] ->
    code_init C pool (objectVars_ g) (code_stmt C pool (objectVars_ g)) init (locals_ g) n (len g) (len g') (locals_ g') n'.
Proof.
  intros Hs g r g' n H Hn.
  assert ((exists type c x v, init = Some (VarDeclStmt type c x v)) \/
    match init with Some (VarDeclStmt _ _ _ _) => False | _ => True end) as [(ty & c & x & v & ->)|Hi].
  { destruct init as [e|]; [|by right]. destruct e; try (right; exact I). left. repeat eexists. }
  - simpl in Hs, H. apply andb_true_iff in Hs as [Hx Hv]. apply negb_true_iff, String.eqb_neq in Hx.
    destruct (shaped_decl x ty v inLoop Hx Hv _ _ _ _ H Hn) as [G S]. by exists (n + 1), [x].
  - assert (supported_clause init = true) as Hs' by (destruct init as [e|]; [by destruct e|done]).
    destruct (shaped_clause init Hs' g r g') as [G S]; [destruct init as [e|]; [by destruct e|done]|].
    exists n, []. split; [by apply egrow_sgrow|]. intros C pool F. specialize (S C pool n F).
    assert (code_clause C pool (objectVars_ g) (code_stmt C pool (objectVars_ g)) init (locals_ g) n (len g) (len g')
      /\ locals_ g' = locals_ g /\ n = n) as Hc by (split; [done|split; [apply G|done]]).
    destruct init as [e|]; [by destruct e|done].
Qed.
Lemma use_clause C pool g ga gb u n p q E :
  (forall C pool n, fits C pool ga gb [] ->
    code_clause C pool (objectVars_ ga) (code_stmt C pool (objectVars_ ga)) u (locals_ ga) n (len ga) (len gb)) ->
  fits C pool ga gb [] -> objectVars_ ga = objectVars_ g -> locals_ ga = E -> p = len ga -> q = len gb ->
  code_clause C pool (objectVars_ g) (code_stmt C pool (objectVars_ g)) u E n p q.
Proof. intros H Hf Ho <- -> ->. rewrite <- Ho. by apply H. Qed.
Ltac sub_clause SU F ga gb := apply (use_clause _ _ _ ga gb); [exact SU|spart F|same_env|same_env|slens; lia|slens; lia].
Lemma shaped_for_loop c u ss real : Forall stmt_shaped ss -> supported_opt c = true -> supported_clause u = true ->
  forallb (supported_stmt true) ss = true -> forall g r g' n,
  (loopTop <- codeSize ;; jumpIfFalseIdx <- emitForCondition emitExpr c ;; ctx <- emitLoopBody emitBlock (mkBlock ss real) ;;
   continueTarget <- codeSize ;; patchAll (continueJumps ctx) continueTarget ;; emitForClause emitExpr emitBlock u ;;
   emit Jump (int_of loopTop) 0 ;; match jumpIfFalseIdx with Some idx => patchJumpToHere idx | None => mret tt end ;;
   patchAllToHere (breakJumps ctx)) g = (Ok r, g') -> good_loops g -> nextLocalSlot_ g = Z.of_nat n ->
  exists n', sgrow g g' n n' [] [] [] /\ forall C pool, fits C pool g g' [] ->
    code_for C pool (objectVars_ g) (code_stmt C pool (objectVars_ g)) c u ss (locals_ g) n (len g) (len g') n'.
Proof.
  intros Hss Hc Hu Hs g r g' n H Hl Hn. inv_ok.
  destruct c as [c|]; simpl in Hc; unfold emitForCondition in *; inv_ok; semits.
  all: match goal with H : emitForClause _ _ _ _ = _ |- _ => destruct (shaped_clause u Hu _ _ _ H) as [GU SU]; clear H end.
  - match goal with H : emitExpr _ _ = _ |- _ => destruct (all_shaped c Hc _ _ _ H) as [G1 S1]; clear H end.
    match goal with H : emitLoopBody _ _ ?g1 = (Ok ?ctx, ?g2) |- _ => loop_body ss real Hss Hs n H ctx end.
    exists n'. split; [slens; sgrows|]. intros C pool F. exists (len s0), (len s1), (len s4), B, K.
    split; [exists (len s7); split_and!; [sub_expr F g s7|code_there F (len s7)|slens; lia]|].
    split; [sub_body F s0 s1|]. split; [sub_clause SU F s3 s4|]. split; [code_there F (len s4)|].
    split; [slens; lia|]. split; [patched_to F s0 s1|patched_to F s0 s1].
  - match goal with H : emitLoopBody _ _ ?g1 = (Ok ?ctx, ?g2) |- _ => loop_body ss real Hss Hs n H ctx end.
    exists n'. split; [slens; sgrows|]. intros C pool F. exists (len g), (len s1), (len s4), B, K.
    split; [done|]. split; [sub_body F g s1|]. split; [sub_clause SU F s3 s4|]. split; [code_there F (len s4)|].
    split; [slens; lia|]. split; [patched_to F g s1|patched_to F g s1].
Qed.
Lemma shaped_for init c u ss real : Forall stmt_shaped ss -> stmt_shaped (ForStmt init c u (mkBlock ss real)).
Proof.
  intros Hss inLoop g r g' n Hsup H Hl Hn. simpl in Hsup, H. rewrite !andb_true_iff in Hsup.
  destruct Hsup as [[[Hi Hc] Hu] Hs]. unfold emitForStmt, openScope, mmodify in H. inv_ok.
  set (g1 := g <| localScopeStack_ ::= cons [] |>) in *.
  destruct (shaped_init init inLoop Hi g1 _ _ n E0 Hn) as (n1 & ns & G1 & S1).
  match goal with H : closeScope ?s = _ |- _ => 
    assert (exists r, (loopTop <- codeSize ;; jumpIfFalseIdx <- emitForCondition emitExpr c ;; ctx <- emitLoopBody emitBlock (mkBlock ss real) ;;
   continueTarget <- codeSize ;; patchAll (continueJumps ctx) continueTarget ;; emitForClause emitExpr emitBlock u ;;
   emit Jump (int_of loopTop) 0 ;; match jumpIfFalseIdx with Some idx => patchJumpToHere idx | None => mret tt end ;;
   patchAllToHere (breakJumps ctx)) s0 = (Ok r, s)) as [r2 HL]
  end.
  { eexists. unfold mbind. repeat match goal with E : ?m ?s = (Ok _, _) |- context [?m ?s] => rewrite E end. reflexivity. }
  destruct (shaped_for_loop c u ss real Hss Hc Hu Hs _ _ _ n1 HL) as (n' & G2 & S2).
  { by eapply good_loops_sgrow. }
  { apply G1. }
  pose proof (sgrow_trans _ _ _ _ _ _ _ _ _ _ _ _ G1 G2) as G.
  simpl in G. rewrite app_nil_r in G. destruct (close_scope _ _ _ _ _ _ _ _ _ G H) as [G' Ho].
  exists n', [], [], []. split; [done|]. intros C pool F. pose proof (sgrow_env _ _ _ _ _ _ G') as HE.
  destruct F as [F1 F2 F3]. unfold len in F1. rewrite Ho in *. simpl.
  destruct (fits_seq C pool g1 s0 s9 [] [] []) as [Fa Fb].
  { apply G1. } { apply G2. } { apply holes_nil. } { apply holes_nil. } { set_solver. } { by split. }
  exists (len s0), (locals_ s0), n1. split; [exact (S1 C pool Fa)|]. unfold len at 2. rewrite Ho.
  split; [|done]. specialize (S2 C pool Fb). 
  assert (objectVars_ s0 = objectVars_ g) as <- by apply G1. exact S2.
Qed.
(** Parts with holes of a part with holes. *)
Ltac holed :=
  repeat intros ?;
  repeat match goal with H : _ ∈ _ ++ _ |- _ => apply elem_of_app in H as [H|H] end;
  repeat match goal with
  | H : ?i ∈ ?B, HB : forall j, j ∈ ?B -> ?lo <= j < ?hi |- _ =>
      lazymatch goal with _ : lo <= i |- _ => fail | _ => pose proof (proj1 (HB i H)); pose proof (proj2 (HB i H)) end
  end;
  try (left); rewrite ?elem_of_app; first [tauto|lia].
Ltac sub_block F ga gb :=
  apply (use_block _ _ _ ga gb); [assumption| |same_env|same_env|slens; lia|slens; lia];
  slens; apply (fits_sub _ _ _ _ _ _ _ _ F);
  [lia|lia|holed
  |let i := fresh "i" in let Hi := fresh "Hi" in let Hn := fresh "Hn" in
   intros i Hi Hn; schase; reflexivity
  |holed|spools].

Lemma shaped_if_then c ss real : Forall stmt_shaped ss -> stmt_shaped (IfStmt c (mkBlock ss real) None).
Proof.
  intros Hss inLoop g r g' n Hsup H Hl Hn. simpl in Hsup, H. rewrite !andb_true_iff in Hsup. destruct Hsup as [[Hc Hs] _].
  unfold emitIfStmt in H. inv_ok. semits.
  match goal with H : emitExpr _ _ = _ |- _ => destruct (all_shaped c Hc _ _ _ H) as [G1 S1]; clear H end.
  match goal with H : emitBlock _ _ = _ |- _ => 
    destruct (shaped_block ss real inLoop Hss Hs _ _ _ n H) as (n' & B & K & G2 & S2);
    [repeat (eapply good_loops_egrow; [eassumption|]); assumption
    |repeat (eapply next_egrow; [eassumption|]); assumption|] end.
  destruct (holes_split _ _ _ _ (sg_holes _ _ _ _ _ _ _ G2)) as (HB & HK & JB & JK).
  assert (sgrow g g' n n' B K []) as G by (slens; sgrows).
  exists n', B, K, []. split; [done|]. intros C pool F. split; [|by apply (sgrow_env _ _ _ _ _ _ G)]. clear G.
  exists (len s), (len s1), n', B, K. split; [sub_expr F g s|]. split; [sub_block F s0 s1|].
  split_and!; [code_there F (len s)|slens; lia|done|done|done].
Qed.
Lemma shaped_if_else c ss real fs freal : Forall stmt_shaped ss -> Forall stmt_shaped fs ->
  stmt_shaped (IfStmt c (mkBlock ss real) (Some (mkBlock fs freal))).
Proof.
  intros Hss Hfs inLoop g r g' n Hsup H Hl Hn. simpl in Hsup, H. rewrite !andb_true_iff in Hsup.
  destruct Hsup as [[Hc Hs] Hf]. unfold emitIfStmt in H. inv_ok. semits.
  match goal with H : emitExpr _ _ = _ |- _ => destruct (all_shaped c Hc _ _ _ H) as [G1 S1]; clear H end.
  match goal with H : emitBlock (mkBlock ss real) _ = _ |- _ => 
    destruct (shaped_block ss real inLoop Hss Hs _ _ _ n H) as (n1 & B1 & K1 & G2 & S2);
    [repeat (eapply good_loops_egrow; [eassumption|]); assumption
    |repeat (eapply next_egrow; [eassumption|]); assumption|] end.
  assert (sgrow g s3 n n1 B1 K1 []) as Ga by (slens; sgrows).
  match goal with H : emitBlock (mkBlock fs freal) _ = _ |- _ => 
    destruct (shaped_block fs freal inLoop Hfs Hf _ _ _ n1 H) as (n2 & B2 & K2 & G3 & S3);
    [by eapply good_loops_sgrow|apply Ga|] end.
  destruct (holes_split _ _ _ _ (sg_holes _ _ _ _ _ _ _ G2)) as (HB1 & HK1 & JB1 & JK1).
  destruct (holes_split _ _ _ _ (sg_holes _ _ _ _ _ _ _ G3)) as (HB2 & HK2 & JB2 & JK2).
  assert (sgrow g g' n n2 (B1 ++ B2) (K1 ++ K2) []) as G.
  { eapply sgrow_patched; [exact (sgrow_trans _ _ _ _ _ _ _ _ _ _ _ _ Ga G3)|eassumption|slens; snotin]. }
  clear Ga. exists n2, (B1 ++ B2), (K1 ++ K2), []. split; [done|]. intros C pool F.
  split; [|by apply (sgrow_env _ _ _ _ _ _ G)]. clear G.
  exists (len s), (len s1), n1, B1, K1. split; [sub_expr F g s|]. split; [sub_block F s0 s1|].
  exists B2, K2. split_and!; [code_there F (len s)|code_there F (len s1)|sub_block F s3 s4|done|done].
Qed.
Ltac plain_step :=
  match goal with |- exists n' B K ns, sgrow ?g ?g' ?n _ _ _ _ /\ _ => exists n, [], [], [] end;
  split; [slens; sgrows|]; intros C pool F.
Ltac rest_of := try done; try (slens; lia); try (by same_env).
Lemma shaped_expr_stmt e : stmt_shaped (ExprStmt e).
Proof.
  intros inLoop g r g' n Hs H Hl Hn. destruct (shaped_pop e Hs _ _ _ H) as [G S].
  plain_step. destruct (S C pool F) as (p & ?). exists p. split_and!; try tauto. apply G.
Qed.
Lemma shaped_assign_stmt x e : stmt_shaped (AssignStmt x e).
Proof.
  intros inLoop g r g' n Hs H Hl Hn. simpl in Hs, H. unfold emitAssignStmt in H. inv_ok. semits.
  match goal with H : emitExpr _ _ = _ |- _ => destruct (all_shaped _ Hs _ _ _ H) as [G1 S1]; clear H end.
  plain_step. exists a, (len s0). split_and!; rest_of; [sub_expr F g s0|code_there F (len s0)].
Qed.
Lemma shaped_return e : stmt_shaped (ReturnStmt e).
Proof.
  intros inLoop g r g' n Hs H Hl Hn. simpl in Hs, H. unfold emitReturnStmt, emitOpt in H.
  destruct e as [e|]; simpl in Hs; inv_ok; semits.
  - match goal with H : emitExpr _ _ = _ |- _ => destruct (all_shaped _ Hs _ _ _ H) as [G1 S1]; clear H end.
    plain_step. exists (len s). split_and!; rest_of; [sub_expr F g s|code_there F (len s)].
  - plain_step. exists (len s). split_and!; rest_of; code_there F (len s).
Qed.
Lemma shaped_vardecl type c x value : stmt_shaped (VarDeclStmt type c x value).
Proof.
  intros inLoop g r g' n Hs H Hl Hn. simpl in Hs, H. apply andb_true_iff in Hs as [Hx Hv].
  apply negb_true_iff, String.eqb_neq in Hx. destruct (shaped_decl x type value inLoop Hx Hv _ _ _ _ H Hn) as [G S].
  exists (n + 1), [], [], [x]. split; [done|]. intros C pool F. split; [|done]. by apply S.
Qed.
Lemma shaped_block_stmt ss real : Forall stmt_shaped ss -> stmt_shaped (BlockStmt (mkBlock ss real)).
Proof.
  intros Hss inLoop g r g' n Hs H Hl Hn. destruct real.
  - destruct (shaped_block ss true inLoop Hss Hs _ _ _ n H Hl Hn) as (n' & B & K & G & S).
    exists n', B, K, []. split; [done|]. intros C pool F. split; [by apply S|by apply (sgrow_env _ _ _ _ _ _ G)].
  - exact (shaped_stmts ss inLoop Hss Hs _ _ _ n H Hl Hn).
Qed.
Lemma jump_sgrow g g1 g' n B K top rest : egrow g g1 -> nextLocalSlot_ g = Z.of_nat n -> loopStack_ g = top :: rest ->
  g' = g1 <| loopStack_ := add_jumps B K (loopStack_ g) |> -> holes g g1 (B ++ K) -> (forall j, j ∈ B -> j ∈ K -> False) ->
  sgrow g g' n n B K [].
Proof.
  intros [[H1 H2 H3 H4 H5 H6] H7 H8 H9 H10] Hn Hl -> Hh Ha. split; simpl; try done; try congruence.
  - by rewrite add_names_nil.
Qed.
Lemma shaped_break : stmt_shaped BreakStmt.
Proof.
  intros inLoop g r g' n Hs H Hl Hn. simpl in H. unfold emitBreakStmt, mgets, mmodify in H.
  unfold mbind in H at 1. simpl in H. destruct (loopStack_ g) as [|top rest] eqn:El; [done|].
  apply mbind_ok in H as (idx & g1 & E & H). apply placeholder_grow in E as (-> & G & Hlen & Hat). injection H as _ <-.
  exists n, [len g], [], []. split.
  - apply (jump_sgrow g g1 _ n [len g] [] top rest); try done; [by rewrite El; simpl; rewrite app_nil_r| |].
    + intros j Hj. apply list_elem_of_singleton in Hj as ->. split; [lia|by eexists].
    + intros j _ Hj. by apply not_elem_of_nil in Hj.
  - intros C pool [_ F _]. split_and!; try done; [apply F; by left|apply G].
Qed.
Lemma shaped_continue : stmt_shaped ContinueStmt.
Proof.
  intros inLoop g r g' n Hs H Hl Hn. simpl in H. unfold emitContinueStmt, codeSize, mgets, mmodify in H.
  unfold mbind in H at 1 2. simpl in H. unfold good_loops in Hl.
  destruct (loopStack_ g) as [|top rest] eqn:El; [done|]. inversion Hl as [|? ? Htop Hrest]; subst.
  simpl in H. rewrite Htop in H.
  apply mbind_ok in H as (idx & g1 & E & H). apply placeholder_grow in E as (-> & G & Hlen & Hat). injection H as _ <-.
  exists n, [], [len g], []. split.
  - apply (jump_sgrow g g1 _ n [] [len g] top rest); try done; [by rewrite El; simpl; rewrite app_nil_r| |].
    + intros j Hj. apply list_elem_of_singleton in Hj as ->. split; [lia|by eexists].
    + intros j Hj. by apply not_elem_of_nil in Hj.
  - intros C pool [_ F _]. split_and!; try done; [apply F; by left|apply G].
Qed.

Lemma all_stmt_shaped : forall s, stmt_shaped s.
Proof.
  fix IH 1. intros s.
  assert (forall ss, Forall stmt_shaped ss) as IHs by (fix IHs 1; intros [|x ss]; constructor; [apply IH|apply IHs]).
  destruct s; try (intros ? ? ? ? ? Hs; discriminate Hs);
    repeat match goal with b : Block |- _ => destruct b | o : option Block |- _ => destruct o end.
  - apply shaped_expr_stmt.
  - apply shaped_return.
  - apply shaped_vardecl.
  - apply shaped_assign_stmt.
  - apply shaped_block_stmt, IHs.
  - apply shaped_if_else; apply IHs.
  - apply shaped_if_then, IHs.
  - apply shaped_while, IHs.
  - apply shaped_dowhile, IHs.
  - apply shaped_for, IHs.
  - apply shaped_break.
  - apply shaped_continue.
Qed.

(** ** Functions *)
Lemma params_ok ps : forall g r g' n, declareParams ps g = (Ok r, g') -> nextLocalSlot_ g = Z.of_nat n ->
  localScopeStack_ g = [] ->
  locals_ g' = param_env ps n ∪ locals_ g /\ (forall y, is_Some (locals_ g !! y) -> param_env ps n !! y = None) /\
  nextLocalSlot_ g' = Z.of_nat (n + length ps) /\ out_ g' = out_ g /\ cgrow g g' /\
  localScopeStack_ g' = [] /\ loopStack_ g' = loopStack_ g.
Proof.
  induction ps as [|p ps IH]; intros g r g' n H Hn Hs; unfold declareParams in H; simpl in H.
  - unfold mret in H. injection H as _ <-. rewrite Nat.add_0_r. split_and!; try done; [|apply cgrow_refl].
    symmetry. apply map_empty_union.
  - inv_ok. match goal with H : declareLocal _ _ _ = (Ok ?a, ?s) |- _ => rename H into E, s into s1 end.
    match goal with H : forEach ps _ s1 = _ |- _ => rename H into HR end. simpl.
    destruct (String.eqb_spec (pname p) "") as [Hp|Hp].
    + unfold declareLocal in E. rewrite Hp in E. simpl in E. unfold mbind, mgets, mmodify, mret in E. injection E as _ <-.
      destruct (IH _ _ _ (S n) HR) as (H1 & H2 & H3 & H4 & H5 & H6 & H7); [simpl; lia|done|].
      simpl in *. split_and!; try done; [rewrite H3; f_equal; lia|].
      destruct H5 as [K1 K2 K3 K4 K5 K6]. split; done.
    + apply declare_ok with (n := n) in E as (_ & Hno & Hl & G & Ho); [|done|done].
      destruct (IH _ _ _ (S n) HR) as (H1 & H2 & H3 & H4 & H5 & H6 & H7).
      { rewrite (sg_next' _ _ _ _ _ _ _ G). f_equal. lia. }
      { rewrite (sg_scopes _ _ _ _ _ _ _ G), Hs. done. }
      assert (forall y, is_Some (locals_ g !! y) -> <[pname p := Z.of_nat n]> (param_env ps (S n)) !! y = None) as Hd.
      { intros y [z Hy]. assert (y <> pname p) as Hyp by (intros ->; congruence).
        rewrite lookup_insert_ne by done. apply H2. exists z. rewrite Hl, lookup_insert_ne; done. }
      split_and!; try done; [|rewrite H3; f_equal; lia|congruence|eapply cgrow_trans; [apply G|done]|].
      * rewrite H1, Hl. rewrite <- insert_union_l. symmetry. apply insert_union_r.
        apply H2. exists (Z.of_nat n). rewrite Hl. apply lookup_insert_eq.
      * rewrite H7, (sg_loops _ _ _ _ _ _ _ G). apply add_jumps_nil.
Qed.
(** What a function leaves of the program before it. *)
Record pgrow (g g' : CodeGen) : Prop := {
  gw_code : cd g `prefix_of` cd g';
  gw_pool : pl g `prefix_of` pl g';
  gw_names : objectVarNames (out_ g') = objectVarNames (out_ g);
  gw_parents : inheritedPrograms (out_ g') = inheritedPrograms (out_ g);
  gw_objectVars : objectVars_ g' = objectVars_ g;
  gw_pending : hasPending g' = hasPending g
}.
Lemma pgrow_refl g : pgrow g g.
Proof. by split. Qed.
Lemma pgrow_trans g1 g2 g3 : pgrow g1 g2 -> pgrow g2 g3 -> pgrow g1 g3.
Proof. intros [] []. split; try congruence; by etrans. Qed.
Lemma cgrow_pgrow g g' : cgrow g g' -> pgrow g g'.
Proof.
  intros [H1 H2 H3 H4 H5 H6]. split; try done; [by rewrite H1|by rewrite H1|]. unfold hasPending. by rewrite H5, H6.
Qed.
(** A later program. *)
Record later (C : list Instruction) (pool : list string) (g : CodeGen) : Prop := {
  lt_code : cd g `prefix_of` C;
  lt_pool : pl g `prefix_of` pool
}.
Lemma later_fits C pool g g' : later C pool g' -> fits C pool g g' [].
Proof.
  intros [[k ->] H]. split.
  - intros i Hi _. apply lookup_app_l. unfold len in Hi. lia.
  - intros i Hi. by apply not_elem_of_nil in Hi.
  - intros i s Hs. by eapply prefix_lookup_Some.
Qed.

Lemma forall_shaped ss : Forall stmt_shaped ss.
Proof. apply Forall_forall. intros s _. apply all_stmt_shaped. Qed.
Lemma cgrow_functions g g' : cgrow g g' -> functions (out_ g') = functions (out_ g).
Proof. intros H. by rewrite (cg_out _ _ H). Qed.
Lemma drain_none fuel g r g' : hasPending g = false -> drainPending fuel g = (Ok r, g') -> g' = g.
Proof.
  intros Hp H. destruct fuel; [done|]. simpl in H. unfold mbind, mgets, mret in H. rewrite Hp in H. by injection H.
Qed.
Lemma uint32_small n : (Z.of_nat n < 2 ^ 32)%Z -> uint32_of n = n.
Proof. intros H. unfold uint32_of. rewrite Z.mod_small by lia. lia. Qed.

Lemma function_ok fuel fd body g r g' : fd_body fd = Some body -> supported_function fd = true -> hasPending g = false ->
  emitFunctionDecl fuel fd g = (Ok r, g') ->
  pgrow g g' /\ exists fn, functions (out_ g') = functions (out_ g) ++ [fn] /\
    forall C pool, later C pool g' -> (Z.of_nat (length C) < 2 ^ 32)%Z -> code_function C pool (objectVars_ g) fd body fn.
Proof.
  intros Hb Hs Hp H. unfold emitFunctionDecl in H. rewrite Hb in H. unfold supported_function in Hs. rewrite Hb in Hs.
  destruct body as [ss real]. apply andb_true_iff in Hs as [Hv Hs]. apply negb_true_iff in Hv.
  unfold resetFunction, emitFunction, codeSize, mgets, mmodify in H. inv_ok.
  set (g0 := g <| locals_ := ∅ |> <| nextLocalSlot_ := 0%Z |> <| localScopeStack_ := [] |> <| loopStack_ := [] |>
    <| foreachCounter_ := 0%Z |> <| switchCounter_ := 0%Z |> <| indexAssignCounter_ := 0%Z |>) in *.
  apply params_ok with (n := 0) in E0 as (P1 & P2 & P3 & P4 & P5 & P6 & P7); [|done|done].
  destruct (shaped_block ss real false (forall_shaped ss) Hs _ _ _
    (0 + length (fd_params fd)) E3) as (n' & B & K & G & S); [unfold good_loops; by rewrite P7|exact P3|].
  apply emit_grow in E4 as (G4 & L4 & W4). unfold modOut, mmodify in E1. injection E1 as _ <-.
  pose proof (cgrow_trans _ _ _ P5 (cgrow_trans _ _ _ (sg_code _ _ _ _ _ _ _ G) (eg_code _ _ G4))) as G5.
  pose proof (cgrow_pgrow _ _ G5) as PG.
  apply drain_none in H as ->; [|exact (eq_trans (gw_pending _ _ PG) Hp)].
  split; [destruct PG; by split|]. eexists. split; [simpl; by rewrite (cgrow_functions _ _ G5)|].
  intros C pool Hlater HC. simpl in Hlater.
  assert (later C pool s5) as Hl5 by (destruct Hlater; by split).
  assert (fits C pool s2 s3 (B ++ K)) as F.
  { apply (fits_sub C pool s2 s5 []); [by apply later_fits|done|pose proof (cgrow_len _ _ (eg_code _ _ G4)); lia| | | |].
    - intros i Hi. by apply not_elem_of_nil in Hi.
    - intros i Hi _. apply (cgrow_at _ _ _ (eg_code _ _ G4)). lia.
    - intros i Hi. right. destruct (sg_holes _ _ _ _ _ _ _ G i Hi) as [Hb' [a Ea]]. exists a.
      rewrite (cgrow_at _ _ _ (eg_code _ _ G4)) by lia. split; [lia|done].
    - apply (eg_code _ _ G4). }
  specialize (S C pool F). destruct (slots_block C pool _ ss (forall_slots C pool _ ss)
    _ _ _ _ _ _ _ S) as [-> Hjs]. destruct (Hjs Hs) as [-> ->].
  exists (len s3), (0 + length (fd_params fd) + sum_list (map decls ss)). simpl.
  pose proof (prefix_length _ _ (lt_code _ _ _ Hl5)) as Hlen. pose proof (cgrow_len _ _ (sg_code _ _ _ _ _ _ _ G)).
  rewrite uint32_small by (unfold len in *; lia).
  assert (objectVars_ s2 = objectVars_ g) as Ho by apply P5. change (locals_ g0) with (∅ : env) in P1. rewrite Ho, P1, map_union_empty in S.
  split_and!; [exact S| |done|done| |done|done].
  - unfold ins. destruct Hl5 as [[k ->] _]. rewrite lookup_app_l by (unfold len in *; lia). exact W4.
  - rewrite (eg_next _ _ G4), (sg_next' _ _ _ _ _ _ _ G). done.
Qed.

(** ** Programs *)
Lemma functions_ok fuel fds : forallb supported_function fds = true -> forall g r g', hasPending g = false ->
  forEach fds (emitFunctionDecl fuel) g = (Ok r, g') ->
  pgrow g g' /\ exists fns, functions (out_ g') = functions (out_ g) ++ fns /\
    forall C pool, later C pool g' -> (Z.of_nat (length C) < 2 ^ 32)%Z -> code_functions C pool (objectVars_ g) fds fns.
Proof.
  induction fds as [|fd fds IH]; intros Hs g r g' Hp H; simpl in Hs, H.
  - unfold mret in H. injection H as _ <-. split; [apply pgrow_refl|]. exists []. by rewrite app_nil_r.
  - apply andb_true_iff in Hs as [Hs1 Hs2]. apply mbind_ok in H as (u & g1 & E & H). simpl.
    destruct (fd_body fd) as [body|] eqn:Hb.
    2: { unfold emitFunctionDecl in E. rewrite Hb in E. injection E as _ <-. by apply (IH Hs2 g r g'). }
    destruct (function_ok fuel fd body g u g1 Hb Hs1 Hp E) as [PG (fn & F1 & S1)].
    destruct (IH Hs2 g1 r g') as [PG2 (fns & F2 & S2)]; [by rewrite (gw_pending _ _ PG)|done|].
    split; [by eapply pgrow_trans|]. exists (fn :: fns). split; [by rewrite F2, F1, <- app_assoc|].
    intros C pool Hl HC. exists fn, fns. split; [done|]. split.
    + apply S1; [|done]. destruct Hl as [L1 L2]. split; [etrans; [apply PG2|done]|etrans; [apply PG2|done]].
    + rewrite <- (gw_objectVars _ _ PG). by apply S2.
Qed.
Lemma declare_vars_ok vs : forallb (fun v => negb (is_some (ov_initializer v))) vs = true ->
  forall n g r g', declareObjectVars (Z.of_nat n) vs g = (Ok r, g') ->
  r = [] /\ objectVars_ g' = object_env vs n (objectVars_ g) /\ hasPending g' = hasPending g /\
  code (out_ g') = code (out_ g) /\ functions (out_ g') = functions (out_ g) /\
  inheritedPrograms (out_ g') = inheritedPrograms (out_ g) /\
  length (objectVarNames (out_ g')) = length (objectVarNames (out_ g)) + length vs.
Proof.
  induction vs as [|v vs IH]; intros Hv n g r g' H; simpl in Hv, H.
  - unfold mret in H. injection H as <- <-. simpl. split_and!; try done; lia.
  - apply andb_true_iff in Hv as [Hv1 Hv2]. apply negb_true_iff in Hv1. destruct (ov_initializer v) eqn:Ei; [done|]. 
    apply mbind_ok in H as (u & g1 & E & H). apply mbind_ok in H as (rest & g2 & E2 & H).
    unfold mret in H. injection H as <- <-. replace (Z.of_nat n + 1)%Z with (Z.of_nat (S n)) in E2 by lia.
    destruct (IH Hv2 _ _ _ _ E2) as (-> & -> & -> & -> & -> & -> & ->).
    unfold declareObjectVar, modOut, mmodify in E. destruct (classTypeOf (ov_type v)); inv_ok; simpl;
      (split_and!; try done; rewrite length_app; simpl; lia).
Qed.
(** Whatever [compile] returns has the code of its functions. *)
Lemma compile_shape fuel p prg : supported_program p = true -> compile fuel p [] = Ok prg ->
  (Z.of_nat (length (code prg)) < 2 ^ 32)%Z -> code_program p prg.
Proof.
  intros Hs H HC. unfold supported_program in Hs. rewrite !andb_true_iff in Hs. destruct Hs as [[Hi Hv] Hf].
  unfold compile in H. destruct (generate fuel p [] newCodeGen) as [o g'] eqn:E. simpl in H. subst o.
  unfold generate, modOut, mmodify, mgets in E. inv_ok.
  apply (declare_vars_ok _ Hv 0) in E1 as (-> & V1 & V2 & V3 & V4 & V5 & V6). simpl in E3.
  unfold mret in E3. injection E3 as _ <-.
  match type of E4 with _ ?s = _ => set (g1 := s) in *; assert (hasPending g1 = false) as V7 by exact V2 end.
  destruct (functions_ok fuel _ Hf _ _ _ V7 E4) as [PG (fns & F & S)].
  change (functions (out_ g') = functions (out_ s0) ++ fns) in F. rewrite V4 in F. simpl in F.
  split_and!.
  - rewrite F. change (inheritedSlots []) with (∅ : env) in V1. simpl in V1. rewrite <- V1.
    apply S; [by split|done].
  - etrans; [apply PG|]. exact V5.
  - transitivity (length (objectVarNames (out_ s0))); [f_equal; apply PG|exact V6].
Qed.
