(* ===== verification/Simulation.v ===== *)
(** * Simulation: steps of the VM between configurations

    The machine side of Refinement.v: what one instruction of [VM::run] does to
    a configuration, the invariant that ties an object to the variables of the
    source, and [goes], the triple that composes pieces of a run with their
    evaluation cost. *)
From S2P Require Import Prelude CLib Double Value Bytecode Lookup Machine Sscanf Exec ExecIndex Calls VM Ast CodeGen Semantics CodeShape.
Local Open Scope nat_scope.

(** A value that is no reference. *)
Definition scalar (v : Value) : bool :=
  match data v with Monostate | Int _ | Dbl _ | Str _ => true | _ => false end.

(** ** Configurations

    Outside of a [catch] and between calls the frame of a run is a program
    counter, the stack and the locals. *)
Definition conf (v : VMState) (ls st : list Value) (pc : nat) : RunState :=
  mkRun v {| locals := ls; localStack := st; pendingVarargsDelta := 0; ip := pc; catchFrames := [] |}.
Definition tick (v : VMState) : VMState := v <| evalCost ::= Z.add 1 |>.
Definition budget (c : Z) (v : VMState) : Prop := (evalCost v + c <= maxEvalCost v)%Z.
Definition spent (c : Z) (v v' : VMState) : Prop :=
  (evalCost v' <= evalCost v + c)%Z /\ maxEvalCost v' = maxEvalCost v.

(** What the source knows of the machine: the object [obj], whose program is
    [prg] at [pid], and its variables. *)
Record World := mkWorld {
  w_pid : pid;
  w_prg : CompiledProgram;
  w_obj : oid;
  w_file : string;
  w_vars : gmap string Z;
  w_default : Value
}.

Definition defaultOf (v : VMState) : Value :=
  if String.eqb (cfg_dialect (config v)) "fluffos" then makeUndefinedNumber else VInt 0.
Definition vars_agree (E : gmap string Z) (gv : gmap string Value) (vars : list Value) : Prop :=
  (forall x, is_Some (gv !! x) <-> is_Some (E !! x)) /\
  (forall x v, gv !! x = Some v -> scalar v = true /\
    exists i, E !! x = Some (Z.of_nat i) /\ vars !! i = Some v).
Record holds (W : World) (gv : gmap string Value) (v : VMState) : Prop := {
  h_prog : prog (programStore v) (w_pid W) = w_prg W;
  h_obj : exists ob, objects v !! w_obj W = Some ob /\ program ob = w_pid W /\ filename ob = w_file W /\
    vars_agree (w_vars W) gv (variables ob);
  h_default : defaultOf v = w_default W;
  h_cache : cache_ok (programStore v) (functionChainCache v)
}.
Definition same_world (v v' : VMState) : Prop :=
  programStore v' = programStore v /\ objects v' = objects v /\ config v' = config v /\
  functionChainCache v' = functionChainCache v.
Lemma holds_same W gv v v' : same_world v v' -> holds W gv v -> holds W gv v'.
Proof.
  intros (E1 & E2 & E3 & E4) [H1 H2 H3 H4]. split; unfold defaultOf in *; by rewrite ?E1, ?E2, ?E3, ?E4.
Qed.
Lemma holds_tick W gv v : holds W gv v -> holds W gv (tick v).
Proof. by apply holds_same. Qed.

(** The numbers are not to be computed with here. *)
#[local] Arguments Dbl.add : simpl never.
#[local] Arguments Dbl.sub : simpl never.
#[local] Arguments Dbl.mul : simpl never.
#[local] Arguments Dbl.div : simpl never.
#[local] Arguments Dbl.fmod : simpl never.
#[local] Arguments Dbl.eqb : simpl never.
#[local] Arguments Dbl.ltb : simpl never.
#[local] Arguments Dbl.leb : simpl never.
#[local] Arguments Dbl.to_int64 : simpl never.
#[local] Arguments Dbl.of_int64 : simpl never.

Section Steps.
Context {EF : EfunTable} (ticks : nat -> Z) (W : World).
Let prg := w_prg W.
Let C := code prg.
Definition ctx_of (fn : FunctionEntry) : RunCtx := mkCtx (w_pid W) fn (w_obj W) 0.
Definition tag_of (fn : FunctionEntry) : string := w_file W +:+ "::" +:+ fname fn +:+ "(): ".

Context (fn : FunctionEntry).
Let ctx := ctx_of fn.

(** With enough fuel, [s] runs to [s'] and goes on from there; or ends. *)
Definition reaches (s s' : RunState) : Prop :=
  exists k m, forall f, m <= f -> loop ticks (k + f) ctx s = loop ticks f ctx s'.
Definition ends (s : RunState) (o : outcome exn Value) (s' : RunState) : Prop :=
  exists m, forall f, m <= f -> loop ticks f ctx s = (o, s').

Lemma reaches_refl s : reaches s s.
Proof. by exists 0, 0. Qed.
Lemma reaches_trans s1 s2 s3 : reaches s1 s2 -> reaches s2 s3 -> reaches s1 s3.
Proof.
  intros (k1 & m1 & H1) (k2 & m2 & H2). exists (k1 + k2), (m1 + m2). intros f Hf.
  rewrite <- Nat.add_assoc, H1, H2; [done|lia..].
Qed.
Lemma reaches_ends s1 s2 o s3 : reaches s1 s2 -> ends s2 o s3 -> ends s1 o s3.
Proof.
  intros (k1 & m1 & H1) (m2 & H2). exists (k1 + m1 + m2). intros f Hf.
  replace f with (k1 + (f - k1)) by lia. rewrite H1, H2; [done|lia..].
Qed.

(** *** One instruction *)
Lemma fetch gv v ls st pc i : holds W gv v -> C !! pc = Some i ->
  forall f, loop ticks (S f) ctx (conf v ls st pc) =
    (c <- mcatch (charge ;; dispatch ticks (mkOps (run_with (loop ticks f)) f ticks) ctx prg i) (handler ctx) ;;
     match c with Continue => loop ticks f ctx | Returned v => mret v end) (conf v ls st pc).
Proof.
  intros Hw Hi f. simpl. unfold prOf. simpl. rewrite (h_prog _ _ _ Hw).
  assert (pc < length (code (w_prg W))) as Hlt by (by apply lookup_lt_Some in Hi).
  apply Nat.ltb_lt in Hlt. rewrite Hlt. unfold mbind at 1 3, mcatch, step, prOf. simpl.
  rewrite (h_prog _ _ _ Hw). unfold C, prg in Hi. rewrite Hi. done.
Qed.
Lemma charged v ls st pc : budget 1 v -> charge (conf v ls st pc) = (Ok tt, conf (tick v) ls st pc).
Proof.
  intros Hb. unfold charge, modVm, getVm, mbind, mmodify, mgets. simpl. 
  replace (maxEvalCost v <? 1 + evalCost v)%Z with false by (symmetry; apply Z.ltb_ge; unfold budget in Hb; lia).
  done.
Qed.
Lemma instr_goes gv v ls st pc i s' : holds W gv v -> C !! pc = Some i -> budget 1 v ->
  (exists m, forall f, m <= f ->
    dispatch ticks (mkOps (run_with (loop ticks f)) f ticks) ctx prg i (conf (tick v) ls st pc) = (Ok Continue, s')) ->
  reaches (conf v ls st pc) s'.
Proof.
  intros Hw Hi Hb [m Hd]. exists 1, m. intros f Hf. change (1 + f) with (S f). rewrite (fetch gv _ _ _ _ i Hw Hi).
  unfold mbind at 1, mcatch. rewrite (mbind_run _ _ _ _ _ (charged _ _ _ _ Hb)), Hd; done.
Qed.
Lemma instr_returns gv v ls st pc i r : holds W gv v -> C !! pc = Some i -> budget 1 v ->
  (forall ops, dispatch ticks ops ctx prg i (conf (tick v) ls st pc) = (Ok (Returned r), conf (tick v) ls st pc)) ->
  ends (conf v ls st pc) (Ok r) (conf (tick v) ls st pc).
Proof.
  intros Hw Hi Hb Hd. exists 1. intros [|f] Hf; [lia|]. rewrite (fetch gv _ _ _ _ i Hw Hi).
  unfold mbind at 1, mcatch. rewrite (mbind_run _ _ _ _ _ (charged _ _ _ _ Hb)), Hd; done.
Qed.
Lemma instr_throws gv v ls st pc i msg v' ls' st' pc' d : holds W gv v -> C !! pc = Some i -> budget 1 v ->
  fileOf v' (w_obj W) = w_file W ->
  (exists m, forall f, m <= f ->
    dispatch ticks (mkOps (run_with (loop ticks f)) f ticks) ctx prg i (conf (tick v) ls st pc)
    = (Throw (LpcRuntimeError msg), mkRun v' (mkFrame ls' st' d pc' []))) ->
  ends (conf v ls st pc) (Throw (LpcRuntimeError (tag_of fn +:+ msg))) (mkRun v' (mkFrame ls' st' d pc' [])).
Proof.
  intros Hw Hi Hb Hf [m Hd]. exists (S m). intros [|f] Hm; [lia|]. rewrite (fetch gv _ _ _ _ i Hw Hi).
  unfold mbind at 1, mcatch. rewrite (mbind_run _ _ _ _ _ (charged _ _ _ _ Hb)), Hd by lia.
  unfold handler, getFr, getVm, mgets, mbind, mthrow, here_text. simpl. by rewrite Hf.
Qed.

(** *** The opcodes of expressions and statements *)
Lemma int_of_below n : (Z.of_nat n < 2 ^ 31)%Z -> int_of n = Z.of_nat n.
Proof. intros H. apply wrap_id; lia. Qed.
Lemma pool_at {A} (l : list A) i : poolAt l (Z.of_nat i) = l !! i.
Proof. unfold poolAt. destruct (Z.ltb_spec (Z.of_nat i) 0); [lia|]. by rewrite Nat2Z.id. Qed.
Lemma scalar_kept s v : scalar v = true -> coerceIfDestructed s v = v.
Proof. unfold scalar, coerceIfDestructed. by destruct (data v). Qed.

Ltac unfold_ops :=
  unfold dispatch, exec_PushInt, exec_PushConst, exec_PushLocal, exec_StoreLocal, exec_Dup, exec_Pop, exec_Not, exec_BitNot,
    exec_Jump, exec_JumpIfFalse, exec_Return, exec_PushObjectVar, exec_StoreObjectVar, objVars, setObjVar, pushNext, push, next,
    jumpTo, require, stackSize, guard, pop, getFr, getVm, modFr, modVm, mgets, mmodify, error, lift, mlift.
Ltac opcode := unfold_ops; unfold mbind, mret, mthrow, mundef; simpl.

Section Opcodes.
Context (gv : gmap string Value) (v : VMState) (ls st : list Value) (pc : nat).
Context (Hw : holds W gv v) (Hb : budget 1 v).

Lemma op_PushInt a : ins C pc PushInt a -> reaches (conf v ls st pc) (conf (tick v) ls (VInt a :: st) (S pc)).
Proof. intros Hi. eapply instr_goes; [done|exact Hi|done|]. exists 0. intros f _. by opcode. Qed.
Lemma op_PushConst i s : ins C pc PushConst (int_of i) -> stringPool prg !! i = Some s -> (Z.of_nat i < 2 ^ 31)%Z ->
  reaches (conf v ls st pc) (conf (tick v) ls (V (Str s) :: st) (S pc)).
Proof.
  intros Hi Hs Hn. eapply instr_goes; [done|exact Hi|done|]. exists 0. intros f _. opcode.
  by rewrite int_of_below, pool_at, Hs.
Qed.
Lemma op_PushLocal i x : ins C pc PushLocal (Z.of_nat i) -> ls !! i = Some x -> scalar x = true ->
  reaches (conf v ls st pc) (conf (tick v) ls (x :: st) (S pc)).
Proof.
  intros Hi Hx Hs. eapply instr_goes; [done|exact Hi|done|]. exists 0. intros f _. opcode.
  rewrite pool_at, Hx. simpl. rewrite Nat2Z.id, scalar_kept by done. unfold set_field, conf. simpl. by rewrite list_insert_id.
Qed.
Lemma op_StoreLocal i x y : ins C pc StoreLocal (Z.of_nat i) -> ls !! i = Some y ->
  reaches (conf v ls (x :: st) pc) (conf (tick v) (<[i := x]> ls) st (S pc)).
Proof.
  intros Hi Hx. eapply instr_goes; [done|exact Hi|done|]. exists 0. intros f _. opcode.
  rewrite pool_at, Hx. simpl. by rewrite Nat2Z.id.
Qed.
Lemma op_Dup x : ins C pc Dup 0 -> reaches (conf v ls (x :: st) pc) (conf (tick v) ls (x :: x :: st) (S pc)).
Proof. intros Hi. eapply instr_goes; [done|exact Hi|done|]. exists 0. intros f _. by opcode. Qed.
Lemma op_Pop x : ins C pc Pop 0 -> reaches (conf v ls (x :: st) pc) (conf (tick v) ls st (S pc)).
Proof. intros Hi. eapply instr_goes; [done|exact Hi|done|]. exists 0. intros f _. by opcode. Qed.
Lemma op_Not x : ins C pc Not 0 -> reaches (conf v ls (x :: st) pc) (conf (tick v) ls (VBool (negb (isTruthy x)) :: st) (S pc)).
Proof. intros Hi. eapply instr_goes; [done|exact Hi|done|]. exists 0. intros f _. by opcode. Qed.
Lemma target_ok t i : operand i = Z.of_nat t -> t <= length C -> badTarget prg i = false.
Proof. intros E Ht. unfold badTarget. rewrite E. fold C. lia. Qed.
Lemma op_Jump t : ins C pc Jump (int_of t) -> t <= length C -> (Z.of_nat (length C) < 2 ^ 31)%Z ->
  reaches (conf v ls st pc) (conf (tick v) ls st t).
Proof.
  intros Hi Ht HC. rewrite int_of_below in Hi by lia. eapply instr_goes; [done|exact Hi|done|]. exists 0. intros f _. opcode.
  rewrite (target_ok t) by done. simpl. by rewrite Nat2Z.id.
Qed.
Lemma op_JumpIfFalse x t : ins C pc JumpIfFalse (int_of t) -> t <= length C -> (Z.of_nat (length C) < 2 ^ 31)%Z ->
  reaches (conf v ls (x :: st) pc) (conf (tick v) ls st (if isTruthy x then S pc else t)).
Proof.
  intros Hi Ht HC. rewrite int_of_below in Hi by lia. eapply instr_goes; [done|exact Hi|done|]. exists 0. intros f _. opcode.
  destruct (isTruthy x); simpl; [done|]. rewrite (target_ok t) by done. simpl. by rewrite Nat2Z.id.
Qed.
(** An object variable: what is read is written back. *)
Lemma objVars_hold ob : objects v !! w_obj W = Some ob -> getOb v variables [] (w_obj W) = variables ob.
Proof. unfold getOb. by intros ->. Qed.
Definition setVar (i : nat) (x : Value) (v : VMState) : VMState :=
  setOb (w_obj W) (fun o => o <| variables ::= <[i := x]> |>) v.
Lemma op_PushObjectVar ob i x : ins C pc PushObjectVar (Z.of_nat i) -> objects v !! w_obj W = Some ob ->
  variables ob !! i = Some x -> scalar x = true ->
  reaches (conf v ls st pc) (conf (setVar i x (tick v)) ls (x :: st) (S pc)).
Proof.
  intros Hi Ho Hx Hs. eapply instr_goes; [done|exact Hi|done|]. exists 0. intros f _. opcode.
  change (getOb (tick v) variables [] (w_obj W)) with (getOb v variables [] (w_obj W)).
  rewrite (objVars_hold ob Ho), Z.add_0_l, pool_at, Hx. simpl. by rewrite Nat2Z.id, scalar_kept.
Qed.
Lemma op_StoreObjectVar ob i x y : ins C pc StoreObjectVar (Z.of_nat i) -> objects v !! w_obj W = Some ob ->
  variables ob !! i = Some y ->
  reaches (conf v ls (x :: st) pc) (conf (setVar i x (tick v)) ls st (S pc)).
Proof.
  intros Hi Ho Hx. eapply instr_goes; [done|exact Hi|done|]. exists 0. intros f _. opcode.
  change (getOb (tick v) variables [] (w_obj W)) with (getOb v variables [] (w_obj W)).
  rewrite (objVars_hold ob Ho), Z.add_0_l, pool_at, Hx. simpl. by rewrite Nat2Z.id.
Qed.

(** The operators are those of Semantics.v. *)
Definition computes (m : R ctl) (a b : Value) (o : outcome exn Value) : Prop :=
  match o with
  | Ok r => m (conf (tick v) ls (b :: a :: st) pc) = (Ok Continue, conf (tick v) ls (r :: st) (S pc))
  | Throw e => m (conf (tick v) ls (b :: a :: st) pc) = (Throw e, conf (tick v) ls st pc)
  | _ => True
  end.
Lemma op_compare o op a b : o = BinOp.Lt \/ o = BinOp.Lte \/ o = BinOp.Gt \/ o = BinOp.Gte -> binaryOp o = Some op ->
  computes (exec_compare (mkInstr op 0 0)) a b (compare o a b).
Proof.
  intros Ho Hop. unfold computes, compare, exec_compare, pop2. opcode.
  destruct (asArithmeticOperand a), (asArithmeticOperand b); try done. destruct o; naive_solver.
Qed.
Lemma arithmetic_arith o op a b s : o = BinOp.Sub \/ o = BinOp.Mul \/ o = BinOp.Div \/ o = BinOp.Mod ->
  binaryOp o = Some op -> arithmetic (mkInstr op 0 0) a b s = (arith o a b, s).
Proof.
  intros Ho Hop. unfold arithmetic, arith, number. destruct (asArithmeticOperand a) as [x|]; [|done].
  destruct (asArithmeticOperand b) as [y|]; [|done].
  destruct Ho as [-> | [-> | [-> | ->]]]; simplify_eq/=; unfold mbind, guard, lift, mlift, mret; simpl;
    destruct (isDbl a || isDbl b); try destruct (Dbl.eqb y Dbl.zero); try reflexivity;
    match goal with |- context [Dbl.to_int64 ?d] => destruct (Dbl.to_int64 d) end; reflexivity.
Qed.
Lemma op_arith o op a b : o = BinOp.Sub \/ o = BinOp.Mul \/ o = BinOp.Div \/ o = BinOp.Mod -> binaryOp o = Some op ->
  scalar a = true -> computes (exec_arith (mkInstr op 0 0)) a b (arith o a b).
Proof.
  intros Ho Hop Ha. unfold computes, exec_arith, pop2. opcode.
  destruct Ho as [-> | Ho].
  - simplify_eq/=. unfold scalar in Ha. destruct (data a) eqn:Ea; try discriminate Ha;
      rewrite (arithmetic_arith BinOp.Sub) by tauto; by destruct (arith BinOp.Sub a b).
  - destruct Ho as [-> | [-> | ->]]; simplify_eq/=;
      [rewrite (arithmetic_arith BinOp.Mul) by tauto|rewrite (arithmetic_arith BinOp.Div) by tauto
      |rewrite (arithmetic_arith BinOp.Mod) by tauto]; match goal with |- context [arith ?o a b] => by destruct (arith o a b) end.
Qed.
Lemma add_values a b s : scalar a = true -> scalar b = true -> addValues a b s = (add a b, s).
Proof.
  intros Ha Hb'. unfold scalar in *. unfold addValues, add, number.
  destruct (data a) eqn:Ea, (data b) eqn:Eb; try discriminate Ha; try discriminate Hb'; try reflexivity;
    unfold asArithmeticOperand; rewrite Ea, Eb; destruct (isDbl a || isDbl b); unfold lift, mlift, mbind, mret;
    try reflexivity; match goal with |- context [Dbl.to_int64 ?d] => by destruct (Dbl.to_int64 d) end.
Qed.
Lemma op_add a b : scalar a = true -> scalar b = true -> computes exec_Add a b (add a b).
Proof.
  intros Ha Hb'. unfold computes, exec_Add, pop2. opcode. rewrite add_values by done. by destruct (add a b).
Qed.
Lemma op_bits o op a b : binaryOp o = Some op -> scalar a = true -> scalar b = true ->
  match o with
  | BinOp.BitAnd => computes exec_BitAnd a b (bits o a b)
  | BinOp.BitOr | BinOp.BitXor => computes (exec_BitOrXor (mkInstr op 0 0)) a b (bits o a b)
  | BinOp.Shl | BinOp.Shr => computes (exec_Shift (mkInstr op 0 0)) a b (bits o a b)
  | _ => True
  end.
Proof.
  intros Hop Ha Hb'. unfold scalar in *. destruct o; try exact I; simplify_eq/=;
    unfold computes, bits, exec_BitAnd, exec_BitOrXor, exec_Shift, pop2; opcode;
    destruct (data a); try discriminate Ha; destruct (data b); try discriminate Hb'; try reflexivity;
    match goal with |- context [(?y <? 0)%Z || _] => by destruct ((y <? 0)%Z || (64 <=? y)%Z) end.
Qed.
Lemma op_binary o op a b ops : binaryOp o = Some op -> scalar a = true -> scalar b = true ->
  computes (dispatch ticks ops ctx prg (mkInstr op 0 0)) a b (binop o a b).
Proof.
  intros Ho Ha Hb'. destruct o; simplify_eq/=; unfold dispatch; simpl; [reflexivity|reflexivity|..].
  - apply (op_compare BinOp.Lt); [tauto|done].
  - apply (op_compare BinOp.Lte); [tauto|done].
  - apply (op_compare BinOp.Gt); [tauto|done].
  - apply (op_compare BinOp.Gte); [tauto|done].
  - by apply op_add.
  - apply (op_arith BinOp.Sub); [tauto|done|done].
  - apply (op_arith BinOp.Mul); [tauto|done|done].
  - apply (op_arith BinOp.Div); [tauto|done|done].
  - apply (op_arith BinOp.Mod); [tauto|done|done].
  - by apply (op_bits BinOp.BitAnd BitAnd).
  - by apply (op_bits BinOp.BitOr).
  - by apply (op_bits BinOp.BitXor).
  - by apply (op_bits BinOp.Shl).
  - by apply (op_bits BinOp.Shr).
Qed.
Lemma run_binary o op a b : binaryOp o = Some op -> scalar a = true -> scalar b = true -> ins C pc op 0 ->
  match binop o a b with
  | Ok r => reaches (conf v ls (b :: a :: st) pc) (conf (tick v) ls (r :: st) (S pc))
  | Throw (LpcRuntimeError m) =>
      ends (conf v ls (b :: a :: st) pc) (Throw (LpcRuntimeError (tag_of fn +:+ m))) (conf (tick v) ls st pc)
  | _ => True
  end.
Proof.
  intros Ho Ha Hb' Hi. pose proof (fun ops => op_binary o op a b ops Ho Ha Hb') as Hd. unfold computes in Hd.
  destruct (binop o a b) as [r|e|?|]; [| |done..].
  - eapply instr_goes; [done|exact Hi|done|]. exists 0. intros f _. apply Hd.
  - destruct e; try done. eapply instr_throws; [done|exact Hi|done| |exists 0; intros f _; apply Hd].
    destruct (h_obj _ _ _ Hw) as (ob & Hob & _ & Hf & _). unfold fileOf, getOb. simpl. by rewrite Hob.
Qed.
Lemma run_complement a : scalar a = true -> ins C pc BitNot 0 ->
  match complement a with
  | Ok r => reaches (conf v ls (a :: st) pc) (conf (tick v) ls (r :: st) (S pc))
  | Throw (LpcRuntimeError m) =>
      ends (conf v ls (a :: st) pc) (Throw (LpcRuntimeError (tag_of fn +:+ m))) (conf (tick v) ls st pc)
  | _ => True
  end.
Proof.
  intros Ha Hi. unfold complement. unfold scalar in Ha. destruct (data a) eqn:Ea; try discriminate Ha.
  all: first [eapply instr_goes; [done|exact Hi|done|]; exists 0; intros f _; opcode; by rewrite Ea
    |eapply instr_throws; [done|exact Hi|done| |exists 0; intros f _; opcode; by rewrite Ea]].
  all: destruct (h_obj _ _ _ Hw) as (ob & Hob & _ & Hf & _); unfold fileOf, getOb; simpl; by rewrite Hob.
Qed.
Lemma op_Return : ins C pc Return 0 -> ends (conf v ls st pc) (Ok (nthV 0 st)) (conf (tick v) ls st pc).
Proof. intros Hi. eapply instr_returns; [done|exact Hi|done|]. intros ops. by opcode. Qed.
End Opcodes.
End Steps.
