(* ===== verification/Triple.v ===== *)
(** * Triple: runs that follow the source

    [frame_ok] relates the locals of a frame to the variables of the source,
    [at_] a whole configuration.  [goes P r Q] says that from every
    configuration in [P] the VM does what the source did with outcome [r]: it
    arrives in [Q], or ends with the error, after a bounded number of
    instructions. *)
From S2P Require Import Prelude CLib Double Value Bytecode Lookup Machine Sscanf Exec ExecIndex Calls VM Ast CodeGen Semantics CodeShape Simulation.
Local Open Scope nat_scope.

(** ** Frames *)

(** [L] locals; the variables in scope have the slots of [E], all below [n];
    from [k] on no slot has been used. *)
Record frame_ok (L : nat) (d : Value) (E : env) (n k : nat) (l : gmap string (option Value)) (ls : list Value) : Prop := {
  fo_len : length ls = L;
  fo_dom : forall x, is_Some (l !! x) <-> is_Some (E !! x);
  fo_slot : forall x z, E !! x = Some z -> exists i, z = Z.of_nat i /\ i < n;
  fo_inj : forall x y z, E !! x = Some z -> E !! y = Some z -> x = y;
  fo_val : forall x i v, E !! x = Some (Z.of_nat i) -> l !! x = Some (Some v) -> ls !! i = Some v /\ scalar v = true;
  fo_le : n <= k;
  fo_fresh : forall i, k <= i < L -> ls !! i = Some d
}.

Section Frames.
Context (L : nat) (d : Value).

Lemma frame_read E n k l ls x v : frame_ok L d E n k l ls -> l !! x = Some (Some v) ->
  exists i, E !! x = Some (Z.of_nat i) /\ ls !! i = Some v /\ scalar v = true.
Proof.
  intros F Hx. destruct (proj1 (fo_dom _ _ _ _ _ _ _ F x)) as [z Hz]; [by eexists|].
  destruct (fo_slot _ _ _ _ _ _ _ F _ _ Hz) as (i & -> & Hi). exists i.
  destruct (fo_val _ _ _ _ _ _ _ F _ _ _ Hz Hx). done.
Qed.
Lemma frame_write E n k l ls x i v : frame_ok L d E n k l ls -> E !! x = Some (Z.of_nat i) -> scalar v = true -> n <= L ->
  frame_ok L d E n k (<[x := Some v]> l) (<[i := v]> ls).
Proof.
  intros [F1 F2 F3 F4 F5 F6 F7] Hx Hv Hn. destruct (F3 _ _ Hx) as (j0 & Hj0 & Hlt). assert (j0 = i) as -> by lia. clear Hj0.
  split; try done.
  - by rewrite length_insert.
  - intros y. rewrite lookup_insert_is_Some. rewrite F2. split; [intros [<-|[_ ?]]; [by eexists|done]|].
    intros Hy. destruct (decide (x = y)); [by left|by right].
  - intros y j w Hy Hw. destruct (decide (x = y)) as [<-|Hne].
    + rewrite lookup_insert_eq in Hw. injection Hw as <-. assert (j = i) as -> by (rewrite Hx in Hy; by simplify_eq).
      split; [|done]. apply list_lookup_insert_eq. lia.
    + rewrite lookup_insert_ne in Hw by done. assert (i <> j) as Hij by (intros ->; by apply Hne, (F4 x y (Z.of_nat j))).
      rewrite list_lookup_insert_ne by done. by apply (F5 y).
  - intros j Hj. rewrite list_lookup_insert_ne by lia. by apply F7.
Qed.
Lemma frame_weaken E n k n' k' l ls : frame_ok L d E n k l ls -> n <= n' -> n' <= k' -> k <= k' -> frame_ok L d E n' k' l ls.
Proof.
  intros [F1 F2 F3 F4 F5 F6 F7] H1 H2 H3. split; try done.
  - intros x z Hz. destruct (F3 _ _ Hz) as (i & -> & Hi). exists i. split; [done|lia].
  - intros i Hi. apply F7. lia.
Qed.
Lemma frame_declare E n k l ls x o : frame_ok L d E n k l ls -> E !! x = None ->
  (forall v, o = Some v -> ls !! n = Some v /\ scalar v = true) ->
  frame_ok L d (<[x := Z.of_nat n]> E) (n + 1) (Nat.max k (n + 1)) (<[x := o]> l) ls.
Proof.
  intros [F1 F2 F3 F4 F5 F6 F7] Hx Ho. split; try done; try lia.
  - intros y. rewrite !lookup_insert_is_Some, F2. done.
  - intros y z Hy. destruct (decide (x = y)) as [<-|Hne].
    + rewrite lookup_insert_eq in Hy. injection Hy as <-. exists n. split; [done|lia].
    + rewrite lookup_insert_ne in Hy by done. destruct (F3 _ _ Hy) as (i & -> & Hi). exists i. split; [done|lia].
  - intros y y' z Hy Hy'. destruct (decide (x = y)) as [<-|Hne], (decide (x = y')) as [<-|Hne']; try done.
    + rewrite lookup_insert_eq in Hy. rewrite lookup_insert_ne in Hy' by done.
      destruct (F3 _ _ Hy') as (i & -> & Hi). injection Hy as Hy. lia.
    + rewrite lookup_insert_eq in Hy'. rewrite lookup_insert_ne in Hy by done.
      destruct (F3 _ _ Hy) as (i & -> & Hi). injection Hy' as Hy'. lia.
    + rewrite lookup_insert_ne in Hy by done. rewrite lookup_insert_ne in Hy' by done. by apply (F4 y y' z).
  - intros y i v Hy Hv. destruct (decide (x = y)) as [<-|Hne].
    + rewrite lookup_insert_eq in Hy. rewrite lookup_insert_eq in Hv. injection Hv as ->. injection Hy as Hy. assert (i = n) as -> by lia. by apply Ho.
    + rewrite lookup_insert_ne in Hy by done. rewrite lookup_insert_ne in Hv by done. by apply (F5 y).
  - intros i Hi. apply F7. lia.
Qed.
(** The variables of an inner scope are forgotten. *)
Lemma frame_leave E E' n k l (l0 : gmap string (option Value)) ls : frame_ok L d E' n k l ls -> E ⊆ E' -> (forall x, is_Some (l0 !! x) <-> is_Some (E !! x)) ->
  frame_ok L d E n k (filter (fun p => is_Some (l0 !! fst p)) l) ls.
Proof.
  intros [F1 F2 F3 F4 F5 F6 F7] Hs Hd.
  assert (forall x z, E !! x = Some z -> E' !! x = Some z) as HE by (intros x z Hz; by apply (lookup_weaken E)).
  split; try done; eauto.
  - intros x. split.
    + intros [o Ho]. apply map_lookup_filter_Some in Ho as [_ Ho]. by apply Hd.
    + intros [z Hz]. destruct (proj2 (F2 x)) as [o Ho]; [eexists; by apply HE|]. exists o.
      apply map_lookup_filter_Some. split; [done|]. simpl. apply Hd. by eexists.
  - intros x i v Hx Hv. apply map_lookup_filter_Some in Hv as [Hv _]. eauto.
Qed.
End Frames.

(** ** Triples *)
Section Triples.
Context {EF : EfunTable} (ticks : nat -> Z) (W : World) (fn : FunctionEntry) (L : nat).
Let C := code (w_prg W).

Definition at_ (pc : nat) (st : list Value) (E : env) (n k : nat) (s : Store) (c : RunState) : Prop :=
  exists v ls, c = conf v ls st pc /\ holds W (gvars s) v /\ frame_ok L (w_default W) E n k (lvars s) ls.

Definition goes {A} (P : RunState -> Prop) (r : outcome exn A * Store) (Q : A -> Store -> RunState -> Prop) : Prop :=
  match fst r with
  | Ok a => exists c, (0 <= c)%Z /\ forall s, P s -> budget c (vm s) ->
      exists s', reaches ticks W fn s s' /\ spent c (vm s) (vm s') /\ Q a (snd r) s'
  | Throw (LpcRuntimeError m) => exists c, (0 <= c)%Z /\ forall s, P s -> budget c (vm s) ->
      exists s', ends ticks W fn s (Throw (LpcRuntimeError (tag_of W fn +:+ m))) s' /\ spent c (vm s) (vm s') /\
        holds W (gvars (snd r)) (vm s')
  | _ => True
  end.
(** One instruction. *)
Definition moves (P P' : RunState -> Prop) : Prop := forall s, P s -> budget 1 (vm s) ->
  exists s', reaches ticks W fn s s' /\ spent 1 (vm s) (vm s') /\ P' s'.

Lemma spent_refl v : spent 0 v v.
Proof. unfold spent. split; [lia|done]. Qed.
Lemma spent_trans c1 c2 v1 v2 v3 : spent c1 v1 v2 -> spent c2 v2 v3 -> spent (c1 + c2) v1 v3.
Proof. unfold spent. intros [] []. split; [lia|congruence]. Qed.
Lemma budget_split c1 c2 v v' : (0 <= c2)%Z -> budget (c1 + c2) v -> spent c1 v v' -> budget c1 v /\ budget c2 v'.
Proof. unfold budget, spent. intros H0 H1 [H2 H3]. rewrite H3. lia. Qed.

Lemma goes_ret {A} P (a : A) (s : Store) (Q : A -> Store -> RunState -> Prop) : (forall c, P c -> Q a s c) -> goes P (Ok a, s) Q.
Proof.
  intros HQ. exists 0%Z. split; [lia|]. intros c Hc _. exists c. split; [apply reaches_refl|]. split; [apply spent_refl|by apply HQ].
Qed.
Lemma goes_pre {A} P P' (r : outcome exn A * Store) Q : (forall c, P c -> P' c) -> goes P' r Q -> goes P r Q.
Proof.
  intros HP. unfold goes. destruct (fst r) as [a|[m| | | | ]|?|]; try done; intros (c & Hc & G); exists c; (split; [done|]);
    intros s Hs; apply G; by apply HP.
Qed.
Lemma goes_post {A} P (r : outcome exn A * Store) (Q Q' : A -> Store -> RunState -> Prop) :
  (forall a s c, Q a s c -> Q' a s c) -> goes P r Q -> goes P r Q'.
Proof.
  intros HQ. unfold goes. destruct (fst r) as [a|[m| | | | ]|?|]; try done. intros (c & Hc & G). exists c. split; [done|].
  intros s Hs Hb. destruct (G s Hs Hb) as (s' & R & S & Hq). exists s'. split_and!; try done. by apply HQ.
Qed.
Lemma goes_bind {A B} P (m : I A) (f : A -> I B) s Q R : goes P (m s) Q ->
  (forall a s1, m s = (Ok a, s1) -> goes (Q a s1) (f a s1) R) -> goes P (mbind m f s) R.
Proof.
  intros G1 G2. unfold mbind. destruct (m s) as [[a|e|w|] s1]; simpl in *; try done.
  specialize (G2 a s1 eq_refl). destruct G1 as (c1 & Hc1 & G1). unfold goes in *.
  destruct (f a s1) as [o s2]. simpl in *. destruct o as [b|[msg| | | |]|?|]; try done;
    destruct G2 as (c2 & Hc2 & G2); exists (c1 + c2)%Z; (split; [lia|]); intros c Hp Hb;
    destruct (G1 c Hp) as (c' & R1 & S1 & Q1); [unfold budget in *; lia| |unfold budget in *; lia|];
    (destruct (G2 c' Q1) as (c'' & R2 & S2 & Q2); [by eapply budget_split|]); exists c'';
    (split_and!; [|by eapply spent_trans|done]).
  - by eapply reaches_trans.
  - by eapply reaches_ends.
Qed.
Lemma goes_step {A} P P' (r : outcome exn A * Store) Q : moves P P' -> goes P' r Q -> goes P r Q.
Proof.
  intros M G. unfold goes in *. destruct (fst r) as [b|[msg| | | |]|?|]; try done;
    destruct G as (c2 & Hc2 & G); exists (1 + c2)%Z; (split; [lia|]); intros c Hp Hb;
    (destruct (M c Hp) as (c' & R1 & S1 & Q1); [unfold budget in *; lia|]);
    (destruct (G c' Q1) as (c'' & R2 & S2 & Q2); [by eapply budget_split|]); exists c'';
    (split_and!; [|by eapply spent_trans|done]).
  - by eapply reaches_trans.
  - by eapply reaches_ends.
Qed.
Lemma goes_moves {A} P (a : A) (s : Store) (Q : A -> Store -> RunState -> Prop) : moves P (Q a s) -> goes P (Ok a, s) Q.
Proof. intros M. by eapply goes_step; [exact M|]; apply goes_ret. Qed.
(** An instruction, or none, after what the source does. *)
Lemma goes_then {A} P (r : outcome exn A * Store) (Q Q' : A -> Store -> RunState -> Prop) : goes P r Q ->
  (forall a, moves (Q a (snd r)) (Q' a (snd r)) \/ forall c, Q a (snd r) c -> Q' a (snd r) c) -> goes P r Q'.
Proof.
  intros G M. unfold goes in *. destruct (fst r) as [a|[msg| | | | ]|?|]; try done.
  destruct G as (c & Hc & G). exists (c + 1)%Z. split; [lia|]. intros s Hs Hb.
  destruct (G s Hs) as (s1 & R1 & S1 & Q1); [unfold budget in *; lia|].
  destruct (M a) as [Ma|Ma].
  - destruct (Ma s1 Q1) as (s2 & R2 & S2 & Q2); [unfold budget, spent in *; destruct S1 as [? ->]; lia|].
    exists s2. split_and!; [by eapply reaches_trans|by eapply spent_trans|done].
  - exists s1. split_and!; [done|unfold spent in *; destruct S1; split; [lia|done]|by apply Ma].
Qed.
Lemma moves_post P Q Q' : moves P Q -> (forall c, Q c -> Q' c) -> moves P Q'.
Proof. intros M H s Hs Hb. destruct (M s Hs Hb) as (s' & ? & ? & ?). exists s'. split_and!; auto. Qed.
Lemma goes_false {A} (r : outcome exn A * Store) (Q : A -> Store -> RunState -> Prop) : goes (fun _ => False) r Q.
Proof. unfold goes. destruct (fst r) as [a|[m| | | | ]|?|]; try done; exists 0%Z; (split; [lia|done]). Qed.
Lemma goes_pure {A} (b : bool) P (r : outcome exn A * Store) Q : (b = true -> goes P r Q) ->
  goes (fun c => b = true /\ P c) r Q.
Proof.
  intros G. destruct b; [eapply goes_pre; [|by apply G]; by intros c [_ Hc]|].
  eapply goes_pre; [|apply goes_false]. by intros c [Hc _].
Qed.
(** What every configuration before has. *)
Lemma goes_known {A} (X : Prop) `{!Decision X} P (r : outcome exn A * Store) Q :
  (forall c, P c -> X) -> (X -> goes P r Q) -> goes P r Q.
Proof.
  intros HX G. destruct (decide X) as [Hx|Hx]; [by apply G|].
  eapply goes_pre; [|apply goes_false]. intros c Hc. by apply Hx, (HX c).
Qed.
Lemma moves_pure (b : bool) P P' : (b = true -> moves P P') -> moves (fun c => b = true /\ P c) P'.
Proof. intros M s [Hb Hp]. by apply M. Qed.

Lemma at_weaken pc st E n k n' k' s c : at_ pc st E n k s c -> n <= n' -> n' <= k' -> k <= k' -> at_ pc st E n' k' s c.
Proof. intros (v & ls & -> & Hw & Hf) H1 H2 H3. exists v, ls. split_and!; try done. by eapply frame_weaken. Qed.
Definition below (E : env) (n : nat) : Prop := map_Forall (fun _ z => (0 <= z < Z.of_nat n)%Z) E.
Lemma at_below pc st E n k s c : at_ pc st E n k s c -> below E n.
Proof.
  intros (v & ls & -> & Hw & Hf) x z Hz. destruct (fo_slot _ _ _ _ _ _ _ Hf _ _ Hz) as (i & -> & Hi). lia.
Qed.
Lemma at_narrow pc st E n k n' s c : at_ pc st E n k s c -> below E n' -> n' <= n -> at_ pc st E n' k s c.
Proof.
  intros (v & ls & -> & Hw & [F1 F2 F3 F4 F5 F6 F7]) Hb Hn. exists v, ls. split_and!; try done. split; try done; [|lia].
  intros x z Hz. exists (Z.to_nat z). specialize (Hb x z Hz). simpl in Hb. lia.
Qed.
Lemma at_dom pc st E n k s c : at_ pc st E n k s c -> dom (lvars s) = dom E.
Proof.
  intros (v & ls & -> & Hw & Hf). apply set_eq. intros x. rewrite !elem_of_dom. apply Hf.
Qed.
(** The end of a scope. *)
Lemma at_leave pc st E E' n k (s s' : Store) c : at_ pc st E' n k s c -> E ⊆ E' -> dom (lvars s') = dom E ->
  at_ pc st E n k (s <| lvars ::= fun l => filter (fun p => is_Some (lvars s' !! fst p)) l |>) c.
Proof.
  intros (v & ls & -> & Hw & Hf) HE Hd. exists v, ls. split_and!; try done. simpl. eapply frame_leave; [done|done|].
  intros x. rewrite <- !elem_of_dom, Hd. done.
Qed.

(** *** Instructions *)
Lemma move_vm pc st pc' st' E n k s :
  (forall v ls, holds W (gvars s) v -> budget 1 v -> reaches ticks W fn (conf v ls st pc) (conf (tick v) ls st' pc')) ->
  moves (at_ pc st E n k s) (at_ pc' st' E n k s).
Proof.
  intros Hm c (v & ls & -> & Hw & Hf) Hb. eexists. split; [by apply Hm|]. split; [|by exists (tick v), ls; split; [|split; [apply holds_tick|]]].
  unfold spent, tick. simpl. split; [lia|done].
Qed.
Section Code.
Context (HC : (Z.of_nat (length C) < 2 ^ 31)%Z) (Hpool : (Z.of_nat (length (stringPool (w_prg W))) < 2 ^ 31)%Z).
Context (pc : nat) (st : list Value) (E : env) (n k : nat) (s : Store).

Lemma mv_PushInt a : ins C pc PushInt a -> moves (at_ pc st E n k s) (at_ (pc + 1) (VInt a :: st) E n k s).
Proof. intros Hi. rewrite Nat.add_1_r. apply move_vm. intros. by eapply op_PushInt. Qed.
Lemma mv_PushConst i x : ins C pc PushConst (int_of i) -> stringPool (w_prg W) !! i = Some x ->
  moves (at_ pc st E n k s) (at_ (pc + 1) (V (Str x) :: st) E n k s).
Proof.
  intros Hi Hx. rewrite Nat.add_1_r. apply move_vm. intros. eapply op_PushConst; [done|done|done|done|].
  apply lookup_lt_Some in Hx. lia.
Qed.
Lemma mv_Dup x : ins C pc Dup 0 -> moves (at_ pc (x :: st) E n k s) (at_ (pc + 1) (x :: x :: st) E n k s).
Proof. intros Hi. rewrite Nat.add_1_r. apply move_vm. intros. by eapply op_Dup. Qed.
Lemma mv_Pop x : ins C pc Pop 0 -> moves (at_ pc (x :: st) E n k s) (at_ (pc + 1) st E n k s).
Proof. intros Hi. rewrite Nat.add_1_r. apply move_vm. intros. by eapply op_Pop. Qed.
Lemma mv_Not x : ins C pc Not 0 ->
  moves (at_ pc (x :: st) E n k s) (at_ (pc + 1) (VBool (negb (isTruthy x)) :: st) E n k s).
Proof. intros Hi. rewrite Nat.add_1_r. apply move_vm. intros. by eapply op_Not. Qed.
Lemma mv_Jump t : ins C pc Jump (int_of t) -> t <= length C -> moves (at_ pc st E n k s) (at_ t st E n k s).
Proof. intros Hi Ht. apply move_vm. intros. by eapply op_Jump. Qed.
Lemma mv_JumpIfFalse x t : ins C pc JumpIfFalse (int_of t) -> t <= length C ->
  moves (at_ pc (x :: st) E n k s) (at_ (if isTruthy x then pc + 1 else t) st E n k s).
Proof.
  intros Hi Ht. rewrite Nat.add_1_r. apply move_vm. intros. eapply op_JumpIfFalse; [done|done|exact Hi|done|done].
Qed.

(** *** Operators *)
Lemma number_scalar a b d r : number a b d = Ok r -> scalar r = true.
Proof. unfold number. destruct (isDbl a || isDbl b); [by intros [= <-]|]. by destruct (Dbl.to_int64 d); intros [= <-]. Qed.
Lemma binop_scalar o a b r : binop o a b = Ok r -> scalar r = true.
Proof.
  destruct o; simpl; try (by intros [= <-]); try done; unfold compare, arith, add, bits, err;
    repeat case_match; try done; try (by intros [= <-]); by apply number_scalar.
Qed.
Lemma complement_scalar a r : complement a = Ok r -> scalar r = true.
Proof. unfold complement. destruct (data a); try done. by intros [= <-]. Qed.
Lemma vm_goes (o : outcome exn Value) st0 :
  (forall v ls, holds W (gvars s) v -> budget 1 v ->
    match o with
    | Ok r => reaches ticks W fn (conf v ls st0 pc) (conf (tick v) ls (r :: st) (S pc))
    | Throw (LpcRuntimeError m) => ends ticks W fn (conf v ls st0 pc) (Throw (LpcRuntimeError (tag_of W fn +:+ m))) (conf (tick v) ls st pc)
    | _ => True
    end) -> (forall r, o = Ok r -> scalar r = true) ->
  goes (at_ pc st0 E n k s) (o, s) (fun r s' c => scalar r = true /\ at_ (pc + 1) (r :: st) E n k s' c).
Proof.
  intros Ho Hs. unfold goes. simpl. destruct o as [r|[m| | | | ]|?|]; try done; exists 1%Z; (split; [lia|]);
    intros c (v & ls & -> & Hw & Hf) Hb; specialize (Ho v ls Hw Hb); (eexists; split; [exact Ho|]);
    (split; [unfold spent, tick; simpl; split; [lia|done]|]).
  - split; [by apply Hs|]. rewrite Nat.add_1_r. eexists _, _. split; [done|]. split; [by apply holds_tick|done].
  - by apply holds_tick.
Qed.
Lemma goes_binop o op a b : binaryOp o = Some op -> scalar a = true -> scalar b = true -> ins C pc op 0 ->
  goes (at_ pc (b :: a :: st) E n k s) (mlift (binop o a b) s) (fun r s' c => scalar r = true /\ at_ (pc + 1) (r :: st) E n k s' c).
Proof.
  intros Ho Ha Hb Hi. unfold mlift. apply vm_goes; [|intros r; apply binop_scalar]. intros v ls Hw Hbud.
  by eapply run_binary.
Qed.
Lemma goes_complement a : scalar a = true -> ins C pc BitNot 0 ->
  goes (at_ pc (a :: st) E n k s) (mlift (complement a) s) (fun r s' c => scalar r = true /\ at_ (pc + 1) (r :: st) E n k s' c).
Proof.
  intros Ha Hi. unfold mlift. apply vm_goes; [|intros r; apply complement_scalar]. intros v ls Hw Hbud.
  by eapply run_complement.
Qed.

(** *** Variables *)
Context (HV : forall x y z, w_vars W !! x = Some z -> w_vars W !! y = Some z -> x = y) (HL : n <= L).

Lemma holds_setVar gv v x i w : holds W gv v -> w_vars W !! x = Some (Z.of_nat i) -> is_Some (gv !! x) -> scalar w = true ->
  holds W (<[x := w]> gv) (setVar W i w v).
Proof.
  intros [H1 (ob & H2 & H3 & H4 & H5 & H6) H7 H8] Hx [y Hy] Hw.
  destruct (H6 _ _ Hy) as (_ & j & Hj & Hv). rewrite Hx in Hj. injection Hj as Hj. assert (j = i) as -> by lia.
  split; try done. exists (ob <| variables ::= <[i := w]> |>). split; [unfold setVar, setOb; simpl; by rewrite lookup_alter_eq, H2|].
  split; [done|]. split; [done|]. split.
  - intros z. rewrite lookup_insert_is_Some, H5. split; [intros [<-|[_ ?]]; [by eexists|done]|].
    intros Hz. destruct (decide (x = z)); [by left|by right].
  - intros z u Hz. destruct (decide (x = z)) as [<-|Hne].
    + rewrite lookup_insert_eq in Hz. injection Hz as <-. split; [done|]. exists i. split; [done|]. simpl.
      apply list_lookup_insert_eq. by apply lookup_lt_Some in Hv.
    + rewrite lookup_insert_ne in Hz by done. destruct (H6 _ _ Hz) as (Hs & j & Ej & Hu). split; [done|]. exists j.
      split; [done|]. simpl. rewrite list_lookup_insert_ne; [done|]. intros ->. apply Hne. by apply (HV x z (Z.of_nat j)).
Qed.
Lemma spent_tick v i w : spent 1 v (setVar W i w (tick v)).
Proof. unfold spent, setVar, setOb, tick. simpl. split; [lia|done]. Qed.

(** A variable of the source is where [resolves] says. *)
Lemma read_where x v s1 rv c : readVar x s = (Ok v, s1) -> resolves (w_vars W) E x rv -> at_ pc st E n k s c -> s1 = s /\
  scalar v = true /\ exists i, slot rv = Z.of_nat i /\ exists vm ls, c = conf vm ls st pc /\ holds W (gvars s) vm /\
    frame_ok L (w_default W) E n k (lvars s) ls /\
    match kind rv with
    | LocalVar => ls !! i = Some v
    | ObjectVar => gvars s !! x = Some v /\ w_vars W !! x = Some (Z.of_nat i) /\ exists ob, objects vm !! w_obj W = Some ob /\ variables ob !! i = Some v
    end.
Proof.
  intros Hr Hv (vm & ls & -> & Hw & Hf). unfold readVar in Hr. unfold resolves in Hv.
  destruct (lvars s !! x) as [[w|]|] eqn:El; [|done|].
  - injection Hr as <- <-. destruct (frame_read _ _ _ _ _ _ _ _ _ Hf El) as (i & Hx & Hi & Hs). rewrite Hx in Hv. subst rv.
    split; [done|]. split; [done|]. exists i. split; [done|]. by exists vm, ls.
  - destruct (gvars s !! x) as [w|] eqn:Eg; [|done]. injection Hr as <- <-.
    assert (E !! x = None) as HE. { apply eq_None_not_Some. intros Hx. apply (fo_dom _ _ _ _ _ _ _ Hf) in Hx. rewrite El in Hx. by destruct Hx. }
    rewrite HE in Hv. destruct (h_obj _ _ _ Hw) as (ob & Ho & Hp & Hfile & Hd & Hval).
    destruct (Hval _ _ Eg) as (Hs & i & Hx & Hi). rewrite Hx in Hv. subst rv. split; [done|]. split; [done|]. exists i.
    split; [done|]. exists vm, ls. simpl. split_and!; try done. by exists ob.
Qed.
Lemma mv_read x v s1 rv : readVar x s = (Ok v, s1) -> resolves (w_vars W) E x rv -> ins C pc (pushOp rv) (slot rv) ->
  moves (at_ pc st E n k s) (fun c => scalar v = true /\ at_ (pc + 1) (v :: st) E n k s1 c).
Proof.
  intros Hr Hv Hi c Hc Hb. destruct (read_where _ _ _ _ _ Hr Hv Hc) as (-> & Hs & i & Ei & vm & ls & -> & Hw & Hf & Hk).
  unfold pushOp in Hi. rewrite Ei in Hi. rewrite Nat.add_1_r. destruct (kind rv).
  - eexists. split; [by eapply op_PushLocal|]. split; [unfold spent, tick; simpl; split; [lia|done]|].
    split; [done|]. eexists _, _. split; [done|]. split; [by apply holds_tick|done].
  - destruct Hk as (Hg & Hx & ob & Ho & Hob). eexists. split; [by eapply op_PushObjectVar|]. split; [apply spent_tick|].
    split; [done|]. eexists _, _. split; [done|]. split; [|done].
    rewrite <- (insert_id (gvars s) x v Hg). apply holds_setVar; [by apply holds_tick|done|by eexists|done].
Qed.
Lemma mv_write x v s1 rv u : writeVar x v s = (Ok u, s1) -> resolves (w_vars W) E x rv -> ins C pc (storeOp rv) (slot rv) ->
  scalar v = true -> moves (at_ pc (v :: st) E n k s) (at_ (pc + 1) st E n k s1).
Proof.
  intros Hr Hv Hi Hs c (vm & ls & -> & Hw & Hf) Hb. unfold writeVar in Hr. unfold resolves in Hv. rewrite Nat.add_1_r.
  destruct (lvars s !! x) as [o|] eqn:El.
  - injection Hr as _ <-. destruct (proj1 (fo_dom _ _ _ _ _ _ _ Hf x)) as [z Hz]; [by eexists|].
    destruct (fo_slot _ _ _ _ _ _ _ Hf _ _ Hz) as (i & -> & Hlt). rewrite Hz in Hv. subst rv.
    destruct (lookup_lt_is_Some_2 ls i) as [y Hy]; [rewrite (fo_len _ _ _ _ _ _ _ Hf); lia|].
    eexists. split; [by eapply op_StoreLocal|]. split; [unfold spent, tick; simpl; split; [lia|done]|].
    eexists _, _. split; [done|]. split; [by apply holds_tick|]. by apply frame_write.
  - destruct (gvars s !! x) as [w|] eqn:Eg; [|done]. injection Hr as _ <-.
    assert (E !! x = None) as HE. { apply eq_None_not_Some. intros Hx. apply (fo_dom _ _ _ _ _ _ _ Hf) in Hx. rewrite El in Hx. by destruct Hx. }
    rewrite HE in Hv. destruct (h_obj _ _ _ Hw) as (ob & Ho & Hp & Hfile & Hd & Hval).
    destruct (Hval _ _ Eg) as (_ & i & Hx & Hi'). rewrite Hx in Hv. subst rv.
    eexists. split; [by eapply op_StoreObjectVar|]. split; [apply spent_tick|].
    eexists _, _. split; [done|]. split; [|done]. apply holds_setVar; [by apply holds_tick|done|by eexists|done].
Qed.
Lemma goes_read x rv : resolves (w_vars W) E x rv -> ins C pc (pushOp rv) (slot rv) ->
  goes (at_ pc st E n k s) (readVar x s) (fun v s1 c => scalar v = true /\ at_ (pc + 1) (v :: st) E n k s1 c).
Proof.
  intros Hv Hi. destruct (readVar x s) as [[v|e|?|] s1] eqn:Er; try done.
  - apply goes_moves. by eapply mv_read.
  - unfold readVar in Er. destruct (lvars s !! x) as [[?|]|]; try done. by destruct (gvars s !! x).
Qed.
Lemma goes_write x v rv : resolves (w_vars W) E x rv -> ins C pc (storeOp rv) (slot rv) -> scalar v = true ->
  goes (at_ pc (v :: st) E n k s) (writeVar x v s) (fun _ s1 c => at_ (pc + 1) st E n k s1 c).
Proof.
  intros Hv Hi Hs. destruct (writeVar x v s) as [[u|e|?|] s1] eqn:Er; try done.
  - apply goes_moves. by eapply mv_write.
  - unfold writeVar in Er. destruct (lvars s !! x); [done|]. by destruct (gvars s !! x).
Qed.
End Code.
End Triples.
