(* ===== verification/CallSteps.v ===== *)
(** * CallSteps: how the VM calls a function of the file

    The [Call] opcode finds a function of the program itself before anything
    else, and [VM::run] starts it on a fresh frame whose locals are the
    arguments and the default value. *)
From S2P Require Import Prelude CLib Double Value Bytecode Lookup Machine Sscanf Exec ExecIndex Calls VM Ast CodeGen Semantics CodeShape CodeShapeStatic Simulation Triple.
Local Open Scope nat_scope.

(** ** The first frame *)
Section Params.
Context (d : Value).
Lemma params_dom ps : forall m args x, is_Some (bindParams d ps args !! x) <-> is_Some (param_env ps m !! x).
Proof.
  induction ps as [|p ps IH]; intros m args x; simpl.
  - rewrite !lookup_empty. done.
  - destruct (String.eqb (pname p) ""); [apply IH|]. rewrite !lookup_insert_is_Some, (IH (S m)). done.
Qed.
Lemma params_slot ps : forall m x z, param_env ps m !! x = Some z -> exists i, z = Z.of_nat i /\ m <= i < m + length ps.
Proof.
  induction ps as [|p ps IH]; intros m x z H; simpl in *; [by rewrite lookup_empty in H|].
  destruct (String.eqb (pname p) "").
  - apply IH in H as (i & -> & Hi). exists i. split; [done|lia].
  - destruct (decide (pname p = x)) as [<-|Hne].
    + rewrite lookup_insert_eq in H. injection H as <-. exists m. split; [done|lia].
    + rewrite lookup_insert_ne in H by done. apply IH in H as (i & -> & Hi). exists i. split; [done|lia].
Qed.
Lemma params_inj ps : forall m x y z, param_env ps m !! x = Some z -> param_env ps m !! y = Some z -> x = y.
Proof.
  induction ps as [|p ps IH]; intros m x y z Hx Hy; simpl in *; [by rewrite lookup_empty in Hx|].
  destruct (String.eqb (pname p) ""); [by eapply IH|].
  destruct (decide (pname p = x)) as [<-|Hnx], (decide (pname p = y)) as [<-|Hny]; try done.
  - rewrite lookup_insert_eq in Hx. rewrite lookup_insert_ne in Hy by done. apply params_slot in Hy as (i & -> & Hi).
    injection Hx as Hx. lia.
  - rewrite lookup_insert_eq in Hy. rewrite lookup_insert_ne in Hx by done. apply params_slot in Hx as (i & -> & Hi).
    injection Hy as Hy. lia.
  - rewrite lookup_insert_ne in Hx by done. rewrite lookup_insert_ne in Hy by done. by eapply IH.
Qed.
Lemma params_val ps : forall m args x i v, param_env ps m !! x = Some (Z.of_nat i) -> bindParams d ps args !! x = Some (Some v) ->
  v = nth (i - m) args d.
Proof.
  induction ps as [|p ps IH]; intros m args x i v Hx Hv; simpl in *; [by rewrite lookup_empty in Hx|].
  assert (forall m', param_env ps (S m) !! x = Some (Z.of_nat m') -> nth (m' - S m) (tl args) d = nth (m' - m) args d) as Hstep.
  { intros m' Hm. apply params_slot in Hm as (j & Hj & Hlt). assert (j = m') as -> by lia.
    replace (m' - m) with (S (m' - S m)) by lia. destruct args; simpl; [by destruct (m' - S m)|done]. }
  destruct (String.eqb (pname p) "").
  - rewrite (IH _ _ _ _ _ Hx Hv). by apply Hstep.
  - destruct (decide (pname p = x)) as [<-|Hne].
    + rewrite lookup_insert_eq in Hx. rewrite lookup_insert_eq in Hv. injection Hv as <-. injection Hx as Hx. replace (i - m) with 0 by lia. by destruct args.
    + rewrite lookup_insert_ne in Hx by done. rewrite lookup_insert_ne in Hv by done.
      rewrite (IH _ _ _ _ _ Hx Hv). by apply Hstep.
Qed.
Lemma first_frame L ps args : length args <= length ps -> length ps <= L -> forallb scalar args = true -> scalar d = true ->
  frame_ok L d (param_env ps 0) (length ps) (length ps) (bindParams d ps args)
    (bindArgs (length args) args (replicate L d)).
Proof.
  intros Ha Hp Hs Hd. unfold bindArgs. rewrite length_replicate.
  replace (Nat.min (length args) (Nat.min (length args) L)) with (length args) by lia.
  rewrite firstn_all, drop_replicate.
  assert (forall i, i < L -> (args ++ replicate (L - length args) d) !! i = Some (nth i args d)) as Hat.
  { intros i Hi. destruct (decide (i < length args)) as [Hlt|Hge].
    - rewrite lookup_app_l by done. destruct (lookup_lt_is_Some_2 args i Hlt) as [v Hv]. rewrite Hv. f_equal. symmetry.
      by apply nth_lookup_Some.
    - rewrite lookup_app_r by lia. rewrite nth_overflow by lia. apply lookup_replicate. split; [done|lia]. }
  split.
  - rewrite length_app, length_replicate. lia.
  - intros x. apply params_dom.
  - intros x z Hz. apply params_slot in Hz as (i & -> & Hi). exists i. split; [done|lia].
  - intros x y z. apply params_inj.
  - intros x i v Hx Hv. pose proof (params_slot _ _ _ _ Hx) as (j & Hj & Hlt). assert (j = i) as -> by lia.
    rewrite (params_val _ _ _ _ _ _ Hx Hv), Nat.sub_0_r. split; [apply Hat; lia|].
    rewrite forallb_forall in Hs. destruct (decide (i < length args)); [by apply Hs, nth_In|by rewrite nth_overflow by lia].
  - done.
  - intros i Hi. rewrite Hat by lia. by rewrite nth_overflow by lia.
Qed.
End Params.

(** ** Finding the function *)
Section Found.
Context (W : World) (P : Program).
Let prg := w_prg W.

(** The first function of the name that has a body. *)
Lemma found_decl C pool vars name fd : forall fds fns, code_functions C pool vars fds fns ->
  List.find (hasBody name) fds = Some fd ->
  exists body fn, fd_body fd = Some body /\ fd ∈ fds /\ code_function C pool vars fd body fn /\ fname fn = name /\
    List.find (fun fn => String.eqb (fname fn) name) fns = Some fn.
Proof.
  induction fds as [|fd' fds IH]; intros fns H Hf; [done|]. simpl in *. unfold hasBody at 1 in Hf.
  destruct (fd_body fd') as [body|] eqn:Eb.
  - destruct H as (fn & fns' & -> & H1 & H2). simpl.
    assert (fname fn = fd_name fd') as En by (destruct H1 as (pc & n' & _ & _ & E & _); exact E). rewrite En.
    destruct (String.eqb_spec (fd_name fd') name) as [Hn|Hn]; simpl in Hf.
    + injection Hf as <-. exists body, fn. split_and!; try done; [by left|congruence].
    + destruct (IH _ H2 Hf) as (b & f & E1 & E2 & E3 & E4 & E5). exists b, f. split_and!; try done. by right.
  - rewrite andb_false_r in Hf. destruct (IH _ H Hf) as (b & f & E1 & E2 & E3 & E4 & E5). exists b, f. split_and!; try done. by right.
Qed.

Definition same_cost (v v' : VMState) : Prop := evalCost v' = evalCost v /\ maxEvalCost v' = maxEvalCost v.
Lemma lookup_own gv v name fn : holds W gv v -> ownFunction prg name = Some fn ->
  exists v', lookupFunction (w_pid W) name v = (Ok (Some (w_pid W, fn)), v') /\ holds W gv v' /\ same_cost v v'.
Proof.
  intros [H1 H2 H3 H4] Ho. unfold lookupFunction, onCache, lookupFuel. simpl. unfold mbind, mgets. 
  destruct (functionChainCache v !! (w_pid W, name)) as [r|] eqn:Ec.
  - assert (r = Some (w_pid W, fn)) as ->.
    { eapply Resolves_det; [by apply H4|]. constructor. by rewrite H1. }
    eexists. split; [reflexivity|]. split; [by split|done].
  - rewrite H1. fold prg. rewrite Ho. eexists. split; [reflexivity|]. split; [|done]. split; try done. simpl.
    apply cache_ok_emplace; [done|]. constructor. by rewrite H1.
Qed.
End Found.

(** ** The opcode *)
Section CallOpcode.
Context {EF : EfunTable} (ticks : nat -> Z) (W : World) (fn : FunctionEntry).
Let prg := w_prg W.

Lemma callArgs_ok i what v ls st pc vs : argCount i = Z.of_nat (length vs) -> (Z.of_nat (length vs) < 2 ^ 31)%Z ->
  callArgs i what (conf v ls (rev vs ++ st) pc) = (Ok vs, conf v ls st pc).
Proof.
  intros Ha Hn. unfold callArgs, effectiveArgCount, stackSize, guard, takeArgs, getFr, modFr, mgets, mmodify, lift, mlift, error, mbind.
  rewrite Ha. simpl.
  assert (checked32 (E := exn) (Z.of_nat (length vs) + wrap32 0) = Ok (Z.of_nat (length vs))) as E.
  { unfold checked32. change (wrap32 0) with 0%Z. rewrite Z.add_0_r.
    replace (in_int32 (Z.of_nat (length vs))) with true by (symmetry; unfold in_int32; lia). done. }
  simpl. rewrite E.
  assert (argsInRange (Z.of_nat (length vs)) (length (rev vs ++ st)) = true) as Er.
  { unfold argsInRange. rewrite length_app, length_rev. apply negb_true_iff, orb_false_iff.
    split; apply Z.ltb_ge; lia. }
  simpl. rewrite Er, Nat2Z.id. simpl. rewrite <- (length_rev vs), take_app_length, drop_app_length, rev_involutive. done.
Qed.
Lemma dispatch_Call f i i' name vs callee v v' v3 ls st pc (res : outcome exn Value) :
  stringPool prg !! i = Some name -> (Z.of_nat i < 2 ^ 31)%Z -> i' = mkInstr Call (int_of i) (int_of (length vs)) ->
  (Z.of_nat (length vs) < 2 ^ 31)%Z -> programOf v (w_obj W) = w_pid W ->
  lookupFunction (w_pid W) name v = (Ok (Some (w_pid W, callee)), v') ->
  run_with (loop ticks f) (w_pid W) callee vs (w_obj W) (pushOrigin Local v') = (res, v3) ->
  dispatch ticks (mkOps (run_with (loop ticks f)) f ticks) (ctx_of W fn) prg i' (conf v ls (rev vs ++ st) pc) =
    match res with
    | Ok r => (Ok Continue, conf (popOrigin v3) ls (r :: st) (S pc))
    | Throw e => (Throw e, conf (popOrigin v3) ls st pc)
    | Undefined w => (Undefined w, conf (popOrigin v3) ls st pc)
    | OutOfFuel => (OutOfFuel, conf (popOrigin v3) ls st pc)
    end.
Proof.
  intros Hi Hn -> Hv Hp Hl Hr. unfold dispatch. cbn [op]. unfold exec_Call. cbn [operand].
  rewrite int_of_below, pool_at, Hi by done.
  unfold mbind at 1. rewrite callArgs_ok by (try done; cbn [argCount]; by apply int_of_below).
  unfold mbind at 1, onVM. cbn [vm conf]. unfold resolveCall. unfold mbind at 1, mgets. cbn [rc_obj ctx_of]. rewrite Hp.
  unfold mbind at 1. rewrite Hl. unfold withOrigin, mfinally. cbn [op_run].
  rewrite Hr. destruct res; reflexivity.
Qed.

(** ** A run *)
Lemma holds_enter gv v o : holds W gv v -> holds W gv (enterFrame o v).
Proof. apply holds_same. unfold enterFrame. by destruct (objectChanged o v). Qed.
Lemma holds_leave gv v b : holds W gv v -> holds W gv (leaveFrame b v).
Proof. apply holds_same. unfold leaveFrame. by destruct b. Qed.
Lemma cost_enter v o : same_cost v (enterFrame o v).
Proof. unfold enterFrame. by destruct (objectChanged o v). Qed.
Lemma cost_leave v b : same_cost v (leaveFrame b v).
Proof. unfold leaveFrame. by destruct b. Qed.
Lemma holds_programOf gv v : holds W gv v -> programOf v (w_obj W) = w_pid W.
Proof. intros H. destruct (h_obj _ _ _ H) as (ob & Ho & Hp & _). unfold programOf, getOb. by rewrite Ho. Qed.

Lemma run_with_starts f gv v callee vs : holds W gv v -> isVarargs callee = false ->
  run_with (loop ticks f) (w_pid W) callee vs (w_obj W) v =
    let '(r, rs) := loop ticks f (ctx_of W callee)
      (conf (enterFrame (Some (w_obj W)) v) (bindArgs (length vs) vs (replicate (numLocals callee) (w_default W))) [] (entryPoint callee)) in
    (r, leaveFrame (objectChanged (Some (w_obj W)) v) (vm rs)).
Proof.
  intros Hw Hv. pose proof (holds_enter _ _ (Some (w_obj W)) Hw) as He. unfold run_with, withObjectFrame, mfinally, liftS, mbind.
  unfold objectVarBaseOf. rewrite (holds_programOf _ _ He), decide_True by done.
  unfold bindLocals. rewrite Hv. cbn [andb].
  change (if (cfg_dialect (config (enterFrame (Some (w_obj W)) v)) =? "fluffos")%string then makeUndefinedNumber else VInt 0)
    with (defaultOf (enterFrame (Some (w_obj W)) v)). rewrite (h_default _ _ _ He).
  change (mkRun (enterFrame (Some (w_obj W)) v) (initialFrame callee (bindArgs (length vs) vs (replicate (numLocals callee) (w_default W)))))
    with (conf (enterFrame (Some (w_obj W)) v) (bindArgs (length vs) vs (replicate (numLocals callee) (w_default W))) [] (entryPoint callee)).
  unfold ctx_of. by destruct (loop ticks f _ _).
Qed.
Definition start (callee : FunctionEntry) (vs : list Value) (v : VMState) : RunState :=
  conf (enterFrame (Some (w_obj W)) v) (bindArgs (length vs) vs (replicate (numLocals callee) (w_default W))) [] (entryPoint callee).
Lemma run_ends gv v callee vs o s : holds W gv v -> isVarargs callee = false -> ends ticks W callee (start callee vs v) o s ->
  exists k, forall f, k <= f ->
    run_with (loop ticks f) (w_pid W) callee vs (w_obj W) v = (o, leaveFrame (objectChanged (Some (w_obj W)) v) (vm s)).
Proof.
  intros Hw Hv [m He]. exists m. intros f Hf. rewrite (run_with_starts _ gv) by done. unfold start in He. by rewrite He.
Qed.
End CallOpcode.
