(* ===== verification/Refinement.v ===== *)
(** * Refinement: the VM runs compiled code as the source means it

    By induction on the fuel of the interpreter of Semantics.v: every rule of
    [evalRule] and [execRule] is followed by the code CodeShape.v describes.
    [sim_expr] and [sim_stmt] are the invariants of that induction.  The last
    theorem composes them with CodeShapeProgram.v: what the code generator
    emits for a supported program refines the program. *)
From S2P Require Import Prelude CLib Double Value Bytecode Lookup Machine Sscanf Exec ExecIndex Calls VM Ast CodeGen Semantics CodeShape CodeShapeStatic CodeShapeFacts CodeShapeProgram Simulation Triple CallSteps.
Local Open Scope nat_scope.

Section Refinement.
Context {EF : EfunTable} (ticks : nat -> Z) (W : World) (P : Program).
Let prg := w_prg W.
Let C := code prg.
Let pool := stringPool prg.
Let vars := w_vars W.
Let dflt := w_default W.
Let file := w_file W.

Context (HC : (Z.of_nat (length C) < 2 ^ 31)%Z) (Hpool : (Z.of_nat (length pool) < 2 ^ 31)%Z).
Context (HV : forall x y z, vars !! x = Some z -> vars !! y = Some z -> x = y).

Context (Hfuns : code_functions C pool vars (pg_functions P) (functions prg)).
Context (Hsup : forallb supported_function (pg_functions P) = true).
Context (Hframe : forall fd, fd ∈ pg_functions P -> frame_size fd <= 255).

Definition valued (fn : FunctionEntry) (L pc : nat) (st : list Value) (E : env) (n k : nat)
    (v : Value) (s : Store) (c : RunState) : Prop :=
  scalar v = true /\ at_ W L pc (v :: st) E n k s c.
Definition sim_expr (ev : AstNode -> I Value) : Prop := forall fn L e E n k pc pc' st s,
  supported_expr e = true -> code_expr C pool vars E e pc pc' -> n <= L ->
  goes ticks W fn (at_ W L pc st E n k s) (ev e s) (valued fn L pc' st E n k).

(** [R]: what is known of the variables in scope where a statement jumps. *)
Definition flowed (L : nat) (R : env -> Prop) (E' : env) (n' k' pc' : nat) (B K : list nat) (fl : flow) (s : Store) (c : RunState) : Prop :=
  match fl with
  | Normal => at_ W L pc' [] E' n' k' s c
  | Broke => exists j E2, j ∈ B /\ R E2 /\ at_ W L j [] E2 n' k' s c
  | Continued => exists j E2, j ∈ K /\ R E2 /\ at_ W L j [] E2 n' k' s c
  | Ret v => exists j E2 st, ins C j Return 0 /\ R E2 /\ scalar v = true /\ v = nthV 0 st /\ at_ W L j st E2 n' k' s c
  end.
Definition sim_stmt (ex : AstNode -> I flow) : Prop := forall fn L x E n k pc pc' E' n' B K inLoop s,
  supported_stmt inLoop x = true -> code_stmt C pool vars x E n pc pc' E' n' B K -> n' <= L -> inLoop = true \/ k = n ->
  pc <= length C ->
  goes ticks W fn (at_ W L pc [] E n k s) (ex x s) (flowed L (subseteq E) E' n' (Nat.max k n') pc' B K).

(** ** Expressions *)
Section Rules.
Context (ev : AstNode -> I Value) (ex : AstNode -> I flow) (HE : sim_expr ev) (HX : sim_stmt ex).
Context (fn : FunctionEntry) (L : nat).

(** [step] runs one instruction; [sub] a sub-expression. *)
Ltac step l := eapply goes_step; [eapply l; try eassumption|]; rewrite <- ?Nat.add_assoc; cbn [Nat.add].
Ltac sub := eapply goes_bind; [eapply HE; eassumption|]; intros ? ? _; apply goes_pure; intros ?.
Ltac bnd := unfold C, prg in *; lia.
Ltac stop := apply goes_ret; intros ? ?; split; [try assumption; try reflexivity|].

Lemma sound_ternary c t f E n k pc pc' st s : supported_expr (TernaryExpr c t f) = true ->
  code_expr C pool vars E (TernaryExpr c t f) pc pc' -> n <= L ->
  goes ticks W fn (at_ W L pc st E n k s) (evalRule P dflt file ev ex (TernaryExpr c t f) s) (valued fn L pc' st E n k).
Proof.
  intros Hs (p & q & H1 & H2 & H3 & H4 & H5) Hn. simpl in Hs. rewrite !andb_true_iff in Hs. destruct Hs as [[Hc Ht] Hf].
  pose proof (all_extent _ _ _ _ _ _ _ H3). pose proof (all_extent _ _ _ _ _ _ _ H5). simpl. sub.
  eapply goes_step; [eapply mv_JumpIfFalse; [done|exact H2|bnd]|].
  destruct (isTruthy a).
  - eapply goes_then; [eapply HE; eassumption|]. intros v. left. apply moves_pure. intros Hv.
    eapply moves_post; [eapply mv_Jump; [done|exact H4|bnd]|]. done.
  - by eapply HE.
Qed.
Lemma sound_or l r E n k pc pc' st s : supported_expr (BinaryExpr BinOp.Or l r) = true ->
  code_expr C pool vars E (BinaryExpr BinOp.Or l r) pc pc' -> n <= L ->
  goes ticks W fn (at_ W L pc st E n k s) (evalRule P dflt file ev ex (BinaryExpr BinOp.Or l r) s) (valued fn L pc' st E n k).
Proof.
  intros Hs (p & H1 & H2 & H3 & H4 & H5 & H6) Hn. simpl in Hs. rewrite !andb_true_iff in Hs. destruct Hs as [Hl Hr].
  pose proof (all_extent _ _ _ _ _ _ _ H6). simpl. sub. step mv_Dup.
  eapply goes_step; [eapply mv_JumpIfFalse; [done|exact H3|bnd]|].
  destruct (isTruthy a); rewrite <- ?Nat.add_assoc; cbn [Nat.add].
  - eapply goes_step; [eapply mv_Jump; [done|exact H4|bnd]|]. stop. done.
  - step mv_Pop. by eapply HE.
Qed.
Lemma sound_and l r E n k pc pc' st s : supported_expr (BinaryExpr BinOp.And l r) = true ->
  code_expr C pool vars E (BinaryExpr BinOp.And l r) pc pc' -> n <= L ->
  goes ticks W fn (at_ W L pc st E n k s) (evalRule P dflt file ev ex (BinaryExpr BinOp.And l r) s) (valued fn L pc' st E n k).
Proof.
  intros Hs (p & H1 & H2 & H3 & H4 & H5) Hn. simpl in Hs. rewrite !andb_true_iff in Hs. destruct Hs as [Hl Hr].
  pose proof (all_extent _ _ _ _ _ _ _ H5). simpl. sub. step mv_Dup.
  eapply goes_step; [eapply mv_JumpIfFalse; [done|exact H3|bnd]|].
  destruct (isTruthy a); rewrite <- ?Nat.add_assoc; cbn [Nat.add].
  - step mv_Pop. by eapply HE.
  - stop. done.
Qed.
Lemma sound_binary o l r E n k pc pc' st s : o <> BinOp.Or -> o <> BinOp.And -> supported_expr (BinaryExpr o l r) = true ->
  code_expr C pool vars E (BinaryExpr o l r) pc pc' -> n <= L ->
  goes ticks W fn (at_ W L pc st E n k s) (evalRule P dflt file ev ex (BinaryExpr o l r) s) (valued fn L pc' st E n k).
Proof.
  intros Ho1 Ho2 Hs H Hn. simpl in Hs. rewrite !andb_true_iff in Hs. destruct Hs as [Hl Hr].
  assert (exists p p' op, code_expr C pool vars E l pc p /\ code_expr C pool vars E r p p' /\ binaryOp o = Some op /\
    ins C p' op 0 /\ pc' = p' + 1) as (p & p' & op & H1 & H2 & H3 & H4 & ->) by by destruct o.
  assert (evalRule P dflt file ev ex (BinaryExpr o l r) = (a <- ev l ;; b <- ev r ;; mlift (binop o a b))) as -> by by destruct o.
  sub. sub. by eapply goes_binop.
Qed.
Lemma sound_unary o x E n k pc pc' st s : supported_expr (UnaryExpr o x) = true ->
  code_expr C pool vars E (UnaryExpr o x) pc pc' -> n <= L ->
  goes ticks W fn (at_ W L pc st E n k s) (evalRule P dflt file ev ex (UnaryExpr o x) s) (valued fn L pc' st E n k).
Proof.
  intros Hs H Hn. simpl in Hs, H. unfold code_unary in H. destruct o; simpl.
  - destruct H as (p & H1 & H2 & ->). sub. step mv_Not. stop. done.
  - destruct H as (p & H1 & H2 & H3 & ->). step mv_PushInt. sub. by eapply (goes_binop _ _ _ _ _ _ _ _ _ _ BinOp.Sub).
  - destruct H as (p & H1 & H2 & ->). sub. by eapply goes_complement.
Qed.
Lemma sound_comma l r E n k pc pc' st s : supported_expr (CommaExpr l r) = true ->
  code_expr C pool vars E (CommaExpr l r) pc pc' -> n <= L ->
  goes ticks W fn (at_ W L pc st E n k s) (evalRule P dflt file ev ex (CommaExpr l r) s) (valued fn L pc' st E n k).
Proof.
  intros Hs (p & H1 & H2 & H3) Hn. simpl in Hs. rewrite !andb_true_iff in Hs. destruct Hs as [Hl Hr]. simpl.
  sub. step mv_Pop. by eapply HE.
Qed.
Lemma compound_binary o op : compoundOpcode o = Some op -> binaryOp o = Some op.
Proof. by destruct o. Qed.
Lemma sound_assign x value c o E n k pc pc' st s : supported_expr (AssignExpr x value c o) = true ->
  code_expr C pool vars E (AssignExpr x value c o) pc pc' -> n <= L ->
  goes ticks W fn (at_ W L pc st E n k s) (evalRule P dflt file ev ex (AssignExpr x value c o) s) (valued fn L pc' st E n k).
Proof.
  intros Hs (rv & Hrv & p & Hv & H1 & H2 & ->) Hn. simpl in Hs. simpl. unfold evalAssign.
  eapply (goes_bind _ _ _ _ _ _ _ (valued fn L p st E n k)).
  - destruct c.
    + destruct Hv as (q & op & V1 & V2 & V3 & V4 & ->).
      eapply goes_bind; [by eapply goes_read|]. intros old s1 _. apply goes_pure. intros Hold. sub.
      eapply goes_binop; try done. by apply compound_binary.
    + by eapply HE.
  - intros v s1 _. apply goes_pure. intros Hv'. step mv_Dup.
    eapply goes_bind; [by eapply goes_write|]. intros u s2 _. rewrite <- Nat.add_assoc. by stop.
Qed.
Lemma sound_incdec o prefix x key col E n k pc pc' st s :
  code_expr C pool vars E (IncDecExpr o prefix x None key col) pc pc' -> n <= L ->
  goes ticks W fn (at_ W L pc st E n k s) (evalRule P dflt file ev ex (IncDecExpr o prefix x None key col) s) (valued fn L pc' st E n k).
Proof.
  intros (rv & Hrv & H1 & H2 & H3 & ->) Hn. simpl. unfold evalIncDec.
  assert (binaryOp match o with IncDecOp.Inc => BinOp.Add | IncDecOp.Dec => BinOp.Sub end = Some (deltaOpcode o)) as Ho by by destruct o.
  eapply goes_bind; [by eapply goes_read|]. intros old s1 _. apply goes_pure. intros Hold. destruct prefix.
  - destruct H2 as (H4 & H5 & H6). step mv_PushInt. eapply goes_bind; [by eapply goes_binop|]. intros new s2 _.
    apply goes_pure. intros Hnew. rewrite <- Nat.add_assoc. step mv_Dup.
    eapply goes_bind; [by eapply goes_write|]. intros u s3 _. rewrite <- Nat.add_assoc. by stop.
  - destruct H2 as (H4 & H5 & H6). step mv_Dup. step mv_PushInt. eapply goes_bind; [by eapply goes_binop|]. intros new s2 _.
    apply goes_pure. intros Hnew. rewrite <- Nat.add_assoc. 
    eapply goes_bind; [by eapply goes_write|]. intros u s3 _. rewrite <- Nat.add_assoc. by stop.
Qed.
Lemma sound_leaf e E n k pc pc' st s : match e with IntLiteral _ | StringLiteral _ | VarRefExpr _ => True | _ => False end ->
  code_expr C pool vars E e pc pc' -> n <= L ->
  goes ticks W fn (at_ W L pc st E n k s) (evalRule P dflt file ev ex e s) (valued fn L pc' st E n k).
Proof.
  intros He H Hn. destruct e; try done; simpl in H; simpl.
  - destruct H as (i & Hi & H & ->). step mv_PushConst. by stop.
  - destruct H as (H & ->). step mv_PushInt. by stop.
  - destruct H as (rv & Hrv & H & ->). by eapply goes_read.
Qed.

(** ** Statements *)
Lemma flowed_jump R R' E1 E' n1 n' k1 k' pc1 pc' B K B' K' fl s c : fl <> Normal -> flowed L R E1 n1 k1 pc1 B K fl s c ->
  (forall E2, R E2 -> R' E2) -> n1 <= n' -> n' <= k' -> k1 <= k' -> (forall j, j ∈ B -> j ∈ B') -> (forall j, j ∈ K -> j ∈ K') ->
  flowed L R' E' n' k' pc' B' K' fl s c.
Proof.
  intros Hfl H HR H1 H2 H3 HB HK. destruct fl; try done; simpl in *.
  - destruct H as (j & E2 & Hj & HR2 & Ha). exists j, E2. split_and!; auto. by eapply at_weaken.
  - destruct H as (j & E2 & Hj & HR2 & Ha). exists j, E2. split_and!; auto. by eapply at_weaken.
  - destruct H as (j & E2 & st & Hj & HR2 & Hv & Hn & Ha). exists j, E2, st. split_and!; auto. by eapply at_weaken.
Qed.
Lemma sound_all ss : forall E n k pc pc' E' n' B K inLoop s,
  forallb (supported_stmt inLoop) ss = true -> code_stmts (code_stmt C pool vars) ss E n pc pc' E' n' B K -> n' <= L ->
  inLoop = true \/ k = n -> pc <= length C ->
  goes ticks W fn (at_ W L pc [] E n k s) (execAll ex ss s) (flowed L (subseteq E) E' n' (Nat.max k n') pc' B K).
Proof.
  induction ss as [|x ss IH]; intros E n k pc pc' E' n' B K inLoop s Hs H Hn Hk Hpc; simpl in Hs, H.
  - destruct H as (-> & -> & -> & -> & ->). simpl. apply goes_ret. intros c Hc. simpl.
    destruct Hc as (v & ls & -> & Hw & Hf). exists v, ls. split_and!; try done.
    pose proof (fo_le _ _ _ _ _ _ _ Hf). eapply frame_weaken; [done|lia..].
  - apply andb_true_iff in Hs as [Hs1 Hs2]. destruct H as (p & E1 & n1 & B1 & K1 & B2 & K2 & H1 & H2 & -> & ->).
    destruct (all_stmt_extent _ _ _ _ _ _ _ _ _ _ _ _ H1) as (X1 & X2 & X3 & X4).
    destruct (extent_stmts _ _ _ _ (forall_extent _ _ _ ss) _ _ _ _ _ _ _ _ H2) as (X5 & X6 & X7 & X8).
    simpl. eapply goes_bind; [eapply HX; try eassumption; lia|]. intros fl s1 _.
    destruct (decide (fl = Normal)) as [->|Hfl].
    + eapply goes_post; [|eapply IH; try eassumption; [|tauto]].
      * intros fl s2 c Hc. destruct (decide (fl = Normal)) as [->|Hfl].
        -- simpl in *. replace (Nat.max k n') with (Nat.max (Nat.max k n1) n') by lia. exact Hc.
        -- eapply flowed_jump; [done|exact Hc| |lia|lia|lia| |].
           ++ intros E2 HE2. by etrans.
           ++ intros j Hj. apply elem_of_app. by right.
           ++ intros j Hj. apply elem_of_app. by right.
      * destruct Hk as [?| ->]; [by left|right; lia].
    + replace (match fl with Normal => _ | _ => _ end s1) with ((Ok fl, s1) : outcome exn flow * Store) by by destruct fl.
      apply goes_ret. intros c Hc. eapply flowed_jump; [done|exact Hc|done|lia|lia|lia| |];
        intros j Hj; apply elem_of_app; by left.
Qed.
Lemma goes_scoped (m : I flow) pc E E' n k n' k' pc' B K s : E ⊆ E' ->
  goes ticks W fn (at_ W L pc [] E n k s) (m s) (flowed L (subseteq E) E' n' k' pc' B K) ->
  goes ticks W fn (at_ W L pc [] E n k s) (scoped m s) (flowed L (eq E) E n' k' pc' B K).
Proof.
  intros HEE' H. eapply (goes_known _ _ _ (dom (lvars s) = dom E)); [intros c; apply at_dom|]. intros Hd.
  unfold scoped, mgets. unfold mbind at 1.
  eapply goes_bind; [exact H|]. intros fl s1 _. unfold mbind, mmodify, mret. apply goes_ret. intros c Hc.
  destruct fl; simpl in *.
  - by eapply at_leave.
  - destruct Hc as (j & E2 & Hj & HR & Ha). exists j, E. split_and!; try done. by eapply at_leave.
  - destruct Hc as (j & E2 & Hj & HR & Ha). exists j, E. split_and!; try done. by eapply at_leave.
  - destruct Hc as (j & E2 & st & Hj & HR & Hv & Hn & Ha). exists j, E, st. split_and!; try done. by eapply at_leave.
Qed.
Lemma sound_block b E n k pc pc' n' B K inLoop s :
  forallb (supported_stmt inLoop) (statements b) = true ->
  code_block (code_stmt C pool vars) (statements b) E n pc pc' n' B K -> n' <= L ->
  inLoop = true \/ k = n -> pc <= length C ->
  goes ticks W fn (at_ W L pc [] E n k s) (execBlock ex b s) (flowed L (eq E) E n' (Nat.max k n') pc' B K).
Proof.
  intros Hs [E' H] Hn Hk Hpc. eapply goes_scoped; [|by eapply sound_all].
  destruct (extent_stmts _ _ _ _ (forall_extent _ _ _ (statements b)) _ _ _ _ _ _ _ _ H). tauto.
Qed.
Lemma at_max pc st E n k s c : at_ W L pc st E n k s c -> at_ W L pc st E n (Nat.max k n) s c.
Proof.
  intros (v & ls & -> & Hw & Hf). exists v, ls. split_and!; try done. pose proof (fo_le _ _ _ _ _ _ _ Hf).
  eapply frame_weaken; [done|lia..].
Qed.
(** What a statement rule has to show. *)
Definition sound (x : AstNode) : Prop := forall E n k pc pc' E' n' B K inLoop s,
  supported_stmt inLoop x = true -> code_stmt C pool vars x E n pc pc' E' n' B K -> n' <= L -> inLoop = true \/ k = n ->
  pc <= length C ->
  goes ticks W fn (at_ W L pc [] E n k s) (execRule dflt ev ex x s) (flowed L (subseteq E) E' n' (Nat.max k n') pc' B K).

Lemma sound_expr_stmt e : sound (ExprStmt e).
Proof.
  intros E n k pc pc' E' n' B K inLoop s Hs (p & H1 & H2 & -> & -> & -> & -> & ->) Hn Hk Hpc. simpl in *. sub. step mv_Pop.
  apply goes_ret. intros c Hc. by apply at_max.
Qed.
Lemma sound_return e : sound (ReturnStmt e).
Proof.
  intros E n k pc pc' E' n' B K inLoop s Hs (p & H1 & H2 & -> & -> & -> & -> & ->) Hn Hk Hpc. destruct e as [e|]; simpl in *.
  - sub. apply goes_ret. intros c Hc. exists p, E, [a]. split_and!; try done. by apply at_max.
  - subst p. apply goes_ret. intros c Hc. exists pc, E, []. split_and!; try done. by apply at_max.
Qed.
Lemma sound_assign_stmt x e : sound (AssignStmt x e).
Proof.
  intros E n k pc pc' E' n' B K inLoop s Hs (v & p & Hv & H1 & H2 & -> & -> & -> & -> & ->) Hn Hk Hpc. simpl in *. sub.
  eapply goes_bind; [by eapply goes_write|]. intros u s2 _. apply goes_ret. intros c Hc. by apply at_max.
Qed.
Lemma sound_break : sound BreakStmt.
Proof.
  intros E n k pc pc' E' n' B K inLoop s Hs ([a H1] & -> & -> & -> & -> & ->) Hn Hk Hpc. simpl in *.
  apply goes_ret. intros c Hc. exists pc, E. split_and!; [by left|done|by apply at_max].
Qed.
Lemma sound_continue : sound ContinueStmt.
Proof.
  intros E n k pc pc' E' n' B K inLoop s Hs ([a H1] & -> & -> & -> & -> & ->) Hn Hk Hpc. simpl in *.
  apply goes_ret. intros c Hc. exists pc, E. split_and!; [by left|done|by apply at_max].
Qed.
Lemma flowed_block R E n' k' pc' B K fl s c : flowed L (eq E) E n' k' pc' B K fl s c -> R E ->
  flowed L R E n' k' pc' B K fl s c.
Proof.
  intros H HR. destruct fl; simpl in *; try done; naive_solver.
Qed.
Lemma sound_block_stmt b : sound (BlockStmt b).
Proof.
  intros E n k pc pc' E' n' B K inLoop s Hs H Hn Hk Hpc. destruct b as [ss real]. simpl in *. destruct real.
  - destruct H as [H ->]. eapply goes_post; [|by eapply sound_block]. intros fl s1 c Hc. by eapply flowed_block.
  - by eapply sound_all.
Qed.
(** *** Declarations *)
Lemma holds_default gv v : holds W gv v -> scalar dflt = true.
Proof. intros H. unfold dflt. rewrite <- (h_default _ _ _ H). unfold defaultOf. by destruct (String.eqb _ _). Qed.
Lemma at_declare x pc st E n k s c : at_ W L pc st E n k s c -> E !! x = None ->
  at_ W L pc st (<[x := Z.of_nat n]> E) (n + 1) (Nat.max k (n + 1)) (s <| lvars ::= <[x := None]> |>) c.
Proof. intros (v & ls & -> & Hw & Hf) Hx. exists v, ls. split_and!; try done. by apply frame_declare. Qed.
Lemma at_declare_default x pc st E n s c : at_ W L pc st E n n s c -> E !! x = None -> n + 1 <= L ->
  at_ W L pc st (<[x := Z.of_nat n]> E) (n + 1) (Nat.max n (n + 1)) (s <| lvars ::= <[x := Some dflt]> |>) c.
Proof.
  intros (v & ls & -> & Hw & Hf) Hx Hn. exists v, ls. split_and!; try done. apply frame_declare; [done|done|].
  intros w [= <-]. split; [apply (fo_fresh _ _ _ _ _ _ _ Hf); lia|by eapply holds_default].
Qed.
Lemma declare_write x v s : is_Some (lvars s !! x) -> declare x (Some v) s = writeVar x v s.
Proof. intros [o Ho]. unfold declare, writeVar, mmodify. by rewrite Ho. Qed.
Lemma sound_decl x value E n k pc pc' E' n' inLoop s : supported_decl inLoop value = true ->
  code_vardecl C pool vars x value E n pc pc' E' n' -> n' <= L -> inLoop = true \/ k = n ->
  goes ticks W fn (at_ W L pc [] E n k s) (execVarDecl dflt ev x value s) (flowed L (subseteq E) E' n' (Nat.max k n') pc' [] []).
Proof.
  intros Hs (Hx & -> & -> & H) Hn Hk. unfold execVarDecl. destruct value as [e|]; simpl in Hs.
  - destruct H as (p & H1 & H2 & ->). unfold declare at 1, mmodify. unfold mbind at 1.
    eapply goes_pre; [intros c Hc; apply (at_declare x) in Hc; [exact Hc|done]|]. sub.
    match goal with |- goes _ _ _ _ (_ ?s1) _ => rename s1 into s2 end.
    eapply (goes_known _ _ _ (is_Some (lvars s2 !! x))).
    { intros c Hc. apply at_dom in Hc. apply elem_of_dom. rewrite Hc. apply elem_of_dom. rewrite lookup_insert_eq. by eexists. }
    intros Ho. eapply goes_bind.
    + rewrite declare_write by done.
      eapply (goes_write _ _ _ _ _ _ _ _ _ _ HV Hn x a (mkResolved LocalVar (Z.of_nat n))); [|done|done].
      unfold resolves. by rewrite lookup_insert_eq.
    + intros u s3 _. apply goes_ret. intros c Hc. exact Hc.
  - destruct inLoop; [done|]. destruct Hk as [?| ->]; [done|]. subst pc'. unfold declare, mmodify. unfold mbind.
    apply goes_ret. intros c Hc. by apply at_declare_default.
Qed.
Lemma sound_vardecl type isArray x value : sound (VarDeclStmt type isArray x value).
Proof.
  intros E n k pc pc' E' n' B K inLoop s Hs (H & -> & ->) Hn Hk Hpc. simpl in *. apply andb_true_iff in Hs as [_ Hs].
  by eapply sound_decl.
Qed.
(** *** Conditionals *)
Lemma jump_normal fn0 R E n' k' q pc' B K (r : outcome exn flow * Store) P0 : ins C q Jump (int_of pc') -> pc' <= length C ->
  goes ticks W fn0 P0 r (flowed L R E n' k' q B K) -> goes ticks W fn0 P0 r (flowed L R E n' k' pc' B K).
Proof.
  intros Hi Hpc H. eapply goes_then; [exact H|]. intros fl. destruct (decide (fl = Normal)) as [->|Hfl].
  - left. by eapply mv_Jump.
  - right. intros c. by destruct fl.
Qed.
Lemma flow_widen R R' E n1 n' k1 k' pc' B K B' K' fl s c : flowed L R E n1 k1 pc' B K fl s c -> (forall E2, R E2 -> R' E2) ->
  n1 <= n' -> n' <= k' -> k1 <= k' -> (forall j, j ∈ B -> j ∈ B') -> (forall j, j ∈ K -> j ∈ K') ->
  flowed L R' E n' k' pc' B' K' fl s c.
Proof.
  intros H HR H1 H2 H3 HB HK. destruct (decide (fl = Normal)) as [->|Hfl]; [by eapply at_weaken|by eapply flowed_jump].
Qed.
Lemma sound_if c t f : sound (IfStmt c t f).
Proof.
  intros E n k pc pc' E' n' B K inLoop s Hs H Hn Hk Hpc. destruct t as [t treal]. simpl in Hs, H. rewrite !andb_true_iff in Hs.
  destruct Hs as [[Hc Ht] Hf].
  destruct f as [[f freal]|]; destruct H as [(p & q & n1 & B1 & K1 & H1 & H2 & H3) ->]; simpl.
  - destruct H3 as (B2 & K2 & H3 & H4 & H5 & -> & ->).
    pose proof (all_extent _ _ _ _ _ _ _ H1).
    destruct (extent_block _ _ _ _ (forall_extent _ _ _ t) _ _ _ _ _ _ _ H2) as (X1 & X2 & X3).
    destruct (extent_block _ _ _ _ (forall_extent _ _ _ f) _ _ _ _ _ _ _ H5) as (X4 & X5 & X6).
    pose proof (ins_lt _ _ _ _ H3). pose proof (ins_lt _ _ _ _ H4). assert (n <= L) by lia.
    sub. eapply goes_step; [eapply mv_JumpIfFalse; [done|exact H3|bnd]|]. destruct (isTruthy a).
    + apply (jump_normal _ _ _ _ _ q); [done|bnd|]. eapply goes_post; [|eapply (sound_block (mkBlock t treal)); try eassumption; lia].
      intros fl s2 c2 Hc2. eapply flow_widen; [exact Hc2|by intros ? <-|lia|lia|lia| |]; intros j Hj; apply elem_of_app; by left.
    + eapply goes_pre; [intros c2 Hc2; apply (at_weaken _ _ _ _ _ _ _ n1 (Nat.max k n1)) in Hc2; [exact Hc2|lia..]|].
      eapply goes_post; [|eapply (sound_block (mkBlock f freal)); try eassumption; [destruct Hk as [?| ->]; [by left|right; lia]|bnd]].
      intros fl s2 c2 Hc2. eapply flow_widen; [exact Hc2|by intros ? <-|lia|lia|lia| |]; intros j Hj; apply elem_of_app; by right.
  - destruct H3 as (H3 & -> & -> & -> & ->). pose proof (all_extent _ _ _ _ _ _ _ H1).
    destruct (extent_block _ _ _ _ (forall_extent _ _ _ t) _ _ _ _ _ _ _ H2) as (X1 & X2 & X3).
    pose proof (ins_lt _ _ _ _ H3). assert (n <= L) by lia.
    sub. eapply goes_step; [eapply mv_JumpIfFalse; [done|exact H3|bnd]|]. destruct (isTruthy a).
    + eapply goes_post; [|eapply (sound_block (mkBlock t treal)); try eassumption; lia].
      intros fl s2 c2 Hc2. by eapply flowed_block.
    + apply goes_ret. intros c2 Hc2. eapply at_weaken; [exact Hc2|lia..].
Qed.
(** *** Loops *)
(** After a round the body goes on at [cont], or the loop is left to [out]. *)
Lemma after_round fl (go : I flow) s E n' k1 q out cont B K : jumps_to C B out -> jumps_to C K cont ->
  out <= length C -> cont <= length C -> q = cont \/ ins C q Jump (int_of cont) ->
  goes ticks W fn (at_ W L cont [] E n' k1 s) (go s) (flowed L (subseteq E) E n' k1 out [] []) ->
  goes ticks W fn (flowed L (eq E) E n' k1 q B K fl s) (afterRound fl go s) (flowed L (subseteq E) E n' k1 out [] []).
Proof.
  intros HB HK Ho Hc Hq H. destruct fl; simpl.
  - destruct Hq as [-> | Hq]; [exact H|]. eapply goes_step; [by eapply mv_Jump|exact H].
  - eapply goes_step; [|apply goes_ret; intros c Hc'; exact Hc'].
    intros c (j & E2 & Hj & <- & Ha). eapply mv_Jump; [done|by apply HB|done|done].
  - eapply goes_step; [|exact H]. intros c (j & E2 & Hj & <- & Ha). eapply mv_Jump; [done|by apply HK|done|done].
  - apply goes_ret. intros c (j & E2 & st & Hj & <- & Hv & Hn & Ha). by exists j, E, st.
Qed.
(** A loop that goes around again. *)
Lemma again x E n k pc pc' n' s : supported_stmt true x = true -> code_stmt C pool vars x E n pc pc' E n' [] [] -> n' <= L ->
  pc <= length C -> n' <= k -> below E n -> n <= n' ->
  goes ticks W fn (at_ W L pc [] E n' k s) (ex x s) (flowed L (subseteq E) E n' k pc' [] []).
Proof.
  intros Hs H Hn Hpc Hk Hb Hle. eapply goes_pre; [intros c Hc; eapply at_narrow in Hc; [exact Hc|exact Hb|done]|].
  pose proof (HX fn L x E n k pc pc' E n' [] [] true s Hs H Hn (or_introl eq_refl) Hpc) as G0.
  by replace (Nat.max k n') with k in G0 by lia.
Qed.
Lemma sound_while c b : sound (WhileStmt c b).
Proof.
  intros E n k pc pc' E' n' B K inLoop s Hs H Hn Hk Hpc. destruct b as [b real]. simpl in Hs, H. rewrite !andb_true_iff in Hs.
  destruct Hs as [Hc Hb]. destruct H as [(p & q & B1 & K1 & H1 & H2 & H3 & H4 & -> & H5 & H6) (-> & -> & ->)].
  pose proof (all_extent _ _ _ _ _ _ _ H1). pose proof (ins_lt _ _ _ _ H2). pose proof (ins_lt _ _ _ _ H4).
  destruct (extent_block _ _ _ _ (forall_extent _ _ _ b) _ _ _ _ _ _ _ H3) as (X1 & X2 & X3). simpl.
  eapply (goes_known _ _ _ (below E n)); [intros c0; apply at_below|]. intros Hbelow.
  set (k1 := Nat.max k n'). assert (n <= L) by lia.
  eapply goes_pre; [intros c0 Hc0; apply (at_weaken _ _ _ _ _ _ _ n k1) in Hc0; [exact Hc0|unfold k1; lia..]|].
  sub. eapply goes_step; [eapply mv_JumpIfFalse; [done|exact H2|bnd]|]. destruct (isTruthy a).
  - eapply goes_bind; [eapply (sound_block (mkBlock b real) E n k1 (p + 1) q n' B1 K1 true); try eassumption; [by left|bnd]|].
    replace (Nat.max k1 n') with k1 by (unfold k1; lia). intros fl s2 _.
    eapply after_round; [done|done|bnd|done|by right|].
    eapply (again (WhileStmt c (mkBlock b real)) E n); try done; [simpl; by rewrite Hc, Hb| |unfold k1; lia].
    split; [|done]. by exists p, q, B1, K1.
  - apply goes_ret. intros c2 Hc2. eapply at_weaken; [exact Hc2|unfold k1; lia..].
Qed.
Lemma sound_dowhile c b : sound (DoWhileStmt c b).
Proof.
  intros E n k pc pc' E' n' B K inLoop s Hs H Hn Hk Hpc. destruct b as [b real]. simpl in Hs, H. rewrite !andb_true_iff in Hs.
  destruct Hs as [Hc Hb]. destruct H as [(p & q & B1 & K1 & H1 & H2 & H3 & H4 & -> & H5 & H6) (-> & -> & ->)].
  pose proof (all_extent _ _ _ _ _ _ _ H2). pose proof (ins_lt _ _ _ _ H3). pose proof (ins_lt _ _ _ _ H4).
  destruct (extent_block _ _ _ _ (forall_extent _ _ _ b) _ _ _ _ _ _ _ H1) as (X1 & X2 & X3). simpl.
  eapply (goes_known _ _ _ (below E n)); [intros c0; apply at_below|]. intros Hbelow.
  set (k1 := Nat.max k n').
  eapply goes_pre; [intros c0 Hc0; apply (at_weaken _ _ _ _ _ _ _ n k1) in Hc0; [exact Hc0|unfold k1; lia..]|].
  eapply goes_bind; [eapply (sound_block (mkBlock b real) E n k1 pc p n' B1 K1 true); try eassumption; by left|].
  replace (Nat.max k1 n') with k1 by (unfold k1; lia). intros fl s2 _.
  eapply after_round; [done|done|bnd|bnd|by left|]. sub.
  eapply goes_step; [eapply mv_JumpIfFalse; [done|exact H3|bnd]|]. destruct (isTruthy a).
  - eapply goes_step; [eapply mv_Jump; [done|exact H4|bnd]|].
    eapply (again (DoWhileStmt c (mkBlock b real)) E n); try done; [simpl; by rewrite Hc, Hb| |unfold k1; lia].
    split; [|done]. by exists p, q, B1, K1.
  - by apply goes_ret.
Qed.
(** The clauses of a [for]. *)
Lemma sound_clause u E n k pc pc' s : supported_clause u = true ->
  code_clause C pool vars (code_stmt C pool vars) u E n pc pc' -> n <= L -> pc <= length C ->
  goes ticks W fn (at_ W L pc [] E n k s) (execClause ev ex u s) (flowed L (eq E) E n (Nat.max k n) pc' [] []).
Proof.
  intros Hs H Hn Hpc. destruct u as [e|]; simpl in Hs, H.
  2: { subst pc'. apply goes_ret. intros c Hc. by apply at_max. }
  assert ((match e with BlockStmt _ => False | _ => True end) \/ exists b, e = BlockStmt b) as [He|[[b real] ->]].
  { destruct e; try (left; constructor). right. by eexists. }
  - assert (supported_expr e = true) as Hs' by by destruct e.
    assert (exists p, code_expr C pool vars E e pc p /\ ins C p Pop 0 /\ pc' = p + 1) as (p & H1 & H2 & ->) by by destruct e.
    assert (execClause ev ex (Some e) = (ev e ;; mret Normal)) as -> by by destruct e.
    sub. step mv_Pop. apply goes_ret. intros c Hc. by apply at_max.
  - simpl. eapply (sound_block (mkBlock b real) E n k pc pc' n [] [] true); try done; try (by left).
    simpl. clear -Hs. induction b as [|x b IH]; [done|]. simpl in *. apply andb_true_iff in Hs as [H1 H2]. rewrite (IH H2), andb_true_r. by destruct x.
Qed.
Lemma sound_noJump (m go : I flow) P0 s R E n k pc Q : goes ticks W fn P0 (m s) (flowed L R E n k pc [] []) ->
  (forall s1, goes ticks W fn (at_ W L pc [] E n k s1) (go s1) Q) -> goes ticks W fn P0 (noJump m go s) Q.
Proof. intros H1 H2. unfold noJump. eapply goes_bind; [exact H1|]. intros fl s1 _. destruct fl; try done. apply H2. Qed.
Lemma sound_init init E n k pc pc' E' n' inLoop s : supported_init inLoop init = true ->
  code_init C pool vars (code_stmt C pool vars) init E n pc pc' E' n' -> n' <= L -> inLoop = true \/ k = n -> pc <= length C ->
  goes ticks W fn (at_ W L pc [] E n k s) (execForInit ev ex init s) (flowed L (subseteq E) E' n' (Nat.max k n') pc' [] []).
Proof.
  intros Hs H Hn Hk Hpc.
  assert ((exists type isArray x v, init = Some (VarDeclStmt type isArray x v)) \/
    match init with Some (VarDeclStmt _ _ _ _) => False | _ => True end) as [(ty & isA & x & v & ->)|Hi].
  { destruct init as [e|]; [|by right]. destruct e; try (right; constructor). left. by repeat eexists. }
  - by eapply (HX fn L (VarDeclStmt ty isA x v)).
  - assert (supported_clause init = true) as Hs' by (destruct init as [e|]; [by destruct e|done]).
    assert (code_clause C pool vars (code_stmt C pool vars) init E n pc pc' /\ E' = E /\ n' = n) as (Hc & -> & ->)
      by (destruct init as [e|]; [by destruct e|done]).
    assert (execForInit ev ex init = execClause ev ex init) as -> by (destruct init as [e|]; [by destruct e|done]).
    eapply goes_post; [|by eapply sound_clause]. intros fl s1 c Hc'. by eapply flowed_block.
Qed.
Lemma sound_condition c E n k pc p out s : supported_opt c = true -> code_condition C pool vars c E pc p out -> n <= L ->
  out <= length C ->
  goes ticks W fn (at_ W L pc [] E n k s)
    (match c with Some e => v <- ev e ;; mret (isTruthy v) | None => mret true end s)
    (fun b s1 => at_ W L (if b then p else out) [] E n k s1).
Proof.
  intros Hs H Hn Ho. destruct c as [e|]; simpl in Hs, H.
  - destruct H as (q & H1 & H2 & ->). sub. eapply goes_step; [eapply mv_JumpIfFalse; [done|exact H2|bnd]|].
    apply goes_ret. intros c Hc. exact Hc.
  - subst p. by apply goes_ret.
Qed.
Lemma sound_for_loop c u b real E n k pc pc' n' s :
  supported_opt c = true -> supported_clause u = true -> forallb (supported_stmt true) b = true ->
  code_for C pool vars (code_stmt C pool vars) c u b E n pc pc' n' -> n' <= L -> pc <= length C -> n <= k ->
  goes ticks W fn (at_ W L pc [] E n k s)
    ((go <- match c with Some e => v <- ev e ;; mret (isTruthy v) | None => mret true end ;;
      if go : bool then
        fl <- execBlock ex (mkBlock b real) ;;
        afterRound fl (noJump (execClause ev ex u) (ex (ForStmt None c u (mkBlock b real))))
      else mret Normal) s)
    (flowed L (subseteq E) E n' (Nat.max k n') pc' [] []).
Proof.
  intros Hc Hu Hb H Hn Hpc Hnk. pose proof H as (p & q & r & B & K & H1 & H2 & H3 & H4 & -> & H5 & H6).
  pose proof (ins_lt _ _ _ _ H4).
  assert (p <= length C /\ q <= length C /\ n <= n') as (X1 & X2 & X3).
  { destruct (extent_block _ _ _ _ (forall_extent _ _ _ b) _ _ _ _ _ _ _ H2) as (Y1 & Y2 & Y3).
    destruct (extent_clause _ _ _ u _ _ _ _ (any_clause _ _ _ u) H3) as (Y4 & Y5). lia. }
  eapply (goes_known _ _ _ (below E n)); [intros c0; apply at_below|]. intros Hbelow.
  set (k1 := Nat.max k n'). 
  eapply goes_pre; [intros c0 Hc0; apply (at_weaken _ _ _ _ _ _ _ n k1) in Hc0; [exact Hc0|unfold k1; lia..]|].
  eapply goes_bind; [eapply sound_condition; try eassumption; bnd|]. intros go s1 _. destruct go.
  2: { apply goes_ret. intros c2 Hc2. eapply at_weaken; [exact Hc2|unfold k1; lia..]. }
  eapply goes_bind; [eapply (sound_block (mkBlock b real) E n k1 p q n' B K true); try eassumption; by left|].
  replace (Nat.max k1 n') with k1 by (unfold k1; lia). intros fl s2 _.
  eapply after_round; [done|done|bnd|done|by left|].
  eapply sound_noJump; [by eapply sound_clause|]. intros s3. replace (Nat.max k1 n') with k1 by (unfold k1; lia).
  eapply goes_step; [by eapply mv_Jump|].
  eapply (again (ForStmt None c u (mkBlock b real)) E n); try done; [simpl; by rewrite Hc, Hu, Hb| |unfold k1; lia].
  exists pc, E, n. split; [done|]. split; [exact H|done].
Qed.
Lemma sound_for init c u b : sound (ForStmt init c u b).
Proof.
  intros E n k pc pc' E' n' B K inLoop s Hs H Hn Hk Hpc. destruct b as [b real]. simpl in Hs, H. rewrite !andb_true_iff in Hs.
  destruct Hs as [[[Hi Hc] Hu] Hb]. destruct H as (p & E1 & n1 & H0 & H1 & -> & -> & ->). simpl.
  destruct (extent_init _ _ _ _ _ _ _ _ _ _ (any_clause _ _ _ init) H0) as (X1 & X2 & X3 & X4).
  assert (n1 <= n') as X5.
  { destruct H1 as (p1 & q & r & B1 & K1 & _ & H1 & _). 
    by destruct (extent_block _ _ _ _ (forall_extent _ _ _ b) _ _ _ _ _ _ _ H1) as (_ & _ & Y3). }
  eapply goes_post; [intros fl s1 c0 Hc0; eapply flowed_block; [exact Hc0|done]|].
  eapply (goes_scoped _ _ _ E1); [done|].
  eapply sound_noJump; [eapply sound_init; try eassumption; lia|]. intros s1.
  eapply goes_post; [|eapply (sound_for_loop c u b real E1 n1 (Nat.max k n1) p pc' n'); try eassumption; [tauto|lia]].
  intros fl s2 c0 Hc0. replace (Nat.max k n') with (Nat.max (Nat.max k n1) n') by lia.
  destruct (decide (fl = Normal)) as [->|Hfl]; [exact Hc0|]. eapply flowed_jump; [done|exact Hc0| |lia|lia|lia|done|done].
  intros E2 HE2. by etrans.
Qed.
End Rules.

(** ** Calls *)
(** A run of the VM does what the call in the source did. *)
Definition calls (r : outcome exn Value * Store) (s : Store) (m : nat -> VMState -> outcome exn Value * VMState) : Prop :=
  match fst r with
  | Ok v => exists c, (0 <= c)%Z /\ forall v0, holds W (gvars s) v0 -> budget c v0 ->
      exists v1, (exists k, forall f, k <= f -> m f v0 = (Ok v, v1)) /\ spent c v0 v1 /\ holds W (gvars (snd r)) v1 /\ scalar v = true
  | Throw (LpcRuntimeError e) => exists c, (0 <= c)%Z /\ forall v0, holds W (gvars s) v0 -> budget c v0 ->
      exists v1, (exists k, forall f, k <= f -> m f v0 = (Throw (LpcRuntimeError e), v1)) /\ spent c v0 v1 /\ holds W (gvars (snd r)) v1
  | _ => True
  end.

Section Calls.
Context (ev : AstNode -> I Value) (ex : AstNode -> I flow) (HE : sim_expr ev) (HX : sim_stmt ex).
Context (fd : FunctionDecl) (body : Block) (callee : FunctionEntry) (vs : list Value).
Context (Hbody : fd_body fd = Some body) (Hs : supported_function fd = true) (Hf : frame_size fd <= 255).
Context (Hcode : code_function C pool vars fd body callee).
Context (Hvs : forallb scalar vs = true) (Hlen : length vs <= length (fd_params fd)).
Let L := frame_size fd.
Let E := param_env (fd_params fd) 0.
Let n := length (fd_params fd).

Lemma frame_locals : numLocals callee = L /\ n <= L.
Proof.
  destruct Hcode as (pc & n' & Hblk & _ & _ & _ & HnL & _). rewrite HnL. unfold L, frame_size. rewrite Hbody.
  destruct (slots_block _ _ _ _ (forall_slots _ _ _ (statements body)) _ _ _ _ _ _ _ Hblk) as [-> _].
  split; [|unfold n; lia]. unfold L, frame_size in Hf. rewrite Hbody in Hf. unfold uint8_of. rewrite Z.mod_small; [lia|].
  change (2 ^ 8)%Z with 256%Z. lia.
Qed.
Lemma start_at s v : lvars s = bindParams dflt (fd_params fd) vs -> holds W (gvars s) v ->
  at_ W L (entryPoint callee) [] E n n s (start W callee vs v).
Proof.
  intros Hl Hw. destruct frame_locals as [HL Hn]. eexists _, _. split; [reflexivity|]. split; [by apply holds_enter|].
  rewrite Hl, HL. apply first_frame; try done. by eapply holds_default.
Qed.
Lemma sound_body s : exists pc, ins C pc Return 0 /\
  goes ticks W callee (at_ W L (entryPoint callee) [] E n n s) (execBlock ex body s) (flowed L (eq E) E L L pc [] []).
Proof.
  destruct Hcode as (pc & n' & Hblk & Hret & _). exists pc. split; [done|].
  destruct (slots_block _ _ _ _ (forall_slots _ _ _ (statements body)) _ _ _ _ _ _ _ Hblk) as [En _].
  assert (n' = L) as -> by (unfold L, frame_size; by rewrite Hbody).
  destruct (extent_block _ _ _ _ (forall_extent _ _ _ (statements body)) _ _ _ _ _ _ _ Hblk) as (X1 & X2 & X3).
  pose proof (ins_lt _ _ _ _ Hret). destruct frame_locals as [_ HnL].
  assert (entryPoint callee <= length C) by lia.
  assert (forallb (supported_stmt false) (statements body) = true) as Hsb.
  { unfold supported_function in Hs. rewrite Hbody in Hs. destruct body. by apply andb_true_iff in Hs as [_ ?]. }
  pose proof (sound_block ex HX callee L body E n n (entryPoint callee) pc L [] [] false s Hsb Hblk (le_n _) (or_intror eq_refl) H0) as G.
  by replace (Nat.max n L) with L in G by lia.
Qed.
Lemma sound_run s : lvars s = bindParams dflt (fd_params fd) vs ->
  calls (runBody file ex (fd_name fd) body s) s (fun f => run_with (loop ticks f) (w_pid W) callee vs (w_obj W)).
Proof.
  intros Hl. destruct (sound_body s) as (pc & Hret & G).
  assert (isVarargs callee = false /\ fname callee = fd_name fd) as [Hva Hname].
  { destruct Hcode as (? & ? & _ & _ & ? & _ & _ & _ & ?). done. }
  unfold runBody, tagged, mcatch, mbind, calls. destruct (execBlock ex body s) as [[fl|e|?|] s1]; simpl in *; try done.
  - assert (forall v, (forall c, flowed L (eq E) E L L pc [] [] fl s1 c -> exists j E2 st, ins C j Return 0 /\ v = nthV 0 st /\
        scalar v = true /\ at_ W L j st E2 L L s1 c) ->
      exists c, (0 <= c)%Z /\ forall v0, holds W (gvars s) v0 -> budget c v0 -> exists v1,
        (exists k, forall f, k <= f -> run_with (loop ticks f) (w_pid W) callee vs (w_obj W) v0 = (Ok v, v1)) /\
        spent c v0 v1 /\ holds W (gvars s1) v1 /\ scalar v = true) as Hgo.
    { intros v Hat. destruct G as (c & Hc & G). exists (c + 1)%Z. split; [lia|]. intros v0 Hw Hb.
      destruct (cost_enter v0 (Some (w_obj W))) as [Ec Em].
      destruct (G (start W callee vs v0)) as (s' & R & S & Q); [by apply start_at|change (budget c (enterFrame (Some (w_obj W)) v0)); unfold budget in *; rewrite Ec, Em; lia|].
      change (vm (start W callee vs v0)) with (enterFrame (Some (w_obj W)) v0) in S.
      destruct (Hat s' Q) as (j & E2 & st & Hj & Hn & Hsv & v1 & ls & -> & Hw1 & _).
      assert (budget 1 v1) as Hb1. { unfold budget, spent in *. cbn [vm conf] in S. rewrite Ec, Em in S. destruct S. lia. }
      pose proof (op_Return ticks W callee (gvars s1) v1 ls st j Hw1 Hb1 Hj) as R2.
      eapply reaches_ends in R2; [|exact R]. eapply run_ends in R2; [|exact Hw|exact Hva].
      eexists. split; [rewrite Hn; exact R2|]. destruct (cost_leave (vm (conf (tick v1) ls st j)) (objectChanged (Some (w_obj W)) v0)) as [Ec' Em'].
      split; [|split; [by apply holds_leave, holds_tick|done]].
      unfold spent in *. rewrite Ec', Em'. cbn [vm conf] in S |- *. rewrite Ec, Em in S. unfold tick in *. simpl. destruct S. split; [lia|done]. }
    destruct fl; simpl; try done.
    + apply Hgo. intros c Hc. exists pc, E, []. done.
    + apply Hgo. intros c (j & E2 & st & Hj & HE2 & Hsv & Hn & Ha). by exists j, E2, st.
  - destruct e as [m| | | | ]; try done. destruct G as (c & Hc & G). exists c. split; [done|]. intros v0 Hw Hb.
    destruct (cost_enter v0 (Some (w_obj W))) as [Ec Em].
    destruct (G (start W callee vs v0)) as (s' & R & S & Hw1); [by apply start_at|change (budget c (enterFrame (Some (w_obj W)) v0)); unfold budget in *; rewrite Ec, Em; lia|].
      change (vm (start W callee vs v0)) with (enterFrame (Some (w_obj W)) v0) in S.
    eapply run_ends in R; [|exact Hw|exact Hva].
    assert (tag_of W callee +:+ m = file +:+ "::" +:+ fd_name fd +:+ "(): " +:+ m) as Et.
    { unfold tag_of, file. rewrite Hname. by rewrite !sapp_assoc. }
    rewrite Et in R. eexists. split; [exact R|]. split; [|by apply holds_leave].
    destruct (cost_leave (vm s') (objectChanged (Some (w_obj W)) v0)) as [Ec' Em'].
    unfold spent in *. rewrite Ec', Em'. cbn [vm conf] in S |- *. rewrite Ec, Em in S. unfold tick in *. simpl. destruct S. split; [lia|done].
Qed.
End Calls.

Section CallRule.
Context (ev : AstNode -> I Value) (ex : AstNode -> I flow) (HE : sim_expr ev) (HX : sim_stmt ex).
(** The VM calls [name] where the source does. *)
Lemma sound_vm_call name fd body vs s : findDecl P name = Some fd -> fd_body fd = Some body ->
  length vs <= length (fd_params fd) -> forallb scalar vs = true ->
  exists callee, ownFunction prg name = Some callee /\
    calls (runBody file ex name body (s <| lvars := bindParams dflt (fd_params fd) vs |>)) s
      (fun f => run_with (loop ticks f) (w_pid W) callee vs (w_obj W)).
Proof.
  intros Hd Hb Hlen Hvs. destruct (found_decl _ _ _ _ _ _ _ Hfuns Hd) as (body' & callee & Hb' & Hin & Hcode & Hname & Hfind).
  assert (body' = body) as -> by congruence. exists callee. split; [exact Hfind|].
  assert (fd_name fd = name) as <-.
  { apply find_some in Hd as [_ Hd]. unfold hasBody in Hd. apply andb_true_iff in Hd as [Hd _]. by apply String.eqb_eq. }
  assert (supported_function fd = true) as Hs by (rewrite forallb_forall in Hsup; by apply Hsup, list_elem_of_In).
  exact (sound_run ex HX fd body callee vs Hb Hs (Hframe fd Hin) Hcode Hvs Hlen (s <| lvars := bindParams dflt (fd_params fd) vs |>) eq_refl).
Qed.
Lemma call_runs name fd body vs s : findDecl P name = Some fd -> fd_body fd = Some body -> length vs <= length (fd_params fd) ->
  call P dflt file ex name vs s =
    let '(o, s1) := runBody file ex name body (s <| lvars := bindParams dflt (fd_params fd) vs |>) in
    (o, match o with Ok _ => s1 <| lvars := lvars s |> | _ => s1 end).
Proof.
  intros Hd Hb Hlen. unfold call. rewrite Hd, Hb. apply Nat.ltb_ge in Hlen. rewrite Hlen.
  unfold mgets, mmodify, mret, mbind. by destruct (runBody _ _ _ _ _) as [[]].
Qed.
Lemma sound_call fn L name vs i E n k p st s : forallb scalar vs = true -> pool !! i = Some name ->
  C !! p = Some (mkInstr Call (int_of i) (int_of (length vs))) -> (Z.of_nat (length vs) < 2 ^ 31)%Z ->
  goes ticks W fn (at_ W L p (rev vs ++ st) E n k s) (call P dflt file ex name vs s) (valued fn L (p + 1) st E n k).
Proof.
  intros Hvs Hi Hins Hn. destruct (findDecl P name) as [fd|] eqn:Hd; [|unfold call; by rewrite Hd].
  destruct (fd_body fd) as [body|] eqn:Hb; [|unfold call; by rewrite Hd, Hb].
  destruct (Nat.ltb_spec (length (fd_params fd)) (length vs)) as [Hlt|Hlen].
  { unfold call. rewrite Hd, Hb. apply Nat.ltb_lt in Hlt. by rewrite Hlt. }
  destruct (sound_vm_call name fd body vs s Hd Hb Hlen Hvs) as (callee & Hown & Hc). rewrite (call_runs _ _ _ _ _ Hd Hb Hlen).
  unfold goes. unfold calls in Hc.
  destruct (runBody file ex name body (s <| lvars := bindParams dflt (fd_params fd) vs |>)) as [o s1]. cbn [fst snd] in Hc.
  assert (forall v, holds W (gvars s) v -> exists v', lookupFunction (w_pid W) name (tick v) = (Ok (Some (w_pid W, callee)), v') /\
    holds W (gvars s) (pushOrigin Local v') /\ same_cost (tick v) (pushOrigin Local v')) as Hlook.
  { intros v Hw. destruct (lookup_own W _ _ name callee (holds_tick _ _ _ Hw) Hown) as (v' & El & Hw' & Hcost).
    exists v'. split; [done|]. split; [by apply (holds_same W _ v')|done]. }
  assert (Z.of_nat i < 2 ^ 31)%Z as Hi31 by (apply lookup_lt_Some in Hi; lia).
  destruct o as [r|[m| | | | ]|?|]; cbn [fst snd]; try done; destruct Hc as (c & Hc0 & Hc); exists (c + 1)%Z; (split; [lia|]);
    intros s0 (v & ls & -> & Hw & Hfr) Hbud; cbn [vm conf] in Hbud; destruct (Hlook v Hw) as (v' & El & Hw' & Ec & Em);
    (destruct (Hc (pushOrigin Local v') Hw') as (v1 & [m0 Hrun] & S & Hw1);
      [unfold budget in *; rewrite Ec, Em; unfold tick; simpl; lia|]).
  - destruct Hw1 as [Hw1 Hsv]. exists (conf (popOrigin v1) ls (r :: st) (p + 1)). rewrite Nat.add_1_r. split_and!.
    + eapply instr_goes; [exact Hw|exact Hins|unfold budget in *; lia|]. exists m0. intros f Hf.
      by rewrite (dispatch_Call ticks W fn f i _ name vs callee _ v' v1 ls st p (Ok r) Hi Hi31 eq_refl Hn (holds_programOf _ _ _ (holds_tick _ _ _ Hw)) El (Hrun f Hf)).
    + unfold spent in *. rewrite Ec, Em in S. unfold tick in S. simpl in *. destruct S. split; [lia|done].
    + split; [done|]. exists (popOrigin v1), ls. split; [done|]. split; [by apply (holds_same W _ v1)|done].
  - exists (conf (popOrigin v1) ls st p). split_and!.
    + eapply instr_throws; [exact Hw|exact Hins|unfold budget in *; lia| |].
      { destruct (h_obj _ _ _ Hw1) as (ob & Ho & _ & Hfile & _). unfold fileOf, getOb. simpl. by rewrite Ho. }
      exists m0. intros f Hf.
      rewrite (dispatch_Call ticks W fn f i _ name vs callee _ v' v1 ls st p (Throw (LpcRuntimeError m)) Hi Hi31 eq_refl Hn (holds_programOf _ _ _ (holds_tick _ _ _ Hw)) El (Hrun f Hf)).
      done.
    + unfold spent in *. rewrite Ec, Em in S. unfold tick in S. simpl in *. destruct S. split; [lia|done].
    + by apply (holds_same W _ v1).
Qed.
(** The arguments are on the stack, the first one deepest. *)
Lemma sound_args fn L es : forall E n k pc pc' st s, forallb supported_expr es = true ->
  code_all (code_expr C pool vars E) es pc pc' -> n <= L ->
  goes ticks W fn (at_ W L pc st E n k s) (evalAll ev es s)
    (fun vs s1 c => forallb scalar vs && (length vs =? length es) = true /\ at_ W L pc' (rev vs ++ st) E n k s1 c).
Proof.
  induction es as [|e es IH]; intros E n k pc pc' st s Hs H Hn; simpl in Hs, H.
  - subst pc'. simpl. by apply goes_ret.
  - apply andb_true_iff in Hs as [Hs1 Hs2]. destruct H as (p & H1 & H2). simpl.
    eapply goes_bind; [by eapply HE|]. intros v s1 _. apply goes_pure. intros Hv.
    eapply goes_bind; [by eapply IH|]. intros vs s2 _. apply goes_pure. intros Hvs.
    apply andb_true_iff in Hvs as [Hvs Hl]. apply goes_ret. intros c Hc. split; [simpl; by rewrite Hv, Hvs|].
    simpl. by rewrite <- app_assoc.
Qed.
Lemma sound_callexpr f args q fn L E n k pc pc' st s : forallb supported_expr args = true ->
  code_expr C pool vars E (CallExpr f args [] false false q) pc pc' -> n <= L ->
  goes ticks W fn (at_ W L pc st E n k s) (evalRule P dflt file ev ex (CallExpr f args [] false false q) s) (valued fn L pc' st E n k).
Proof.
  intros Hs (p & i & H1 & H2 & H3 & ->) Hn. simpl. eapply goes_bind; [by eapply sound_args|]. intros vs s1 _.
  apply goes_pure. intros Hvs. apply andb_true_iff in Hvs as [Hvs Hl]. apply Nat.eqb_eq in Hl.
  pose proof (extent_all C pool vars args E ltac:(apply Forall_forall; intros ? _; apply all_extent) _ _ H1) as Hx.
  apply lookup_lt_Some in H3 as Hp. rewrite <- Hl in H3. eapply sound_call; try eassumption. lia.
Qed.
Lemma rules_expr : sim_expr (evalRule P dflt file ev ex).
Proof.
  intros fn L e E n k pc pc' st s Hs H Hn. destruct e; try discriminate Hs.
  - by eapply sound_leaf.
  - by eapply sound_leaf.
  - by eapply sound_leaf.
  - destruct (decide (op = BinOp.Or)) as [->|Ho1]; [by eapply sound_or|].
    destruct (decide (op = BinOp.And)) as [->|Ho2]; [by eapply sound_and|]. by eapply sound_binary.
  - by eapply sound_comma.
  - by eapply sound_unary.
  - by eapply sound_ternary.
  - destruct argIsSpread, forceEfun, parentCall; try discriminate Hs. by eapply sound_callexpr.
  - by eapply sound_assign.
  - destruct indexTarget; [discriminate Hs|]. by eapply sound_incdec.
Qed.
Lemma rules_stmt : sim_stmt (execRule dflt ev ex).
Proof.
  intros fn L x E n k pc pc' E' n' B K inLoop s Hs H Hn Hk Hpc. destruct x; try discriminate Hs.
  - by eapply sound_expr_stmt.
  - by eapply sound_return.
  - by eapply sound_vardecl.
  - by eapply sound_assign_stmt.
  - by eapply sound_block_stmt.
  - by eapply sound_if.
  - by eapply sound_while.
  - by eapply sound_dowhile.
  - by eapply sound_for.
  - by eapply sound_break.
  - by eapply sound_continue.
Qed.
End CallRule.

Lemma sim_all fuel : sim_expr (eval P dflt file fuel) /\ sim_stmt (exec P dflt file fuel).
Proof.
  induction fuel as [|fuel [IHe IHs]]; [split; repeat intros ?; exact Logic.I|]. split.
  - by apply rules_expr.
  - by apply rules_stmt.
Qed.
End Refinement.
