(* ===== verification/Correctness.v ===== *)
(** * Correctness: compiled programs do what their source says

    The composition of CodeShapeProgram.v (what the code generator emits) and
    Refinement.v (what the VM does with it). *)
From S2P Require Import Prelude CLib Double Value Bytecode Lookup Machine Sscanf Exec ExecIndex Calls VM Ast Lexer Parser CodeGen Semantics CodeShape CodeShapeStatic CodeShapeFacts CodeShapeProgram Simulation Triple CallSteps Refinement.
Local Open Scope nat_scope.

(** Each object variable has its own slot. *)
Lemma object_env_inj vs : forall n m, (forall x z, m !! x = Some z -> (z < Z.of_nat n)%Z) ->
  (forall x y z, m !! x = Some z -> m !! y = Some z -> x = y) ->
  forall x y z, object_env vs n m !! x = Some z -> object_env vs n m !! y = Some z -> x = y.
Proof.
  induction vs as [|v vs IH]; intros n m Hm Hi; simpl; [exact Hi|].
  assert (forall x z, x <> ov_name v -> <[ov_name v := Z.of_nat n]> m !! x = Some z -> m !! x = Some z) as Hne
    by (intros x z Hx; by rewrite lookup_insert_ne).
  apply IH.
  - intros x z Hx. destruct (decide (x = ov_name v)) as [->|Hn].
    + rewrite lookup_insert_eq in Hx. injection Hx as <-. lia.
    + apply Hne in Hx; [|done]. apply Hm in Hx. lia.
  - intros x y z Hx Hy. destruct (decide (x = ov_name v)) as [->|Hnx], (decide (y = ov_name v)) as [->|Hny]; try done.
    + rewrite lookup_insert_eq in Hx. injection Hx as <-. apply Hne, Hm in Hy; [lia|done].
    + rewrite lookup_insert_eq in Hy. injection Hy as <-. apply Hne, Hm in Hx; [lia|done].
    + apply Hne in Hx; [|done]. apply Hne in Hy; [|done]. by eapply Hi.
Qed.

(** The limits of the encoding: jump targets and pool indices are 32-bit
    operands, the size of a frame is a byte. *)
Definition encodable (p : Program) (prg : CompiledProgram) : Prop :=
  (Z.of_nat (length (code prg)) < 2 ^ 31)%Z /\ (Z.of_nat (length (stringPool prg)) < 2 ^ 31)%Z /\
  forallb (fun fd => frame_size fd <=? 255) (pg_functions p) = true.
Definition objectWorld (p : Program) (prg : CompiledProgram) (pd : pid) (obj : oid) (file : string) (dflt : Value) : World :=
  mkWorld pd prg obj file (object_env (pg_objectVars p) 0 ∅) dflt.

(** C5: the code generator and the VM together implement the language.  Let a
    program without inheritance, with functions over scalars (all operators,
    assignment, [++]/[--], [if], the loops, [break]/[continue], [return],
    calls of each other), compile to [prg] within the limits of the encoding.
    Whatever its definition by [Semantics.interpret] gives for a call, a value
    or a runtime error, and for the object's variables, [VM::run] gives from
    every state in which the object holds these variables: it ends, with that
    value, or with that error tagged by the functions it left, and leaves those
    variables, at an evaluation cost that depends on the call alone. *)
Theorem compile_refines `{EfunTable} (ticks : nat -> Z) (program : Program) prg gfuel pd obj file dflt fuel name args globals r globals' :
  supported_program program = true -> compile gfuel program [] = Ok prg -> encodable program prg ->
  forallb scalar args = true ->
  interpret program dflt file fuel name args globals = (r, globals') ->
  match r with
  | Ok _ | Throw (LpcRuntimeError _) =>
      exists fn cost, ownFunction prg name = Some fn /\ (0 <= cost)%Z /\
        forall s, holds (objectWorld program prg pd obj file dflt) globals s -> (evalCost s + cost <= maxEvalCost s)%Z ->
          exists s' k, (forall f, k <= f -> run ticks f pd fn args obj s = (r, s')) /\
            holds (objectWorld program prg pd obj file dflt) globals' s' /\ (evalCost s' <= evalCost s + cost)%Z
  | _ => True
  end.
Proof.
  intros Hs Hc (HC & Hp & Hf) Ha Hi. set (W := objectWorld program prg pd obj file dflt).
  destruct (compile_shape _ _ _ Hs Hc) as (Hfuns & _ & _); [lia|].
  assert (forallb supported_function (pg_functions program) = true) as Hsup by (unfold supported_program in Hs; by apply andb_true_iff in Hs as [_ ?]).
  assert (forall x y z, w_vars W !! x = Some z -> w_vars W !! y = Some z -> x = y) as HV.
  { apply object_env_inj; intros x; intros *; by rewrite lookup_empty. }
  assert (forall fd, fd ∈ pg_functions program -> frame_size fd <= 255) as Hframe.
  { intros fd Hin. rewrite forallb_forall in Hf. apply Nat.leb_le, Hf, list_elem_of_In, Hin. }
  destruct (sim_all ticks W program HC Hp HV Hfuns Hsup Hframe fuel) as [_ HX].
  unfold interpret in Hi. set (s0 := mkStore ∅ globals) in *.
  destruct (findDecl program name) as [fd|] eqn:Hd; [|unfold call in Hi; rewrite Hd in Hi; by injection Hi as <- <-].
  destruct (fd_body fd) as [body|] eqn:Hb; [|unfold call in Hi; rewrite Hd, Hb in Hi; by injection Hi as <- <-].
  destruct (Nat.ltb_spec (length (fd_params fd)) (length args)) as [Hlt|Hlen].
  { unfold call in Hi. rewrite Hd, Hb in Hi. apply Nat.ltb_lt in Hlt. rewrite Hlt in Hi. by injection Hi as <- <-. }
  rewrite (call_runs W program _ _ _ _ _ _ Hd Hb Hlen) in Hi.
  destruct (sound_vm_call ticks W program Hfuns Hsup Hframe _ HX name fd body args s0 Hd Hb Hlen Ha) as (fn & Hown & Hcalls).
  unfold calls in Hcalls.
  destruct (runBody file (exec program dflt file fuel) name body (s0 <| lvars := bindParams dflt (fd_params fd) args |>)) as [o s1] eqn:Er.
  change (w_file W) with file in *. change (w_default W) with dflt in *. rewrite Er in Hcalls, Hi. cbn [fst snd] in Hcalls.
  destruct o as [v|[m| | | | ]|?|]; simpl in Hi; injection Hi as <- <-; try done;
    destruct Hcalls as (c & Hc0 & Hcalls); exists fn, c; (split; [done|]); (split; [done|]); intros s Hw Hbud;
    destruct (Hcalls s Hw Hbud) as (s' & (k & Hrun) & (Hcost & _) & Hw').
  - destruct Hw' as [Hw' _]. by exists s', k.
  - by exists s', k.
Qed.

(** A state to start from: a VM with one object, fresh from its program. *)
Lemma holds_newVM cfg pd prg obj file vars dflt globals fluffos :
  vars_agree vars globals (variables (newObject file pd prg fluffos 0)) ->
  (if String.eqb (cfg_dialect cfg) "fluffos" then makeUndefinedNumber else VInt 0) = dflt ->
  holds (mkWorld pd prg obj file vars dflt) globals (newVM cfg {[ obj := newObject file pd prg fluffos 0 ]} {[ pd := prg ]}).
Proof.
  intros Hv Hd. split; [| |exact Hd|apply cache_ok_empty].
  - exact (f_equal (default emptyProgram) (lookup_singleton_eq (M := gmap pid) pd prg)).
  - exists (newObject file pd prg fluffos 0). split; [exact (lookup_singleton_eq (M := gmap oid) obj _)|]. done.
Qed.

(** ** An example, from its source text *)
Definition exampleText : string :=
"int total;
int fact(int n) { if (n <= 1) return 1; return n * fact(n - 1); }
int sum(int n) {
  int i;
  for (i = 1; i <= n; i++) { if (i == 3) continue; total += fact(i); }
  return total;
}".
Definition exampleAst : Program :=
  match tokenize FluffOS exampleText with
  | Ok ts => match parseTokens 1000 FluffOS ts with Ok p => p | _ => mkProgramAst [] [] [] [] end
  | _ => mkProgramAst [] [] [] []
  end.
Definition examplePrg : CompiledProgram := match compile 5 exampleAst [] with Ok p => p | _ => emptyProgram end.
Example example_supported : supported_program exampleAst = true /\ length (pg_functions exampleAst) = 2.
Proof. vm_compute. done. Qed.
Example example_result : interpret exampleAst (VInt 0) "/a" 60 "sum" [VInt 5] {["total" := VInt 0]} =
  (Ok (VInt 147), {["total" := VInt 147]}).
Proof. vm_compute. done. Qed.

Section Witness.
#[local] Instance noEfuns : EfunTable := fun _ => None.
Definition exampleState : VMState :=
  newVM (configFor "ldmud" 1000) {[ 1%positive := newObject "/a" 1%positive examplePrg false 0 ]} {[ 1%positive := examplePrg ]}.
Definition exampleWorld : World := objectWorld exampleAst examplePrg 1%positive 1%positive "/a" (VInt 0).
Lemma example_vars : vars_agree (object_env (pg_objectVars exampleAst) 0 ∅) {[ "total" := VInt 0 ]} (variables (newObject "/a" 1%positive examplePrg false 0)).
Proof.
  assert (object_env (pg_objectVars exampleAst) 0 ∅ = {[ "total" := 0%Z ]}) as -> by (vm_compute; reflexivity).
  assert (variables (newObject "/a" 1%positive examplePrg false 0) = [VInt 0]) as -> by (vm_compute; reflexivity). split.
  - intros x. destruct (decide (x = "total")) as [->|Hx].
    + rewrite !lookup_singleton_eq. split; intros _; by eexists.
    + by rewrite !lookup_singleton_ne by done.
  - intros x v Hx. apply lookup_singleton_Some in Hx as [<- <-]. split; [reflexivity|]. by exists 0.
Qed.
Lemma example_holds : holds exampleWorld {[ "total" := VInt 0 ]} exampleState.
Proof.
  unfold exampleState, exampleWorld, objectWorld. apply holds_newVM; [exact example_vars|reflexivity].
Qed.
Example example_runs : match ownFunction examplePrg "sum" with
  | Some fn => fst (run (fun _ => 0%Z) 400 1%positive fn [VInt 5] 1%positive exampleState)
  | None => OutOfFuel
  end = Ok (VInt 147).
Proof. vm_compute. reflexivity. Qed.

Lemma compile_refines_witness : holds exampleWorld {[ "total" := VInt 0 ]} exampleState /\
  exists fn cost, ownFunction examplePrg "sum" = Some fn /\ (0 <= cost)%Z /\
    forall s, holds exampleWorld {[ "total" := VInt 0 ]} s -> (evalCost s + cost <= maxEvalCost s)%Z ->
      exists s' k, (forall f, k <= f -> run (fun _ => 0%Z) f 1%positive fn [VInt 5] 1%positive s = (Ok (VInt 147), s')) /\
        holds exampleWorld {[ "total" := VInt 147 ]} s' /\ (evalCost s' <= evalCost s + cost)%Z.
Proof.
  split; [exact example_holds|].
  apply (compile_refines (fun _ => 0%Z) exampleAst examplePrg 5 1%positive 1%positive "/a" (VInt 0) 60 "sum" [VInt 5]
    {[ "total" := VInt 0 ]} (Ok (VInt 147)) {[ "total" := VInt 147 ]}).
  - vm_compute. reflexivity.
  - vm_compute. reflexivity.
  - vm_compute. done.
  - reflexivity.
  - vm_compute. reflexivity.
Defined.
End Witness.
